(* ===== verification/_CoqProject ===== *)
-Q . S2P
Prelude.v
Bytes.v
Ns.v
Probe.v
Cache.v
CacheLemmas.v
CacheOps.v
Kv.v
KvSpec.v
Loads.v
Seqlock.v
CacheRace.v
Glob.v
RCache.v
RCacheLemmas.v
RCacheSpec.v
RCacheTags.v
RCacheUrl.v
Coalesce.v
SQueue.v
SQueueSpec.v
SQueueCrash.v
SQueueRace.v
ShmLock.v
RateLimit.v
Http.v
Compress.v
Trust.v
TrustSpec.v
Cgi.v
CachePolicy.v
CacheKey.v
CacheStore.v
Esi.v
EsiSpec.v
Statics.v
Broadcast.v
BroadcastRace.v
Server.v
ServerDemo.v
ServerCache.v
ServerSpec.v
ServerGaps.v
Upload.v
UploadSpec.v
Supervisor.v
SupervisorSpec.v
SupervisorReload.v
SupervisorGaps.v
Cow.v
Pusher.v
PusherSpec.v
Admin.v
Oracle.v
OracleSpec.v
Routes.v
Verify.v
VerifySpec.v
Config.v
ConfigSpec.v
ConfigDemo.v
ConfigKeys.v
Startup.v
StartupSpec.v
StartupDemo.v
Sse.v
SseSpec.v
Record.v
RecordSpec.v
QueueWatch.v
Bleed.v
Bridge.v
BridgeSpec.v
Handoff.v
Upgrade.v
UpgradeSpec.v
Worker.v
WorkerSpec.v
Serving.v
ServingSpec.v
