(* ===== verification/Prelude.v ===== *)
(** Askr: a verification library for the Rust core of the Askr application server.

    Askr serves PHP applications over HTTP from prefork worker processes, each with an embedded
    interpreter.  What makes it more than a server for PHP is state the processes share in
    memory: a response cache, a key/value cache, a job queue, a broadcast ring, rate limits.
    This library models that shared state, the policies that decide what goes into it, and one
    request from its headers to its response, and proves what each of them promises.

    * The parts, their files and their sources

    Source paths are under [src/crates/askr/src/] unless they are given in full.  A component's definitions come first; a
    file named [...Spec], [...Ops], [...Race] or [...Lemmas] holds its theorems, which otherwise follow
    in the same file.

    - [Prelude] (this file): 64-bit arithmetic with the source's wrapping and saturation, the
      [lit] byte literals, the lemmas and tactics the components share, and loops that run until
      a turn says to stop ([Section Loop]).  [Bytes]: the byte-string and number operations of
      the Rust standard library, UTF-8 included.  [Probe]: linear probing over a window of slots,
      with tombstones.  [Loads]: programs of single loads interleaved with others' stores.
    - [Ns] ([ns.rs]): the id of an application and the prefix it puts on shared keys.
    - [Cache], [CacheLemmas], [CacheOps], [Kv], [KvSpec] ([cache.rs]): the key/value cache.
      [Cache.Region] is the table of slots, one per size class; [Kv] is the API PHP calls.
      [KvSpec] proves it against a partial map ([lookup_key]).  [Seqlock] is the lock-free
      read, load by load; [CacheRace] is [add] against [delete], slot by slot.
    - [Glob], [RCache], [RCacheLemmas], [RCacheSpec], [RCacheTags], [RCacheUrl], [Coalesce]
      ([rcache.rs]): wildcard matching, the response cache with its deadlines, tag generations
      and URL index, the dump across restarts, and the in-flight table behind coalescing.
    - [SQueue], [SQueueSpec], [SQueueCrash], [SQueueRace] ([squeue.rs]): the job queue alone,
      with pushers that die between two stores, and with its users interleaved.
    - [ShmLock] ([shmlock.rs]): the spinlock under all of them, with owners that die.
    - [RateLimit] ([ratelimit.rs]): token buckets.
    - [Broadcast], [BroadcastRace] ([broadcast.rs]): the ring of events, word by word.
    - [Http], [Compress], [Trust], [TrustSpec], [Cgi] ([compress.rs], [server/trust.rs],
      [cgi.rs]): header maps, content negotiation, who the client is, what PHP is told.
    - [CachePolicy], [CacheKey], [CacheStore] ([server/cache_policy.rs]): what may be cached,
      under which key, for how long, and the two-step lookup through [Vary].
    - [Esi], [EsiSpec] ([esi.rs], [server/esi.rs]): edge side includes.
    - [Statics] ([server/statics.rs]): files.
    - [Upload], [UploadSpec] ([upload.rs]): multipart bodies and PHP's upload limits.
    - [Server], [ServerDemo], [ServerCache], [ServerSpec], [ServerGaps] ([server/mod.rs], with
      the fragment fetch of [server/esi.rs] and the refresh of [server/cache_policy.rs]): the
      whole request, on top of the parts above.
    - [Supervisor], [SupervisorSpec], [SupervisorReload], [SupervisorGaps], [Cow]
      ([supervisor.rs], with the canary's inputs from [metrics.rs] and [verify.rs]): the master
      process, its main loop one access at a time with signal handlers between any two, and the
      copy-on-write template.
    - [Pusher], [PusherSpec] ([pusher.rs], with the trigger endpoint of [server/mod.rs]): channel
      authorisation and the REST signature.  [Admin] ([admin.rs]): the gate of the admin plane and
      what it dispatches to.  [Sse], [SseSpec] ([server/sse.rs], with the task of [server/mod.rs]
      that tails the ring): the hub of server-sent events, its subscribers and their frames.
    - [Oracle], [OracleSpec] ([oracle.rs]): samples of cacheable pages and the rules they suggest.
      [Routes] ([routes.rs]): the per-route counts, one store at a time.
      [Verify], [VerifySpec] ([verify.rs]): recorded requests replayed against a new deployment.
    - [Record], [RecordSpec] ([record.rs], on what [Cgi] and [Upload] make of a request): what is
      written of a failed request and what a replay of it runs.  [QueueWatch]
      ([queue.rs], the watchdog of [supervisor.rs]): which queues are stalled and why, over
      [SQueue]'s reports.  [Bleed] ([bleed.rs]): the table of leaking state.
    - [Bridge], [BridgeSpec], [Handoff] ([php.rs], [src/crates/askr-php/src/lib.rs], and the loop,
      the buffers and the request slot of [src/crates/askr-php/csrc/shim.c]): the thread of the
      interpreter, from the channel its requests come through to the answers they get, and the
      request as PHP sees it.
    - [Upgrade], [UpgradeSpec] ([upgrade.rs]): the command that replaces an install, with the states it
      can be killed in.
    - [Serving], [ServingSpec] (the accept loop, the connections and the drain of [server/mod.rs], with
      the requests of [http3.rs]): the life of a worker that serves, event by event.
      [Worker], [WorkerSpec] ([worker.rs], [sandbox.rs], the child of the template in
      [supervisor.rs]): how it starts, and what confines it.
    - [Config], [ConfigSpec], [ConfigDemo], [ConfigKeys] ([config.rs], with [app_path] of [ns.rs] and
      [parse_size] of [main.rs]): the sections of the file, every check of [resolve], what the
      server runs with, the names of applications, and the advice on keys that do not exist.
    - [Startup], [StartupSpec], [StartupDemo] ([main.rs], [acme.rs]): the [serve] command, from flags
      or a file to the regions mapped, the port bound and the shape of the process.
    * How they fit together

    [Server.handle] follows [handle] of [server/mod.rs] from the guards to the response.  Its
    [World] holds what requests share: the response cache ([RCache.Cache]), the in-flight table
    ([Coalesce]), the rate limiter, saint mode, and PHP, a function of what it has run so far.
    The handler asks [Trust] for the client, [RateLimit] for leave, [Statics] for a file,
    [CachePolicy] for the key and [CacheStore] for an entry; it leads or follows through
    [Coalesce], runs PHP on what [Cgi] makes of the request, expands the page with [Esi], whose
    fragments are requests again, and stores by [CachePolicy].  [CachePolicy] keeps its entries
    in [RCache], whose probing, like [Cache]'s, is [Probe]'s.  [Kv], [SQueue] and [RCache] put
    [Ns]'s prefix on what an application names.  [Seqlock] and [Broadcast] are programs of
    [Loads].  [ShmLock] is why [Cache], [RCache], [RateLimit] and [SQueueRace] may take a slot
    visit as one step.  What stands behind [Server]'s PHP is
    [Bridge], where an answer is settled, and [Handoff], which gives the interpreter the request that
    [Cgi] and [Upload] made ([Record.Job]).  Outside a request, [Verify] is the gate [Supervisor] asks before a reload
    goes on, [Admin]'s reload is [Supervisor.begin_reload], and [Routes] names its rows by
    [Oracle.path_pattern].  [Startup.serve] comes before all of them: it resolves a [Config], maps
    the regions, and hands [Supervisor] its settings ([supervisor_conf]); the names that [Config]
    gives applications are [Ns]'s.  A worker that [Supervisor] forks goes through [Worker], on the
    configuration that was resolved, and then lives in [Serving], whose requests are [Server]'s and
    whose [draining] is what [Bridge.exit_code] looks at when the interpreter's script ends.

    * What the theorems show

    - Refinement and functional behaviour: the key/value API against a partial map, a response
      from its store to every deadline after it, the queue's [pop] as the oldest ready job, the
      plan of a page against the grammar of the page.
    - Safety: no body PHP rendered for a visitor with an identity is ever in the shared cache;
      [Vary] variants are kept apart; applications do not read each other's keys; the client
      address and the server variables cannot be forged from outside; no file outside the
      document root and no PHP source is served; an upload leaves no temp file outside its guard.
    - Concurrency: peeks are linearizable, reservations exclusive, the lock excludes while nobody
      steals it, one of several racing [add]s wins, ring events are untorn -- each with the
      condition it needs, and where that condition is not met by the code, the run that shows it.
    - Crash safety and persistence: a pusher that dies, a ring taken over, a dump restored.
    - Errors and bounds: PHP that fails, a leader that is refused, limits on uploads, requests,
      fragments, retries and sizes; saturation and wrapping at 64 bits.
    - Termination and liveness: the scans end; a leader's key is released; a crash loop ends,
      and so does a shutdown.
    - Process control: a reload goes through its canary, workers drain one at a time, the
      template never loses a worker -- and the runs in which the master does not keep to that.
    - The life of a worker: with a sandbox that is required no PHP starts before it holds; a drain
      gives each connection its ten seconds and ends -- with the runs in which a panic, HTTP/3 or a
      certificate that does not load breaks that.
    - Authority: a signature names one channel and one body, the admin plane answers nothing before
      its token but the paths it says are open, a suggested rule is a line of configuration and no
      more, and a deployment that regresses stops its own roll-out.
    - Configuration: a file that resolves keeps its promises, applications whose names are distinct
      share nothing when start-up does not say so, and a server that comes up has what its
      configuration relies on; what is wrong is refused before the port is bound.
    - Reports: no credential is ever recorded and what is recorded can be replayed; a stalled queue
      is flagged with the fault its lanes show; the table of leaks is the history of reports.
    - The interpreter: every request of a worker is answered, by its own request only and as a whole or
      visibly not, as the mode that starts PHP anew would answer it -- with the runs in which what a
      request left behind, an exception or the exit of the process breaks that.
    - Upgrades: what takes the place of an install was published, matched its checksum and was signed.
    - Fan-out: a subscriber hears its channel in order and without a gap until it is cut off.
    - Each statement names the condition it needs; where the code does not meet it, the run that
      shows it is beside it.
    - Counts: one row per route however its writers interleave, and each request counted once.
    - Findings: runs in which the code does not do what its comments say are theorems too
      ([ServerGaps], and at the end of the other files).

    * Bounds, fuel and time

    Loops of the source over slots are [Fixpoint]s over the window or the table, of the source's
    own sizes.  [digits_acc] has fuel 20, the digits of a 64-bit number.  [utf8_walk], [Glob] and
    [Esi] have fuel from the length of what they scan, and the theorems say that it is enough
    ([glob_match_correct], [esi_walks_end]).  Expansion runs [ESI_MAX_PASSES] passes and
    [ESI_MAX_INCLUDES] includes, as in the source; fragments of fragments are [Server.depth]
    levels, and [php_runs_bounded] counts what that can run.  A follower's wait is one step to
    what the leader has left by then.  Clocks are arguments, still within one operation.
    The supervisor's [roll_loop] has fuel for every slot and one more, as its cursor moves at each
    turn.  The million spins after which [Routes] takes a slot for dead are the label [impatient].
    Memory is sequentially consistent.

    * Not modelled

    - mmap, file locks, [shm_open], the guard of foreign calls ([ffi.rs]), and PHP itself: unsafe
      memory and foreign code.  Of the shim, the start of the engine, the fork of the template and the
      PHP functions that only pass their arguments on.
    - TLS, ACME and HTTP/3 ([tls.rs], [acme.rs], [http3.rs]) but for what is named above: glue to [rustls], [instant-acme] and
      [quinn].  The SQL back ends ([*_sql.rs]): glue to [sqlx].
    - The terminal and pre-flight tools ([top.rs], [doctor.rs], [explain.rs], [tune.rs],
      [term.rs]), telemetry ([otel.rs], [metrics.rs], [shadow.rs], [server/why.rs]): they report and do not change an answer.
    - Of [worker.rs], the sidecars and the socket; of [sandbox.rs], what the kernel does with a filter or
      a ruleset, which is [Worker]'s parameter.  Of [main.rs], the commands but [serve], and the CPU limit
      of a container.  Of [supervisor.rs], the watcher of the certificate is a reload at any time,
      and the status report changes nothing.
    - The documents the admin plane prints and the WebSocket frames of [pusher.rs]: text over the
      state modelled here.  JSON parsing, HMAC and MD5 are parameters of [Pusher], [Admin] and
      [Verify].  [toml] and [serde] fill the sections of a
      [FileConfig], [clap] the arguments of [serve]. *)

From Stdlib Require Export ZArith Lia ZifyBool.
From stdpp Require Export prelude list list_numbers numbers option.
Export list_basics.list list_relations.list list_monad.list list_misc.list
  list_tactics.list list_numbers.list.

#[global] Open Scope Z_scope.

(** * Unsigned 64-bit arithmetic

    A [u64], [usize] or [u32] of the source is a [Z]; the operations that can leave the
    range are written out with the source's own overflow behaviour. *)

Definition W64 : Z := 2 ^ 64.
Definition u64_max : Z := W64 - 1.

(** [x as u64], [wrapping_add], and plain [+] in the release profile. *)
Definition wrap64 (x : Z) : Z := x mod W64.

(** [u64::saturating_add], [saturating_mul], [saturating_sub]. *)
Definition sat_add64 (x y : Z) : Z := Z.min (x + y) u64_max.
Definition sat_mul64 (x y : Z) : Z := Z.min (x * y) u64_max.
Definition sat_sub64 (x y : Z) : Z := Z.max (x - y) 0.

(** [i64::saturating_add]. *)
Definition i64_min : Z := - 2 ^ 63.
Definition i64_max : Z := 2 ^ 63 - 1.
Definition sat_add_i64 (x y : Z) : Z := Z.max i64_min (Z.min i64_max (x + y)).

Definition is_u64 (x : Z) : Prop := 0 <= x < W64.

(** The development's tactics: [case_bool] splits on the boolean tests of a goal or
    hypothesis, [zbool] turns them into arithmetic, and [crush] closes what is left. *)
Ltac zbool :=
  repeat match goal with
  | H : (_ && _)%bool = true |- _ => apply andb_true_iff in H; destruct H
  | H : (_ || _)%bool = false |- _ => apply orb_false_iff in H; destruct H
  | H : negb _ = true |- _ => apply negb_true_iff in H
  | H : negb _ = false |- _ => apply negb_false_iff in H
  | H : (_ =? _)%Z = true |- _ => apply Z.eqb_eq in H
  | H : (_ =? _)%Z = false |- _ => apply Z.eqb_neq in H
  | H : (_ <? _)%Z = true |- _ => apply Z.ltb_lt in H
  | H : (_ <? _)%Z = false |- _ => apply Z.ltb_ge in H
  | H : (_ <=? _)%Z = true |- _ => apply Z.leb_le in H
  | H : (_ <=? _)%Z = false |- _ => apply Z.leb_gt in H
  | H : bool_decide _ = true |- _ => apply bool_decide_eq_true in H
  | H : bool_decide _ = false |- _ => apply bool_decide_eq_false in H
  end.

Ltac case_bool :=
  match goal with
  | |- context [if ?b then _ else _] => destruct b eqn:?
  | H : context [if ?b then _ else _] |- _ => destruct b eqn:?
  end.

Ltac crush := repeat case_bool; zbool; simplify_eq/=; try lia; try done.

(** [words] exposes the machine-word bounds as numerals, for [lia]. *)
Ltac words :=
  unfold is_u64, sat_add64, sat_mul64, sat_sub64, sat_add_i64, i64_min, i64_max, u64_max, W64 in *;
  change (2 ^ 64) with 18446744073709551616 in *;
  change (2 ^ 63) with 9223372036854775808 in *.

(** A concrete list does not hold the element. *)
Ltac not_in := vm_compute; intros H;
  repeat (apply elem_of_cons in H as [H|H]; [discriminate|]); by apply elem_of_nil in H.

Create HintDb askr discriminated.
#[export] Hint Constants Opaque : askr.

Lemma W64_pos : 0 < W64.
Proof. reflexivity. Qed.

Lemma wrap64_range x : is_u64 (wrap64 x).
Proof. apply Z.mod_pos_bound, W64_pos. Qed.

Lemma wrap64_id x : is_u64 x -> wrap64 x = x.
Proof. intros. by apply Z.mod_small. Qed.

Lemma sat_add64_range x y : is_u64 x -> is_u64 y -> is_u64 (sat_add64 x y).
Proof. unfold is_u64, sat_add64, u64_max. pose proof W64_pos. lia. Qed.

Lemma sat_mul64_range x y : is_u64 x -> is_u64 y -> is_u64 (sat_mul64 x y).
Proof. unfold is_u64, sat_mul64, u64_max. pose proof W64_pos. nia. Qed.

Lemma sat_add64_ge x y : is_u64 x -> 0 <= y -> x <= sat_add64 x y.
Proof. unfold is_u64, sat_add64, u64_max. lia. Qed.

#[export] Hint Resolve wrap64_range sat_add64_range sat_mul64_range : askr.

Lemma forallb_Forall {A} (f : A -> bool) (l : list A) :
  forallb f l = true <-> Forall (fun x => f x = true) l.
Proof.
  induction l as [|x l IH]; simpl; [done|].
  rewrite andb_true_iff, IH, Forall_cons. done.
Qed.

(** * Lists addressed by [nat] indices *)

(** [xs[i] = x] for an index the caller has checked. *)
Lemma lookup_total_insert_dec `{Inhabited A} (l : list A) (i j : nat) (x : A) :
  (i < length l)%nat ->
  <[i := x]> l !!! j = if decide (i = j) then x else l !!! j.
Proof.
  intros Hi. case_decide as E.
  - subst. by apply list_lookup_total_insert_eq.
  - by apply list_lookup_total_insert_ne.
Qed.

Lemma lookup_lookup_total `{Inhabited A} (l : list A) (i : nat) (x : A) :
  l !! i = Some x -> l !!! i = x.
Proof. apply list_lookup_total_correct. Qed.

Lemma lookup_total_lookup `{Inhabited A} (l : list A) (i : nat) :
  (i < length l)%nat -> l !! i = Some (l !!! i).
Proof. intros. by apply list_lookup_lookup_total_lt. Qed.

Lemma filter_all {A} (P : A -> Prop) `{!forall x, Decision (P x)} (l : list A) :
  Forall P l -> filter P l = l.
Proof. induction 1 as [|x l Hx _ IH]; [done|]. by rewrite filter_cons_True, IH. Qed.

(** An association list with distinct keys holds one value for each. *)
(** Elements of a list whose images under [f] are distinct are told apart by [f]. *)
Lemma NoDup_fmap_inj_on {A B} (f : A -> B) l x y : NoDup (f <$> l) -> x ∈ l -> y ∈ l -> f x = f y -> x = y.
Proof.
  intros Hn [i Hi]%list_elem_of_lookup [j Hj]%list_elem_of_lookup E.
  assert (i = j) as ->; [|congruence].
  apply (NoDup_lookup _ _ _ (f x) Hn); rewrite list_lookup_fmap; [by rewrite Hi|by rewrite Hj, E].
Qed.

Lemma NoDup_fst_inj {A B} (l : list (A * B)) k a b :
  NoDup l.*1 -> (k, a) ∈ l -> (k, b) ∈ l -> a = b.
Proof.
  induction l as [|[k' x] l IH]; cbn [fmap list_fmap fst]; [by intros _ ?%elem_of_nil|].
  rewrite NoDup_cons. intros [Hn Hnd] [Ha|Ha]%elem_of_cons [Hb|Hb]%elem_of_cons; [by simplify_eq| | |by apply IH].
  - simplify_eq. destruct Hn. apply list_elem_of_fmap. by exists (k', b).
  - simplify_eq. destruct Hn. apply list_elem_of_fmap. by exists (k', a).
Qed.

(** * Loops

    A [while] loop of the source is a step function and an amount of fuel; [loop] gives [None]
    only when the fuel runs out, and [loop_returns] bounds the fuel by a measure. *)

Section Loop.
Context {S A : Type} (step : S -> S + A).

Fixpoint loop (fuel : nat) (s : S) : option A :=
  match fuel with
  | O => None
  | Datatypes.S f => match step s with inl s' => loop f s' | inr a => Some a end
  end.

Lemma loop_returns (inv : S -> Prop) (measure : S -> nat) fuel s :
  (forall s s', inv s -> step s = inl s' -> inv s' /\ (measure s' < measure s)%nat) ->
  inv s -> (measure s < fuel)%nat -> exists a, loop fuel s = Some a.
Proof.
  intros Hstep. revert s. induction fuel as [|fuel IH]; intros s Hs Hf; [lia|]. cbn [loop].
  destruct (step s) as [s'|a] eqn:E; [|by eexists].
  destruct (Hstep s s' Hs E). apply IH; [done|lia].
Qed.

(** What holds of the states and carries back from the last step to the first. *)
Lemma loop_ind (inv : S -> Prop) (P : S -> A -> Prop) fuel s a :
  (forall s s', inv s -> step s = inl s' -> inv s') ->
  (forall s a, inv s -> step s = inr a -> P s a) ->
  (forall s s' a, inv s -> step s = inl s' -> P s' a -> P s a) ->
  inv s -> loop fuel s = Some a -> P s a.
Proof.
  intros Hinv Hr Hl. revert s. induction fuel as [|fuel IH]; intros s Hs H; [done|]. cbn [loop] in H.
  destruct (step s) as [s'|a'] eqn:E; [|simplify_eq; by apply Hr].
  eapply Hl; [done..|]. apply IH; [by eapply Hinv|done].
Qed.
End Loop.
