(* ===== verification/Bytes.v ===== *)
(** Byte strings ([&[u8]] and [&str]) and the operations of the Rust standard library on
    them that the source uses.  A byte is a [Z] between 0 and 255; a [str] is its UTF-8
    encoding. *)

From Stdlib Require Import String Ascii.
From S2P Require Import Prelude.
Export String.StringSyntax.

Abbreviation bytes := (list Z).

(** A string literal of the source, as bytes. *)
Definition lit (s : string) : bytes := (fun c => Z.of_N (N_of_ascii c)) <$> list_ascii_of_string s.
Arguments lit s%_string_scope.

Definition is_byte (x : Z) : Prop := 0 <= x < 256.
Definition is_bytes (b : bytes) : Prop := Forall is_byte b.

Definition beq (x y : bytes) : bool := bool_decide (x = y).

(** [u8::is_ascii_digit], [is_ascii_hexdigit], [is_ascii_alphabetic], ... *)
Definition between (lo hi x : Z) : bool := (lo <=? x) && (x <=? hi).
Definition is_ascii_digit : Z -> bool := between 48 57.
Definition is_ascii_lowercase : Z -> bool := between 97 122.
Definition is_ascii_uppercase : Z -> bool := between 65 90.
Definition is_ascii_alphabetic (x : Z) : bool := is_ascii_lowercase x || is_ascii_uppercase x.
Definition is_ascii_alphanumeric (x : Z) : bool := is_ascii_alphabetic x || is_ascii_digit x.
Definition is_ascii_hexdigit (x : Z) : bool :=
  is_ascii_digit x || between 97 102 x || between 65 70 x.

(** [u8::to_ascii_lowercase] and its lifting to slices. *)
Definition to_lower (x : Z) : Z := if is_ascii_uppercase x then x + 32 else x.
Definition to_ascii_lowercase (b : bytes) : bytes := to_lower <$> b.
Definition eq_ignore_ascii_case (x y : bytes) : bool :=
  beq (to_ascii_lowercase x) (to_ascii_lowercase y).

(** [starts_with], [strip_prefix]. *)
Fixpoint strip_prefix (p b : bytes) : option bytes :=
  match p, b with
  | [], _ => Some b
  | x :: p', y :: b' => if x =? y then strip_prefix p' b' else None
  | _ :: _, [] => None
  end.
Definition starts_with (b p : bytes) : bool := bool_decide (is_Some (strip_prefix p b)).

(** [slice.split(|b| *b == sep)]: always at least one piece. *)
Fixpoint split_on (sep : Z) (b : bytes) : list bytes :=
  match b with
  | [] => [[]]
  | x :: b' =>
      if x =? sep then [] :: split_on sep b'
      else match split_on sep b' with
           | [] => [[x]]
           | p :: ps => (x :: p) :: ps
           end
  end.

(** [iter().position(|b| *b == x)]. *)
Fixpoint position (x : Z) (b : bytes) : option nat :=
  match b with
  | [] => None
  | y :: b' => if y =? x then Some 0%nat else S <$> position x b'
  end.

(** [str::split_once(c)] for an ASCII [c]. *)
Definition split_once (c : Z) (b : bytes) : option (bytes * bytes) :=
  match position c b with
  | Some i => Some (take i b, drop (S i) b)
  | None => None
  end.

(** * UTF-8 as [str::from_utf8] and [String::from_utf8_lossy] read it *)

Definition is_cont (x : Z) : bool := between 0x80 0xBF x.

(** The second byte a lead byte allows, and how many continuation bytes follow that one. *)
Definition utf8_lead (x : Z) : option (Z * Z * nat) :=
  if between 0xC2 0xDF x then Some (0x80, 0xBF, 0%nat)
  else if x =? 0xE0 then Some (0xA0, 0xBF, 1%nat)
  else if x =? 0xED then Some (0x80, 0x9F, 1%nat)
  else if between 0xE1 0xEF x then Some (0x80, 0xBF, 1%nat)
  else if x =? 0xF0 then Some (0x90, 0xBF, 2%nat)
  else if between 0xF1 0xF3 x then Some (0x80, 0xBF, 2%nat)
  else if x =? 0xF4 then Some (0x80, 0x8F, 2%nat)
  else None.

Fixpoint count_cont (n : nat) (b : bytes) : nat :=
  match n, b with
  | S n', x :: b' => if is_cont x then S (count_cont n' b') else O
  | _, _ => O
  end.

(** The first character of a non-empty [b]: its length and whether it is well formed; of an
    ill-formed one, the longest prefix of a character. *)
Definition utf8_char (b : bytes) : nat * bool :=
  match b with
  | [] => (0%nat, true)
  | x :: b' =>
      if x <? 0x80 then (1%nat, true)
      else match utf8_lead x, b' with
           | Some (lo, hi, n), y :: b'' =>
               if between lo hi y then
                 let c := count_cont n b'' in ((2 + c)%nat, (c =? n)%nat)
               else (1%nat, false)
           | _, _ => (1%nat, false)
           end
  end.

Definition REPLACEMENT : bytes := [0xEF; 0xBF; 0xBD].
Fixpoint utf8_walk (fuel : nat) (b : bytes) : bytes * bool :=
  match fuel, b with
  | S f, _ :: _ =>
      let '(n, ok) := utf8_char b in
      let '(rest, all) := utf8_walk f (drop n b) in
      ((if ok then take n b else REPLACEMENT) ++ rest, ok && all)
  | _, _ => ([], true)
  end.
Definition from_utf8_lossy (b : bytes) : bytes := (utf8_walk (length b) b).1.
Definition from_utf8_ok (b : bytes) : bool := (utf8_walk (length b) b).2.

(** [str::is_char_boundary], and the largest boundary up to [n]. *)
Definition is_char_boundary (n : nat) (b : bytes) : bool :=
  match b !! n with Some x => negb (is_cont x) | None => true end.
Fixpoint char_boundary (n : nat) (b : bytes) : nat :=
  if is_char_boundary n b then n else match n with O => O | S n => char_boundary n b end.

(** [Ord for \[u8\]] and [Option]. *)
Fixpoint bytes_cmp (x y : bytes) : comparison :=
  match x, y with
  | [], [] => Eq
  | [], _ => Lt
  | _, [] => Gt
  | a :: x', b :: y' => match a ?= b with Eq => bytes_cmp x' y' | c => c end
  end.
Definition option_cmp {A} (cmp : A -> A -> comparison) (x y : option A) : comparison :=
  match x, y with
  | None, None => Eq
  | None, _ => Lt
  | _, None => Gt
  | Some a, Some b => cmp a b
  end.
(** [Ordering::then_with]. *)
Definition then_with (c d : comparison) : comparison := match c with Eq => d | _ => c end.

(** [slice::sort_by], which is stable. *)
Fixpoint insert_by {A} (cmp : A -> A -> comparison) (x : A) (l : list A) : list A :=
  match l with
  | [] => [x]
  | y :: l' => match cmp x y with Gt => y :: insert_by cmp x l' | _ => x :: l end
  end.
Definition sort_by {A} (cmp : A -> A -> comparison) (l : list A) : list A :=
  foldr (insert_by cmp) [] l.

(** * Whitespace: [str::trim] strips every [White_Space] code point, so the encodings of the
    non-ASCII ones are listed too. *)
Definition ws_encodings : list bytes :=
  [[9]; [10]; [11]; [12]; [13]; [32]; [0xC2; 0x85]; [0xC2; 0xA0]; [0xE1; 0x9A; 0x80];
   [0xE2; 0x80; 0x80]; [0xE2; 0x80; 0x81]; [0xE2; 0x80; 0x82]; [0xE2; 0x80; 0x83];
   [0xE2; 0x80; 0x84]; [0xE2; 0x80; 0x85]; [0xE2; 0x80; 0x86]; [0xE2; 0x80; 0x87];
   [0xE2; 0x80; 0x88]; [0xE2; 0x80; 0x89]; [0xE2; 0x80; 0x8A]; [0xE2; 0x80; 0xA8];
   [0xE2; 0x80; 0xA9]; [0xE2; 0x80; 0xAF]; [0xE2; 0x81; 0x9F]; [0xE3; 0x80; 0x80]].

Definition strip_any (ps : list bytes) (b : bytes) : option bytes :=
  head (omap (fun p => strip_prefix p b) ps).

Fixpoint trim_with (fuel : nat) (ps : list bytes) (b : bytes) : bytes :=
  match fuel with
  | O => b
  | S f => match strip_any ps b with
           | Some b' => trim_with f ps b'
           | None => b
           end
  end.

Definition trim_start (b : bytes) : bytes := trim_with (length b) ws_encodings b.
Definition trim_end (b : bytes) : bytes :=
  reverse (trim_with (length b) (reverse <$> ws_encodings) (reverse b)).
Definition trim (b : bytes) : bytes := trim_end (trim_start b).

(** * Decimal numbers: [i64::to_string], [u64::to_string] and the [FromStr] parsers *)

Fixpoint digits_acc (fuel : nat) (n : Z) (acc : bytes) : bytes :=
  match fuel with
  | O => acc
  | S f => let acc' := (48 + n mod 10) :: acc in
           if n <? 10 then acc' else digits_acc f (n / 10) acc'
  end.

(** Twenty digits are enough for every 64-bit value. *)
Definition to_digits (n : Z) : bytes := digits_acc 20 n [].

Definition i64_to_string (n : Z) : bytes :=
  if n <? 0 then 45 :: to_digits (- n) else to_digits n.

Fixpoint parse_digits (acc : Z) (b : bytes) : option Z :=
  match b with
  | [] => Some acc
  | c :: b' => if is_ascii_digit c then parse_digits (acc * 10 + (c - 48)) b' else None
  end.

(** A non-empty digit string whose value lies in [[lo, hi]]; an optional sign first. *)
Definition in_range (lo hi : Z) (o : option Z) : option Z :=
  match o with
  | Some v => if (lo <=? v) && (v <=? hi) then Some v else None
  | None => None
  end.

Definition parse_nonempty (b : bytes) : option Z :=
  match b with [] => None | _ => parse_digits 0 b end.

Definition parse_i64 (b : bytes) : option Z :=
  in_range i64_min i64_max
    (match b with
     | 45 :: b' => Z.opp <$> parse_nonempty b'
     | 43 :: b' => parse_nonempty b'
     | _ => parse_nonempty b
     end).

(** [u64::from_str] and its narrower siblings accept a leading [+] and no [-]. *)
Definition parse_unsigned (hi : Z) (b : bytes) : option Z :=
  in_range 0 hi
    (match b with
     | 43 :: b' => parse_nonempty b'
     | _ => parse_nonempty b
     end).
Definition parse_u64 : bytes -> option Z := parse_unsigned u64_max.

(** * Lemmas *)

Lemma beq_true x y : beq x y = true <-> x = y.
Proof. apply bool_decide_eq_true. Qed.

Lemma beq_refl x : beq x x = true.
Proof. by apply beq_true. Qed.

Lemma strip_prefix_Some p b r : strip_prefix p b = Some r <-> b = p ++ r.
Proof.
  revert b. induction p as [|x p IHp]; intros b; simpl; [split; congruence|].
  destruct b as [|y b]; [split; congruence|]. destruct (Z.eqb_spec x y) as [->|].
  - rewrite IHp. split; congruence.
  - split; congruence.
Qed.

Lemma starts_with_true b p : starts_with b p = true <-> exists r, b = p ++ r.
Proof.
  unfold starts_with. rewrite bool_decide_eq_true. unfold is_Some.
  split; intros [r Hr]; exists r; by apply strip_prefix_Some.
Qed.

Lemma strip_prefix_app p r : strip_prefix p (p ++ r) = Some r.
Proof. by apply strip_prefix_Some. Qed.

Lemma split_on_nonempty sep b : split_on sep b <> [].
Proof. destruct b; simpl; [done|]. case_match; [done|]. by destruct (split_on _ _). Qed.

Lemma position_app x p b : x ∉ p -> position x (p ++ x :: b) = Some (length p).
Proof.
  induction p as [|y p IH]; intros Hp; cbn [Datatypes.app position length].
  - by rewrite Z.eqb_refl.
  - apply not_elem_of_cons in Hp as [Hy Hp]. apply not_eq_sym, Z.eqb_neq in Hy.
    by rewrite Hy, (IH Hp).
Qed.

Lemma split_on_app sep p b :
  sep ∉ p -> split_on sep (p ++ sep :: b) = p :: split_on sep b.
Proof.
  induction p as [|x p IH]; intros Hp; simpl.
  - by rewrite Z.eqb_refl.
  - apply not_elem_of_cons in Hp as [Hx Hp]. destruct (Z.eqb_spec x sep); [done|].
    by rewrite IH.
Qed.

Lemma split_on_none sep p : sep ∉ p -> split_on sep p = [p].
Proof.
  induction p as [|x p IH]; intros Hp; simpl; [done|].
  apply not_elem_of_cons in Hp as [Hx Hp]. destruct (Z.eqb_spec x sep); [done|].
  by rewrite IH.
Qed.

Lemma to_lower_idemp x : to_lower (to_lower x) = to_lower x.
Proof.
  unfold to_lower, is_ascii_uppercase, between. repeat case_bool; zbool; lia.
Qed.

Lemma parse_digits_app acc xs ys :
  parse_digits acc (xs ++ ys) = match parse_digits acc xs with
                                | Some a => parse_digits a ys
                                | None => None
                                end.
Proof.
  revert acc. induction xs as [|c xs IH]; intros acc; simpl; [done|].
  case_match; [apply IH|done].
Qed.

(** Printing then parsing, with the accumulator the printer carries. *)
Lemma digits_acc_app f n acc : digits_acc f n acc = digits_acc f n [] ++ acc.
Proof.
  revert n acc. induction f as [|f IH]; intros n acc; simpl; [done|].
  case_bool; [done|]. rewrite (IH _ (_ :: acc)), (IH _ [_]). by rewrite <- app_assoc.
Qed.

Lemma is_digit_mod n : is_ascii_digit (48 + n mod 10) = true.
Proof.
  unfold is_ascii_digit, between. pose proof (Z.mod_pos_bound n 10).
  apply andb_true_iff; split; apply Z.leb_le; lia.
Qed.

Lemma parse_digits_acc f n :
  0 <= n < 10 ^ Z.of_nat f -> parse_digits 0 (digits_acc f n []) = Some n.
Proof.
  revert n. induction f as [|f IH]; intros n Hn.
  - simpl in *. f_equal. lia.
  - cbn [digits_acc]. destruct (Z.ltb_spec n 10).
    + cbn [parse_digits]. rewrite is_digit_mod. f_equal. rewrite Z.mod_small; lia.
    + rewrite digits_acc_app, parse_digits_app, IH.
      * cbn [parse_digits]. rewrite is_digit_mod. f_equal.
        pose proof (Z.div_mod n 10). lia.
      * rewrite Nat2Z.inj_succ, Z.pow_succ_r in Hn by lia. split.
        -- apply Z.div_pos; lia.
        -- apply Z.div_lt_upper_bound; lia.
Qed.

Lemma digits_acc_S f n acc :
  digits_acc (S f) n acc =
  if n <? 10 then (48 + n mod 10) :: acc else digits_acc f (n / 10) ((48 + n mod 10) :: acc).
Proof. done. Qed.

Lemma digits_acc_head f n : exists c r,
  digits_acc (S f) n [] = c :: r /\ is_ascii_digit c = true.
Proof.
  revert n. induction f as [|f IH]; intros n; rewrite digits_acc_S.
  - exists (48 + n mod 10), []. split; [by case_bool|apply is_digit_mod].
  - case_bool; [eauto using is_digit_mod|].
    destruct (IH (n / 10)) as (c & r & E & Hc). rewrite digits_acc_app, E. by eexists _, _.
Qed.

Lemma to_digits_head n : exists c r, to_digits n = c :: r /\ is_ascii_digit c = true.
Proof. apply digits_acc_head. Qed.

Lemma parse_to_digits n : 0 <= n <= u64_max -> parse_nonempty (to_digits n) = Some n.
Proof.
  intros Hn. destruct (to_digits_head n) as (c & r & E & _).
  unfold parse_nonempty. rewrite E, <- E. apply parse_digits_acc.
  change (10 ^ Z.of_nat 20) with 100000000000000000000. words. lia.
Qed.

Lemma is_digit_not c : is_ascii_digit c = true -> c <> 43 /\ c <> 45.
Proof. unfold is_ascii_digit, between. intros. zbool. lia. Qed.

(** [n.to_string().parse::<i64>() == Ok(n)]. *)
Lemma parse_i64_to_string n : i64_min <= n <= i64_max -> parse_i64 (i64_to_string n) = Some n.
Proof.
  intros Hn. words. unfold parse_i64, i64_to_string.
  destruct (Z.ltb_spec n 0).
  - rewrite parse_to_digits by (words; lia). simpl.
    rewrite Z.opp_involutive. words.
    rewrite (proj2 (Z.leb_le _ _)), (proj2 (Z.leb_le _ _)); [done|lia..].
  - destruct (to_digits_head n) as (c & r & E & Hc). apply is_digit_not in Hc.
    assert (parse_nonempty (to_digits n) = Some n) as Hp
      by (apply parse_to_digits; words; lia).
    rewrite E in *. destruct (decide (c = 43)), (decide (c = 45)); [lia..|].
    replace (match c with 45 => Z.opp <$> parse_nonempty r | 43 => parse_nonempty r
             | _ => parse_nonempty (c :: r) end) with (Some n).
    + cbn. words.
      rewrite (proj2 (Z.leb_le _ _)), (proj2 (Z.leb_le _ _)); [done|lia..].
    + destruct c as [|p|p]; try done. repeat (destruct p as [p|p|]; try done); lia.
Qed.

Lemma digits_acc_digits f n acc :
  0 <= n -> forallb is_ascii_digit acc = true -> forallb is_ascii_digit (digits_acc f n acc) = true.
Proof.
  revert n acc. induction f as [|f IH]; intros n acc Hn Ha; [done|]. cbn [digits_acc].
  assert (is_ascii_digit (48 + n mod 10) = true) as Hd.
  { pose proof (Z.mod_pos_bound n 10). unfold is_ascii_digit, between. lia. }
  case_bool; [cbn [forallb]; by rewrite Hd|]. apply IH; [by apply Z.div_pos|cbn [forallb]; by rewrite Hd].
Qed.

Lemma to_digits_free n c : 0 <= n -> is_ascii_digit c = false -> c ∉ to_digits n.
Proof.
  intros Hn Hc Hi%list_elem_of_In. pose proof (digits_acc_digits 20 n [] Hn eq_refl) as Hd.
  rewrite forallb_forall in Hd. apply Hd in Hi. congruence.
Qed.

Lemma digits_acc_length f n acc : (length (digits_acc f n acc) <= f + length acc)%nat.
Proof.
  revert n acc. induction f as [|f IH]; intros n acc; [done|]. rewrite digits_acc_S.
  case_bool; [simpl; lia|]. etrans; [apply IH|]. simpl. lia.
Qed.

Lemma length_to_digits n : (length (to_digits n) <= 20)%nat.
Proof. etrans; [apply digits_acc_length|]. apply Nat.eq_le_incl. reflexivity. Qed.

Lemma length_i64_to_string n : (length (i64_to_string n) <= 21)%nat.
Proof.
  unfold i64_to_string. case_bool.
  - cbn [length]. apply le_n_S, length_to_digits.
  - etrans; [apply length_to_digits|]. lia.
Qed.

(** [trim] leaves printable ASCII without spaces alone. *)
Definition graphic (c : Z) : bool := between 33 126 c.

Lemma strip_any_graphic ps b :
  forallb (fun p => match p with x :: _ => negb (graphic x) | [] => false end) ps = true ->
  forallb graphic b = true -> strip_any ps b = None.
Proof.
  intros Hps Hb. unfold strip_any. induction ps as [|p ps IH]; [done|].
  simpl in Hps. apply andb_true_iff in Hps as [Hp Hps]. simpl.
  replace (strip_prefix p b) with (@None bytes); [by apply IH|].
  destruct p as [|x p]; [done|]. destruct b as [|y b]; [done|]. simpl in *.
  apply andb_true_iff in Hb as [Hy _]. destruct (Z.eqb_spec x y); [|done].
  subst. by rewrite Hy in Hp.
Qed.

Lemma trim_with_graphic f ps b :
  forallb (fun p => match p with x :: _ => negb (graphic x) | [] => false end) ps = true ->
  forallb graphic b = true -> trim_with f ps b = b.
Proof. intros. destruct f; [done|]. cbn [trim_with]. by rewrite strip_any_graphic. Qed.

Lemma forallb_reverse {A} (f : A -> bool) l : forallb f (reverse l) = forallb f l.
Proof.
  apply eq_true_iff_eq. by rewrite !forallb_Forall, Forall_reverse.
Qed.

Lemma trim_graphic b : forallb graphic b = true -> trim b = b.
Proof.
  intros Hb. unfold trim, trim_end, trim_start.
  rewrite (trim_with_graphic _ ws_encodings b) by done.
  rewrite trim_with_graphic; [apply reverse_involutive|done|by rewrite forallb_reverse].
Qed.

Lemma digits_acc_graphic f n acc :
  forallb graphic acc = true -> forallb graphic (digits_acc f n acc) = true.
Proof.
  assert (forall m, graphic (48 + m mod 10) = true) as Hd.
  { intros m. pose proof (Z.mod_pos_bound m 10). unfold graphic, between. lia. }
  revert n acc. induction f as [|f IH]; intros n acc Hacc; [done|]. rewrite digits_acc_S.
  case_bool; [simpl; by rewrite Hd|]. apply IH. simpl. by rewrite Hd.
Qed.

Lemma i64_to_string_graphic n : forallb graphic (i64_to_string n) = true.
Proof.
  unfold i64_to_string, to_digits. case_bool; [cbn [forallb]|];
    by rewrite digits_acc_graphic.
Qed.

(** ASCII is UTF-8 as it stands. *)
Lemma utf8_walk_ascii f b :
  (length b <= f)%nat -> forallb (between 0 127) b = true -> utf8_walk f b = (b, true).
Proof.
  revert b. induction f as [|f IH]; intros [|x b] Hl Hb; simpl in Hl; try done; [lia|].
  cbn [forallb] in Hb. apply andb_true_iff in Hb as [Hx Hb].
  cbn [utf8_walk utf8_char]. unfold between in Hx. zbool.
  replace (x <? 128) with true by (symmetry; apply Z.ltb_lt; lia). cbn [drop take].
  change (drop 0 b) with b. by rewrite IH by (done || lia).
Qed.

Lemma sort_by_Permutation {A} cmp (l : list A) : sort_by cmp l ≡ₚ l.
Proof.
  induction l as [|x l IH]; [done|]. cbn [sort_by foldr]. fold (sort_by cmp l).
  rewrite <- IH at 2. generalize (sort_by cmp l). intros k.
  induction k as [|y k IHk]; [done|]. cbn [insert_by]. destruct (cmp x y); [done|done|].
  rewrite IHk. by constructor.
Qed.

(** [trim] is idempotent: what it leaves has no white space at either end. *)
Lemma strip_any_Some ps b r : strip_any ps b = Some r -> exists p, p ∈ ps /\ b = p ++ r.
Proof.
  unfold strip_any. induction ps as [|p ps IH]; [done|]. cbn [omap list_omap].
  destruct (strip_prefix p b) eqn:E.
  - cbn. intros [= ->]. apply strip_prefix_Some in E. exists p. split; [left|done].
  - intros (q & ? & ?)%IH. exists q. split; [by right|done].
Qed.

Lemma strip_any_None ps b : strip_any ps b = None <-> forall p r, p ∈ ps -> b <> p ++ r.
Proof.
  unfold strip_any. induction ps as [|p ps IH]; [by split; [intros _ ? ? ?%elem_of_nil|]|].
  cbn [omap list_omap]. destruct (strip_prefix p b) as [b0|] eqn:E.
  - split; [done|]. intros H. apply strip_prefix_Some in E. by destruct (H p b0 ltac:(left)).
  - rewrite IH. split.
    + intros H q r [->|Hq]%elem_of_cons; [|by apply H]. intros E'%strip_prefix_Some. congruence.
    + intros H q r Hq. apply H. by right.
Qed.

Lemma trim_with_spec f ps b :
  Forall (fun p => p <> []) ps -> (length b <= f)%nat ->
  strip_any ps (trim_with f ps b) = None /\ exists l, b = l ++ trim_with f ps b.
Proof.
  intros Hps. revert b. induction f as [|f IH]; intros b Hl; cbn [trim_with].
  - destruct b; [|cbn in Hl; lia]. split; [|by exists []]. apply strip_any_None.
    intros p r Hp E. rewrite Forall_forall in Hps. apply (Hps p Hp). by destruct p.
  - destruct (strip_any ps b) as [b'|] eqn:E; [|split; [done|by exists []]].
    destruct (strip_any_Some _ _ _ E) as (p & Hp & ->). rewrite Forall_forall in Hps.
    specialize (Hps p Hp). destruct p as [|x p]; [done|]. cbn [length app] in Hl. rewrite length_app in Hl.
    destruct (IH b' ltac:(lia)) as [H1 [l Hl']]. split; [done|]. exists ((x :: p) ++ l).
    by rewrite <- app_assoc, <- Hl'.
Qed.

Lemma trim_with_None f ps b : strip_any ps b = None -> trim_with f ps b = b.
Proof. intros H. destruct f; [done|]. cbn [trim_with]. by rewrite H. Qed.

Lemma trim_idemp b : trim (trim b) = trim b.
Proof.
  assert (Forall (fun p => p <> []) ws_encodings) as Hw by (apply (bool_decide_unpack _); vm_compute; done).
  assert (Forall (fun p => p <> []) (reverse <$> ws_encodings)) as Hr by (apply (bool_decide_unpack _); vm_compute; done).
  unfold trim, trim_start, trim_end. set (s := trim_with (length b) ws_encodings b).
  destruct (trim_with_spec (length b) ws_encodings b Hw ltac:(lia)) as [Hs _]. fold s in Hs.
  destruct (trim_with_spec (length s) (reverse <$> ws_encodings) (reverse s) Hr ltac:(rewrite length_reverse; lia))
    as [He [l El]].
  set (e := trim_with (length s) (reverse <$> ws_encodings) (reverse s)) in *.
  assert (strip_any ws_encodings (reverse e) = None) as Hse.
  { apply strip_any_None. intros p r Hp E. apply (strip_any_None ws_encodings s) with (r := r ++ reverse l) in Hp; [|done].
    apply Hp. rewrite app_assoc, <- E, <- reverse_app, <- El. by rewrite reverse_involutive. }
  rewrite (trim_with_None _ _ _ Hse). rewrite reverse_involutive, (trim_with_None _ _ _ He). done.
Qed.
