(* ===== verification/Ns.v ===== *)
(** Application namespaces ([ns.rs]): the id of an application, the prefix it puts on the
    keys of the shared regions, and the keyed hash ids are derived with. *)

From stdpp Require Import gmap.
From S2P Require Import Prelude Bytes.

(** Separator between the prefix and the key. *)
Definition SEP : Z := 0x1f.
Definition PREFIX_LEN : nat := 17.

(** [App([u8; PREFIX_LEN - 1])]: built only by [parse], so always sixteen lower-case hex
    digits; [App_ok] says so. *)
Record App := mkApp { app_bytes : bytes }.
#[export] Instance App_eq_dec : EqDecision App.
Proof. solve_decision. Defined.

Definition hex_lower (x : Z) : bool := is_ascii_digit x || between 97 102 x.
Definition App_ok (a : App) : Prop :=
  length (app_bytes a) = (PREFIX_LEN - 1)%nat /\ Forall (fun x => hex_lower x = true) (app_bytes a).

(** [App::parse]. *)
Definition parse (s : bytes) : option App :=
  if negb (length s =? PREFIX_LEN - 1)%nat || negb (forallb is_ascii_hexdigit s) then None
  else Some (mkApp (to_ascii_lowercase s)).

Definition as_str (a : App) : bytes := app_bytes a.
Definition prefix_bytes (a : App) : bytes := app_bytes a ++ [SEP].

(** ** SipHash-1-3 under zero keys *)

Definition wadd (x y : Z) : Z := wrap64 (x + y).
Definition rotl (n x : Z) : Z := wrap64 (Z.lor (Z.shiftl x n) (Z.shiftr x (64 - n))).

Record sip := mkSip { v0 : Z; v1 : Z; v2 : Z; v3 : Z }.

Definition sip_round (s : sip) : sip :=
  let '(mkSip v0 v1 v2 v3) := s in
  let v0 := wadd v0 v1 in
  let v1 := Z.lxor (rotl 13 v1) v0 in
  let v0 := rotl 32 v0 in
  let v2 := wadd v2 v3 in
  let v3 := Z.lxor (rotl 16 v3) v2 in
  let v0 := wadd v0 v3 in
  let v3 := Z.lxor (rotl 21 v3) v0 in
  let v2 := wadd v2 v1 in
  let v1 := Z.lxor (rotl 17 v1) v2 in
  let v2 := rotl 32 v2 in
  mkSip v0 v1 v2 v3.

Fixpoint le_combine (b : bytes) : Z :=
  match b with [] => 0 | x :: b' => Z.lor x (Z.shiftl (le_combine b') 8) end.

Fixpoint le_bytes (n : nat) (x : Z) : bytes :=
  match n with O => [] | S n' => x mod 256 :: le_bytes n' (x / 256) end.

Definition sip_absorb (s : sip) (m : Z) : sip :=
  let s := sip_round (mkSip (v0 s) (v1 s) (v2 s) (Z.lxor (v3 s) m)) in
  mkSip (Z.lxor (v0 s) m) (v1 s) (v2 s) (v3 s).

(** The [chunks_exact(8)] loop: the state after every whole chunk, and the remainder. *)
Fixpoint sip_chunks (fuel : nat) (s : sip) (msg : bytes) : sip * bytes :=
  match fuel with
  | O => (s, msg)
  | S f => if (length msg <? 8)%nat then (s, msg)
           else sip_chunks f (sip_absorb s (le_combine (take 8 msg))) (drop 8 msg)
  end.

Definition sip13 (msg : bytes) : Z :=
  let s := mkSip 0x736f6d6570736575 0x646f72616e646f6d 0x6c7967656e657261 0x7465646279746573 in
  let '(s, rest) := sip_chunks (length msg) s msg in
  let last := Z.lor (Z.shiftl (Z.land (Z.of_nat (length msg)) 0xff) 56) (le_combine rest) in
  let s := sip_absorb s last in
  let s := mkSip (v0 s) (v1 s) (Z.lxor (v2 s) 0xff) (v3 s) in
  let s := sip_round (sip_round (sip_round s)) in
  Z.lxor (Z.lxor (v0 s) (v1 s)) (Z.lxor (v2 s) (v3 s)).

Definition bytes_hash (b : bytes) : Z :=
  sip13 (le_bytes 8 (Z.of_nat (length b)) ++ b).

(** [format!("{:016x}", h)]. *)
Definition hex_digit (x : Z) : Z := if x <? 10 then 48 + x else 87 + x.
Fixpoint hex_be (n : nat) (x : Z) : bytes :=
  match n with O => [] | S n' => hex_be n' (x / 16) ++ [hex_digit (x mod 16)] end.
Definition hex16 (h : Z) : bytes := hex_be 16 h.

(** [App::for_id]: [None] where the source's [expect] would panic. *)
Definition for_id (id : bytes) : option App :=
  parse (hex16 (bytes_hash (lit "app_id" ++ [0] ++ id))).

Definition valid_app_id (id : bytes) : bool :=
  match id with
  | [] => false
  | c :: _ => (length id <=? 64)%nat && is_ascii_alphanumeric c
              && forallb (fun c => is_ascii_lowercase c || is_ascii_digit c
                                   || bool_decide (c ∈ lit "._-")) id
  end.

(** ** The process-wide state: [MEMO], [NAMED] and [CURRENT] *)

Record state := mkState {
  memo : gmap bytes App;
  named : list App;
  current : option App }.

Section Docroots.
(** [app_path]: [std::path::absolute] and the components of the result, which depend on the
    process's working directory. *)
Context (app_path : bytes -> bytes).

(** [App::for_docroot]. *)
Definition for_docroot (st : state) (docroot : bytes) : option (App * state) :=
  match memo st !! docroot with
  | Some app => Some (app, st)
  | None =>
      match parse (hex16 (bytes_hash (app_path docroot))) with
      | Some app => Some (app, mkState (<[docroot := app]> (memo st)) (named st) (current st))
      | None => None
      end
  end.

(** [name_app]. *)
Definition name_app (st : state) (docroot id : bytes) : option (App * state) :=
  match for_id id with
  | Some app =>
      let m := <[app_path docroot := app]> (<[docroot := app]> (memo st)) in
      let n := if bool_decide (app ∈ named st) then named st else named st ++ [app] in
      Some (app, mkState m n (current st))
  | None => None
  end.
End Docroots.

Definition is_named (st : state) (a : App) : bool := bool_decide (a ∈ named st).

Definition set_current (st : state) (o : option App) : state := mkState (memo st) (named st) o.
Definition set (st : state) (a : App) : state := set_current st (Some a).
Definition clear (st : state) : state := set_current st None.
Definition set_from_request (st : state) (text : bytes) : state :=
  match parse text with Some a => set st a | None => clear st end.

(** [key]: what the regions see for a key, under the current application [cur]. *)
Definition key (cur : option App) (k : bytes) : bytes :=
  match cur with Some a => prefix_bytes a ++ k | None => k end.

(** [l2_key]: the replicated backend's key; only named applications are prefixed. *)
Definition l2_key (st : state) (k : bytes) : bytes :=
  match current st with
  | Some a => if is_named st a then prefix_bytes a ++ k else k
  | None => k
  end.

(** [split]: a stored key as its application and its key.  The [from_utf8] of the source never
    decides anything: sixteen hex digits are valid UTF-8, and [parse] refuses the rest. *)
Definition split (stored : bytes) : option App * bytes :=
  if bool_decide (stored !! (PREFIX_LEN - 1)%nat = Some SEP) then
    match parse (take (PREFIX_LEN - 1) stored) with
    | Some a => (Some a, drop PREFIX_LEN stored)
    | None => (None, stored)
    end
  else (None, stored).

Definition owns (cur : option App) (stored : bytes) : bool :=
  match cur with
  | Some a => starts_with stored (prefix_bytes a)
  | None => bool_decide (fst (split stored) = None)
  end.

(** ** Lemmas *)

Ltac unfold_ascii :=
  unfold hex_lower, hex_digit, is_ascii_hexdigit, to_lower, is_ascii_uppercase, is_ascii_digit,
    between.

Lemma hex_lower_hexdigit x : hex_lower x = true -> is_ascii_hexdigit x = true /\ to_lower x = x.
Proof. unfold_ascii. intros; repeat split; repeat case_bool; lia. Qed.

Lemma hexdigit_lower x : is_ascii_hexdigit x = true -> hex_lower (to_lower x) = true.
Proof. unfold_ascii. intros; repeat split; repeat case_bool; lia. Qed.

Lemma parse_ok s a : parse s = Some a -> App_ok a.
Proof.
  unfold parse, App_ok. case_bool; [done|]. intros [= <-]. zbool. simpl.
  apply Nat.eqb_eq in H. unfold to_ascii_lowercase. rewrite length_fmap. split; [done|].
  apply forallb_Forall in H0. apply Forall_fmap. eapply Forall_impl; [done|].
  intros x. apply hexdigit_lower.
Qed.

Lemma lowercase_hex b : Forall (fun x => hex_lower x = true) b -> to_ascii_lowercase b = b.
Proof.
  induction 1 as [|x b Hx _ IH]; [done|]. cbn. f_equal; [|done]. by apply hex_lower_hexdigit.
Qed.

Lemma parse_app a : App_ok a -> parse (app_bytes a) = Some a.
Proof.
  intros [Hl Hf]. unfold parse. rewrite Hl. simpl.
  replace (forallb _ _) with true; simpl.
  - rewrite lowercase_hex by done. by destruct a.
  - symmetry. apply forallb_Forall. eapply Forall_impl; [done|].
    intros x Hx. by apply hex_lower_hexdigit.
Qed.

Lemma prefix_length a : App_ok a -> length (prefix_bytes a) = PREFIX_LEN.
Proof. intros [Hl _]. unfold prefix_bytes. rewrite length_app, Hl. done. Qed.

Lemma hex_digit_lower x : 0 <= x < 16 -> hex_lower (hex_digit x) = true.
Proof. unfold_ascii. intros; repeat split; repeat case_bool; lia. Qed.

Lemma hex_be_ok n x : length (hex_be n x) = n /\ Forall (fun c => hex_lower c = true) (hex_be n x).
Proof.
  revert x. induction n as [|n IH]; intros x; simpl; [done|]. destruct (IH (x / 16)) as [Hl Hf].
  rewrite length_app, Hl, Forall_app, Forall_singleton. simpl. split; [lia|].
  split; [done|]. apply hex_digit_lower, Z.mod_pos_bound. lia.
Qed.

Lemma parse_hex16 h : parse (hex16 h) = Some (mkApp (hex16 h)).
Proof. apply (parse_app (mkApp (hex16 h))). apply hex_be_ok. Qed.

Lemma split_prefix a k : App_ok a -> split (prefix_bytes a ++ k) = (Some a, k).
Proof.
  intros Ha. pose proof (prefix_length a Ha) as Hp. pose proof Ha as [Hl _].
  assert ((prefix_bytes a ++ k) !! (PREFIX_LEN - 1)%nat = Some SEP) as Hsep.
  { rewrite <- Hl. unfold prefix_bytes. rewrite <- app_assoc. by apply list_lookup_middle. }
  assert (take (PREFIX_LEN - 1) (prefix_bytes a ++ k) = app_bytes a) as Htake.
  { rewrite <- Hl. unfold prefix_bytes. rewrite <- app_assoc. apply take_app_length. }
  unfold split. rewrite (bool_decide_eq_true_2 _ Hsep), Htake, parse_app by done.
  by rewrite <- Hp, drop_app_length.
Qed.

Lemma owns_key a k : owns (Some a) (key (Some a) k) = true.
Proof. apply starts_with_true. by exists k. Qed.

Lemma prefix_inj a1 a2 k1 k2 :
  App_ok a1 -> App_ok a2 -> prefix_bytes a1 ++ k1 = prefix_bytes a2 ++ k2 -> a1 = a2 /\ k1 = k2.
Proof.
  intros H1 H2 E. pose proof (split_prefix a1 k1 H1) as S1. rewrite E, split_prefix in S1 by done.
  naive_solver.
Qed.
