(* ===== verification/Probe.v ===== *)
(** Linear probing with tombstones, as both shared caches use it: a window of slot indices
    derived from the key's hash, scanned until an empty slot ends the chain.  The lemmas here
    say when a slot is reachable through its window, and are shared by [Cache] and [RCache]. *)

From S2P Require Import Prelude.

(** [(h as usize).wrapping_add(i) % slots] for [i in 0..probe]. *)
Definition probe_idx (h slots i : Z) : nat := Z.to_nat (wrap64 (h + i) mod slots).
Definition window (probe : nat) (h slots : Z) : list nat := probe_idx h slots <$> seqZ 0 (Z.of_nat probe).

Section Probe.
(** [st] reads a slot's state word: 0 is empty, 1 live, 2 a tombstone. *)
Context {E : Type} `{!Inhabited E} (st : E -> Z).

(** The first slot of [w] whose entry satisfies [mt], unless an empty slot comes first. *)
Fixpoint probe_find (mt : E -> bool) (t : list E) (w : list nat) : option nat :=
  match w with
  | [] => None
  | i :: w' =>
      if st (t !!! i) =? 0 then None
      else if mt (t !!! i) then Some i
      else probe_find mt t w'
  end.

(** Slot [i] can be reached through [w]: no empty slot precedes it. *)
Definition reachable (t : list E) (w : list nat) (i : nat) : Prop :=
  exists w1 w2, w = w1 ++ i :: w2 /\ Forall (fun j => st (t !!! j) <> 0) w1.

Lemma reachable_head t i w : reachable t (i :: w) i.
Proof. by exists [], w. Qed.

Lemma reachable_cons t i j w :
  st (t !!! i) <> 0 -> reachable t w j -> reachable t (i :: w) j.
Proof.
  intros Hi (w1 & w2 & -> & Hf). exists (i :: w1), w2. split; [done|]. by constructor.
Qed.

Lemma reachable_inv t i j w :
  reachable t (i :: w) j -> i = j \/ st (t !!! i) <> 0 /\ reachable t w j.
Proof.
  intros ([|k w1] & w2 & E' & Hf); simplify_eq/=; [by left|].
  apply Forall_cons in Hf as [Hi Hf]. right. split; [done|]. by exists w1, w2.
Qed.

Lemma reachable_elem t w i : reachable t w i -> i ∈ w.
Proof. intros (w1 & w2 & -> & _). set_solver. Qed.

(** Slots never become empty, so reachability is kept. *)
Lemma reachable_mono t t' w i :
  (forall j, st (t !!! j) <> 0 -> st (t' !!! j) <> 0) ->
  reachable t w i -> reachable t' w i.
Proof.
  intros Ht (w1 & w2 & -> & Hf). exists w1, w2. split; [done|].
  eapply Forall_impl; [done|]. simpl. eauto.
Qed.

Lemma probe_find_Some mt t w i :
  probe_find mt t w = Some i ->
  reachable t w i /\ mt (t !!! i) = true /\ st (t !!! i) <> 0.
Proof.
  induction w as [|j w IH]; simpl; [done|].
  destruct (Z.eqb_spec (st (t !!! j)) 0); [done|]. destruct (mt (t !!! j)) eqn:Hm.
  - intros [= ->]. auto using reachable_head.
  - intros (?&?&?)%IH. auto using reachable_cons.
Qed.

Lemma probe_find_None mt t w i :
  probe_find mt t w = None -> reachable t w i -> st (t !!! i) <> 0 -> mt (t !!! i) = false.
Proof.
  induction w as [|j w IH]; simpl; intros Hf Hr Hs.
  - apply reachable_elem in Hr. set_solver.
  - destruct (Z.eqb_spec (st (t !!! j)) 0) as [E0|E0].
    + apply reachable_inv in Hr as [->|[? _]]; congruence.
    + destruct (mt (t !!! j)) eqn:Hm; [done|].
      apply reachable_inv in Hr as [<-|[_ ?]]; [done|auto].
Qed.

(** A reachable match that is the only one is the one the probe finds. *)
Lemma probe_find_unique mt t w i :
  reachable t w i -> st (t !!! i) <> 0 -> mt (t !!! i) = true ->
  (forall j, st (t !!! j) <> 0 -> mt (t !!! j) = true -> j = i) ->
  probe_find mt t w = Some i.
Proof.
  intros Hr Hs Hm Hu. destruct (probe_find mt t w) as [j|] eqn:Hf.
  - apply probe_find_Some in Hf as (_ & ? & ?). f_equal. auto.
  - rewrite (probe_find_None _ _ _ _ Hf Hr Hs) in Hm. done.
Qed.

(** Writing a match into a slot of the window that no earlier slot hides. *)
Lemma probe_find_insert mt t w1 w2 i e :
  (i < length t)%nat -> st e <> 0 -> mt e = true ->
  Forall (fun j => st (t !!! j) <> 0 /\ mt (t !!! j) = false) w1 ->
  probe_find mt (<[i := e]> t) (w1 ++ i :: w2) = Some i.
Proof.
  intros Hi He Hm. induction w1 as [|j w1 IH]; intros Hf; cbn [app probe_find].
  - rewrite list_lookup_total_insert_eq by done. apply Z.eqb_neq in He. by rewrite He, Hm.
  - apply Forall_cons in Hf as [[Hs Hn] Hf].
    rewrite lookup_total_insert_dec by done. case_decide as Ej; [subst j|].
    + apply Z.eqb_neq in He. by rewrite He, Hm.
    + apply Z.eqb_neq in Hs. rewrite Hs, Hn. by apply IH.
Qed.

(** Two tables the probe cannot tell apart. *)
Lemma probe_find_ext mt t t' w :
  (forall j, j ∈ w -> (st (t' !!! j) =? 0) = (st (t !!! j) =? 0) /\ mt (t' !!! j) = mt (t !!! j)) ->
  probe_find mt t' w = probe_find mt t w.
Proof.
  induction w as [|j w IH]; intros H; [done|]. cbn [probe_find].
  destruct (H j) as [-> ->]; [set_solver|]. rewrite IH; [done|]. intros k Hk. apply H. set_solver.
Qed.

(** With every occupied slot reachable from where its key starts, and no key twice, the probe
    finds a slot exactly when it is the occupied one that matches. *)
Lemma probe_find_iff mt t w i :
  (forall j, st (t !!! j) <> 0 -> mt (t !!! j) = true -> reachable t w j) ->
  (forall j k, st (t !!! j) <> 0 -> mt (t !!! j) = true ->
     st (t !!! k) <> 0 -> mt (t !!! k) = true -> j = k) ->
  probe_find mt t w = Some i <-> st (t !!! i) <> 0 /\ mt (t !!! i) = true.
Proof.
  intros Hr Hu. split.
  - by intros (_ & ? & ?)%probe_find_Some.
  - intros [Hs Hm]. apply probe_find_unique; [by apply Hr|done..|].
    intros j Hj Hmj. by apply Hu.
Qed.
End Probe.

(** Every index of a window is a slot of the table. *)
Lemma window_bound probe h slots i :
  0 < slots -> i ∈ window probe h slots -> (i < Z.to_nat slots)%nat.
Proof.
  unfold window. intros Hs (k & -> & _)%list_elem_of_fmap. unfold probe_idx.
  pose proof (Z.mod_pos_bound (wrap64 (h + k)) slots Hs). lia.
Qed.

Lemma window_cons probe h slots :
  is_u64 h -> window (S probe) h slots =
    Z.to_nat (h mod slots) :: (probe_idx h slots <$> seqZ 1 (Z.of_nat probe)).
Proof.
  intros Hh. unfold window. rewrite seqZ_cons by lia. cbn [fmap list_fmap].
  unfold probe_idx at 1. rewrite Z.add_0_r, wrap64_id by done.
  do 3 f_equal; lia.
Qed.
