(* ===== verification/Cache.v ===== *)
(** The shared key/value cache ([cache.rs]): one region of fixed slots per size class, linear
    probing over a 32-slot window, tombstones, expiry and oldest-first eviction.

    This file models an operation as it runs with no other writer in the region (each slot
    visit of the source is under that slot's lock).  [Seqlock] models what a lock-free reader
    sees while a writer is active, [CacheRace] two operations interleaved. *)

From S2P Require Import Prelude Bytes Ns Probe.

Definition KEY_MAX : nat := 250.
Definition VAL_SMALL : nat := 4096.
Definition VAL_LARGE : nat := (64 * 1024)%nat.
Definition PROBE : nat := 32.
Definition SEQ_ATTEMPTS : nat := 4.

(** [struct Entry]: [ekey] and [val] are the buffers up to [key_len] and [val_len]. *)
Record entry := mkEntry {
  version : Z;       (* seqlock counter: odd while a writer is inside *)
  state : Z;         (* 0 empty, 1 occupied, 2 tombstone *)
  hash : Z;
  expires_at : Z;    (* unix secs, 0 = never *)
  written_at : Z;    (* unix millis of the last write *)
  ekey : bytes;
  val : bytes }.

(** A zeroed page is a table of these. *)
Definition empty_entry : entry := mkEntry 0 0 0 0 0 [] [].
#[export] Instance entry_inhabited : Inhabited entry := populate empty_entry.

Abbreviation table := (list entry).

(** [enum Peek]. *)
Inductive Peek :=
| ChainEnd
| Other
| Expired
| Hit (v : bytes)
| Torn.

(** [Writing::begin] and its [Drop]: the counter is forced odd, then to the next even. *)
Definition writing_begin (v : Z) : Z := Z.lor v 1.
Definition writing_end (v : Z) : Z := wrap64 (writing_begin v + 1).

(** [Region::matches], [expired], [read_val], [write], [mark_state], [mark_expires]. *)
Definition matches (e : entry) (key : bytes) (h : Z) : bool :=
  if negb (state e =? 1) || negb (hash e =? h) then false
  else if negb (length (ekey e) =? length key)%nat || negb (length (ekey e) <=? KEY_MAX)%nat
       then false
       else beq (ekey e) key.

Definition expired (e : entry) (now : Z) : bool :=
  negb (expires_at e =? 0) && (expires_at e <? now).

Definition read_val (V : nat) (e : entry) : bytes := take V (val e).

Definition write (e : entry) (key v : bytes) (h expires ms : Z) : entry :=
  mkEntry (writing_end (version e)) 1 h expires ms key v.

Definition mark_state (e : entry) (s : Z) : entry :=
  mkEntry (writing_end (version e)) s (hash e) (expires_at e) (written_at e) (ekey e) (val e).

Definition mark_expires (e : entry) (x : Z) : entry :=
  mkEntry (writing_end (version e)) (state e) (hash e) x (written_at e) (ekey e) (val e).

(** [Region::peek] of a slot nobody is writing: only an odd counter can make it torn. *)
Definition peek (V : nat) (e : entry) (key : bytes) (h now : Z) : Peek :=
  if Z.odd (version e) then Torn
  else if negb ((state e =? 1) && (hash e =? h) && (length (ekey e) =? length key)%nat
                && (length (ekey e) <=? KEY_MAX)%nat && beq (ekey e) key)
       then if state e =? 0 then ChainEnd else Other
       else if negb (expires_at e =? 0) && (expires_at e <? now) then Expired
       else Hit (read_val V e).

(** The [SEQ_ATTEMPTS] retries of [get]. *)
Fixpoint peek_retry (n : nat) (V : nat) (e : entry) (key : bytes) (h now : Z) : Peek :=
  match n with
  | O => Torn
  | S n' => match peek V e key h now with
            | Torn => peek_retry n' V e key h now
            | p => p
            end
  end.

(** One slot of [get]: the lock-free read, then the locked fallback. *)
Definition get_slot (V : nat) (e : entry) (key : bytes) (h now : Z) : Peek :=
  match peek_retry SEQ_ATTEMPTS V e key h now with
  | Torn =>
      if state e =? 0 then ChainEnd
      else if matches e key h then
             if expired e now then Expired else Hit (read_val V e)
           else Other
  | p => p
  end.

Fixpoint get_loop (V : nat) (t : table) (key : bytes) (h now : Z) (w : list nat)
    : option bytes * table :=
  match w with
  | [] => (None, t)
  | i :: w' =>
      match get_slot V (t !!! i) key h now with
      | ChainEnd => (None, t)
      | Other => get_loop V t key h now w'
      | Hit v => (Some v, t)
      | Expired =>
          (None, if matches (t !!! i) key h && expired (t !!! i) now
                 then <[i := mark_state (t !!! i) 2]> t else t)
      | Torn => (None, t)
      end
  end.

Definition win (t : table) (h : Z) : list nat := window PROBE h (Z.of_nat (length t)).

Definition get (V : nat) (t : table) (key : bytes) (h now : Z) : option bytes * table :=
  get_loop V t key h now (win t h).

Definition expiry (now ttl : Z) : Z := if 0 <? ttl then wrap64 (now + ttl) else 0.

(** ** [Region::set] *)

Record set_acc := mkAcc {
  reuse : option nat;           (* first empty or tombstoned slot *)
  victim : nat;                 (* the oldest live slot so far *)
  oldest : Z;
  expired_victim : option nat }.

Definition or_else {A} (o : option A) (x : A) : option A :=
  match o with Some y => Some y | None => Some x end.

(** The probe of [set]: [inl i] when slot [i] holds the key, else what it learnt. *)
Fixpoint set_probe (t : table) (key : bytes) (h now : Z) (w : list nat) (a : set_acc)
    : nat + set_acc :=
  match w with
  | [] => inr a
  | i :: w' =>
      let e := t !!! i in
      if (state e =? 1) && matches e key h then inl i
      else
        let a := if (state e =? 0) || (state e =? 2)
                 then mkAcc (or_else (reuse a) i) (victim a) (oldest a) (expired_victim a)
                 else a in
        if state e =? 0 then inr a
        else if state e =? 1 then
          let ev := if expired e now then or_else (expired_victim a) i else expired_victim a in
          let a := if written_at e <? oldest a
                   then mkAcc (reuse a) i (written_at e) ev
                   else mkAcc (reuse a) (victim a) (oldest a) ev in
          set_probe t key h now w' a
        else set_probe t key h now w' a
  end.

(** [tombstone_others]: [keep] is the slot just written. *)
Fixpoint tombstone_others (t : table) (key : bytes) (h : Z) (keep : nat) (w : list nat) : table :=
  match w with
  | [] => t
  | i :: w' =>
      if (i =? keep)%nat then tombstone_others t key h keep w'
      else if state (t !!! i) =? 0 then t
      else if matches (t !!! i) key h
           then tombstone_others (<[i := mark_state (t !!! i) 2]> t) key h keep w'
           else tombstone_others t key h keep w'
  end.

Definition set_start (t : table) (h : Z) : set_acc :=
  mkAcc None (Z.to_nat (h mod Z.of_nat (length t))) u64_max None.

(** What [set] reports: was the value stored, did it evict a live entry, the new table. *)
Definition set (V : nat) (t : table) (key v : bytes) (h ttl now ms : Z) : bool * bool * table :=
  if (V <? length v)%nat then (false, false, t)
  else
    let expires := expiry now ttl in
    match set_probe t key h now (win t h) (set_start t h) with
    | inl i => (true, false, <[i := write (t !!! i) key v h expires ms]> t)
    | inr a =>
        let evicting := bool_decide (reuse a = None) && bool_decide (expired_victim a = None) in
        let target := match reuse a with
                      | Some i => i
                      | None => match expired_victim a with Some i => i | None => victim a end
                      end in
        let t := <[target := write (t !!! target) key v h expires ms]> t in
        (true, evicting, tombstone_others t key h target (win t h))
    end.

(** ** [Region::add] *)

Inductive add_probe_res :=
| AddHeld                     (* present and live *)
| AddInPlace (i : nat)        (* present but expired: taken over *)
| AddFree (r : option nat).   (* absent: the first free slot, if any *)

Fixpoint add_probe (t : table) (key : bytes) (h now : Z) (w : list nat) (r : option nat)
    : add_probe_res :=
  match w with
  | [] => AddFree r
  | i :: w' =>
      let e := t !!! i in
      if (state e =? 1) && matches e key h then
        if negb (expired e now) then AddHeld else AddInPlace i
      else
        let r := if (state e =? 0) || (state e =? 2) then or_else r i else r in
        if state e =? 0 then AddFree r else add_probe t key h now w' r
  end.

(** The commit of [add], re-checked under the slot's lock. *)
Definition add_commit (t : table) (key v : bytes) (h ttl now ms : Z) (i : nat) : bool * table :=
  let e := t !!! i in
  if (state e =? 1) && matches e key h && negb (expired e now) then (false, t)
  else if (state e =? 0) || (state e =? 2) || matches e key h || expired e now
       then (true, <[i := write e key v h (expiry now ttl) ms]> t)
       else (false, t).

Definition add (V : nat) (t : table) (key v : bytes) (h ttl now ms : Z) : bool * table :=
  if (V <? length v)%nat then (false, t)
  else match add_probe t key h now (win t h) None with
       | AddHeld => (false, t)
       | AddInPlace i => (true, <[i := write (t !!! i) key v h (expiry now ttl) ms]> t)
       | AddFree (Some i) => add_commit t key v h ttl now ms i
       | AddFree None => (false, t)
       end.

(** ** [Region::delete], [touch], [increment], [flush_prefix] *)

Fixpoint delete_loop (t : table) (key : bytes) (h : Z) (w : list nat) (found : bool)
    : bool * table :=
  match w with
  | [] => (found, t)
  | i :: w' =>
      if state (t !!! i) =? 0 then (found, t)
      else if matches (t !!! i) key h
           then delete_loop (<[i := mark_state (t !!! i) 2]> t) key h w' true
           else delete_loop t key h w' found
  end.
Definition delete (t : table) (key : bytes) (h : Z) : bool * table :=
  delete_loop t key h (win t h) false.

Fixpoint touch_loop (t : table) (key : bytes) (h ttl now : Z) (w : list nat) : bool * table :=
  match w with
  | [] => (false, t)
  | i :: w' =>
      if state (t !!! i) =? 0 then (false, t)
      else if matches (t !!! i) key h then
             if expired (t !!! i) now then (false, <[i := mark_state (t !!! i) 2]> t)
             else (true, <[i := mark_expires (t !!! i) (expiry now ttl)]> t)
           else touch_loop t key h ttl now w'
  end.
Definition touch (t : table) (key : bytes) (h ttl now : Z) : bool * table :=
  touch_loop t key h ttl now (win t h).

(** A counter's current value: [from_utf8(..).trim().parse::<i64>()], 0 on any failure. *)
Definition counter_value (v : bytes) : Z := default 0 (parse_i64 (trim v)).

Fixpoint incr_probe (t : table) (key : bytes) (h : Z) (w : list nat) (r : option nat)
    : nat + option nat :=
  match w with
  | [] => inr r
  | i :: w' =>
      let e := t !!! i in
      if (state e =? 1) && matches e key h then inl i
      else
        let r := if (state e =? 0) || (state e =? 2) then or_else r i else r in
        if state e =? 0 then inr r else incr_probe t key h w' r
  end.

Definition increment (V : nat) (t : table) (key : bytes) (h delta ttl now ms : Z) : Z * table :=
  let expires := expiry now ttl in
  match incr_probe t key h (win t h) None with
  | inl i =>
      let e := t !!! i in
      let live := negb (expired e now) in
      let cur := if live then counter_value (read_val V e) else 0 in
      let next := sat_add_i64 cur delta in
      let exp := if live then expires_at e else expires in
      (next, <[i := write e key (i64_to_string next) h exp ms]> t)
  | inr (Some i) =>
      let e := t !!! i in
      if (state e =? 1) && matches e key h && negb (expired e now) then
        let next := sat_add_i64 (counter_value (read_val V e)) delta in
        (next, <[i := write e key (i64_to_string next) h (expires_at e) ms]> t)
      else (delta, <[i := write e key (i64_to_string delta) h expires ms]> t)
  | inr None => (delta, t)
  end.

Definition flush_slot (prefix : bytes) (e : entry) : entry :=
  if negb (state e =? 1) then e
  else if starts_with (take KEY_MAX (ekey e)) prefix then mark_state e 2 else e.
Definition flush_prefix (t : table) (prefix : bytes) : table := flush_slot prefix <$> t.
