(* ===== verification/CacheLemmas.v ===== *)
(** Invariant and refinement of one region of the key/value cache.

    [wf] says that every live entry can be reached through its own probe window and that no
    key is live twice; [lookup_key] is the reference lookup, a scan of the whole table.  Each
    operation of [Cache] keeps [wf], and what it does is stated on [lookup_key]. *)

From S2P Require Import Prelude Bytes Probe Cache.

(** The reference: the first live entry of the table holding the key. *)
Definition holds (key : bytes) (e : entry) : bool := (state e =? 1) && beq (ekey e) key.
Definition lookup_key (t : table) (key : bytes) : option entry := find (holds key) t.

(** The value a reader is entitled to at time [now]. *)
Definition live_value (o : option entry) (now : Z) : option bytes :=
  match o with
  | Some e => if expired e now then None else Some (val e)
  | None => None
  end.

Lemma holds_true key e : holds key e = true <-> state e = 1 /\ ekey e = key.
Proof. unfold holds. by rewrite andb_true_iff, Z.eqb_eq, beq_true. Qed.

Section Region.
(** [hash_key] is the standard library's hasher, whose algorithm its documentation leaves
    open: nothing of it is used here. *)
Context (hash_key : bytes -> Z).

Record wf (V : nat) (t : table) : Prop := {
  wf_size : (0 < length t)%nat;
  wf_state : forall i e, t !! i = Some e -> 0 <= state e <= 2;
  wf_val : forall i e, t !! i = Some e -> (length (val e) <= V)%nat;
  wf_live : forall i e, t !! i = Some e -> state e = 1 ->
    hash e = hash_key (ekey e) /\ (length (ekey e) <= KEY_MAX)%nat
    /\ reachable state t (win t (hash e)) i;
  wf_unique : forall i j e e', t !! i = Some e -> t !! j = Some e' ->
    state e = 1 -> state e' = 1 -> ekey e = ekey e' -> i = j }.

Implicit Types (t : table) (e : entry) (key : bytes).

Lemma wf_init (V : nat) (n : nat) : (0 < n)%nat -> wf V (replicate n empty_entry).
Proof.
  intros Hn. split.
  - by rewrite length_replicate.
  - intros i e [-> _]%lookup_replicate. done.
  - intros i e [-> _]%lookup_replicate. simpl. lia.
  - by intros i e [-> _]%lookup_replicate.
  - by intros i j e e' [-> _]%lookup_replicate.
Qed.

Lemma matches_inv e key h :
  matches e key h = true ->
  state e = 1 /\ hash e = h /\ ekey e = key /\ (length (ekey e) <= KEY_MAX)%nat.
Proof.
  unfold matches. repeat case_bool; try done. intros ?%beq_true.
  apply orb_false_iff in Heqb as [?%negb_false_iff ?%negb_false_iff].
  apply orb_false_iff in Heqb0 as [?%negb_false_iff ?%negb_false_iff].
  repeat split; lia || done.
Qed.

Lemma matches_intro e key h :
  state e = 1 -> hash e = h -> ekey e = key -> (length key <= KEY_MAX)%nat ->
  matches e key h = true.
Proof.
  intros Hs Hh <- Hl. unfold matches. rewrite Hs, Hh, !Z.eqb_refl, Nat.eqb_refl, beq_refl.
  by rewrite (proj2 (Nat.leb_le _ _) Hl).
Qed.

Lemma win_insert t i e h : win (<[i := e]> t) h = win t h.
Proof. unfold win. by rewrite length_insert. Qed.

Lemma win_elem t h i : (0 < length t)%nat -> i ∈ win t h -> (i < length t)%nat.
Proof. intros ? Hi%window_bound; lia. Qed.

Section WithTable.
Context {V : nat} {t : table} (Hwf : wf V t).

Lemma wf_lookup i : (i < length t)%nat -> t !! i = Some (t !!! i).
Proof. apply lookup_total_lookup. Qed.

Lemma wf_matches i e key :
  t !! i = Some e -> matches e key (hash_key key) = holds key e.
Proof.
  intros Hi. apply eq_true_iff_eq. rewrite holds_true. split.
  - intros (?&?&?&?)%matches_inv. done.
  - intros [Hs He]. destruct (wf_live _ _ Hwf _ _ Hi Hs) as (?&?&?).
    apply matches_intro; subst; done.
Qed.

Lemma lookup_key_Some key e :
  lookup_key t key = Some e <-> exists i, t !! i = Some e /\ state e = 1 /\ ekey e = key.
Proof.
  unfold lookup_key. split.
  - intros [Hin Hh]%find_some. apply holds_true in Hh.
    apply list_elem_of_In, list_elem_of_lookup in Hin as [i ?]. eauto.
  - intros (i & Hi & Hs & Hk). destruct (find (holds key) t) as [e'|] eqn:Hf.
    + apply find_some in Hf as [Hin [Hs' Hk']%holds_true].
      apply list_elem_of_In, list_elem_of_lookup in Hin as [j Hj].
      assert (i = j) as -> by (eapply wf_unique; eauto; congruence). congruence.
    + apply find_none with (x := e) in Hf.
      * by rewrite (proj2 (holds_true key e)) in Hf.
      * apply list_elem_of_In. by eapply list_elem_of_lookup_2.
Qed.

Lemma lookup_key_None key :
  lookup_key t key = None <->
  forall i e, t !! i = Some e -> state e = 1 -> ekey e <> key.
Proof.
  rewrite eq_None_not_Some. split.
  - intros Hn i e Hi Hs Hk. apply Hn. exists e. apply lookup_key_Some. eauto.
  - intros Hn [e (i & Hi & Hs & Hk)%lookup_key_Some]. by eapply Hn.
Qed.

(** The probe of a key is the scan of the table. *)
Lemma probe_find_spec key :
  match probe_find state (fun e => matches e key (hash_key key)) t (win t (hash_key key)) with
  | Some i => (i < length t)%nat /\ lookup_key t key = Some (t !!! i)
              /\ state (t !!! i) = 1 /\ ekey (t !!! i) = key
              /\ reachable state t (win t (hash_key key)) i
  | None => lookup_key t key = None
  end.
Proof.
  destruct (probe_find _ _ _ _) as [i|] eqn:Hf.
  - apply probe_find_Some in Hf as (Hr & (?&_&?&_)%matches_inv & _).
    assert (i < length t)%nat by eauto using win_elem, wf_size, reachable_elem.
    split; [done|]. repeat split; try done.
    apply lookup_key_Some. exists i. by rewrite wf_lookup.
  - apply lookup_key_None. intros i e Hi Hs <-.
    destruct (wf_live _ _ Hwf _ _ Hi Hs) as (Hh & Hl & Hr). rewrite Hh in Hr.
    pose proof (lookup_lookup_total _ _ _ Hi) as Ht.
    apply probe_find_None with (i := i) in Hf; [|done|by rewrite Ht, Hs].
    rewrite Ht, (wf_matches i) in Hf by done.
    by rewrite (proj2 (holds_true _ _)) in Hf.
Qed.

(** Replacing one slot, by a tombstone or by a live entry that belongs there. *)
Lemma wf_insert i e' :
  (i < length t)%nat -> 1 <= state e' <= 2 -> (length (val e') <= V)%nat ->
  (state e' = 1 ->
    hash e' = hash_key (ekey e') /\ (length (ekey e') <= KEY_MAX)%nat
    /\ reachable state t (win t (hash e')) i
    /\ forall j e, t !! j = Some e -> state e = 1 -> ekey e = ekey e' -> j = i) ->
  wf V (<[i := e']> t).
Proof.
  intros Hi Hs' Hv' He'.
  assert (forall j w, reachable state t w j -> reachable state (<[i := e']> t) w j) as Hmono.
  { intros j w. apply reachable_mono. intros k Hk.
    rewrite lookup_total_insert_dec by done. case_decide; lia. }
  assert (forall j e, <[i := e']> t !! j = Some e -> j = i /\ e = e' \/ j <> i /\ t !! j = Some e) as Hl.
  { intros j e. destruct (decide (i = j)) as [<-|].
    - rewrite list_lookup_insert_eq by done. intros [= ->]. by left.
    - rewrite list_lookup_insert_ne by done. by right. }
  split.
  - rewrite length_insert. apply Hwf.
  - intros j e [[-> ->]|[_ Hj]]%Hl; [lia|]. by eapply wf_state.
  - intros j e [[-> ->]|[_ Hj]]%Hl; [lia|]. by eapply wf_val.
  - intros j e Hj Hs. unfold win. rewrite length_insert.
    apply Hl in Hj as [[-> ->]|[_ Hj]].
    + destruct (He' Hs) as (?&?&?&_). auto.
    + destruct (wf_live _ _ Hwf _ _ Hj Hs) as (?&?&?). auto.
  - intros j k e e'' [[-> ->]|[Hne Hj]]%Hl [[-> ->]|[Hne' Hk]]%Hl Hs Hs'' Hkey; try done.
    + symmetry. destruct (He' Hs) as (_&_&_&Hu). eapply Hu; eauto.
    + destruct (He' Hs'') as (_&_&_&Hu). by eapply Hu.
    + by eapply wf_unique.
Qed.
End WithTable.

Lemma wf_tombstone V t i :
  wf V t -> (i < length t)%nat -> wf V (<[i := mark_state (t !!! i) 2]> t).
Proof.
  intros Hwf Hi. apply wf_insert; simpl; try done.
  eapply wf_val; [done|by apply wf_lookup].
Qed.

(** What the reference lookup sees of a replaced slot. *)
Lemma lookup_key_insert V t i e' key :
  wf V t -> wf V (<[i := e']> t) -> (i < length t)%nat ->
  lookup_key (<[i := e']> t) key =
    if holds key e' then Some e'
    else if holds key (t !!! i) then None else lookup_key t key.
Proof.
  intros Hwf Hwf' Hi. pose proof (wf_lookup i Hi) as Hti.
  destruct (holds key e') eqn:Hh'.
  - apply holds_true in Hh' as [??]. apply (lookup_key_Some Hwf').
    exists i. by rewrite list_lookup_insert_eq.
  - destruct (holds key (t !!! i)) eqn:Hh.
    + apply (lookup_key_None Hwf'). intros j e Hj Hs Hk.
      destruct (decide (i = j)) as [<-|].
      * rewrite list_lookup_insert_eq in Hj by done. simplify_eq.
        by rewrite (proj2 (holds_true _ _)) in Hh'.
      * rewrite list_lookup_insert_ne in Hj by done. apply holds_true in Hh as [??].
        assert (i = j) by (eapply (wf_unique _ _ Hwf i j (t !!! i) e); eauto; congruence). done.
    + apply option_eq. intros e. rewrite (lookup_key_Some Hwf'), (lookup_key_Some Hwf).
      split; intros (j & Hj & Hs & Hk); exists j.
      * destruct (decide (i = j)) as [<-|].
        -- rewrite list_lookup_insert_eq in Hj by done. simplify_eq.
           by rewrite (proj2 (holds_true _ _)) in Hh'.
        -- by rewrite list_lookup_insert_ne in Hj.
      * destruct (decide (i = j)) as [<-|].
        -- rewrite Hti in Hj. simplify_eq. by rewrite (proj2 (holds_true _ _)) in Hh.
        -- by rewrite list_lookup_insert_ne.
Qed.

(** Tombstoning every live entry whose key satisfies [P]. *)
Definition tombstoned (P : bytes -> bool) t t' : Prop :=
  length t' = length t /\
  forall i, (i < length t)%nat ->
    (state (t !!! i) = 1 /\ P (ekey (t !!! i)) = true /\ state (t' !!! i) = 2
     /\ val (t' !!! i) = val (t !!! i))
    \/ (t' !!! i = t !!! i /\ (state (t !!! i) = 1 -> P (ekey (t !!! i)) = false)).

Lemma tombstoned_live P t t' i e :
  tombstoned P t t' -> t' !! i = Some e -> state e = 1 -> t !! i = Some e /\ P (ekey e) = false.
Proof.
  intros [Hl Ht] Hi Hs. assert (i < length t)%nat as Hlt
    by (rewrite <- Hl; by eapply lookup_lt_Some).
  pose proof (lookup_lookup_total _ _ _ Hi) as He.
  destruct (Ht i Hlt) as [(_&_&?&_)|[E HP]]; [subst; lia|].
  rewrite (lookup_total_lookup t i Hlt), <- E, He. split; [done|]. rewrite <- He, E. apply HP.
  by rewrite <- E, He.
Qed.

Lemma tombstoned_wf V P t t' : wf V t -> tombstoned P t t' -> wf V t'.
Proof.
  intros Hwf Ht. pose proof Ht as [Hl Hs].
  assert (forall i e, t' !! i = Some e -> 0 <= state e <= 2 /\ (length (val e) <= V)%nat) as Hsv.
  { intros i e Hi. assert (i < length t)%nat as Hlt by (rewrite <- Hl; by eapply lookup_lt_Some).
    pose proof (wf_state _ _ Hwf i _ (wf_lookup i Hlt)).
    pose proof (wf_val _ _ Hwf i _ (wf_lookup i Hlt)).
    apply lookup_lookup_total in Hi as <-. destruct (Hs i Hlt) as [(_&_&->&->)|[-> _]]; lia. }
  split.
  - rewrite Hl. apply Hwf.
  - intros i e Hi. by apply (Hsv i).
  - intros i e Hi. by apply (Hsv i).
  - intros i e Hi He. destruct (tombstoned_live _ _ _ _ _ Ht Hi He) as [Hi' _].
    destruct (wf_live _ _ Hwf i e Hi' He) as (?&?&Hr). split; [done|]. split; [done|].
    unfold win. rewrite Hl. destruct Hr as (w1 & w2 & Ew & Hf). exists w1, w2. split; [done|].
    apply Forall_forall. intros j Hj. rewrite Forall_forall in Hf. specialize (Hf j Hj).
    assert (j < length t)%nat as Hlt.
    { eapply win_elem; [apply Hwf|]. rewrite Ew. set_solver. }
    destruct (Hs j Hlt) as [(_&_&->&_)|[-> _]]; [done|done].
  - intros i j e e' Hi Hj He He' Hk.
    eapply (wf_unique _ _ Hwf i j e e'); try done; by eapply tombstoned_live.
Qed.

Lemma tombstoned_lookup V P t t' k :
  wf V t -> tombstoned P t t' -> lookup_key t' k = if P k then None else lookup_key t k.
Proof.
  intros Hwf Ht. assert (wf V t') as Hwf' by by eapply tombstoned_wf.
  destruct (lookup_key t' k) as [e|] eqn:Hl'.
  - apply (lookup_key_Some Hwf') in Hl' as (i & Hi & Hs & <-).
    destruct (tombstoned_live _ _ _ _ _ Ht Hi Hs) as [Hi' ->]. symmetry.
    apply (lookup_key_Some Hwf). eauto.
  - destruct (P k) eqn:HP; [done|]. symmetry. apply (lookup_key_None Hwf).
    intros i e Hi Hs Hk. rewrite (lookup_key_None Hwf') in Hl'.
    assert (i < length t)%nat as Hlt by by eapply lookup_lt_Some.
    apply (Hl' i e); try done. destruct Ht as [Hlen Ht].
    rewrite (lookup_total_lookup t' i) by lia. pose proof (lookup_lookup_total _ _ _ Hi) as <-.
    destruct (Ht i Hlt) as [(_&?&_)|[-> _]]; congruence.
Qed.
End Region.

Implicit Types (t : table) (e : entry) (key : bytes).

(** ** The loops of [Cache], as one probe *)

(** A slot's answer does not depend on its counter: an odd one, left by a writer that died
    mid-update, sends [get] to the locked read, which says the same. *)
Lemma get_slot_spec V e key h now :
  get_slot V e key h now =
    if state e =? 0 then ChainEnd
    else if matches e key h then
           if expired e now then Expired else Hit (read_val V e)
         else Other.
Proof.
  unfold get_slot. assert (peek_retry SEQ_ATTEMPTS V e key h now = peek V e key h now) as ->.
  { simpl. by destruct (peek _ _ _ _ _). }
  unfold peek. destruct (Z.odd (version e)); [done|].
  replace ((state e =? 1) && (hash e =? h) && (length (ekey e) =? length key)%nat
           && (length (ekey e) <=? KEY_MAX)%nat && beq (ekey e) key) with (matches e key h).
  - fold (expired e now). destruct (matches e key h) eqn:Hm; simpl.
    + apply matches_inv in Hm as (-> & _). simpl. by destruct (expired e now).
    + by destruct (state e =? 0).
  - unfold matches. destruct (state e =? 1), (hash e =? h); try done.
    by destruct (length (ekey e) =? length key)%nat, (length (ekey e) <=? KEY_MAX)%nat.
Qed.

Lemma get_loop_probe V t key h now w :
  get_loop V t key h now w =
    match probe_find state (fun e => matches e key h) t w with
    | Some i => if expired (t !!! i) now then (None, <[i := mark_state (t !!! i) 2]> t)
                else (Some (read_val V (t !!! i)), t)
    | None => (None, t)
    end.
Proof.
  induction w as [|i w IH]; [done|]. cbn [get_loop probe_find]. rewrite get_slot_spec, IH.
  destruct (state (t !!! i) =? 0); [done|].
  destruct (matches (t !!! i) key h) eqn:Hm; [|done].
  destruct (expired (t !!! i) now) eqn:He; done.
Qed.

Lemma touch_loop_probe t key h ttl now w :
  touch_loop t key h ttl now w =
    match probe_find state (fun e => matches e key h) t w with
    | Some i => if expired (t !!! i) now then (false, <[i := mark_state (t !!! i) 2]> t)
                else (true, <[i := mark_expires (t !!! i) (expiry now ttl)]> t)
    | None => (false, t)
    end.
Proof.
  induction w as [|i w IH]; [done|]. cbn [touch_loop probe_find]. rewrite IH.
  by destruct (state (t !!! i) =? 0), (matches (t !!! i) key h).
Qed.

Lemma matches_state e key h : matches e key h = true -> (state e =? 1) = true.
Proof. intros (->&_)%matches_inv. done. Qed.

Lemma and_matches e key h : (state e =? 1) && matches e key h = matches e key h.
Proof.
  destruct (matches e key h) eqn:Hm; [|by rewrite andb_false_r].
  by rewrite (matches_state _ _ _ Hm).
Qed.

(** Free slots: the first empty or tombstoned one, up to the end of the chain. *)
Fixpoint first_free t (w : list nat) : option nat :=
  match w with
  | [] => None
  | i :: w' =>
      if (state (t !!! i) =? 0) || (state (t !!! i) =? 2) then Some i else first_free t w'
  end.

Lemma first_free_Some t w i :
  first_free t w = Some i ->
  reachable state t w i /\ (state (t !!! i) = 0 \/ state (t !!! i) = 2).
Proof.
  induction w as [|j w IH]; [done|]. cbn [first_free]. case_bool.
  - intros [= <-]. split; [apply reachable_head|lia].
  - intros [Hr ?]%IH. split; [|done]. apply reachable_cons; [lia|done].
Qed.

Lemma first_free_None t w i :
  first_free t w = None -> i ∈ w -> state (t !!! i) <> 0 /\ state (t !!! i) <> 2.
Proof.
  induction w as [|j w IH]; [set_solver|]. cbn [first_free]. case_bool; [done|].
  intros Hf [->|?]%elem_of_cons; [lia|auto].
Qed.

Definition keep_first (r o : option nat) : option nat :=
  match r with Some _ => r | None => o end.

Lemma add_probe_spec t key h now w r :
  add_probe t key h now w r =
    match probe_find state (fun e => matches e key h) t w with
    | Some i => if negb (expired (t !!! i) now) then AddHeld else AddInPlace i
    | None => AddFree (keep_first r (first_free t w))
    end.
Proof.
  revert r. induction w as [|i w IH]; intros r; [by destruct r|].
  cbn [add_probe probe_find first_free]. rewrite and_matches.
  destruct (matches (t !!! i) key h) eqn:Hm.
  - apply matches_inv in Hm as (-> & _). done.
  - destruct (Z.eqb_spec (state (t !!! i)) 0); simpl; [by destruct r|].
    rewrite IH. destruct (probe_find _ _ _ _); [done|].
    destruct (state (t !!! i) =? 2); [|done]. by destruct r.
Qed.

Lemma incr_probe_spec t key h w r :
  incr_probe t key h w r =
    match probe_find state (fun e => matches e key h) t w with
    | Some i => inl i
    | None => inr (keep_first r (first_free t w))
    end.
Proof.
  revert r. induction w as [|i w IH]; intros r; [by destruct r|].
  cbn [incr_probe probe_find first_free]. rewrite and_matches.
  destruct (matches (t !!! i) key h) eqn:Hm.
  - apply matches_inv in Hm as (-> & _). done.
  - destruct (Z.eqb_spec (state (t !!! i)) 0); simpl; [by destruct r|].
    rewrite IH. destruct (probe_find _ _ _ _); [done|].
    destruct (state (t !!! i) =? 2); [|done]. by destruct r.
Qed.

(** [set]'s probe finds what [probe_find] finds; otherwise it has learnt the first free slot
    and, when there is none, the first expired entry and the oldest live one. *)
Fixpoint first_expired t (now : Z) (w : list nat) : option nat :=
  match w with
  | [] => None
  | i :: w' => if (state (t !!! i) =? 1) && expired (t !!! i) now then Some i
               else first_expired t now w'
  end.

Fixpoint oldest_live t (w : list nat) (v : nat) (o : Z) : nat * Z :=
  match w with
  | [] => (v, o)
  | i :: w' => if (state (t !!! i) =? 1) && (written_at (t !!! i) <? o)
               then oldest_live t w' i (written_at (t !!! i)) else oldest_live t w' v o
  end.

Definition acc_ok t now w (a a' : set_acc) : Prop :=
  reuse a' = keep_first (reuse a) (first_free t w)
  /\ (reuse a' = None ->
       expired_victim a' = keep_first (expired_victim a) (first_expired t now w)
       /\ (victim a', oldest a') = oldest_live t w (victim a) (oldest a)).

Lemma set_probe_spec t key h now w a :
  match set_probe t key h now w a with
  | inl i => probe_find state (fun e => matches e key h) t w = Some i
  | inr a' => probe_find state (fun e => matches e key h) t w = None /\ acc_ok t now w a a'
  end.
Proof.
  unfold acc_ok. revert a. induction w as [|i w IH]; intros a.
  { cbn. split; [done|]. split; [by destruct (reuse a)|]. by destruct (expired_victim a). }
  cbn [set_probe probe_find first_free first_expired oldest_live]. rewrite and_matches.
  destruct (matches (t !!! i) key h) eqn:Hm.
  { apply matches_inv in Hm as (-> & _). done. }
  destruct (Z.eqb_spec (state (t !!! i)) 0) as [H0|H0]; cbn [orb].
  { split; [done|]. cbn [reuse]. by destruct (reuse a). }
  destruct (Z.eqb_spec (state (t !!! i)) 2) as [H2|H2]; cbn [orb].
  { rewrite H2. cbn [Z.eqb Pos.eqb andb].
    match goal with |- context [set_probe t key h now w ?b] => specialize (IH b) end.
    destruct (set_probe _ _ _ _ _ _) as [j|a']; [done|]. destruct IH as [Hf [Hr _]].
    split; [done|]. cbn [reuse] in Hr. rewrite Hr. by destruct (reuse a). }
  destruct (Z.eqb_spec (state (t !!! i)) 1) as [H1|H1]; cbn [andb]; [|apply IH].
  match goal with |- context [set_probe t key h now w ?b] => specialize (IH b) end.
  destruct (set_probe _ _ _ _ _ _) as [j|a']; [done|]. destruct IH as [Hf [Hr Ha]].
  split; [done|]. destruct (_ <? _); cbn in *;
    (split; [done|]; intros Hn; destruct (Ha Hn) as [-> ->]; split; [|done];
     by destruct (expired _ now), (expired_victim a)).
Qed.

Lemma first_expired_Some t now w i :
  first_expired t now w = Some i ->
  i ∈ w /\ state (t !!! i) = 1 /\ expired (t !!! i) now = true.
Proof.
  induction w as [|j w IH]; [done|]. cbn [first_expired]. case_bool.
  - intros [= <-]. zbool. set_solver.
  - set_solver.
Qed.

Lemma first_expired_None t now w i :
  first_expired t now w = None -> i ∈ w -> state (t !!! i) = 1 ->
  expired (t !!! i) now = false.
Proof.
  induction w as [|j w IH]; [set_solver|]. cbn [first_expired]. case_bool; [done|].
  intros Hf [->|?]%elem_of_cons Hs; [|auto]. by rewrite Hs in Heqb.
Qed.

Lemma oldest_live_spec t w v o v' o' :
  oldest_live t w v o = (v', o') ->
  o' <= o /\ (forall i, i ∈ w -> state (t !!! i) = 1 -> o' <= written_at (t !!! i))
  /\ (v' = v /\ o' = o \/ v' ∈ w /\ written_at (t !!! v') = o').
Proof.
  revert v o. induction w as [|j w IH]; intros v o; cbn [oldest_live].
  { intros [= <- <-]. repeat split; [lia|set_solver|by left]. }
  case_bool; intros (Ho & Hall & Hv)%IH; zbool.
  - split; [lia|]. split.
    + intros i [->|?]%elem_of_cons ?; [lia|auto].
    + right. destruct Hv as [[-> <-]|[? ?]]; set_solver.
  - split; [lia|]. split.
    + intros i [->|?]%elem_of_cons Hs; [|auto]. rewrite Hs in Heqb. simpl in Heqb. lia.
    + destruct Hv as [?|[? ?]]; [by left|set_solver].
Qed.

Lemma tombstone_others_id t key h keep w :
  (forall i, i ∈ w -> i <> keep -> matches (t !!! i) key h = false) ->
  tombstone_others t key h keep w = t.
Proof.
  induction w as [|i w IH]; intros Hw; [done|]. cbn [tombstone_others].
  rewrite IH by set_solver. destruct (Nat.eqb_spec i keep); [done|].
  rewrite Hw by set_solver. by destruct (_ =? 0).
Qed.

(** [delete] visits every match of the chain, so it also copes with a key two racing
    [set]s left in two slots: no [wf] is assumed. *)
Lemma delete_loop_spec t key h w b :
  Forall (fun i => (i < length t)%nat) w ->
  let '(b', t') := delete_loop t key h w b in
  probe_find state (fun e => matches e key h) t' w = None
  /\ b' = b || bool_decide (probe_find state (fun e => matches e key h) t w <> None)
  /\ length t' = length t
  /\ forall i, t' !!! i = t !!! i
               \/ matches (t !!! i) key h = true /\ i ∈ w /\ state (t' !!! i) = 2
                  /\ val (t' !!! i) = val (t !!! i).
Proof.
  revert t b. induction w as [|i w IH]; intros t b Hw.
  { simpl. rewrite orb_false_r. repeat split; auto. }
  apply Forall_cons in Hw as [Hi Hw]. cbn [delete_loop probe_find].
  destruct (Z.eqb_spec (state (t !!! i)) 0) as [H0|H0].
  { rewrite H0. simpl. rewrite orb_false_r. repeat split; auto. }
  destruct (matches (t !!! i) key h) eqn:Hm.
  - specialize (IH (<[i := mark_state (t !!! i) 2]> t) true).
    rewrite length_insert in IH. specialize (IH Hw).
    destruct (delete_loop _ _ _ _ _) as [b' t']. destruct IH as (Hf & Hb & Hl & Hs).
    rewrite orb_true_r.
    assert (state (t' !!! i) = 2) as Hti.
    { destruct (Hs i) as [->|(?&?&?&?)]; [|done]. by rewrite list_lookup_total_insert_eq. }
    rewrite Hti. replace (matches (t' !!! i) key h) with false.
    2:{ unfold matches. by rewrite Hti. }
    split; [done|]. split; [done|]. split; [done|]. intros j.
    assert (state (t' !!! j) = 2 -> val (t' !!! j) = val (t !!! j)) as Hvj.
    { destruct (Hs j) as [->|(_&_&_&->)]; rewrite lookup_total_insert_dec by done;
        case_decide; by subst. }
    destruct (Hs j) as [Hj|(Hj & ? & ? & _)]; rewrite lookup_total_insert_dec in Hj by done;
      case_decide; subst; auto; right; split; auto; set_solver.
  - specialize (IH t b Hw). destruct (delete_loop _ _ _ _ _) as [b' t'].
    destruct IH as (Hf & Hb & Hl & Hs).
    assert (t' !!! i = t !!! i) as Hti by (destruct (Hs i) as [?|(?&?&?&?)]; congruence).
    rewrite Hti, Hm, (proj2 (Z.eqb_neq _ _) H0). repeat split; try done.
    intros j. destruct (Hs j) as [?|(?&?&?&?)]; [by left|right; set_solver].
Qed.
