(* ===== verification/CacheOps.v ===== *)
(** What each operation of one cache region does to the reference lookup. *)

From S2P Require Import Prelude Bytes Probe Cache CacheLemmas.

Section Ops.
Context (hash_key : bytes -> Z) (hash_u64 : forall k, is_u64 (hash_key k)).
Context {V : nat} {t : table} (Hwf : wf hash_key V t).
Context (key : bytes) (Hkey : (length key <= KEY_MAX)%nat).

Abbreviation h := (hash_key key).
Abbreviation w := (win t h).
Abbreviation find_slot := (probe_find state (fun e => matches e key h) t w).

Local Lemma Hbound i : i ∈ w -> (i < length t)%nat.
Proof. apply win_elem, (wf_size _ _ _ Hwf). Qed.

Lemma find_slot_Some i :
  find_slot = Some i ->
  (i < length t)%nat /\ lookup_key t key = Some (t !!! i) /\ state (t !!! i) = 1
  /\ ekey (t !!! i) = key /\ reachable state t w i.
Proof. intros Hf. pose proof (probe_find_spec _ Hwf key) as Hp. by rewrite Hf in Hp. Qed.

Lemma find_slot_None : find_slot = None -> lookup_key t key = None.
Proof. intros Hf. pose proof (probe_find_spec _ Hwf key) as Hp. by rewrite Hf in Hp. Qed.

(** Writing the key at a slot of its own window. *)
Lemma write_spec i v expires ms :
  reachable state t w i -> (length v <= V)%nat ->
  (find_slot = Some i \/ find_slot = None) ->
  let t' := <[i := write (t !!! i) key v h expires ms]> t in
  wf hash_key V t'
  /\ (exists e, lookup_key t' key = Some e /\ val e = v /\ expires_at e = expires)
  /\ forall k, k <> key ->
       lookup_key t' k = if holds k (t !!! i) then None else lookup_key t k.
Proof.
  intros Hr Hv Hf t'. assert (i < length t)%nat as Hi by eauto using Hbound, reachable_elem.
  set (e' := write (t !!! i) key v h expires ms) in *.
  assert (wf hash_key V t') as Hwf'.
  { apply wf_insert; simpl; try done. intros _. repeat split; try done.
    intros j e Hj Hs Hk. destruct Hf as [Hf|Hf].
    - apply find_slot_Some in Hf as (_&_&?&?&_).
      eapply (wf_unique _ _ _ Hwf j i e (t !!! i)); eauto using wf_lookup. congruence.
    - apply find_slot_None in Hf. rewrite (lookup_key_None _ Hwf) in Hf.
      exfalso. by eapply Hf. }
  assert (forall k, lookup_key t' k = if holds k e' then Some e'
            else if holds k (t !!! i) then None else lookup_key t k) as Hl.
  { intros k. by eapply lookup_key_insert. }
  split; [done|]. split.
  - exists e'. rewrite Hl, (proj2 (holds_true key e')) by done. done.
  - intros k Hk. rewrite Hl. replace (holds k e') with false; [done|].
    symmetry. apply not_true_is_false. rewrite holds_true. simpl. naive_solver.
Qed.

(** Tombstoning, or refreshing, the slot of the key. *)
Lemma tombstone_spec i :
  (i < length t)%nat -> ekey (t !!! i) = key ->
  let t' := <[i := mark_state (t !!! i) 2]> t in
  wf hash_key V t' /\ (find_slot = Some i -> lookup_key t' key = None)
  /\ forall k, k <> key -> lookup_key t' k = lookup_key t k.
Proof.
  intros Hi He t'. assert (wf hash_key V t') as Hwf' by by apply wf_tombstone.
  assert (forall k, lookup_key t' k = if holds k (t !!! i) then None else lookup_key t k) as Hl.
  { intros k. unfold t'. erewrite lookup_key_insert by done. done. }
  split; [done|]. split.
  - intros (_&_&?&_)%find_slot_Some. by rewrite Hl, (proj2 (holds_true _ _)).
  - intros k Hk. rewrite Hl. unfold holds. rewrite He.
    unfold beq. rewrite bool_decide_eq_false_2 by done. by rewrite andb_false_r.
Qed.

Lemma expires_spec i x :
  find_slot = Some i ->
  let t' := <[i := mark_expires (t !!! i) x]> t in
  wf hash_key V t'
  /\ (exists e, lookup_key t' key = Some e /\ val e = val (t !!! i) /\ expires_at e = x)
  /\ forall k, k <> key -> lookup_key t' k = lookup_key t k.
Proof.
  intros (Hi & Hl & Hs & He & Hr)%find_slot_Some t'.
  destruct (wf_live _ _ _ Hwf i (t !!! i)) as (Hh & _); [by apply wf_lookup|done|].
  assert (wf hash_key V t') as Hwf'.
  { apply wf_insert; simpl; try done; [lia|by eapply wf_val, wf_lookup|]. intros _.
    rewrite He. repeat split; [congruence|done| |].
    - by rewrite Hh, He.
    - intros j e Hj Hs' Hk. eapply (wf_unique _ _ _ Hwf j i e (t !!! i)); eauto using wf_lookup.
      congruence. }
  assert (forall k, lookup_key t' k = if holds k (t !!! i)
            then Some (mark_expires (t !!! i) x) else lookup_key t k) as Hlk.
  { intros k. unfold t'. erewrite lookup_key_insert by done. unfold holds. simpl.
    by destruct (_ && _). }
  split; [done|]. split.
  - exists (mark_expires (t !!! i) x). by rewrite Hlk, (proj2 (holds_true _ _)).
  - intros k Hk. rewrite Hlk. unfold holds, beq. rewrite He, bool_decide_eq_false_2 by done.
    by rewrite andb_false_r.
Qed.

Lemma read_val_wf i : (i < length t)%nat -> read_val V (t !!! i) = val (t !!! i).
Proof. intros. apply take_ge. by eapply wf_val, wf_lookup. Qed.

(** ** The operations *)

Lemma get_spec now :
  let '(o, t') := get V t key h now in
  o = live_value (lookup_key t key) now /\ wf hash_key V t'
  /\ (forall k, k <> key -> lookup_key t' k = lookup_key t k)
  /\ (o = None -> lookup_key t' key = None) /\ (o <> None -> t' = t).
Proof.
  unfold get. rewrite get_loop_probe. destruct find_slot as [i|] eqn:Hf.
  - pose proof (find_slot_Some i Hf) as (Hi & Hl & Hs & He & _). rewrite Hl. simpl.
    destruct (expired (t !!! i) now).
    + destruct (tombstone_spec i Hi He) as (?&?&?). naive_solver.
    + rewrite read_val_wf by done. done.
  - apply find_slot_None in Hf. by rewrite Hf.
Qed.

Lemma first_free_in i : first_free t w = Some i -> reachable state t w i /\ holds key (t !!! i) = false
  /\ forall k, holds k (t !!! i) = false.
Proof.
  intros [Hr Hs]%first_free_Some. split; [done|].
  assert (forall k, holds k (t !!! i) = false); [|auto].
  intros k. unfold holds. destruct (Z.eqb_spec (state (t !!! i)) 1); [lia|done].
Qed.

(** Without a free slot the whole window is live. *)
Lemma first_free_full i : first_free t w = None -> i ∈ w -> state (t !!! i) = 1.
Proof.
  intros Hn Hin. destruct (first_free_None _ _ _ Hn Hin).
  pose proof (wf_state _ _ _ Hwf i _ (wf_lookup i (Hbound i Hin))). lia.
Qed.

Lemma full_reachable i : first_free t w = None -> i ∈ w -> reachable state t w i.
Proof.
  intros Hn Hin. apply list_elem_of_split in Hin as (w1 & w2 & E).
  exists w1, w2. split; [done|]. apply Forall_forall. intros j Hj.
  rewrite first_free_full; [done|done|]. rewrite E. set_solver.
Qed.

Lemma head_in_window : Z.to_nat (h mod Z.of_nat (length t)) ∈ w.
Proof.
  unfold win, PROBE. rewrite window_cons by done. set_solver.
Qed.

(** The slot [set] writes when the key is absent. *)
Definition set_target (a : set_acc) : nat :=
  match reuse a with
  | Some i => i
  | None => match expired_victim a with Some i => i | None => victim a end
  end.

Lemma set_target_spec now a :
  acc_ok t now w (set_start t h) a ->
  reachable state t w (set_target a)
  /\ match first_free t w with
     | Some i => reuse a = Some i /\ set_target a = i
     | None => reuse a = None /\ state (t !!! set_target a) = 1
         /\ match expired_victim a with
            | Some i => expired (t !!! set_target a) now = true
            | None => (forall i, i ∈ w -> state (t !!! i) = 1 /\ expired (t !!! i) now = false
                         /\ (written_at (t !!! i) < u64_max ->
                             written_at (t !!! set_target a) <= written_at (t !!! i)))
            end
     end.
Proof.
  intros [Hr Ha]. unfold set_target. cbn [set_start reuse victim oldest expired_victim keep_first] in *.
  destruct (first_free t w) as [i|] eqn:Hff.
  - rewrite Hr. apply first_free_in in Hff as [? _]. done.
  - rewrite Hr in *. destruct (Ha eq_refl) as [He Ho].
    assert (forall j, j ∈ w -> reachable state t w j /\ state (t !!! j) = 1) as Hw
      by auto using full_reachable, first_free_full.
    destruct (expired_victim a) as [i|].
    + symmetry in He. apply first_expired_Some in He as (Hin & Hs & Hx).
      destruct (Hw i Hin). done.
    + symmetry in He, Ho. apply oldest_live_spec in Ho as (Ho & Hall & Hv).
      assert (victim a ∈ w) as Hvin.
      { destruct Hv as [[-> _]|[? _]]; [apply head_in_window|done]. }
      destruct (Hw _ Hvin). split; [done|]. split; [done|]. split; [done|].
      intros i Hin. destruct (Hw i Hin) as [_ Hs]. split; [done|].
      split; [by eapply first_expired_None|]. intros Hlt. pose proof (Hall i Hin Hs).
      destruct Hv as [[_ ?]|[_ ?]]; lia.
Qed.

Lemma set_spec v ttl now ms :
  let '(ok, evicted, t') := set V t key v h ttl now ms in
  ok = (length v <=? V)%nat
  /\ (ok = false -> t' = t /\ evicted = false)
  /\ (ok = true ->
      wf hash_key V t'
      /\ (exists e, lookup_key t' key = Some e /\ val e = v /\ expires_at e = expiry now ttl)
      /\ (forall k, k <> key ->
            lookup_key t' k = lookup_key t k
            \/ lookup_key t' k = None
               /\ exists e, lookup_key t k = Some e /\ (evicted = true \/ expired e now = true)))
  /\ (evicted = true ->
      lookup_key t key = None
      /\ exists i, i ∈ w /\ t' = <[i := write (t !!! i) key v h (expiry now ttl) ms]> t
        /\ forall j, j ∈ w -> state (t !!! j) = 1 /\ expired (t !!! j) now = false
             /\ (written_at (t !!! j) < u64_max -> written_at (t !!! i) <= written_at (t !!! j))).
Proof.
  unfold set. destruct (Nat.ltb_spec V (length v)) as [Hlt|Hle].
  { rewrite (proj2 (Nat.leb_gt _ _) Hlt). done. }
  rewrite (proj2 (Nat.leb_le _ _) Hle).
  pose proof (set_probe_spec t key h now w (set_start t h)) as Hsp.
  destruct (set_probe _ _ _ _ _ _) as [i|a].
  - split; [done|]. split; [done|]. split; [|done]. intros _.
    pose proof (find_slot_Some i Hsp) as (Hi & Hl & Hs & He & Hr).
    destruct (write_spec i v (expiry now ttl) ms Hr Hle (or_introl Hsp)) as (? & ? & Hk).
    split; [done|]. split; [done|]. intros k Hne. left. rewrite Hk by done.
    unfold holds, beq. rewrite He, bool_decide_eq_false_2, andb_false_r by done. done.
  - destruct Hsp as [Hf Ha]. fold (set_target a).
    destruct (set_target_spec now a Ha) as [Hr Ht].
    destruct (write_spec _ v (expiry now ttl) ms Hr Hle (or_intror Hf)) as (Hwf' & He & Hk).
    rewrite win_insert, tombstone_others_id.
    2:{ intros i Hin Hne. rewrite list_lookup_total_insert_ne by done.
        rewrite (wf_matches _ Hwf i) by auto using wf_lookup, Hbound.
        apply not_true_is_false. intros [Hs Hke]%holds_true. apply find_slot_None in Hf.
        rewrite (lookup_key_None _ Hwf) in Hf. apply (Hf i (t !!! i)); auto using wf_lookup, Hbound. }
    split; [done|]. split; [done|]. split.
    2:{ intros [Hn%bool_decide_eq_true Hev%bool_decide_eq_true]%andb_true_iff.
        rewrite Hev in Ht. destruct (first_free t w).
        - destruct Ht; congruence.
        - destruct Ht as (_ & _ & Hx). split; [by apply find_slot_None|].
          exists (set_target a). split; [by eapply reachable_elem|]. done. }
    intros _. split; [done|]. split; [done|].
    intros k Hne. rewrite Hk by done. destruct (holds k _) eqn:Hh; [|by left]. right.
    split; [done|]. exists (t !!! set_target a). apply holds_true in Hh as [Hs Hke].
    split.
    { apply (lookup_key_Some _ Hwf). exists (set_target a).
      split; [apply wf_lookup; eauto using Hbound, reachable_elem|done]. }
    destruct (first_free t w) as [i|] eqn:Hff.
    + destruct Ht as [_ <-]. apply first_free_Some in Hff. lia.
    + destruct Ht as (-> & _ & Hx). destruct (expired_victim a); [by right|by left].
Qed.

Lemma add_spec v ttl now ms :
  let '(ok, t') := add V t key v h ttl now ms in
  ok = (length v <=? V)%nat
       && match lookup_key t key with
          | Some e => expired e now
          | None => bool_decide (is_Some (first_free t w))
          end
  /\ (ok = false -> t' = t)
  /\ (ok = true ->
      wf hash_key V t'
      /\ (exists e, lookup_key t' key = Some e /\ val e = v /\ expires_at e = expiry now ttl)
      /\ (forall k, k <> key -> lookup_key t' k = lookup_key t k)).
Proof.
  unfold add. destruct (Nat.ltb_spec V (length v)) as [Hlt|Hle].
  { by rewrite (proj2 (Nat.leb_gt _ _) Hlt). }
  rewrite (proj2 (Nat.leb_le _ _) Hle). rewrite add_probe_spec. cbn [keep_first andb].
  destruct find_slot as [i|] eqn:Hf.
  - pose proof (find_slot_Some i Hf) as (Hi & Hl & Hs & He & Hr). rewrite Hl.
    destruct (expired (t !!! i) now) eqn:Hx; [|done]. split; [done|]. split; [done|]. intros _.
    destruct (write_spec i v (expiry now ttl) ms Hr Hle (or_introl Hf)) as (? & ? & Hk).
    split; [done|]. split; [done|]. intros k Hne. rewrite Hk by done.
    unfold holds, beq. rewrite He, bool_decide_eq_false_2, andb_false_r by done. done.
  - rewrite (find_slot_None Hf). destruct (first_free t w) as [i|] eqn:Hff; [|done].
    pose proof (first_free_in i Hff) as (Hr & _ & Hh). unfold add_commit.
    apply first_free_Some in Hff as [_ Hs].
    destruct (write_spec i v (expiry now ttl) ms Hr Hle (or_intror Hf)) as (? & ? & Hk).
    replace ((state (t !!! i) =? 1) && matches (t !!! i) key h && negb (expired (t !!! i) now))
      with false by (rewrite and_matches; unfold matches; destruct Hs as [-> | ->]; done).
    replace ((state (t !!! i) =? 0) || (state (t !!! i) =? 2)) with true by lia.
    split; [done|]. split; [done|]. intros _. split; [done|]. split; [done|].
    intros k Hne. by rewrite Hk, Hh.
Qed.

Lemma touch_spec ttl now :
  let '(ok, t') := touch t key h ttl now in
  ok = bool_decide (is_Some (live_value (lookup_key t key) now))
  /\ wf hash_key V t'
  /\ (forall k, k <> key -> lookup_key t' k = lookup_key t k)
  /\ (if ok then exists e e', lookup_key t key = Some e /\ lookup_key t' key = Some e'
                    /\ val e' = val e /\ expires_at e' = expiry now ttl
      else lookup_key t' key = None).
Proof.
  unfold touch. rewrite touch_loop_probe. destruct find_slot as [i|] eqn:Hf.
  - pose proof (find_slot_Some i Hf) as (Hi & Hl & Hs & He & Hr). rewrite Hl. simpl.
    destruct (expired (t !!! i) now).
    + destruct (tombstone_spec i Hi He) as (?&?&?). auto.
    + destruct (expires_spec i (expiry now ttl) Hf) as (?&(e'&?&?&?)&?). eauto 10.
  - rewrite (find_slot_None Hf). done.
Qed.

(** The counter a live value holds. *)
Definition counter_of (now : Z) : Z :=
  match live_value (lookup_key t key) now with Some v => counter_value v | None => 0 end.

Lemma increment_spec delta ttl now ms :
  (21 <= V)%nat ->
  let '(n, t') := increment V t key h delta ttl now ms in
  (lookup_key t key <> None \/ is_Some (first_free t w) ->
   n = (if lookup_key t key is Some _ then sat_add_i64 (counter_of now) delta else delta)
   /\ wf hash_key V t'
   /\ (exists e, lookup_key t' key = Some e /\ val e = i64_to_string n
         /\ expires_at e = match lookup_key t key with
                           | Some e0 => if expired e0 now then expiry now ttl else expires_at e0
                           | None => expiry now ttl
                           end)
   /\ (forall k, k <> key -> lookup_key t' k = lookup_key t k))
  /\ (lookup_key t key = None -> first_free t w = None -> n = delta /\ t' = t).
Proof.
  intros HV. unfold increment, counter_of. rewrite incr_probe_spec. cbn [keep_first].
  assert (forall x, (length (i64_to_string x) <= V)%nat) as Hlen.
  { intros x. etrans; [apply length_i64_to_string|done]. }
  destruct find_slot as [i|] eqn:Hf.
  - pose proof (find_slot_Some i Hf) as (Hi & Hl & Hs & He & Hr). rewrite Hl, read_val_wf by done.
    split; [|done]. intros _. simpl.
    set (n := sat_add_i64 _ _).
    destruct (write_spec i (i64_to_string n)
      (if negb (expired (t !!! i) now) then expires_at (t !!! i) else expiry now ttl) ms Hr
      (Hlen _) (or_introl Hf)) as (? & (e & ? & ? & ?) & Hk).
    split; [by unfold n; destruct (expired _ _)|]. split; [done|]. split.
    { exists e. split; [done|]. split; [done|]. by destruct (expired (t !!! i) now). }
    intros k Hne. rewrite Hk by done.
    unfold holds, beq. rewrite He, bool_decide_eq_false_2, andb_false_r by done. done.
  - rewrite (find_slot_None Hf).
    destruct (first_free t w) as [i|] eqn:Hff.
    2:{ split; [|done]. intros [?|[? ?]]; done. }
    pose proof (first_free_in i Hff) as (Hr & _ & Hh).
    replace ((state (t !!! i) =? 1) && matches (t !!! i) key h && negb (expired (t !!! i) now))
      with false.
    2:{ apply first_free_Some in Hff as [_ Hs]. rewrite and_matches. unfold matches.
        by destruct Hs as [-> | ->]. }
    split; [|done]. intros _.
    destruct (write_spec i (i64_to_string delta) (expiry now ttl) ms Hr (Hlen _) (or_intror Hf))
      as (? & ? & Hk).
    split; [done|]. split; [done|]. split; [done|]. intros k Hne. by rewrite Hk, Hh.
Qed.

Lemma delete_tombstoned :
  let '(b, t') := delete t key h in
  b = bool_decide (is_Some (lookup_key t key)) /\ tombstoned (beq key) t t'.
Proof.
  unfold delete. pose proof (delete_loop_spec t key h w false) as Hd.
  destruct (delete_loop t key h w false) as [b t'].
  destruct Hd as (Hf & -> & Hl & Hs).
  { apply Forall_forall. intros i. apply Hbound. }
  split.
  { rewrite orb_false_l. apply bool_decide_ext. pose proof (probe_find_spec _ Hwf key) as Hp.
    destruct find_slot.
    - destruct Hp as (_ & -> & _). split; [intros _; by eexists|by intros _ [=]].
    - rewrite Hp. split; [done|]. by intros [? ?]. }
  split; [done|]. intros i Hi. destruct (Hs i) as [E|(Hm&_&?&?)].
  - right. split; [done|]. intros Hst. apply not_true_is_false. intros Hk%beq_true.
    destruct (wf_live _ _ _ Hwf i _ (wf_lookup i Hi) Hst) as (Hh & _ & Hr).
    assert (reachable state t' (win t (hash (t !!! i))) i) as Hr'.
    { eapply reachable_mono; [|done]. intros j. destruct (Hs j) as [->|(_&_&->&_)]; done. }
    rewrite Hh, <- Hk in Hr'. apply (probe_find_None _ _ _ _ _ Hf) in Hr'.
    + rewrite E, (wf_matches _ Hwf i) in Hr' by auto using wf_lookup.
      by rewrite (proj2 (holds_true _ _)) in Hr'.
    + by rewrite E, Hst.
  - left. apply matches_inv in Hm as (?&?&Hk&?). rewrite Hk, beq_refl. auto.
Qed.

Lemma delete_spec :
  let '(b, t') := delete t key h in
  b = bool_decide (is_Some (lookup_key t key))
  /\ wf hash_key V t'
  /\ forall k, lookup_key t' k = if beq key k then None else lookup_key t k.
Proof.
  pose proof delete_tombstoned as Hd. destruct (delete t key h) as [b t'].
  destruct Hd as [-> Ht]. split; [done|]. split; [by eapply tombstoned_wf|].
  intros k. by eapply tombstoned_lookup.
Qed.
End Ops.

Lemma flush_prefix_spec hash_key V t prefix :
  wf hash_key V t ->
  wf hash_key V (flush_prefix t prefix)
  /\ forall k, lookup_key (flush_prefix t prefix) k =
       if starts_with (take KEY_MAX k) prefix then None else lookup_key t k.
Proof.
  intros Hwf.
  assert (tombstoned (fun k => starts_with (take KEY_MAX k) prefix) t (flush_prefix t prefix)) as Ht.
  { unfold flush_prefix. split; [by rewrite length_fmap|]. intros i Hi.
    assert ((flush_slot prefix <$> t) !!! i = flush_slot prefix (t !!! i)) as ->.
    { apply list_lookup_total_correct. by rewrite list_lookup_fmap, lookup_total_lookup. }
    unfold flush_slot. destruct (Z.eqb_spec (state (t !!! i)) 1); simpl; [|by right].
    destruct (starts_with _ _) eqn:Hp; [by left|by right]. }
  split; [by eapply tombstoned_wf|]. intros k. by rewrite (tombstoned_lookup _ _ _ _ _ k Hwf Ht).
Qed.
