(* ===== verification/Kv.v ===== *)
(** The public key/value API of [cache.rs]: the two size classes, the namespace put on every
    key, the counters, and what PHP gets to see of them. *)

From S2P Require Import Prelude Bytes Ns Probe Cache CacheLemmas CacheOps.

Record kv := mkKv {
  small : option table;      (* None: not mapped *)
  large : option table;
  evictions : Z;             (* metrics *)
  oversize : Z }.

(** [Region::map] when the mapping succeeds; a failed [mmap] leaves the region disabled. *)
Definition map_region (r : option table) (slots : Z) (mmap_ok : bool) : option table :=
  match r with
  | Some t => Some t
  | None => if mmap_ok then Some (replicate (Z.to_nat (Z.max slots 16)) empty_entry) else None
  end.

Definition init (st : kv) (slots large_slots : Z) (mmap_ok : bool) : kv :=
  mkKv (map_region (small st) slots mmap_ok)
       (if 0 <? large_slots then map_region (large st) large_slots mmap_ok else large st)
       (evictions st) (oversize st).

Definition enabled (st : kv) : bool :=
  bool_decide (is_Some (small st)) || bool_decide (is_Some (large st)).

(** An operation on a region that may not be mapped: [r] is its answer then. *)
Definition on_region {A} (r : A) (f : table -> A * table) (o : option table) : A * option table :=
  match o with
  | None => (r, None)
  | Some t => let '(a, t') := f t in (a, Some t')
  end.

Section Api.
Context (hash_key : bytes -> Z).
Implicit Types (cur : option App) (st : kv) (key : bytes).

Definition short (key : bytes) : bool := (length key <=? KEY_MAX)%nat.

Definition get cur st key (now : Z) : option bytes * kv :=
  let key := Ns.key cur key in
  if negb (short key) then (None, st)
  else
    let h := hash_key key in
    match on_region None (fun t => Cache.get VAL_SMALL t key h now) (small st) with
    | (Some v, s) => (Some v, mkKv s (large st) (evictions st) (oversize st))
    | (None, s) =>
        let '(o, l) := on_region None (fun t => Cache.get VAL_LARGE t key h now) (large st) in
        (o, mkKv s l (evictions st) (oversize st))
    end.

(** [Region::set], with the eviction counted. *)
Definition set_region (V : nat) key v (h ttl now ms : Z) (o : option table)
    : (bool * bool) * option table :=
  on_region (false, false) (fun t => Cache.set V t key v h ttl now ms) o.

Definition set cur st key (v : bytes) (ttl now ms : Z) : bool * kv :=
  let key := Ns.key cur key in
  if negb (short key) then (false, st)
  else
    let h := hash_key key in
    if (length v <=? VAL_SMALL)%nat then
      let '(_, l) := on_region false (fun t => Cache.delete t key h) (large st) in
      let '((ok, ev), s) := set_region VAL_SMALL key v h ttl now ms (small st) in
      (ok, mkKv s l (evictions st + Z.b2z ev) (oversize st))
    else if (length v <=? VAL_LARGE)%nat then
      let '(_, s) := on_region false (fun t => Cache.delete t key h) (small st) in
      let '((ok, ev), l) := set_region VAL_LARGE key v h ttl now ms (large st) in
      (ok, mkKv s l (evictions st + Z.b2z ev) (oversize st))
    else (false, mkKv (small st) (large st) (evictions st) (oversize st + 1)).

Definition add cur st key (v : bytes) (ttl now ms : Z) : bool * kv :=
  let key := Ns.key cur key in
  if negb (short key) || (VAL_SMALL <? length v)%nat then (false, st)
  else
    let h := hash_key key in
    let '(o, l) := on_region None (fun t => Cache.get VAL_LARGE t key h now) (large st) in
    let st := mkKv (small st) l (evictions st) (oversize st) in
    match o with
    | Some _ => (false, st)
    | None =>
        let '(ok, s) :=
          on_region false (fun t => Cache.add VAL_SMALL t key v h ttl now ms) (small st) in
        (ok, mkKv s l (evictions st) (oversize st))
    end.

(** [delete] does not check the key's length. *)
Definition delete cur st key : bool * kv :=
  let key := Ns.key cur key in
  let h := hash_key key in
  let '(s_found, s) := on_region false (fun t => Cache.delete t key h) (small st) in
  let '(l_found, l) := on_region false (fun t => Cache.delete t key h) (large st) in
  (s_found || l_found, mkKv s l (evictions st) (oversize st)).

Definition touch cur st key (ttl now : Z) : bool * kv :=
  let key := Ns.key cur key in
  if negb (short key) then (false, st)
  else
    let h := hash_key key in
    match on_region false (fun t => Cache.touch t key h ttl now) (small st) with
    | (true, s) => (true, mkKv s (large st) (evictions st) (oversize st))
    | (false, s) =>
        let '(ok, l) := on_region false (fun t => Cache.touch t key h ttl now) (large st) in
        (ok, mkKv s l (evictions st) (oversize st))
    end.

Definition increment cur st key (delta ttl now ms : Z) : Z * kv :=
  let key := Ns.key cur key in
  if negb (short key) then (0, st)
  else
    let h := hash_key key in
    let '(n, s) := on_region 0 (fun t => Cache.increment VAL_SMALL t key h delta ttl now ms)
                     (small st) in
    (n, mkKv s (large st) (evictions st) (oversize st)).

Definition flush_app st (app : App) : kv :=
  let prefix := Ns.prefix_bytes app in
  mkKv ((fun t => flush_prefix t prefix) <$> small st)
       ((fun t => flush_prefix t prefix) <$> large st) (evictions st) (oversize st).

(** The [c_*] callbacks of the PHP bridge: a negative [ttl] is 0. *)
Definition c_ttl (ttl : Z) : Z := Z.max ttl 0.
Definition c_set cur st key v ttl := set cur st key v (c_ttl ttl).
Definition c_add cur st key v ttl := add cur st key v (c_ttl ttl).
Definition c_incr cur st key delta ttl := increment cur st key delta (c_ttl ttl).
Definition c_touch cur st key ttl := touch cur st key (c_ttl ttl).

(** ** What a caller can observe *)

(** [region_view r k now]: the value region [r] holds for the stored key [k]. *)
Definition region_entry (r : option table) (k : bytes) : option entry :=
  match r with Some t => lookup_key t k | None => None end.
Definition region_view (r : option table) (k : bytes) (now : Z) : option bytes :=
  live_value (region_entry r k) now.

Definition view st (k : bytes) (now : Z) : option bytes :=
  match region_view (small st) k now with
  | Some v => Some v
  | None => region_view (large st) k now
  end.

Definition region_wf (V : nat) (r : option table) : Prop :=
  match r with Some t => wf hash_key V t | None => True end.
Definition kv_wf st : Prop := region_wf VAL_SMALL (small st) /\ region_wf VAL_LARGE (large st).

Context (hash_u64 : forall k, is_u64 (hash_key k)).

Lemma short_true k : short k = true <-> (length k <= KEY_MAX)%nat.
Proof. apply Nat.leb_le. Qed.

(** *** Region-level lemmas over an optional table *)

Lemma region_get_spec V r k now :
  region_wf V r -> short k = true ->
  let '(o, r') := on_region None (fun t => Cache.get V t k (hash_key k) now) r in
  o = region_view r k now /\ region_wf V r'
  /\ forall k' now', now <= now' -> region_view r' k' now' = region_view r k' now'.
Proof.
  destruct r as [t|]; simpl; [|done]. intros Hwf Hk%short_true.
  pose proof (get_spec hash_key Hwf k Hk now) as Hg.
  destruct (Cache.get V t k (hash_key k) now) as [o t']. destruct Hg as (Ho & Hwf' & Hf & Hn & Hs).
  split; [done|]. split; [done|]. intros k' now' Hle. unfold region_view. simpl.
  destruct (decide (k' = k)) as [->|Hne]; [|by rewrite Hf].
  destruct o as [v|]; [by rewrite Hs|]. rewrite Hn by done.
  unfold live_value in *. destruct (lookup_key t k) as [e|]; [|done].
  destruct (expired e now) eqn:He; [|done]. unfold expired in *.
  replace (negb _ && _) with true; [done|]. lia.
Qed.

Lemma region_delete_spec V r k :
  region_wf V r ->
  let '(b, r') := on_region false (fun t => Cache.delete t k (hash_key k)) r in
  b = bool_decide (is_Some (region_entry r k)) /\ region_wf V r'
  /\ forall k', region_entry r' k' = if beq k k' then None else region_entry r k'.
Proof.
  destruct r as [t|]; simpl.
  - intros Hwf. pose proof (delete_spec hash_key Hwf k) as Hd.
    by destruct (Cache.delete t k (hash_key k)) as [b t'].
  - intros _. split; [done|]. split; [done|].
    intros k'. by destruct (beq k k').
Qed.

Lemma region_set_spec V r k v ttl now ms :
  region_wf V r -> short k = true ->
  let '((ok, ev), r') := set_region V k v (hash_key k) ttl now ms r in
  ok = bool_decide (is_Some r) && (length v <=? V)%nat
  /\ (ok = false -> r' = r)
  /\ region_wf V r'
  /\ (ok = true ->
      (exists e, region_entry r' k = Some e /\ val e = v /\ expires_at e = expiry now ttl)
      /\ forall k', k' <> k ->
           region_entry r' k' = region_entry r k'
           \/ region_entry r' k' = None
              /\ exists e, region_entry r k' = Some e /\ (ev = true \/ expired e now = true)).
Proof.
  unfold set_region. destruct r as [t|]; simpl; [|done].
  intros Hwf Hk%short_true. pose proof (set_spec hash_key hash_u64 Hwf k Hk v ttl now ms) as Hs.
  destruct (Cache.set V t k v (hash_key k) ttl now ms) as [[ok ev] t'].
  destruct Hs as (Hok & Hf & Ht & _). split; [done|].
  split; [by intros [-> _]%Hf|]. destruct ok.
  - destruct (Ht eq_refl) as (?&?&?). done.
  - destruct (Hf eq_refl) as [-> _]. done.
Qed.
End Api.
