(* ===== verification/KvSpec.v ===== *)
(** The properties of the key/value API of [Kv]: each public operation against the view a
    caller has of the store, and the isolation of applications from each other. *)

From S2P Require Import Prelude Bytes Ns Probe Cache CacheLemmas CacheOps Kv.

(** When a value stored with deadline [exp] is gone. *)
Definition gone (exp now : Z) : bool := negb (exp =? 0) && (exp <? now).

Section Spec.
Context (hash_key : bytes -> Z) (hash_u64 : forall k, is_u64 (hash_key k)).
Abbreviation kv_wf := (kv_wf hash_key).
Implicit Types (cur : option App) (st : kv) (key : bytes).

Lemma init_wf slots large_slots ok : kv_wf (init (mkKv None None 0 0) slots large_slots ok).
Proof.
  assert (forall V n, region_wf hash_key V (map_region None n ok)) as H.
  { intros V n. unfold map_region. destruct ok; simpl; [|done]. apply wf_init. lia. }
  unfold init. split; simpl; [apply H|]. case_bool; [apply H|done].
Qed.

Lemma live_value_entry e v exp now :
  val e = v -> expires_at e = exp ->
  live_value (Some e) now = if gone exp now then None else Some v.
Proof. intros <- <-. done. Qed.

Lemma live_value_none_later e now now' :
  live_value (Some e) now = None -> now <= now' -> live_value (Some e) now' = None.
Proof. simpl. unfold expired. repeat case_bool; try done. lia. Qed.

Lemma region_none_later r k now now' :
  region_view r k now = None -> now <= now' -> region_view r k now' = None.
Proof.
  unfold region_view. destruct (region_entry r k); [|done]. apply live_value_none_later.
Qed.

Lemma get_lemma cur st key now :
  kv_wf st ->
  let k := Ns.key cur key in
  let '(o, st') := get hash_key cur st key now in
  o = (if short k then view st k now else None)
  /\ kv_wf st'
  /\ forall k' now', now <= now' -> view st' k' now' = view st k' now'.
Proof.
  intros [Hs Hl] k. unfold get. fold k. destruct (short k) eqn:Hk; simpl; [|done].
  pose proof (region_get_spec hash_key _ _ k now Hs Hk) as Gs.
  destruct (on_region _ _ (small st)) as [[v|] s]; destruct Gs as (Ev & Ws & Vs).
  - split; [by unfold view; rewrite <- Ev|]. split; [done|].
    intros k' now' Hle. unfold view. simpl. by rewrite Vs.
  - pose proof (region_get_spec hash_key _ _ k now Hl Hk) as Gl.
    destruct (on_region _ _ (large st)) as [o l]; destruct Gl as (El & Wl & Vl).
    split; [by unfold view; rewrite <- Ev|]. split; [done|].
    intros k' now' Hle. unfold view. simpl. by rewrite Vs, Vl.
Qed.

(** C7.  [get] is the reference lookup: it returns exactly the value the store holds for the
    namespaced key, in the small region or else in the large one, and no value for a key over
    [KEY_MAX] bytes; reclaiming an expired slot changes nothing any later lookup can see.
    The seqlock counter of a slot plays no part: a slot whose writer died mid-update (odd
    counter) is read under its lock with the same answer. *)
Theorem get_is_lookup cur st key now :
  kv_wf st ->
  let k := Ns.key cur key in
  let '(o, st') := get hash_key cur st key now in
  o = (if short k then view st k now else None)
  /\ kv_wf st'
  /\ forall k' now', now <= now' -> view st' k' now' = view st k' now'.
Proof. apply get_lemma. Qed.

(** The region a value of this size goes to. *)
Definition home st (v : bytes) : option table :=
  if (length v <=? VAL_SMALL)%nat then small st else large st.

Lemma set_lemma cur st key v ttl now ms :
  kv_wf st ->
  let k := Ns.key cur key in
  let '(ok, st') := set hash_key cur st key v ttl now ms in
  kv_wf st'
  /\ ok = short k && (length v <=? VAL_LARGE)%nat && bool_decide (is_Some (home st v))
  /\ (ok = true ->
      (forall now', view st' k now' = if gone (expiry now ttl) now' then None else Some v)
      /\ forall k' now', k' <> k -> now <= now' ->
           view st' k' now' = view st k' now' \/ evictions st' = evictions st + 1).
Proof.
  intros [Hs Hl] k. unfold set, home. fold k. destruct (short k) eqn:Hk; simpl; [|done].
  assert (VAL_SMALL <= VAL_LARGE)%nat as HV by (apply Nat.leb_le; reflexivity).
  destruct (Nat.leb_spec (length v) VAL_SMALL) as [Hv|Hv].
  - rewrite (proj2 (Nat.leb_le _ VAL_LARGE)) by (etrans; eassumption).
    pose proof (region_delete_spec hash_key _ _ k Hl) as Gl.
    destruct (on_region _ _ (large st)) as [b l]. destruct Gl as (_ & Wl & El).
    pose proof (region_set_spec hash_key hash_u64 _ _ k v ttl now ms Hs Hk) as Gs.
    destruct (set_region _ _ _ _ _ _ _ (small st)) as [[ok ev] s].
    destruct Gs as (-> & _ & Ws & Es). rewrite (proj2 (Nat.leb_le _ _) Hv), andb_true_r in *.
    split; [done|]. split; [done|]. intros Hok.
    destruct (Es Hok) as ((e & He & Hve & Hxe) & Hother). split.
    + intros now'. unfold view, region_view. cbn [small large]. rewrite He.
      erewrite live_value_entry by done. case_bool; [|done]. by rewrite El, beq_refl.
    + intros k' now' Hne Hle. unfold view, region_view. cbn [small large evictions].
      rewrite El. unfold beq. rewrite bool_decide_eq_false_2 by done.
      destruct (Hother k' Hne) as [->|(-> & e' & -> & [->|Hx])]; [by left|by right|].
      left. rewrite (live_value_none_later e' now now'); [done| |done].
      simpl. by rewrite Hx.
  - destruct (Nat.leb_spec (length v) VAL_LARGE) as [Hv'|Hv']; [|done].
    pose proof (region_delete_spec hash_key _ _ k Hs) as Gs.
    destruct (on_region _ _ (small st)) as [b s]. destruct Gs as (_ & Ws & Es).
    pose proof (region_set_spec hash_key hash_u64 _ _ k v ttl now ms Hl Hk) as Gl.
    destruct (set_region _ _ _ _ _ _ _ (large st)) as [[ok ev] l].
    destruct Gl as (-> & _ & Wl & El). rewrite (proj2 (Nat.leb_le _ _) Hv'), andb_true_r in *.
    split; [done|]. split; [done|]. intros Hok.
    destruct (El Hok) as ((e & He & Hve & Hxe) & Hother). split.
    + intros now'. unfold view, region_view. cbn [small large]. rewrite Es, beq_refl. simpl.
      rewrite He. by erewrite live_value_entry by done.
    + intros k' now' Hne Hle. unfold view, region_view. cbn [small large evictions].
      rewrite Es. unfold beq. rewrite bool_decide_eq_false_2 by done.
      destruct (Hother k' Hne) as [->|(-> & e' & -> & [->|Hx])]; [by left|by right|].
      left. rewrite (live_value_none_later e' now now'); [done| |done].
      simpl. by rewrite Hx.
Qed.

(** Any other key, whether the [set] succeeds or not. *)
Lemma set_frame cur st key v ttl now ms k' now' :
  kv_wf st -> k' <> Ns.key cur key -> now <= now' ->
  let st' := snd (set hash_key cur st key v ttl now ms) in
  view st' k' now' = view st k' now' \/ evictions st' = evictions st + 1.
Proof.
  intros Hwf Hne Hle. cbv zeta. pose proof (set_lemma cur st key v ttl now ms Hwf) as H. revert H. cbv zeta.
  destruct (set hash_key cur st key v ttl now ms) as [[] st'] eqn:E; [cbn [snd]; intros (_ & _ & H); by apply H|].
  cbn [snd]. intros (_ & Hok & _). left. revert E. unfold set, home in *. symmetry in Hok.
  destruct (short _); cbn [negb andb] in *; [|by intros [= <-]].
  destruct Hwf as [Hs Hl].
  destruct (length v <=? VAL_SMALL)%nat eqn:Ev.
  - assert (VAL_SMALL <= VAL_LARGE)%nat as HV by (apply Nat.leb_le; reflexivity).
    apply Nat.leb_le in Ev. rewrite (proj2 (Nat.leb_le _ VAL_LARGE)) in Hok by (etrans; eassumption).
    apply bool_decide_eq_false, eq_None_not_Some in Hok. rewrite Hok.
    pose proof (region_delete_spec hash_key _ _ (Ns.key cur key) Hl) as Gl.
    destruct (on_region _ _ (large st)) as [b l]. destruct Gl as (_ & _ & El). cbn. intros [= <-].
    unfold view, region_view. cbn [small large]. rewrite Hok, El. unfold beq. by rewrite bool_decide_eq_false_2 by done.
  - destruct (length v <=? VAL_LARGE)%nat eqn:Ev'; [|by intros [= <-]].
    apply bool_decide_eq_false, eq_None_not_Some in Hok. rewrite Hok.
    pose proof (region_delete_spec hash_key _ _ (Ns.key cur key) Hs) as Gs.
    destruct (on_region _ _ (small st)) as [b s]. destruct Gs as (_ & _ & Es). cbn. intros [= <-].
    unfold view, region_view. cbn [small large]. rewrite Hok, Es. unfold beq. by rewrite bool_decide_eq_false_2 by done.
Qed.

(** [set] succeeds exactly when the namespaced key fits, the value fits the largest slot
    and the region for its size is mapped; then the key reads as the new value until its
    deadline and as nothing afterwards, whichever size class it was in before (no stale copy
    survives in the other region), and any other key keeps its visible value unless the
    operation counted an eviction. *)
Theorem set_then_get cur st key v ttl now ms :
  kv_wf st ->
  let k := Ns.key cur key in
  let '(ok, st') := set hash_key cur st key v ttl now ms in
  kv_wf st'
  /\ ok = short k && (length v <=? VAL_LARGE)%nat && bool_decide (is_Some (home st v))
  /\ (ok = true ->
      (forall now', view st' k now' = if gone (expiry now ttl) now' then None else Some v)
      /\ forall k' now', k' <> k -> now <= now' ->
           view st' k' now' = view st k' now' \/ evictions st' = evictions st + 1).
Proof. apply set_lemma. Qed.

Lemma delete_lemma cur st key :
  kv_wf st ->
  let k := Ns.key cur key in
  let '(b, st') := delete hash_key cur st key in
  kv_wf st'
  /\ b = bool_decide (is_Some (region_entry (small st) k))
          || bool_decide (is_Some (region_entry (large st) k))
  /\ forall k' now, view st' k' now = if beq k k' then None else view st k' now.
Proof.
  intros [Hs Hl] k. unfold delete. fold k.
  pose proof (region_delete_spec hash_key _ _ k Hs) as Gs.
  destruct (on_region _ _ (small st)) as [b1 s]. destruct Gs as (-> & Ws & Es).
  pose proof (region_delete_spec hash_key _ _ k Hl) as Gl.
  destruct (on_region _ _ (large st)) as [b2 l]. destruct Gl as (-> & Wl & El).
  split; [done|]. split; [done|]. intros k' now. unfold view, region_view. cbn [small large].
  rewrite Es, El. by destruct (beq k k').
Qed.

(** [delete] removes the key from both size classes for good and reports whether a copy
    was there; no other key's value changes. *)
Theorem delete_then_gone cur st key :
  kv_wf st ->
  let k := Ns.key cur key in
  let '(b, st') := delete hash_key cur st key in
  kv_wf st'
  /\ b = bool_decide (is_Some (region_entry (small st) k))
          || bool_decide (is_Some (region_entry (large st) k))
  /\ forall k' now, view st' k' now = if beq k k' then None else view st k' now.
Proof. apply delete_lemma. Qed.

Lemma region_add_spec r k v ttl now ms :
  region_wf hash_key VAL_SMALL r -> short k = true -> (length v <= VAL_SMALL)%nat ->
  let '(ok, r') :=
    on_region false (fun t => Cache.add VAL_SMALL t k v (hash_key k) ttl now ms) r in
  region_wf hash_key VAL_SMALL r'
  /\ (ok = true -> region_view r k now = None
      /\ (exists e, region_entry r' k = Some e /\ val e = v /\ expires_at e = expiry now ttl)
      /\ forall k', k' <> k -> region_entry r' k' = region_entry r k')
  /\ (ok = false -> r' = r).
Proof.
  destruct r as [t|]; simpl; [|done]. intros Hwf Hk%short_true Hv.
  pose proof (add_spec hash_key Hwf k Hk v ttl now ms) as Ha.
  destruct (Cache.add _ _ _ _ _ _ _ _) as [ok t']. destruct Ha as (Hok & Hf & Ht).
  destruct ok; [|by rewrite Hf]. destruct (Ht eq_refl) as (?&?&?).
  split; [done|]. split; [|done]. intros _. split; [|done].
  unfold region_view. simpl. rewrite (proj2 (Nat.leb_le _ _) Hv) in Hok. simpl in Hok.
  destruct (lookup_key t k) as [e|]; [|done]. simpl. by rewrite <- Hok.
Qed.

Lemma add_lemma cur st key v ttl now ms :
  kv_wf st ->
  let k := Ns.key cur key in
  let '(ok, st') := add hash_key cur st key v ttl now ms in
  kv_wf st'
  /\ (ok = true ->
      view st k now = None
      /\ (forall now', now <= now' ->
            view st' k now' = if gone (expiry now ttl) now' then None else Some v)
      /\ forall k' now', k' <> k -> now <= now' -> view st' k' now' = view st k' now')
  /\ (ok = false -> forall k' now', now <= now' -> view st' k' now' = view st k' now').
Proof.
  intros [Hs Hl] k. unfold add. fold k.
  destruct (short k) eqn:Hk; simpl; [|done].
  destruct (Nat.ltb_spec VAL_SMALL (length v)) as [Hv|Hv]; [done|].
  pose proof (region_get_spec hash_key _ _ k now Hl Hk) as Gl.
  destruct (on_region _ _ (large st)) as [[x|] l]; destruct Gl as (Eo & Wl & Vl).
  { split; [done|]. split; [done|]. intros _ k' now' Hle. unfold view. simpl. by rewrite Vl. }
  pose proof (region_add_spec _ k v ttl now ms Hs Hk Hv) as Gs. cbn [small].
  destruct (on_region _ _ (small st)) as [ok s]. destruct Gs as (Ws & Et & Ef).
  split; [done|]. split.
  - intros Hok. destruct (Et Hok) as (Hn & (e & He & Hve & Hxe) & Hother). split; [|split].
    + unfold view. by rewrite Hn.
    + intros now' Hle. unfold view. cbn [small large]. rewrite Vl by done.
      unfold region_view at 1. rewrite He. erewrite live_value_entry by done.
      case_bool; [|done]. by eapply region_none_later.
    + intros k' now' Hne Hle. unfold view. cbn [small large]. rewrite Vl by done.
      unfold region_view at 1. by rewrite Hother.
  - intros ->%Ef k' now' Hle. unfold view. cbn [small large]. by rewrite Vl.
Qed.

(** [add] is set-if-absent: it succeeds only on a key with no live value in either
    region, and the owner's token is then what everybody reads until it expires; when it
    fails nothing any reader can see has changed. *)
Theorem add_is_set_if_absent cur st key v ttl now ms :
  kv_wf st ->
  let k := Ns.key cur key in
  let '(ok, st') := add hash_key cur st key v ttl now ms in
  kv_wf st'
  /\ (ok = true ->
      view st k now = None
      /\ (forall now', now <= now' ->
            view st' k now' = if gone (expiry now ttl) now' then None else Some v)
      /\ forall k' now', k' <> k -> now <= now' -> view st' k' now' = view st k' now')
  /\ (ok = false -> forall k' now', now <= now' -> view st' k' now' = view st k' now').
Proof. apply add_lemma. Qed.

Lemma region_touch_spec V r k ttl now :
  region_wf hash_key V r -> short k = true ->
  let '(ok, r') := on_region false (fun t => Cache.touch t k (hash_key k) ttl now) r in
  region_wf hash_key V r'
  /\ (forall k', k' <> k -> region_entry r' k' = region_entry r k')
  /\ (if ok then exists v, region_view r k now = Some v
                   /\ forall now', region_view r' k now' =
                        if gone (expiry now ttl) now' then None else Some v
      else region_view r k now = None /\ region_entry r' k = None).
Proof.
  destruct r as [t|]; simpl; [|done]. intros Hwf Hk%short_true.
  pose proof (touch_spec hash_key Hwf k Hk ttl now) as Ht.
  destruct (Cache.touch _ _ _ _ _) as [ok t']. destruct Ht as (Hok & Hwf' & Hf & Hr).
  split; [done|]. split; [done|]. unfold region_view. simpl. destruct ok.
  - destruct Hr as (e & e' & He & He' & Hv & Hx). rewrite He, He' in *. exists (val e). split.
    + simpl in *. by destruct (expired e now).
    + intros now'. by erewrite live_value_entry by done.
  - split; [|done]. symmetry in Hok. apply bool_decide_eq_false in Hok.
    by apply eq_None_not_Some.
Qed.

Lemma touch_lemma cur st key ttl now :
  kv_wf st ->
  let k := Ns.key cur key in
  let '(ok, st') := touch hash_key cur st key ttl now in
  kv_wf st'
  /\ (ok = true -> exists v, view st k now = Some v
        /\ forall now', gone (expiry now ttl) now' = false -> view st' k now' = Some v)
  /\ (ok = false -> short k = true -> view st k now = None /\ forall now', view st' k now' = None)
  /\ forall k' now', k' <> k -> view st' k' now' = view st k' now'.
Proof.
  intros [Hs Hl] k. unfold touch. fold k. destruct (short k) eqn:Hk; simpl; [|done].
  pose proof (region_touch_spec _ _ k ttl now Hs Hk) as Gs.
  destruct (on_region _ _ (small st)) as [[|] s]; destruct Gs as (Ws & Fs & Rs).
  - destruct Rs as (v & Hv & Hv'). split; [done|]. split; [|split; [done|]].
    + intros _. exists v. unfold view. cbn [small large]. rewrite Hv. split; [done|].
      intros now' Hn. by rewrite Hv', Hn.
    + intros k' now' Hne. unfold view, region_view. cbn [small large]. by rewrite Fs.
  - destruct Rs as [Hv He].
    assert (forall now', region_view s k now' = None) as Hnone
      by (intros; unfold region_view; by rewrite He).
    pose proof (region_touch_spec _ _ k ttl now Hl Hk) as Gl.
    destruct (on_region _ _ (large st)) as [ok l]; destruct Gl as (Wl & Fl & Rl).
    split; [done|]. split; [|split].
    + intros ->. destruct Rl as (v & Hv2 & Hv'). exists v. unfold view. cbn [small large].
      rewrite Hv. split; [done|]. intros now' Hn. by rewrite Hnone, Hv', Hn.
    + intros -> _. destruct Rl as [Hv2 He2]. unfold view. cbn [small large]. rewrite Hv.
      split; [done|]. intros now'. rewrite Hnone. unfold region_view. by rewrite He2.
    + intros k' now' Hne. unfold view, region_view. cbn [small large]. by rewrite Fs, Fl.
Qed.

(** [touch] moves the deadline of a live key and leaves its value alone, so no
    concurrent write can be clobbered by it; it fails exactly on a key with no live value,
    and no other key is affected. *)
Theorem touch_keeps_value cur st key ttl now :
  kv_wf st ->
  let k := Ns.key cur key in
  let '(ok, st') := touch hash_key cur st key ttl now in
  kv_wf st'
  /\ (ok = true -> exists v, view st k now = Some v
        /\ forall now', gone (expiry now ttl) now' = false -> view st' k now' = Some v)
  /\ (ok = false -> short k = true -> view st k now = None /\ forall now', view st' k now' = None)
  /\ forall k' now', k' <> k -> view st' k' now' = view st k' now'.
Proof. apply touch_lemma. Qed.

(** What a counter key counts: the small region's live value, as a decimal. *)
Definition counter st (k : bytes) (now : Z) : Z :=
  match region_view (small st) k now with Some v => counter_value v | None => 0 end.

(** Is there a slot for a key the small region does not hold? *)
Definition has_room st (k : bytes) : bool :=
  match small st with
  | Some t => bool_decide (is_Some (lookup_key t k))
              || bool_decide (is_Some (first_free t (win t (hash_key k))))
  | None => false
  end.

(** The deadline of the counter after an increment: that of the live counter, else a fresh
    one. *)
Definition deadline st (k : bytes) (ttl now : Z) : Z :=
  match region_entry (small st) k with
  | Some e => if expired e now then expiry now ttl else expires_at e
  | None => expiry now ttl
  end.

Lemma counter_value_to_string n :
  i64_min <= n <= i64_max -> counter_value (i64_to_string n) = n.
Proof.
  intros Hn. unfold counter_value.
  by rewrite trim_graphic, parse_i64_to_string by auto using i64_to_string_graphic.
Qed.

Lemma sat_add_i64_range x y : i64_min <= sat_add_i64 x y <= i64_max.
Proof. words. lia. Qed.

Lemma increment_lemma cur st key delta ttl now ms :
  kv_wf st -> i64_min <= delta <= i64_max ->
  let k := Ns.key cur key in
  let '(n, st') := increment hash_key cur st key delta ttl now ms in
  kv_wf st'
  /\ (short k = true -> has_room st k = true ->
      n = sat_add_i64 (counter st k now) delta
      /\ (forall now', gone (deadline st k ttl now) now' = false ->
           view st' k now' = Some (i64_to_string n) /\ counter st' k now' = n)
      /\ forall k' now', k' <> k -> view st' k' now' = view st k' now')
  /\ (short k = false \/ has_room st k = false -> st' = st).
Proof.
  intros [Hs Hl] Hd k. unfold increment, has_room, counter, deadline. fold k.
  destruct (short k) eqn:Hk; simpl; [|done].
  unfold on_region. destruct (small st) as [t|] eqn:Est; simpl.
  2:{ destruct st; simpl in *; subst. done. }
  apply short_true in Hk.
  pose proof (increment_spec hash_key Hs k Hk delta ttl now ms) as Hi.
  destruct (Cache.increment _ _ _ _ _ _ _ _) as [n t'].
  destruct Hi as [Hroom Hfull]; [apply Nat.leb_le; reflexivity|].
  unfold counter_of, region_view in *. cbn [region_entry small] in *.
  destruct (bool_decide (is_Some (lookup_key t k)) || _) eqn:Hr.
  - destruct Hroom as (Hn & Hwf' & (e & He & Hve & Hxe) & Hf).
    { apply orb_true_iff in Hr as [?%bool_decide_eq_true|?%bool_decide_eq_true]; [left|by right].
      by apply not_eq_None_Some. }
    split; [done|]. split; [|by intros [?|?]]. intros _ _.
    assert (n = sat_add_i64 (match live_value (lookup_key t k) now with
                             | Some v => counter_value v | None => 0 end) delta) as ->.
    { rewrite Hn. destruct (lookup_key t k); [done|]. unfold sat_add_i64. simpl. lia. }
    split; [done|]. split.
    + intros now' Hg. unfold view, region_view. cbn [region_entry small]. rewrite He.
      rewrite (live_value_entry _ _ _ now' Hve Hxe), Hg. split; [done|].
      apply counter_value_to_string, sat_add_i64_range.
    + intros k' now' Hne. unfold view, region_view. cbn [region_entry small large].
      rewrite Hf by done. by rewrite Est.
  - apply orb_false_iff in Hr as [Hr1%bool_decide_eq_false Hr2%bool_decide_eq_false].
    apply eq_None_not_Some in Hr1, Hr2. destruct (Hfull Hr1 Hr2) as [-> ->].
    split; [done|]. split; [done|]. intros _. destruct st; simpl in *; by subst.
Qed.

(** [increment] adds to the counter with saturation, so a counter never wraps: it
    returns the clamped sum and every reader then finds that number, in decimal, until the
    counter's deadline, which is set when the counter is created and does not move with later
    increments; other keys are untouched.  With the probe window full of other live keys (or
    the region unmapped) nothing is stored. *)
Theorem increment_counts cur st key delta ttl now ms :
  kv_wf st -> i64_min <= delta <= i64_max ->
  let k := Ns.key cur key in
  let '(n, st') := increment hash_key cur st key delta ttl now ms in
  kv_wf st'
  /\ (short k = true -> has_room st k = true ->
      n = sat_add_i64 (counter st k now) delta
      /\ (forall now', gone (deadline st k ttl now) now' = false ->
           view st' k now' = Some (i64_to_string n) /\ counter st' k now' = n)
      /\ forall k' now', k' <> k -> view st' k' now' = view st k' now')
  /\ (short k = false \/ has_room st k = false -> st' = st).
Proof. apply increment_lemma. Qed.

Lemma wf_key_short V t i e : wf hash_key V t -> t !! i = Some e -> state e = 1 ->
  (length (ekey e) <= KEY_MAX)%nat.
Proof. intros Hwf Hi Hs. by destruct (wf_live _ _ _ Hwf i e Hi Hs) as (_&?&_). Qed.

Lemma region_flush_spec V r p :
  region_wf hash_key V r ->
  region_wf hash_key V ((fun t => flush_prefix t p) <$> r)
  /\ forall k, region_entry ((fun t => flush_prefix t p) <$> r) k =
       if starts_with k p then None else region_entry r k.
Proof.
  destruct r as [t|]; simpl; [|intros; split; [done|]; intros k; by destruct (starts_with k p)].
  intros Hwf. destruct (flush_prefix_spec hash_key V t p Hwf) as [Hwf' Hl].
  split; [done|]. intros k. rewrite Hl. simpl. destruct (lookup_key t k) as [e|] eqn:He.
  - apply (lookup_key_Some _ Hwf) in He as (i & Hi & Hs & <-).
    rewrite take_ge; [done|]. exact (wf_key_short _ _ _ _ Hwf Hi Hs).
  - by destruct (starts_with (take KEY_MAX k) p), (starts_with k p).
Qed.

(** Two applications' stored keys never coincide, and only the owner's carry its prefix. *)
Lemma other_app_key a b k1 k2 :
  App_ok a -> App_ok b -> a <> b -> Ns.key (Some b) k2 <> Ns.key (Some a) k1.
Proof. intros Ha Hb Hne E. simpl in E. apply prefix_inj in E as [-> _]; done. Qed.

Lemma other_app_prefix a b k :
  App_ok a -> App_ok b -> a <> b -> starts_with (Ns.key (Some b) k) (prefix_bytes a) = false.
Proof.
  intros Ha Hb Hne. apply not_true_is_false. intros [r E]%starts_with_true.
  simpl in E. apply prefix_inj in E as [-> _]; done.
Qed.

Lemma flush_lemma st a :
  kv_wf st ->
  kv_wf (flush_app st a)
  /\ forall k now, view (flush_app st a) k now =
       if starts_with k (prefix_bytes a) then None else view st k now.
Proof.
  intros [Hs Hl]. destruct (region_flush_spec _ _ (prefix_bytes a) Hs) as [Ws Es].
  destruct (region_flush_spec _ _ (prefix_bytes a) Hl) as [Wl El]. split; [done|].
  intros k now. unfold view, region_view, flush_app. cbn [small large]. rewrite Es, El.
  by destruct (starts_with k _).
Qed.

(** C35.  Applications are isolated: whatever application [a] does to one of its keys, whether it
    succeeds or not, a key of application [b] reads the same, unless a [set] counted an eviction;
    flushing [a] empties exactly [a]'s part of the cache. *)
Theorem applications_isolated st a b key1 key2 v delta ttl now ms now' :
  kv_wf st -> App_ok a -> App_ok b -> a <> b -> now <= now' ->
  i64_min <= delta <= i64_max ->
  let kb := Ns.key (Some b) key2 in
  view (snd (get hash_key (Some a) st key1 now)) kb now' = view st kb now'
  /\ (view (snd (set hash_key (Some a) st key1 v ttl now ms)) kb now' = view st kb now'
      \/ evictions (snd (set hash_key (Some a) st key1 v ttl now ms)) = evictions st + 1)
  /\ view (snd (add hash_key (Some a) st key1 v ttl now ms)) kb now' = view st kb now'
  /\ view (snd (delete hash_key (Some a) st key1)) kb now' = view st kb now'
  /\ view (snd (touch hash_key (Some a) st key1 ttl now)) kb now' = view st kb now'
  /\ view (snd (increment hash_key (Some a) st key1 delta ttl now ms)) kb now' = view st kb now'
  /\ view (flush_app st a) kb now' = view st kb now'
  /\ view (flush_app st a) (Ns.key (Some a) key1) now' = None.
Proof.
  intros Hwf Ha Hb Hab Hle Hd kb.
  assert (kb <> Ns.key (Some a) key1) as Hne by by apply other_app_key.
  split_and!.
  - pose proof (get_lemma (Some a) st key1 now Hwf) as H.
    destruct (get _ _ _ _ _) as [o st']. simpl in *. naive_solver.
  - by apply set_frame.
  - pose proof (add_lemma (Some a) st key1 v ttl now ms Hwf) as H.
    destruct (add _ _ _ _ _ _ _ _) as [[] st']; simpl in *; naive_solver.
  - pose proof (delete_lemma (Some a) st key1 Hwf) as H.
    destruct (delete _ _ _ _) as [b' st']. destruct H as (_ & _ & H). simpl. rewrite H.
    unfold beq. by rewrite bool_decide_eq_false_2 by congruence.
  - pose proof (touch_lemma (Some a) st key1 ttl now Hwf) as H.
    destruct (touch _ _ _ _ _ _) as [[] st']; simpl in *; naive_solver.
  - pose proof (increment_lemma (Some a) st key1 delta ttl now ms Hwf Hd) as H.
    destruct (increment _ _ _ _ _ _ _ _) as [n st']. destruct H as (_ & Ht & Hf). cbn [snd].
    destruct (short (Ns.key (Some a) key1) && has_room st (Ns.key (Some a) key1)) eqn:E.
    + apply andb_true_iff in E as [E1 E2]. destruct (Ht E1 E2) as (_ & _ & H). auto.
    + apply andb_false_iff in E. by rewrite Hf.
  - destruct (flush_lemma st a Hwf) as [_ H]. rewrite H. subst kb. by rewrite other_app_prefix.
  - destruct (flush_lemma st a Hwf) as [_ H]. rewrite H.
    by rewrite (proj2 (starts_with_true _ (prefix_bytes a))) by by exists key1.
Qed.

(** Eviction is the last resort and takes the oldest: [set] evicts a live entry only for a
    key the region does not hold, when all [PROBE] slots of its window are live and
    unexpired, and the entry it overwrites was written no later than any other of them. *)
Theorem set_evicts_oldest V t key v ttl now ms :
  wf hash_key V t -> (length key <= KEY_MAX)%nat ->
  let '(_, evicted, t') := Cache.set V t key v (hash_key key) ttl now ms in
  evicted = true ->
  lookup_key t key = None
  /\ exists i, i ∈ win t (hash_key key)
    /\ t' = <[i := write (t !!! i) key v (hash_key key) (expiry now ttl) ms]> t
    /\ forall j, j ∈ win t (hash_key key) ->
         state (t !!! j) = 1 /\ expired (t !!! j) now = false
         /\ (written_at (t !!! j) < u64_max -> written_at (t !!! i) <= written_at (t !!! j)).
Proof.
  intros Hwf Hk. pose proof (set_spec hash_key hash_u64 Hwf key Hk v ttl now ms) as H.
  destruct (Cache.set _ _ _ _ _ _ _ _) as [[ok ev] t']. by destruct H as (_ & _ & _ & H).
Qed.
End Spec.

(** ** Witnesses: a store of 16 + 16 slots in which every key hashes to the same slot *)

Definition hash0 (_ : bytes) : Z := 3.
Lemma hash0_u64 k : is_u64 (hash0 k).
Proof. by words. Qed.

Definition st0 : kv := init (mkKv None None 0 0) 16 16 true.
Definition st1 : kv := snd (set hash0 None st0 (lit "hits") (lit "41") 60 100 100000).
Lemma st0_wf : kv_wf hash0 st0.
Proof. apply init_wf. Qed.
Lemma st1_wf : kv_wf hash0 st1.
Proof.
  pose proof (set_lemma hash0 hash0_u64 None st0 (lit "hits") (lit "41") 60 100 100000 st0_wf) as H.
  unfold st1. destruct (set _ _ _ _ _ _ _ _) as [ok st]. apply H.
Qed.

Definition app_a : App := mkApp (lit "00000000deadbeef").
Definition app_b : App := mkApp (lit "11111111deadbeef").
Lemma app_a_ok : App_ok app_a.
Proof. split; [done|]. by apply forallb_Forall. Qed.
Lemma app_b_ok : App_ok app_b.
Proof. split; [done|]. by apply forallb_Forall. Qed.

Lemma get_is_lookup_witness :
  kv_wf hash0 st1
  /\ let '(o, _) := get hash0 None st1 (lit "hits") 160 in o = Some (lit "41").
Proof.
  split; [exact st1_wf|].
  pose proof (get_is_lookup hash0 None st1 (lit "hits") 160 st1_wf) as H.
  destruct (get _ _ _ _ _) as [o st]. destruct H as [-> _]. reflexivity.
Defined.

Lemma set_then_get_witness :
  let '(ok, st') := set hash0 None st1 (lit "user") (lit "7") 10 100 100500 in
  ok = true /\ view st' (lit "user") 110 = Some (lit "7") /\ view st' (lit "user") 111 = None.
Proof.
  pose proof (set_then_get hash0 hash0_u64 None st1 (lit "user") (lit "7") 10 100 100500 st1_wf) as H.
  destruct (set _ _ _ _ _ _ _ _) as [ok st']. destruct H as (_ & -> & H).
  destruct (H eq_refl) as [Hv _]. cbn in Hv. rewrite !Hv. repeat split; reflexivity.
Defined.

Lemma delete_then_gone_witness :
  let '(b, st') := delete hash0 None st1 (lit "hits") in
  b = true /\ view st' (lit "hits") 100 = None.
Proof.
  pose proof (delete_then_gone hash0 None st1 (lit "hits") st1_wf) as H.
  destruct (delete _ _ _ _) as [b st']. destruct H as (_ & -> & H). rewrite H.
  split; reflexivity.
Defined.

Lemma add_is_set_if_absent_witness :
  fst (add hash0 None st1 (lit "lock") (lit "me") 5 100 100000) = true
  /\ view st1 (lit "lock") 100 = None
  /\ view (snd (add hash0 None st1 (lit "lock") (lit "me") 5 100 100000)) (lit "lock") 105
     = Some (lit "me").
Proof.
  pose proof (add_is_set_if_absent hash0 None st1 (lit "lock") (lit "me") 5 100 100000 st1_wf) as H.
  assert (fst (add hash0 None st1 (lit "lock") (lit "me") 5 100 100000) = true) as E by reflexivity.
  destruct (add _ _ _ _ _ _ _ _) as [ok st']. cbn [fst snd] in *. destruct H as (_ & H & _).
  destruct (H E) as (Hn & Hv & _). split; [exact E|]. split; [exact Hn|].
  refine (eq_trans (Hv 105 _) _); [lia|reflexivity].
Defined.

Lemma touch_keeps_value_witness :
  fst (touch hash0 None st1 (lit "hits") 500 120) = true
  /\ exists v, view st1 (lit "hits") 120 = Some v
     /\ view (snd (touch hash0 None st1 (lit "hits") 500 120)) (lit "hits") 600 = Some v.
Proof.
  pose proof (touch_keeps_value hash0 None st1 (lit "hits") 500 120 st1_wf) as H.
  assert (fst (touch hash0 None st1 (lit "hits") 500 120) = true) as E by reflexivity.
  destruct (touch _ _ _ _ _ _) as [ok st']. cbn [fst snd] in *. split; [exact E|].
  destruct H as (_ & H & _). destruct (H E) as (v & Hv & Hl). exists v. split; [exact Hv|].
  apply (Hl 600). reflexivity.
Defined.

Lemma increment_counts_witness :
  let '(n, st') := increment hash0 None st1 (lit "hits") 1 0 100 100500 in
  n = 42 /\ view st' (lit "hits") 160 = Some (lit "42").
Proof.
  assert (i64_min <= 1 <= i64_max) as Hd by (words; lia).
  pose proof (increment_counts hash0 None st1 (lit "hits") 1 0 100 100500 st1_wf Hd) as H.
  destruct (increment _ _ _ _ _ _ _ _) as [n st']. destruct H as (_ & H & _).
  destruct (H eq_refl eq_refl) as (Hn & Hv & _). destruct (Hv 160 eq_refl) as [Hv' _].
  assert (n = 42) as -> by (rewrite Hn; reflexivity). split; [reflexivity|]. exact Hv'.
Defined.

(** Two applications with a key of the same name. *)
Definition shared_st : kv :=
  snd (set hash0 (Some app_b) (snd (set hash0 (Some app_a) st0 (lit "k") (lit "of a") 0 100 100000)) (lit "k") (lit "of b") 0 100 100001).
Lemma shared_st_wf : kv_wf hash0 shared_st.
Proof.
  assert (forall cur st key v ms, kv_wf hash0 st -> kv_wf hash0 (snd (set hash0 cur st key v 0 100 ms))) as H.
  { intros cur st key v ms Hwf. pose proof (set_lemma hash0 hash0_u64 cur st key v 0 100 ms Hwf) as H.
    destruct (set _ _ _ _ _ _ _ _) as [ok st']. apply H. }
  apply H, H, st0_wf.
Qed.

Lemma applications_isolated_witness :
  let kb := Ns.key (Some app_b) (lit "k") in
  view shared_st kb 100 = Some (lit "of b") /\
  view (snd (delete hash0 (Some app_a) shared_st (lit "k"))) kb 100 = Some (lit "of b") /\
  view (flush_app shared_st app_a) kb 100 = Some (lit "of b") /\
  view shared_st (Ns.key (Some app_a) (lit "k")) 100 = Some (lit "of a") /\
  view (flush_app shared_st app_a) (Ns.key (Some app_a) (lit "k")) 100 = None.
Proof.
  assert (app_a <> app_b) as Hne by (intros E; discriminate E).
  assert (i64_min <= 0 <= i64_max) as Hd by (words; lia). assert (100 <= 100) as Hle by lia.
  destruct (applications_isolated hash0 hash0_u64 shared_st app_a app_b (lit "k") (lit "k") [] 0 0 100 0 100
           shared_st_wf app_a_ok app_b_ok Hne Hle Hd) as (_ & _ & _ & Hdel & _ & _ & Hf & Hg).
  cbv zeta. assert (view shared_st (Ns.key (Some app_b) (lit "k")) 100 = Some (lit "of b")) as E by reflexivity.
  split; [exact E|]. split; [exact (eq_trans Hdel E)|]. split; [exact (eq_trans Hf E)|].
  split; [reflexivity|exact Hg].
Defined.

(** A full window: 16 live entries, the one in slot 3 the oldest. *)
Fixpoint fill (n : nat) (st : kv) : kv :=
  match n with
  | O => st
  | S n' => snd (set hash0 None (fill n' st) [Z.of_nat n] [0] 0 100 (1000 + Z.of_nat n))
  end.
Definition full : table := match small (fill 16 st0) with Some t => t | None => [] end.

Lemma fill_wf n st : kv_wf hash0 st -> kv_wf hash0 (fill n st).
Proof.
  intros Hwf. induction n as [|n IH]; [done|]. cbn [fill].
  pose proof (set_lemma hash0 hash0_u64 None (fill n st) [Z.of_nat (S n)] [0] 0 100
    (1000 + Z.of_nat (S n)) IH) as H.
  destruct (set _ _ _ _ _ _ _ _) as [ok st']. apply H.
Qed.

Lemma full_wf : wf hash0 VAL_SMALL full.
Proof.
  pose proof (proj1 (fill_wf 16 st0 st0_wf)) as H. unfold full.
  assert (match small (fill 16 st0) with Some _ => true | None => false end = true) as E
    by (vm_compute; reflexivity).
  revert H E. generalize (small (fill 16 st0)). by intros [t|].
Qed.

Lemma set_evicts_oldest_witness :
  (length (lit "new") <= KEY_MAX)%nat
  /\ snd (fst (Cache.set VAL_SMALL full (lit "new") [1] (hash0 (lit "new")) 0 200 2000)) = true
  /\ lookup_key full (lit "new") = None.
Proof.
  assert (length (lit "new") <= KEY_MAX)%nat as Hk by (apply Nat.leb_le; reflexivity).
  pose proof (set_evicts_oldest hash0 hash0_u64 VAL_SMALL full (lit "new") [1] 0 200 2000
                full_wf Hk) as H.
  assert (snd (fst (Cache.set VAL_SMALL full (lit "new") [1] (hash0 (lit "new")) 0 200 2000)) = true)
    as E by (vm_compute; reflexivity).
  split; [exact Hk|]. split; [exact E|]. revert H E.
  generalize (Cache.set VAL_SMALL full (lit "new") [1] (hash0 (lit "new")) 0 200 2000).
  intros [[ok ev] t'] H E. exact (proj1 (H E)).
Defined.
