(* ===== verification/Loads.v ===== *)
(** Shared memory word by word: a memory from locations to words, a program of loads, and a
    sequence of stores.  The lock-free readers of the source ([Seqlock], [Broadcast]) are such
    programs, interleaved with the stores of others.

    Memory is sequentially consistent: the source's fences, acquire loads and release stores are
    there to get that order, and the hardware model below them is not modelled. *)

From S2P Require Import Prelude Bytes.

Section Memory.
Context {L : Type} `{EqDecision L}.

Definition mem := L -> Z.
Definition upd (m : mem) (l : L) (x : Z) : mem := fun l' => if decide (l = l') then x else m l'.
Definition buffer (m : mem) (at_ : nat -> L) (n : Z) : bytes := m ∘ at_ <$> seq 0 (Z.to_nat n).

Fixpoint stores_at (at_ : nat -> L) (i : nat) (b : bytes) : list (L * Z) :=
  match b with [] => [] | x :: b' => (at_ i, x) :: stores_at at_ (S i) b' end.
Definition store_all (m : mem) (ws : list (L * Z)) : mem :=
  fold_left (fun m '(l, x) => upd m l x) ws m.

Implicit Type m : mem.

Lemma upd_eq m l x : upd m l x l = x.
Proof. unfold upd. by rewrite decide_True. Qed.
Lemma upd_ne m l l' x : l <> l' -> upd m l x l' = m l'.
Proof. intros. unfold upd. by rewrite decide_False. Qed.

Lemma length_buffer m a n : length (buffer m a n) = Z.to_nat n.
Proof. unfold buffer. by rewrite length_fmap, length_seq. Qed.

Lemma take_buffer V m a n : take V (buffer m a n) = m ∘ a <$> seq 0 (Nat.min (Z.to_nat n) V).
Proof.
  unfold buffer. rewrite <- fmap_take. f_equal. generalize (Z.to_nat n) 0%nat. clear.
  induction V as [|V IH]; intros [|n] i; [done..|]. simpl. by rewrite IH.
Qed.

Lemma store_all_app m a b : store_all m (a ++ b) = store_all (store_all m a) b.
Proof. apply fold_left_app. Qed.

Lemma store_all_other m ws l : l ∉ ws.*1 -> store_all m ws l = m l.
Proof.
  revert m. induction ws as [|[l' x] ws IH]; intros m Hl; [done|]. cbn [fmap list_fmap fst] in Hl.
  apply not_elem_of_cons in Hl as [Hne Hl]. cbn [store_all fold_left]. etrans; [by apply IH|]. apply upd_ne. congruence.
Qed.

Lemma stores_at_other a (b : bytes) i m l :
  (forall j, a j <> l) -> store_all m (stores_at a i b) l = m l.
Proof.
  intros Hl. revert i m. induction b as [|x b IH]; intros i m; [done|].
  cbn [stores_at store_all fold_left]. etrans; [apply IH|]. by apply upd_ne.
Qed.

Lemma stores_at_below a b i m j :
  (forall x y, a x = a y -> x = y) -> (j < i)%nat -> store_all m (stores_at a i b) (a j) = m (a j).
Proof.
  intros Ha. revert i m. induction b as [|x b IH]; intros i m Hj; [done|].
  cbn [stores_at store_all fold_left]. etrans; [apply IH; lia|].
  apply upd_ne. intros E%Ha. lia.
Qed.

Lemma stores_at_buffer a b i m :
  (forall x y, a x = a y -> x = y) ->
  store_all m (stores_at a i b) ∘ a <$> seq i (length b) = b.
Proof.
  intros Ha. revert i m. induction b as [|x b IH]; intros i m; [done|].
  cbn [stores_at length seq fmap list_fmap]. f_equal.
  - unfold compose. cbn [store_all fold_left]. etrans; [apply stores_at_below; [done|lia]|].
    apply upd_eq.
  - apply (IH (S i) (upd m (a i) x)).
Qed.

(** Stores to distinct locations all stay. *)
Lemma store_all_NoDup m ws :
  NoDup ws.*1 -> Forall (fun lx => store_all m ws lx.1 = lx.2) ws.
Proof.
  revert m. induction ws as [|[l x] ws IH]; intros m Hn; [done|].
  cbn [fmap list_fmap fst] in Hn. apply NoDup_cons in Hn as [Hl Hn]. constructor; [|by apply IH].
  cbn [fst snd store_all fold_left]. etrans; [by apply (store_all_other _ ws)|]. apply upd_eq.
Qed.

(** A reader: loads, and what is done with each value. *)
Inductive prog {R : Type} :=
| Ret (r : R)
| Load (l : L) (k : Z -> prog).

Fixpoint load_all {R} (ls : list L) (k : bytes -> @prog R) : prog :=
  match ls with
  | [] => k []
  | l :: ls' => Load l (fun x => load_all ls' (fun xs => k (x :: xs)))
  end.

(** With nobody else. *)
Fixpoint eval {R} (m : mem) (p : @prog R) : R :=
  match p with Ret r => r | Load l k => eval m (k (m l)) end.

Lemma eval_load_all {R} m ls (k : bytes -> @prog R) : eval m (load_all ls k) = eval m (k (m <$> ls)).
Proof. revert k. induction ls as [|l ls IH]; intros k; [done|]. simpl. apply IH. Qed.
End Memory.
Arguments mem : clear implicits.
Arguments prog : clear implicits.
