(* ===== verification/Seqlock.v ===== *)
(** The lock-free read of [cache.rs]: one slot's memory, a writer that stores its fields one at
    a time between the two counter updates of [Writing], and [Region::peek] as the program of
    loads it is, interleaved with the writer in any order.

    Memory is sequentially consistent here: the source's fences and volatile reads are there to
    get that order, and the hardware model below them is not modelled. *)

From S2P Require Import Prelude Bytes Cache Loads.

(** A word or byte of one [Entry]. *)
Inductive loc :=
| LVersion | LState | LHash | LExpires | LWritten | LKeyLen | LValLen
| LKey (i : nat) | LVal (i : nat).
#[export] Instance loc_eq_dec : EqDecision loc.
Proof. solve_decision. Defined.

Abbreviation mem := (Loads.mem loc).
Abbreviation prog := (Loads.prog loc Peek).

(** The entry a memory holds. *)
Definition decode (m : mem) : entry :=
  mkEntry (m LVersion) (m LState) (m LHash) (m LExpires) (m LWritten)
    (buffer m LKey (m LKeyLen)) (buffer m LVal (m LValLen)).

(** ** The reader: loads, and what is done with each value *)

(** The validation every path of [peek] ends with: the counter once more. *)
Definition validate (v1 : Z) (r : Peek) : prog :=
  Load LVersion (fun v2 => if v2 =? v1 then Ret r else Ret Torn).

(** [Region::peek], load by load. *)
Definition peek_prog (V : nat) (key : bytes) (h now : Z) : prog :=
  Load LVersion (fun v1 =>
    if Z.odd v1 then Ret Torn
    else
      Load LState (fun state => Load LHash (fun hash => Load LKeyLen (fun klen =>
      Load LExpires (fun expires =>
        let not_ours := validate v1 (if state =? 0 then ChainEnd else Other) in
        if (state =? 1) && (hash =? h) && (Z.to_nat klen =? length key)%nat
           && (Z.to_nat klen <=? KEY_MAX)%nat then
          load_all (LKey <$> seq 0 (Z.to_nat klen)) (fun k =>
            if beq k key then
              Load LValLen (fun vlen =>
                load_all (LVal <$> seq 0 (Nat.min (Z.to_nat vlen) V)) (fun val =>
                  validate v1 (if negb (expires =? 0) && (expires <? now)
                               then Expired else Hit val)))
            else not_ours)
        else not_ours))))).

(** ** The writer: the stores of [Region::write], [mark_state], [mark_expires] *)

Definition write_stores (key v : bytes) (h expires ms : Z) : list (loc * Z) :=
  [(LState, 1); (LHash, h); (LExpires, expires); (LWritten, ms);
   (LKeyLen, Z.of_nat (length key)); (LValLen, Z.of_nat (length v))]
  ++ stores_at LKey 0 key ++ stores_at LVal 0 v.
Definition mark_state_stores (s : Z) : list (loc * Z) := [(LState, s)].
Definition mark_expires_stores (x : Z) : list (loc * Z) := [(LExpires, x)].

(** A whole write, run with nobody watching. *)
Definition run_writer (m : mem) (ws : list (loc * Z)) : mem :=
  let odd := writing_begin (m LVersion) in
  upd (store_all (upd m LVersion odd) ws) LVersion (wrap64 (odd + 1)).

(** ** The interleaving *)

Record cfg := mkCfg {
  cmem : mem;
  writer : option Z;    (* inside a write: the even value [Drop] will store *)
  reader : prog }.

Inductive step : cfg -> cfg -> Prop :=
| W_begin m p :
    step (mkCfg m None p)
         (mkCfg (upd m LVersion (writing_begin (m LVersion)))
                (Some (wrap64 (writing_begin (m LVersion) + 1))) p)
| W_store m n p l x : l <> LVersion ->
    step (mkCfg m (Some n) p) (mkCfg (upd m l x) (Some n) p)
| W_end m n p : step (mkCfg m (Some n) p) (mkCfg (upd m LVersion n) None p)
(* killed, or unwinding ([Drop] returns early when panicking): the counter stays odd *)
| W_die m n p : step (mkCfg m (Some n) p) (mkCfg m None p)
| R_load m w l k : step (mkCfg m w (Load l k)) (mkCfg m w (k (m l))).

(** [n] steps. *)
Inductive steps : nat -> cfg -> cfg -> Prop :=
| steps_refl c : steps 0 c c
| steps_step n c1 c2 c3 : step c1 c2 -> steps n c2 c3 -> steps (S n) c1 c3.

(** A live writer has made the counter odd and will leave it even, one higher. *)
Definition inv (c : cfg) : Prop :=
  0 <= cmem c LVersion /\
  match writer c with
  | Some n => Z.odd (cmem c LVersion) = true /\ n = wrap64 (cmem c LVersion + 1)
  | None => True
  end.

(** ** A reader alone *)

Lemma eval_validate m r : eval m (validate (m LVersion) r) = r.
Proof. simpl. by rewrite Z.eqb_refl. Qed.

(** With no writer, the program of loads is the sequential [Cache.peek]. *)
Lemma eval_peek V m key h now :
  eval m (peek_prog V key h now) = Cache.peek V (decode m) key h now.
Proof.
  unfold peek_prog, Cache.peek. cbn [eval]. cbn [decode version].
  destruct (Z.odd (m LVersion)); [done|]. cbn [eval].
  cbn [decode state Cache.hash ekey expires_at]. rewrite length_buffer.
  destruct ((m LState =? 1) && _ && _ && _) eqn:E; cbn [andb negb].
  2:{ by rewrite eval_validate. }
  rewrite eval_load_all, <- list_fmap_compose. fold (buffer m LKey (m LKeyLen)).
  destruct (beq _ key); cbn [negb]; [|by rewrite eval_validate].
  cbn [eval]. rewrite eval_load_all, eval_validate.
  destruct (negb (m LExpires =? 0) && _); [done|].
  unfold read_val. cbn [decode val]. by rewrite take_buffer, <- list_fmap_compose.
Qed.

(** ** Every path of the reader ends by validating *)

Inductive checked (v1 : Z) : prog -> Prop :=
| checked_last k : (forall v, v <> v1 -> k v = Ret Torn) -> (exists r, k v1 = Ret r) ->
    checked v1 (Load LVersion k)
| checked_load l k : (forall v, checked v1 (k v)) -> checked v1 (Load l k).

Lemma checked_validate v1 r : checked v1 (validate v1 r).
Proof.
  apply checked_last.
  - intros v Hv. by rewrite (proj2 (Z.eqb_neq _ _) Hv).
  - exists r. by rewrite Z.eqb_refl.
Qed.

Lemma checked_load_all v1 ls k : (forall b, checked v1 (k b)) -> checked v1 (load_all ls k).
Proof.
  revert k. induction ls as [|l ls IH]; intros k Hk; [apply Hk|].
  apply checked_load. intros x. apply IH. intros b. apply Hk.
Qed.

Lemma writing_begin_odd v : Z.odd v = true -> writing_begin v = v.
Proof.
  intros Ho. unfold writing_begin. apply Z.bits_inj'. intros n Hn. rewrite Z.lor_spec.
  destruct (decide (n = 0)) as [->|].
  - rewrite Z.bit0_odd, Ho. done.
  - replace (Z.testbit 1 n) with false; [apply orb_false_r|].
    symmetry. by apply (Z.bits_above_log2 1); simpl; lia.
Qed.

Lemma writing_begin_even v : Z.odd v = false -> writing_begin v = v + 1.
Proof.
  intros Ho. unfold writing_begin.
  assert (Z.land v 1 = 0) as Hl.
  { change 1 with (Z.ones 1). rewrite Z.land_ones by lia. change (2 ^ 1) with 2.
    rewrite Zmod_odd. by rewrite Ho. }
  rewrite <- Z.lxor_lor by done. by rewrite <- Z.add_nocarry_lxor.
Qed.

Lemma writing_begin_bounds v :
  0 <= v -> v <= writing_begin v <= v + 1 /\ Z.odd (writing_begin v) = true.
Proof.
  intros Hv. destruct (Z.odd v) eqn:E.
  - rewrite writing_begin_odd by done. split; [lia|done].
  - rewrite writing_begin_even by done. split; [lia|]. by rewrite Z.add_1_r, Z.odd_succ, <- Z.negb_odd, E.
Qed.

(** One step: the counter never goes down (while it is far from wrapping), the invariant is
    kept, and the memory changes only under an odd counter. *)
Lemma step_inv c c' :
  step c c' -> inv c -> cmem c LVersion + 2 < W64 ->
  inv c' /\ cmem c LVersion <= cmem c' LVersion <= cmem c LVersion + 1
  /\ (cmem c' = cmem c /\ writer c = None \/ writer c <> None \/ writer c' <> None)
  /\ (writer c = None -> Z.odd (cmem c LVersion) = false -> writer c' <> None ->
      cmem c LVersion < cmem c' LVersion).
Proof.
  intros Hs [Hpos Hw] Hb. destruct Hs as [m p|m n p l x Hl|m n p|m n p|m w l k];
    unfold inv in *; cbn [cmem writer] in *.
  - rewrite upd_eq. destruct (writing_begin_bounds (m LVersion) Hpos) as [? ?].
    split; [split; [lia|done]|]. split; [lia|]. split; [right; by right|].
    intros _ Ho _. rewrite writing_begin_even by done. lia.
  - rewrite upd_ne by done. split; [done|]. split; [lia|]. split; [right; by left|]. done.
  - rewrite upd_eq. destruct Hw as [_ ->]. rewrite wrap64_id by (words; lia).
    split; [lia|]. split; [lia|]. split; [right; by left|]. done.
  - split; [done|]. split; [lia|]. split; [right; by left|done].
  - split; [done|]. split; [lia|]. split; [destruct w; [right; by left|by left]|].
    intros -> _ Hn. done.
Qed.

Lemma ret_stable n c c' r : steps n c c' -> reader c = Ret r -> reader c' = Ret r.
Proof.
  induction 1 as [|n c1 c2 c3 Hs _ IH]; [done|]. intros Hr. apply IH.
  by destruct Hs; simpl in *.
Qed.

(** Once a writer has been seen to start, the reader cannot validate. *)
Lemma overtaken v1 n c c' r :
  steps n c c' -> inv c -> cmem c LVersion + 2 * Z.of_nat n < W64 -> v1 < cmem c LVersion ->
  checked v1 (reader c) \/ reader c = Ret Torn -> reader c' = Ret r -> r = Torn.
Proof.
  intros Hst. revert r. induction Hst as [c|n c1 c2 c3 Hs Hst IH]; intros r Hi Hb Hv Hp Hr.
  - destruct Hp as [Hp|Hp]; [|congruence]. rewrite Hr in Hp. inversion Hp.
  - destruct (step_inv _ _ Hs Hi) as (Hi' & Hle & _); [lia|].
    apply IH; [done|lia|lia| |done]. destruct Hs as [| | | |m w l k]; try done.
    cbn [reader cmem] in *. destruct Hp as [Hp|[=]].
    inversion Hp as [k' Hne _|l' k' Hk]; subst; [right; apply Hne; lia|left; apply Hk].
Qed.

(** Between an even sample with no writer and the validation, what the reader computes is what
    it would compute alone on the memory of that instant. *)
Lemma undisturbed n c c' r :
  steps n c c' -> inv c -> cmem c LVersion + 2 * Z.of_nat n < W64 ->
  writer c = None -> Z.odd (cmem c LVersion) = false ->
  checked (cmem c LVersion) (reader c) -> reader c' = Ret r ->
  r = Torn \/ r = eval (cmem c) (reader c).
Proof.
  intros Hst. revert r. induction Hst as [c|n c1 c2 c3 Hs Hst IH];
    intros r Hi Hb Hw Ho Hp Hr.
  - rewrite Hr in Hp. inversion Hp.
  - destruct (step_inv _ _ Hs Hi) as (Hi' & Hle & _ & Hlt); [lia|].
    destruct Hs as [m p|m n' p l x Hl|m n' p|m n' p|m w l k]; try done; cbn [cmem writer reader] in *.
    + left. refine (overtaken (m LVersion) n _ _ r Hst Hi' _ (Hlt eq_refl Ho _) (or_introl Hp) Hr).
      all: cbn [cmem writer] in *; try done; try lia.
    + subst w. inversion Hp as [k' _ [r' Hk] Hl|l' k' Hk]; subst.
      * right. cbn [eval]. rewrite Hk in *. simpl.
        pose proof (ret_stable _ _ _ r' Hst eq_refl). congruence.
      * apply IH; cbn [cmem writer reader] in *; try done; try lia.
Qed.

Lemma peek_prog_checked V key h now v1 k :
  peek_prog V key h now = Load LVersion k -> Z.odd v1 = false -> checked v1 (k v1).
Proof.
  intros [= <-] Ho. cbv beta. rewrite Ho.
  do 4 (apply checked_load; intros ?). case_bool; [|apply checked_validate].
  apply checked_load_all. intros b. case_bool; [|apply checked_validate].
  apply checked_load. intros vlen. apply checked_load_all. intros val. apply checked_validate.
Qed.

(** C8.  The lock-free read is linearizable: if [Region::peek], its loads interleaved in any way
    with writers of the slot (complete writes, killed ones, recoveries), returns anything but
    [Torn], then at some instant of that run no writer was inside and the answer is exactly
    what the sequential [peek] gives for the whole entry at that instant.  A value can never be
    stitched from two writes. *)
Theorem peek_linearizable V key h now n c c' r :
  inv c -> reader c = peek_prog V key h now ->
  cmem c LVersion + 2 * Z.of_nat n < W64 ->
  steps n c c' -> reader c' = Ret r -> r <> Torn ->
  exists n1 n2 cm, n = (n1 + n2)%nat /\ steps n1 c cm /\ steps n2 cm c'
    /\ writer cm = None /\ Z.odd (cmem cm LVersion) = false
    /\ r = Cache.peek V (decode (cmem cm)) key h now.
Proof.
  intros Hi Hp Hb Hst Hr Hnt. revert Hi Hp Hb Hr.
  induction Hst as [c|n c1 c2 c3 Hs Hst IH]; intros Hi Hp Hb Hr; [unfold peek_prog in Hp; congruence|].
  destruct (step_inv _ _ Hs Hi) as (Hi' & Hle & _); [lia|].
  assert (reader c2 = peek_prog V key h now ->
    exists n1 n2 cm, S n = (n1 + n2)%nat /\ steps n1 c1 cm /\ steps n2 cm c3
      /\ writer cm = None /\ Z.odd (cmem cm LVersion) = false
      /\ r = Cache.peek V (decode (cmem cm)) key h now) as Hskip.
  { intros Hp'. destruct (IH Hi' Hp') as (n1 & n2 & cm & -> & S1 & S2 & HR); [lia|done|].
    exists (S n1), n2, cm. split; [done|]. split; [by eapply steps_step|done]. }
  destruct Hs as [m p|m n' p l x Hl|m n' p|m n' p|m w l k]; try by apply Hskip.
  clear Hskip IH. cbn [reader cmem] in *.
  assert (l = LVersion) as -> by (by inversion Hp).
  exists 0%nat, (S n), (mkCfg m w (Load LVersion k)). split; [done|].
  split; [constructor|]. split; [by eapply steps_step; [constructor|]|].
  destruct (Z.odd (m LVersion)) eqn:Ho.
  { exfalso. apply Hnt. unfold peek_prog in Hp. injection Hp as ->. cbv beta in Hst.
    rewrite Ho in Hst. pose proof (ret_stable _ _ _ Torn Hst eq_refl). congruence. }
  assert (w = None) as ->. { destruct w; [|done]. destruct Hi as [_ [Ho' _]]. simpl in Ho'. congruence. }
  split; [done|]. split; [done|].
  destruct (undisturbed _ _ _ r Hst Hi') as [|Hev]; cbn [cmem writer reader] in *; try done; [lia| |].
  { by eapply peek_prog_checked. }
  by rewrite <- eval_peek, <- Hp.
Qed.

(** ** The writer alone is the sequential [write] *)

(** [Region::write] run store by store under the slot lock leaves the entry the sequential
    model writes: the new key, value, hash, deadline and write time, state occupied, and the
    counter even and past its old value, even when the previous writer died and left it odd. *)
Theorem run_writer_write m key v h expires ms :
  decode (run_writer m (write_stores key v h expires ms))
  = Cache.write (decode m) key v h expires ms.
Proof.
  unfold run_writer, Cache.write, write_stores. rewrite !store_all_app.
  set (m1 := store_all (upd m LVersion _) _).
  set (mk := store_all m1 (stores_at LKey 0 key)). set (mv := store_all mk (stores_at LVal 0 v)).
  assert (forall l, (forall j, LKey j <> l) -> (forall j, LVal j <> l) -> mv l = m1 l) as Hmv.
  { intros l Hk Hv. unfold mv, mk. by rewrite !stores_at_other. }
  unfold decode, buffer. rewrite upd_eq. rewrite !(upd_ne _ LVersion) by done.
  rewrite !Hmv by done.
  replace (m1 LKeyLen) with (Z.of_nat (length key)) by done.
  replace (m1 LValLen) with (Z.of_nat (length v)) by done. rewrite !Nat2Z.id.
  assert (forall a, (forall x, a x <> LVersion) -> forall (l : list nat),
    upd mv LVersion (wrap64 (writing_begin (m LVersion) + 1)) ∘ a <$> l = mv ∘ a <$> l) as Hcomp.
  { intros a Ha l. apply list_fmap_ext. intros i x _. unfold compose. apply upd_ne. by apply not_eq_sym. }
  rewrite !Hcomp by done.
  assert (mv ∘ LKey <$> seq 0 (length key) = key) as ->.
  { etrans; [|apply (stores_at_buffer LKey key 0 m1); congruence].
    apply list_fmap_ext. intros i x _. unfold compose, mv. by apply stores_at_other. }
  assert (mv ∘ LVal <$> seq 0 (length v) = v) as ->.
  { apply stores_at_buffer. congruence. }
  reflexivity.
Qed.

Definition zero_mem : mem := fun _ => 0.

(** A writer runs to completion, then the reader: it answers from the entry written. *)
Lemma peek_linearizable_witness :
  exists c' n1 n2 cm,
    steps 9 (mkCfg zero_mem None (peek_prog 4 [97] 5 0)) c' /\ reader c' = Ret ChainEnd
    /\ 9%nat = (n1 + n2)%nat /\ writer cm = None
    /\ ChainEnd = Cache.peek 4 (decode (cmem cm)) [97] 5 0.
Proof.
  assert (exists m, steps 9 (mkCfg zero_mem None (peek_prog 4 [97] 5 0)) (mkCfg m None (Ret ChainEnd)))
    as [m Hs].
  { eexists. eapply steps_step; [apply W_begin|]. eapply steps_step; [by apply (W_store _ _ _ LHash 5)|].
    eapply steps_step; [apply W_end|].
    do 6 (eapply steps_step; [apply R_load|cbn]). apply steps_refl. }
  destruct (peek_linearizable 4 [97] 5 0 9 (mkCfg zero_mem None (peek_prog 4 [97] 5 0))
              (mkCfg m None (Ret ChainEnd)) ChainEnd) as (n1 & n2 & cm & Hn & _ & _ & Hw & _ & Hr);
    [by vm_compute|done|by vm_compute|done..|].
  by exists (mkCfg m None (Ret ChainEnd)), n1, n2, cm.
Defined.
