(* ===== verification/CacheRace.v ===== *)
(** [Region::add] and [Region::delete] interleaved: every slot visit is one step, taken under
    that slot's lock, and between two visits any other worker may run.

    Workers racing to add the same key have exactly one winner as long as only they run.  The
    claim in the source, that two racing [add]s cannot both succeed, is stronger, and false: a
    concurrent delete of an unrelated key in the window makes both succeed. *)

From S2P Require Import Prelude Bytes Probe Cache CacheLemmas.

(** One call of [add]: its key and value, its clock readings. *)
Record req := mkReq { rkey : bytes; rval : bytes; rhash : Z; rttl : Z; rnow : Z; rms : Z }.

Inductive task :=
| AddProbing (q : req) (w : list nat) (r : option nat)   (* slots left to visit, [reuse] *)
| AddCommitting (q : req) (i : nat)
| Deleting (key : bytes) (h : Z) (w : list nat) (found : bool)
| Done (b : bool).

Definition start_add (V : nat) (t : table) (q : req) : task :=
  if (V <? length (rval q))%nat then Done false else AddProbing q (win t (rhash q)) None.
Definition start_delete (t : table) (key : bytes) (h : Z) : task := Deleting key h (win t h) false.

Definition after_probe (q : req) (r : option nat) : task :=
  match r with Some i => AddCommitting q i | None => Done false end.

(** What one task does while it holds one slot's lock. *)
Definition task_step (t : table) (g : task) : task * table :=
  match g with
  | AddProbing q [] r => (after_probe q r, t)
  | AddProbing q (i :: w) r =>
      let e := t !!! i in
      if (state e =? 1) && matches e (rkey q) (rhash q) then
        if negb (expired e (rnow q)) then (Done false, t)
        else (Done true, <[i := write e (rkey q) (rval q) (rhash q)
                                  (expiry (rnow q) (rttl q)) (rms q)]> t)
      else
        let r := if (state e =? 0) || (state e =? 2) then or_else r i else r in
        if state e =? 0 then (after_probe q r, t) else (AddProbing q w r, t)
  | AddCommitting q i =>
      let '(b, t') := add_commit t (rkey q) (rval q) (rhash q) (rttl q) (rnow q) (rms q) i in
      (Done b, t')
  | Deleting key h [] found => (Done found, t)
  | Deleting key h (i :: w) found =>
      if state (t !!! i) =? 0 then (Done found, t)
      else if matches (t !!! i) key h
           then (Deleting key h w true, <[i := mark_state (t !!! i) 2]> t)
           else (Deleting key h w found, t)
  | Done b => (Done b, t)
  end.

(** The region and the workers in it; a schedule names the worker of each step. *)
Abbreviation sys := (table * list task)%type.
Definition sys_step (s : sys) (j : nat) : sys :=
  match s.2 !! j with
  | Some g => let '(g', t') := task_step s.1 g in (t', <[j := g']> s.2)
  | None => s
  end.
Definition run (s : sys) (sched : list nat) : sys := fold_left sys_step sched s.

Definition won (g : task) : bool := match g with Done true => true | _ => false end.
Definition finished (g : task) : bool := match g with Done _ => true | _ => false end.

(** ** A task run to its end with nobody else *)

Fixpoint alone (n : nat) (t : table) (g : task) : task * table :=
  match n with
  | O => (g, t)
  | S n' => let '(g', t') := task_step t g in alone n' t' g'
  end.

Definition commit_ok (q : req) (e : entry) : bool :=
  negb ((state e =? 1) && matches e (rkey q) (rhash q) && negb (expired e (rnow q)))
  && ((state e =? 0) || (state e =? 2) || matches e (rkey q) (rhash q) || expired e (rnow q)).

(** The slot the task would write if nobody else ran from here on. *)
Definition target (t : table) (g : task) : option nat :=
  match g with
  | AddProbing q w r =>
      match add_probe t (rkey q) (rhash q) (rnow q) w r with
      | AddHeld => None
      | AddInPlace i => Some i
      | AddFree (Some i) => if commit_ok q (t !!! i) then Some i else None
      | AddFree None => None
      end
  | AddCommitting q i => if commit_ok q (t !!! i) then Some i else None
  | _ => None
  end.

Lemma add_commit_eq t q i :
  add_commit t (rkey q) (rval q) (rhash q) (rttl q) (rnow q) (rms q) i
  = if commit_ok q (t !!! i)
    then (true, <[i := write (t !!! i) (rkey q) (rval q) (rhash q)
                         (expiry (rnow q) (rttl q)) (rms q)]> t)
    else (false, t).
Proof.
  unfold add_commit, commit_ok. destruct ((state (t !!! i) =? 1) && _ && _); [done|].
  cbn [negb andb]. by destruct (_ || _).
Qed.

Lemma alone_done n t b : alone n t (Done b) = (Done b, t).
Proof. by induction n. Qed.

Lemma alone_commit n t q i :
  alone (S n) t (AddCommitting q i)
  = let '(b, t') := add_commit t (rkey q) (rval q) (rhash q) (rttl q) (rnow q) (rms q) i in
    (Done b, t').
Proof. cbn [alone task_step]. destruct (add_commit _ _ _ _ _ _ _ _). apply alone_done. Qed.

Lemma alone_probe q t w r n :
  alone (length w + 2 + n) t (AddProbing q w r)
  = match add_probe t (rkey q) (rhash q) (rnow q) w r with
    | AddHeld => (Done false, t)
    | AddInPlace i => (Done true, <[i := write (t !!! i) (rkey q) (rval q) (rhash q)
                                         (expiry (rnow q) (rttl q)) (rms q)]> t)
    | AddFree r => alone (S n) t (after_probe q r)
    end.
Proof.
  revert r n. induction w as [|i w IH]; intros r n; [done|].
  replace (length (i :: w) + 2 + n)%nat with (S (length w + 2 + n)) by (simpl; lia).
  cbn [alone task_step add_probe]. destruct ((state (t !!! i) =? 1) && _).
  { destruct (negb _); apply alone_done. }
  destruct (state (t !!! i) =? 0); [|apply IH]. cbn [orb].
  destruct (or_else r i) as [j|]; cbn [after_probe task_step]; [|by rewrite !alone_done].
  replace (length w + 2 + n)%nat with (S (length w + 1 + n)) by lia. rewrite alone_commit.
  destruct (add_commit _ _ _ _ _ _ _ _). by rewrite alone_done.
Qed.

(** Slot by slot, with nobody else in the region, the task is [Cache.add]: it finishes
    within two steps more than the window, with its answer and its table. *)
Theorem add_alone V t q n :
  (PROBE + 2 <= n)%nat ->
  alone n t (start_add V t q)
  = let '(b, t') := add V t (rkey q) (rval q) (rhash q) (rttl q) (rnow q) (rms q) in (Done b, t').
Proof.
  intros Hn. unfold start_add, add. destruct (V <? _)%nat; [apply alone_done|].
  assert (length (win t (rhash q)) = PROBE) as Hl
    by (unfold win, window; by rewrite length_fmap, length_seqZ, Nat2Z.id).
  replace n with (length (win t (rhash q)) + 2 + (n - PROBE - 2))%nat by (rewrite Hl; lia).
  rewrite alone_probe. destruct (add_probe _ _ _ _ _ _) as [|i|[i|]]; try done.
  - by cbn [after_probe]; rewrite alone_commit.
  - apply alone_done.
Qed.

Lemma add_alone_witness :
  alone 34 (replicate 4 empty_entry) (start_add 8 (replicate 4 empty_entry)
              (mkReq [97] [1] 3 0 0 0))
  = let '(b, t') := add 8 (replicate 4 empty_entry) [97] [1] 3 0 0 0 in (Done b, t').
Proof. by apply (add_alone 8 (replicate 4 empty_entry) (mkReq [97] [1] 3 0 0 0) 34). Defined.

(** ** Workers adding one key *)

Section OneKey.
Context (t0 : table) (key : bytes) (h now expires : Z).
Context (Hkey : (length key <= KEY_MAX)%nat) (Hexp : expires = 0 \/ now <= expires).

(** A request of the race. *)
Definition same (q : req) : Prop :=
  rkey q = key /\ rhash q = h /\ rnow q = now /\ expiry (rnow q) (rttl q) = expires.
Definition of_race (q : req) (g : task) : Prop :=
  same q /\
  match g with
  | AddProbing q' _ _ | AddCommitting q' _ => q' = q
  | Deleting _ _ _ _ => False
  | Done _ => True
  end.

(** The table once slot [T] holds a live entry for the key. *)
Definition taken (t : table) (T : nat) : Prop :=
  t = <[T := t !!! T]> t0 /\ (T < length t0)%nat /\ state (t !!! T) = 1
  /\ matches (t !!! T) key h = true /\ expired (t !!! T) now = false.

Lemma taken_held q t T : same q -> taken t T -> commit_ok q (t !!! T) = false.
Proof.
  intros (Ek & Eh & En & _) (_ & _ & Hs & Hm & He). unfold commit_ok.
  by rewrite Ek, Eh, En, Hs, Hm, He.
Qed.

Lemma taken_other t T i : taken t T -> i <> T -> t !!! i = t0 !!! i.
Proof. intros (-> & _) ?. by apply list_lookup_total_insert_ne. Qed.

(** Whoever was heading for slot [T] now fails. *)
Lemma target_taken t T q g : of_race q g -> taken t T -> target t0 g = Some T -> target t g = None.
Proof.
  intros [Hg Hq] Ht. destruct g as [q' w r|q' i| |]; cbn [target]; try subst q'; try done.
  - assert (forall r', match r' with
      | Some i => if commit_ok q (t0 !!! i) then Some i else None | None => None end = Some T ->
      match r' with
      | Some i => if commit_ok q (t !!! i) then Some i else None | None => None end = None) as Hend.
    { intros [i|]; [|done]. case_bool; intros; simplify_eq. by rewrite (taken_held q t T). }
    revert r. induction w as [|i w IH]; intros r; [apply Hend|]. cbn [add_probe].
    destruct (decide (i = T)) as [->|Hne].
    + destruct Hg as (Ek & Eh & En & _). pose proof Ht as (_ & _ & Hs & Hm & He).
      by rewrite Ek, Eh, En, Hs, Hm, He.
    + rewrite (taken_other t T) by done. destruct ((state (t0 !!! i) =? 1) && _).
      { by destruct (negb _); intros; simplify_eq. }
      destruct (state (t0 !!! i) =? 0); [apply Hend|apply IH].
  - case_bool; intros; simplify_eq. by rewrite (taken_held q t T).
Qed.

(** A task with no target is going to fail, and changes nothing on the way. *)
Lemma step_target_None t q g g' t' :
  of_race q g -> task_step t g = (g', t') -> target t g = None -> won g = false ->
  t' = t /\ of_race q g' /\ target t g' = None /\ won g' = false.
Proof.
  unfold of_race.
  destruct g as [q' [|i w] r|q' i| |b]; cbn [task_step target]; intros [Hg Hq] E Ht Hw;
    try subst q'.
  - cbn [add_probe] in Ht. destruct r; simplify_eq/=; done.
  - cbn [add_probe] in Ht. destruct ((state (t !!! i) =? 1) && _).
    + destruct (negb _); simplify_eq/=; done.
    + destruct (state (t !!! i) =? 0); [|simplify_eq/=; done].
      cbn [orb] in *. destruct (or_else r i); simplify_eq/=; done.
  - rewrite add_commit_eq in E. destruct (commit_ok _ _); simplify_eq/=; done.
  - done.
  - simplify_eq/=. done.
Qed.

(** A task with a target either moves on towards it or wins there. *)
Lemma step_target_Some t q g g' t' T :
  of_race q g -> task_step t g = (g', t') -> target t g = Some T ->
  (t' = t /\ of_race q g' /\ target t g' = Some T /\ won g' = false)
  \/ (g' = Done true /\ same q /\
      t' = <[T := write (t !!! T) key (rval q) h expires (rms q)]> t).
Proof.
  unfold of_race.
  destruct g as [q' [|i w] r|q' i| |b]; cbn [task_step target]; intros [Hg Hq] E Ht;
    try subst q'.
  - left. cbn [add_probe] in Ht. destruct r; simplify_eq/=; done.
  - cbn [add_probe] in Ht. destruct ((state (t !!! i) =? 1) && _).
    + destruct (negb _); simplify_eq/=. right. split; [done|]. split; [done|].
      destruct Hg as (Ek & Eh & _ & Ex). by rewrite Ex, Ek, Eh.
    + left. destruct (state (t !!! i) =? 0); [|simplify_eq/=; done].
      cbn [orb] in *. destruct (or_else r i); simplify_eq/=; done.
  - rewrite add_commit_eq in E. destruct (commit_ok _ _); simplify_eq/=. right. split; [done|].
    split; [done|]. destruct Hg as (Ek & Eh & _ & Ex). by rewrite Ex, Ek, Eh.
  - done.
  - done.
Qed.

Definition race_inv (reqs : list req) (O : option nat) (s : sys) : Prop :=
  Forall2 of_race reqs s.2 /\
  ((s.1 = t0 /\ Forall (fun g => target t0 g = O /\ won g = false) s.2)
   \/ exists T j q, O = Some T /\ reqs !! j = Some q /\ s.2 !! j = Some (Done true)
      /\ s.1 = <[T := write (t0 !!! T) key (rval q) h expires (rms q)]> t0
      /\ forall k g, k <> j -> s.2 !! k = Some g -> target s.1 g = None /\ won g = false).

Lemma taken_write T v ms :
  (T < length t0)%nat -> taken (<[T := write (t0 !!! T) key v h expires ms]> t0) T.
Proof.
  intros HT. unfold taken. rewrite list_lookup_total_insert_eq by done. cbn [state write].
  split; [done|]. split; [done|]. split; [done|]. split; [by apply matches_intro|].
  unfold expired. cbn [expires_at write]. destruct Hexp as [->|?]; [done|].
  apply andb_false_iff. right. apply Z.ltb_ge. lia.
Qed.

Lemma race_inv_step reqs O s j :
  (forall T, O = Some T -> (T < length t0)%nat) ->
  race_inv reqs O s -> race_inv reqs O (sys_step s j).
Proof.
  intros HO [Hf Hi]. unfold sys_step. destruct (s.2 !! j) as [g|] eqn:Ej; [|done].
  destruct (task_step s.1 g) as [g' t'] eqn:Es.
  destruct (Forall2_lookup_r _ _ _ _ _ Hf Ej) as (q & Eq & Hg). unfold race_inv. cbn [fst snd].
  assert (forall g', of_race q g' -> Forall2 of_race reqs (<[j:=g']> s.2)) as Hf'.
  { intros g1 Hg1. rewrite <- (list_insert_id reqs j q) by done. by apply Forall2_insert. }
  pose proof (lookup_lt_Some _ _ _ Ej) as Hj.
  destruct Hi as [[Et Ha]|(T & j0 & q0 & -> & Eq0 & Ej0 & Et & Ho)].
  - pose proof (Forall_lookup_1 _ _ _ _ Ha Ej) as [Htg Hw]. rewrite Et in *.
    destruct O as [T|].
    + destruct (step_target_Some _ _ _ _ _ _ Hg Es Htg) as [(-> & Hg' & Ht' & Hw')|(-> & Hs & ->)].
      * split; [by apply Hf'|]. left. split; [done|]. by apply Forall_insert.
      * split; [by apply Hf'|]. right. exists T, j, q. split; [done|]. split; [done|].
        rewrite list_lookup_insert_eq by done. split; [done|]. split; [done|].
        intros k gk Hk. rewrite list_lookup_insert_ne by done. intros Ek.
        destruct (Forall_lookup_1 _ _ _ _ Ha Ek) as [Htk Hwk]. split; [|done].
        destruct (Forall2_lookup_r _ _ _ _ _ Hf Ek) as (qk & _ & Hgk).
        eapply target_taken; [done| |done]. apply taken_write. auto.
    + destruct (step_target_None _ _ _ _ _ Hg Es Htg Hw) as (-> & Hg' & Ht' & Hw').
      split; [by apply Hf'|]. left. split; [done|]. by apply Forall_insert.
  - destruct (decide (j = j0)) as [->|Hne].
    + rewrite Ej in Ej0. injection Ej0 as ->. cbn [task_step] in Es. injection Es as <- <-.
      rewrite list_insert_id by done. split; [done|]. right. by exists T, j0, q0.
    + destruct (Ho j g Hne Ej) as [Htg Hw].
      destruct (step_target_None _ _ _ _ _ Hg Es Htg Hw) as (-> & Hg' & Ht' & Hw').
      split; [by apply Hf'|]. right. exists T, j0, q0. split; [done|]. split; [done|].
      rewrite list_lookup_insert_ne by done. split; [done|]. split; [done|].
      intros k gk Hk Ek. destruct (decide (k = j)) as [->|].
      * rewrite list_lookup_insert_eq in Ek by done. by injection Ek as <-.
      * rewrite list_lookup_insert_ne in Ek by done. by apply (Ho k).
Qed.

Lemma race_inv_run reqs O s sched :
  (forall T, O = Some T -> (T < length t0)%nat) ->
  race_inv reqs O s -> race_inv reqs O (run s sched).
Proof.
  intros HO. revert s. induction sched as [|j sched IH]; intros s Hi; [done|].
  apply IH. by apply race_inv_step.
Qed.
End OneKey.

Lemma target_elem t q w r T : target t (AddProbing q w r) = Some T -> T ∈ w \/ r = Some T.
Proof.
  revert r. induction w as [|i w IH]; intros r; cbn [target add_probe] in *.
  { destruct r; [|done]. case_bool; [|done]. intros [= ->]. by right. }
  destruct ((state (t !!! i) =? 1) && _).
  { destruct (negb _); [done|]. intros [= ->]. left. set_solver. }
  destruct (state (t !!! i) =? 0); cbn [orb].
  - destruct r as [k|]; cbn [or_else]; case_bool; intros; simplify_eq; [by right|left; set_solver].
  - intros [?|Hr]%IH; [left; set_solver|]. case_bool; [|by right].
    destruct r as [k|]; simplify_eq/=; [by right|left; set_solver].
Qed.

Lemma add_target V t q :
  (length (rval q) <= V)%nat ->
  add V t (rkey q) (rval q) (rhash q) (rttl q) (rnow q) (rms q)
  = match target t (AddProbing q (win t (rhash q)) None) with
    | Some T => (true, <[T := write (t !!! T) (rkey q) (rval q) (rhash q)
                                (expiry (rnow q) (rttl q)) (rms q)]> t)
    | None => (false, t)
    end.
Proof.
  intros Hv. unfold add. rewrite (proj2 (Nat.ltb_ge _ _) Hv). cbn [target].
  destruct (add_probe _ _ _ _ _ _) as [|i|[i|]]; [done|done| |done].
  rewrite add_commit_eq. by destruct (commit_ok _ _).
Qed.

Lemma finished_inv g : finished g = true -> won g = false -> g = Done false.
Proof. by destruct g as [| | |[]]. Qed.

(** Workers racing to add one key, in any order of their slot visits: never two of them
    win, and once all have answered, either one won, with exactly the table its [add] alone
    would have left, or nothing changed and each would have failed alone. *)
Theorem adds_one_winner V t key h now expires reqs sched :
  (0 < length t)%nat -> (length key <= KEY_MAX)%nat -> expires = 0 \/ now <= expires ->
  Forall (fun q => same key h now expires q /\ (length (rval q) <= V)%nat) reqs ->
  let s := run (t, start_add V t <$> reqs) sched in
  (forall j k, s.2 !! j = Some (Done true) -> s.2 !! k = Some (Done true) -> j = k) /\
  (forallb finished s.2 = true ->
   (exists j q, reqs !! j = Some q /\ s.2 !! j = Some (Done true)
      /\ add V t key (rval q) h (rttl q) now (rms q) = (true, s.1)
      /\ forall k g, k <> j -> s.2 !! k = Some g -> g = Done false)
   \/ (s.1 = t /\ Forall (eq (Done false)) s.2
       /\ Forall (fun q => add V t key (rval q) h (rttl q) now (rms q) = (false, t)) reqs)).
Proof.
  intros Ht Hk He Hq s.
  set (O := target t (AddProbing (mkReq key [] h 0 now 0) (win t h) None)).
  assert (forall q, same key h now expires q ->
            target t (AddProbing q (win t (rhash q)) None) = O) as HO.
  { intros q (Ek & Eh & En & _). unfold O. cbn [target rkey rhash rnow]. rewrite Ek, Eh, En.
    destruct (add_probe _ _ _ _ _ _) as [| |[i|]]; try done.
    unfold commit_ok. by rewrite Ek, Eh, En. }
  assert (forall T, O = Some T -> (T < length t)%nat) as Hlt.
  { intros T [?|?]%target_elem; [|done]. by eapply win_elem. }
  assert (race_inv t key h now expires reqs O s) as [Hf Hi].
  { apply race_inv_run; [done..|]. split; cbn [fst snd].
    - clear -Hq. induction Hq as [|q reqs [Hs Hv] _ IH]; simpl; constructor; [|done].
      unfold start_add. rewrite (proj2 (Nat.ltb_ge _ _) Hv). by split.
    - left. split; [done|]. apply Forall_fmap. eapply Forall_impl; [exact Hq|].
      intros q [Hs Hv]. unfold compose, start_add. rewrite (proj2 (Nat.ltb_ge _ _) Hv).
      split; [exact (HO q Hs)|reflexivity]. }
  assert (forall q, q ∈ reqs -> add V t key (rval q) h (rttl q) now (rms q)
    = match O with Some T => (true, <[T := write (t !!! T) key (rval q) h expires (rms q)]> t)
                 | None => (false, t) end) as Hadd.
  { intros q Hin. rewrite Forall_forall in Hq. destruct (Hq q Hin) as [Hs Hv].
    pose proof (add_target V t q Hv) as E. rewrite (HO q Hs) in E.
    destruct Hs as (Ek & Eh & En & Ex). by rewrite Ex, Ek, Eh, En in E. }
  destruct Hi as [[Et Ha]|(T & j & q & EO & Eq & Ej & Et & Ho)]; split.
  - intros j k Ej. by destruct (Forall_lookup_1 _ _ _ _ Ha Ej).
  - intros Hd%forallb_Forall.
    assert (Forall (eq (Done false)) s.2) as Hdf.
    { apply Forall_forall. intros g Hg. rewrite Forall_forall in Ha, Hd.
      symmetry. apply finished_inv; [by apply Hd|by apply Ha]. }
    right. split; [done|]. split; [done|]. apply Forall_forall. intros q Hin.
    rewrite (Hadd q Hin).
    apply list_elem_of_lookup in Hin as [i Hi]. destruct (Forall2_lookup_l _ _ _ _ _ Hf Hi) as (g & Hg & _).
    destruct (Forall_lookup_1 _ _ _ _ Ha Hg) as [<- _].
    by rewrite <- (Forall_lookup_1 _ _ _ _ Hdf Hg).
  - intros j1 k1 E1 E2. destruct (decide (j1 = j)) as [->|]; [|by destruct (Ho j1 _ ltac:(done) E1)].
    destruct (decide (k1 = j)) as [->|]; [done|by destruct (Ho k1 _ ltac:(done) E2)].
  - intros Hd%forallb_Forall. left. exists j, q. split; [done|]. split; [done|]. split.
    + rewrite (Hadd q) by by eapply list_elem_of_lookup_2. by rewrite EO, Et.
    + intros k g Hne Ek. destruct (Ho k g Hne Ek).
      apply finished_inv; [by apply (Forall_lookup_1 _ _ _ _ Hd Ek)|done].
Qed.

(** Two workers visit the same free slot; the second to have seen it commits first and wins. *)
Lemma adds_one_winner_witness :
  let qa := mkReq [1] [10] 64 0 0 0 in let qb := mkReq [1] [20] 64 0 0 0 in
  let s := run (replicate 64 empty_entry, start_add 8 (replicate 64 empty_entry) <$> [qa; qb])
               [0; 1; 1; 0]%nat in
  s.2 = [Done false; Done true] /\
  (forall j k, s.2 !! j = Some (Done true) -> s.2 !! k = Some (Done true) -> j = k).
Proof.
  intros qa qb s.
  pose proof (adds_one_winner 8 (replicate 64 empty_entry) [1] 64 0 0 [qa; qb] [0; 1; 1; 0]%nat)
    as H.
  split; [by vm_compute|]. apply H; [by vm_compute; lia|by vm_compute; lia|by left|].
  repeat constructor; vm_compute; lia.
Defined.

Definition shared_hash (key : bytes) : Z := 64 * foldr Z.add 0 key.

(** The source's claim that two racing [add]s of one key cannot both succeed does not
    survive a third worker: on a region where two other keys were added to the window, worker
    B visits the first slot, the key in it is deleted, worker A adds into the freed slot, and B,
    past it already, adds a second copy.  Both are told they hold the lock; readers see A's
    token. *)
Theorem adds_race_two_winners :
  let key := [1] in let y := [2] in let z := [3] in
  let q k v := mkReq k v (shared_hash k) 0 100 100000 in
  exists t1 t sched,
    add 8 (replicate 64 empty_entry) y [9] (shared_hash y) 0 100 100000 = (true, t1)
    /\ add 8 t1 z [9] (shared_hash z) 0 100 100000 = (true, t)
    /\ let s := run (t, [start_add 8 t (q key [10]); start_add 8 t (q key [20]);
                         start_delete t y (shared_hash y)]) sched in
       s.2 = [Done true; Done true; Done true]
       /\ (get 8 s.1 key (shared_hash key) 100).1 = Some [10]
       /\ length (filter (fun e => holds key e = true) s.1) = 2%nat.
Proof.
  eexists _, _, [1; 2; 2; 2; 0; 0; 0; 0; 1; 1; 1]%nat.
  split; [by vm_compute|]. split; [by vm_compute|]. cbv zeta. repeat split; by vm_compute.
Qed.
