(* ===== verification/Glob.v ===== *)
(** [glob_match] of [rcache.rs]: the wildcard matcher behind BAN and the cache rules, with its
    two pointers and its backtracking to the last [*], and what it decides. *)

From S2P Require Import Prelude Bytes.

Definition STAR : Z := 42.
Definition QUESTION : Z := 63.

(** The trailing [while]: only stars may be left of the pattern. *)
Fixpoint only_stars (p : bytes) : bool :=
  match p with [] => true | x :: p' => (x =? STAR) && only_stars p' end.

(** The loop.  [p] and [t] are the suffixes at [pi] and [ti]; [back] is [None] while [star] is
    [usize::MAX], and then the pattern after that star with the text at [mark].  [None] is out
    of fuel. *)
Fixpoint glob_loop (fuel : nat) (p t : bytes) (back : option (bytes * bytes)) : option bool :=
  match fuel with
  | O => None
  | S f =>
      match t with
      | [] => Some (only_stars p)
      | c :: t' =>
          let backtrack :=
            match back with
            | Some (bp, _ :: bt) => glob_loop f bp bt (Some (bp, bt))
            | _ => Some false
            end in
          match p with
          | x :: p' =>
              if (x =? QUESTION) || (x =? c) then glob_loop f p' t' back
              else if x =? STAR then glob_loop f p' t (Some (p', t))
              else backtrack
          | [] => backtrack
          end
      end
  end.

Definition glob_fuel (p t : bytes) : nat := S (S (length t) * S (length p + length t)).
Definition glob_match (p t : bytes) : bool := default false (glob_loop (glob_fuel p t) p t None).

(** The reference: [*] matches any bytes, [?] any one byte, every other byte itself. *)
Inductive Glob : bytes -> bytes -> Prop :=
| glob_nil : Glob [] []
| glob_star p s t : Glob p t -> Glob (STAR :: p) (s ++ t)
| glob_any p c t : Glob p t -> Glob (QUESTION :: p) (c :: t)
| glob_byte p c t : c <> STAR -> Glob p t -> Glob (c :: p) (c :: t).

(** ** Facts of the reference *)

Lemma glob_nil_inv t : Glob [] t -> t = [].
Proof. by inversion 1. Qed.

Lemma glob_star_inv p t : Glob (STAR :: p) t -> exists s t', t = s ++ t' /\ Glob p t'.
Proof. inversion 1; simplify_eq; eauto; done. Qed.

Lemma glob_cons_inv x p t :
  x <> STAR -> Glob (x :: p) t -> exists c t', t = c :: t' /\ (x = QUESTION \/ x = c) /\ Glob p t'.
Proof. intros Hx. inversion 1; simplify_eq; eauto 10. Qed.

Lemma glob_star_app p s t : Glob (STAR :: p) t -> Glob (STAR :: p) (s ++ t).
Proof.
  intros (s' & t' & -> & H)%glob_star_inv. rewrite (assoc_L (++)). by constructor.
Qed.

Lemma only_stars_Glob p : only_stars p = true <-> Glob p [].
Proof.
  induction p as [|x p IH]; cbn [only_stars]; [split; [constructor|done]|].
  rewrite andb_true_iff, Z.eqb_eq, IH. split.
  - intros [-> H]. by apply (glob_star p [] []).
  - intros H. destruct (decide (x = STAR)) as [->|Hx].
    + apply glob_star_inv in H as (s & t & E & H). symmetry in E. apply app_nil in E as [-> ->]. done.
    + apply glob_cons_inv in H as (c & t & ? & _); done.
Qed.

(** A star-free piece of a pattern consumes exactly its length. *)
Lemma glob_app_starfree q p t :
  STAR ∉ q -> Glob (q ++ p) t -> exists u v, t = u ++ v /\ length u = length q /\ Glob p v.
Proof.
  revert t. induction q as [|x q IH]; intros t Hq H; [by exists [], t|].
  apply not_elem_of_cons in Hq as [Hx Hq]. simpl in H.
  apply glob_cons_inv in H as (c & t' & -> & _ & H); [|done].
  destruct (IH _ Hq H) as (u & v & -> & Hl & Hv). exists (c :: u), v. simpl. auto.
Qed.

Lemma only_stars_nil_star q p : only_stars (q ++ p) = true -> only_stars p = true.
Proof. induction q; simpl; [done|]. by intros [_ ?]%andb_true_iff; auto. Qed.

(** ** The loop decides the reference *)

(** What is left to find: a match here, or one from the last star further on. *)
Definition alternatives (p t : bytes) (back : option (bytes * bytes)) : Prop :=
  Glob p t \/ exists bp bt s v, back = Some (bp, bt) /\ bt = s ++ v /\ s <> [] /\ Glob bp v.

(** Since the last star, a star-free piece of the pattern consumed as much text. *)
Definition loop_inv (p t : bytes) (back : option (bytes * bytes)) : Prop :=
  match back with
  | None => True
  | Some (bp, bt) => exists q u, bp = q ++ p /\ bt = u ++ t /\ length u = length q /\ STAR ∉ q
  end.

(** A later star makes the earlier one unnecessary. *)
Lemma alternatives_star p t back :
  loop_inv (STAR :: p) t back -> alternatives (STAR :: p) t back -> Glob (STAR :: p) t.
Proof.
  intros Hi [H|(bp & bt & s & v & -> & Ebt & Hs & H)]; [done|].
  destruct Hi as (q & u & -> & -> & Hl & Hq).
  destruct (glob_app_starfree _ _ _ Hq H) as (u' & v' & -> & Hl' & Hv).
  rewrite (assoc_L (++)) in Ebt.
  assert (t = drop (length u) (s ++ u') ++ v') as ->.
  { rewrite <- (drop_app_length u t), Ebt. rewrite drop_app_le; [done|].
    rewrite length_app. lia. }
  by apply glob_star_app.
Qed.

Lemma alternatives_step bp b bt :
  alternatives bp bt (Some (bp, bt)) <->
  exists s v, b :: bt = s ++ v /\ s <> [] /\ Glob bp v.
Proof.
  split.
  - intros [H|(? & ? & s & v & [= <- <-] & -> & Hs & H)].
    + by exists [b], bt.
    + by exists (b :: s), v.
  - intros ([|x s] & v & E & Hs & H); [done|]. injection E as <- ->.
    destruct s as [|y s]; [by left|]. right. by exists bp, (y :: s ++ v), (y :: s), v.
Qed.

(** How far the loop can still go, and the bounds under which it says so. *)
Definition bt_len (T : nat) (back : option (bytes * bytes)) : nat :=
  match back with None => T | Some (_, bt) => length bt end.
Definition budget (P T : nat) (p t : bytes) (back : option (bytes * bytes)) : nat :=
  (bt_len T back * S (P + T) + length p + length t)%nat.
Definition bounded (P T : nat) (p t : bytes) (back : option (bytes * bytes)) : Prop :=
  (length p <= P)%nat /\ (length t <= bt_len T back <= T)%nat
  /\ match back with None => True | Some (bp, _) => (length bp <= P)%nat end.
Definition starfree (t : bytes) (back : option (bytes * bytes)) : Prop :=
  (STAR ∉ t) /\ match back with None => True | Some (_, bt) => STAR ∉ bt end.

Lemma glob_loop_spec P T f p t back :
  (budget P T p t back < f)%nat -> bounded P T p t back ->
  exists b, glob_loop f p t back = Some b
    /\ (starfree t back -> loop_inv p t back -> (b = true <-> alternatives p t back)).
Proof.
  revert p t back. induction f as [|f IH]; intros p t back Hf Hb; [lia|].
  cbn [glob_loop]. destruct t as [|c t].
  - exists (only_stars p). split; [done|]. intros _ Hi. rewrite only_stars_Glob.
    split; [by left|]. intros [H|(bp & bt & s & v & -> & Ebt & Hs & H)]; [done|].
    destruct Hi as (q & u & -> & -> & Hl & Hq). rewrite app_nil_r in Ebt. subst u.
    apply glob_app_starfree in H as (u' & v' & -> & Hl' & H); [|done].
    rewrite !length_app in Hl. destruct s; simpl in *; [done|lia].
  - assert (forall p', (length p' <= P)%nat ->
      (forall d t', p' = d :: t' -> d <> QUESTION /\ d <> c /\ d <> STAR) ->
      p = p' -> exists b, match back with
        | Some (bp, _ :: bt) => glob_loop f bp bt (Some (bp, bt))
        | _ => Some false end = Some b
      /\ (starfree (c :: t) back -> loop_inv p (c :: t) back -> (b = true <-> alternatives p (c :: t) back)))
      as Hback.
    { intros p' _ Hp' ->.
      assert (~ Glob p' (c :: t)) as Hno.
      { intros H. destruct p' as [|x p']; [by apply glob_nil_inv in H|].
        destruct (Hp' x p' eq_refl) as (? & ? & ?).
        apply glob_cons_inv in H as (? & ? & [= <- <-] & [] & _); done. }
      destruct back as [[bp [|b bt]]|].
      - exists false. split; [done|]. intros _ _. split; [done|].
        intros [?|(? & ? & s & v & [= <- <-] & E & Hs & _)]; [done|].
        symmetry in E. by apply app_nil in E as [-> _].
      - unfold budget, bounded in *. cbn [bt_len length] in *.
        destruct (IH bp bt (Some (bp, bt))) as (r & -> & Hr).
        { cbn [bt_len]. nia. }
        { cbn [bt_len]. lia. }
        exists r. split; [done|]. intros [Hs1 Hs2] Hi. apply not_elem_of_cons in Hs2 as [? Hs2].
        rewrite Hr; [|by split|exists [], []; split_and!; [done..|set_solver]].
        rewrite (alternatives_step bp b). split.
        + intros (s & v & E & Hs & Hv). right. by exists bp, (b :: bt), s, v.
        + intros [?|(? & ? & s & v & [= <- <-] & E & Hs & Hv)]; [done|]. by exists s, v.
      - exists false. split; [done|]. intros _ _. split; [done|].
        intros [?|(? & ? & s & v & [=] & _)]. done. }
    destruct p as [|x p]; [apply (Hback []); [simpl; lia|done|done]|].
    destruct ((x =? QUESTION) || (x =? c)) eqn:Ex; [|destruct (Z.eqb_spec x STAR) as [->|Hxs]].
    + unfold budget, bounded in *. cbn [length] in *.
      destruct (IH p t back) as (b & Eb & Hbt); [lia|split_and!; [lia..|apply Hb]|].
      exists b. split; [done|]. intros [Hs1 Hs2] Hi. apply not_elem_of_cons in Hs1 as [Hc Hs1].
      assert (x <> STAR) as Hx.
      { apply orb_true_iff in Ex as [->%Z.eqb_eq| ->%Z.eqb_eq]; [done|by apply not_eq_sym]. }
      rewrite Hbt; [|by split|].
      2:{ destruct back as [[bp bt]|]; [|done]. destruct Hi as (q & u & -> & -> & Hl & Hq).
          exists (q ++ [x]), (u ++ [c]). rewrite <- !(assoc_L (++)), !length_app. simpl.
          split; [done|]. split; [done|]. split; [lia|].
          intros [?|?%list_elem_of_singleton]%elem_of_app; [done|by apply not_eq_sym in Hx]. }
      unfold alternatives. split; (intros [H|H]; [left|by right]).
      * apply orb_true_iff in Ex as [->%Z.eqb_eq| ->%Z.eqb_eq]; [by constructor|].
        constructor; [|done]. by apply not_eq_sym.
      * apply glob_cons_inv in H as (? & ? & [= <- <-] & _ & H); done.
    + unfold budget, bounded in *. cbn [length] in *.
      destruct (IH p (c :: t) (Some (p, c :: t))) as (b & Eb & Hbt).
      { cbn [bt_len length]. destruct back as [[bp bt]|]; cbn [bt_len] in *; nia. }
      { cbn [bt_len length]. destruct back as [[bp bt]|]; cbn [bt_len] in *; lia. }
      exists b. split; [done|]. intros [Hs1 Hs2] Hi.
      rewrite Hbt; [|by split|exists [], []; split_and!; [done..|set_solver]].
      split.
      * intros [H|(bp & bt & s & v & [= <- <-] & E & Hs & H)]; left.
        -- by apply (glob_star p []).
        -- rewrite E. by constructor.
      * intros H%alternatives_star; [|done]. apply glob_star_inv in H as (s & v & E & H).
        destruct s as [|y s]; [left; by rewrite E|].
        right. by exists p, (c :: t), (y :: s), v.
    + apply orb_false_iff in Ex as [?%Z.eqb_neq ?%Z.eqb_neq].
      apply (Hback (x :: p)); [by destruct Hb|by intros ? ? [= <- <-]|done].
Qed.

(** Whatever the text, a match reported is a match. *)
Lemma glob_loop_sound f p t back :
  glob_loop f p t back = Some true -> alternatives p t back.
Proof.
  revert p t back. induction f as [|f IH]; intros p t back; [done|]. cbn [glob_loop].
  destruct t as [|c t]; [intros [= H]; left; by apply only_stars_Glob|].
  assert (match back with
    | Some (bp, _ :: bt) => glob_loop f bp bt (Some (bp, bt))
    | _ => Some false end = Some true -> alternatives p (c :: t) back) as Hback.
  { destruct back as [[bp [|b bt]]|]; [done| |done]. intros H%IH. right.
    apply (alternatives_step bp b) in H as (s & v & E & Hs & H). by exists bp, (b :: bt), s, v. }
  destruct p as [|x p]; [done|].
  destruct ((x =? QUESTION) || (x =? c)) eqn:Ex; [|destruct (Z.eqb_spec x STAR) as [->|]; [|done]].
  - intros [H|H]%IH; [left|by right].
    apply orb_true_iff in Ex as [->%Z.eqb_eq| ->%Z.eqb_eq]; [by constructor|].
    destruct (decide (c = STAR)) as [->|]; [by apply (glob_star p [STAR])|by constructor].
  - intros [H|(bp & bt & s & v & [= <- <-] & E & Hs & H)]%IH; left.
    + by apply (glob_star p []).
    + rewrite E. by constructor.
Qed.

Lemma glob_match_loop p t :
  glob_loop (glob_fuel p t) p t None = Some (glob_match p t)
  /\ ((STAR ∉ t) -> (glob_match p t = true <-> Glob p t)).
Proof.
  unfold glob_match.
  destruct (glob_loop_spec (length p) (length t) (glob_fuel p t) p t None) as (b & -> & Hb).
  - unfold budget, glob_fuel. cbn [bt_len]. nia.
  - unfold bounded. cbn [bt_len]. split_and!; [lia..|done].
  - split; [done|]. intros Hs. cbn [default]. rewrite Hb by done.
    split; [intros [H|(? & ? & ? & ? & [=] & _)]; done|by left].
Qed.

(** The wildcard matcher always finishes within its fuel; what it accepts matches the
    pattern; and on a text without a literal [*] it accepts everything that does. *)
Theorem glob_match_correct p t :
  glob_loop (glob_fuel p t) p t None = Some (glob_match p t)
  /\ (glob_match p t = true -> Glob p t)
  /\ ((STAR ∉ t) -> (glob_match p t = true <-> Glob p t)).
Proof.
  destruct (glob_match_loop p t) as [Hl Hc]. split; [done|]. split; [|done].
  intros Hm. rewrite Hm in Hl. by apply glob_loop_sound in Hl as [H|(? & ? & ? & ? & [=] & _)].
Qed.

(** A literal [*] in the text defeats the wildcard: [*] is compared with the text before
    it is read as a wildcard, so the pattern that should match everything rejects every text
    of two bytes or more that starts with a star. *)
Theorem glob_match_literal_star c t :
  Glob [STAR] (STAR :: c :: t) /\ glob_match [STAR] (STAR :: c :: t) = false.
Proof.
  split.
  - rewrite <- (app_nil_r (STAR :: c :: t)). apply (glob_star [] _ []). constructor.
  - unfold glob_match, glob_fuel. cbn [length Nat.add Nat.mul glob_loop]. reflexivity.
Qed.

Lemma glob_match_correct_witness :
  glob_match (lit "/a/*/c?") (lit "/a/b/x/cd") = true /\ Glob (lit "/a/*/c?") (lit "/a/b/x/cd").
Proof.
  split; [by vm_compute|].
  destruct (glob_match_correct (lit "/a/*/c?") (lit "/a/b/x/cd")) as (_ & H & _).
  apply H. by vm_compute.
Defined.
