(* ===== verification/RCache.v ===== *)
(** The HTTP response cache ([rcache.rs]): whole responses in a fixed table probed over sixteen
    slots, three deadlines per entry, tag generations in a second table, URL invalidation, and
    the dump that survives a restart.

    Each operation is modelled as it runs with no other writer; the in-flight table is in
    [Coalesce].  A key is known to a slot by its 64-bit hash alone, as in the source. *)

From S2P Require Import Prelude Bytes Ns Probe Glob.

Definition HDR_MAX : nat := (8 * 1024)%nat.
Definition BODY_MAX : nat := (128 * 1024)%nat.
Definition MAX_TAGS : nat := 8.
Definition PROBE : nat := 16.
Definition TAG_SLOTS : nat := 4096.
Definition KEY_MAX : nat := 512.

(** [struct Entry].  [tags] is the first [ntags] of [tag_hash] and [tag_gen]; the buffers are
    what their lengths say of them. *)
Record entry := mkEntry {
  lock : Z;
  state : Z;           (* 0 empty, 1 occupied, 2 tombstone *)
  key_hash : Z;
  expires_at : Z;      (* fresh deadline, 0 = never *)
  stale_until : Z;
  error_until : Z;     (* 0 = off *)
  status : Z;
  app : bytes;         (* sixteen bytes, zeros for none *)
  key_bytes : bytes;
  tags : list (Z * Z);
  hdr : bytes;
  body : bytes }.
Definition empty_entry : entry := mkEntry 0 0 0 0 0 0 0 (replicate 16 0) [] [] [] [].
#[export] Instance entry_inhabited : Inhabited entry := populate empty_entry.

Definition set_state (e : entry) (s : Z) : entry :=
  mkEntry (lock e) s (key_hash e) (expires_at e) (stale_until e) (error_until e) (status e)
    (app e) (key_bytes e) (tags e) (hdr e) (body e).

(** [struct TagGen]; hash 0 is an empty slot. *)
Record TagGen := mkTag { thash : Z; tgen : Z }.
#[export] Instance TagGen_inhabited : Inhabited TagGen := populate (mkTag 0 0).

Abbreviation table := (list entry).
Abbreviation tag_table := (list TagGen).

Definition win (t : table) (h : Z) : list nat := window PROBE h (Z.of_nat (length t)).
(** [(start + i) % TAG_SLOTS]. *)
Definition tag_win (h : Z) : list nat :=
  (fun i => Z.to_nat ((h mod Z.of_nat TAG_SLOTS + i) mod Z.of_nat TAG_SLOTS))
  <$> seqZ 0 (Z.of_nat PROBE).

(** ** Tag generations *)

Fixpoint tag_gen_loop (tt : tag_table) (h : Z) (w : list nat) : Z :=
  match w with
  | [] => 0
  | i :: w' =>
      if thash (tt !!! i) =? h then tgen (tt !!! i)
      else if thash (tt !!! i) =? 0 then 0
      else tag_gen_loop tt h w'
  end.
Definition tag_gen (tt : tag_table) (h : Z) : Z := tag_gen_loop tt h (tag_win h).

(** [forget_tag] on a tag's hash: [None] when the window is full of other tags. *)
Fixpoint forget_loop (tt : tag_table) (h : Z) (w : list nat) : option tag_table :=
  match w with
  | [] => None
  | i :: w' =>
      if thash (tt !!! i) =? h then Some (<[i := mkTag h (wrap64 (tgen (tt !!! i) + 1))]> tt)
      else if thash (tt !!! i) =? 0 then Some (<[i := mkTag h 1]> tt)
      else forget_loop tt h w'
  end.
Definition forget_hash (tt : tag_table) (h : Z) : tag_table :=
  match forget_loop tt h (tag_win h) with
  | Some tt' => tt'
  | None =>
      let i := Z.to_nat (h mod Z.of_nat TAG_SLOTS) in
      <[i := mkTag h (wrap64 (tgen (tt !!! i) + 1))]> tt
  end.

(** ** Headers *)

Definition CRLF : bytes := [13; 10].
Definition header := (bytes * bytes)%type.

Definition hdr_blob (headers : list header) : bytes :=
  concat ((fun '(k, v) => k ++ lit ": " ++ v ++ CRLF) <$> headers).

(** [split("\r\n")]. *)
Fixpoint split_crlf (b : bytes) : list bytes :=
  match b with
  | [] => [[]]
  | 13 :: (10 :: b') => [] :: split_crlf b'
  | x :: b' =>
      match split_crlf b' with
      | p :: ps => (x :: p) :: ps
      | [] => [[x]]
      end
  end.

(** The blob was built from [String]s, so it is UTF-8 and [from_utf8_lossy] is the identity. *)
Definition parse_hdr_blob (raw : bytes) : list header :=
  omap (fun l => (fun '(k, v) => (trim k, trim v)) <$> split_once 58 l)
       (filter (fun l => l <> []) (split_crlf raw)).

(** ** Looking up *)

(** [struct Cached]. *)
Record Cached := mkCached {
  c_status : Z;
  c_headers : list header;
  c_body : bytes;
  c_stale : bool;
  c_error_only : bool }.

Definition retain (e : entry) : Z := Z.max (stale_until e) (error_until e).
Definition past_retain (e : entry) (now : Z) : bool :=
  negb (retain e =? 0) && (retain e <? now).
Definition tag_invalid (tt : tag_table) (e : entry) : bool :=
  existsb (fun '(th, tg) => negb (tag_gen tt th =? tg)) (tags e).

(** What a slot that is still good answers. *)
Definition serve (e : entry) (now : Z) : Cached :=
  let swr_stale := negb (expires_at e =? 0) && (expires_at e <? now) in
  let error_only := swr_stale && ((stale_until e =? 0) || (stale_until e <? now)) in
  mkCached (status e) (parse_hdr_blob (take HDR_MAX (hdr e))) (take BODY_MAX (body e))
    (swr_stale && negb error_only) error_only.

Fixpoint peek_loop (tt : tag_table) (t : table) (h now : Z) (w : list nat)
    : option Cached * table :=
  match w with
  | [] => (None, t)
  | i :: w' =>
      let e := t !!! i in
      if state e =? 0 then (None, t)
      else if negb (state e =? 1) then peek_loop tt t h now w'
      else if negb (key_hash e =? h) then peek_loop tt t h now w'
      else if past_retain e now then (None, <[i := set_state e 2]> t)
      else if tag_invalid tt e then (None, <[i := set_state e 2]> t)
      else (Some (serve e now), t)
  end.

(** ** Storing *)

Definition write_entry (e : entry) (h status : Z) (blob body : bytes)
    (expires stale_until error_until : Z) (tags : list (Z * Z)) (key : bytes)
    (a : option App) : entry :=
  mkEntry (lock e) 1 h expires stale_until error_until status
    (match a with Some a => as_str a | None => replicate 16 0 end)
    (take KEY_MAX key) tags blob body.

(** The probe of [store]: [inl] the slot to write, or the tombstone and the live slot seen. *)
Fixpoint store_probe (t : table) (h : Z) (w : list nat) (reuse target : option nat)
    : nat + (option nat * option nat) :=
  match w with
  | [] => inr (reuse, target)
  | i :: w' =>
      let e := t !!! i in
      if (state e =? 0) || (key_hash e =? h) then inl i
      else if state e =? 2
           then store_probe t h w' (match reuse with None => Some i | r => r end) target
           else store_probe t h w' reuse (match target with None => Some i | r => r end)
  end.

Definition store_slot (t : table) (h : Z) : nat :=
  match store_probe t h (win t h) None None with
  | inl i => i
  | inr (Some i, _) => i
  | inr (None, Some i) => i
  | inr (None, None) => Z.to_nat (h mod Z.of_nat (length t))
  end.

(** The deadlines of a response stored at [now]. *)
Definition deadlines (now ttl swr sie : Z) : Z * Z * Z :=
  let expires := if 0 <? ttl then wrap64 (now + ttl) else 0 in
  let stale := if (0 <? ttl) && (0 <? swr) then wrap64 (expires + swr) else expires in
  let error := if (0 <? ttl) && (0 <? sie) then wrap64 (expires + sie) else 0 in
  (expires, stale, error).

(** ** The mapped region and the public operations *)

Record rcache := mkRC {
  entries : table;
  tag_slots : tag_table;
  hits : Z; misses : Z; coalesced : Z;
  tag_overflow : Z }.          (* metrics: responses refused for their tags *)

(** [init]: [None] before it and when a mapping failed. *)
Definition init (r : option rcache) (slots : Z) (mmap_ok : bool) : option rcache :=
  match r with
  | Some r => Some r
  | None =>
      if mmap_ok then
        Some (mkRC (replicate (Z.to_nat (Z.max slots 16)) empty_entry)
                   (replicate TAG_SLOTS (mkTag 0 0)) 0 0 0 0)
      else None
  end.
Definition enabled (r : option rcache) : bool := bool_decide (is_Some r).
Definition stats (r : option rcache) : Z * Z * Z :=
  match r with Some r => (hits r, misses r, coalesced r) | None => (0, 0, 0) end.

Definition set_entries (r : rcache) (t : table) : rcache :=
  mkRC t (tag_slots r) (hits r) (misses r) (coalesced r) (tag_overflow r).
Definition set_tags (r : rcache) (tt : tag_table) : rcache :=
  mkRC (entries r) tt (hits r) (misses r) (coalesced r) (tag_overflow r).
Definition count_lookup (r : rcache) (hit : bool) : rcache :=
  mkRC (entries r) (tag_slots r) (if hit then wrap64 (hits r + 1) else hits r)
    (if hit then misses r else wrap64 (misses r + 1)) (coalesced r) (tag_overflow r).
Definition count_overflow (r : rcache) : rcache :=
  mkRC (entries r) (tag_slots r) (hits r) (misses r) (coalesced r) (wrap64 (tag_overflow r + 1)).
Definition note_coalesced (r : option rcache) : option rcache :=
  (fun r => mkRC (entries r) (tag_slots r) (hits r) (misses r) (wrap64 (coalesced r + 1))
              (tag_overflow r)) <$> r.

(** An operation on a cache that may not be mapped: [x] is its answer then. *)
Definition with_rc {A} (x : A) (r : option rcache) (f : rcache -> A * rcache) : A * option rcache :=
  match r with None => (x, None) | Some r => let '(a, r') := f r in (a, Some r') end.

Section Api.
(** The standard library's hasher. *)
Context (hash_key : bytes -> Z).
Implicit Types (key : bytes).

(** 0 is reserved for "empty". *)
Definition hash_bytes (b : bytes) : Z := if hash_key b =? 0 then 1 else hash_key b.

Definition forget_tag (r : option rcache) (tag : bytes) : option rcache :=
  (fun r => set_tags r (forget_hash (tag_slots r) (hash_bytes tag))) <$> r.

Definition peek (r : option rcache) key (now : Z) : option Cached * option rcache :=
  with_rc None r (fun r =>
    let h := hash_bytes key in
    let '(o, t) := peek_loop (tag_slots r) (entries r) h now (win (entries r) h) in
    (o, set_entries r t)).

Definition get (r : option rcache) key (now : Z) : option Cached * option rcache :=
  let '(o, r') := peek r key now in
  let hit := match o with Some c => if c_error_only c then None else Some c | None => None end in
  (hit, (fun r => count_lookup r (bool_decide (is_Some hit))) <$> r').

Definition stale_on_error (r : option rcache) key (now : Z) : option Cached * option rcache := peek r key now.

(** Each tag with its generation at the time of the store. *)
Definition snapshot (tt : tag_table) (tags : list bytes) : list (Z * Z) :=
  (fun tag => (hash_bytes tag, tag_gen tt (hash_bytes tag))) <$> take MAX_TAGS tags.

Definition store (r : option rcache) key (status : Z) (headers : list header) (body : bytes)
    (ttl swr sie : Z) (tags : list bytes) (a : option App) (now : Z) : bool * option rcache :=
  with_rc false r (fun r =>
    let blob := hdr_blob headers in
    if (HDR_MAX <? length blob)%nat || (BODY_MAX <? length body)%nat then (false, r)
    else if (MAX_TAGS <? length tags)%nat then (false, count_overflow r)
    else
      let h := hash_bytes key in
      let '(expires, stale_until, error_until) := deadlines now ttl swr sie in
      let i := store_slot (entries r) h in
      (true, set_entries r
         (<[i := write_entry (entries r !!! i) h status blob body expires stale_until error_until
                   (snapshot (tag_slots r) tags) key a]> (entries r)))).
End Api.

(** ** Invalidation by URL *)

Definition key_parts (key : bytes) : option (bytes * bytes * bytes) :=
  match split_on 0 key with
  | method :: host :: pq :: _ => Some (method, host, pq)
  | _ => None
  end.

Definition purge_method (m : bytes) : bool := beq m (lit "GET") || beq m (lit "HEAD").

Definition purge_wants (host path : bytes) (query : option bytes) (key : bytes) : bool :=
  match key_parts key with
  | None => false
  | Some (method, khost, pq) =>
      if negb (purge_method method) then false
      else if negb (eq_ignore_ascii_case khost host) then false
      else match query with
           | Some q => beq pq (path ++ [QUESTION] ++ q)
           | None =>
               beq pq path
               || (length path <? length pq)%nat && starts_with pq path
                  && (pq !!! length path =? QUESTION)
           end
  end.

Definition path_of (pq : bytes) : bytes :=
  match position QUESTION pq with Some i => take i pq | None => pq end.

Definition ban_wants (host pattern : bytes) (key : bytes) : bool :=
  match key_parts key with
  | None => false
  | Some (method, khost, pq) =>
      if negb (purge_method method) then false
      else if negb (eq_ignore_ascii_case khost host) then false
      else from_utf8_ok (path_of pq) && glob_match pattern (path_of pq)
  end.

Definition wanted (want : bytes -> bool) (e : entry) : bool :=
  (state e =? 1) && want (take KEY_MAX (key_bytes e)).

Definition scan_invalidate (r : option rcache) (want : bytes -> bool) : nat * option rcache :=
  with_rc 0%nat r (fun r =>
    (length (filter (fun e => wanted want e = true) (entries r)),
     set_entries r ((fun e => if wanted want e then set_state e 2 else e) <$> entries r))).

Definition purge_url (r : option rcache) (host path : bytes) (query : option bytes) :=
  scan_invalidate r (purge_wants host path query).
Definition ban_glob (r : option rcache) (host pattern : bytes) :=
  scan_invalidate r (ban_wants host pattern).

Definition flush_app (r : option rcache) (a : App) : option rcache :=
  (fun r => set_entries r
     ((fun e => if beq (app e) (as_str a) then set_state e 0 else e) <$> entries r)) <$> r.

(** ** Dump and restore *)

Record DumpHeader := mkHeader {
  magic : bytes; dversion : Z; entry_size : Z; dslots : Z; dtag_slots : Z;
  app_stamp : Z; saved_at : Z }.
Definition DUMP_MAGIC : bytes := lit "ASKRRC01".
Definition DUMP_VERSION : Z := 2.
(** [size_of::<Entry>()] under [repr(C)]: 584 up to the tags with padding, 128 of tags, two
    lengths and the two buffers. *)
Definition ENTRY_SIZE : Z := 584 + 128 + 8 + Z.of_nat HDR_MAX + Z.of_nat BODY_MAX.

(** A dump file: the header, and the two tables as written; [None] for a part that is cut
    short. *)
Record dumpfile := mkDump { d_header : option DumpHeader; d_image : option (table * tag_table) }.

Definition retained (e : entry) (now : Z) : bool := (state e =? 1) && negb (past_retain e now).
Definition live_count (t : table) (now : Z) : nat :=
  length (filter (fun e => retained e now = true) t).

(** [dump] when the file system does what it is asked. *)
Definition dump (r : option rcache) (stamp now : Z) : nat * option dumpfile :=
  match r with
  | None => (0%nat, None)
  | Some r =>
      (live_count (entries r) now,
       Some (mkDump (Some (mkHeader DUMP_MAGIC DUMP_VERSION ENTRY_SIZE
                             (Z.of_nat (length (entries r))) (Z.of_nat TAG_SLOTS) stamp now))
                    (Some (entries r, tag_slots r))))
  end.

Definition restore_entry (now : Z) (e : entry) : entry :=
  let e := mkEntry 0 (state e) (key_hash e) (expires_at e) (stale_until e) (error_until e)
             (status e) (app e) (key_bytes e) (tags e) (hdr e) (body e) in
  if negb (state e =? 1) then e else if past_retain e now then set_state e 0 else e.

Definition restore (r : option rcache) (file : option dumpfile) (stamp now : Z)
    : nat * option rcache :=
  with_rc 0%nat r (fun r =>
    match file with
    | None => (0%nat, r)
    | Some f =>
        match d_header f with
        | None => (0%nat, r)
        | Some hd =>
            if negb (beq (magic hd) DUMP_MAGIC) || negb (dversion hd =? DUMP_VERSION)
               || negb (entry_size hd =? ENTRY_SIZE)
               || negb (dslots hd =? Z.of_nat (length (entries r)))
               || negb (dtag_slots hd =? Z.of_nat TAG_SLOTS) then (0%nat, r)
            else if negb (app_stamp hd =? stamp) then (0%nat, r)
            else match d_image f with
                 | None => (0%nat, r)
                 | Some (t, gens) =>
                     (live_count t now, set_tags (set_entries r (restore_entry now <$> t)) gens)
                 end
        end
    end).
