(* ===== verification/RCacheLemmas.v ===== *)
(** Invariants of the response cache's two tables, and what each loop of [RCache] computes. *)

From S2P Require Import Prelude Bytes Ns Probe Glob RCache.

(** ** The entry table *)

Implicit Types (t : table) (e : entry) (h : Z) (i j k : nat).

Definition holds (h : Z) (e : entry) : bool := (state e =? 1) && (key_hash e =? h).

(** The slot a lookup of hash [h] ends at. *)
Definition lookup (t : table) (h : Z) : option nat := probe_find state (holds h) t (win t h).

Lemma rholds_true h e : holds h e = true <-> state e = 1 /\ key_hash e = h.
Proof. unfold holds. by rewrite andb_true_iff, !Z.eqb_eq. Qed.

(** Every slot that is not empty, tombstones included, can be reached from its own hash, and no
    hash is in two of them. *)
Record rwf (t : table) : Prop := {
  rwf_size : (0 < length t)%nat;
  rwf_state : forall i e, t !! i = Some e -> 0 <= state e <= 2;
  rwf_reach : forall i e, t !! i = Some e -> state e <> 0 ->
    reachable state t (win t (key_hash e)) i;
  rwf_unique : forall i j e e', t !! i = Some e -> t !! j = Some e' ->
    state e <> 0 -> state e' <> 0 -> key_hash e = key_hash e' -> i = j }.

Lemma rwf_init n : (0 < n)%nat -> rwf (replicate n empty_entry).
Proof.
  intros Hn. split.
  - by rewrite length_replicate.
  - by intros i e [-> _]%lookup_replicate.
  - by intros i e [-> _]%lookup_replicate.
  - by intros i j e e' [-> _]%lookup_replicate.
Qed.

Lemma rwin_insert t i e h : win (<[i := e]> t) h = win t h.
Proof. unfold win. by rewrite length_insert. Qed.

Lemma rwin_elem t h i : (0 < length t)%nat -> i ∈ win t h -> (i < length t)%nat.
Proof. intros Hl Hi. apply window_bound in Hi; lia. Qed.

Lemma lookup_inv t i : state (t !!! i) <> 0 -> t !! i = Some (t !!! i).
Proof.
  intros Hs. destruct (decide (i < length t)%nat); [by apply lookup_total_lookup|].
  by rewrite list_lookup_total_alt, lookup_ge_None_2 in Hs by lia.
Qed.

(** A slot index is the lookup's answer exactly when that slot is live and holds the hash. *)
Lemma lookup_iff t h i : rwf t -> lookup t h = Some i <-> holds h (t !!! i) = true.
Proof.
  intros Hw. unfold lookup. rewrite probe_find_iff.
  - split; [by intros [_ ?]|]. intros H. split; [|done]. apply rholds_true in H. lia.
  - intros j Hs [Hj <-]%rholds_true. apply (rwf_reach t Hw); [by apply lookup_inv|done].
  - intros j k Hsj [Hj Ej]%rholds_true Hsk [Hk Ek]%rholds_true.
    eapply (rwf_unique t Hw); [by apply lookup_inv..|done|done|congruence].
Qed.

Lemma peek_loop_spec tags t h now w :
  peek_loop tags t h now w
  = match probe_find state (holds h) t w with
    | None => (None, t)
    | Some i =>
        if past_retain (t !!! i) now || tag_invalid tags (t !!! i)
        then (None, <[i := set_state (t !!! i) 2]> t)
        else (Some (serve (t !!! i) now), t)
    end.
Proof.
  induction w as [|i w IH]; [done|]. cbn [peek_loop probe_find]. unfold holds at 1.
  destruct (state (t !!! i) =? 0); [done|].
  destruct (state (t !!! i) =? 1); cbn [negb andb]; [|done].
  destruct (key_hash (t !!! i) =? h); cbn [negb]; [|done].
  destruct (past_retain _ _); [done|]. by destruct (tag_invalid _ _).
Qed.

(** Replacing a slot keeps the invariant when the new entry sits where the old one did, or is
    reachable and its hash is nowhere else. *)
Lemma rwf_insert t i e :
  rwf t -> (i < length t)%nat -> 1 <= state e <= 2 ->
  reachable state t (win t (key_hash e)) i ->
  (forall j, j <> i -> state (t !!! j) <> 0 -> key_hash (t !!! j) <> key_hash e) ->
  rwf (<[i := e]> t).
Proof.
  intros Hw Hi He Hr Hu.
  assert (forall w j, reachable state t w j -> reachable state (<[i:=e]> t) w j) as Hmono.
  { intros w j. apply reachable_mono. intros k Hk. rewrite lookup_total_insert_dec by done.
    case_decide; [lia|done]. }
  split.
  - rewrite length_insert. lia.
  - intros j ej Ej. apply list_lookup_insert_Some in Ej as [(<- & <- & _)|[_ Ej]]; [lia|].
    by eapply (rwf_state t Hw).
  - intros j ej Ej Hj. rewrite rwin_insert. apply Hmono.
    apply list_lookup_insert_Some in Ej as [(<- & <- & _)|[Hne Ej]]; [done|].
    by apply (rwf_reach t Hw).
  - assert (forall j ej, t !! j = Some ej -> j <> i -> state ej <> 0 -> key_hash ej <> key_hash e) as Hu'.
    { intros j ej Ej Hne Hs. apply lookup_lookup_total in Ej. subst ej. by apply Hu. }
    intros j k ej ek Ej Ek Hj Hk Hh.
    apply list_lookup_insert_Some in Ej as [(<- & <- & _)|[Hj' Ej]];
      apply list_lookup_insert_Some in Ek as [(<- & <- & _)|[Hk' Ek]]; [done| | |].
    + exfalso. by eapply (Hu' k ek).
    + exfalso. by eapply (Hu' j ej).
    + by eapply (rwf_unique t Hw).
Qed.

(** Changing states to a tombstone only. *)
Lemma rwf_states t t' :
  rwf t -> length t' = length t ->
  (forall i, key_hash (t' !!! i) = key_hash (t !!! i)
     /\ (state (t' !!! i) = state (t !!! i) \/ state (t !!! i) <> 0 /\ state (t' !!! i) = 2)) ->
  rwf t'.
Proof.
  intros Hw Hl Ht.
  assert (forall i, state (t' !!! i) = 0 <-> state (t !!! i) = 0) as Hz.
  { intros i. destruct (Ht i) as [_ [->|[? ->]]]; [done|]. split; lia. }
  assert (forall i, key_hash (t' !!! i) = key_hash (t !!! i)) as Hk by (intros i; apply Ht).
  split.
  - pose proof (rwf_size t Hw). lia.
  - intros i e Ei. pose proof (lookup_lt_Some _ _ _ Ei) as Hlt. rewrite Hl in Hlt.
    apply lookup_lookup_total in Ei. subst e.
    pose proof (rwf_state t Hw i _ (lookup_total_lookup t i Hlt)).
    destruct (Ht i) as [_ [->|[_ ->]]]; lia.
  - intros i e Ei Hs. apply lookup_lookup_total in Ei. subst e. rewrite Hk.
    unfold win. rewrite Hl. eapply reachable_mono; [|apply (rwf_reach t Hw)].
    + intros j. by rewrite Hz.
    + apply lookup_inv. by rewrite <- Hz.
    + by rewrite <- Hz.
  - intros i j e e' Ei Ej. apply lookup_lookup_total in Ei, Ej. subst e e'.
    rewrite !Hk, !Hz. intros Hi Hj.
    by apply (rwf_unique t Hw); [apply lookup_inv|apply lookup_inv|..].
Qed.

(** ** The slot [store] writes *)

Lemma store_probe_spec t h w r g :
  match store_probe t h w r g with
  | inl i => exists w1 w2, w = w1 ++ i :: w2
      /\ Forall (fun j => state (t !!! j) <> 0 /\ key_hash (t !!! j) <> h) w1
      /\ (state (t !!! i) = 0 \/ key_hash (t !!! i) = h)
  | inr (r', g') =>
      Forall (fun j => state (t !!! j) <> 0 /\ key_hash (t !!! j) <> h) w
      /\ (forall i, r' = Some i -> r = Some i \/ i ∈ w /\ state (t !!! i) = 2)
      /\ (r' = None -> r = None /\ Forall (fun j => state (t !!! j) <> 2) w)
      /\ (forall i, g' = Some i -> g = Some i \/ i ∈ w /\ state (t !!! i) <> 2)
      /\ (g' = None -> g = None /\ Forall (fun j => state (t !!! j) = 2) w)
  end.
Proof.
  revert r g. induction w as [|i w IH]; intros r g; cbn [store_probe].
  { split_and!; [done|by left|done|by left|done]. }
  destruct ((state (t !!! i) =? 0) || _) eqn:E0.
  { exists [], w. split; [done|]. split; [done|].
    apply orb_true_iff in E0 as [?%Z.eqb_eq|?%Z.eqb_eq]; auto. }
  apply orb_false_iff in E0 as [Hs%Z.eqb_neq Hk%Z.eqb_neq].
  destruct (Z.eqb_spec (state (t !!! i)) 2) as [E2|E2].
  - specialize (IH (match r with None => Some i | r => r end) g).
    destruct (store_probe _ _ _ _ _) as [k|[r' g']].
    + destruct IH as (w1 & w2 & -> & Hf & Hi). exists (i :: w1), w2. split; [done|].
      split; [by constructor|done].
    + destruct IH as (Hf & Hr & Hrn & Hg & Hgn). split_and!.
      * by constructor.
      * intros k Ek. destruct (Hr k Ek) as [Er|[? ?]]; [|right; split; [set_solver|done]].
        destruct r; simplify_eq; [by left|right; split; [set_solver|done]].
      * intros Ek. destruct (Hrn Ek) as [Er _]. by destruct r.
      * intros k Ek. destruct (Hg k Ek) as [|[? ?]]; [by left|right; split; [set_solver|done]].
      * intros Ek. destruct (Hgn Ek). split; [done|]. by constructor.
  - specialize (IH r (match g with None => Some i | g => g end)).
    destruct (store_probe _ _ _ _ _) as [k|[r' g']].
    + destruct IH as (w1 & w2 & -> & Hf & Hi). exists (i :: w1), w2. split; [done|].
      split; [by constructor|done].
    + destruct IH as (Hf & Hr & Hrn & Hg & Hgn). split_and!.
      * by constructor.
      * intros k Ek. destruct (Hr k Ek) as [|[? ?]]; [by left|right; split; [set_solver|done]].
      * intros Ek. destruct (Hrn Ek). split; [done|]. by constructor.
      * intros k Ek. destruct (Hg k Ek) as [Er|[? ?]]; [|right; split; [set_solver|done]].
        destruct g; simplify_eq; [by left|right; split; [set_solver|done]].
      * intros Ek. destruct (Hgn Ek) as [Er _]. by destruct g.
Qed.

Lemma store_probe_live t h i w r g :
  Forall (fun j => state (t !!! j) <> 0 /\ key_hash (t !!! j) <> h /\ state (t !!! j) <> 2) (i :: w) ->
  store_probe t h (i :: w) r g = inr (r, match g with None => Some i | g => g end).
Proof.
  intros Hf. assert (forall w, Forall (fun j => state (t !!! j) <> 0 /\ key_hash (t !!! j) <> h
    /\ state (t !!! j) <> 2) w -> forall k, store_probe t h w r (Some k) = inr (r, Some k)) as Hgo.
  { clear Hf. intros u Hf k. induction Hf as [|j u (H0 & Hh & H2) _ IH]; [done|].
    cbn [store_probe]. apply Z.eqb_neq in H0, Hh, H2. by rewrite H0, Hh, H2. }
  apply Forall_cons in Hf as [(H0 & Hh & H2) Hf]. apply Z.eqb_neq in H0, Hh, H2.
  cbn [store_probe]. rewrite H0, Hh, H2. cbn [orb]. by destruct g; apply Hgo.
Qed.

Lemma win_head t h : is_u64 h -> exists w,
  win t h = Z.to_nat (h mod Z.of_nat (length t)) :: w.
Proof. intros Hh. eexists. unfold win, PROBE. by apply window_cons. Qed.

(** The slot written: in the window, with nothing for this hash and no gap before it; and a
    live entry of another hash is overwritten only when the whole window is live entries of
    other hashes, and then the first of them. *)
Lemma store_slot_spec t h :
  is_u64 h ->
  let i := store_slot t h in
  (exists w1 w2, win t h = w1 ++ i :: w2
     /\ Forall (fun j => state (t !!! j) <> 0 /\ key_hash (t !!! j) <> h) w1)
  /\ (state (t !!! i) = 0 \/ key_hash (t !!! i) = h
      \/ Forall (fun j => state (t !!! j) <> 0 /\ key_hash (t !!! j) <> h) (win t h)
         /\ (state (t !!! i) = 2
             \/ Forall (fun j => state (t !!! j) <> 2) (win t h)
                /\ i = Z.to_nat (h mod Z.of_nat (length t)))).
Proof.
  intros Hh i. subst i. unfold store_slot.
  pose proof (store_probe_spec t h (win t h) None None) as Hp.
  destruct (win_head t h Hh) as [w Ew].
  destruct (store_probe t h (win t h) None None) as [i|[r g]] eqn:Es.
  { destruct Hp as (w1 & w2 & E & Hf & Hi). split; [by exists w1, w2|]. tauto. }
  destruct Hp as (Hf & Hr & Hrn & Hg & Hgn).
  assert (forall i, i ∈ win t h -> exists w1 w2, win t h = w1 ++ i :: w2
     /\ Forall (fun j => state (t !!! j) <> 0 /\ key_hash (t !!! j) <> h) w1) as Hsplit.
  { intros i Hi. apply list_elem_of_split in Hi as (w1 & w2 & E). exists w1, w2. split; [done|].
    rewrite E in Hf. by apply Forall_app in Hf as [? _]. }
  destruct r as [i|].
  - destruct (Hr i eq_refl) as [|[Hi H2]]; [done|]. split; [by apply Hsplit|]. tauto.
  - destruct (Hrn eq_refl) as [_ Hn2]. rewrite Ew, store_probe_live in Es.
    2:{ rewrite <- Ew. apply Forall_forall. intros j Hj. rewrite Forall_forall in Hf, Hn2.
        destruct (Hf j Hj). auto. }
    injection Es as <-. split; [apply Hsplit; rewrite Ew; set_solver|]. tauto.
Qed.

Lemma store_slot_elem t h : is_u64 h -> store_slot t h ∈ win t h.
Proof. intros Hh. destruct (store_slot_spec t h Hh) as [(w1 & w2 & -> & _) _]. set_solver. Qed.

Lemma probe_none t h w1 w2 i :
  state (t !!! i) = 0 ->
  Forall (fun j => state (t !!! j) <> 0 /\ key_hash (t !!! j) <> h) w1 ->
  probe_find state (fun e => key_hash e =? h) t (w1 ++ i :: w2) = None.
Proof.
  intros Hi Hf. induction Hf as [|j w1 [Hs Hk] _ IH]; cbn [Datatypes.app probe_find].
  - by rewrite Hi.
  - apply Z.eqb_neq in Hs, Hk. by rewrite Hs, Hk.
Qed.

Lemma store_rwf t h e :
  rwf t -> is_u64 h -> state e = 1 -> key_hash e = h -> rwf (<[store_slot t h := e]> t).
Proof.
  intros Hw Hh Hs <-. pose proof (store_slot_spec t (key_hash e) Hh) as [(w1 & w2 & Ew & Hf) Hi].
  apply rwf_insert; [done| |lia| |].
  - eapply rwin_elem; [by apply (rwf_size t)|by apply store_slot_elem].
  - exists w1, w2. split; [done|]. eapply Forall_impl; [exact Hf|]. by intros j [? _].
  - intros j Hne Hj Hk.
    pose proof (rwf_reach t Hw j _ (lookup_inv t j Hj) Hj) as Hr. rewrite Hk in Hr.
    destruct Hi as [H0|[Hki|[Hall _]]].
    + rewrite Ew in Hr. eapply (probe_find_None state (fun e' => key_hash e' =? key_hash e)) in Hr;
        [|by apply probe_none|done]. by apply Z.eqb_neq in Hr.
    + destruct (decide (state (t !!! store_slot t (key_hash e)) = 0)) as [H0|H0].
      * rewrite Ew in Hr. eapply (probe_find_None state (fun e' => key_hash e' =? key_hash e)) in Hr;
          [|by apply probe_none|done]. by apply Z.eqb_neq in Hr.
      * apply Hne. eapply (rwf_unique t Hw); [by apply lookup_inv..|done|done|congruence].
    + apply reachable_elem in Hr. rewrite Forall_forall in Hall. by apply (Hall j).
Qed.

(** The lookup of the hash just stored, and of any other. *)
Lemma store_lookup t h e :
  (0 < length t)%nat -> is_u64 h -> state e = 1 -> key_hash e = h ->
  lookup (<[store_slot t h := e]> t) h = Some (store_slot t h).
Proof.
  intros Hl Hh Hs Hk. unfold lookup. rewrite rwin_insert.
  destruct (store_slot_spec t h Hh) as [(w1 & w2 & Ew & Hf) _].
  pose proof (rwin_elem t h _ Hl (store_slot_elem t h Hh)).
  rewrite Ew. apply probe_find_insert; [done|lia|by apply rholds_true|].
  eapply Forall_impl; [exact Hf|]. intros j [Hj Hkj]. split; [done|].
  apply andb_false_iff. right. by apply Z.eqb_neq.
Qed.

Lemma store_lookup_ne t h h' e :
  rwf t -> is_u64 h -> state e = 1 -> key_hash e = h -> h' <> h ->
  lookup t h' <> Some (store_slot t h) ->
  lookup (<[store_slot t h := e]> t) h' = lookup t h'.
Proof.
  intros Hw Hh Hs Hk Hne Hl.
  pose proof (rwin_elem t h _ (rwf_size t Hw) (store_slot_elem t h Hh)) as Hi.
  apply option_eq. intros k. rewrite !lookup_iff; [|done|by apply store_rwf].
  rewrite lookup_total_insert_dec by done. case_decide as Ek; [subst k|done].
  rewrite lookup_iff in Hl by done. split; [|done].
  intros [_ ?]%rholds_true. congruence.
Qed.
