(* ===== verification/RCacheSpec.v ===== *)
(** What the response cache promises: deadlines, eviction, invalidation by tag and by URL,
    header round trip, application flushes and restarts.  The in-flight table is in
    [Coalesce]. *)

From S2P Require Import Prelude Bytes Ns Probe Glob RCache RCacheLemmas.

(** ** The header blob *)

Lemma split_crlf_app p b : 13 ∉ p -> split_crlf (p ++ CRLF ++ b) = p :: split_crlf b.
Proof.
  induction p as [|x p IH]; intros Hp; [done|].
  apply not_elem_of_cons in Hp as [Hx Hp]. specialize (IH Hp).
  assert (forall l, split_crlf (x :: l) = match split_crlf l with
    | q :: qs => (x :: q) :: qs | [] => [[x]] end) as Hc.
  { intros l. cbn [split_crlf].
    destruct (decide (x = 13)) as [->|Hn]; [done|].
    destruct x as [|q|q]; [done| |done].
    do 4 (destruct q as [q|q|]; try done). }
  cbn [Datatypes.app]. by rewrite Hc, IH.
Qed.

Lemma trim_space v : trim (32 :: v) = trim v.
Proof. reflexivity. Qed.

Lemma split_once_app x p b : x ∉ p -> split_once x (p ++ x :: b) = Some (p, b).
Proof.
  intros Hp. unfold split_once. rewrite position_app by done.
  rewrite take_app_length. do 2 f_equal. by induction p as [|y p IH]; [|apply not_elem_of_cons in Hp as [_ Hp]; apply IH].
Qed.

(** A header that a line of the blob can carry. *)
Definition line_ok (x : header) : Prop := (13 ∉ x.1) /\ (13 ∉ x.2) /\ (58 ∉ x.1).

(** Headers survive the blob they are stored in: read back, in order, each name and value
    is the one stored, trimmed; and unchanged when they had no space around them. *)
Theorem hdr_blob_roundtrip hs :
  Forall line_ok hs ->
  parse_hdr_blob (hdr_blob hs) = (fun '(k, v) => (trim k, trim v)) <$> hs
  /\ (Forall (fun '(k, v) => trim k = k /\ trim v = v) hs -> parse_hdr_blob (hdr_blob hs) = hs).
Proof.
  intros Hf. assert (parse_hdr_blob (hdr_blob hs) = (fun '(k, v) => (trim k, trim v)) <$> hs) as ->.
  - unfold parse_hdr_blob, hdr_blob. induction Hf as [|[k v] hs (Hk & Hv & Hc) _ IH]; [done|].
    cbn [fmap list_fmap concat fst snd] in *.
    replace ((k ++ lit ": " ++ v ++ CRLF) ++ concat ((λ '(k, v), k ++ lit ": " ++ v ++ CRLF) <$> hs))
      with ((k ++ 58 :: 32 :: v) ++ CRLF ++ concat ((λ '(k, v), k ++ lit ": " ++ v ++ CRLF) <$> hs))
      by (rewrite <- !(assoc_L (++)); done).
    rewrite split_crlf_app.
    2:{ intros [?|[?|[?|?]%elem_of_cons]%elem_of_cons]%elem_of_app; done. }
    rewrite filter_cons_True by (by destruct k).
    cbn [omap list_omap]. rewrite split_once_app by done. cbn [fmap option_fmap option_map].
    rewrite trim_space. f_equal. exact IH.
  - split; [done|]. intros Ht. clear Hf. induction Ht as [|[k v] hs [Hk Hv] _ IH]; [done|].
    cbn [fmap list_fmap]. by rewrite Hk, Hv, IH.
Qed.

Section Spec.
Context (hash_key : bytes -> Z) (hash_u64 : forall b, is_u64 (hash_key b)).
Implicit Types (r : rcache) (key : bytes).

Abbreviation hashed := (hash_bytes hash_key).

Lemma hashed_u64 b : is_u64 (hashed b).
Proof. unfold hash_bytes. case_bool; [by split|apply hash_u64]. Qed.

Lemma hashed_ne b : hashed b <> 0.
Proof. unfold hash_bytes. case_bool; [done|]. by apply Z.eqb_neq. Qed.

(** What [peek] answers, and the cache it leaves. *)
Definition dead r (now : Z) (e : entry) : bool := past_retain e now || tag_invalid (tag_slots r) e.

Lemma peek_spec r key now :
  peek hash_key (Some r) key now
  = match lookup (entries r) (hashed key) with
    | None => (None, Some r)
    | Some i =>
        if dead r now (entries r !!! i)
        then (None, Some (set_entries r (<[i := set_state (entries r !!! i) 2]> (entries r))))
        else (Some (serve (entries r !!! i) now), Some r)
    end.
Proof.
  unfold peek. cbn [with_rc]. rewrite peek_loop_spec. fold (lookup (entries r) (hashed key)).
  destruct (lookup _ _) as [i|]; [|by destruct r].
  unfold dead. destruct (past_retain _ _ || _); [done|by destruct r].
Qed.

Definition view r key (now : Z) : option Cached := (peek hash_key (Some r) key now).1.

Lemma view_spec r key now :
  view r key now
  = match lookup (entries r) (hashed key) with
    | None => None
    | Some i => if dead r now (entries r !!! i) then None else Some (serve (entries r !!! i) now)
    end.
Proof. unfold view. rewrite peek_spec. destruct (lookup _ _); [|done]. by case_bool. Qed.

Lemma stale_on_error_view r key now :
  (stale_on_error hash_key (Some r) key now).1 = view r key now.
Proof. unfold stale_on_error, view. exact eq_refl. Qed.

Lemma rget_spec r key now :
  (get hash_key (Some r) key now).1
  = match view r key now with Some c => if c_error_only c then None else Some c | None => None end.
Proof. unfold get, view. by destruct (peek _ _ _ _) as [[c|] r']. Qed.

Lemma store_spec r key status headers b ttl swr sie tags a now :
  store hash_key (Some r) key status headers b ttl swr sie tags a now
  = if (HDR_MAX <? length (hdr_blob headers))%nat || (BODY_MAX <? length b)%nat then (false, Some r)
    else if (MAX_TAGS <? length tags)%nat then (false, Some (count_overflow r))
    else
      let '(expires, stale_until, error_until) := deadlines now ttl swr sie in
      let i := store_slot (entries r) (hashed key) in
      (true, Some (set_entries r
         (<[i := write_entry (entries r !!! i) (hashed key) status (hdr_blob headers) b
                   expires stale_until error_until
                   (snapshot hash_key (tag_slots r) tags) key a]> (entries r)))).
Proof.
  unfold store. cbn [with_rc]. destruct (_ || _); [done|]. destruct (_ <? _)%nat; [done|].
  by destruct (deadlines _ _ _ _) as [[? ?] ?].
Qed.

(** The three phases of a response stored at [stored], as (stale, error fallback only). *)
Definition phase (ttl swr sie stored now : Z) : option (bool * bool) :=
  if (ttl =? 0) || (now <=? stored + ttl) then Some (false, false)
  else if now <=? stored + ttl + swr then Some (true, false)
  else if now <=? stored + ttl + sie then Some (false, true)
  else None.

(** A response may be cached when it fits, tags included. *)
Definition storable (headers : list header) (b : bytes) (tags : list bytes) : Prop :=
  (length (hdr_blob headers) <= HDR_MAX)%nat /\ (length b <= BODY_MAX)%nat
  /\ (length tags <= MAX_TAGS)%nat.

Lemma snapshot_valid tt tags : existsb (fun '(th, tg) => negb (tag_gen tt th =? tg))
                                 (snapshot hash_key tt tags) = false.
Proof.
  unfold snapshot. induction (take MAX_TAGS tags) as [|x l IH]; [done|].
  cbn [fmap list_fmap existsb]. by rewrite Z.eqb_refl, IH.
Qed.

Lemma serve_phase lk h st blob b key tags a ttl swr sie stored now :
  0 <= stored -> 0 <= ttl -> 0 <= swr -> 0 <= sie ->
  stored + ttl + swr < W64 -> stored + ttl + sie < W64 ->
  (length blob <= HDR_MAX)%nat -> (length b <= BODY_MAX)%nat ->
  let '(x, y, z) := deadlines stored ttl swr sie in
  let e := write_entry lk h st blob b x y z tags key a in
  (if past_retain e now then None else Some (serve e now))
  = (fun '(s, eo) => mkCached st (parse_hdr_blob blob) b s eo) <$> phase ttl swr sie stored now.
Proof.
  intros H0 Ht Hs He B1 B2 Hbl Hb. unfold deadlines.
  unfold write_entry, past_retain, serve, retain, phase.
  cbn [stale_until error_until expires_at state hdr body status].
  rewrite !take_ge by done.
  destruct (Z.eqb_spec ttl 0) as [->|Hne]; [done|].
  replace (0 <? ttl) with true by (symmetry; apply Z.ltb_lt; lia). cbn [andb orb].
  rewrite (wrap64_id (stored + ttl)) by (words; lia).
  destruct (Z.ltb_spec 0 swr), (Z.ltb_spec 0 sie);
    rewrite ?(wrap64_id (stored + ttl + swr)), ?(wrap64_id (stored + ttl + sie)) by (words; lia);
    destruct (Z.leb_spec now (stored + ttl)); destruct (Z.leb_spec now (stored + ttl + swr));
    destruct (Z.leb_spec now (stored + ttl + sie)); try lia; cbn [fmap option_fmap option_map];
    repeat match goal with |- context [?x =? ?y] => destruct (Z.eqb_spec x y); try lia end;
    repeat match goal with |- context [?x <? ?y] => destruct (Z.ltb_spec x y); try lia end; done.
Qed.

Lemma store_cases r key status headers b ttl swr sie tags a now r' ok :
  store hash_key (Some r) key status headers b ttl swr sie tags a now = (ok, Some r') ->
  (ok = true /\ storable headers b tags /\ tag_slots r' = tag_slots r
   /\ exists x y z, deadlines now ttl swr sie = (x, y, z) /\
      entries r' = <[store_slot (entries r) (hashed key) :=
        write_entry (entries r !!! store_slot (entries r) (hashed key)) (hashed key) status
          (hdr_blob headers) b x y z (snapshot hash_key (tag_slots r) tags) key a]> (entries r))
  \/ (ok = false /\ ~ storable headers b tags /\ entries r' = entries r
      /\ tag_slots r' = tag_slots r).
Proof.
  rewrite store_spec. unfold storable. intros E.
  destruct ((HDR_MAX <? length (hdr_blob headers))%nat || (BODY_MAX <? length b)%nat) eqn:E1.
  { right. injection E as <- <-. split; [done|]. split; [|done].
    apply orb_true_iff in E1 as [?%Nat.ltb_lt|?%Nat.ltb_lt]; lia. }
  apply orb_false_iff in E1 as [?%Nat.ltb_ge ?%Nat.ltb_ge].
  destruct (Nat.ltb_spec MAX_TAGS (length tags)).
  { right. injection E as <- <-. split; [done|]. split; [lia|done]. }
  left. destruct (deadlines now ttl swr sie) as [[x y] z].
  injection E as <- <-. split; [done|]. split; [done|]. split; [done|]. by exists x, y, z.
Qed.

(** What is stored is what is then seen. *)
Lemma store_view r key status headers b ttl swr sie tags a stored r' now :
  (0 < length (entries r))%nat -> 0 <= stored -> 0 <= ttl -> 0 <= swr -> 0 <= sie ->
  stored + ttl + swr < W64 -> stored + ttl + sie < W64 ->
  store hash_key (Some r) key status headers b ttl swr sie tags a stored = (true, Some r') ->
  view r' key now = (fun '(s, eo) => mkCached status (parse_hdr_blob (hdr_blob headers)) b s eo)
                    <$> phase ttl swr sie stored now.
Proof.
  intros Hl H0 Ht Hs He B1 B2 Hst.
  destruct (store_cases _ _ _ _ _ _ _ _ _ _ _ _ _ Hst)
    as [(_ & Hfit & Htt & x & y & z & Ed & Ee)|(? & _)]; [|done].
  rewrite view_spec, Ee. rewrite store_lookup by first [done|apply hashed_u64].
  pose proof (rwin_elem _ _ _ Hl (store_slot_elem (entries r) (hashed key) (hashed_u64 key))) as Hi.
  rewrite list_lookup_total_insert_eq by done.
  unfold dead, tag_invalid. rewrite Htt.
  cbn [RCache.tags write_entry]. rewrite snapshot_valid, orb_false_r.
  destruct Hfit as (Hf1 & Hf2 & _).
  pose proof (serve_phase (entries r !!! store_slot (entries r) (hashed key)) (hashed key) status
    (hdr_blob headers) b key (snapshot hash_key (tag_slots r) tags) a ttl swr sie stored now
    H0 Ht Hs He B1 B2 Hf1 Hf2) as Hp.
  rewrite Ed in Hp. exact Hp.
Qed.

(** C9.  A response is stored exactly when its headers, body and tags fit; otherwise nothing
    changes.  Stored, and with no tag forgotten since, it is served with its status, body and
    headers: fresh up to [ttl], flagged stale for [swr] seconds more, then for the rest of the
    [sie] window only as a fallback ([get] misses, [stale_on_error] does not), then not at
    all; a [ttl] of 0 never ends.  The headers are those the blob reads back as: in order, each name
    and value trimmed, when none holds a carriage return and no name a colon. *)
Theorem store_then_peek r key status headers b ttl swr sie tags a stored ok r' now :
  (0 < length (entries r))%nat -> 0 <= stored -> 0 <= ttl -> 0 <= swr -> 0 <= sie ->
  stored + ttl + swr < W64 -> stored + ttl + sie < W64 ->
  store hash_key (Some r) key status headers b ttl swr sie tags a stored = (ok, Some r') ->
  (ok = true <-> storable headers b tags)
  /\ (ok = false -> entries r' = entries r)
  /\ (ok = true ->
      let answer := (fun '(s, eo) => mkCached status (parse_hdr_blob (hdr_blob headers)) b s eo)
                    <$> phase ttl swr sie stored now in
      (stale_on_error hash_key (Some r') key now).1 = answer
      /\ (get hash_key (Some r') key now).1
         = match answer with Some c => if c_error_only c then None else Some c | None => None end)
  /\ (Forall line_ok headers ->
      parse_hdr_blob (hdr_blob headers) = (fun '(k, v) => (trim k, trim v)) <$> headers).
Proof.
  intros Hl H0 Ht Hs He B1 B2 Hst. rewrite rget_spec, stale_on_error_view.
  destruct (store_cases _ _ _ _ _ _ _ _ _ _ _ _ _ Hst)
    as [(-> & Hfit & _)|(-> & Hfit & Ee & _)]; [|split_and!; try done; apply hdr_blob_roundtrip].
  split; [done|]. split; [done|]. split; [|apply hdr_blob_roundtrip]. intros _ answer. by erewrite store_view.
Qed.

(** Every other key, whatever is stored. *)
Lemma store_others r key status headers b ttl swr sie tags a now ok r' key' :
  rwf (entries r) ->
  store hash_key (Some r) key status headers b ttl swr sie tags a now = (ok, Some r') ->
  hashed key' <> hashed key ->
  rwf (entries r') /\
  ((forall t, view r' key' t = view r key' t)
   \/ ok = true
      /\ Forall (fun j => state (entries r !!! j) = 1 /\ key_hash (entries r !!! j) <> hashed key)
           (win (entries r) (hashed key))
      /\ lookup (entries r) (hashed key')
         = Some (Z.to_nat (hashed key mod Z.of_nat (length (entries r))))).
Proof.
  intros Hw Hst Hne.
  destruct (store_cases _ _ _ _ _ _ _ _ _ _ _ _ _ Hst)
    as [(-> & _ & Htt & x & y & z & _ & Ee)|(-> & _ & Ee & Htt)].
  2:{ split; [by rewrite Ee|]. left. intros t. rewrite !view_spec, Ee.
      destruct (lookup _ _); [|done]. unfold dead, tag_invalid. by rewrite Htt. }
  pose proof (hashed_u64 key) as Hh. split; [rewrite Ee; by apply store_rwf|].
  set (i := store_slot (entries r) (hashed key)) in *.
  destruct (decide (lookup (entries r) (hashed key') = Some i)) as [Hl|Hl].
  - right. split; [done|]. destruct (store_slot_spec (entries r) (hashed key) Hh) as [_ Hi].
    fold i in Hi. pose proof Hl as [H1 Hk]%lookup_iff%rholds_true; [|done].
    destruct Hi as [|[|(Hall & [|[Hn2 Hi]])]]; [lia|congruence|lia|].
    split; [|by rewrite Hl, Hi]. apply Forall_forall. intros j Hj.
    rewrite Forall_forall in Hall, Hn2. destruct (Hall j Hj) as [? ?]. split; [|done].
    pose proof (rwf_state _ Hw j _ (lookup_inv _ j ltac:(done))). specialize (Hn2 j Hj). simpl in Hn2. lia.
  - left. intros t. rewrite !view_spec, Ee. subst i.
    rewrite (store_lookup_ne (entries r) (hashed key) (hashed key')) by done.
    destruct (lookup _ _) as [k|] eqn:Ek; [|done].
    rewrite list_lookup_total_insert_ne by congruence. unfold dead, tag_invalid. by rewrite Htt.
Qed.

(** Storing one key disturbs at most one other: every other key keeps its answer, at any
    time, unless its entry sat in the slot that was written; that costs a live entry only when
    all sixteen slots of the window hold other live entries, and it is then the first of
    them. *)
Theorem store_keeps_others r key status headers b ttl swr sie tags a now ok r' key' :
  rwf (entries r) ->
  store hash_key (Some r) key status headers b ttl swr sie tags a now = (ok, Some r') ->
  hashed key' <> hashed key ->
  rwf (entries r') /\
  ((forall t, view r' key' t = view r key' t)
   \/ ok = true
      /\ Forall (fun j => state (entries r !!! j) = 1 /\ key_hash (entries r !!! j) <> hashed key)
           (win (entries r) (hashed key))
      /\ lookup (entries r) (hashed key')
         = Some (Z.to_nat (hashed key mod Z.of_nat (length (entries r))))).
Proof. apply store_others. Qed.
End Spec.

(** ** The theorems at work on a small cache *)

Definition empty_rc : rcache :=
  mkRC (replicate 16 empty_entry) (replicate TAG_SLOTS (mkTag 0 0)) 0 0 0 0.
Definition flat_hash (b : bytes) : Z := wrap64 (foldr Z.add 0 b).
Lemma flat_hash_u64 b : is_u64 (flat_hash b).
Proof. apply wrap64_range. Qed.

(** [/p] stored for 60 seconds, 30 more stale. *)
Definition stored_rc : rcache :=
  default empty_rc
    (store flat_hash (Some empty_rc) [112] 200 [([97], [98])] [104; 105] 60 30 0 [[1]] None 1000).2.

Lemma store_ok r key status headers b ttl swr sie tags a now hash :
  (store hash (Some r) key status headers b ttl swr sie tags a now).1 = true ->
  store hash (Some r) key status headers b ttl swr sie tags a now
  = (true, Some (default empty_rc (store hash (Some r) key status headers b ttl swr sie tags a now).2)).
Proof.
  rewrite store_spec. destruct (_ || _); [done|]. destruct (_ <? _)%nat; [done|].
  by destruct (deadlines _ _ _ _) as [[? ?] ?].
Qed.

Lemma stored_rc_store :
  store flat_hash (Some empty_rc) [112] 200 [([97], [98])] [104; 105] 60 30 0 [[1]] None 1000
  = (true, Some stored_rc).
Proof. apply store_ok. vm_compute. reflexivity. Qed.

Lemma store_then_peek_witness :
  (get flat_hash (Some stored_rc) [112] 1060).1
    = Some (mkCached 200 [([97], [98])] [104; 105] false false)
  /\ (get flat_hash (Some stored_rc) [112] 1061).1
    = Some (mkCached 200 [([97], [98])] [104; 105] true false)
  /\ (get flat_hash (Some stored_rc) [112] 1091).1 = None.
Proof.
  pose proof (fun t => store_then_peek flat_hash flat_hash_u64 empty_rc [112] 200 [([97], [98])]
    [104; 105] 60 30 0 [[1]] None 1000 true stored_rc t) as H.
  assert (forall t, (get flat_hash (Some stored_rc) [112] t).1
    = match (fun '(s, eo) => mkCached 200 (parse_hdr_blob (hdr_blob [([97], [98])])) [104; 105] s eo)
            <$> phase 60 30 0 1000 t
      with Some c => if c_error_only c then None else Some c | None => None end) as Hg.
  { intros t. apply (H t); [cbn; lia|lia|lia|lia|lia|words; lia|words; lia|exact stored_rc_store|done]. }
  split_and!; rewrite Hg; reflexivity.
Defined.

Lemma hdr_blob_roundtrip_witness :
  parse_hdr_blob (hdr_blob [(lit "content-type", lit "text/html"); (lit "x", lit "a: b")])
  = [(lit "content-type", lit "text/html"); (lit "x", lit "a: b")].
Proof.
  apply (hdr_blob_roundtrip [(lit "content-type", lit "text/html"); (lit "x", lit "a: b")]).
  - repeat constructor; by apply (bool_decide_unpack _); vm_compute.
  - repeat constructor; by vm_compute.
Defined.

(** A second page leaves the first alone. *)
Lemma store_keeps_others_witness :
  rwf (entries stored_rc) /\
  forall r', store flat_hash (Some stored_rc) [113] 404 [] [] 0 0 0 [] None 1001 = (true, Some r') ->
  rwf (entries r')
  /\ ((forall t, view flat_hash r' [112] t = view flat_hash stored_rc [112] t)
      \/ true = true
         /\ Forall (fun j => state (entries stored_rc !!! j) = 1
                            /\ key_hash (entries stored_rc !!! j) <> hash_bytes flat_hash [113])
              (win (entries stored_rc) (hash_bytes flat_hash [113]))
         /\ lookup (entries stored_rc) (hash_bytes flat_hash [112])
            = Some (Z.to_nat (hash_bytes flat_hash [113] mod Z.of_nat (length (entries stored_rc))))).
Proof.
  assert (rwf (entries stored_rc)) as Hw.
  { apply (store_keeps_others flat_hash flat_hash_u64 empty_rc _ _ _ _ _ _ _ _ _ _ _ _ [113]
      (rwf_init 16 (Nat.lt_0_succ 15)) stored_rc_store). vm_compute. discriminate. }
  split; [exact Hw|]. intros r' Hst.
  apply (store_keeps_others flat_hash flat_hash_u64 stored_rc _ _ _ _ _ _ _ _ _ _ _ _ [112] Hw Hst).
  vm_compute. discriminate.
Defined.
