(* ===== verification/RCacheTags.v ===== *)
(** Tag invalidation of the response cache: the generation table, and what [forget_tag] does to
    pages already stored, over any later sequence of operations. *)

From S2P Require Import Prelude Bytes Ns Probe Glob RCache RCacheLemmas RCacheSpec.

(** ** The generation table *)

Definition has_tag (h : Z) (e : TagGen) : bool := thash e =? h.

Record twf (gs : tag_table) : Prop := {
  twf_size : length gs = TAG_SLOTS;
  twf_reach : forall i, thash (gs !!! i) <> 0 ->
    reachable thash gs (tag_win (thash (gs !!! i))) i;
  twf_unique : forall i j, thash (gs !!! i) <> 0 -> thash (gs !!! i) = thash (gs !!! j) -> i = j }.

(** [forget_tag] finds a place for the tag without taking another tag's. *)
Definition tag_fits (gs : tag_table) (h : Z) : bool :=
  bool_decide (is_Some (forget_loop gs h (tag_win h))).

Lemma lookup_replicate_total {A} `{Inhabited A} n (x : A) i :
  replicate n x !!! i = x \/ replicate n x !!! i = inhabitant.
Proof.
  rewrite list_lookup_total_alt. destruct (replicate n x !! i) eqn:E; [|by right].
  apply lookup_replicate in E as [-> _]. by left.
Qed.

Lemma twf_init : twf (replicate TAG_SLOTS (mkTag 0 0)).
Proof.
  assert (forall i, thash (replicate TAG_SLOTS (mkTag 0 0) !!! i) = 0) as Hz
    by (intros i; by destruct (lookup_replicate_total TAG_SLOTS (mkTag 0 0) i) as [-> | ->]).
  split; [apply length_replicate|intros i; by rewrite Hz|intros i j; by rewrite Hz].
Qed.

Lemma tag_gen_probe gs h w :
  h <> 0 ->
  tag_gen_loop gs h w
  = match probe_find thash (has_tag h) gs w with Some i => tgen (gs !!! i) | None => 0 end.
Proof.
  intros Hh. induction w as [|i w IH]; [done|]. cbn [tag_gen_loop probe_find]. unfold has_tag at 1.
  destruct (Z.eqb_spec (thash (gs !!! i)) h) as [E|E].
  - rewrite E. by apply Z.eqb_neq in Hh as ->.
  - by destruct (thash (gs !!! i) =? 0).
Qed.

Lemma tag_win_bound h i : i ∈ tag_win h -> (i < TAG_SLOTS)%nat.
Proof.
  unfold tag_win. intros (k & -> & _)%list_elem_of_fmap.
  pose proof (Z.mod_pos_bound (h mod Z.of_nat TAG_SLOTS + k) (Z.of_nat TAG_SLOTS) eq_refl). lia.
Qed.

Lemma forget_loop_spec gs h w :
  match forget_loop gs h w with
  | None => Forall (fun j => thash (gs !!! j) <> h /\ thash (gs !!! j) <> 0) w
  | Some gs' => exists w1 i w2 g, w = w1 ++ i :: w2
      /\ Forall (fun j => thash (gs !!! j) <> h /\ thash (gs !!! j) <> 0) w1
      /\ gs' = <[i := mkTag h g]> gs
      /\ (thash (gs !!! i) = h /\ g = wrap64 (tgen (gs !!! i) + 1)
          \/ thash (gs !!! i) <> h /\ thash (gs !!! i) = 0 /\ g = 1)
  end.
Proof.
  induction w as [|i w IH]; cbn [forget_loop]; [done|].
  destruct (Z.eqb_spec (thash (gs !!! i)) h) as [E|E].
  { exists [], i, w, (wrap64 (tgen (gs !!! i) + 1)). split_and!; auto. }
  destruct (Z.eqb_spec (thash (gs !!! i)) 0) as [E0|E0].
  { exists [], i, w, 1. split_and!; auto. }
  destruct (forget_loop gs h w) as [gs'|]; [|by constructor].
  destruct IH as (w1 & j & w2 & g & -> & Hf & -> & Hj).
  exists (i :: w1), j, w2, g. split_and!; [done|by constructor|done|done].
Qed.

(** Writing tag [h] where it already is, or where nothing is and nothing hides it. *)
Lemma twf_insert gs h g i w1 w2 :
  h <> 0 -> twf gs -> tag_win h = w1 ++ i :: w2 ->
  Forall (fun j => thash (gs !!! j) <> h /\ thash (gs !!! j) <> 0) w1 ->
  (forall j, thash (gs !!! j) = h -> j = i) -> twf (<[i := mkTag h g]> gs).
Proof.
  intros Hh Hw Ew Hf Hu.
  assert (i < length gs)%nat as Hi.
  { rewrite (twf_size gs Hw). apply (tag_win_bound h). rewrite Ew. set_solver. }
  assert (forall w j, reachable thash gs w j -> reachable thash (<[i:=mkTag h g]> gs) w j) as Hmono.
  { intros w j. apply reachable_mono. intros k Hk. rewrite lookup_total_insert_dec by done.
    by case_decide. }
  split.
  - rewrite length_insert. apply (twf_size gs Hw).
  - intros j. rewrite lookup_total_insert_dec by done. case_decide as E; [subst j|].
    + intros _. apply Hmono. exists w1, w2. split; [done|].
      eapply Forall_impl; [exact Hf|]. by intros j [_ ?].
    + intros Hj. apply Hmono. by apply (twf_reach gs Hw).
  - intros j k. rewrite !lookup_total_insert_dec by done.
    repeat case_decide; subst; cbn [thash]; [done| | |by apply (twf_unique gs Hw)].
    + intros _ E. symmetry. by apply Hu.
    + intros _ E. by apply Hu.
Qed.

Lemma twf_empty_hole gs h w1 w2 i :
  h <> 0 -> twf gs -> tag_win h = w1 ++ i :: w2 -> thash (gs !!! i) = 0 ->
  Forall (fun j => thash (gs !!! j) <> h /\ thash (gs !!! j) <> 0) w1 ->
  forall j, thash (gs !!! j) <> h.
Proof.
  intros Hh Hw Ew H0 Hf j Ej.
  assert (thash (gs !!! j) <> 0) as Hj by congruence.
  pose proof (twf_reach gs Hw j Hj) as Hr. rewrite Ej, Ew in Hr.
  assert (probe_find thash (has_tag h) gs (w1 ++ i :: w2) = None) as Hn.
  { clear -H0 Hf. induction Hf as [|k w1 [Hk H0k] _ IH]; cbn [Datatypes.app probe_find].
    - by rewrite H0.
    - unfold has_tag at 1. apply Z.eqb_neq in Hk, H0k. by rewrite H0k, Hk. }
  pose proof (probe_find_None _ _ _ _ _ Hn Hr Hj) as Hm. unfold has_tag in Hm.
  by apply Z.eqb_neq in Hm.
Qed.

Lemma forget_hash_twf gs h : h <> 0 -> twf gs -> twf (forget_hash gs h).
Proof.
  intros Hh Hw. unfold forget_hash. pose proof (forget_loop_spec gs h (tag_win h)) as Hs.
  destruct (forget_loop _ _ _) as [gs'|].
  - destruct Hs as (w1 & i & w2 & g & Ew & Hf & -> & Hi).
    eapply twf_insert; [done..|]. intros j Ej. destruct Hi as [[Ei _]|(Ei & E0 & _)].
    + symmetry. apply (twf_unique gs Hw); congruence.
    + exfalso. by eapply (twf_empty_hole gs h w1 w2 i).
  - assert (exists w, tag_win h = Z.to_nat (h mod Z.of_nat TAG_SLOTS) :: w) as [w Ew].
    { eexists. unfold tag_win. change (Z.of_nat PROBE) with (Z.succ 15).
      rewrite seqZ_cons by lia. cbn [fmap list_fmap]. rewrite Z.add_0_r, Zmod_mod. done. }
    eapply (twf_insert _ _ _ _ [] w); [done..|]. intros j Ej. exfalso.
    assert (thash (gs !!! j) <> 0) as Hj by congruence.
    pose proof (twf_reach gs Hw j Hj) as Hr. rewrite Ej in Hr. apply reachable_elem in Hr.
    rewrite Forall_forall in Hs. by destruct (Hs j Hr).
Qed.

(** Forgetting a tag that fits counts its generation up and leaves the others. *)
Lemma forget_hash_gen gs h h' :
  h <> 0 -> h' <> 0 -> twf gs -> tag_fits gs h = true ->
  tag_gen (forget_hash gs h) h'
  = if h' =? h then wrap64 (tag_gen gs h + 1) else tag_gen gs h'.
Proof.
  intros Hh Hh' Hw [gs' Ef]%bool_decide_eq_true. unfold forget_hash. rewrite Ef.
  pose proof (forget_loop_spec gs h (tag_win h)) as Hs. rewrite Ef in Hs.
  destruct Hs as (w1 & i & w2 & g & Ew & Hf & -> & Hi).
  assert (i < length gs)%nat as Hlt.
  { rewrite (twf_size gs Hw). apply (tag_win_bound h). rewrite Ew. set_solver. }
  unfold tag_gen. rewrite !tag_gen_probe by done.
  destruct (Z.eqb_spec h' h) as [->|Hne].
  - rewrite Ew, probe_find_insert; [|done|done|by unfold has_tag; rewrite Z.eqb_refl|].
    2:{ eapply Forall_impl; [exact Hf|]. intros j [? ?]. split; [done|]. by apply Z.eqb_neq. }
    rewrite list_lookup_total_insert_eq by done. cbn [tgen].
    destruct Hi as [[Ei ->]|(_ & E0 & ->)].
    + rewrite (probe_find_unique thash (has_tag h) gs _ i); [done| | | |].
      * exists w1, w2. split; [done|]. eapply Forall_impl; [exact Hf|]. by intros j [_ ?].
      * congruence.
      * by apply Z.eqb_eq.
      * intros j Hj Hm%Z.eqb_eq. apply (twf_unique gs Hw); congruence.
    + rewrite <- Ew. destruct (probe_find _ _ _ _) as [j|] eqn:Ej; [|done].
      apply probe_find_Some in Ej as (_ & Hm%Z.eqb_eq & _).
      by apply (twf_empty_hole gs h w1 w2 i) in Hm.
  - assert (forall gs0, twf gs0 -> forall k,
      probe_find thash (has_tag h') gs0 (tag_win h') = Some k <-> thash (gs0 !!! k) = h') as Hiff.
    { intros gs0 Hw0 k. rewrite probe_find_iff.
      - unfold has_tag. rewrite Z.eqb_eq. split; [by intros [_ ?]|]. intros Ek. by rewrite Ek.
      - intros j Hj <-%Z.eqb_eq. by apply (twf_reach gs0 Hw0).
      - intros j k' Hj E1%Z.eqb_eq _ E2%Z.eqb_eq. apply (twf_unique gs0 Hw0); congruence. }
    pose proof (forget_hash_twf gs h Hh Hw) as Hw'. unfold forget_hash in Hw'. rewrite Ef in Hw'.
    assert (thash (gs !!! i) <> h') as Hi' by (destruct Hi as [[? _]|(_ & ? & _)]; congruence).
    assert (probe_find thash (has_tag h') (<[i:=mkTag h g]> gs) (tag_win h')
            = probe_find thash (has_tag h') gs (tag_win h')) as ->.
    { apply option_eq. intros k. rewrite !Hiff by done. rewrite lookup_total_insert_dec by done.
      case_decide as Ek; [subst k|done]. cbn [thash]. split; congruence. }
    destruct (probe_find _ _ _ _) as [k|] eqn:Ek; [|done]. apply Hiff in Ek; [|done].
    rewrite list_lookup_total_insert_ne by congruence. done.
Qed.

(** ** Sequences of operations *)

Inductive op :=
| OpStore (key : bytes) (status : Z) (headers : list header) (b : bytes) (ttl swr sie : Z)
    (tags : list bytes) (a : option App) (now : Z)
| OpPeek (key : bytes) (now : Z)
| OpGet (key : bytes) (now : Z)
| OpForget (tag : bytes)
| OpScan (want : bytes -> bool)       (* [purge_url] and [ban_glob] *)
| OpFlush (a : App).

Section Trace.
Context (hash_key : bytes -> Z) (hash_u64 : forall b, is_u64 (hash_key b)).
Abbreviation hashed := (hash_bytes hash_key).

Definition step_op (r : option rcache) (o : op) : option rcache :=
  match o with
  | OpStore key status headers b ttl swr sie tags a now =>
      (store hash_key r key status headers b ttl swr sie tags a now).2
  | OpPeek key now => (peek hash_key r key now).2
  | OpGet key now => (get hash_key r key now).2
  | OpForget tag => forget_tag hash_key r tag
  | OpScan want => (scan_invalidate r want).2
  | OpFlush a => flush_app r a
  end.
Definition run_ops (r : option rcache) (ops : list op) : option rcache := fold_left step_op ops r.

(** The hypothesis of the invalidation theorem: the page is not stored again, and every
    forgotten tag finds its own place in the generation table. *)
Definition op_ok (h : Z) (r : option rcache) (o : op) : bool :=
  match o, r with
  | OpStore key _ _ _ _ _ _ _ _ _, _ => negb (hashed key =? h)
  | OpForget tag, Some r => tag_fits (tag_slots r) (hashed tag)
  | _, _ => true
  end.
Fixpoint ops_ok (h : Z) (r : option rcache) (ops : list op) : bool :=
  match ops with
  | [] => true
  | o :: ops' => op_ok h r o && ops_ok h (step_op r o) ops'
  end.

(** Every live copy of the page carries tag [th] at a generation at least [c] behind. *)
Definition behind (h th c : Z) (r : rcache) : Prop :=
  twf (tag_slots r) /\
  forall i, state (entries r !!! i) = 1 -> key_hash (entries r !!! i) = h ->
    exists g, (th, g) ∈ tags (entries r !!! i) /\ g + c <= tag_gen (tag_slots r) th.

(** An operation other than a store makes no live entry it did not find. *)
Definition no_new (r r' : rcache) (h : Z) : Prop :=
  forall i, state (entries r' !!! i) = 1 -> key_hash (entries r' !!! i) = h ->
    entries r' !!! i = entries r !!! i.

Lemma no_new_map (f : entry -> entry) (r : rcache) h :
  (forall e, state (f e) = 1 -> f e = e) ->
  no_new r (set_entries r (f <$> entries r)) h.
Proof.
  intros Hf i. cbn [entries set_entries]. rewrite !list_lookup_total_alt, list_lookup_fmap.
  destruct (entries r !! i) as [e|]; cbn [fmap option_fmap option_map default]; [|done].
  intros Hs _. by apply Hf.
Qed.

Lemma no_new_insert (r : rcache) h i e :
  state e = 1 /\ key_hash e <> h \/ state e <> 1 ->
  no_new r (set_entries r (<[i := e]> (entries r))) h.
Proof.
  intros He j. cbn [entries set_entries].
  destruct (decide (i < length (entries r))%nat).
  - rewrite lookup_total_insert_dec by done. case_decide; [|done]. intros. by destruct He as [[]|].
  - by rewrite list_insert_ge by lia.
Qed.

Lemma step_no_new h r o :
  op_ok h (Some r) o = true ->
  exists r', step_op (Some r) o = Some r' /\ no_new r r' h
    /\ tag_slots r' = match o with
                      | OpForget tag => forget_hash (tag_slots r) (hashed tag)
                      | _ => tag_slots r
                      end.
Proof.
  destruct o; cbn [op_ok step_op]; intros Hok.
  - apply negb_true_iff, Z.eqb_neq in Hok. rewrite store_spec.
    destruct (_ || _); [by eexists|]. destruct (_ <? _)%nat; [by eexists|].
    destruct (deadlines _ _ _ _) as [[x y] z]. eexists. split; [done|]. split; [|done].
    apply no_new_insert. by left.
  - rewrite peek_spec. destruct (lookup _ _); [|by eexists]. case_bool; [|by eexists].
    eexists. split; [done|]. split; [|done]. apply no_new_insert. by right.
  - unfold get. rewrite peek_spec. destruct (lookup _ _); [|by eexists]. case_bool; [|by eexists].
    eexists. split; [done|]. split; [|done]. intros i. cbn [entries count_lookup set_entries].
    apply (no_new_insert r). by right.
  - by eexists.
  - cbn [scan_invalidate with_rc]. eexists. split; [done|]. split; [|done].
    apply no_new_map. intros e. by case_bool.
  - eexists. split; [done|]. split; [|done]. apply no_new_map. intros e. by case_bool.
Qed.

Lemma step_behind h th c r o :
  th <> 0 -> op_ok h (Some r) o = true -> tag_gen (tag_slots r) th + 1 < W64 ->
  0 <= tag_gen (tag_slots r) th -> behind h th c r ->
  exists r', step_op (Some r) o = Some r' /\ behind h th c r'
    /\ tag_gen (tag_slots r) th <= tag_gen (tag_slots r') th <= tag_gen (tag_slots r) th + 1
    /\ (forall tag, o = OpForget tag -> hashed tag = th -> behind h th (c + 1) r').
Proof.
  intros Hth Hok Hb H0 [Hw Hi]. destruct (step_no_new h r o Hok) as (r' & Es & Hnew & Et).
  exists r'. split; [done|].
  assert (twf (tag_slots r') /\ tag_gen (tag_slots r) th <= tag_gen (tag_slots r') th
          /\ tag_gen (tag_slots r') th <= tag_gen (tag_slots r) th + 1
          /\ forall tag, o = OpForget tag -> hashed tag = th ->
             tag_gen (tag_slots r') th = tag_gen (tag_slots r) th + 1) as (Hw' & Hle & Hle' & Hgt).
  { rewrite Et. destruct o; try (split_and!; [done|lia|lia|done]).
    cbn [op_ok] in Hok. pose proof (hashed_ne hash_key tag) as Hne.
    rewrite (forget_hash_gen _ _ th Hne Hth Hw Hok).
    split; [by apply forget_hash_twf|].
    destruct (Z.eqb_spec th (hashed tag)) as [<-|Hn].
    - rewrite wrap64_id by (words; lia). split_and!; [lia|lia|]. by intros tag' [= <-].
    - split_and!; [lia|lia|]. intros tag' [= <-]. congruence. }
  split; [|split; [lia|]].
  - split; [done|]. intros i Hs Hk. pose proof (Hnew i Hs Hk) as E. rewrite E in *.
    destruct (Hi i Hs Hk) as (g & Hg & ?). exists g. split; [done|lia].
  - intros tag Eo Etag. specialize (Hgt tag Eo Etag). split; [done|].
    intros i Hs Hk. pose proof (Hnew i Hs Hk) as E. rewrite E in *.
    destruct (Hi i Hs Hk) as (g & Hg & ?). exists g. split; [done|lia].
Qed.

Lemma run_behind h th c r ops :
  th <> 0 -> ops_ok h (Some r) ops = true ->
  0 <= tag_gen (tag_slots r) th -> tag_gen (tag_slots r) th + Z.of_nat (length ops) < W64 ->
  behind h th c r ->
  exists r', run_ops (Some r) ops = Some r' /\ behind h th c r'
    /\ tag_gen (tag_slots r) th <= tag_gen (tag_slots r') th
         <= tag_gen (tag_slots r) th + Z.of_nat (length ops).
Proof.
  intros Hth. revert r. induction ops as [|o ops IH]; intros r Hok H0 Hb Hi.
  { exists r. split; [done|]. split; [done|]. simpl. lia. }
  cbn [ops_ok] in Hok. apply andb_true_iff in Hok as [Ho Hok]. cbn [length] in Hb.
  destruct (step_behind h th c r o Hth Ho) as (r1 & Es & Hi1 & Hg & _); [lia|lia|done|].
  rewrite Es in Hok. destruct (IH r1) as (r' & Er & Hi' & Hg'); [done|lia|lia|done|].
  exists r'. unfold run_ops. cbn [fold_left]. rewrite Es. split; [done|]. split; [done|].
  cbn [length]. lia.
Qed.

Lemma behind_view h th r key now :
  hashed key = h -> behind h th 1 r -> view hash_key r key now = None.
Proof.
  intros Hk [Hw Hi]. rewrite view_spec, Hk. destruct (lookup _ _) as [i|] eqn:El; [|done].
  apply probe_find_Some in El as (_ & [Hs Hh]%rholds_true & _).
  destruct (Hi i Hs Hh) as (g & Hg & Hlt). unfold dead.
  replace (tag_invalid (tag_slots r) (entries r !!! i)) with true; [by rewrite orb_true_r|].
  symmetry. apply existsb_exists. exists (th, g). split; [by apply list_elem_of_In|].
  apply negb_true_iff, Z.eqb_neq. lia.
Qed.

(** A page just stored with a tag is at that tag's generation. *)
Lemma stored_behind r key status headers b ttl swr sie tags a now r1 tag :
  rwf (entries r) -> twf (tag_slots r) ->
  store hash_key (Some r) key status headers b ttl swr sie tags a now = (true, Some r1) ->
  tag ∈ tags -> behind (hashed key) (hashed tag) 0 r1 /\ tag_slots r1 = tag_slots r.
Proof.
  intros Hw Ht Hst Hin. pose proof (hashed_u64 hash_key hash_u64 key) as Hh.
  destruct (store_cases _ _ _ _ _ _ _ _ _ _ _ _ _ _ Hst)
    as [(_ & (_ & _ & Hfit) & Htt & x & y & z & _ & Ee)|(? & _)]; [|done].
  split; [|done]. split; [by rewrite Htt|]. intros i Hs Hk.
  assert (rwf (entries r1)) as Hw1 by (rewrite Ee; by apply store_rwf).
  assert (lookup (entries r1) (hashed key) = Some i) as Hl
    by (apply lookup_iff; [done|by apply rholds_true]).
  rewrite Ee in Hl. rewrite store_lookup in Hl by (done || apply (rwf_size _ Hw)).
  injection Hl as <-. rewrite Ee.
  rewrite list_lookup_total_insert_eq
    by (eapply rwin_elem; [apply (rwf_size _ Hw)|by apply store_slot_elem]).
  exists (tag_gen (tag_slots r) (hashed tag)). rewrite Htt. split; [|lia].
  cbn [RCache.tags write_entry]. unfold snapshot. rewrite take_ge by done.
  by apply (list_elem_of_fmap_2 (fun t => (hashed t, tag_gen (tag_slots r) (hashed t)))).
Qed.

Lemma ops_ok_app h r a b : ops_ok h r (a ++ b) = ops_ok h r a && ops_ok h (run_ops r a) b.
Proof.
  revert r. induction a as [|o a IH]; intros r; [done|]. cbn [Datatypes.app ops_ok].
  by rewrite IH, andb_assoc.
Qed.

(** C32.  A forgotten tag stays forgotten: a page stored with a tag is never served again once
    the tag has been forgotten, whatever is stored, looked up, purged, flushed or forgotten
    before or after, until the page itself is stored anew.  (As long as every tag forgotten
    meanwhile found its own slot in the generation table; see [forget_tag_reuse_resurrects].) *)
Theorem forget_tag_invalidates r key status headers b ttl swr sie tags a now r1 tag ops1 ops2 at_ :
  rwf (entries r) -> twf (tag_slots r) ->
  store hash_key (Some r) key status headers b ttl swr sie tags a now = (true, Some r1) ->
  tag ∈ tags ->
  let ops := ops1 ++ OpForget tag :: ops2 in
  ops_ok (hashed key) (Some r1) ops = true ->
  0 <= tag_gen (tag_slots r) (hashed tag) ->
  tag_gen (tag_slots r) (hashed tag) + Z.of_nat (length ops) < W64 ->
  (peek hash_key (run_ops (Some r1) ops) key at_).1 = None.
Proof.
  intros Hw Ht Hst Hin ops Hok H0 Hb.
  destruct (stored_behind _ _ _ _ _ _ _ _ _ _ _ _ _ Hw Ht Hst Hin) as [Hi0 Et].
  pose proof (hashed_ne hash_key tag) as Hth. unfold ops in *.
  rewrite ops_ok_app in Hok. apply andb_true_iff in Hok as [Hok1 Hok2].
  rewrite length_app in Hb. cbn [length] in Hb. rewrite <- Et in H0, Hb.
  destruct (run_behind _ _ 0 r1 ops1 Hth Hok1) as (r2 & E2 & Hi2 & Hg2); [lia|lia|done|].
  rewrite E2 in Hok2. cbn [ops_ok] in Hok2. apply andb_true_iff in Hok2 as [Hf Hok2].
  destruct (step_behind _ _ 0 r2 (OpForget tag) Hth Hf) as (r3 & E3 & _ & Hg3 & Hi3);
    [lia|lia|done|]. specialize (Hi3 tag eq_refl eq_refl).
  rewrite E3 in Hok2.
  destruct (run_behind _ _ 1 r3 ops2 Hth Hok2) as (r4 & E4 & Hi4 & _); [lia|lia|done|].
  unfold run_ops in *. rewrite fold_left_app. cbn [fold_left].
  rewrite E2, E3, E4. by apply (behind_view (hashed key) (hashed tag) r4).
Qed.
End Trace.

(** A hasher under which the first byte picks the tag, all with the same home slot. *)
Definition crowded_hash (b : bytes) : Z := wrap64 (4096 * hd 0 b + 5).

Definition page : Cached := mkCached 200 [] [104; 105] false false.

(** The comment on the full window, "worst case: a false stale", is wrong: a page
    invalidated by its tag is served again, fresh, after sixteen other tags with the same home
    slot are forgotten.  The last takes the first one's slot, whose generation then reads 0,
    the generation the page was stored at. *)
Theorem forget_tag_reuse_resurrects :
  let r0 := init None 16 true in
  let r1 := (store crowded_hash r0 (lit "/p") 200 [] [104; 105] 60 0 0 [[1]] None 1000).2 in
  let r2 := forget_tag crowded_hash r1 [1] in
  let others := [2; 3; 4; 5; 6; 7; 8; 9; 10; 11; 12; 13; 14; 15; 16; 17] in
  let r3 := run_ops crowded_hash r2 ((fun x => OpForget [x]) <$> others) in
  (get crowded_hash r1 (lit "/p") 1001).1 = Some page
  /\ (get crowded_hash r2 (lit "/p") 1001).1 = None
  /\ (1 ∉ others)
  /\ (get crowded_hash r3 (lit "/p") 1001).1 = Some page.
Proof.
  cbv zeta. split; [by vm_compute|]. split; [by vm_compute|].
  split; [set_solver|]. by vm_compute.
Qed.

(** A page is stored with a tag; other requests come and go; the tag is forgotten, then another
    tag; the page is gone. *)
Definition tagged_rc : rcache :=
  default empty_rc
    (store crowded_hash (Some empty_rc) (lit "/p") 200 [] [104; 105] 60 0 0 [[1]; [2]] None 1000).2.

Lemma forget_tag_invalidates_witness :
  (store crowded_hash (Some empty_rc) (lit "/p") 200 [] [104; 105] 60 0 0 [[1]; [2]] None 1000
   = (true, Some tagged_rc))
  /\ (peek crowded_hash
       (run_ops crowded_hash (Some tagged_rc)
          ([OpPeek (lit "/p") 1001; OpStore (lit "q") 200 [] [1] 0 0 0 [] None 1001]
           ++ OpForget [1] :: [OpForget [2]; OpScan (fun _ => false)]))
       (lit "/p") 1002).1 = None.
Proof.
  assert (store crowded_hash (Some empty_rc) (lit "/p") 200 [] [104; 105] 60 0 0 [[1]; [2]] None 1000
          = (true, Some tagged_rc)) as Hst.
  { assert ((store crowded_hash (Some empty_rc) (lit "/p") 200 [] [104; 105] 60 0 0 [[1]; [2]] None
               1000).1 = true) as H1 by (vm_compute; reflexivity).
    unfold tagged_rc. rewrite store_spec in *. revert H1.
    destruct (_ || _); [done|]. destruct (_ <? _)%nat; [done|].
    by destruct (deadlines _ _ _ _) as [[? ?] ?]. }
  split; [exact Hst|].
  refine (forget_tag_invalidates crowded_hash _ empty_rc _ _ _ _ _ _ _ _ _ _ _ [1] _ _ 1002
            _ _ Hst _ _ _ _).
  - intros b. apply wrap64_range.
  - apply rwf_init. lia.
  - apply twf_init.
  - by left.
  - vm_compute. reflexivity.
  - vm_compute. discriminate.
  - vm_compute. reflexivity.
Defined.
