(* ===== verification/RCacheUrl.v ===== *)
(** Invalidation of the response cache by URL and by application, and the dump that is read back at the next start. *)

From S2P Require Import Prelude Bytes Ns Probe Glob RCache RCacheLemmas RCacheSpec.

(** ** Keys as [response_cache_key] builds them *)

(** [METHOD \0 host \0 path?query \0 variants]. *)
Definition url_key (method host pq variants : bytes) : bytes :=
  method ++ 0 :: host ++ 0 :: pq ++ 0 :: variants.

Lemma key_parts_url method host pq variants :
  0 ∉ method -> 0 ∉ host -> 0 ∉ pq ->
  key_parts (url_key method host pq variants) = Some (method, host, pq).
Proof.
  intros Hm Hh Hp. unfold key_parts, url_key.
  by rewrite split_on_app, split_on_app, split_on_app by done.
Qed.

(** What a purge of [host]/[path] covers. *)
Definition purged (host path : bytes) (query : option bytes) (method khost pq : bytes) : Prop :=
  (method = lit "GET" \/ method = lit "HEAD")
  /\ to_ascii_lowercase khost = to_ascii_lowercase host
  /\ match query with
     | Some q => pq = path ++ QUESTION :: q
     | None => pq = path \/ exists q, pq = path ++ QUESTION :: q
     end.

Lemma purge_method_iff m : purge_method m = true <-> m = lit "GET" \/ m = lit "HEAD".
Proof. unfold purge_method. by rewrite orb_true_iff, !beq_true. Qed.

Lemma eq_ignore_iff x y :
  eq_ignore_ascii_case x y = true <-> to_ascii_lowercase x = to_ascii_lowercase y.
Proof. unfold eq_ignore_ascii_case. apply beq_true. Qed.

Lemma path_or_query p pq :
  beq pq p || (length p <? length pq)%nat && starts_with pq p && (pq !!! length p =? QUESTION) = true
  <-> pq = p \/ exists q, pq = p ++ QUESTION :: q.
Proof.
  rewrite orb_true_iff, !andb_true_iff, beq_true, Nat.ltb_lt, starts_with_true, Z.eqb_eq.
  split; (intros [->|H]; [by left|right]).
  - destruct H as [[Hl (r & ->)] Hq].
    destruct r as [|x r]; [rewrite length_app in Hl; simpl in Hl; lia|].
    rewrite list_lookup_total_middle in Hq by done. subst x. by exists r.
  - destruct H as (q & ->). rewrite length_app, list_lookup_total_middle by done. simpl.
    split; [|done]. split; [lia|]. by eexists.
Qed.

Lemma purge_wants_iff host path query method khost pq variants :
  0 ∉ method -> 0 ∉ khost -> 0 ∉ pq ->
  purge_wants host path query (url_key method khost pq variants) = true
  <-> purged host path query method khost pq.
Proof.
  intros Hm Hh Hp. unfold purge_wants, purged. rewrite key_parts_url by done.
  rewrite <- purge_method_iff, <- eq_ignore_iff.
  destruct (purge_method method); cbn [negb]; [|by split; [|intros [? _]]].
  destruct (eq_ignore_ascii_case khost host); cbn [negb]; [|by split; [|intros (_ & ? & _)]].
  destruct query as [q|].
  - rewrite beq_true. by split; [|intros (_ & _ & ?)].
  - rewrite path_or_query. by split; [|intros (_ & _ & ?)].
Qed.

Section Url.
Context (hash_key : bytes -> Z) (hash_u64 : forall b, is_u64 (hash_key b)).
Abbreviation hashed := (hash_bytes hash_key).
Implicit Types (r : rcache) (key : bytes).

(** No other key's response sits under this key's hash. *)
Definition owned r key : Prop :=
  forall i, lookup (entries r) (hashed key) = Some i ->
    key_bytes (entries r !!! i) = take KEY_MAX key.

Lemma lookup_total_fmap (f : entry -> entry) (t : table) (i : nat) :
  f inhabitant = inhabitant -> (f <$> t) !!! i = f (t !!! i).
Proof.
  intros Hf. rewrite !list_lookup_total_alt, list_lookup_fmap.
  by destruct (t !! i).
Qed.

Definition ban_entry (want : bytes -> bool) (e : entry) : entry :=
  if wanted want e then set_state e 2 else e.

Lemma scan_spec r want :
  rwf (entries r) ->
  exists r', scan_invalidate (Some r) want
             = (length (filter (fun e => wanted want e = true) (entries r)), Some r')
    /\ rwf (entries r')
    /\ forall key now, (length key <= KEY_MAX)%nat -> owned r key ->
       view hash_key r' key now = if want key then None else view hash_key r key now.
Proof.
  intros Hw. eexists. split; [reflexivity|]. cbn [entries set_entries].
  change (fun e => if wanted want e then set_state e 2 else e) with (ban_entry want).
  assert (forall i, (ban_entry want <$> entries r) !!! i = ban_entry want (entries r !!! i)) as Ht
    by (intros i; by apply lookup_total_fmap).
  assert (rwf (ban_entry want <$> entries r)) as Hw'.
  { apply (rwf_states (entries r)); [done|apply length_fmap|]. intros i. rewrite Ht.
    unfold ban_entry. case_bool; [|by auto]. split; [done|]. right. split; [|done].
    apply andb_true_iff in Heqb as [?%Z.eqb_eq _]. lia. }
  split; [done|]. intros key now Hl Hown. rewrite !view_spec. cbn [entries set_entries].
  assert (forall i, lookup (ban_entry want <$> entries r) (hashed key) = Some i <->
            lookup (entries r) (hashed key) = Some i /\ want key = false) as Hlk.
  { intros i. rewrite lookup_iff by done. rewrite Ht. unfold ban_entry. split.
    - intros Hh%rholds_true. assert (wanted want (entries r !!! i) = false) as Hn.
      { destruct (wanted want (entries r !!! i)); [|done]. cbn [state set_state] in Hh. lia. }
      rewrite Hn in Hh. destruct Hh as [Hs Hk].
      assert (lookup (entries r) (hashed key) = Some i) as Hli
        by (apply lookup_iff; [done|by apply rholds_true]).
      split; [done|]. unfold wanted in Hn. rewrite (Hown i Hli) in Hn.
      rewrite !take_ge in Hn by (rewrite ?length_take; lia). by rewrite Hs in Hn.
    - intros [Hli Hwant]. pose proof Hli as [Hs Hk]%lookup_iff%rholds_true; [|done].
      unfold wanted. rewrite (Hown i Hli), !take_ge by (rewrite ?length_take; lia).
      rewrite Hwant, andb_false_r. by apply rholds_true. }
  destruct (want key) eqn:Ew.
  - destruct (lookup (ban_entry want <$> _) _) as [i|]; [|done].
    by destruct (proj1 (Hlk i) eq_refl).
  - assert (lookup (ban_entry want <$> entries r) (hashed key) = lookup (entries r) (hashed key)) as ->.
    { apply option_eq. intros i. rewrite Hlk. tauto. }
    destruct (lookup (entries r) (hashed key)) as [i|] eqn:E; [|done].
    assert (ban_entry want (entries r !!! i) = entries r !!! i) as Hb.
    { pose proof (proj2 (Hlk i) (conj eq_refl eq_refl)) as Hl2.
      apply lookup_iff in Hl2; [|done]. rewrite Ht in Hl2. apply rholds_true in Hl2.
      unfold ban_entry in *. case_bool; [|done]. cbn [state set_state] in Hl2. lia. }
    by rewrite Ht, Hb.
Qed.

(** [purge_url] takes away exactly the pages of that URL (both methods, the host in any
    case, every variant, every query string unless one is given) and no page whose path merely
    starts with the purged one; it counts the entries it dropped. *)
Theorem purge_url_exact r host path query :
  rwf (entries r) ->
  exists r', purge_url (Some r) host path query
             = (length (filter (fun e => wanted (purge_wants host path query) e = true) (entries r)),
                Some r')
    /\ rwf (entries r')
    /\ forall method khost pq variants now,
       0 ∉ method -> 0 ∉ khost -> 0 ∉ pq ->
       let key := url_key method khost pq variants in
       (length key <= KEY_MAX)%nat -> owned r key ->
       (purged host path query method khost pq -> view hash_key r' key now = None)
       /\ (~ purged host path query method khost pq -> view hash_key r' key now = view hash_key r key now).
Proof.
  intros Hw. destruct (scan_spec r (purge_wants host path query) Hw) as (r' & E & Hw' & Hv).
  exists r'. split; [done|]. split; [done|]. intros method khost pq variants now Hm Hh Hp key Hl Ho.
  rewrite (Hv key now Hl Ho).
  pose proof (purge_wants_iff host path query method khost pq variants Hm Hh Hp) as Hiff.
  fold key in Hiff. destruct (purge_wants _ _ _ _).
  - split; [done|]. intros Hn. exfalso. apply Hn. by apply Hiff.
  - split; [|done]. intros Hpu. by apply Hiff in Hpu.
Qed.

(** [ban_glob]'s reading of a key. *)
Lemma ban_wants_url host pattern method khost pq variants :
  0 ∉ method -> 0 ∉ khost -> 0 ∉ pq ->
  ban_wants host pattern (url_key method khost pq variants)
  = purge_method method && eq_ignore_ascii_case khost host && from_utf8_ok (path_of pq)
    && glob_match pattern (path_of pq).
Proof.
  intros Hm Hh Hp. unfold ban_wants. rewrite key_parts_url by done.
  destruct (purge_method _); [|done]. by destruct (eq_ignore_ascii_case _ _).
Qed.

(** [ban_glob] takes away only pages of the host whose path, the query left out, matches
    the pattern, and all of those whose path is UTF-8 without a literal [*]. *)
Theorem ban_glob_exact r host pattern :
  rwf (entries r) ->
  exists r', ban_glob (Some r) host pattern
             = (length (filter (fun e => wanted (ban_wants host pattern) e = true) (entries r)),
                Some r')
    /\ rwf (entries r')
    /\ forall method khost pq variants now,
       0 ∉ method -> 0 ∉ khost -> 0 ∉ pq -> from_utf8_ok (path_of pq) = true ->
       let key := url_key method khost pq variants in
       let banned := (method = lit "GET" \/ method = lit "HEAD")
                     /\ to_ascii_lowercase khost = to_ascii_lowercase host
                     /\ Glob pattern (path_of pq) in
       (length key <= KEY_MAX)%nat -> owned r key ->
       (~ banned -> view hash_key r' key now = view hash_key r key now)
       /\ (STAR ∉ path_of pq -> banned -> view hash_key r' key now = None).
Proof.
  intros Hw. destruct (scan_spec r (ban_wants host pattern) Hw) as (r' & E & Hw' & Hv).
  exists r'. split; [done|]. split; [done|].
  intros method khost pq variants now Hm Hh Hp Hu key banned Hl Ho.
  rewrite (Hv key now Hl Ho). unfold key. rewrite ban_wants_url by done. rewrite Hu, andb_true_r.
  destruct (glob_match_loop pattern (path_of pq)) as [Hloop Hg].
  unfold banned. rewrite <- purge_method_iff, <- eq_ignore_iff.
  destruct (purge_method method); cbn [andb]; [|by split; [|intros _ [? _]]].
  destruct (eq_ignore_ascii_case khost host); cbn [andb]; [|by split; [|intros _ (_ & ? & _)]].
  destruct (glob_match pattern (path_of pq)) eqn:Em.
  - split; [|done]. intros Hn. exfalso. apply Hn. split_and!; [done|done|].
    by apply glob_loop_sound in Hloop as [H|(? & ? & ? & ? & [=] & _)].
  - split; [done|]. intros Hs (_ & _ & Hgl). by apply (Hg Hs) in Hgl.
Qed.

(** [flush_app] leaves no page of the application to serve, and changes no slot that
    holds another's. *)
Theorem flush_app_clears r a :
  rwf (entries r) ->
  exists r', flush_app (Some r) a = Some r'
    /\ (forall i, app (entries r !!! i) <> as_str a -> entries r' !!! i = entries r !!! i)
    /\ (forall key i now, lookup (entries r) (hashed key) = Some i ->
         app (entries r !!! i) = as_str a -> view hash_key r' key now = None).
Proof.
  intros Hw. eexists. split; [reflexivity|].
  set (f := fun e => if beq (app e) (as_str a) then set_state e 0 else e).
  assert (forall e, app e <> as_str a -> f e = e) as Hf.
  { intros e He. unfold f. destruct (beq _ _) eqn:Eb; [|done]. by apply beq_true in Eb. }
  cbn [entries set_entries]. split.
  - intros i Ha. rewrite !list_lookup_total_alt, list_lookup_fmap.
    rewrite list_lookup_total_alt in Ha. destruct (entries r !! i); [|done]. by apply Hf.
  - intros key i now Hl Ha. rewrite view_spec. cbn [entries set_entries].
    destruct (lookup (f <$> _) _) as [j|] eqn:Ej; [|done]. exfalso.
    apply probe_find_Some in Ej as (_ & [Hs Hk]%rholds_true & _).
    rewrite list_lookup_total_alt, list_lookup_fmap in Hs, Hk.
    destruct (entries r !! j) as [e|] eqn:Ee; [|done]. cbn in Hs, Hk.
    destruct (beq (app e) (as_str a)) eqn:Eb; unfold f in Hs, Hk; rewrite Eb in Hs, Hk; [done|].
    apply lookup_lookup_total in Ee. subst e.
    assert (lookup (entries r) (hashed key) = Some j) as Hj
      by (apply lookup_iff; [done|by apply rholds_true]).
    assert (j = i) as -> by congruence. rewrite Ha, beq_refl in Eb. done.
Qed.
End Url.

(** A hasher under which two pages share their home slot. *)
Definition two_pages_hash (b : bytes) : Z := if beq b (lit "a") then 16 else 32.

(** "And nobody else's" does not hold of what other applications can read: the flushed
    slots become empty, which ends their probe chains, so a page of application B that was
    stored behind a page of A is lost to every later lookup, though its slot still holds it. *)
Theorem flush_app_hides_others :
  let A := mkApp (lit "aaaaaaaaaaaaaaaa") in let B := mkApp (lit "bbbbbbbbbbbbbbbb") in
  let r0 := init None 16 true in
  let r1 := (store two_pages_hash r0 (lit "a") 200 [] [1] 60 0 0 [] (Some A) 1000).2 in
  let r2 := (store two_pages_hash r1 (lit "b") 200 [] [2] 60 0 0 [] (Some B) 1000).2 in
  let r3 := flush_app r2 A in
  (get two_pages_hash r2 (lit "b") 1001).1 = Some (mkCached 200 [] [2] false false)
  /\ (get two_pages_hash r3 (lit "b") 1001).1 = None
  /\ exists e, e ∈ default [] (entries <$> r3) /\ app e = app_bytes B /\ state e = 1.
Proof.
  cbv zeta. split; [by vm_compute|]. split; [by vm_compute|].
  eexists. split; [apply (list_elem_of_lookup_2 _ 1); by vm_compute|]. by vm_compute.
Qed.

(** ** Dump and restore *)

Lemma restore_entry_live now e h :
  holds h (restore_entry now e) = true -> holds h e = true /\ past_retain e now = false.
Proof.
  intros [Hs Hk]%rholds_true. rewrite rholds_true. unfold restore_entry in *. cbn zeta in *.
  change (past_retain (mkEntry 0 (state e) (key_hash e) (expires_at e) (stale_until e)
    (error_until e) (status e) (app e) (key_bytes e) (tags e) (hdr e) (body e)) now)
    with (past_retain e now) in *.
  cbn [state] in *. destruct (Z.eqb_spec (state e) 1); cbn [negb] in *; [|done].
  by destruct (past_retain e now).
Qed.

Lemma restore_entry_same now e :
  past_retain (restore_entry now e) = past_retain e
  /\ (forall tt, tag_invalid tt (restore_entry now e) = tag_invalid tt e)
  /\ serve (restore_entry now e) = serve e /\ key_hash (restore_entry now e) = key_hash e.
Proof. unfold restore_entry. cbn zeta. repeat case_bool; done. Qed.

Lemma restore_entry_kept now e :
  state e <> 1 \/ past_retain e now = false -> state (restore_entry now e) = state e.
Proof.
  intros He. unfold restore_entry. cbn zeta.
  change (past_retain (mkEntry 0 (state e) (key_hash e) (expires_at e) (stale_until e)
    (error_until e) (status e) (app e) (key_bytes e) (tags e) (hdr e) (body e)) now)
    with (past_retain e now).
  cbn [state]. destruct (Z.eqb_spec (state e) 1); cbn [negb]; [|done].
  destruct He as [?| ->]; done.
Qed.

(** A dump read back into a cache of the same size, for the same application stamp,
    restores every tag generation and serves only what the dumped cache would have served, byte
    for byte; all of it, when nothing had expired by then.  For another stamp or another size
    nothing is loaded. *)
Theorem restore_serves_what_was_saved hash_key r r0 stamp stamp' saved boot :
  rwf (entries r) ->
  let file := (dump (Some r) stamp saved).2 in
  (length (entries r0) <> length (entries r) \/ stamp' <> stamp ->
     restore (Some r0) file stamp' boot = (0%nat, Some r0))
  /\ (length (entries r0) = length (entries r) ->
      exists r', restore (Some r0) file stamp boot = (live_count (entries r) boot, Some r')
        /\ tag_slots r' = tag_slots r
        /\ (forall key now c, view hash_key r' key now = Some c -> view hash_key r key now = Some c)
        /\ (Forall (fun e => state e <> 1 \/ past_retain e boot = false) (entries r) ->
            forall key now, view hash_key r' key now = view hash_key r key now)).
Proof.
  intros Hw file. subst file. cbn [dump snd]. split.
  - intros Hne. cbn [restore with_rc d_header d_image magic dversion entry_size dslots dtag_slots app_stamp].
    rewrite beq_refl, !Z.eqb_refl. cbn [negb orb].
    destruct (Z.eqb_spec (Z.of_nat (length (entries r))) (Z.of_nat (length (entries r0)))) as [E|E];
      cbn [negb orb]; [|done].
    destruct (Z.eqb_spec stamp stamp'); [|done]. destruct Hne; [lia|congruence].
  - intros Hl. cbn [restore with_rc d_header d_image magic dversion entry_size dslots dtag_slots app_stamp].
    rewrite beq_refl, Hl, !Z.eqb_refl. cbn [negb orb]. eexists. split; [reflexivity|].
    split; [done|].
    assert (forall i, (restore_entry boot <$> entries r) !!! i = restore_entry boot (entries r !!! i)) as Ht
      by (intros i; by apply lookup_total_fmap).
    assert (forall now i, dead (set_tags (set_entries r0 (restore_entry boot <$> entries r)) (tag_slots r))
              now (restore_entry boot (entries r !!! i)) = dead r now (entries r !!! i)
            /\ serve (restore_entry boot (entries r !!! i)) now = serve (entries r !!! i) now) as Hsame.
    { intros now i. destruct (restore_entry_same boot (entries r !!! i)) as (E1 & E2 & E3 & _).
      unfold dead. cbn [tag_slots set_tags]. by rewrite E1, E2, E3. }
    split.
    + intros key now c. rewrite !view_spec. cbn [entries set_entries set_tags].
      destruct (lookup (restore_entry boot <$> _) _) as [i|] eqn:Ei; [|done].
      apply probe_find_Some in Ei as (_ & Hh & _). rewrite Ht in *.
      apply restore_entry_live in Hh as [Hh _].
      rewrite (proj2 (lookup_iff _ _ _ Hw) Hh). by destruct (Hsame now i) as [-> ->].
    + intros Hall key now. rewrite !view_spec. cbn [entries set_entries set_tags].
      assert (forall i, state (restore_entry boot (entries r !!! i)) = state (entries r !!! i)) as Hst.
      { intros i. apply restore_entry_kept. destruct (decide (i < length (entries r))%nat).
        - rewrite Forall_lookup in Hall. apply (Hall i). by apply lookup_total_lookup.
        - left. by rewrite list_lookup_total_alt, lookup_ge_None_2 by lia. }
      assert (lookup (restore_entry boot <$> entries r) (hash_bytes hash_key key)
              = lookup (entries r) (hash_bytes hash_key key)) as ->.
      { unfold lookup, win. rewrite length_fmap. apply probe_find_ext. intros j _.
        unfold holds. rewrite Ht, Hst.
        by destruct (restore_entry_same boot (entries r !!! j)) as (_ & _ & _ & ->). }
      destruct (lookup _ _) as [i|]; [|done]. rewrite Ht. by destruct (Hsame now i) as [-> ->].
Qed.

(** ** The theorems at work *)

(** [GET a.no /p?x] and [GET a.no /pq], stored by one application. *)
Definition url_p : bytes := url_key (lit "GET") (lit "a.no") (lit "/p?x") [0; 0].
Definition url_pq : bytes := url_key (lit "GET") (lit "a.no") (lit "/pq") [0; 0].
Definition app_a : App := mkApp (lit "aaaaaaaaaaaaaaaa").
Definition put (r : rcache) (key : bytes) : rcache :=
  default empty_rc (store flat_hash (Some r) key 200 [] [1] 60 0 0 [] (Some app_a) 1000).2.
Definition two_rc : rcache := put (put empty_rc url_p) url_pq.

Lemma put_rwf r key : rwf (entries r) -> rwf (entries (put r key)).
Proof.
  intros Hw. assert (store flat_hash (Some r) key 200 [] [1] 60 0 0 [] (Some app_a) 1000
    = (true, Some (put r key))) as Hs by (apply store_ok; rewrite store_spec; reflexivity).
  destruct (store_cases _ _ _ _ _ _ _ _ _ _ _ _ _ _ Hs) as [(_ & _ & _ & x & y & z & _ & ->)|(? & _)];
    [|done].
  apply store_rwf; [done|apply hashed_u64, flat_hash_u64|done|done].
Qed.

Lemma two_rc_rwf : rwf (entries two_rc).
Proof. apply put_rwf, put_rwf. apply (rwf_init 16). lia. Qed.

Lemma url_p_owned : owned flat_hash two_rc url_p.
Proof. intros i. vm_compute. by intros [= <-]. Qed.
Lemma url_pq_owned : owned flat_hash two_rc url_pq.
Proof. intros i. vm_compute. by intros [= <-]. Qed.

Lemma purge_url_exact_witness :
  exists r', purge_url (Some two_rc) (lit "A.no") (lit "/p") None = (1%nat, Some r')
    /\ view flat_hash r' url_p 1001 = None
    /\ view flat_hash r' url_pq 1001 = Some (mkCached 200 [] [1] false false).
Proof.
  destruct (purge_url_exact flat_hash two_rc (lit "A.no") (lit "/p") None two_rc_rwf)
    as (r' & E & _ & H).
  exists r'. split; [rewrite E; vm_compute; reflexivity|]. split.
  - apply (H (lit "GET") (lit "a.no") (lit "/p?x") [0; 0] 1001);
      [by apply (bool_decide_unpack _); vm_compute..|by vm_compute; lia|exact url_p_owned|].
    split; [by left|]. split; [by vm_compute|]. right. by exists [120].
  - etrans; [apply (H (lit "GET") (lit "a.no") (lit "/pq") [0; 0] 1001);
      [by apply (bool_decide_unpack _); vm_compute..|by vm_compute; lia|exact url_pq_owned|]
      |vm_compute; reflexivity].
    intros (_ & _ & [?|(q & Hq)]); [done|]. by destruct q.
Defined.

Lemma ban_glob_exact_witness :
  exists r', ban_glob (Some two_rc) (lit "a.no") (lit "/p?") = (1%nat, Some r')
    /\ view flat_hash r' url_pq 1001 = None.
Proof.
  destruct (ban_glob_exact flat_hash two_rc (lit "a.no") (lit "/p?") two_rc_rwf)
    as (r' & E & _ & H).
  exists r'. split; [rewrite E; vm_compute; reflexivity|].
  apply (H (lit "GET") (lit "a.no") (lit "/pq") [0; 0] 1001);
    [by apply (bool_decide_unpack _); vm_compute..|done|by vm_compute; lia|exact url_pq_owned| |].
  - by apply (bool_decide_unpack _); vm_compute.
  - split; [by left|]. split; [done|]. vm_compute. repeat constructor; done.
Defined.

Lemma flush_app_clears_witness :
  exists r', flush_app (Some two_rc) app_a = Some r' /\ view flat_hash r' url_p 1001 = None.
Proof.
  destruct (flush_app_clears flat_hash two_rc app_a two_rc_rwf) as (r' & E & _ & H).
  exists r'. split; [exact E|].
  assert (exists i, lookup (entries two_rc) (hash_bytes flat_hash url_p) = Some i
                    /\ app (entries two_rc !!! i) = as_str app_a) as (i & Hl & Ha).
  { eexists. split; [vm_compute; reflexivity|]. by vm_compute. }
  by apply (H url_p i 1001).
Defined.

Lemma restore_serves_what_was_saved_witness :
  exists r', restore (Some empty_rc) (dump (Some two_rc) 7 1010).2 7 1020 = (2%nat, Some r')
    /\ view flat_hash r' url_p 1030 = Some (mkCached 200 [] [1] false false).
Proof.
  destruct (restore_serves_what_was_saved flat_hash two_rc empty_rc 7 7 1010 1020 two_rc_rwf)
    as (_ & H).
  destruct H as (r' & E & _ & _ & H); [by vm_compute|].
  exists r'. split; [rewrite E; f_equal; by vm_compute|].
  rewrite H; [by vm_compute|]. apply (bool_decide_unpack _). by vm_compute.
Defined.
