(* ===== verification/Coalesce.v ===== *)
(** Request coalescing ([begin], [is_inflight], [end] of [rcache.rs]): one slot per key hash,
    claimed by a compare-and-swap, with a deadline after which a crashed leader is replaced.

    [begin] is given twice: as the function it is when nobody else touches the slot, and as the
    sequence of atomic accesses it is, for callers that race. *)

From S2P Require Import Prelude Bytes RCache.

Definition INFLIGHT_SLOTS : nat := 4096.
Definition COALESCE_TTL : Z := 30.

(** [struct Inflight]; key hash 0 is a free slot. *)
Record Inflight := mkIn { ikey : Z; deadline : Z }.
#[export] Instance Inflight_eq_dec : EqDecision Inflight.
Proof. solve_decision. Defined.
#[export] Instance Inflight_inhabited : Inhabited Inflight := populate (mkIn 0 0).

Inductive Lead := Leader | Follower.

(** ** One slot, one caller at a time *)

Definition begin_slot (s : Inflight) (h now : Z) : Lead * Inflight :=
  if (ikey s =? h) && (now <? deadline s) then (Follower, s)
  else if (ikey s =? 0) || (deadline s <=? now)
       then (Leader, mkIn h (wrap64 (now + COALESCE_TTL)))
       else (Leader, s).
Definition inflight_slot (s : Inflight) (h now : Z) : bool := (ikey s =? h) && (now <? deadline s).
Definition end_slot (s : Inflight) (h : Z) : Inflight := if ikey s =? h then mkIn 0 0 else s.

(** ** The table; [None] while it is not mapped *)

Definition slot_of (h : Z) : nat := Z.to_nat (h mod Z.of_nat INFLIGHT_SLOTS).

Section Table.
Context (hash_key : bytes -> Z).
Abbreviation hashed := (hash_bytes hash_key).

Definition begin (t : option (list Inflight)) (key : bytes) (now : Z)
    : Lead * option (list Inflight) :=
  match t with
  | None => (Leader, None)
  | Some t =>
      let h := hashed key in
      let '(l, s) := begin_slot (t !!! slot_of h) h now in (l, Some (<[slot_of h := s]> t))
  end.

Definition is_inflight (t : option (list Inflight)) (key : bytes) (now : Z) : bool :=
  match t with
  | None => false
  | Some t => inflight_slot (t !!! slot_of (hashed key)) (hashed key) now
  end.

Definition end_ (t : option (list Inflight)) (key : bytes) : option (list Inflight) :=
  (fun t => <[slot_of (hashed key) := end_slot (t !!! slot_of (hashed key)) (hashed key)]> t) <$> t.
End Table.

(** ** [begin], access by access *)

Inductive call :=
| LoadKey (h now : Z)
| CheckLive (h now kh : Z)       (* [kh] loaded: is its deadline ahead? *)
| CheckDead (h now kh : Z)
| Cas (h now kh : Z)
| StoreDeadline (h now : Z)
| LoadAgain (h now : Z)
| Returned (l : Lead).

Definition call_step (s : Inflight) (c : call) : call * Inflight :=
  match c with
  | LoadKey h now =>
      (if ikey s =? h then CheckLive h now (ikey s) else
       if ikey s =? 0 then Cas h now (ikey s) else CheckDead h now (ikey s), s)
  | CheckLive h now kh =>
      (if now <? deadline s then Returned Follower
       else if kh =? 0 then Cas h now kh else CheckDead h now kh, s)
  | CheckDead h now kh => (if deadline s <=? now then Cas h now kh else Returned Leader, s)
  | Cas h now kh =>
      if ikey s =? kh then (StoreDeadline h now, mkIn h (deadline s)) else (LoadAgain h now, s)
  | StoreDeadline h now => (Returned Leader, mkIn (ikey s) (wrap64 (now + COALESCE_TTL)))
  | LoadAgain h _ => (Returned (if ikey s =? h then Follower else Leader), s)
  | Returned l => (Returned l, s)
  end.

(** Callers on one slot; a schedule names who goes next. *)
Definition calls_step (st : Inflight * list call) (j : nat) : Inflight * list call :=
  match st.2 !! j with
  | Some c => let '(c', s') := call_step st.1 c in (s', <[j := c']> st.2)
  | None => st
  end.
Definition run_calls (st : Inflight * list call) (sched : list nat) := fold_left calls_step sched st.

Fixpoint call_alone (n : nat) (s : Inflight) (c : call) : call * Inflight :=
  match n with
  | O => (c, s)
  | S n' => let '(c', s') := call_step s c in call_alone n' s' c'
  end.

(** Undisturbed, the accesses are the function. *)
Lemma call_alone_begin s h now :
  h <> 0 -> call_alone 5 s (LoadKey h now)
  = let '(l, s') := begin_slot s h now in (Returned l, s').
Proof.
  intros Hh. destruct s as [k d]. unfold begin_slot. cbn [ikey deadline].
  destruct (k =? h) eqn:Ek, (now <? d) eqn:El, (k =? 0) eqn:E0, (d <=? now) eqn:Ed;
    zbool; try lia; cbn [andb orb];
    repeat (cbn; rewrite ?(proj2 (Z.eqb_eq k k) eq_refl);
      repeat match goal with
      | |- context [?x =? ?y] => destruct (Z.eqb_spec x y); try lia
      | |- context [?x <? ?y] => destruct (Z.ltb_spec x y); try lia
      | |- context [?x <=? ?y] => destruct (Z.leb_spec x y); try lia
      end); try done; congruence.
Qed.

Section Spec.
Context (hash_key : bytes -> Z).
Abbreviation hashed := (hash_bytes hash_key).

Lemma hash_ne b : hashed b <> 0.
Proof. unfold hash_bytes. case_bool; [done|]. by apply Z.eqb_neq. Qed.

Lemma slot_lt h (t : list Inflight) : length t = INFLIGHT_SLOTS -> (slot_of h < length t)%nat.
Proof.
  intros ->. unfold slot_of.
  pose proof (Z.mod_pos_bound h (Z.of_nat INFLIGHT_SLOTS) eq_refl). lia.
Qed.

(** One caller at a time: [begin] follows exactly when the key is in flight; a leader that
    found its slot free or timed out puts the key in flight for thirty seconds, during which
    every other caller of that key follows and a colliding key leads uncoalesced without
    disturbing it; at [end], or after the thirty seconds, the next caller leads. *)
Theorem begin_coalesces t key now t' l :
  length t = INFLIGHT_SLOTS -> 0 <= now -> now + COALESCE_TTL < W64 ->
  begin hash_key (Some t) key now = (l, Some t') ->
  length t' = INFLIGHT_SLOTS
  /\ (l = Follower <-> is_inflight hash_key (Some t) key now = true)
  /\ (l = Leader ->
      let s := t !!! slot_of (hashed key) in
      if (ikey s =? 0) || (deadline s <=? now) then
        (forall at_, is_inflight hash_key (Some t') key at_ = (at_ <? now + COALESCE_TTL))
        /\ (forall other at_, slot_of (hashed other) = slot_of (hashed key) ->
            hashed other <> hashed key -> at_ < now + COALESCE_TTL ->
            begin hash_key (Some t') other at_ = (Leader, Some t'))
      else t' = t)
  /\ (forall at_, is_inflight hash_key (end_ hash_key (Some t') key) key at_ = false).
Proof.
  intros Hl H0 Hb E. unfold begin in E. set (h := hashed key) in *.
  pose proof (hash_ne key) as Hh. fold h in Hh.
  pose proof (slot_lt h t Hl) as Hlt. set (s := t !!! slot_of h) in *.
  destruct (begin_slot s h now) as [l' s'] eqn:Es. injection E as <- <-.
  assert (<[slot_of h := s']> t !!! slot_of h = s') as Hs'
    by by apply list_lookup_total_insert_eq.
  split; [by rewrite length_insert|]. split; [|split].
  - unfold is_inflight. fold h s. unfold inflight_slot, begin_slot in *.
    destruct ((ikey s =? h) && _); [by injection Es as <- _|].
    destruct (_ || _); by injection Es as <- _.
  - intros ->. cbv zeta. fold s. unfold begin_slot in Es.
    destruct ((ikey s =? h) && (now <? deadline s)); [done|].
    destruct ((ikey s =? 0) || (deadline s <=? now)).
    + injection Es as <-. rewrite wrap64_id in * by (words; unfold COALESCE_TTL in *; lia). split.
      * intros at_. unfold is_inflight. fold h. rewrite Hs'. unfold inflight_slot.
        cbn [ikey deadline]. by rewrite Z.eqb_refl.
      * intros other at_ Hsl Hne Hat. unfold begin. rewrite Hsl, Hs'.
        unfold begin_slot. cbn [ikey deadline].
        apply not_eq_sym, Z.eqb_neq in Hne. rewrite Hne. apply Z.eqb_neq in Hh. rewrite Hh.
        cbn [andb orb]. replace (now + COALESCE_TTL <=? at_) with false by (symmetry; apply Z.leb_gt; lia).
        by rewrite list_insert_insert_eq.
    + injection Es as <-. apply list_insert_id. by apply lookup_total_lookup.
  - intros at_. unfold end_, is_inflight. cbn [fmap option_fmap option_map]. fold h.
    rewrite list_lookup_total_insert_eq by by rewrite length_insert.
    rewrite Hs'. unfold end_slot, inflight_slot.
    destruct (ikey s' =? h) eqn:Ek; [|by rewrite Ek]. cbn [ikey].
    apply not_eq_sym, Z.eqb_neq in Hh. by rewrite Hh.
Qed.

End Spec.

Lemma begin_coalesces_witness :
  begin (fun _ => 5) (Some (replicate INFLIGHT_SLOTS (mkIn 0 0))) [1] 100
    = (Leader, (begin (fun _ => 5) (Some (replicate INFLIGHT_SLOTS (mkIn 0 0))) [1] 100).2)
  /\ forall t', begin (fun _ => 5) (Some (replicate INFLIGHT_SLOTS (mkIn 0 0))) [1] 100
                = (Leader, Some t') -> is_inflight (fun _ => 5) (end_ (fun _ => 5) (Some t') [1]) [1] 101 = false.
Proof.
  split.
  - unfold begin.
    assert (replicate INFLIGHT_SLOTS (mkIn 0 0) !!! slot_of (hash_bytes (fun _ => 5) [1]) = mkIn 0 0) as ->.
    { apply lookup_lookup_total. apply lookup_replicate_2.
      pose proof (slot_lt (hash_bytes (fun _ => 5) [1]) (replicate INFLIGHT_SLOTS (mkIn 0 0)) (length_replicate _ _)) as Hl.
      by rewrite length_replicate in Hl. }
    unfold begin_slot. cbn [ikey deadline]. pose proof (hash_ne (fun _ => 5) [1]) as Hh.
    apply not_eq_sym, Z.eqb_neq in Hh. by rewrite Hh.
  - intros t' E.
    destruct (begin_coalesces (fun _ => 5) _ [1] 100 t' Leader (length_replicate _ _) ltac:(lia) ltac:(done) E)
      as (_ & _ & _ & H). apply H.
Defined.

(** "All-but-one concurrent callers become Followers" fails for callers that race: the
    hash is published before the deadline, and a caller that reads the slot in between finds
    the key with a deadline already past, swaps the hash for itself and leads too. *)
Theorem begin_race_two_leaders h now :
  0 < h -> 0 <= now ->
  exists sched,
    (run_calls (mkIn 0 0, [LoadKey h now; LoadKey h now]) sched).2 = [Returned Leader; Returned Leader].
Proof.
  intros Hh Hn. exists [0; 0; 1; 1; 1; 1; 1; 0]%nat.
  unfold run_calls. cbn [fold_left]. unfold calls_step.
  assert ((0 =? h) = false) as E1 by (apply Z.eqb_neq; lia).
  assert ((h =? 0) = false) as E2 by (apply Z.eqb_neq; lia).
  assert ((now <? 0) = false) as E3 by (apply Z.ltb_ge; lia).
  assert ((0 <=? now) = true) as E4 by (apply Z.leb_le; lia).
  repeat (cbn -[Z.eqb Z.ltb Z.leb]; rewrite ?E1, ?E2, ?E3, ?E4, ?Z.eqb_refl). done.
Qed.

Lemma begin_race_two_leaders_witness :
  exists sched,
    (run_calls (mkIn 0 0, [LoadKey 9 100; LoadKey 9 100]) sched).2 = [Returned Leader; Returned Leader].
Proof. apply (begin_race_two_leaders 9 100); lia. Defined.
