(* ===== verification/SQueue.v ===== *)
(** The shared-memory job queue ([squeue.rs]): a fixed table of jobs, leases that fence stale
    workers, delayed and retried jobs, the per-queue liveness lanes and the reports.

    Each operation runs here with nobody else in the table; [SQueueCrash] lets a pusher die at
    any store, [SQueueRace] interleaves the operations slot by slot. *)

From S2P Require Import Prelude Bytes Ns.

Definition PAYLOAD_MAX : nat := (32 * 1024)%nat.
Definition QUEUE_NAME_MAX : nat := 96.
Definition LANES : nat := 64.

(** [struct Job]: [name] and [payload] are the buffers up to their lengths. *)
Record job := mkJob {
  id : Z;              (* 0 = free slot *)
  queue_hash : Z;
  available_at : Z;    (* unix ms *)
  reserved_until : Z;  (* unix ms, 0 = not reserved *)
  lease : Z;           (* 0 = nobody holds it *)
  created_at : Z;
  name : bytes;
  attempts : Z;
  payload : bytes }.
Definition free_job : job := mkJob 0 0 0 0 0 0 [] 0 [].
#[export] Instance job_inhabited : Inhabited job := populate free_job.

(** [struct Lane]; hash 0 is a free entry. *)
Record lane := mkLane {
  lhash : Z; last_polled_ms : Z; last_drained_ms : Z; lname : bytes }.
#[export] Instance lane_inhabited : Inhabited lane := populate (mkLane 0 0 0 []).

(** The mapped ring: the header's counters and lanes, and the slots. *)
Record ring := mkRing {
  next_id : Z; next_lease : Z; lanes : list lane; jobs : list job }.

(** [ring_bytes(slots.max(16))] zeroed bytes. *)
Definition new_ring (slots : Z) : ring :=
  mkRing 0 0 (replicate LANES (mkLane 0 0 0 [])) (replicate (Z.to_nat (Z.max slots 16)) free_job).
Definition init (q : option ring) (slots : Z) (mmap_ok : bool) : option ring :=
  match q with Some r => Some r | None => if mmap_ok then Some (new_ring slots) else None end.
Definition enabled (q : option ring) : bool := bool_decide (is_Some q).

Definition set_jobs (r : ring) (js : list job) : ring := mkRing (next_id r) (next_lease r) (lanes r) js.
Definition set_lanes (r : ring) (ls : list lane) : ring := mkRing (next_id r) (next_lease r) ls (jobs r).

(** ** Lanes *)

Definition lane_hash (qh : Z) : Z := if qh =? 0 then 1 else qh.
Definition lane_window (qh : Z) : list nat :=
  (fun i => Z.to_nat ((qh mod Z.of_nat LANES + i) mod Z.of_nat LANES)) <$> seqZ 0 (Z.of_nat LANES).

Definition claim_lane (l : lane) (qh : Z) (nm : bytes) : lane :=
  mkLane qh (last_polled_ms l) (last_drained_ms l) (take QUEUE_NAME_MAX nm).

(** [lane_for] once nobody races for the entry: its index, and the lanes with it claimed. *)
Fixpoint lane_loop (ls : list lane) (qh : Z) (nm : bytes) (w : list nat) : option nat * list lane :=
  match w with
  | [] => (None, ls)
  | i :: w' =>
      if lhash (ls !!! i) =? qh then (Some i, ls)
      else if lhash (ls !!! i) =? 0 then (Some i, <[i := claim_lane (ls !!! i) qh nm]> ls)
      else lane_loop ls qh nm w'
  end.
Definition lane_for (ls : list lane) (qh : Z) (nm : bytes) : option nat * list lane :=
  lane_loop ls (lane_hash qh) nm (lane_window (lane_hash qh)).

Definition mark_polled (r : ring) (qh : Z) (nm : bytes) (now : Z) : ring :=
  match lane_for (lanes r) qh nm with
  | (Some i, ls) =>
      set_lanes r (<[i := mkLane (lhash (ls !!! i)) now (last_drained_ms (ls !!! i)) (lname (ls !!! i))]> ls)
  | (None, ls) => set_lanes r ls
  end.
Definition mark_drained (r : ring) (qh : Z) (nm : bytes) (now : Z) : ring :=
  match lane_for (lanes r) qh nm with
  | (Some i, ls) =>
      set_lanes r (<[i := mkLane (lhash (ls !!! i)) (last_polled_ms (ls !!! i)) now (lname (ls !!! i))]> ls)
  | (None, ls) => set_lanes r ls
  end.

Record LaneStats := mkLaneStats {
  ls_app : option App; ls_name : bytes; ls_polled : Z; ls_drained : Z }.
Definition app_cmp (a b : option App) : comparison :=
  option_cmp (fun x y => bytes_cmp (app_bytes x) (app_bytes y)) a b.

(** [lanes()]: claimed lanes whose name is published, by name and application. *)
Definition lane_stats (q : option ring) : list LaneStats :=
  match q with
  | None => []
  | Some r =>
      sort_by (fun a b => then_with (bytes_cmp (ls_name a) (ls_name b)) (app_cmp (ls_app a) (ls_app b)))
        (omap (fun l =>
           if (lhash l =? 0) || bool_decide (lname l = []) then None
           else let '(a, n) := split (lname l) in
                Some (mkLaneStats a (from_utf8_lossy n) (last_polled_ms l) (last_drained_ms l)))
         (lanes r))
  end.

(** ** Readiness *)

Definition ready (j : job) (now : Z) : bool :=
  (available_at j <=? now) && ((reserved_until j =? 0) || (reserved_until j <=? now)).

(** [now + seconds * 1000], saturating. *)
Definition after_secs (now secs : Z) : Z := sat_add64 now (sat_mul64 secs 1000).

Section Ops.
(** The standard library's hasher. *)
Context (hash_q : bytes -> Z).
Implicit Types (cur : option App).

(** ** [push] *)

Definition probe_slots (start slots : nat) : list nat :=
  (fun i => ((start + i) mod slots)%nat) <$> seq 0 slots.

Fixpoint find_free (js : list job) (w : list nat) : option nat :=
  match w with
  | [] => None
  | i :: w' => if id (js !!! i) =? 0 then Some i else find_free js w'
  end.

Definition pushed (i : Z) (queue pl : bytes) (created avail : Z) : job :=
  mkJob i (hash_q queue) avail 0 0 created (take QUEUE_NAME_MAX queue) 0 pl.

(** 0 is "not queued": no ring, too large, or every slot occupied. *)
Definition push cur (q : option ring) (queue pl : bytes) (delay now : Z) : Z * option ring :=
  let queue := Ns.key cur queue in
  match q with
  | None => (0, None)
  | Some r =>
      if (PAYLOAD_MAX <? length pl)%nat then (0, Some r)
      else
        let i := wrap64 (next_id r + 1) in
        let r := mkRing i (next_lease r) (lanes r) (jobs r) in
        let slots := length (jobs r) in
        let start := Z.to_nat (i mod Z.of_nat slots) in
        match find_free (jobs r) (probe_slots start slots) with
        | Some k => (i, Some (set_jobs r (<[k := pushed i queue pl now (after_secs now delay)]> (jobs r))))
        | None => (0, Some r)
        end
  end.

(** ** [pop] *)

Record Reserved := mkReserved { r_lease : Z; r_attempts : Z; r_payload : bytes }.

Definition better (avail i : Z) (best : option (nat * Z * Z)) : bool :=
  match best with
  | None => true
  | Some (_, ba, bid) => (avail <? ba) || (avail =? ba) && (i <? bid)
  end.

(** The first pass, over the slots [w]. *)
Fixpoint pop_scan (js : list job) (qh now : Z) (w : list nat) (best : option (nat * Z * Z))
    : option (nat * Z * Z) :=
  match w with
  | [] => best
  | k :: w' =>
      let j := js !!! k in
      if (id j =? 0) || negb (queue_hash j =? qh) then pop_scan js qh now w' best
      else if ready j now && better (available_at j) (id j) best
           then pop_scan js qh now w' (Some (k, available_at j, id j))
           else pop_scan js qh now w' best
  end.

Definition reserve (j : job) (l until : Z) : job :=
  mkJob (id j) (queue_hash j) (available_at j) until l (created_at j) (name j)
    ((attempts j + 1) mod 2 ^ 32) (payload j).

(** The second pass, under the chosen slot's lock. *)
Definition pop_commit (r : ring) (queue : bytes) (visibility now : Z) (k : nat) (want_id : Z)
    : option Reserved * ring :=
  let j := jobs r !!! k in
  if negb (id j =? want_id) then (None, r)
  else if (now <? available_at j) || negb (reserved_until j =? 0) && (now <? reserved_until j)
       then (None, r)
  else
    let l := wrap64 (next_lease r + 1) in
    let j' := reserve j l (after_secs now visibility) in
    let r := mkRing (next_id r) l (lanes r) (<[k := j']> (jobs r)) in
    (Some (mkReserved l (attempts j') (take PAYLOAD_MAX (payload j'))),
     mark_drained r (hash_q queue) queue now).

Definition pop cur (q : option ring) (queue : bytes) (visibility now : Z) : option Reserved * option ring :=
  let queue := Ns.key cur queue in
  match q with
  | None => (None, None)
  | Some r =>
      let r := mark_polled r (hash_q queue) queue now in
      match pop_scan (jobs r) (hash_q queue) now (seq 0 (length (jobs r))) None with
      | None => (None, Some r)
      | Some (k, _, want_id) =>
          let '(o, r') := pop_commit r queue visibility now k want_id in (o, Some r')
      end
  end.

(** ** [delete] and [release] *)

(** The slot out under a lease, in table order. *)
Fixpoint find_lease (js : list job) (l : Z) (w : list nat) : option nat :=
  match w with
  | [] => None
  | k :: w' =>
      if negb (id (js !!! k) =? 0) && (lease (js !!! k) =? l) then Some k else find_lease js l w'
  end.

Definition slot_in_namespace cur (j : job) : bool := owns cur (name j).

Definition freed (j : job) : job :=
  mkJob 0 (queue_hash j) (available_at j) (reserved_until j) (lease j) (created_at j) (name j)
    (attempts j) (payload j).
Definition released (j : job) (avail : Z) : job :=
  mkJob (id j) (queue_hash j) avail 0 0 (created_at j) (name j) (attempts j) (payload j).

(** Both, up to what is written to the slot. *)
Definition with_lease cur (q : option ring) (l : Z) (f : job -> job) : bool * option ring :=
  match q with
  | None => (false, None)
  | Some r =>
      if l =? 0 then (false, Some r)
      else match find_lease (jobs r) l (seq 0 (length (jobs r))) with
           | None => (false, Some r)
           | Some k =>
               if negb (slot_in_namespace cur (jobs r !!! k)) then (false, Some r)
               else (true, Some (set_jobs r (<[k := f (jobs r !!! k)]> (jobs r))))
           end
  end.
Definition delete cur q l : bool * option ring := with_lease cur q l freed.
Definition release cur q l (delay now : Z) : bool * option ring :=
  with_lease cur q l (fun j => released j (after_secs now delay)).

(** ** Reports *)

(** [stats]: ready, total, and the age of the oldest ready job. *)
Definition stats (q : option ring) (now : Z) : nat * nat * Z :=
  match q with
  | None => (0%nat, 0%nat, 0)
  | Some r =>
      let occupied := filter (fun j => id j <> 0) (jobs r) in
      let rdy := filter (fun j => ready j now = true) occupied in
      (length rdy, length occupied,
       foldl (fun o j => Z.max o (sat_sub64 now (available_at j))) 0 rdy)
  end.

Record Counts := mkCounts {
  pending : Z; delayed : Z; reserved : Z; oldest_pending_created_ms : Z }.
Definition no_counts : Counts := mkCounts 0 0 0 0.

(** One job put in its bucket; the order of the tests is the source's. *)
Definition bucket (c : Counts) (j : job) (now : Z) : Counts :=
  if now <? reserved_until j then
    mkCounts (pending c) (delayed c) (wrap64 (reserved c + 1)) (oldest_pending_created_ms c)
  else if now <? available_at j then
    mkCounts (pending c) (wrap64 (delayed c + 1)) (reserved c) (oldest_pending_created_ms c)
  else
    mkCounts (wrap64 (pending c + 1)) (delayed c) (reserved c)
      (if (oldest_pending_created_ms c =? 0) || (created_at j <? oldest_pending_created_ms c)
       then created_at j else oldest_pending_created_ms c).

Definition on_queue (qh : Z) (j : job) : bool := negb (id j =? 0) && (queue_hash j =? qh).

Definition counts cur (q : option ring) (queue : bytes) (now : Z) : Counts :=
  match q with
  | None => no_counts
  | Some r =>
      foldl (fun c j => bucket c j now) no_counts
        (filter (fun j => on_queue (hash_q (Ns.key cur queue)) j = true) (jobs r))
  end.

Definition size cur (q : option ring) (queue : bytes) (now : Z) : Z :=
  match q with
  | None => 0
  | Some r =>
      foldl (fun n j => if ready j now then wrap64 (n + 1) else n) 0
        (filter (fun j => on_queue (hash_q (Ns.key cur queue)) j = true) (jobs r))
  end.

(** [by_queue_with_app], the map as an association list. *)
Definition queue_key := (option App * bytes)%type.
Fixpoint upd_counts (m : list (queue_key * Counts)) (k : queue_key) (f : Counts -> Counts)
    : list (queue_key * Counts) :=
  match m with
  | [] => [(k, f no_counts)]
  | (k', c) :: m' => if bool_decide (k' = k) then (k', f c) :: m' else (k', c) :: upd_counts m' k f
  end.
Definition job_key (j : job) : queue_key :=
  let '(a, n) := split (name j) in (a, from_utf8_lossy n).
Definition by_queue_cmp (x y : queue_key * Counts) : comparison :=
  then_with (pending y.2 ?= pending x.2)
    (then_with (bytes_cmp x.1.2 y.1.2) (app_cmp x.1.1 y.1.1)).
Definition by_queue_with_app (q : option ring) (now : Z) : list (queue_key * Counts) :=
  match q with
  | None => []
  | Some r =>
      sort_by by_queue_cmp
        (foldl (fun m j => upd_counts m (job_key j) (fun c => bucket c j now)) []
           (filter (fun j => id j <> 0) (jobs r)))
  end.

(** ** The PHP bridge: signed arguments are clamped at 0 *)

Definition c_push cur q queue pl (delay now : Z) := push cur q queue pl (Z.max delay 0) now.
Definition c_pop cur q queue (visibility now : Z) := pop cur q queue (Z.max visibility 0) now.
Definition c_delete cur q (l : Z) := delete cur q (Z.max l 0).
Definition c_release cur q (l delay now : Z) := release cur q (Z.max l 0) (Z.max delay 0) now.
End Ops.
