(* ===== verification/SQueueSpec.v ===== *)
(** What the job queue promises, one operation after another: jobs are accepted or refused,
    never displaced; the oldest ready job is the one handed out; a stale lease is worth
    nothing; the reports agree with what [pop] would do. *)

From S2P Require Import Prelude Bytes Ns SQueue.

Section Spec.
Context (hash_q : bytes -> Z).
Implicit Types (r : ring) (cur : option App) (j : job) (k : nat).

(** Occupied slots carry distinct ids already issued, and so do the leases out. *)
Record qwf r : Prop := {
  qwf_slots : (0 < length (jobs r))%nat;
  qwf_next : 0 <= next_id r /\ 0 <= next_lease r;
  qwf_id : forall k, 0 <= id (jobs r !!! k) <= next_id r;
  qwf_lease : forall k, 0 <= lease (jobs r !!! k) <= next_lease r;
  qwf_ids : forall k k', id (jobs r !!! k) <> 0 -> id (jobs r !!! k) = id (jobs r !!! k') -> k = k';
  qwf_leases : forall k k', id (jobs r !!! k) <> 0 -> id (jobs r !!! k') <> 0 ->
    lease (jobs r !!! k) <> 0 -> lease (jobs r !!! k) = lease (jobs r !!! k') -> k = k' }.

Lemma job_in_range (js : list job) k : id (js !!! k) <> 0 -> (k < length js)%nat.
Proof.
  intros Hi. destruct (decide (k < length js)%nat); [done|].
  by rewrite list_lookup_total_alt, lookup_ge_None_2 in Hi by lia.
Qed.

Lemma qwf_new slots : qwf (new_ring slots).
Proof.
  assert (forall k, replicate (Z.to_nat (Z.max slots 16)) free_job !!! k = free_job) as Hf.
  { intros k. rewrite list_lookup_total_alt.
    destruct (_ !! k) eqn:E; [by apply lookup_replicate in E as [-> _]|done]. }
  split; cbn [new_ring jobs next_id next_lease]; try (intros; rewrite ?Hf in *; simpl in *; lia || done).
  rewrite length_replicate. lia.
Qed.

(** Replacing one slot. *)
Lemma qwf_insert r k j i l ls :
  qwf r -> (k < length (jobs r))%nat -> next_id r <= i -> next_lease r <= l ->
  0 <= id j <= i -> 0 <= lease j <= l ->
  (id j <> 0 -> forall k', k' <> k -> id (jobs r !!! k') <> id j) ->
  (id j <> 0 -> lease j <> 0 -> forall k', k' <> k -> id (jobs r !!! k') <> 0 ->
     lease (jobs r !!! k') <> lease j) ->
  qwf (mkRing i l ls (<[k := j]> (jobs r))).
Proof.
  intros Hw Hk Hi Hl Hij Hlj Hid Hle. pose proof (qwf_next r Hw).
  split; cbn [jobs next_id next_lease].
  - rewrite length_insert. apply (qwf_slots r Hw).
  - lia.
  - intros k'. rewrite lookup_total_insert_dec by done. case_decide; [done|].
    pose proof (qwf_id r Hw k'). lia.
  - intros k'. rewrite lookup_total_insert_dec by done. case_decide; [done|].
    pose proof (qwf_lease r Hw k'). lia.
  - intros k1 k2. rewrite !lookup_total_insert_dec by done. repeat case_decide; subst; [done| | |].
    + intros Hn E. by destruct (Hid Hn k2 ltac:(done)).
    + intros Hn E. rewrite E in Hn. by destruct (Hid Hn k1 ltac:(done)).
    + by apply (qwf_ids r Hw).
  - intros k1 k2. rewrite !lookup_total_insert_dec by done. repeat case_decide; subst; [done| | |].
    + intros Hn Hn' Hz E. by destruct (Hle Hn Hz k2 ltac:(done) Hn').
    + intros Hn Hn' Hz E. rewrite E in Hz. by destruct (Hle Hn' Hz k1 ltac:(done) Hn).
    + by apply (qwf_leases r Hw).
Qed.

Lemma mark_polled_jobs r qh nm now :
  let r' := mark_polled r qh nm now in
  jobs r' = jobs r /\ next_id r' = next_id r /\ next_lease r' = next_lease r.
Proof. unfold mark_polled. destruct (lane_for _ _ _) as [[i|] ls]; done. Qed.
Lemma mark_drained_jobs r qh nm now :
  let r' := mark_drained r qh nm now in
  jobs r' = jobs r /\ next_id r' = next_id r /\ next_lease r' = next_lease r.
Proof. unfold mark_drained. destruct (lane_for _ _ _) as [[i|] ls]; done. Qed.

Lemma qwf_ext r r' :
  jobs r' = jobs r -> next_id r' = next_id r -> next_lease r' = next_lease r -> qwf r -> qwf r'.
Proof. intros Ej Ei El Hw. destruct Hw. split; rewrite ?Ej, ?Ei, ?El; done. Qed.

(** ** Push *)

Lemma find_free_spec js w :
  match find_free js w with
  | Some k => k ∈ w /\ id (js !!! k) = 0
  | None => Forall (fun k => id (js !!! k) <> 0) w
  end.
Proof.
  induction w as [|k w IH]; cbn [find_free]; [done|].
  destruct (Z.eqb_spec (id (js !!! k)) 0); [split; [set_solver|done]|].
  destruct (find_free js w); [split; [set_solver|apply IH]|by constructor].
Qed.

Lemma probe_slots_all start slots k : (k < slots)%nat -> k ∈ probe_slots start slots.
Proof.
  intros Hk. unfold probe_slots. apply list_elem_of_fmap.
  exists ((k + (slots - start mod slots)) mod slots)%nat. split.
  - rewrite Nat.Div0.add_mod_idemp_r. pose proof (Nat.mod_upper_bound start slots ltac:(lia)) as Hm.
    rewrite (Nat.div_mod_eq start slots) at 1.
    replace (slots * (start / slots) + start mod slots + (k + (slots - start mod slots)))%nat
      with (k + (start / slots + 1) * slots)%nat by nia.
    by rewrite Nat.Div0.mod_add, Nat.mod_small.
  - apply elem_of_seq. pose proof (Nat.mod_upper_bound (k + (slots - start mod slots)) slots). lia.
Qed.

Lemma probe_slots_bound start slots k : k ∈ probe_slots start slots -> (k < slots)%nat.
Proof.
  unfold probe_slots. intros (i & -> & Hi%elem_of_seq)%list_elem_of_fmap.
  apply Nat.mod_upper_bound. lia.
Qed.

Lemma push_lemma cur r queue pl delay now :
  qwf r -> next_id r + 1 < W64 ->
  let '(i, q') := push hash_q cur (Some r) queue pl delay now in
  exists r', q' = Some r' /\ qwf r' /\ next_lease r' = next_lease r /\
  ((length pl <= PAYLOAD_MAX)%nat /\ i = next_id r + 1 /\ next_id r' = i /\
     (exists k, (k < length (jobs r))%nat /\ id (jobs r !!! k) = 0 /\
       jobs r' = <[k := pushed hash_q i (Ns.key cur queue) pl now (after_secs now delay)]> (jobs r))
   \/ i = 0 /\ jobs r' = jobs r /\ next_id r <= next_id r' <= next_id r + 1 /\
     ((PAYLOAD_MAX < length pl)%nat \/ forall k, (k < length (jobs r))%nat -> id (jobs r !!! k) <> 0)).
Proof.
  intros Hw Hb. unfold push. pose proof (qwf_next r Hw).
  destruct (Nat.ltb_spec PAYLOAD_MAX (length pl)).
  { exists r. split; [done|]. split; [done|]. split; [done|]. right. split_and!; [done|done|lia|lia|by left]. }
  rewrite wrap64_id by (words; lia). cbn [jobs next_lease lanes].
  pose proof (find_free_spec (jobs r) (probe_slots (Z.to_nat ((next_id r + 1) mod Z.of_nat (length (jobs r))))
    (length (jobs r)))) as Hf.
  destruct (find_free _ _) as [k|].
  - destruct Hf as [Hin%probe_slots_bound Hz]. eexists. split; [reflexivity|]. split; [|split; [done|]].
    + apply qwf_insert; cbn [id lease pushed next_id next_lease]; try done; try lia.
      intros _ k' _. pose proof (qwf_id r Hw k'). lia.
    + left. split_and!; [done|done|done|]. by exists k.
  - eexists. split; [reflexivity|]. split; [|split; [done|]].
    + destruct Hw. split; cbn [jobs next_id next_lease]; try done; [lia|].
      intros k. specialize (qwf_id0 k). lia.
    + right. split_and!; [done|done|cbn [next_id]; lia|cbn [next_id]; lia|].
      right. intros k Hk. rewrite Forall_forall in Hf. by apply Hf, probe_slots_all.
Qed.

(** [push] answers a fresh id exactly when the payload fits and some slot is free; the
    job then sits in a slot that was free, under the caller's namespace, unreserved, available
    after the delay.  Otherwise it answers 0.  Either way no job already queued is touched. *)
Theorem push_accepts_or_refuses cur r queue pl delay now i r' :
  qwf r -> next_id r + 1 < W64 ->
  push hash_q cur (Some r) queue pl delay now = (i, Some r') ->
  qwf r'
  /\ (i <> 0 <-> (length pl <= PAYLOAD_MAX)%nat /\ exists k, (k < length (jobs r))%nat /\ id (jobs r !!! k) = 0)
  /\ (i <> 0 -> (forall k, id (jobs r !!! k) <> i)
       /\ exists k, jobs r' !!! k = pushed hash_q i (Ns.key cur queue) pl now (after_secs now delay)
                    /\ (k < length (jobs r))%nat)
  /\ (forall k, id (jobs r !!! k) <> 0 -> jobs r' !!! k = jobs r !!! k)
  /\ (i = 0 -> jobs r' = jobs r).
Proof.
  intros Hw Hb E. pose proof (push_lemma cur r queue pl delay now Hw Hb) as H. rewrite E in H.
  destruct H as (r'' & [= <-] & Hw' & _ & [(Hl & -> & _ & k & Hk & H0 & Ej)|(-> & Ej & _ & Hno)]).
  - pose proof (qwf_next r Hw). split; [done|]. split; [split; [intros _; by eauto|lia]|]. split; [|split; [|lia]].
    + intros _. split; [intros k'; pose proof (qwf_id r Hw k'); lia|].
      exists k. rewrite Ej. split; [by apply list_lookup_total_insert_eq|done].
    + intros k' Hk'. rewrite Ej. apply list_lookup_total_insert_ne. congruence.
  - split; [done|]. split; [split; [done|]|]. 2:{ rewrite Ej. by split_and!. }
    intros (Hl & k & Hk & H0). destruct Hno as [?|Hno]; [lia|]. by destruct (Hno k Hk).
Qed.

(** ** Pop *)

(** A job a worker of queue [qh] could be given now. *)
Definition candidate (qh now : Z) (j : job) : bool := on_queue qh j && ready j now.
(** Older first, then by id. *)
Definition no_later (a i b i' : Z) : Prop := a < b \/ a = b /\ i <= i'.

Lemma pop_scan_spec js qh now w best :
  match pop_scan js qh now w best with
  | None => best = None /\ Forall (fun k => candidate qh now (js !!! k) = false) w
  | Some (k, a, i) =>
      (best = Some (k, a, i) \/
       k ∈ w /\ candidate qh now (js !!! k) = true /\ a = available_at (js !!! k) /\ i = id (js !!! k))
      /\ Forall (fun k' => candidate qh now (js !!! k') = true ->
           no_later a i (available_at (js !!! k')) (id (js !!! k'))) w
      /\ match best with Some (_, a0, i0) => no_later a i a0 i0 | None => True end
  end.
Proof.
  revert best. induction w as [|k w IH]; intros best; cbn [pop_scan].
  { destruct best as [[[k a] i]|]; [|done]. split; [by left|]. split; [done|]. right. lia. }
  assert (candidate qh now (js !!! k)
    = negb ((id (js !!! k) =? 0) || negb (queue_hash (js !!! k) =? qh)) && ready (js !!! k) now) as Hc.
  { unfold candidate, on_queue. by rewrite negb_orb, negb_involutive. }
  assert (forall b, match pop_scan js qh now w b with
      | None => b = None /\ Forall (fun k' => candidate qh now (js !!! k') = false) w
      | Some (k', a, i) => (b = Some (k', a, i) \/
         k' ∈ k :: w /\ candidate qh now (js !!! k') = true /\ a = available_at (js !!! k') /\ i = id (js !!! k'))
         /\ Forall (fun k' => candidate qh now (js !!! k') = true ->
              no_later a i (available_at (js !!! k')) (id (js !!! k'))) w
         /\ match b with Some (_, a0, i0) => no_later a i a0 i0 | None => True end
      end) as IH'.
  { intros b. specialize (IH b). destruct (pop_scan _ _ _ _ _) as [[[k' a] i]|]; [|done].
    destruct IH as ([?|(? & ? & ? & ?)] & ? & ?); [by auto|].
    split; [right; split_and!; [set_solver|done..]|done]. }
  destruct ((id (js !!! k) =? 0) || _); [|destruct (ready (js !!! k) now)]; cbn [negb andb] in *.
  - specialize (IH' best). destruct (pop_scan _ _ _ _ best) as [[[k' a] i]|].
    + destruct IH' as (? & ? & ?). split; [done|]. split; [|done]. constructor; [|done].
      by rewrite Hc.
    + destruct IH' as [? ?]. split; [done|]. by constructor.
  - destruct (better _ _ best) eqn:Eb.
    + specialize (IH' (Some (k, available_at (js !!! k), id (js !!! k)))).
      destruct (pop_scan _ _ _ _ _) as [[[k' a] i]|]; [|by destruct IH' as [? _]].
      destruct IH' as (Hor & Hf & Hle). split.
      { right. destruct Hor as [[= <- <- <-]|?]; [|done]. split; [set_solver|done]. }
      split; [constructor; [by intros _|done]|].
      destruct best as [[[kb ab] ib]|]; [|done]. unfold better in Eb. unfold no_later in *.
      apply orb_true_iff in Eb as [?%Z.ltb_lt|[?%Z.eqb_eq ?%Z.ltb_lt]%andb_true_iff]; lia.
    + specialize (IH' best). destruct best as [[[kb ab] ib]|]; [|done].
      destruct (pop_scan _ _ _ _ _) as [[[k' a] i]|]; [|by destruct IH' as [? _]].
      destruct IH' as (Hor & Hf & Hle). split; [done|]. split; [|done]. constructor; [|done].
      intros _. unfold better in Eb. unfold no_later in *.
      apply orb_false_iff in Eb as [?%Z.ltb_ge Eb%andb_false_iff].
      destruct Eb as [?%Z.eqb_neq|?%Z.ltb_ge]; lia.
  - specialize (IH' best). destruct (pop_scan _ _ _ _ best) as [[[k' a] i]|].
    + destruct IH' as (? & ? & ?). split; [done|]. split; [|done]. constructor; [|done].
      by rewrite Hc.
    + destruct IH' as [? ?]. split; [done|]. by constructor.
Qed.

Lemma ready_recheck j now :
  ready j now = true ->
  (now <? available_at j) || negb (reserved_until j =? 0) && (now <? reserved_until j) = false.
Proof.
  unfold ready. intros [Ha Hr]%andb_true_iff. rewrite !Z.leb_le in *.
  apply orb_true_iff in Hr. apply orb_false_iff. split; [apply Z.ltb_ge; lia|].
  apply andb_false_iff. destruct Hr as [Hr|Hr]; [left; by rewrite Hr|right].
  apply Z.ltb_ge. by apply Z.leb_le.
Qed.

Lemma pop_lemma cur r queue visibility now :
  qwf r -> next_lease r + 1 < W64 ->
  let qh := hash_q (Ns.key cur queue) in
  let '(o, q') := pop hash_q cur (Some r) queue visibility now in
  exists r', q' = Some r' /\ qwf r' /\ next_id r' = next_id r /\
  ((o = None /\ jobs r' = jobs r /\ next_lease r' = next_lease r
    /\ forall k, candidate qh now (jobs r !!! k) = false)
   \/ exists k, let j := jobs r !!! k in
      let j' := reserve j (next_lease r + 1) (after_secs now visibility) in
      o = Some (mkReserved (next_lease r + 1) (attempts j') (take PAYLOAD_MAX (payload j)))
      /\ next_lease r' = next_lease r + 1 /\ jobs r' = <[k := j']> (jobs r)
      /\ (k < length (jobs r))%nat /\ candidate qh now j = true
      /\ forall k', candidate qh now (jobs r !!! k') = true ->
         no_later (available_at j) (id j) (available_at (jobs r !!! k')) (id (jobs r !!! k'))).
Proof.
  intros Hw Hb qh. unfold pop. fold qh.
  destruct (mark_polled_jobs r qh (Ns.key cur queue) now) as (Ej & Ei & El).
  set (r1 := mark_polled r qh (Ns.key cur queue) now) in *.
  assert (qwf r1) as Hw1 by by eapply qwf_ext.
  pose proof (pop_scan_spec (jobs r1) qh now (seq 0 (length (jobs r1))) None) as Hs.
  destruct (pop_scan _ _ _ _ _) as [[[k a] i]|].
  - destruct Hs as ([?|(Hk & Hc & -> & ->)] & Hmin & _); [done|].
    pose proof Hc as [Hq Hr]%andb_true_iff. pose proof Hq as [H0%negb_true_iff%Z.eqb_neq _]%andb_true_iff.
    pose proof (job_in_range _ _ H0) as Hlt.
    unfold pop_commit. rewrite Z.eqb_refl. cbn [negb]. rewrite ready_recheck by done.
    eexists. split; [reflexivity|].
    pose proof (qwf_next r Hw). rewrite El. rewrite wrap64_id by (words; lia).
    set (j' := reserve _ _ _). set (r2 := mkRing _ _ _ _).
    destruct (mark_drained_jobs r2 (hash_q (Ns.key cur queue)) (Ns.key cur queue) now) as (Ej2 & Ei2 & El2).
    split; [|split; [by rewrite Ei2|]].
    + eapply (qwf_ext r2); [done..|]. unfold r2. apply qwf_insert; cbn [id lease reserve j'];
        [done|done|lia|lia|apply (qwf_id r1 Hw1)|lia| |].
      * intros _ k' Hne Hid. apply Hne. symmetry. apply (qwf_ids r1 Hw1); [done|]. by symmetry.
      * intros _ _ k' _ _. pose proof (qwf_lease r1 Hw1 k'). lia.
    + right. exists k. cbv zeta. rewrite Ej2, El2. unfold r2, j'. cbn [jobs next_lease]. rewrite Ej in *.
      split_and!; try done. intros k' Hc'.
      assert (k' < length (jobs r))%nat as Hk'.
      { apply job_in_range. apply andb_true_iff in Hc' as [Hc' _].
        by apply andb_true_iff in Hc' as [?%negb_true_iff%Z.eqb_neq _]. }
      rewrite Forall_forall in Hmin. apply Hmin; [apply elem_of_seq; lia|done].
  - eexists. split; [reflexivity|]. split; [done|]. split; [done|]. left.
    destruct Hs as [_ Hs]. split_and!; [done|done|done|]. intros k.
    destruct (decide (k < length (jobs r1))%nat) as [Hk|Hk].
    + rewrite <- Ej. rewrite Forall_forall in Hs. apply Hs, elem_of_seq. lia.
    + rewrite Ej in Hk. unfold candidate, on_queue.
      rewrite list_lookup_total_alt, lookup_ge_None_2 by lia. done.
Qed.

(** C29.  [pop] hands out nothing exactly when the queue has no ready job; otherwise the ready
    job that became available first (the older id between equals), whole, its attempts counted
    up, under a lease never issued before and for the time asked.  No other job changes. *)
Theorem pop_oldest_ready cur r queue visibility now o r' :
  qwf r -> next_lease r + 1 < W64 ->
  pop hash_q cur (Some r) queue visibility now = (o, Some r') ->
  let qh := hash_q (Ns.key cur queue) in
  qwf r'
  /\ (o = None <-> forall k, candidate qh now (jobs r !!! k) = false)
  /\ (o = None -> jobs r' = jobs r)
  /\ (forall res, o = Some res ->
      exists k, let j := jobs r !!! k in
        candidate qh now j = true
        /\ (forall k', candidate qh now (jobs r !!! k') = true ->
            no_later (available_at j) (id j) (available_at (jobs r !!! k')) (id (jobs r !!! k')))
        /\ jobs r' = <[k := reserve j (r_lease res) (after_secs now visibility)]> (jobs r)
        /\ r_payload res = take PAYLOAD_MAX (payload j)
        /\ r_attempts res = (attempts j + 1) mod 2 ^ 32
        /\ r_lease res <> 0 /\ forall k', lease (jobs r !!! k') <> r_lease res).
Proof.
  intros Hw Hb E qh. pose proof (pop_lemma cur r queue visibility now Hw Hb) as H.
  cbv zeta in H. rewrite E in H. fold qh in H. pose proof (qwf_next r Hw).
  destruct H as (r'' & [= <-] & Hw' & _ & [(-> & Ej & _ & Hno)|(k & -> & El & Ej & Hk & Hc & Hmin)]).
  - by split_and!.
  - split; [done|]. split; [split; [done|intros Hno; by rewrite Hno in Hc]|]. split; [done|].
    intros res [= <-]. exists k. cbn [r_lease r_payload r_attempts attempts reserve].
    split_and!; try done; [lia|]. intros k'. pose proof (qwf_lease r Hw k'). lia.
Qed.

(** ** Delete and release *)

(** Lease [l] is out, for a job in slot [k]. *)
Definition held_at r (l : Z) k : Prop := id (jobs r !!! k) <> 0 /\ lease (jobs r !!! k) = l.

Lemma find_lease_spec js l w :
  match find_lease js l w with
  | Some k => id (js !!! k) <> 0 /\ lease (js !!! k) = l
  | None => Forall (fun k => ~ (id (js !!! k) <> 0 /\ lease (js !!! k) = l)) w
  end.
Proof.
  induction w as [|k w IH]; cbn [find_lease]; [done|].
  destruct (Z.eqb_spec (id (js !!! k)) 0) as [E|E]; cbn [negb andb].
  - destruct (find_lease js l w); [done|]. constructor; [|done]. by intros [? _].
  - destruct (Z.eqb_spec (lease (js !!! k)) l); [done|].
    destruct (find_lease js l w); [done|]. constructor; [|done]. by intros [_ ?].
Qed.

Lemma with_lease_lemma cur r l f :
  (exists k, held_at r l k /\ l <> 0 /\ owns cur (name (jobs r !!! k)) = true
     /\ with_lease cur (Some r) l f = (true, Some (set_jobs r (<[k := f (jobs r !!! k)]> (jobs r)))))
  \/ with_lease cur (Some r) l f = (false, Some r)
     /\ (l = 0 \/ (forall k, ~ held_at r l k) \/ exists k, held_at r l k /\ owns cur (name (jobs r !!! k)) = false).
Proof.
  unfold with_lease. destruct (Z.eqb_spec l 0); [right; by auto|].
  pose proof (find_lease_spec (jobs r) l (seq 0 (length (jobs r)))) as Hs.
  destruct (find_lease _ _ _) as [k|].
  - unfold slot_in_namespace. destruct (owns cur _) eqn:Eo; cbn [negb]; [left|right].
    + by exists k.
    + split; [done|]. right; right. by exists k.
  - right. split; [done|]. right; left. intros k [Hi Hl].
    rewrite Forall_forall in Hs. apply (Hs k); [|done].
    apply elem_of_seq. pose proof (job_in_range _ _ Hi). lia.
Qed.

Lemma qwf_slot r k j :
  qwf r -> id (jobs r !!! k) <> 0 -> id j = id (jobs r !!! k) \/ id j = 0 -> lease j = 0 \/ id j = 0 /\ lease j = lease (jobs r !!! k) ->
  qwf (set_jobs r (<[k := j]> (jobs r))).
Proof.
  intros Hw Hk Hid Hl. pose proof (qwf_next r Hw). pose proof (qwf_id r Hw k). pose proof (qwf_lease r Hw k).
  apply qwf_insert; [done|by apply job_in_range|lia|lia| | | |].
  - destruct Hid as [-> | ->]; lia.
  - destruct Hl as [-> |[_ ->]]; lia.
  - intros Hn k' Hne E. destruct Hid as [Hid|]; [|done]. apply Hne. symmetry.
    apply (qwf_ids r Hw); congruence.
  - intros Hn Hz. by destruct Hl as [|[? _]].
Qed.

Lemma with_lease_qwf cur r l f b q' :
  qwf r -> (forall j, (id (f j) = id j \/ id (f j) = 0)
              /\ (lease (f j) = 0 \/ id (f j) = 0 /\ lease (f j) = lease j)) ->
  with_lease cur (Some r) l f = (b, q') -> exists r', q' = Some r' /\ qwf r'
    /\ next_id r' = next_id r /\ next_lease r' = next_lease r.
Proof.
  intros Hw Hf E. destruct (with_lease_lemma cur r l f) as [(k & [Hi _] & _ & _ & E')|[E' _]];
    rewrite E' in E; injection E as <- <-; [|by exists r].
  eexists. split; [done|]. split; [|done]. destruct (Hf (jobs r !!! k)). by apply qwf_slot.
Qed.

(** A lease that is out names one slot. *)
Lemma held_unique r l k k' : qwf r -> l <> 0 -> held_at r l k -> held_at r l k' -> k = k'.
Proof. intros Hw Hl [Hi <-] [Hi' E]. by apply (qwf_leases r Hw). Qed.

(** [delete] and [release] act on the job a lease names, in the caller's own namespace,
    and on nothing else: deleted, its slot is free; released, it is the same job with its
    attempts, unreserved, available after the delay.  The lease is spent either way.  For an
    unknown lease, or another application's, nothing happens. *)
Theorem ack_or_retry cur r l delay now :
  qwf r ->
  (forall k, held_at r l k -> l <> 0 -> owns cur (name (jobs r !!! k)) = true ->
     let j := jobs r !!! k in
     exists rd rr,
       delete cur (Some r) l = (true, Some rd) /\ qwf rd
       /\ jobs rd = <[k := freed j]> (jobs r) /\ (forall k', ~ held_at rd l k')
       /\ release cur (Some r) l delay now = (true, Some rr) /\ qwf rr
       /\ jobs rr = <[k := mkJob (id j) (queue_hash j) (after_secs now delay) 0 0 (created_at j)
                             (name j) (attempts j) (payload j)]> (jobs r)
       /\ (forall k', ~ held_at rr l k'))
  /\ (l = 0 \/ (forall k, ~ held_at r l k)
        \/ (exists k, held_at r l k /\ owns cur (name (jobs r !!! k)) = false) ->
      delete cur (Some r) l = (false, Some r) /\ release cur (Some r) l delay now = (false, Some r)).
Proof.
  intros Hw. split.
  - intros k Hk Hl Ho j.
    assert (forall f, with_lease cur (Some r) l f = (true, Some (set_jobs r (<[k := f j]> (jobs r))))) as Hf.
    { intros f. destruct (with_lease_lemma cur r l f) as [(k2 & Hk2 & _ & _ & E)|[_ [?|[Hno|(k2 & Hk2 & Ho2)]]]];
        [| |by destruct (Hno k)|].
      - unfold j. by rewrite (held_unique r l k k2 Hw Hl Hk Hk2).
      - done.
      - rewrite (held_unique r l k k2) in Ho by done. congruence. }
    pose proof (job_in_range _ _ (proj1 Hk)) as Hlt.
    assert (forall j', id j' = 0 \/ lease j' = 0 -> forall k',
              ~ held_at (set_jobs r (<[k := j']> (jobs r))) l k') as Hgone.
    { intros j' Hj' k' Hh. unfold held_at in Hh. cbn [jobs set_jobs] in Hh.
      rewrite lookup_total_insert_dec in Hh by done. case_decide as Ek; [subst k'|].
      - destruct Hh, Hj'; congruence.
      - apply Ek. by apply (held_unique r l). }
    exists (set_jobs r (<[k := freed j]> (jobs r))), (set_jobs r (<[k := released j (after_secs now delay)]> (jobs r))).
    split_and!; [apply Hf| |done|apply Hgone; by left|apply Hf| |done|apply Hgone; by right].
    + apply qwf_slot; [done|apply Hk|by right|right; done].
    + apply qwf_slot; [done|apply Hk|by left|by left].
  - intros Hno. assert (forall f, with_lease cur (Some r) l f = (false, Some r)) as Hf; [|split; apply Hf].
    intros f. destruct (with_lease_lemma cur r l f) as [(k & Hk & Hl & Ho & _)|[E _]]; [|done].
    exfalso. destruct Hno as [?|[Hno|(k2 & Hk2 & Ho2)]]; [done|by destruct (Hno k)|].
    rewrite (held_unique r l k k2) in Ho by done. congruence.
Qed.

(** ** Leases over time *)

Inductive qop :=
| QPush (cur : option App) (queue pl : bytes) (delay now : Z)
| QPop (cur : option App) (queue : bytes) (visibility now : Z)
| QDelete (cur : option App) (l : Z)
| QRelease (cur : option App) (l delay now : Z).

Definition qstep (q : option ring) (o : qop) : option ring :=
  match o with
  | QPush cur queue pl delay now => (push hash_q cur q queue pl delay now).2
  | QPop cur queue visibility now => (pop hash_q cur q queue visibility now).2
  | QDelete cur l => (delete cur q l).2
  | QRelease cur l delay now => (release cur q l delay now).2
  end.
Definition qrun (q : option ring) (ops : list qop) : option ring := fold_left qstep ops q.

(** Whoever is out under lease [l], if anybody, is job [i]. *)
Definition only_job r (l i : Z) : Prop := forall k, held_at r l k -> id (jobs r !!! k) = i.

Lemma only_job_insert r i' l' ls k j l i :
  only_job r l i -> (id j = 0 \/ lease j <> l) ->
  only_job (mkRing i' l' ls (<[k := j]> (jobs r))) l i.
Proof.
  intros Ho Hj k' Hh. unfold held_at in Hh. cbn [jobs] in *.
  destruct (decide (k < length (jobs r))%nat).
  - rewrite lookup_total_insert_dec in * by done. case_decide; [|by apply Ho].
    by destruct Hh, Hj.
  - rewrite list_insert_ge in * by lia. by apply Ho.
Qed.

Lemma only_job_ext r r' l i : jobs r' = jobs r -> only_job r l i -> only_job r' l i.
Proof. unfold only_job, held_at. by intros ->. Qed.

Lemma qstep_only r o l i :
  qwf r -> next_id r + 1 < W64 -> next_lease r + 1 < W64 -> 0 < l <= next_lease r -> only_job r l i ->
  exists r', qstep (Some r) o = Some r' /\ qwf r' /\ only_job r' l i
    /\ next_id r <= next_id r' <= next_id r + 1 /\ next_lease r <= next_lease r' <= next_lease r + 1.
Proof.
  intros Hw Hb1 Hb2 Hl Ho.
  assert (forall cur l' f, (forall j, (id (f j) = id j \/ id (f j) = 0)
              /\ (lease (f j) = 0 \/ id (f j) = 0 /\ lease (f j) = lease j)) ->
    exists r', (with_lease cur (Some r) l' f).2 = Some r' /\ qwf r' /\ only_job r' l i
    /\ next_id r <= next_id r' <= next_id r + 1 /\ next_lease r <= next_lease r' <= next_lease r + 1) as Hwl.
  { intros cur l' f Hf. destruct (with_lease cur (Some r) l' f) as [b q'] eqn:E.
    destruct (with_lease_qwf cur r l' f b q' Hw Hf E) as (r' & -> & Hw' & E1 & E2).
    exists r'. split; [done|]. split; [done|]. split; [|lia].
    destruct (with_lease_lemma cur r l' f) as [(k & _ & _ & _ & E')|[E' _]];
      rewrite E' in E; injection E as <- <-; [|done].
    apply only_job_insert; [done|]. destruct (Hf (jobs r !!! k)) as [_ [->|[-> _]]]; [right; lia|by left]. }
  destruct o; cbn [qstep].
  - pose proof (push_lemma cur r queue pl delay now Hw Hb1) as H.
    destruct (push _ _ _ _ _ _ _) as [i0 q'].
    destruct H as (r' & -> & Hw' & El & H). exists r'. split; [done|]. split; [done|].
    destruct H as [(_ & Hi & En & k & _ & _ & Ej)|(_ & Ej & En & _)].
    + split; [|lia]. eapply (only_job_ext (mkRing 0 0 [] _)); [exact Ej|].
      apply only_job_insert; [done|]. right. cbn [lease pushed]. lia.
    + split; [by eapply only_job_ext|lia].
  - pose proof (pop_lemma cur r queue visibility now Hw Hb2) as H. cbv zeta in H.
    destruct (pop _ _ _ _ _ _) as [o' q'].
    destruct H as (r' & -> & Hw' & En & H). exists r'. split; [done|]. split; [done|].
    destruct H as [(_ & Ej & El & _)|(k & _ & El & Ej & _)].
    + split; [by eapply only_job_ext|lia].
    + split; [|lia]. eapply (only_job_ext (mkRing 0 0 [] _)); [exact Ej|].
      apply only_job_insert; [done|]. right. cbn [lease reserve]. lia.
  - apply Hwl. intros j. split; [by right|right; done].
  - apply Hwl. intros j. split; [by left|by left].
Qed.

Lemma qrun_only r ops l i :
  qwf r -> next_id r + Z.of_nat (length ops) < W64 -> next_lease r + Z.of_nat (length ops) < W64 ->
  0 < l <= next_lease r -> only_job r l i ->
  exists r', qrun (Some r) ops = Some r' /\ qwf r' /\ only_job r' l i
    /\ next_id r' <= next_id r + Z.of_nat (length ops)
    /\ next_lease r <= next_lease r' <= next_lease r + Z.of_nat (length ops).
Proof.
  revert r. induction ops as [|o ops IH]; intros r Hw Hb1 Hb2 Hl Ho.
  { exists r. simpl. split_and!; done || lia. }
  cbn [length] in *.
  destruct (qstep_only r o l i) as (r1 & Es & Hw1 & Ho1 & Hi1 & Hl1); [done|lia|lia|done|done|].
  destruct (IH r1) as (r' & Er & Hw' & Ho' & Hi' & Hl'); [done|lia|lia|lia|done|].
  exists r'. unfold qrun. cbn [fold_left]. rewrite Es. split_and!; [done|done|done|lia|lia|lia].
Qed.

(** A stale lease is worth nothing.  A worker pops a job; whatever happens next, the job's
    reservation lapses and another worker pops the same job; from then on, whatever else
    happens, the first worker's lease deletes nothing and releases nothing, not even for its own
    application. *)
Theorem stale_lease_fenced cur1 cur2 r q1 v1 n1 a r1 ops1 r2 q2 v2 n2 b r3 ops2 k k' cur :
  qwf r ->
  next_id r + 2 + Z.of_nat (length ops1 + length ops2) < W64 ->
  next_lease r + 2 + Z.of_nat (length ops1 + length ops2) < W64 ->
  pop hash_q cur1 (Some r) q1 v1 n1 = (Some a, Some r1) -> held_at r1 (r_lease a) k ->
  qrun (Some r1) ops1 = Some r2 ->
  pop hash_q cur2 (Some r2) q2 v2 n2 = (Some b, Some r3) -> held_at r3 (r_lease b) k' ->
  id (jobs r3 !!! k') = id (jobs r1 !!! k) ->
  let q := qrun (Some r3) ops2 in
  delete cur q (r_lease a) = (false, q)
  /\ forall delay now, release cur q (r_lease a) delay now = (false, q).
Proof.
  intros Hw Hb1 Hb2 E1 Hk1 Er1 E2 Hk3 Hsame q. pose proof (qwf_next r Hw).
  pose proof (pop_lemma cur1 r q1 v1 n1 Hw ltac:(lia)) as H1. cbv zeta in H1. rewrite E1 in H1.
  destruct H1 as (r1' & [= <-] & Hw1 & Hi1 & [(? & _)|(k1 & Ea & Hl1 & _)]); [done|].
  injection Ea as Ea. assert (0 < r_lease a <= next_lease r1) as Hla by (rewrite Ea; cbn [r_lease]; lia).
  assert (only_job r1 (r_lease a) (id (jobs r1 !!! k))) as Ho1.
  { intros k2 Hk2. by rewrite (held_unique r1 (r_lease a) k2 k Hw1 ltac:(lia) Hk2 Hk1). }
  destruct (qrun_only r1 ops1 _ _ Hw1 ltac:(lia) ltac:(lia) Hla Ho1) as (r2' & Er & Hw2 & Ho2 & Hi2 & Hl2).
  rewrite Er1 in Er. injection Er as <-.
  destruct (qstep_only r2 (QPop cur2 q2 v2 n2) (r_lease a) _ Hw2 ltac:(lia) ltac:(lia) ltac:(lia) Ho2)
    as (r3' & Es & Hw3 & Ho3 & Hi3 & Hl3). cbn [qstep] in Es. rewrite E2 in Es. injection Es as <-.
  pose proof (pop_lemma cur2 r2 q2 v2 n2 Hw2 ltac:(lia)) as H2. cbv zeta in H2. rewrite E2 in H2.
  destruct H2 as (r3' & [= <-] & _ & _ & [(? & _)|(k2 & Eb & _)]); [done|].
  assert (r_lease b = next_lease r2 + 1) as Hlb by by injection Eb as ->.
  assert (only_job r3 (r_lease a) 0) as Hgone.
  { intros k3 Hk. exfalso. pose proof (Ho3 k3 Hk) as Hid. rewrite <- Hsame in Hid.
    assert (k3 = k') as -> by (apply (qwf_ids r3 Hw3); [apply Hk|done]).
    destruct Hk as [_ Hk], Hk3 as [_ Hk3]. lia. }
  destruct (qrun_only r3 ops2 (r_lease a) 0 Hw3 ltac:(lia) ltac:(lia) ltac:(lia) Hgone) as (r4 & Er4 & Hw4 & Ho4 & _).
  unfold q. rewrite Er4.
  assert (forall f, with_lease cur (Some r4) (r_lease a) f = (false, Some r4)) as Hf; [|split; intros; apply Hf].
  intros f. destruct (with_lease_lemma cur r4 (r_lease a) f) as [(k4 & Hk4 & _)|[E _]]; [|done].
  pose proof (Ho4 k4 Hk4). by destruct Hk4.
Qed.

(** ** Reports *)

Lemma bucket_spec c j now :
  0 <= now ->
  pending c + delayed c + reserved c < W64 - 1 ->
  0 <= pending c -> 0 <= delayed c -> 0 <= reserved c ->
  let c' := bucket c j now in
  pending c' = pending c + (if ready j now then 1 else 0)
  /\ pending c' + delayed c' + reserved c' = pending c + delayed c + reserved c + 1
  /\ delayed c <= delayed c' /\ reserved c <= reserved c'.
Proof.
  intros Hn Hb H1 H2 H3. unfold bucket, ready.
  destruct (Z.ltb_spec now (reserved_until j)), (Z.ltb_spec now (available_at j));
    cbn [pending delayed reserved]; rewrite wrap64_id by (words; lia);
    destruct (Z.leb_spec (available_at j) now); try lia;
    destruct (Z.eqb_spec (reserved_until j) 0), (Z.leb_spec (reserved_until j) now);
    cbn [andb orb]; lia.
Qed.

Lemma counts_loop js now c :
  0 <= now ->
  pending c + delayed c + reserved c + Z.of_nat (length js) < W64 ->
  0 <= pending c -> 0 <= delayed c -> 0 <= reserved c ->
  let c' := foldl (fun c j => bucket c j now) c js in
  pending c' = pending c + Z.of_nat (length (filter (fun j => ready j now = true) js))
  /\ pending c' + delayed c' + reserved c' = pending c + delayed c + reserved c + Z.of_nat (length js)
  /\ 0 <= delayed c' /\ 0 <= reserved c'.
Proof.
  intros Hn. revert c.
  induction js as [|j js IH]; intros c Hb H1 H2 H3; cbn [foldl length] in *; cbv zeta.
  { simpl. lia. }
  destruct (bucket_spec c j now) as (E1 & E2 & E3 & E4); [lia..|].
  assert (0 <= (if ready j now then 1 else 0)) as Hr by (by destruct (ready j now)).
  destruct (IH (bucket c j now)) as (F1 & F2 & F3 & F4); [lia..|].
  split_and!; [|lia|lia|lia]. rewrite F1, E1.
  destruct (ready j now) eqn:Er.
  - rewrite filter_cons_True by done. cbn [length]. lia.
  - rewrite filter_cons_False by congruence. lia.
Qed.

Lemma size_loop js now n :
  0 <= n -> n + Z.of_nat (length js) < W64 ->
  foldl (fun n j => if ready j now then wrap64 (n + 1) else n) n js
  = n + Z.of_nat (length (filter (fun j => ready j now = true) js)).
Proof.
  revert n. induction js as [|j js IH]; intros n H0 Hb; cbn [foldl length] in *; [simpl; lia|].
  destruct (ready j now) eqn:Er.
  - rewrite filter_cons_True by done. rewrite wrap64_id by (words; lia).
    rewrite IH by lia. cbn [length]. lia.
  - rewrite filter_cons_False by congruence. apply IH; lia.
Qed.

Lemma length_filter_le {A} (P : A -> Prop) `{!forall x, Decision (P x)} (l : list A) :
  (length (filter P l) <= length l)%nat.
Proof. apply length_filter. Qed.

(** The three buckets are disjoint and make up the queue's jobs; [size] is the pending
    bucket; and there is something pending exactly when [pop] has a job to give. *)
Theorem counts_partition cur r queue visibility now :
  qwf r -> 0 <= now -> next_lease r + 1 < W64 -> Z.of_nat (length (jobs r)) < W64 ->
  let qh := hash_q (Ns.key cur queue) in
  let c := counts hash_q cur (Some r) queue now in
  pending c + delayed c + reserved c
    = Z.of_nat (length (filter (fun j => on_queue qh j = true) (jobs r)))
  /\ 0 <= delayed c /\ 0 <= reserved c
  /\ size hash_q cur (Some r) queue now = pending c
  /\ (0 < pending c <-> (pop hash_q cur (Some r) queue visibility now).1 <> None).
Proof.
  intros Hw H0 Hb Hn qh c. unfold c, counts, size. fold qh.
  set (js := filter (fun j => on_queue qh j = true) (jobs r)).
  assert (Z.of_nat (length js) < W64) as Hjs.
  { pose proof (length_filter_le (fun j => on_queue qh j = true) (jobs r)). fold js in H. lia. }
  destruct (counts_loop js now no_counts) as (E1 & E2 & E3 & E4); [done|simpl; lia|done|done|done|].
  cbn [pending delayed reserved no_counts] in *.
  split_and!; [lia|done|done|rewrite size_loop by (done || lia); lia|].
  rewrite E1. pose proof (pop_lemma cur r queue visibility now Hw Hb) as H. cbv zeta in H.
  fold qh in H. destruct (pop _ _ _ _ _ _) as [o q']. cbn [fst].
  destruct H as (r' & _ & _ & _ & [(-> & _ & _ & Hno)|(k & -> & _ & _ & Hk & Hc & _)]).
  - split; [|done]. intros Hp. exfalso.
    destruct (filter (fun j => ready j now = true) js) as [|j l] eqn:Ef; [simpl in Hp; lia|].
    assert (j ∈ filter (fun j => ready j now = true) js) as Hj by (rewrite Ef; set_solver).
    apply list_elem_of_filter in Hj as [Hr [Hq Hin]%list_elem_of_filter].
    apply list_elem_of_lookup in Hin as [k Hk]. apply lookup_lookup_total in Hk.
    specialize (Hno k). unfold candidate in Hno. by rewrite Hk, Hq, Hr in Hno.
  - split; [done|intros _]. apply andb_true_iff in Hc as [Hq Hr].
    assert (jobs r !!! k ∈ filter (fun j => ready j now = true) js) as Hj.
    { apply list_elem_of_filter. split; [done|]. apply list_elem_of_filter. split; [done|].
      apply list_elem_of_lookup. exists k. by apply lookup_total_lookup. }
    destruct (filter _ js); [by apply not_elem_of_nil in Hj|]. simpl. lia.
Qed.
End Spec.

(** ** The theorems at work: one job, pushed, popped, popped again after its lease lapsed *)

Definition sum_hash (b : bytes) : Z := foldr Z.add 0 b.
Definition r_empty : ring := new_ring 16.
Definition r_pushed : ring := default r_empty (push sum_hash None (Some r_empty) [1] [42] 0 1000).2.
Definition r_popped : ring := default r_empty (pop sum_hash None (Some r_pushed) [1] 60 2000).2.
Definition r_again : ring := default r_empty (pop sum_hash None (Some r_popped) [1] 60 62000).2.

Lemma r_empty_wf : qwf r_empty.
Proof. apply qwf_new. Qed.

Lemma push_accepts_or_refuses_witness :
  push sum_hash None (Some r_empty) [1] [42] 0 1000 = (1, Some r_pushed)
  /\ qwf r_pushed
  /\ (1 <> 0 <-> (length [42] <= PAYLOAD_MAX)%nat
        /\ exists k, (k < length (jobs r_empty))%nat /\ id (jobs r_empty !!! k) = 0).
Proof.
  assert (push sum_hash None (Some r_empty) [1] [42] 0 1000 = (1, Some r_pushed)) as E
    by (vm_compute; reflexivity).
  destruct (push_accepts_or_refuses sum_hash None r_empty [1] [42] 0 1000 1 r_pushed r_empty_wf
    ltac:(done) E) as (Hw & Hi & _).
  split; [exact E|]. split; [exact Hw|exact Hi].
Defined.

Lemma r_pushed_wf : qwf r_pushed.
Proof.
  pose proof (push_lemma sum_hash None r_empty [1] [42] 0 1000 r_empty_wf ltac:(done)) as H.
  unfold r_pushed. destruct (push _ _ _ _ _ _ _) as [i q']. by destruct H as (r' & -> & Hw & _).
Qed.

Lemma pop_oldest_ready_witness :
  pop sum_hash None (Some r_pushed) [1] 60 2000 = (Some (mkReserved 1 1 [42]), Some r_popped)
  /\ qwf r_popped.
Proof.
  assert (pop sum_hash None (Some r_pushed) [1] 60 2000 = (Some (mkReserved 1 1 [42]), Some r_popped))
    as E by (vm_compute; reflexivity).
  split; [exact E|].
  by apply (pop_oldest_ready sum_hash None r_pushed [1] 60 2000 _ _ r_pushed_wf ltac:(done) E).
Defined.

Lemma stale_lease_fenced_witness :
  delete None (Some r_again) 1 = (false, Some r_again)
  /\ (delete None (Some r_again) 2).1 = true.
Proof.
  split; [|by vm_compute].
  destruct (stale_lease_fenced sum_hash None None r_pushed [1] 60 2000 (mkReserved 1 1 [42]) r_popped
    [] r_popped [1] 60 62000 (mkReserved 2 2 [42]) r_again [] 1 1 None) as [H _].
  - apply r_pushed_wf.
  - vm_compute. reflexivity.
  - vm_compute. reflexivity.
  - vm_compute. reflexivity.
  - split; vm_compute; done.
  - reflexivity.
  - vm_compute. reflexivity.
  - split; vm_compute; done.
  - vm_compute. reflexivity.
  - exact H.
Defined.

Lemma ack_or_retry_witness :
  exists rd rr, delete None (Some r_popped) 1 = (true, Some rd) /\ qwf rd
    /\ release None (Some r_popped) 1 5 3000 = (true, Some rr) /\ qwf rr.
Proof.
  assert (qwf r_popped) as Hw.
  { pose proof (pop_lemma sum_hash None r_pushed [1] 60 2000 r_pushed_wf ltac:(done)) as H.
    cbv zeta in H. unfold r_popped. destruct (pop _ _ _ _ _ _) as [o q'].
    by destruct H as (r' & -> & ? & _). }
  destruct (ack_or_retry None r_popped 1 5 3000 Hw) as [H _].
  destruct (H 1%nat) as (rd & rr & Hd & Hwd & _ & _ & Hr & Hwr & _ & _); [split; by vm_compute|done|by vm_compute|].
  by exists rd, rr.
Defined.

Lemma counts_partition_witness :
  counts sum_hash None (Some r_pushed) [1] 2000 = mkCounts 1 0 0 1000
  /\ size sum_hash None (Some r_pushed) [1] 2000 = 1.
Proof.
  split; [by vm_compute|].
  destruct (counts_partition sum_hash None r_pushed [1] 60 2000 r_pushed_wf ltac:(done) ltac:(done)
    ltac:(by vm_compute)) as (_ & _ & _ & E & _).
  rewrite E. by vm_compute.
Defined.
