(* ===== verification/SQueueCrash.v ===== *)
(** The job queue and death: [push] store by store, so that a process may die between any two
    of them, and the persistent ring's header, which decides whether a ring left by an earlier
    process is taken over or recreated. *)

From S2P Require Import Prelude Bytes Ns SQueue SQueueSpec.

(** ** The stores of [push] into the slot it found *)

Definition with_id (i : Z) (j : job) : job :=
  mkJob i (queue_hash j) (available_at j) (reserved_until j) (lease j) (created_at j) (name j)
    (attempts j) (payload j).

(** [junk] and [junk'] are what the buffers hold once the new lengths are written and the bytes
    are not. *)
Definition push_stores (i qh avail created : Z) (queue pl junk junk' : bytes) : list (job -> job) :=
  [ (fun j => mkJob (id j) qh (available_at j) (reserved_until j) (lease j) (created_at j) (name j) (attempts j) (payload j));
    (fun j => mkJob (id j) (queue_hash j) avail (reserved_until j) (lease j) (created_at j) (name j) (attempts j) (payload j));
    (fun j => mkJob (id j) (queue_hash j) (available_at j) (reserved_until j) (lease j) created (name j) (attempts j) (payload j));
    (fun j => mkJob (id j) (queue_hash j) (available_at j) (reserved_until j) (lease j) (created_at j) junk (attempts j) (payload j));
    (fun j => mkJob (id j) (queue_hash j) (available_at j) (reserved_until j) (lease j) (created_at j) (take QUEUE_NAME_MAX queue) (attempts j) (payload j));
    (fun j => mkJob (id j) (queue_hash j) (available_at j) 0 (lease j) (created_at j) (name j) (attempts j) (payload j));
    (fun j => mkJob (id j) (queue_hash j) (available_at j) (reserved_until j) 0 (created_at j) (name j) (attempts j) (payload j));
    (fun j => mkJob (id j) (queue_hash j) (available_at j) (reserved_until j) (lease j) (created_at j) (name j) 0 (payload j));
    (fun j => mkJob (id j) (queue_hash j) (available_at j) (reserved_until j) (lease j) (created_at j) (name j) (attempts j) junk');
    (fun j => mkJob (id j) (queue_hash j) (available_at j) (reserved_until j) (lease j) (created_at j) (name j) (attempts j) pl);
    with_id i ].

Definition run_stores (ss : list (job -> job)) (j : job) : job := foldl (fun j f => f j) j ss.

Section Crash.
Context (hash_q : bytes -> Z).

(** [push] up to the slot it takes, and the ring after [n] of its stores; [None] when it would
    not store anything. *)
Definition push_dies cur (r : ring) (queue pl : bytes) (delay now : Z) (junk junk' : bytes) (n : nat)
    : option (nat * ring) :=
  let queue := Ns.key cur queue in
  if (PAYLOAD_MAX <? length pl)%nat then None
  else
    let i := wrap64 (next_id r + 1) in
    let slots := length (jobs r) in
    match find_free (jobs r) (probe_slots (Z.to_nat (i mod Z.of_nat slots)) slots) with
    | None => None
    | Some k =>
        let ss := push_stores i (hash_q queue) (after_secs now delay) now queue pl junk junk' in
        Some (k, mkRing i (next_lease r) (lanes r)
                   (<[k := run_stores (take n ss) (jobs r !!! k)]> (jobs r)))
    end.

(** Before the last store the slot is as free as it was. *)
Lemma push_stores_id n i qh avail created queue pl junk junk' j :
  (n < 11)%nat -> id (run_stores (take n (push_stores i qh avail created queue pl junk junk')) j) = id j
    /\ (lease (run_stores (take n (push_stores i qh avail created queue pl junk junk')) j) = lease j
        \/ lease (run_stores (take n (push_stores i qh avail created queue pl junk junk')) j) = 0).
Proof. intros Hn. do 11 (destruct n as [|n]; [cbn; auto|]). lia. Qed.

Lemma push_stores_all i qh avail created queue pl junk junk' j :
  run_stores (push_stores i qh avail created queue pl junk junk') j
  = mkJob i qh avail 0 0 created (take QUEUE_NAME_MAX queue) 0 pl.
Proof. done. Qed.

(** Two tables with the same occupied slots. *)
Definition same_jobs (js js' : list job) : Prop :=
  length js' = length js /\ forall k, id (js' !!! k) = id (js !!! k)
    /\ (id (js !!! k) <> 0 -> js' !!! k = js !!! k).

Lemma same_pop_scan js js' qh now w best :
  same_jobs js js' -> pop_scan js' qh now w best = pop_scan js qh now w best.
Proof.
  intros [_ Hs]. revert best. induction w as [|k w IH]; intros best; cbn [pop_scan]; [done|].
  destruct (Hs k) as [E1 E2]. rewrite E1.
  destruct (Z.eqb_spec (id (js !!! k)) 0); cbn [orb]; [apply IH|]. rewrite E2 by done.
  destruct (negb _); [apply IH|]. destruct (ready _ _ && _); apply IH.
Qed.

Lemma same_find_lease js js' l w : same_jobs js js' -> find_lease js' l w = find_lease js l w.
Proof.
  intros [_ Hs]. induction w as [|k w IH]; cbn [find_lease]; [done|].
  destruct (Hs k) as [E1 E2]. rewrite E1.
  destruct (Z.eqb_spec (id (js !!! k)) 0); cbn [negb andb]; [apply IH|]. rewrite E2 by done.
  by destruct (lease _ =? l).
Qed.

Lemma same_filter js js' (P : job -> Prop) `{!forall j, Decision (P j)} :
  (forall j, P j -> id j <> 0) -> same_jobs js js' -> filter P js' = filter P js.
Proof.
  intros HP. revert js'. induction js as [|j js IH]; intros [|j' js'] [Hl Hs]; try done.
  assert (same_jobs js js') as Hs'.
  { split; [by injection Hl|]. intros k. by apply (Hs (S k)). }
  destruct (Hs 0%nat) as [E1 E2]. cbn in E1, E2. rewrite !filter_cons, (IH js' Hs').
  destruct (decide (id j = 0)) as [E|E].
  - rewrite !decide_False; [done|intros ?%HP; congruence..].
  - by rewrite (E2 E).
Qed.

Lemma on_queue_id qh j : on_queue qh j = true -> id j <> 0.
Proof. unfold on_queue. intros [?%negb_true_iff%Z.eqb_neq _]%andb_true_iff. done. Qed.

(** C40.  A process that dies anywhere inside [push], before the last store, has changed nothing
    anyone can see: the slot is still free, every other job is intact, the invariant holds, and
    every later [pop], [delete], [release], [counts] and [size] answers as if it had never
    started.  After the last store the job is complete. *)
Theorem push_crash_safe cur r queue pl delay now junk junk' n k r' :
  qwf r -> next_id r + 1 < W64 ->
  push_dies cur r queue pl delay now junk junk' n = Some (k, r') ->
  ((11 <= n)%nat -> push hash_q cur (Some r) queue pl delay now = (next_id r + 1, Some r'))
  /\ ((n < 11)%nat ->
      qwf r' /\ id (jobs r' !!! k) = 0 /\ same_jobs (jobs r) (jobs r')
      /\ forall c q v d t l,
         (pop hash_q c (Some r') q v t).1 = (pop hash_q c (Some r) q v t).1
         /\ (delete c (Some r') l).1 = (delete c (Some r) l).1
         /\ (release c (Some r') l d t).1 = (release c (Some r) l d t).1
         /\ counts hash_q c (Some r') q t = counts hash_q c (Some r) q t
         /\ size hash_q c (Some r') q t = size hash_q c (Some r) q t).
Proof.
  intros Hw Hb E. unfold push_dies in E. pose proof (qwf_next r Hw) as Hnx.
  destruct (PAYLOAD_MAX <? length pl)%nat eqn:Epl; [done|].
  rewrite wrap64_id in E by (words; lia).
  pose proof (find_free_spec (jobs r) (probe_slots (Z.to_nat ((next_id r + 1) mod Z.of_nat (length (jobs r))))
    (length (jobs r)))) as Hf.
  destruct (find_free _ _) as [k'|] eqn:Ef; [|done]. injection E as -> <-.
  destruct Hf as [Hk%probe_slots_bound H0]. cbn [jobs]. split; intros Hn.
  - rewrite take_ge by done. rewrite push_stores_all.
    unfold push. rewrite Epl. rewrite wrap64_id by (words; lia). cbn [jobs]. by rewrite Ef.
  - set (j' := run_stores _ _).
    destruct (push_stores_id n (next_id r + 1) (hash_q (key cur queue)) (after_secs now delay) now
      (key cur queue) pl junk junk' (jobs r !!! k) Hn) as [Hid Hle]. fold j' in Hid, Hle.
    rewrite H0 in Hid. pose proof (qwf_lease r Hw k).
    assert (same_jobs (jobs r) (<[k := j']> (jobs r))) as Hs.
    { split; [by rewrite length_insert|]. intros k1. rewrite lookup_total_insert_dec by done.
      case_decide; [subst k1|done]. split; [congruence|done]. }
    split; [|split; [by rewrite list_lookup_total_insert_eq|split; [exact Hs|]]].
    { apply qwf_insert; try done; try lia. }
    intros c q v d t l. pose proof Hs as [Hlen _]. split_and!.
    + unfold pop, mark_polled. cbn [lanes]. destruct (lane_for _ _ _) as [[i|] ls]; cbn [jobs set_lanes];
        rewrite Hlen, (same_pop_scan _ _ _ _ _ _ Hs);
        pose proof (pop_scan_spec (jobs r) (hash_q (key c q)) t (seq 0 (length (jobs r))) None) as Hp;
        (destruct (pop_scan _ _ _ _ _) as [[[k1 a1] i1]|]; [|done]);
        destruct Hp as ([?|(_ & Hc & _ & _)] & _); try done;
        apply andb_true_iff in Hc as [[Hc%negb_true_iff%Z.eqb_neq _]%andb_true_iff _];
        unfold pop_commit; cbn [jobs set_lanes next_lease];
        rewrite (proj2 (proj2 Hs k1) Hc); destruct (negb _); [done| |done|];
        by destruct (_ || _).
    + unfold delete, with_lease. cbn [jobs]. destruct (l =? 0); [done|].
      rewrite Hlen, (same_find_lease _ _ _ _ Hs).
      pose proof (find_lease_spec (jobs r) l (seq 0 (length (jobs r)))) as Hp.
      destruct (find_lease _ _ _) as [k1|]; [|done]. destruct Hp as [Hp _].
      rewrite (proj2 (proj2 Hs k1) Hp). by destruct (negb _).
    + unfold release, with_lease. cbn [jobs]. destruct (l =? 0); [done|].
      rewrite Hlen, (same_find_lease _ _ _ _ Hs).
      pose proof (find_lease_spec (jobs r) l (seq 0 (length (jobs r)))) as Hp.
      destruct (find_lease _ _ _) as [k1|]; [|done]. destruct Hp as [Hp _].
      rewrite (proj2 (proj2 Hs k1) Hp). by destruct (negb _).
    + unfold counts. cbn [jobs]. by rewrite (same_filter (jobs r) _ _ (on_queue_id _) Hs).
    + unfold size. cbn [jobs]. by rewrite (same_filter (jobs r) _ _ (on_queue_id _) Hs).
Qed.
End Crash.

(** ** The persistent ring *)

(** The fields of [Ring] that say what it is. *)
Record Header := mkHeader {
  magic : Z; version : Z; hslots : Z; slot_size : Z; payload_max : Z; name_max : Z }.
#[export] Instance Header_eq_dec : EqDecision Header.
Proof. solve_decision. Defined.
Definition MAGIC : Z := 0x41534b5251554531.
Definition LAYOUT_VERSION : Z := 2.
(** [size_of::<Job>()] under [repr(C)]: 56 of words, the name and three lengths, the payload,
    rounded up to 8. *)
Definition JOB_SIZE : Z := 32936.
Definition u32 (x : Z) : Z := x mod 2 ^ 32.

Definition zero_header : Header := mkHeader 0 0 0 0 0 0.
(** [write_header], store by store. *)
Definition header_stores (slots : Z) : list (Header -> Header) :=
  [ (fun h => mkHeader (magic h) LAYOUT_VERSION (hslots h) (slot_size h) (payload_max h) (name_max h));
    (fun h => mkHeader (magic h) (version h) (u32 slots) (slot_size h) (payload_max h) (name_max h));
    (fun h => mkHeader (magic h) (version h) (hslots h) (u32 JOB_SIZE) (payload_max h) (name_max h));
    (fun h => mkHeader (magic h) (version h) (hslots h) (slot_size h) (u32 (Z.of_nat PAYLOAD_MAX)) (name_max h));
    (fun h => mkHeader (magic h) (version h) (hslots h) (slot_size h) (payload_max h) (u32 (Z.of_nat QUEUE_NAME_MAX)));
    (fun h => mkHeader MAGIC (version h) (hslots h) (slot_size h) (payload_max h) (name_max h)) ].
Definition write_header (n : nat) (slots : Z) (h : Header) : Header :=
  foldl (fun h f => f h) h (take n (header_stores slots)).

(** The first field that does not match. *)
Definition header_mismatch (h : Header) (slots : Z) : option bytes :=
  if negb (magic h =? MAGIC) then Some (lit "magic")
  else fst <$> find (fun c => negb (c.2.1 =? c.2.2))
    [ ((lit "version"), (version h, LAYOUT_VERSION)); ((lit "slots"), (hslots h, u32 slots));
      ((lit "slot_size"), (slot_size h, u32 JOB_SIZE));
      ((lit "payload_max"), (payload_max h, u32 (Z.of_nat PAYLOAD_MAX)));
      ((lit "name_max"), (name_max h, u32 (Z.of_nat QUEUE_NAME_MAX))) ].

(** A named shared-memory object that exists; [mappable] when it is large enough. *)
Record object := mkObject { o_header : Header; o_ring : ring; mappable : bool }.
Definition create (slots : Z) : ring * object :=
  (new_ring slots, mkObject (write_header 6 slots zero_header) (new_ring slots) true).

(** [map_named] and [recreate], on slots already raised to 16, when the system calls on a fresh object succeed: the ring mapped,
    how many jobs were found in it, and the object left behind. *)
Definition map_named (obj : option object) (slots : Z) : ring * nat * object :=
  match obj with
  | None => let '(r, o) := create slots in (r, 0%nat, o)
  | Some o =>
      if negb (mappable o) then let '(r, o') := create slots in (r, 0%nat, o')
      else match header_mismatch (o_header o) slots with
           | Some _ => let '(r, o') := create slots in (r, 0%nat, o')
           | None => (o_ring o, length (filter (fun j => id j <> 0) (jobs (o_ring o))), o)
           end
  end.
Definition init_persistent (q : option ring) (obj : option object) (slots : Z)
    : option ring * option object :=
  match q with
  | Some r => (Some r, obj)
  | None => let '(r, _, o) := map_named obj (Z.max slots 16) in (Some r, Some o)
  end.

Definition good_header (slots : Z) : Header :=
  mkHeader MAGIC LAYOUT_VERSION (u32 slots) (u32 JOB_SIZE) (u32 (Z.of_nat PAYLOAD_MAX))
    (u32 (Z.of_nat QUEUE_NAME_MAX)).

Lemma header_mismatch_None h slots : header_mismatch h slots = None <-> h = good_header slots.
Proof.
  split.
  - unfold header_mismatch. destruct (Z.eqb_spec (magic h) MAGIC); cbn [negb]; [|done].
    cbn [find fst snd].
    repeat match goal with
    | |- context [negb (?x =? ?y)] => destruct (Z.eqb_spec x y); cbn [negb]; [|done]
    end.
    intros _. destruct h; cbn [magic version hslots slot_size payload_max name_max] in *. by subst.
  - intros ->. unfold header_mismatch, good_header.
    cbn [magic version hslots slot_size payload_max name_max find fst snd].
    by rewrite !Z.eqb_refl.
Qed.

(** A ring is taken over exactly when every field of its header is this binary's; one whose
    creator died before the last store of the header is refused for its magic.  Taken over, it
    keeps its jobs and they are counted; otherwise the ring is new and empty; and what is left
    behind is taken over by the next start with the same geometry. *)
Theorem ring_attach slots obj :
  (forall h, header_mismatch h slots = None <-> h = good_header slots)
  /\ write_header 6 slots zero_header = good_header slots
  /\ (forall n, (n < 6)%nat -> header_mismatch (write_header n slots zero_header) slots = Some (lit "magic"))
  /\ (let '(r, n, o) := map_named obj slots in
      n = length (filter (fun j => id j <> 0) (jobs r))
      /\ match obj with
         | Some o0 => if bool_decide (mappable o0 = true /\ o_header o0 = good_header slots)
                      then r = o_ring o0 /\ o = o0 else r = new_ring slots
         | None => r = new_ring slots
         end
      /\ (map_named (Some o) slots).1.1 = o_ring o).
Proof.
  split; [intros h; apply header_mismatch_None|]. split; [done|]. split.
  { intros n Hn. do 6 (destruct n as [|n]; [done|]). lia. }
  assert (filter (fun j => id j <> 0) (jobs (new_ring slots)) = []) as Hnew.
  { cbn [jobs new_ring]. induction (Z.to_nat (Z.max slots 16)) as [|n IH]; [done|].
    cbn [replicate]. rewrite filter_cons_False by (intros H; by apply H). exact IH. }
  assert (forall o, mappable o = true -> o_header o = good_header slots ->
    map_named (Some o) slots = (o_ring o, length (filter (fun j => id j <> 0) (jobs (o_ring o))), o)) as Hgood.
  { intros o Hm Ho. cbn [map_named]. rewrite Hm, Ho. cbn [negb].
    by rewrite (proj2 (header_mismatch_None _ _) eq_refl). }
  assert (forall o r, create slots = (r, o) -> 0%nat = length (filter (fun j => id j <> 0) (jobs r))
    /\ r = new_ring slots /\ (map_named (Some o) slots).1.1 = o_ring o) as Hcr.
  { intros o r [= <- <-]. rewrite Hnew. split; [done|]. split; [done|]. by rewrite Hgood. }
  destruct obj as [o|]; [|by apply Hcr].
  case_bool_decide as Hb.
  - destruct Hb as [Hm Ho]. rewrite Hgood by done. split_and!; [done|done|done|]. by rewrite Hgood.
  - cbn [map_named]. destruct (mappable o) eqn:Em; cbn [negb]; [|by apply Hcr].
    destruct (header_mismatch (o_header o) slots) eqn:Eh; [by apply Hcr|].
    exfalso. apply Hb. split; [done|]. by apply header_mismatch_None.
Qed.

Lemma ring_attach_witness :
  (map_named (Some (mkObject (good_header 16) r_pushed true)) 16).1 = (r_pushed, 1%nat).
Proof.
  destruct (ring_attach 16 (Some (mkObject (good_header 16) r_pushed true))) as (_ & _ & _ & H).
  destruct (map_named _ _) as [[r n] o]. destruct H as (Hn & Hr & _).
  rewrite bool_decide_true in Hr by (split; reflexivity). destruct Hr as [-> _]. cbn [fst]. rewrite Hn.
  reflexivity.
Defined.

Lemma push_crash_safe_witness :
  exists k r', push_dies sum_hash None r_pushed [1] [7] 0 1500 [9] [9] 5 = Some (k, r')
    /\ qwf r' /\ (pop sum_hash None (Some r') [1] 60 2000).1 = Some (mkReserved 1 1 [42]).
Proof.
  eexists _, _. split; [vm_compute; reflexivity|].
  match goal with |- qwf ?x /\ _ => assert (push_dies sum_hash None r_pushed [1] [7] 0 1500 [9] [9] 5
    = Some (2%nat, x)) as E by (vm_compute; reflexivity) end.
  destruct (push_crash_safe sum_hash None r_pushed [1] [7] 0 1500 [9] [9] 5 2 _ r_pushed_wf ltac:(done) E)
    as [_ H].
  destruct (H ltac:(lia)) as (Hw & _ & _ & Hs). split; [exact Hw|].
  destruct (Hs None [1] 60 0 2000 0) as (-> & _). vm_compute. reflexivity.
Defined.
