(* ===== verification/SQueueRace.v ===== *)
(** The job queue with its users interleaved: every slot visit of [push], [pop], [delete] and
    [release] is one step under that slot's lock, in any order, any number of workers.

    The history records every reservation granted, with the taker's own clock reading, and every
    reservation ended by its holder.  A job is never reserved twice at once.  ([pop]'s lane
    stamps touch no job and are left out here.) *)

From S2P Require Import Prelude Bytes Ns SQueue SQueueSpec.

Inductive task :=
| PushStart (j : job)                       (* everything but its id *)
| PushProbing (j : job) (w : list nat)
| PopScanning (qh visibility now : Z) (w : list nat) (best : option (nat * Z * Z))
| PopCommitting (visibility now : Z) (k : nat) (want_id : Z)
| AckScanning (cur : option App) (l : Z) (retry : option Z) (w : list nat)
| Idle.

Inductive event :=
| Granted (i l now until : Z)
| Ended (l : Z).

(** The newest event comes first. *)
Abbreviation history := (list event).

Definition with_new_id (j : job) (i : Z) : job :=
  mkJob i (queue_hash j) (available_at j) 0 0 (created_at j) (name j) 0 (payload j).

(** One step of a task: its next state, the ring, what is recorded. *)
Definition task_step (r : ring) (t : task) : task * ring * list event :=
  match t with
  | PushStart j =>
      let i := wrap64 (next_id r + 1) in
      let slots := length (jobs r) in
      (PushProbing (with_new_id j i) (probe_slots (Z.to_nat (i mod Z.of_nat slots)) slots),
       mkRing i (next_lease r) (lanes r) (jobs r), [])
  | PushProbing j [] => (Idle, r, [])
  | PushProbing j (k :: w) =>
      if id (jobs r !!! k) =? 0 then (Idle, set_jobs r (<[k := j]> (jobs r)), [])
      else (PushProbing j w, r, [])
  | PopScanning qh v now [] None => (Idle, r, [])
  | PopScanning qh v now [] (Some (k, _, want)) => (PopCommitting v now k want, r, [])
  | PopScanning qh v now (k :: w) best =>
      let j := jobs r !!! k in
      let best := if (id j =? 0) || negb (queue_hash j =? qh) then best
                  else if ready j now && better (available_at j) (id j) best
                       then Some (k, available_at j, id j) else best in
      (PopScanning qh v now w best, r, [])
  | PopCommitting v now k want =>
      let j := jobs r !!! k in
      if negb (id j =? want) then (Idle, r, [])
      else if (now <? available_at j) || negb (reserved_until j =? 0) && (now <? reserved_until j)
           then (Idle, r, [])
      else
        let l := wrap64 (next_lease r + 1) in
        (Idle, mkRing (next_id r) l (lanes r) (<[k := reserve j l (after_secs now v)]> (jobs r)),
         [Granted (id j) l now (after_secs now v)])
  | AckScanning cur l retry [] => (Idle, r, [])
  | AckScanning cur l retry (k :: w) =>
      let j := jobs r !!! k in
      if negb (id j =? 0) && (lease j =? l) then
        if negb (slot_in_namespace cur j) then (Idle, r, [])
        else (Idle, set_jobs r (<[k := match retry with
                                       | None => freed j
                                       | Some avail => released j avail
                                       end]> (jobs r)), [Ended l])
      else (AckScanning cur l retry w, r, [])
  | Idle => (Idle, r, [])
  end.

(** The calls as they start. *)
Definition start_pop (r : ring) (qh visibility now : Z) : task :=
  PopScanning qh visibility now (seq 0 (length (jobs r))) None.
Definition start_ack (r : ring) cur (l : Z) (retry : option Z) : task :=
  if l =? 0 then Idle else AckScanning cur l retry (seq 0 (length (jobs r))).

Record sys := mkSys { sring : ring; tasks : list task; hist : history }.
Definition sys_step (s : sys) (n : nat) : sys :=
  match tasks s !! n with
  | None => s
  | Some t =>
      let '(t', r', ev) := task_step (sring s) t in mkSys r' (<[n := t']> (tasks s)) (ev ++ hist s)
  end.
Definition run (s : sys) (sched : list nat) : sys := fold_left sys_step sched s.

(** The reservation of job [i] that nobody has ended yet: its lease and its end. *)
Fixpoint outstanding (h : history) (i : Z) : option (Z * Z) :=
  match h with
  | [] => None
  | Granted i' l _ until :: h' => if i' =? i then Some (l, until) else outstanding h' i
  | Ended l :: h' =>
      match outstanding h' i with
      | Some (l', until) => if l' =? l then None else Some (l', until)
      | None => None
      end
  end.

(** Every reservation was granted when the one before it, if still outstanding, had run out by
    the taker's clock; and no lease was used twice. *)
Fixpoint exclusive (h : history) (bound : Z) : Prop :=
  match h with
  | [] => True
  | Granted i l now until :: h' =>
      (forall l' until', outstanding h' i = Some (l', until') -> until' <= now)
      /\ now <= until /\ l <= bound /\ exclusive h' (l - 1)
  | Ended _ :: h' => exclusive h' bound
  end.

(** ** The invariant *)

Definition pending_id (t : task) : option Z :=
  match t with PushProbing j _ => Some (id j) | _ => None end.
Definition sane (t : task) : Prop :=
  match t with
  | PushStart j => True
  | PushProbing j _ => reserved_until j = 0 /\ lease j = 0
  | PopScanning _ v now _ best =>
      0 <= now <= u64_max /\ 0 <= v /\ match best with Some (_, _, i) => i <> 0 | None => True end
  | PopCommitting v now _ want => 0 <= now <= u64_max /\ 0 <= v /\ want <> 0
  | _ => True
  end.

Record inv (s : sys) : Prop := {
  inv_lease : 0 <= next_lease (sring s);
  inv_id : forall k, 0 <= id (jobs (sring s) !!! k) <= next_id (sring s);
  inv_ids : forall k k', id (jobs (sring s) !!! k) <> 0 ->
    id (jobs (sring s) !!! k) = id (jobs (sring s) !!! k') -> k = k';
  inv_pend : forall n t i, tasks s !! n = Some t -> pending_id t = Some i ->
    0 < i <= next_id (sring s) /\ outstanding (hist s) i = None
    /\ (forall k, id (jobs (sring s) !!! k) <> i)
    /\ forall m t', tasks s !! m = Some t' -> pending_id t' = Some i -> m = n;
  inv_new : forall i, next_id (sring s) < i -> outstanding (hist s) i = None;
  inv_sane : forall n t, tasks s !! n = Some t -> sane t;
  inv_out : forall k l until, id (jobs (sring s) !!! k) <> 0 ->
    outstanding (hist s) (id (jobs (sring s) !!! k)) = Some (l, until) ->
    lease (jobs (sring s) !!! k) = l /\ reserved_until (jobs (sring s) !!! k) = until;
  inv_hist : exclusive (hist s) (next_lease (sring s)) }.

(** A step that changes neither jobs nor history, and starts no push. *)
Lemma inv_task s n t t' :
  inv s -> tasks s !! n = Some t -> pending_id t' = None \/ pending_id t' = pending_id t -> sane t' ->
  inv (mkSys (sring s) (<[n := t']> (tasks s)) (hist s)).
Proof.
  intros [] Hn Hp Hs. split; cbn [sring tasks hist]; try done.
  - intros m t1 i Hm Hi. apply list_lookup_insert_Some in Hm as [(-> & <- & _)|[Hne Hm]].
    + destruct Hp as [Hp|Hp]; [congruence|]. rewrite Hp in Hi.
      destruct (inv_pend0 m t i Hn Hi) as (H1 & H2 & H3 & H4). split_and!; [lia|lia|done|done|].
      intros m' t2 Hm' Hi'. apply list_lookup_insert_Some in Hm' as [(-> & _)|[_ Hm']]; [done|].
      by eapply H4.
    + destruct (inv_pend0 m t1 i Hm Hi) as (H1 & H2 & H3 & H4). split_and!; [lia|lia|done|done|].
      intros m' t2 Hm' Hi'. apply list_lookup_insert_Some in Hm' as [(-> & <- & _)|[_ Hm']]; [|by eapply H4].
      destruct Hp as [Hp|Hp]; [congruence|]. rewrite Hp in Hi'. by eapply H4.
  - intros m t1 Hm. apply list_lookup_insert_Some in Hm as [(_ & <- & _)|[_ Hm]]; [done|by eapply inv_sane0].
Qed.

Lemma exclusive_mono h b b' : b <= b' -> exclusive h b -> exclusive h b'.
Proof.
  revert b b'. induction h as [|[i l now until|l] h IH]; intros b b' Hb; cbn [exclusive]; [done| |by apply IH].
  intros (H1 & H2 & H3 & H4). split_and!; [done|done|lia|done].
Qed.

Lemma outstanding_ended l h i l' until :
  outstanding (Ended l :: h) i = Some (l', until) -> outstanding h i = Some (l', until) /\ l' <> l.
Proof.
  cbn [outstanding]. destruct (outstanding h i) as [[l1 u1]|]; [|done].
  destruct (Z.eqb_spec l1 l); [done|]. by intros [= <- <-].
Qed.

Lemma after_secs_ge now v : 0 <= now <= u64_max -> 0 <= v -> now <= after_secs now v.
Proof. unfold after_secs. words. lia. Qed.

Lemma step_push_start s n j :
  inv s -> next_id (sring s) + 1 < W64 -> tasks s !! n = Some (PushStart j) -> inv (sys_step s n).
Proof.
  intros Hi Hb Hn. destruct Hi. unfold sys_step. rewrite Hn. cbn [task_step].
  assert (0 <= next_id (sring s)) by (specialize (inv_id0 0%nat); lia).
  rewrite wrap64_id by (words; lia).
  split; cbn [sring tasks hist Datatypes.app next_id next_lease jobs]; try done.
  - intros k. specialize (inv_id0 k). lia.
  - intros m t i Hm Hp. apply list_lookup_insert_Some in Hm as [(-> & <- & _)|[Hne Hm]].
    + injection Hp as <-. split; [lia|]. split; [apply inv_new0; lia|]. split.
      * intros k. specialize (inv_id0 k). lia.
      * intros m' t' Hm' Hp'. apply list_lookup_insert_Some in Hm' as [(-> & _)|[_ Hm']]; [done|].
        destruct (inv_pend0 _ _ _ Hm' Hp') as (? & _). lia.
    + destruct (inv_pend0 _ _ _ Hm Hp) as (H1 & H2 & H3 & H4). split; [lia|]. split_and!; [done|done|].
      intros m' t' Hm' Hp'. apply list_lookup_insert_Some in Hm' as [(_ & <- & _)|[_ Hm']]; [|by eapply H4].
      injection Hp' as Hp'. cbn [id with_new_id] in Hp'. lia.
  - intros i Hlt. apply inv_new0. lia.
  - intros m t Hm. apply list_lookup_insert_Some in Hm as [(_ & <- & _)|[_ Hm]]; [done|by eapply inv_sane0].
Qed.

Lemma step_push_store s n j k w :
  inv s -> tasks s !! n = Some (PushProbing j (k :: w)) -> id (jobs (sring s) !!! k) = 0 ->
  inv (mkSys (set_jobs (sring s) (<[k := j]> (jobs (sring s)))) (<[n := Idle]> (tasks s)) (hist s)).
Proof.
  intros Hi Hn Hk. destruct Hi. destruct (inv_pend0 _ _ _ Hn eq_refl) as (Hj & Hout & Hnot & Huniq).
  destruct (decide (k < length (jobs (sring s)))%nat) as [Hlt|Hlt].
  2:{ rewrite list_insert_ge by lia. replace (set_jobs (sring s) (jobs (sring s))) with (sring s)
        by (by destruct (sring s)). apply (inv_task s n (PushProbing j (k :: w))); [by split|done|by left|done]. }
  split; cbn [sring tasks hist set_jobs next_id next_lease jobs]; try done.
  - intros k'. rewrite lookup_total_insert_dec by done. case_decide; [lia|done].
  - intros k1 k2. rewrite !lookup_total_insert_dec by done. repeat case_decide; subst; try done.
    + intros _ E. by destruct (Hnot k2).
    + intros _ E. by destruct (Hnot k1).
    + apply inv_ids0.
  - intros m t i Hm Hp. apply list_lookup_insert_Some in Hm as [(_ & <- & _)|[Hne Hm]]; [done|].
    destruct (inv_pend0 _ _ _ Hm Hp) as (H1 & H2 & H3 & H4). split_and!; [lia|lia|done| |].
    + intros k'. rewrite lookup_total_insert_dec by done. case_decide; [|done].
      intros E. apply Hne. rewrite <- E in Hp. eapply eq_sym, Huniq; done.
    + intros m' t' Hm' Hp'. apply list_lookup_insert_Some in Hm' as [(_ & <- & _)|[_ Hm']]; [done|by eapply H4].
  - intros m t Hm. apply list_lookup_insert_Some in Hm as [(_ & <- & _)|[_ Hm]]; [done|by eapply inv_sane0].
  - intros k' l until. rewrite lookup_total_insert_dec by done. case_decide; [|apply inv_out0].
    intros _. by rewrite Hout.
Qed.

(** Changing the occupied slot [k] to a state of the same job, or freeing it. *)
Lemma step_slot s n t k j h l' :
  inv s -> tasks s !! n = Some t -> pending_id t = None ->
  id (jobs (sring s) !!! k) <> 0 -> (id j = id (jobs (sring s) !!! k) \/ id j = 0) ->
  next_lease (sring s) <= l' ->
  (forall i, i <> id (jobs (sring s) !!! k) -> forall x, outstanding h i = Some x -> outstanding (hist s) i = Some x) ->
  (id j <> 0 -> forall l until, outstanding h (id j) = Some (l, until) -> lease j = l /\ reserved_until j = until) ->
  exclusive h l' ->
  inv (mkSys (mkRing (next_id (sring s)) l' (lanes (sring s)) (<[k := j]> (jobs (sring s))))
         (<[n := Idle]> (tasks s)) h).
Proof.
  intros Hi Hn Hp Hk Hj Hl Ho Hjo He. destruct Hi. pose proof (job_in_range _ _ Hk) as Hlt.
  pose proof (inv_id0 k) as Hik.
  assert (forall i, i <> id (jobs (sring s) !!! k) -> outstanding (hist s) i = None -> outstanding h i = None) as Hnone.
  { intros i Hne Hn0. destruct (outstanding h i) eqn:E; [|done]. apply Ho in E; [congruence|done]. }
  split; cbn [sring tasks hist next_id next_lease jobs]; try done; [lia| | | | | |].
  - intros k'. rewrite lookup_total_insert_dec by done. case_decide; [lia|done].
  - intros k1 k2. rewrite !lookup_total_insert_dec by done. repeat case_decide; subst; try done.
    + intros Hz E. destruct Hj as [Hj|Hj]; [|congruence]. apply inv_ids0; congruence.
    + intros Hz E. destruct Hj as [Hj|Hj]; [|congruence]. apply inv_ids0; congruence.
    + apply inv_ids0.
  - intros m t1 i Hm Hp1. apply list_lookup_insert_Some in Hm as [(_ & <- & _)|[Hne Hm]]; [done|].
    destruct (inv_pend0 _ _ _ Hm Hp1) as (H1 & H2 & H3 & H4).
    split; [lia|]. split; [apply Hnone; [by apply not_eq_sym|done]|]. split.
    + intros k'. rewrite lookup_total_insert_dec by done. case_decide; [|done].
      destruct Hj as [-> | ->]; [apply H3|lia].
    + intros m' t' Hm' Hp'. apply list_lookup_insert_Some in Hm' as [(_ & <- & _)|[_ Hm']]; [done|by eapply H4].
  - intros i Hi. apply Hnone; [lia|by apply inv_new0].
  - intros m t1 Hm. apply list_lookup_insert_Some in Hm as [(_ & <- & _)|[_ Hm]]; [done|by eapply inv_sane0].
  - intros k' l until. rewrite lookup_total_insert_dec by done. case_decide as Ek; [subst k'; by intros Hz; apply Hjo|].
    intros Hz Hout. apply inv_out0; [done|]. apply Ho; [|done].
    intros E. apply Ek. symmetry. by apply inv_ids0.
Qed.

Lemma inv_step s n :
  inv s -> next_id (sring s) + 1 < W64 -> next_lease (sring s) + 1 < W64 ->
  inv (sys_step s n) /\ next_id (sring (sys_step s n)) <= next_id (sring s) + 1
  /\ next_lease (sring (sys_step s n)) <= next_lease (sring s) + 1.
Proof.
  intros Hi Hb1 Hb2. pose proof (inv_lease s Hi) as Hl0.
  assert (0 <= next_id (sring s)) as Hi0 by (pose proof (inv_id s Hi 0%nat); lia).
  destruct (tasks s !! n) as [t|] eqn:Hn.
  2:{ unfold sys_step. rewrite Hn. split; [done|lia]. }
  pose proof (inv_sane s Hi n t Hn) as Hs.
  assert (forall t', pending_id t' = None \/ pending_id t' = pending_id t -> sane t' ->
    let s' := mkSys (sring s) (<[n := t']> (tasks s)) (hist s) in
    inv s' /\ next_id (sring s') <= next_id (sring s) + 1 /\ next_lease (sring s') <= next_lease (sring s) + 1)
    as Hquiet by (intros t' Hp Hs'; split; [by eapply inv_task|cbn [sring]; lia]).
  destruct t as [j|j w|qh v now w best|v now k want|cur l retry w|].
  - split; [by eapply step_push_start|]. unfold sys_step. rewrite Hn. cbn [task_step sring next_id next_lease].
    rewrite wrap64_id by (words; lia). lia.
  - unfold sys_step. rewrite Hn. destruct w as [|k w]; cbn [task_step]; [by apply Hquiet; [left|]|].
    destruct (Z.eqb_spec (id (jobs (sring s) !!! k)) 0) as [H0|H0]; [|by apply Hquiet; [right|]].
    split; [by eapply step_push_store|cbn [sring set_jobs next_id next_lease]; lia].
  - unfold sys_step. rewrite Hn. destruct Hs as (Hnow & Hv & Hbest).
    destruct w as [|k w]; cbn [task_step].
    + destruct best as [[[k a] want]|]; apply Hquiet; try (by left); [|done]. by split.
    + apply Hquiet; [by left|]. cbn [sane]. split; [done|]. split; [done|].
      destruct (Z.eqb_spec (id (jobs (sring s) !!! k)) 0); cbn [orb]; [done|].
      destruct (negb _); [done|]. destruct (_ && _); done.
  - unfold sys_step. rewrite Hn. destruct Hs as (Hnow & Hv & Hw). cbn [task_step].
    destruct (Z.eqb_spec (id (jobs (sring s) !!! k)) want) as [Hid|]; cbn [negb]; [|by apply Hquiet; [left|]].
    destruct (_ || _) eqn:Er; [by apply Hquiet; [left|]|].
    rewrite wrap64_id by (words; lia). split; [|cbn [sring next_id next_lease]; lia].
    set (j' := reserve _ _ _). apply orb_false_iff in Er as [_ Er%andb_false_iff].
    apply (step_slot s n (PopCommitting v now k want)); [done|done|done|congruence|by left|lia| | |].
    + intros i Hne x. cbn [outstanding Datatypes.app]. apply not_eq_sym, Z.eqb_neq in Hne. by rewrite Hne.
    + intros _ l until. cbn [outstanding Datatypes.app id reserve j']. rewrite Z.eqb_refl. by intros [= <- <-].
    + cbn [exclusive Datatypes.app]. split; [|split; [by apply after_secs_ge|split; [lia|]]].
      * intros l' until' Hout. destruct (inv_out s Hi k l' until' ltac:(congruence) Hout) as [_ <-].
        destruct Er as [Er|Er]; [|by apply Z.ltb_ge].
        apply negb_false_iff, Z.eqb_eq in Er. lia.
      * replace (next_lease (sring s) + 1 - 1) with (next_lease (sring s)) by lia. apply (inv_hist s Hi).
  - unfold sys_step. rewrite Hn. destruct w as [|k w]; cbn [task_step]; [by apply Hquiet; [left|]|].
    destruct (Z.eqb_spec (id (jobs (sring s) !!! k)) 0) as [|Hid]; cbn [negb andb]; [by apply Hquiet; [left|]|].
    destruct (Z.eqb_spec (lease (jobs (sring s) !!! k)) l) as [Hle|]; [|by apply Hquiet; [left|]].
    destruct (negb _); [by apply Hquiet; [left|]|].
    set (j' := match retry with None => _ | _ => _ end).
    split; [|cbn [sring set_jobs next_id next_lease]; lia].
    apply (step_slot s n (AckScanning cur l retry (k :: w))); [done|done|done|done| |lia| | |].
    + unfold j'. destruct retry; [by left|by right].
    + intros i _ [l1 u1] Hout. by apply outstanding_ended in Hout as [? _].
    + intros Hj l1 u1 Hout.
      assert (id j' = id (jobs (sring s) !!! k)) as Ej by (unfold j' in *; by destruct retry).
      rewrite Ej in Hout. apply outstanding_ended in Hout as [Hout Hne].
      destruct (inv_out s Hi k l1 u1 Hid Hout) as [El _]. congruence.
    + cbn [exclusive Datatypes.app]. apply (inv_hist s Hi).
  - unfold sys_step. rewrite Hn. cbn [task_step]. by apply Hquiet; [left|].
Qed.

(** A call that has not started, and a scan about to begin, with a clock reading. *)
Definition fresh (t : task) : Prop :=
  match t with
  | PushStart _ | AckScanning _ _ _ _ => True
  | PopScanning _ v now _ None => 0 <= now <= u64_max /\ 0 <= v
  | _ => False
  end.

Lemma inv_start slots ts : Forall fresh ts -> inv (mkSys (new_ring slots) ts []).
Proof.
  intros Hf. assert (forall n t, ts !! n = Some t -> fresh t) as Hfr
    by (intros n t Hn; by apply (Forall_lookup_1 _ _ _ _ Hf Hn)).
  pose proof (qwf_new slots) as Hw.
  split; cbn [sring tasks hist]; try done.
  - apply (qwf_id _ Hw).
  - apply (qwf_ids _ Hw).
  - intros n t i Hn Hp. specialize (Hfr n t Hn). by destruct t.
  - intros n t Hn. specialize (Hfr n t Hn). destruct t as [| |? ? ? ? [|]| | |]; try done.
    cbn [sane fresh] in *. tauto.
Qed.

(** C10.  Whatever the interleaving of pushes, pops, acks and releases, a job is reserved by one
    worker at a time: a worker is given a job only when the previous reservation of that job
    was ended by its holder or had run out by the new worker's clock; every grant carries a
    lease greater than all before it; and no two slots ever hold the same job. *)
Theorem reservation_exclusive slots ts sched :
  Forall fresh ts -> Z.of_nat (length sched) < u64_max ->
  let s := run (mkSys (new_ring slots) ts []) sched in
  exclusive (hist s) (next_lease (sring s))
  /\ (forall k k', id (jobs (sring s) !!! k) <> 0 ->
        id (jobs (sring s) !!! k) = id (jobs (sring s) !!! k') -> k = k')
  /\ (forall k l until, id (jobs (sring s) !!! k) <> 0 ->
        outstanding (hist s) (id (jobs (sring s) !!! k)) = Some (l, until) ->
        lease (jobs (sring s) !!! k) = l /\ reserved_until (jobs (sring s) !!! k) = until).
Proof.
  intros Hf Hb s.
  assert (forall s0, inv s0 -> next_id (sring s0) + Z.of_nat (length sched) < W64 ->
    next_lease (sring s0) + Z.of_nat (length sched) < W64 -> inv (run s0 sched)) as Hrun.
  { clear. induction sched as [|n sched IH]; intros s0 Hi Hb1 Hb2; [done|]. cbn [length] in *.
    destruct (inv_step s0 n Hi) as (Hi' & H1 & H2); [lia|lia|]. apply IH; [done|lia|lia]. }
  assert (inv s) as Hi.
  { apply Hrun; [by apply inv_start|..]; cbn [sring next_id next_lease new_ring]; words; lia. }
  split; [apply (inv_hist s Hi)|]. split; [apply (inv_ids s Hi)|apply (inv_out s Hi)].
Qed.

(** Two workers race for one job: the second finds it taken. *)
Lemma reservation_exclusive_witness :
  let j := mkJob 0 7 0 0 0 0 [] 0 [42] in
  let w := seq 0 16 in
  let ts := [PushStart j; PopScanning 7 60 100 w None; PopScanning 7 60 100 w None] in
  let sched := repeat 0%nat 3 ++ repeat 1%nat 17 ++ repeat 2%nat 17 ++ [1; 2]%nat in
  let s := run (mkSys (new_ring 16) ts []) sched in
  hist s = [Granted 1 1 100 60100] /\ exclusive (hist s) (next_lease (sring s)).
Proof.
  intros j w ts sched s. split; [vm_compute; reflexivity|].
  destruct (reservation_exclusive 16 ts sched) as [H _]; [|vm_compute; reflexivity|exact H].
  repeat constructor; vm_compute; done.
Defined.
