(* ===== verification/ShmLock.v ===== *)
(** The cross-process spinlock of the shared regions ([shmlock.rs]), as a step relation: any
    number of threads in any number of processes, each at its own point of [acquire], with
    processes that may die at any moment and a clock.

    A thread is in its critical section from [acquire] returning to [release]; the lock word is
    the PID of the holder's process, 0 when free. *)

From S2P Require Import Prelude.

Definition SPINS : nat := Z.to_nat 40000.
(** Ten seconds, in milliseconds. *)
Definition STUCK_LIMIT : Z := 10000.

(** Where a thread is.  [watched] is the holder it has been waiting on, and since when. *)
Inductive pc :=
| Outside
| Spinning (n : nat) (watched : option (Z * Z))     (* compare-exchanges left in the bounded spin *)
| Looking (watched : option (Z * Z))                (* about to load the holder *)
| StealDead (holder : Z) (watched : option (Z * Z))  (* the kernel says it is gone *)
| StealStuck (holder : Z)                           (* watched for [STUCK_LIMIT] *)
| Critical.

(** A thread: its process, and where it is. *)
Record thread := mkThread { pid : Z; at_ : pc }.
Record sys := mkSys {
  word : Z;
  alive : Z -> bool;       (* processes the kernel knows *)
  clock : Z;
  threads : list thread }.

Definition set_at (t : thread) (p : pc) : thread := mkThread (pid t) p.

(** One step of [acquire]'s loop; [None] where the thread does nothing of its own. *)
Definition acquire_step (s : sys) (me : Z) (p : pc) : option (pc * Z) :=
  match p with
  | Spinning (S n) w => Some (if word s =? 0 then (Critical, me) else (Spinning n w, word s))
  | Spinning O w => Some (Looking w, word s)
  | Looking w =>
      let holder := word s in
      if holder =? 0 then Some (Spinning SPINS w, word s)
      else if negb (alive s holder) then Some (StealDead holder w, word s)
      else match w with
           | Some (p, since) =>
               if p =? holder then
                 if STUCK_LIMIT <=? clock s - since then Some (StealStuck holder, word s)
                 else Some (Spinning SPINS w, word s)
               else Some (Spinning SPINS (Some (holder, clock s)), word s)
           | None => Some (Spinning SPINS (Some (holder, clock s)), word s)
           end
  | StealDead holder w =>
      Some (if word s =? holder then (Critical, me) else (Spinning SPINS w, word s))
  | StealStuck holder =>
      Some (if word s =? holder then (Critical, me) else (Spinning SPINS None, word s))
  | Outside | Critical => None
  end.

Definition with_thread (s : sys) (n : nat) (t : thread) (w : Z) : sys :=
  mkSys w (alive s) (clock s) (<[n := t]> (threads s)).

(** [stuck] says whether the step is a steal from a holder that is still alive. *)
Inductive step : bool -> sys -> sys -> Prop :=
| S_enter s n t : threads s !! n = Some t -> alive s (pid t) = true -> at_ t = Outside ->
    step false s (with_thread s n (set_at t (Spinning SPINS None)) (word s))
| S_acquire s n t p w : threads s !! n = Some t -> alive s (pid t) = true ->
    acquire_step s (pid t) (at_ t) = Some (p, w) ->
    step (match at_ t with StealStuck h => word s =? h | _ => false end)
      s (with_thread s n (set_at t p) w)
| S_release s n t : threads s !! n = Some t -> alive s (pid t) = true -> at_ t = Critical ->
    step false s (with_thread s n (set_at t Outside) 0)
| S_die s p : step false s (mkSys (word s) (fun q => if q =? p then false else alive s q) (clock s) (threads s))
| S_tick s d : 0 <= d -> step false s (mkSys (word s) (alive s) (clock s + d) (threads s)).

(** Runs with no steal from a live holder, and runs of any kind. *)
Inductive runs (P : bool -> Prop) : sys -> sys -> Prop :=
| runs_refl s : runs P s s
| runs_step b s1 s2 s3 : P b -> step b s1 s2 -> runs P s2 s3 -> runs P s1 s3.

Definition start (s : sys) : Prop :=
  word s = 0 /\ Forall (fun t => pid t <> 0 /\ at_ t = Outside) (threads s).

(** A live thread inside its critical section. *)
Definition inside (s : sys) (n : nat) : Prop :=
  exists t, threads s !! n = Some t /\ at_ t = Critical /\ alive s (pid t) = true.

(** The invariant: the word names the one live thread inside, and whoever is about to steal from
    a dead process is right that it is dead. *)
Record inv (s : sys) : Prop := {
  inv_pid : forall n t, threads s !! n = Some t -> pid t <> 0;
  inv_word : forall n t, threads s !! n = Some t -> at_ t = Critical -> alive s (pid t) = true ->
    word s = pid t;
  inv_one : forall n m, inside s n -> inside s m -> n = m;
  inv_dead : forall n t h w, threads s !! n = Some t -> at_ t = StealDead h w ->
    alive s h = false /\ h <> 0 }.

Lemma lock_inv_start s : start s -> inv s.
Proof.
  intros [Hw Hf]. rewrite Forall_lookup in Hf.
  assert (forall n t, threads s !! n = Some t -> at_ t = Outside) as Ho by (intros n t Hn; by apply (Hf n)).
  split.
  - intros n t Hn. by apply (Hf n).
  - intros n t Hn Hc. rewrite (Ho n t Hn) in Hc. done.
  - intros n m (t & Hn & Hc & _). rewrite (Ho n t Hn) in Hc. done.
  - intros n t h w Hn Hc. rewrite (Ho n t Hn) in Hc. done.
Qed.

(** A thread moves without entering its critical section, and the word stays. *)
Lemma inv_move s n t p :
  inv s -> threads s !! n = Some t -> p <> Critical ->
  (forall h w, p = StealDead h w -> alive s h = false /\ h <> 0) ->
  inv (with_thread s n (set_at t p) (word s)).
Proof.
  intros [] Hn Hp Hd.
  assert (forall m t', <[n := set_at t p]> (threads s) !! m = Some t' -> at_ t' = Critical ->
            m <> n /\ threads s !! m = Some t') as Hold.
  { intros m t' Hm Hc. apply list_lookup_insert_Some in Hm as [(<- & <- & _)|[Hne Hm]]; [done|by auto]. }
  split; cbn [with_thread word threads alive].
  - intros m t' Hm. apply list_lookup_insert_Some in Hm as [(_ & <- & _)|[_ Hm]];
      [exact (inv_pid0 n t Hn)|by eapply inv_pid0].
  - intros m t' Hm Hc Ha. destruct (Hold m t' Hm Hc) as [_ Hm']. by eapply inv_word0.
  - intros m m' (t1 & Hm & Hc & Ha) (t2 & Hm' & Hc' & Ha'). cbn [with_thread threads alive] in *.
    destruct (Hold m t1 Hm Hc) as [_ ?], (Hold m' t2 Hm' Hc') as [_ ?].
    apply inv_one0; eexists; eauto.
  - intros m t' h w Hm Hc. apply list_lookup_insert_Some in Hm as [(_ & <- & _)|[_ Hm]];
      [by apply (Hd h w)|by eapply inv_dead0].
Qed.

(** A thread takes the word while no live thread is inside. *)
Lemma inv_take s n t :
  inv s -> threads s !! n = Some t -> (forall m, ~ inside s m) ->
  inv (with_thread s n (set_at t Critical) (pid t)).
Proof.
  intros [] Hn Hno.
  assert (forall m t', <[n := set_at t Critical]> (threads s) !! m = Some t' -> at_ t' = Critical ->
            alive s (pid t') = true -> m = n /\ t' = set_at t Critical) as Hnew.
  { intros m t' Hm Hc Ha. apply list_lookup_insert_Some in Hm as [(<- & <- & _)|[_ Hm]]; [done|].
    exfalso. apply (Hno m). by exists t'. }
  split; cbn [with_thread word threads alive].
  - intros m t' Hm. apply list_lookup_insert_Some in Hm as [(_ & <- & _)|[_ Hm]];
      [exact (inv_pid0 n t Hn)|by eapply inv_pid0].
  - intros m t' Hm Hc Ha. by destruct (Hnew m t' Hm Hc Ha) as [_ ->].
  - intros m m' (t1 & Hm & Hc & Ha) (t2 & Hm' & Hc' & Ha'). cbn [with_thread threads alive] in *.
    destruct (Hnew m t1 Hm Hc Ha) as [-> _], (Hnew m' t2 Hm' Hc' Ha') as [-> _]. done.
  - intros m t' h w Hm Hc. apply list_lookup_insert_Some in Hm as [(_ & <- & _)|[_ Hm]];
      [done|by eapply inv_dead0].
Qed.

Lemma lock_inv_step s s' : step false s s' -> inv s -> inv s'.
Proof.
  intros Hs Hi. remember false as b eqn:Eb.
  destruct Hs as [s n t Hn Ha Hp|s n t p w Hn Ha E|s n t Hn Ha Hp|s p|s d Hd].
  - by apply inv_move.
  - assert (word s = 0 -> forall m, ~ inside s m) as Hfree.
    { intros Hw m (t' & Hm & Hc & Ha'). pose proof (inv_word s Hi m t' Hm Hc Ha').
      pose proof (inv_pid s Hi m t' Hm). congruence. }
    destruct (at_ t) as [|[|k] wt|wt|h wt|h|] eqn:Et; cbn [acquire_step] in E; simplify_eq.
    + by apply inv_move.
    + destruct (Z.eqb_spec (word s) 0); simplify_eq; [by apply inv_take; auto|by apply inv_move].
    + destruct (Z.eqb_spec (word s) 0); simplify_eq; [by apply inv_move|].
      destruct (alive s (word s)) eqn:Eal; cbn [negb] in E; simplify_eq.
      2:{ apply inv_move; [done|done|done|]. by intros ? ? [= <- <-]. }
      destruct wt as [[p0 since]|]; [|simplify_eq; by apply inv_move].
      destruct (p0 =? word s); [|simplify_eq; by apply inv_move].
      destruct (STUCK_LIMIT <=? _); simplify_eq; by apply inv_move.
    + destruct (Z.eqb_spec (word s) h) as [Ew|]; simplify_eq; [|by apply inv_move].
      apply inv_take; [done|done|]. intros m (t' & Hm & Hc & Ha').
      destruct (inv_dead s Hi n t _ _ Hn Et) as [Hdead _].
      rewrite (inv_word s Hi m t' Hm Hc Ha') in Hdead. congruence.
    + rewrite Eb in E. simplify_eq. by apply inv_move.
  - destruct Hi. assert (forall m, inside s m -> m = n) as Hme.
    { intros m Hm. apply inv_one0; [done|]. by exists t. }
    split; cbn [with_thread word threads alive].
    + intros m t' Hm. apply list_lookup_insert_Some in Hm as [(_ & <- & _)|[_ Hm]];
      [exact (inv_pid0 n t Hn)|by eapply inv_pid0].
    + intros m t' Hm Hc Ha'. apply list_lookup_insert_Some in Hm as [(_ & <- & _)|[Hne Hm]]; [done|].
      exfalso. apply Hne. symmetry. apply Hme. by exists t'.
    + intros m m' (t1 & Hm & Hc & Ha1). cbn [with_thread threads alive] in *.
      apply list_lookup_insert_Some in Hm as [(_ & <- & _)|[Hne Hm]]; [done|].
      exfalso. apply Hne. symmetry. apply Hme. by exists t1.
    + intros m t' h w Hm Hc. apply list_lookup_insert_Some in Hm as [(_ & <- & _)|[_ Hm]];
      [done|by eapply inv_dead0].
  - destruct Hi. assert (forall q, (if q =? p then false else alive s q) = true -> alive s q = true) as Hal
      by (intros q; by destruct (q =? p)).
    split; cbn [word threads alive]; [done| | |].
    + intros n t Hn Hc Ha. apply (inv_word0 n); auto.
    + intros n m (t1 & Hn & Hc & Ha) (t2 & Hm & Hc' & Ha'). cbn [threads alive] in *.
      apply inv_one0; eexists; split_and!; eauto.
    + intros n t h w Hn Hc. destruct (inv_dead0 n t h w Hn Hc) as [-> ?]. by destruct (h =? p).
  - by destruct Hi.
Qed.

(** C34.  Mutual exclusion: as long as no waiter has taken the lock from a holder that is still
    alive, at most one live thread is inside, whoever dies or is stolen from; the word names its
    process. *)
Theorem lock_mutual_exclusion s0 s n m :
  start s0 -> runs (eq false) s0 s -> inside s n -> inside s m ->
  n = m /\ exists t, threads s !! n = Some t /\ word s = pid t.
Proof.
  intros Hs Hr Hn Hm. assert (inv s) as Hi.
  { apply lock_inv_start in Hs. clear -Hs Hr. induction Hr as [|b s1 s2 s3 <- Hst _ IH]; [done|].
    apply IH. by eapply lock_inv_step. }
  split; [by apply (inv_one s Hi)|]. destruct Hn as (t & Ht & Hc & Ha). exists t. split; [done|].
  by eapply inv_word.
Qed.

(** ** The watch on a holder *)

Lemma runs_trans P s1 s2 s3 : runs P s1 s2 -> runs P s2 s3 -> runs P s1 s3.
Proof. induction 1; [done|]. intros. eapply runs_step; eauto. Qed.

Definition any (b : bool) : Prop := True.

(** Two processes, 1 and 2; the lock word, the clock, and where their threads are. *)
Definition duo (w c : Z) (a b : pc) : sys :=
  mkSys w (fun p => (p =? 1) || (p =? 2)) c [mkThread 1 a; mkThread 2 b].

Lemma duo_a w c a b a' w' : acquire_step (duo w c a b) 1 a = Some (a', w') ->
  exists x, step x (duo w c a b) (duo w' c a' b).
Proof. intros E. eexists. exact (S_acquire (duo w c a b) 0 (mkThread 1 a) a' w' eq_refl eq_refl E). Qed.
Lemma duo_b w c a b b' w' : acquire_step (duo w c a b) 2 b = Some (b', w') ->
  exists x, step x (duo w c a b) (duo w' c a b').
Proof. intros E. eexists. exact (S_acquire (duo w c a b) 1 (mkThread 2 b) b' w' eq_refl eq_refl E). Qed.

Lemma run_a w c a b a' w' s : acquire_step (duo w c a b) 1 a = Some (a', w') ->
  runs any (duo w' c a' b) s -> runs any (duo w c a b) s.
Proof. intros [x Hx]%duo_a Hr. by eapply runs_step. Qed.
Lemma run_b w c a b b' w' s : acquire_step (duo w c a b) 2 b = Some (b', w') ->
  runs any (duo w' c a b') s -> runs any (duo w c a b) s.
Proof. intros [x Hx]%duo_b Hr. by eapply runs_step. Qed.

(** A held lock exhausts the bounded spin. *)
Lemma spin_out n w c a wt s :
  w <> 0 -> runs any (duo w c a (Looking wt)) s -> runs any (duo w c a (Spinning n wt)) s.
Proof.
  intros Hw Hr. apply Z.eqb_neq in Hw. induction n as [|n IH].
  - by apply (run_b _ _ _ _ (Looking wt) w).
  - apply (run_b _ _ _ _ (Spinning n wt) w); [|done]. cbn [acquire_step duo word]. by rewrite Hw.
Qed.

(** "A holder whose PID has not changed for ten seconds" is not what is watched: the watch
    survives the lock being free and taken again in between.  A waiter takes the lock from a
    live process the instant that process has acquired it, and both are inside. *)
Theorem stuck_steal_fresh_holder :
  exists s0 s1 s2 s3,
    start s0 /\ runs any s0 s1
    /\ (threads s1 !! 0%nat = Some (mkThread 1 (Spinning SPINS None)) /\ word s1 = 0
        /\ step false s1 s2 /\ threads s2 !! 0%nat = Some (mkThread 1 Critical))
    /\ runs any s2 s3 /\ clock s3 = clock s2
    /\ inside s3 0 /\ inside s3 1.
Proof.
  exists (duo 0 0 Outside Outside),
    (duo 0 STUCK_LIMIT (Spinning SPINS None) (Spinning SPINS (Some (1, 0)))),
    (duo 1 STUCK_LIMIT Critical (Spinning SPINS (Some (1, 0)))),
    (duo 2 STUCK_LIMIT Critical Critical).
  assert (exists k, SPINS = S k) as [k Ek] by (exists (Z.to_nat 39999); unfold SPINS; lia).
  split; [split; [done|repeat constructor; done]|]. split; [|split; [|split; [|split; [|split]]]].
  - eapply runs_step; [done|by apply (S_enter _ 0 (mkThread 1 Outside))|].
    eapply runs_step; [done|by apply (S_enter _ 1 (mkThread 2 Outside))|].
    change (runs any (duo 0 0 (Spinning SPINS None) (Spinning SPINS None))
      (duo 0 STUCK_LIMIT (Spinning SPINS None) (Spinning SPINS (Some (1, 0))))).
    apply (run_a _ _ _ _ Critical 1); [by rewrite Ek|]. apply spin_out; [done|].
    apply (run_b _ _ _ _ (Spinning SPINS (Some (1, 0))) 1); [done|].
    eapply runs_step; [done|by apply (S_tick _ STUCK_LIMIT)|].
    eapply runs_step; [done|by apply (S_release _ 0 (mkThread 1 Critical))|].
    eapply runs_step; [done|by apply (S_enter _ 0 (mkThread 1 Outside))|]. apply runs_refl.
  - split; [done|]. split; [done|]. split; [|done].
    apply (S_acquire (duo 0 STUCK_LIMIT (Spinning SPINS None) (Spinning SPINS (Some (1, 0)))) 0
             (mkThread 1 (Spinning SPINS None)) Critical 1); [done|done|by rewrite Ek].
  - apply spin_out; [done|]. apply (run_b _ _ _ _ (StealStuck 1) 1); [done|].
    apply (run_b _ _ _ _ Critical 2); [done|]. apply runs_refl.
  - done.
  - by exists (mkThread 1 Critical).
  - by exists (mkThread 2 Critical).
Qed.

(** Process 1 dies inside; process 2 gets in, alone. *)
Lemma lock_mutual_exclusion_witness :
  exists s, runs (eq false) (duo 0 0 Outside Outside) s /\ inside s 1
    /\ forall n, inside s n -> n = 1%nat.
Proof.
  assert (exists k, SPINS = S k) as [k Ek] by (exists (Z.to_nat 39999); unfold SPINS; lia).
  assert (start (duo 0 0 Outside Outside)) as Hst by (split; [done|repeat constructor; done]).
  assert (runs (eq false) (duo 0 0 Outside Outside) (duo 2 0 Outside Critical)) as Hr.
  { eapply runs_step; [done|by apply (S_enter _ 1 (mkThread 2 Outside))|].
    eapply runs_step; [|apply (S_acquire _ 1 (mkThread 2 (Spinning SPINS None)) Critical 2);
      [done|done|by rewrite Ek]|apply runs_refl]. done. }
  assert (inside (duo 2 0 Outside Critical) 1) as Hin by by exists (mkThread 2 Critical).
  exists (duo 2 0 Outside Critical). split; [exact Hr|]. split; [exact Hin|].
  intros n Hn. by destruct (lock_mutual_exclusion _ _ n 1 Hst Hr Hn Hin).
Defined.
