(* ===== verification/RateLimit.v ===== *)
(** Rate limiting in shared memory ([ratelimit.rs]): token buckets counted in thousandths,
    probed over eight slots, refilled by elapsed time with the remainder carried over. *)

From S2P Require Import Prelude Bytes Probe.

Definition PROBE : nat := 8.
Definition MILLI : Z := 1000.

(** [struct Bucket]; hash 0 is free. *)
Record Bucket := mkBucket { key_hash : Z; tokens_milli : Z; last_ms : Z }.
#[export] Instance Bucket_inhabited : Inhabited Bucket := populate (mkBucket 0 0 0).

Record Verdict := mkVerdict { allowed : bool; remaining : Z; retry_after : Z }.

Definition div_ceil (a b : Z) : Z := if a mod b =? 0 then a / b else a / b + 1.

(** The refill of [consume]: tokens and the time they account for. *)
Definition refill (tokens last now limit window capacity : Z) : Z * Z :=
  let elapsed := sat_sub64 now last in
  if 0 <? elapsed then
    let r := sat_mul64 elapsed limit / window in
    if r =? 0 then (tokens, last)
    else if capacity <=? sat_add64 tokens r then (capacity, now)
    else (tokens + r,
          Z.min (sat_add64 last (sat_mul64 r window / Z.max limit 1)) now)
  else (tokens, last).

Definition consume (b : Bucket) (now limit window capacity : Z) : Verdict * Bucket :=
  let '(tokens, last) := refill (tokens_milli b) (last_ms b) now limit window capacity in
  if MILLI <=? tokens then
    let tokens := tokens - MILLI in
    (mkVerdict true (tokens / MILLI) 0, mkBucket (key_hash b) tokens last)
  else
    let missing := MILLI - tokens in
    let ms := div_ceil (sat_mul64 missing window) (Z.max limit 1) in
    (mkVerdict false 0 (Z.max (div_ceil ms 1000) 1), mkBucket (key_hash b) tokens last).

Abbreviation table := (list Bucket).
Definition win (t : table) (h : Z) : list nat := window PROBE h (Z.of_nat (length t)).

(** The probe: the key's bucket, a free one, or the coldest. *)
Inductive found := Own (i : nat) | Free (i : nat) | Coldest (v : option nat).
Fixpoint probe (t : table) (h : Z) (w : list nat) (victim : option nat) (age : Z) : found :=
  match w with
  | [] => Coldest victim
  | i :: w' =>
      let b := t !!! i in
      if key_hash b =? h then Own i
      else if key_hash b =? 0 then Free i
      else if last_ms b <? age then probe t h w' (Some i) (last_ms b) else probe t h w' victim age
  end.

(** [init]: [slots == 0] leaves limiting off. *)
Definition init (t : option table) (slots : Z) (mmap_ok : bool) : option table :=
  match t with
  | Some t => Some t
  | None => if (slots =? 0) || negb mmap_ok then None
            else Some (replicate (Z.to_nat (Z.max slots 64)) (mkBucket 0 0 0))
  end.

Section Check.
Context (hash_key : bytes -> Z).
Definition hash (k : bytes) : Z := if hash_key k =? 0 then 1 else hash_key k.

Definition check (t : option table) (key : bytes) (limit window burst now : Z) : Verdict * option table :=
  match t with
  | None => (mkVerdict true limit 0, None)
  | Some t =>
      if (limit =? 0) || (window =? 0) then (mkVerdict true limit 0, Some t)
      else
        let capacity := sat_mul64 (wrap64 (limit + burst)) MILLI in
        let h := hash key in
        let full := mkBucket h capacity now in
        let at_ i b := let '(v, b') := consume b now limit window capacity in (v, Some (<[i := b']> t)) in
        match probe t h (win t h) None u64_max with
        | Own i => at_ i (t !!! i)
        | Free i => at_ i full
        | Coldest (Some i) => at_ i full
        | Coldest None => at_ (Z.to_nat (h mod Z.of_nat (length t))) full
        end
  end.
End Check.

(** ** What a bucket guarantees *)

(** No arithmetic of the bucket overflows, for clocks up to [T]. *)
Definition sized (limit window capacity T : Z) : Prop :=
  0 < limit /\ 0 < window /\ MILLI * limit <= capacity /\ capacity < W64
  /\ T * limit < W64 /\ (capacity + MILLI) * window < W64 /\ T < W64.
Definition bucket_ok (b : Bucket) (capacity now : Z) : Prop :=
  0 <= tokens_milli b <= capacity /\ 0 <= last_ms b <= now.

Lemma sat_add64_lt x y c : sat_add64 x y < c -> c < W64 -> x + y < c.
Proof. words. lia. Qed.
Lemma sat_add64_le x y c : c <= sat_add64 x y -> c <= x + y.
Proof. words. lia. Qed.

(** Refilling adds what the elapsed time is worth, to within one call's rounding, and never
    takes tokens away. *)
Lemma refill_bounds tokens last now limit window capacity T :
  sized limit window capacity T -> 0 <= tokens <= capacity -> 0 <= last <= now -> now <= T ->
  let '(tokens', last') := refill tokens last now limit window capacity in
  tokens <= tokens' <= capacity /\ last <= last' <= now
  /\ tokens' * window + (now - last') * limit < tokens * window + (now - last) * limit + limit
  /\ (Z.min capacity (tokens + (now - last) * limit / window) <= tokens').
Proof.
  intros (Hl & Hw & Hc & Hc' & HT & Hcw & HTw) Ht Hla Hn. unfold refill, sat_sub64.
  rewrite Z.max_l by lia.
  destruct (Z.ltb_spec 0 (now - last)).
  2:{ replace (now - last) with 0 by lia. rewrite Z.mul_0_l, Z.div_0_l by lia.
      cbv beta iota. split_and!; lia. }
  assert ((now - last) * limit < W64) as Hel by nia.
  assert (sat_mul64 (now - last) limit = (now - last) * limit) as -> by (unfold sat_mul64, u64_max; lia).
  cbv zeta. set (r := (now - last) * limit / window).
  assert (0 <= r) as Hr by (apply Z.div_pos; nia).
  assert (r * window <= (now - last) * limit) as Hrw by (pose proof (Z.mul_div_le ((now - last) * limit) window); nia).
  destruct (Z.eqb_spec r 0) as [E|E]; [cbv beta iota; split_and!; lia|].
  destruct (Z.leb_spec capacity (sat_add64 tokens r)) as [Hcap|Hcap].
  { cbv beta iota. split_and!; try lia.
    pose proof (sat_add64_le tokens r capacity Hcap). nia. }
  pose proof (sat_add64_lt tokens r capacity Hcap Hc') as Hlt.
  unfold sat_mul64. rewrite (Z.min_l (r * window)) by (unfold u64_max; lia). rewrite Z.max_l by lia.
  set (c := r * window / limit).
  assert (c * limit <= r * window < c * limit + limit) as Hcl.
  { pose proof (Z.div_mod (r * window) limit ltac:(lia)). pose proof (Z.mod_pos_bound (r * window) limit Hl).
    unfold c. nia. }
  assert (0 <= c <= now - last) as Hcn by nia.
  unfold sat_add64. rewrite (Z.min_l (last + c) u64_max) by (unfold u64_max; lia). rewrite (Z.min_l (last + c)) by lia.
  cbv beta iota. split_and!; try lia; try nia.
Qed.

Lemma div_ceil_ge a b : 0 <= a -> 0 < b -> a <= div_ceil a b * b.
Proof.
  intros Ha Hb. unfold div_ceil. pose proof (Z.div_mod a b ltac:(lia)). pose proof (Z.mod_pos_bound a b Hb).
  destruct (Z.eqb_spec (a mod b) 0); nia.
Qed.

Lemma consume_spec b now limit window capacity T :
  sized limit window capacity T -> bucket_ok b capacity now -> now <= T ->
  let '(v, b') := consume b now limit window capacity in
  bucket_ok b' capacity now /\ last_ms b <= last_ms b'
  /\ tokens_milli b' * window + (now - last_ms b') * limit + (if allowed v then MILLI * window else 0)
     < tokens_milli b * window + (now - last_ms b) * limit + limit
  /\ (allowed v = true <-> MILLI <= tokens_milli b' + if allowed v then MILLI else 0)
  /\ (MILLI <= Z.min capacity (tokens_milli b + (now - last_ms b) * limit / window) -> allowed v = true)
  /\ (allowed v = false ->
      (MILLI - tokens_milli b') * window <= retry_after v * 1000 * limit /\ 0 < retry_after v).
Proof.
  intros Hs [Ht Hla] Hn. pose proof (refill_bounds _ _ _ _ _ _ _ Hs Ht Hla Hn) as Hr.
  unfold consume. destruct (refill _ _ _ _ _ _) as [tk la]. destruct Hr as (Ht' & Hl' & Hphi & Hmin).
  destruct Hs as (Hl & Hw & Hc & Hc' & HT & Hcw & HTw). unfold MILLI in *.
  destruct (Z.leb_spec 1000 tk); cbn [allowed retry_after tokens_milli last_ms bucket_ok]; unfold bucket_ok;
    cbn [tokens_milli last_ms].
  - split_and!; [lia|lia|lia|lia|lia|lia|split; [lia|done]|done|done].
  - split_and!; [lia|lia|lia|lia|lia|lia|split; [done|lia]|lia|].
    intros _. rewrite (Z.max_l limit 1) by lia.
    assert (0 <= (1000 - tk) * window < W64) as Hm by nia.
    assert (sat_mul64 (1000 - tk) window = (1000 - tk) * window) as -> by (unfold sat_mul64, u64_max; lia).
    pose proof (div_ceil_ge ((1000 - tk) * window) limit ltac:(lia) Hl) as H1.
    set (ms := div_ceil ((1000 - tk) * window) limit) in *.
    assert (0 <= ms) as H0 by nia.
    pose proof (div_ceil_ge _ 1000 H0 ltac:(lia)) as H2. split; [nia|lia].
Qed.

(** The [retry_after] of a refusal is honest: a client that waits that many seconds and
    asks again is served, whatever the rule (also when a whole token takes longer to refill
    than the time between its requests). *)
Theorem retry_after_suffices b now limit window capacity T v b' later :
  sized limit window capacity T -> bucket_ok b capacity now -> now <= T ->
  consume b now limit window capacity = (v, b') -> allowed v = false ->
  now + 1000 * retry_after v <= later <= T ->
  allowed (consume b' later limit window capacity).1 = true.
Proof.
  intros Hs Hb Hn E Hv Hlater. pose proof (consume_spec b now limit window capacity T Hs Hb Hn) as H.
  rewrite E in H. destruct H as ([Ht Hla] & _ & _ & _ & _ & Hr). destruct (Hr Hv) as [Hret Hpos].
  pose proof (consume_spec b' later limit window capacity T Hs) as H2.
  destruct (consume b' later limit window capacity) as [v2 b2]. cbn [fst].
  destruct H2 as (_ & _ & _ & _ & Hok & _); [split; lia|lia|].
  apply Hok. destruct Hs as (Hl & Hw & Hc & _). unfold MILLI in *. apply Z.min_glb; [lia|].
  assert (1000 - tokens_milli b' <= (later - last_ms b') * limit / window); [|lia].
  apply Z.div_le_lower_bound; [lia|]. nia.
Qed.

(** A client's requests at the times of a list: how many are allowed. *)
Fixpoint serve (b : Bucket) (times : list Z) (limit window capacity : Z) : Z * Bucket :=
  match times with
  | [] => (0, b)
  | t :: times' =>
      let '(v, b') := consume b t limit window capacity in
      let '(n, b'') := serve b' times' limit window capacity in
      ((if allowed v then 1 else 0) + n, b'')
  end.
Fixpoint nondecreasing (from : Z) (times : list Z) : Prop :=
  match times with [] => True | t :: times' => from <= t /\ nondecreasing t times' end.

Lemma serve_bound b times from limit window capacity T :
  sized limit window capacity T -> bucket_ok b capacity from -> nondecreasing from times ->
  Forall (fun t => t <= T) times ->
  let '(n, b') := serve b times limit window capacity in
  0 <= n /\ n * MILLI * window
    <= tokens_milli b * window + (default from (last times) - last_ms b) * limit
       + Z.of_nat (length times) * limit.
Proof.
  intros Hs. revert b from. induction times as [|t times IH]; intros b from Hb Hnd Hf; cbn [serve].
  { cbn [last default length]. destruct Hb, Hs. split; [lia|]. nia. }
  destruct Hnd as [Hft Hnd]. apply Forall_cons in Hf as [Ht Hf].
  assert (bucket_ok b capacity t) as Hbt by (destruct Hb; split; lia).
  pose proof (consume_spec b t limit window capacity T Hs Hbt Ht) as H.
  destruct (consume b t limit window capacity) as [v b'].
  destruct H as (Hb' & _ & Hphi & _).
  specialize (IH b' t Hb' Hnd Hf). destruct (serve b' times limit window capacity) as [n b''].
  destruct IH as [Hn IH].
  assert (default from (last (t :: times)) = default t (last times)) as ->.
  { destruct times as [|x l]; [done|]. cbn [last]. destruct (last_is_Some (x :: l)) as [_ H].
    by destruct (H ltac:(done)) as [z ->]. }
  unfold MILLI in *. cbn [length]. split; [destruct (allowed v); lia|].
  destruct (allowed v); nia.
Qed.

(** C33.  The limit holds: over any run of requests, the number allowed is at most the tokens the
    bucket held plus the rule's rate times the time elapsed, plus one call's rounding (less than
    [limit / window] thousandths of a request) for each request made. *)
Theorem rate_bounded b times from limit window capacity T n b' :
  sized limit window capacity T -> bucket_ok b capacity from -> nondecreasing from times ->
  Forall (fun t => t <= T) times ->
  serve b times limit window capacity = (n, b') ->
  n * MILLI * window <= tokens_milli b * window + (default from (last times) - last_ms b) * limit
                        + Z.of_nat (length times) * limit.
Proof.
  intros Hs Hb Hnd Hf E. pose proof (serve_bound b times from limit window capacity T Hs Hb Hnd Hf) as H.
  rewrite E in H. apply H.
Qed.

(** Ten requests a minute: the eleventh waits six seconds. *)
Definition ten_per_minute (now : Z) (b : Bucket) : Verdict * Bucket := consume b now 10 60 10000.
Lemma ten_sized : sized 10 60 10000 1000000.
Proof. unfold sized, MILLI. words. lia. Qed.

Lemma retry_after_suffices_witness :
  consume (mkBucket 7 0 500) 500 10 60 10000 = (mkVerdict false 0 6, mkBucket 7 0 500)
  /\ allowed (consume (mkBucket 7 0 500) 6500 10 60 10000).1 = true.
Proof.
  split; [vm_compute; reflexivity|].
  apply (retry_after_suffices (mkBucket 7 0 500) 500 10 60 10000 1000000 (mkVerdict false 0 6)
    (mkBucket 7 0 500) 6500 ten_sized); [|lia|vm_compute; reflexivity|done|cbn; lia].
  split; cbn; lia.
Defined.

Lemma rate_bounded_witness :
  serve (mkBucket 7 10000 0) (repeat 0 11) 10 60 10000 = (10, mkBucket 7 0 0)
  /\ 10 * MILLI * 60 <= 10000 * 60 + (0 - 0) * 10 + 11 * 10.
Proof.
  assert (serve (mkBucket 7 10000 0) (repeat 0 11) 10 60 10000 = (10, mkBucket 7 0 0)) as E
    by (vm_compute; reflexivity).
  split; [exact E|].
  apply (rate_bounded (mkBucket 7 10000 0) (repeat 0 11) 0 10 60 10000 1000000 10 (mkBucket 7 0 0)
    ten_sized); [split; cbn; lia|cbn; lia|repeat constructor; lia|exact E].
Defined.

(** A finding: of a refill, only whole milliseconds are taken off the time that is left, and what is
    over is refilled again.  Under a rule of more than a thousand requests a second that can be all
    of it: with 7001 requests in two seconds, a bucket that is empty refills at each request of one
    and the same millisecond, and allows more of them than the rule has for two seconds. *)
Lemma same_millisecond_refills :
  sized 7001 2 7001000 1000000 /\
  (serve (mkBucket 7 0 0) (repeat 1 (Z.to_nat 9800)) 7001 2 7001000).1 = 9800.
Proof. split; [unfold sized, MILLI; words; lia|by vm_compute]. Qed.
