(* ===== verification/Http.v ===== *)
(** HTTP messages as the server sees them, and the string operations of the Rust standard
    library its request handling uses; the host and scheme of a request ([cgi.rs],
    [server/cache_policy.rs]).

    A header map is the list of its fields in order, each under its lower-case name, as
    [hyper::HeaderMap] keeps them.  [HeaderValue::to_str] belongs to that library: it is a
    parameter wherever it is used. *)

From stdpp Require Import sorting.
From S2P Require Import Prelude Bytes.

Definition headers := (list (bytes * bytes)).

Record Request := mkRequest {
  method : bytes;
  path : bytes;                  (* [uri().path()] *)
  query : option bytes;          (* [uri().query()] *)
  authority : option bytes;      (* [uri().authority()] *)
  fields : headers }.

Definition get_all (h : headers) (name : bytes) : list bytes := (filter (fun kv => kv.1 = name) h).*2.
Definition hget (h : headers) (name : bytes) : option bytes := head (get_all h name).
Definition contains_key (h : headers) (name : bytes) : bool := bool_decide (is_Some (hget h name)).

(** A response; header fields in the order they are appended. *)
Record Response := mkResponse { r_status : Z; r_headers : headers; r_body : bytes }.

Definition text (status : Z) (msg : bytes) : Response :=
  mkResponse status [(lit "content-type", lit "text/plain; charset=utf-8")] msg.

(** ** [str] *)

(** [split(&\[..\])] on a set of ASCII characters. *)
Fixpoint split_any (seps : list Z) (b : bytes) : list bytes :=
  match b with
  | [] => [[]]
  | x :: b' =>
      if bool_decide (x ∈ seps) then [] :: split_any seps b'
      else match split_any seps b' with
           | [] => [[x]]
           | p :: ps => (x :: p) :: ps
           end
  end.

(** [find(&str)]: where the first occurrence starts. *)
Fixpoint find_sub (needle b : bytes) : option nat :=
  if starts_with b needle then Some 0%nat
  else match b with [] => None | _ :: b' => S <$> find_sub needle b' end.
Definition contains_sub (needle b : bytes) : bool := bool_decide (is_Some (find_sub needle b)).

Definition ends_with (b s : bytes) : bool := starts_with (reverse b) (reverse s).
Definition strip_suffix (s b : bytes) : option bytes := reverse <$> strip_prefix (reverse s) (reverse b).

(** [rfind(char)]. *)
Definition rposition (x : Z) (b : bytes) : option nat :=
  (fun i => (length b - 1 - i)%nat) <$> position x (reverse b).

(** [join(sep)]. *)
Fixpoint join (sep : bytes) (ps : list bytes) : bytes :=
  match ps with [] => [] | [p] => p | p :: ps' => p ++ sep ++ join sep ps' end.

(** [sort()] and [sort_unstable()] of strings, and [dedup()]. *)
Definition sort_bytes (l : list bytes) : list bytes := sort_by bytes_cmp l.
Fixpoint dedup (l : list bytes) : list bytes :=
  match l with
  | x :: ((y :: _) as l') => if beq x y then dedup l' else x :: dedup l'
  | l => l
  end.

(** ** Lemmas *)

Lemma get_all_cons k v h name :
  get_all ((k, v) :: h) name = if bool_decide (k = name) then v :: get_all h name else get_all h name.
Proof.
  unfold get_all. cbn [filter list_filter fst].
  destruct (decide (k = name)) as [E|E].
  - by rewrite bool_decide_true.
  - by rewrite bool_decide_false.
Qed.

Lemma split_any_nonempty seps b : split_any seps b <> [].
Proof. destruct b; simpl; [done|]. case_bool_decide; [done|]. by destruct (split_any _ _). Qed.

Lemma join_cons sep p q ps : join sep (p :: q :: ps) = p ++ sep ++ join sep (q :: ps).
Proof. done. Qed.

(** *** Where a byte is *)

Lemma rposition_last c x y : c ∉ y -> rposition c (x ++ c :: y) = Some (length x).
Proof.
  intros Hy. unfold rposition. rewrite reverse_app, reverse_cons, <- app_assoc. cbn [Datatypes.app].
  rewrite position_app by (by rewrite elem_of_reverse). cbn. f_equal. rewrite length_reverse, length_app. cbn. lia.
Qed.

(** Splitting what was joined gives the pieces back. *)
Lemma split_on_join c ps :
  ps <> [] -> Forall (fun p => c ∉ p) ps -> split_on c (join [c] ps) = ps.
Proof.
  intros Hne Hf. induction Hf as [|p ps Hp Hf IH]; [done|].
  destruct ps as [|q ps]; [by apply split_on_none|].
  rewrite join_cons. cbn [app]. rewrite split_on_app by done. by rewrite IH.
Qed.

Lemma split_on_pieces c b p : p ∈ split_on c b -> c ∉ p.
Proof.
  revert p. induction b as [|x b IH]; intros p; cbn [split_on].
  - intros ->%list_elem_of_singleton. apply not_elem_of_nil.
  - destruct (Z.eqb_spec x c) as [->|Hx].
    + intros [->|Hp]%elem_of_cons; [apply not_elem_of_nil|by apply IH].
    + destruct (split_on c b) as [|q qs] eqn:E; [by destruct (split_on_nonempty c b)|].
      intros [->|Hp]%elem_of_cons.
      * apply not_elem_of_cons. split; [done|]. apply IH. left.
      * apply IH. by right.
Qed.

Lemma join_split_on c b : join [c] (split_on c b) = b.
Proof.
  induction b as [|x b IH]; [done|]. cbn [split_on].
  destruct (split_on c b) as [|q qs] eqn:E; [by destruct (split_on_nonempty c b)|].
  destruct (Z.eqb_spec x c) as [->|Hx].
  - rewrite join_cons. cbn [app]. by rewrite IH.
  - destruct qs as [|q' qs]; [by rewrite <- IH|].
    rewrite join_cons in IH |- *. cbn [app] in *. by rewrite IH.
Qed.

(** ** The order of strings *)

Lemma bytes_cmp_refl x : bytes_cmp x x = Eq.
Proof. induction x as [|a x IH]; [done|]. cbn. by rewrite Z.compare_refl. Qed.

Lemma bytes_cmp_eq x y : bytes_cmp x y = Eq -> x = y.
Proof.
  revert y. induction x as [|a x IH]; intros [|b y]; cbn; try done.
  destruct (Z.compare_spec a b); [intros ?; f_equal; auto|done..].
Qed.

Lemma bytes_cmp_antisym x y : bytes_cmp y x = CompOpp (bytes_cmp x y).
Proof.
  revert y. induction x as [|a x IH]; intros [|b y]; cbn; try done.
  rewrite (Z.compare_antisym a b). destruct (Z.compare a b); cbn; [apply IH|done..].
Qed.

Definition bytes_le (x y : bytes) : Prop := bytes_cmp x y <> Gt.

Lemma bytes_le_trans x y z : bytes_le x y -> bytes_le y z -> bytes_le x z.
Proof.
  unfold bytes_le. revert y z. induction x as [|a x IH]; intros [|b y] [|c z]; cbn; try done.
  destruct (Z.compare_spec a b), (Z.compare_spec b c), (Z.compare_spec a c); try done; try lia.
  apply IH.
Qed.

#[export] Instance bytes_le_dec : RelDecision bytes_le.
Proof. unfold bytes_le. solve_decision. Defined.
#[export] Instance bytes_le_antisymm : AntiSymm (=) bytes_le.
Proof.
  intros x y H1 H2. unfold bytes_le in *. rewrite bytes_cmp_antisym in H2.
  apply bytes_cmp_eq. by destruct (bytes_cmp x y).
Qed.
#[export] Instance bytes_le_transitive : Transitive bytes_le.
Proof. intros x y z. apply bytes_le_trans. Qed.

Lemma bytes_le_total x y : bytes_le x y \/ bytes_le y x.
Proof. unfold bytes_le. rewrite (bytes_cmp_antisym x y). destruct (bytes_cmp x y); cbn; auto. Qed.

(** Sorting is canonical: what comes out depends only on what is in the list. *)
Lemma insert_bytes_sorted x l :
  StronglySorted bytes_le l -> StronglySorted bytes_le (insert_by bytes_cmp x l).
Proof.
  induction 1 as [|y l Hs IH Hf]; cbn [insert_by]; [by repeat constructor|].
  destruct (bytes_cmp x y) eqn:E.
  1,2: assert (bytes_le x y) as Hxy by (unfold bytes_le; by rewrite E);
    constructor; [by constructor|constructor; [done|]]; eapply Forall_impl; [done|];
    intros z; by apply bytes_le_trans.
  assert (bytes_le y x) as Hyx by (unfold bytes_le; by rewrite (bytes_cmp_antisym x y), E).
  constructor; [done|].
  assert (insert_by bytes_cmp x l ≡ₚ x :: l) as ->; [|by constructor].
  clear. induction l as [|z l IH]; [done|]. cbn [insert_by]. destruct (bytes_cmp x z); [done|done|].
  rewrite IH. by constructor.
Qed.

Lemma sort_bytes_sorted l : StronglySorted bytes_le (sort_bytes l).
Proof. induction l; cbn; [constructor|by apply insert_bytes_sorted]. Qed.

Lemma sort_bytes_Permutation l : sort_bytes l ≡ₚ l.
Proof. apply sort_by_Permutation. Qed.

Lemma sort_bytes_canonical l k : l ≡ₚ k -> sort_bytes l = sort_bytes k.
Proof.
  intros H. apply (StronglySorted_unique bytes_le); [apply sort_bytes_sorted..|].
  by rewrite !sort_bytes_Permutation.
Qed.
