(* ===== verification/Compress.v ===== *)
(** Negotiating and applying a content encoding ([compress.rs]).  The encoders belong to the
    [flate2] and [brotli] crates: [encode] stands for them. *)

From S2P Require Import Prelude Bytes Http.

Inductive Encoding := Br | Gzip.
#[export] Instance Encoding_eq_dec : EqDecision Encoding.
Proof. solve_decision. Defined.

(** [Encoding::header]. *)
Definition enc_header (e : Encoding) : bytes := match e with Br => lit "br" | Gzip => lit "gzip" end.

Definition MIN_SIZE : nat := 1024.

(** ** [v.parse::<f32>()] being [Ok] of a number that is not positive *)

Fixpoint take_digits (b : bytes) : bytes * bytes :=
  match b with
  | c :: b' => if is_ascii_digit c then let '(d, r) := take_digits b' in (c :: d, r) else ([], b)
  | [] => ([], [])
  end.

(** [e\[+-\]digits], or nothing. *)
Definition parse_exp (b : bytes) : option Z :=
  match b with
  | [] => Some 0
  | e :: b' =>
      if (e =? 101) || (e =? 69) then
        match b' with
        | 45 :: d => Z.opp <$> parse_nonempty d
        | 43 :: d => parse_nonempty d
        | d => parse_nonempty d
        end
      else None
  end.

(** A decimal number: its digits as an integer and the power of ten they are scaled by. *)
Definition parse_decimal (b : bytes) : option (Z * Z) :=
  let '(ip, r) := take_digits b in
  let '(fp, r) := match r with 46 :: r' => take_digits r' | _ => ([], r) end in
  match ip ++ fp with
  | [] => None
  | ds => match parse_digits 0 ds, parse_exp r with
          | Some m, Some e => Some (m, e - Z.of_nat (length fp))
          | _, _ => None
          end
  end.

(** The largest decimal that rounds to [0.0f32] is half the smallest subnormal, [2^-150]. *)
Definition rounds_to_zero (m e : Z) : bool :=
  if 0 <=? e then m =? 0 else m * 2 ^ 150 <=? 10 ^ (- e).

Definition f32_not_positive (v : bytes) : bool :=
  let '(neg, b) := match v with 45 :: b => (true, b) | 43 :: b => (false, b) | b => (false, b) end in
  let l := to_ascii_lowercase b in
  if beq l (lit "inf") || beq l (lit "infinity") then neg
  else if beq l (lit "nan") then false
  else match parse_decimal b with
       | Some (m, e) => neg || rounds_to_zero m e
       | None => false
       end.

(** ** Negotiation *)

(** One element of [Accept-Encoding] offers [name] and does not refuse it with [q=0]. *)
Definition refuses (p : bytes) : bool :=
  match strip_prefix (lit "q=") (trim p) with
  | Some v => f32_not_positive (trim v)
  | None => false
  end.
Definition offers (name e : bytes) : bool :=
  let '(token, params) := match split_once 59 e with
                          | Some (t, p) => (trim t, p)
                          | None => (trim e, [])
                          end in
  if negb (beq token name) then false else negb (existsb refuses (split_on 59 params)).
Definition accepts (accept_encoding name : bytes) : bool :=
  existsb (offers name) (split_on 44 accept_encoding).

Definition negotiate (accept_encoding : bytes) : option Encoding :=
  let a := to_ascii_lowercase accept_encoding in
  if accepts a (lit "br") then Some Br
  else if accepts a (lit "gzip") then Some Gzip
  else None.

Definition compressible_types : list bytes :=
  [lit "application/json"; lit "application/javascript"; lit "application/xml";
   lit "application/rss+xml"; lit "application/atom+xml"; lit "application/manifest+json";
   lit "application/ld+json"; lit "application/wasm"; lit "image/svg+xml"].
Definition compressible (content_type : bytes) : bool :=
  let ct := trim (default [] (head (split_on 59 content_type))) in
  starts_with ct (lit "text/") || existsb (beq ct) compressible_types.

Section Maybe.
(** [compress]: [None] on an encoder error. *)
Context (encode : Encoding -> bytes -> option bytes).

Definition maybe (body content_type accept_encoding : bytes) : option (Encoding * bytes) :=
  if (length body <? MIN_SIZE)%nat || negb (compressible content_type) then None
  else match negotiate accept_encoding with
       | None => None
       | Some enc =>
           match encode enc body with
           | None => None
           | Some out => if (length out <? length body)%nat then Some (enc, out) else None
           end
       end.
End Maybe.

Example q0_is_a_refusal : negotiate (lit "br;q=0, gzip") = Some Gzip.
Proof. vm_compute. reflexivity. Qed.
Example q_tiny_is_zero : negotiate (lit "br;q=1e-46, GZIP") = Some Gzip.
Proof. vm_compute. reflexivity. Qed.
