(* ===== verification/Trust.v ===== *)
(** Who the client is ([server/trust.rs]): network prefixes, trusted proxies and the walk
    through [X-Forwarded-For]; with the standard library's address parsers. *)

From S2P Require Import Prelude Bytes Http.

(** [std::net::IpAddr], by octets. *)
Inductive IpAddr := V4 (o : list Z) | V6 (o : list Z).
#[export] Instance IpAddr_eq_dec : EqDecision IpAddr.
Proof. solve_decision. Defined.

Definition octets (ip : IpAddr) : list Z := match ip with V4 o | V6 o => o end.
Definition is_ipv4 (ip : IpAddr) : bool := match ip with V4 _ => true | V6 _ => false end.
Definition is_loopback (ip : IpAddr) : bool :=
  match ip with
  | V4 o => bool_decide (head o = Some 127)
  | V6 o => bool_decide (o = replicate 15 0 ++ [1])
  end.
Definition ip_ok (ip : IpAddr) : Prop :=
  is_bytes (octets ip) /\ length (octets ip) = (if is_ipv4 ip then 4 else 16)%nat.

(** ** The parsers of [core::net::parser]: each takes what it can off the front *)

Definition digit_of (radix c : Z) : option Z :=
  let d := if is_ascii_digit c then c - 48
           else if between 97 122 c then c - 87
           else if between 65 90 c then c - 55 else radix in
  if d <? radix then Some d else None.

Fixpoint read_digits (radix hi : Z) (max : option nat) (acc : Z) (n : nat) (b : bytes)
    : option (Z * nat * bytes) :=
  match b with
  | c :: b' =>
      match digit_of radix c with
      | Some d =>
          let acc := acc * radix + d in
          if hi <? acc then None
          else if match max with Some m => (m <? S n)%nat | None => false end then None
          else read_digits radix hi max acc (S n) b'
      | None => Some (acc, n, b)
      end
  | [] => Some (acc, n, [])
  end.

Definition read_number (radix hi : Z) (max : option nat) (allow_zero_prefix : bool) (b : bytes)
    : option (Z * bytes) :=
  match read_digits radix hi max 0 0 b with
  | Some (v, n, r) =>
      if (n =? 0)%nat then None
      else if negb allow_zero_prefix && bool_decide (head b = Some 48) && (1 <? n)%nat then None
      else Some (v, r)
  | None => None
  end.

Definition read_given_char (c : Z) (b : bytes) : option bytes :=
  match b with x :: b' => if x =? c then Some b' else None | [] => None end.

Definition read_separator {A} (sep : Z) (index : nat) (inner : bytes -> option (A * bytes))
    (b : bytes) : option (A * bytes) :=
  match index with
  | O => inner b
  | S _ => match read_given_char sep b with Some b' => inner b' | None => None end
  end.

Fixpoint read_v4_from (n i : nat) (b : bytes) : option (list Z * bytes) :=
  match n with
  | O => Some ([], b)
  | S n' =>
      match read_separator 46 i (read_number 10 255 (Some 3%nat) false) b with
      | Some (v, b') => (fun '(vs, r) => (v :: vs, r)) <$> read_v4_from n' (S i) b'
      | None => None
      end
  end.
Definition read_ipv4_addr (b : bytes) : option (list Z * bytes) := read_v4_from 4 0 b.

(** [read_groups]: the octets read, whether they end in a dotted quad, and the rest. *)
Fixpoint read_groups (limit i : nat) (b : bytes) : list Z * bool * bytes :=
  match limit with
  | O => ([], false, b)
  | S l' =>
      let v4 := if (1 <=? l')%nat then read_separator 58 i read_ipv4_addr b else None in
      match v4 with
      | Some (o, r) => (o, true, r)
      | None =>
          match read_separator 58 i (read_number 16 65535 (Some 4%nat) true) b with
          | Some (g, r) =>
              let '(o, v, r') := read_groups l' (S i) r in (g / 256 :: g mod 256 :: o, v, r')
          | None => ([], false, b)
          end
      end
  end.

Definition read_ipv6_addr (b : bytes) : option (list Z * bytes) :=
  let '(hd, v4, r) := read_groups 8 0 b in
  if (length hd =? 16)%nat then Some (hd, r)
  else if v4 then None
  else match read_given_char 58 r with
       | Some r1 =>
           match read_given_char 58 r1 with
           | Some r2 =>
               let '(tl, _, r3) := read_groups (7 - length hd / 2) 0 r2 in
               Some (hd ++ replicate (16 - length hd - length tl) 0 ++ tl, r3)
           | None => None
           end
       | None => None
       end.

Definition all_of {A} (o : option (A * bytes)) : option A :=
  match o with Some (a, []) => Some a | _ => None end.

(** [parse::<IpAddr>()]. *)
Definition parse_ip (b : bytes) : option IpAddr :=
  match read_ipv4_addr b with
  | Some (o, r) => all_of (Some (V4 o, r))
  | None => all_of ((fun '(o, r) => (V6 o, r)) <$> read_ipv6_addr b)
  end.

Definition read_port (b : bytes) : option (Z * bytes) :=
  match read_given_char 58 b with
  | Some b' => read_number 10 65535 None true b'
  | None => None
  end.
Definition read_scope_id (b : bytes) : bytes :=
  match read_given_char 37 b with
  | Some b' => match read_number 10 (2 ^ 32 - 1) None true b' with Some (_, r) => r | None => b end
  | None => b
  end.

(** [parse::<SocketAddr>().map(|s| s.ip())]. *)
Definition parse_sockaddr_v4 (b : bytes) : option (IpAddr * bytes) :=
  match read_ipv4_addr b with
  | Some (o, r) => (fun '(_, r') => (V4 o, r')) <$> read_port r
  | None => None
  end.
Definition parse_sockaddr_v6 (b : bytes) : option (IpAddr * bytes) :=
  match read_given_char 91 b with
  | Some b1 =>
      match read_ipv6_addr b1 with
      | Some (o, r) =>
          match read_given_char 93 (read_scope_id r) with
          | Some r' => (fun '(_, r'') => (V6 o, r'')) <$> read_port r'
          | None => None
          end
      | None => None
      end
  | None => None
  end.
Definition parse_sockaddr (b : bytes) : option IpAddr :=
  match parse_sockaddr_v4 b with
  | Some x => all_of (Some x)
  | None => all_of (parse_sockaddr_v6 b)
  end.

(** ** [trust.rs] *)

Definition Cidr := (IpAddr * Z)%type.

Definition parse_cidr (s : bytes) : option Cidr :=
  let s := trim s in
  match (match split_once 47 s with
         | Some (a, b) => (fun n => (a, Some n)) <$> parse_unsigned 255 b
         | None => Some (s, None)
         end) with
  | None => None
  | Some (addr, bits) =>
      match parse_ip addr with
      | None => None
      | Some ip =>
          let max := if is_ipv4 ip then 32 else 128 in
          let bits := default max bits in
          if bits <=? max then Some (ip, bits) else None
      end
  end.

(** [masked]: the octets from the [i]th on, with only the first [bits] bits of all kept. *)
Fixpoint masked (i : nat) (bs : list Z) (bits : Z) : list Z :=
  match bs with
  | [] => []
  | b :: bs' =>
      let keep := Z.min (Z.max (bits - Z.of_nat i * 8) 0) 8 in
      (if keep =? 0 then 0
       else Z.land b (Z.land (Z.land (Z.shiftl 0xFF (8 - keep)) 0xFFFF) 0xFF)) :: masked (S i) bs' bits
  end.

Definition cidr_contains (c : Cidr) (ip : IpAddr) : bool :=
  let '(net, bits) := c in
  match net, ip with
  | V4 n, V4 a => bool_decide (masked 0 n bits = masked 0 a bits)
  | V6 n, V6 a => bool_decide (masked 0 n bits = masked 0 a bits)
  | _, _ => false
  end.

Definition peer_is_trusted (peer : IpAddr) (trusted : list Cidr) : bool :=
  negb (bool_decide (trusted = [])) && existsb (fun c => cidr_contains c peer) trusted.

(** An entry may carry a port. *)
Definition parse_hop (hop : bytes) : option IpAddr :=
  match parse_ip hop with Some ip => Some ip | None => parse_sockaddr hop end.

(** The walk, over the chain from the right. *)
Fixpoint walk (hops : list bytes) (trusted : list Cidr) : option IpAddr :=
  match hops with
  | [] => None
  | hop :: hops' =>
      match parse_hop hop with
      | Some ip => if existsb (fun c => cidr_contains c ip) trusted then walk hops' trusted else Some ip
      | None => walk hops' trusted
      end
  end.

Section Client.
(** [HeaderValue::to_str]. *)
Context (to_str : bytes -> option bytes).

Definition chain (h : headers) : list bytes :=
  filter (fun s => s <> [])
    (trim <$> concat (split_on 44 <$> omap to_str (get_all h (lit "x-forwarded-for")))).

Definition client_ip_from (h : headers) (peer : IpAddr) (trusted : list Cidr) : IpAddr :=
  if negb (peer_is_trusted peer trusted) then peer
  else default peer (walk (reverse (chain h)) trusted).
End Client.

Example parse_v6 : parse_ip (lit "fd12::1") = Some (V6 ([0xfd; 0x12] ++ replicate 13 0 ++ [1])).
Proof. vm_compute. reflexivity. Qed.
Example parse_v6_quad : parse_ip (lit "::ffff:10.1.2.3")
  = Some (V6 (replicate 10 0 ++ [255; 255; 10; 1; 2; 3])).
Proof. vm_compute. reflexivity. Qed.
Example parse_octal : parse_ip (lit "10.01.2.3") = None.
Proof. vm_compute. reflexivity. Qed.
Example parse_port : parse_hop (lit "[::1%2]:8080") = Some (V6 (replicate 15 0 ++ [1])).
Proof. vm_compute. reflexivity. Qed.
