(* ===== verification/TrustSpec.v ===== *)
(** What the client address promises: a prefix is the bits it says, and nothing a client writes
    into [X-Forwarded-For] replaces the address its own proxy wrote after it. *)

From S2P Require Import Prelude Bytes Http Trust.

(** ** Prefixes *)

Definition mask (keep : Z) : Z := Z.land (Z.land (Z.shiftl 0xFF (8 - keep)) 0xFFFF) 0xFF.

Lemma mask_testbit keep j : 0 <= keep <= 8 -> 0 <= j ->
  Z.testbit (mask keep) j = (8 - keep <=? j) && (j <? 8).
Proof.
  intros Hk Hj. unfold mask. rewrite !Z.land_spec, Z.shiftl_spec by lia.
  change 0xFFFF with (Z.ones 16). change 0xFF with (Z.ones 8).
  rewrite !Z.testbit_ones by lia.
  destruct (Z.leb_spec (8 - keep) j), (Z.ltb_spec j 8), (Z.leb_spec 0 (j - (8 - keep))),
    (Z.ltb_spec (j - (8 - keep)) 8), (Z.ltb_spec j 16), (Z.leb_spec 0 j); try lia; done.
Qed.

(** The first [keep] bits of an octet, most significant first. *)
Lemma octet_masked keep x y : 0 <= keep <= 8 -> is_byte x -> is_byte y ->
  Z.land x (mask keep) = Z.land y (mask keep)
  <-> forall i, 0 <= i < keep -> Z.testbit x (7 - i) = Z.testbit y (7 - i).
Proof.
  intros Hk Hx Hy. split.
  - intros E i Hi. apply (f_equal (fun z => Z.testbit z (7 - i))) in E.
    rewrite !Z.land_spec, !mask_testbit in E by lia.
    replace ((8 - keep <=? 7 - i) && (7 - i <? 8)) with true in E by lia.
    by rewrite !andb_true_r in E.
  - intros E. apply Z.bits_inj'. intros j Hj. rewrite !Z.land_spec, !mask_testbit by lia.
    destruct ((8 - keep <=? j) && (j <? 8)) eqn:Eb; [|by rewrite !andb_false_r].
    rewrite !andb_true_r. replace j with (7 - (7 - j)) by lia. apply E. lia.
Qed.

(** Bit [i] of an address, counted from the front. *)
Definition bit (o : list Z) (i : Z) : bool :=
  Z.testbit (o !!! Z.to_nat (i / 8)) (7 - i mod 8).

Definition keep_at (i : nat) (bits : Z) : Z := Z.min (Z.max (bits - Z.of_nat i * 8) 0) 8.

Lemma masked_cons i b bs bits :
  masked i (b :: bs) bits = Z.land b (mask (keep_at i bits)) :: masked (S i) bs bits.
Proof.
  cbn [masked]. fold (keep_at i bits). fold (mask (keep_at i bits)).
  destruct (Z.eqb_spec (keep_at i bits) 0) as [->|]; [|done]. f_equal.
  replace (mask 0) with 0 by reflexivity. by rewrite Z.land_0_r.
Qed.

Lemma masked_eq i xs ys bits :
  length xs = length ys -> is_bytes xs -> is_bytes ys ->
  masked i xs bits = masked i ys bits
  <-> forall k, (k < length xs)%nat -> forall j, 0 <= j < keep_at (i + k) bits ->
        Z.testbit (xs !!! k) (7 - j) = Z.testbit (ys !!! k) (7 - j).
Proof.
  revert i ys. induction xs as [|x xs IH]; intros i [|y ys] Hl Hx Hy; try done.
  apply Forall_cons in Hx as [Hx Hxs], Hy as [Hy Hys]. rewrite !masked_cons.
  assert (0 <= keep_at i bits <= 8) as Hk by (unfold keep_at; lia).
  split.
  - intros E. apply (inj2 cons) in E as [E1 E2].
    intros [|k] Hkl j Hj.
    + rewrite Nat.add_0_r in Hj. exact (proj1 (octet_masked (keep_at i bits) x y Hk Hx Hy) E1 j Hj).
    + cbn [length] in Hl, Hkl. apply (proj1 (IH (S i) ys ltac:(lia) Hxs Hys) E2 k ltac:(lia)).
      by replace (S i + k)%nat with (i + S k)%nat by lia.
  - intros E. f_equal.
    + apply octet_masked; [done..|]. intros j Hj. apply (E 0%nat); [cbn [length]; lia|].
      by rewrite Nat.add_0_r.
    + cbn [length] in Hl. apply IH; [lia|done..|]. intros k Hkl j Hj.
      apply (E (S k)); [cbn [length]; lia|]. by replace (i + S k)%nat with (S i + k)%nat by lia.
Qed.

(** Both families at once. *)
Lemma masked_prefix xs ys bits :
  length xs = length ys -> is_bytes xs -> is_bytes ys -> 0 <= bits <= 8 * Z.of_nat (length xs) ->
  masked 0 xs bits = masked 0 ys bits <-> forall i, 0 <= i < bits -> bit xs i = bit ys i.
Proof.
  intros Hl Hx Hy Hb. rewrite masked_eq by done. split.
  - intros E i Hi. unfold bit. pose proof (Z.div_mod i 8 ltac:(lia)).
    pose proof (Z.mod_pos_bound i 8 ltac:(lia)).
    assert (0 <= i / 8 < Z.of_nat (length xs)) by (split; [apply Z.div_pos|]; lia).
    apply E; [lia|]. unfold keep_at. rewrite Nat.add_0_l, Z2Nat.id by lia. lia.
  - intros E k Hk j Hj. unfold keep_at in Hj. specialize (E (8 * Z.of_nat k + j) ltac:(lia)).
    unfold bit in E. rewrite Z.mul_comm, Z.div_add_l, Z.div_small, Z.add_0_r, Nat2Z.id in E by lia.
    rewrite Z.add_comm, Z_mod_plus_full, Z.mod_small in E by lia. done.
Qed.

(** An address is inside a network exactly when it is of the same family and agrees with
    it on the prefix's bits: never across families, and on all of them for a single host. *)
Theorem cidr_contains_prefix net bits ip :
  ip_ok net -> ip_ok ip -> 0 <= bits <= (if is_ipv4 net then 32 else 128) ->
  cidr_contains (net, bits) ip = true
  <-> is_ipv4 net = is_ipv4 ip /\ forall i, 0 <= i < bits -> bit (octets net) i = bit (octets ip) i.
Proof.
  intros [Hb Hl] [Hb' Hl'] Hbits. destruct net as [n|n], ip as [a|a]; cbn in *;
    try (split; [done|intros [? _]; done]).
  all: rewrite bool_decide_eq_true, masked_prefix by (done || congruence || lia); split;
    [intros H; split; [done|exact H]|intros [_ H]; exact H].
Qed.

(** ** The forwarded chain *)

Lemma split_on_app_sep c a b : split_on c (a ++ c :: b) = split_on c a ++ split_on c b.
Proof.
  induction a as [|x a IH]; cbn [app split_on].
  - by rewrite Z.eqb_refl.
  - destruct (Z.eqb_spec x c); [by rewrite IH|]. rewrite IH.
    destruct (split_on c a) as [|p ps] eqn:E; [by destruct (split_on_nonempty c a)|done].
Qed.

Lemma walk_app a b trusted :
  walk (a ++ b) trusted = match walk a trusted with Some ip => Some ip | None => walk b trusted end.
Proof.
  induction a as [|x a IH]; [done|]. cbn [app walk].
  destruct (parse_hop x); [|done]. by destruct (existsb _ _).
Qed.

(** A hop that is one of the operator's own proxies. *)
Definition is_proxy (trusted : list Cidr) (hop : bytes) : Prop :=
  exists ip, parse_hop (trim hop) = Some ip /\ existsb (fun c => cidr_contains c ip) trusted = true.

Lemma walk_proxies proxies trusted :
  Forall (is_proxy trusted) proxies ->
  walk (reverse (filter (fun s => s <> []) (trim <$> proxies))) trusted = None.
Proof.
  induction 1 as [|p ps (ip & Hp & Ht) _ IH]; [done|]. cbn [fmap list_fmap].
  destruct (decide (trim p <> [])); [rewrite filter_cons_True by done|by rewrite filter_cons_False].
  rewrite reverse_cons, walk_app, IH. cbn [walk]. by rewrite Hp, Ht.
Qed.

Section Spoof.
Context (to_str : bytes -> option bytes).

Lemma chain_last h vs v :
  get_all h (lit "x-forwarded-for") = vs ++ [v] -> to_str v = Some v ->
  exists front, chain to_str h = front ++ filter (fun s => s <> []) (trim <$> split_on 44 v).
Proof.
  intros Hg Hs. unfold chain. rewrite Hg, omap_app. cbn [omap list_omap]. rewrite Hs.
  rewrite fmap_app, concat_app, fmap_app, filter_app. cbn [fmap list_fmap concat].
  rewrite app_nil_r. by eexists.
Qed.

(** What a text field gives is the field. *)
Hypothesis to_str_text : forall v s, to_str v = Some s -> s = v.

Lemma client_ip_last h vs real proxies ip peer trusted pre v :
  get_all h (lit "x-forwarded-for") = vs ++ [v] -> to_str v = Some v ->
  split_on 44 v = pre ++ real :: proxies ->
  parse_hop (trim real) = Some ip -> existsb (fun c => cidr_contains c ip) trusted = false ->
  Forall (is_proxy trusted) proxies -> peer_is_trusted peer trusted = true ->
  client_ip_from to_str h peer trusted = ip.
Proof.
  intros Hg Hs Hv Hip Hun Hpx Ht. unfold client_ip_from. rewrite Ht. cbn [negb].
  destruct (chain_last h vs _ Hg Hs) as [front ->]. rewrite Hv.
  rewrite fmap_app, filter_app, !reverse_app, !walk_app. cbn [fmap list_fmap].
  assert (trim real <> []) as Hne by (intros Er; by rewrite Er in Hip).
  rewrite filter_cons_True by done.
  rewrite reverse_cons, walk_app, walk_proxies by done. cbn [walk]. by rewrite Hip, Hun.
Qed.

Lemma split_on_join_tail fake real proxies :
  44 ∉ real -> Forall (fun p => 44 ∉ p) proxies ->
  exists pre, split_on 44 (join [44] (fake ++ real :: proxies)) = pre ++ real :: proxies.
Proof.
  intros Hr Hp. assert (split_on 44 (join [44] (real :: proxies)) = real :: proxies) as E
    by (apply split_on_join; [done|by constructor]).
  destruct fake as [|f fake]; [by exists []|].
  exists (split_on 44 (join [44] (f :: fake))). rewrite <- E at 2. rewrite <- split_on_app_sep. f_equal.
  clear. revert f. induction fake as [|g fake IH]; intros f; [done|].
  change ((f :: g :: fake) ++ real :: proxies) with (f :: g :: (fake ++ real :: proxies)).
  rewrite !join_cons. specialize (IH g). cbn [app] in IH |- *. rewrite IH. by rewrite <- app_assoc.
Qed.

(** C12.  The client cannot choose its own address in a field that is text.  Behind an untrusted peer the
    header is ignored.  Behind a trusted one whose field -- the last -- is text, the answer is the
    address the outermost trusted proxy appended, whatever the client put in front of it, in that
    field or in others, and whatever trusted hops come after it.  A last field that is not text
    counts as absent: the fields before it decide (see [nontext_field_spoofs]). *)
Theorem client_ip_unspoofable h vs fake real proxies ip peer trusted :
  let field := join [44] (fake ++ real :: proxies) in
  get_all h (lit "x-forwarded-for") = vs ++ [field] ->
  44 ∉ real -> Forall (fun p => 44 ∉ p) proxies ->
  parse_hop (trim real) = Some ip -> existsb (fun c => cidr_contains c ip) trusted = false ->
  Forall (is_proxy trusted) proxies ->
  (peer_is_trusted peer trusted = false -> client_ip_from to_str h peer trusted = peer)
  /\ (peer_is_trusted peer trusted = true -> to_str field <> None -> client_ip_from to_str h peer trusted = ip)
  /\ (to_str field = None -> forall h0, get_all h0 (lit "x-forwarded-for") = vs ->
      client_ip_from to_str h peer trusted = client_ip_from to_str h0 peer trusted).
Proof.
  intros field Hg Hr Hp Hip Hun Hpx. split; [intros Ht; unfold client_ip_from; by rewrite Ht|]. split.
  - intros Ht Hs. destruct (to_str field) as [s|] eqn:Es; [|done]. pose proof (to_str_text _ _ Es) as ->.
    destruct (split_on_join_tail fake real proxies Hr Hp) as [pre Ev]. by eapply client_ip_last.
  - intros Hs h0 H0. unfold client_ip_from, chain. rewrite Hg, H0, omap_app. cbn [omap list_omap].
    by rewrite Hs, app_nil_r.
Qed.

(** A forwarded chain that is not printable ASCII is dropped whole, and with it the address the
    proxy appended to it. *)
Theorem nontext_chain_hides_client h v peer trusted :
  get_all h (lit "x-forwarded-for") = [v] -> to_str v = None -> client_ip_from to_str h peer trusted = peer.
Proof.
  intros Hg Hs. unfold client_ip_from, chain. rewrite Hg. cbn [omap list_omap]. rewrite Hs.
  by destruct (negb _).
Qed.
End Spoof.

(** [to_str]: visible ASCII and tabs. *)
Definition ascii_to_str (v : bytes) : option bytes :=
  if forallb (fun c => between 32 126 c || (c =? 9)) v then Some v else None.

Definition loopback : IpAddr := V4 [127; 0; 0; 1].
Definition proxies_10 : list Cidr := [(loopback, 32); (V4 [10; 0; 0; 0], 8)].

Lemma cidr_contains_prefix_witness :
  cidr_contains (V4 [10; 128; 0; 0], 9) (V4 [10; 200; 3; 4]) = true
  /\ ~ cidr_contains (V4 [10; 128; 0; 0], 9) (V4 [10; 100; 3; 4]) = true.
Proof.
  split.
  - apply (cidr_contains_prefix (V4 [10; 128; 0; 0]) 9 (V4 [10; 200; 3; 4]));
      [split; [repeat constructor; done|done]..|done|]. split; [done|].
    intros i Hi. assert (i = 0 \/ i = 1 \/ i = 2 \/ i = 3 \/ i = 4 \/ i = 5 \/ i = 6 \/ i = 7 \/ i = 8) as Hc by lia.
    destruct_or! Hc; subst; vm_compute; reflexivity.
  - vm_compute. done.
Defined.

Lemma ascii_to_str_id v s : ascii_to_str v = Some s -> s = v.
Proof. unfold ascii_to_str. by destruct (forallb _ _); [intros [= <-]|]. Qed.

Lemma client_ip_unspoofable_witness :
  client_ip_from ascii_to_str [(lit "x-forwarded-for", lit "1.1.1.1, 9.9.9.9, 10.1.1.2")] loopback proxies_10
  = V4 [9; 9; 9; 9].
Proof.
  refine (proj1 (proj2 (client_ip_unspoofable ascii_to_str ascii_to_str_id
    [(lit "x-forwarded-for", lit "1.1.1.1, 9.9.9.9, 10.1.1.2")]
    [] [lit "1.1.1.1"] (lit " 9.9.9.9") [lit " 10.1.1.2"] (V4 [9; 9; 9; 9]) loopback proxies_10 _ _ _ _ _ _)) _ _);
    [vm_compute; reflexivity|not_in|repeat constructor; not_in|vm_compute; reflexivity|vm_compute; reflexivity|
     |vm_compute; reflexivity|vm_compute; discriminate].
  repeat constructor. exists (V4 [10; 1; 1; 2]). split; vm_compute; reflexivity.
Defined.

(** A field that is not text is dropped with what the proxy appended to it, so that a client that
    sends two fields, the second with one byte above 0x7f, to a proxy that appends to the last,
    is who it says in the first. *)
Lemma nontext_field_spoofs :
  client_ip_from ascii_to_str
    [(lit "x-forwarded-for", lit "1.1.1.1"); (lit "x-forwarded-for", [255] ++ lit ", 9.9.9.9")] loopback proxies_10
  = V4 [1; 1; 1; 1].
Proof. by vm_compute. Qed.
