(* ===== verification/Cgi.v ===== *)
(** What PHP is told of a request ([cgi.rs]): the effective host, the header policy and the
    [$_SERVER] variables. *)

From S2P Require Import Prelude Bytes Ns Http Trust.

(** ** The standard library's printing of addresses *)

Definition hex_digit (d : Z) : Z := if d <? 10 then 48 + d else 87 + d.
Fixpoint hex_acc (fuel : nat) (n : Z) (acc : bytes) : bytes :=
  match fuel with
  | O => acc
  | S f => let acc := hex_digit (n mod 16) :: acc in if n <? 16 then acc else hex_acc f (n / 16) acc
  end.
Definition to_hex (n : Z) : bytes := hex_acc 4 n [].

Fixpoint segments (o : list Z) : list Z :=
  match o with a :: b :: o' => a * 256 + b :: segments o' | _ => [] end.

(** The first of the longest runs of zero segments: where it starts and how long it is. *)
Fixpoint longest_zeros (i : nat) (segs : list Z) (cur best : nat * nat) : nat * nat :=
  match segs with
  | [] => best
  | s :: segs' =>
      if s =? 0 then
        let cur := if (cur.2 =? 0)%nat then (i, 1%nat) else (cur.1, S cur.2) in
        longest_zeros (S i) segs' cur (if (best.2 <? cur.2)%nat then cur else best)
      else longest_zeros (S i) segs' (O, O) best
  end.
Definition fmt_segs (segs : list Z) : bytes := join [58] (to_hex <$> segs).
Definition fmt_v4 (o : list Z) : bytes := join [46] (to_digits <$> o).
Definition ip_to_string (ip : IpAddr) : bytes :=
  match ip with
  | V4 o => fmt_v4 o
  | V6 o =>
      if bool_decide (take 12 o = replicate 10 0 ++ [255; 255]) then lit "::ffff:" ++ fmt_v4 (drop 12 o)
      else
        let segs := segments o in
        let '(start, len) := longest_zeros 0 segs (O, O) (O, O) in
        if (1 <? len)%nat
        then fmt_segs (take start segs) ++ lit "::" ++ fmt_segs (drop (start + len) segs)
        else fmt_segs segs
  end.

(** ** The header policy *)

Inductive Rule :=
| ContentMeta | Httpoxy | AuthoritativeHost | UntrustedForwardedFor | UntrustedForwarding | Underscore.
Inductive Disposition :=
| Pass (sep : bytes)
| Drop (why : Rule)
| ForwardedFor.

Definition is_forwarding_claim (name : bytes) : bool :=
  let PREFIX := lit "x-forwarded-" in
  beq name (lit "x-real-ip") || beq name (lit "forwarded")
  || (length PREFIX <? length name)%nat && starts_with name PREFIX.

Definition UNDERSCORE : Z := 95.
Definition header_policy (name : bytes) (peer_trusted : bool) : Disposition :=
  if beq name (lit "content-type") || beq name (lit "content-length") then Drop ContentMeta
  else if beq name (lit "proxy") then Drop Httpoxy
  else if beq name (lit "host") then Drop AuthoritativeHost
  else if beq name (lit "x-forwarded-for") then
    (if peer_trusted then ForwardedFor else Drop UntrustedForwardedFor)
  else if negb peer_trusted && is_forwarding_claim name then Drop UntrustedForwarding
  else if bool_decide (UNDERSCORE ∈ name) then Drop Underscore
  else if beq name (lit "cookie") then Pass (lit "; ")
  else Pass (lit ", ").

(** [HTTP_] and the name, upper-cased, dashes as underscores. *)
Definition to_upper (x : Z) : Z := if is_ascii_lowercase x then x - 32 else x.
Definition http_name (key : bytes) : bytes :=
  lit "HTTP_" ++ ((fun x => if to_upper x =? 45 then UNDERSCORE else to_upper x) <$> key).

(** ** The request handed to PHP *)

Definition vars := (list (bytes * bytes)).

(** Append to the first variable of the name, or add one. *)
Fixpoint push_var (vs : vars) (name sep v : bytes) : vars :=
  match vs with
  | [] => [(name, v)]
  | (k, x) :: vs' => if beq k name then (k, x ++ sep ++ v) :: vs' else (k, x) :: push_var vs' name sep v
  end.

(** [struct Context], and what the connection and the clock give. *)
Record Context := mkContext {
  docroot : bytes; script : bytes; script_name : bytes;
  peer : IpAddr; peer_port : Z;
  ctx_https : bool; server_port : Z;
  ctx_trusted : list Cidr;
  protocol : bytes; request_time : Z; namespace : bytes }.

(** [askr_php::Request], the parts this builder sets; the upload fields start empty. *)
Record PhpRequest := mkPhpRequest {
  q_script_filename : bytes; q_method : bytes; q_query_string : bytes;
  q_content_type : option bytes; q_cookie : option bytes; q_body : bytes;
  q_server_vars : vars; q_namespace : bytes }.

Section Build.
Context (to_str : bytes -> option bytes).

Definition effective_host (req : Request) : option bytes :=
  match (match hget (fields req) (lit "host") with
         | Some v => match to_str v with
                     | Some s => if beq (trim s) [] then None else Some (trim s)
                     | None => None
                     end
         | None => None
         end) with
  | Some h => Some h
  | None => authority req
  end.

Definition BRACKET : Z := 93.
Definition COLON : Z := 58.
Definition host_without_port (authority : bytes) : bytes :=
  let a := trim authority in
  match rposition BRACKET a with
  | Some e => take (S e) a
  | None =>
      match rposition COLON a with
      | Some i => if bool_decide (COLON ∈ take i a) then a
                  else if forallb is_ascii_digit (drop (S i) a) then take i a
                  else a
      | None => a
      end
  end.

(** [Uri::path_and_query]. *)
Definition path_and_query (req : Request) : bytes :=
  match query req with Some q => path req ++ [63] ++ q | None => path req end.

(** One header on its way in; the flag is [saw_forwarded_for]. *)
Definition add_header (trusted : bool) (acc : vars * bool) (kv : bytes * bytes) : vars * bool :=
  let '(vs, saw) := acc in
  let '(key, value) := kv in
  match header_policy key trusted with
  | ForwardedFor => (vs, true)
  | Drop _ => (vs, saw)
  | Pass sep => match to_str value with
                | Some v => (push_var vs (http_name key) sep v, saw)
                | None => (vs, saw)
                end
  end.

Definition base_vars (req : Request) (body : bytes) (ctx : Context) : vars :=
  let raw_host := default (lit "localhost") (effective_host req) in
  let client := client_ip_from to_str (fields req) (peer ctx) (ctx_trusted ctx) in
  [(lit "REQUEST_METHOD", method req); (lit "REQUEST_URI", path_and_query req);
   (lit "QUERY_STRING", default [] (query req)); (lit "PATH_INFO", path req);
   (lit "SCRIPT_NAME", script_name ctx); (lit "PHP_SELF", script_name ctx);
   (lit "SCRIPT_FILENAME", script ctx); (lit "DOCUMENT_ROOT", docroot ctx);
   (lit "SERVER_PROTOCOL", protocol ctx); (lit "GATEWAY_INTERFACE", lit "CGI/1.1");
   (lit "SERVER_SOFTWARE", lit "askr"); (lit "SERVER_NAME", host_without_port raw_host);
   (lit "SERVER_PORT", to_digits (server_port ctx)); (lit "SERVER_ADDR", lit "127.0.0.1");
   (lit "HTTP_HOST", raw_host); (lit "REMOTE_ADDR", ip_to_string client);
   (lit "REMOTE_PORT", to_digits (peer_port ctx)); (lit "ASKR_PEER_ADDR", ip_to_string (peer ctx));
   (lit "REQUEST_TIME", to_digits (request_time ctx))]
  ++ (if ctx_https ctx then [(lit "HTTPS", lit "on")] else [])
  ++ match hget (fields req) (lit "content-type") with
     | Some v => match to_str v with Some ct => [(lit "CONTENT_TYPE", ct)] | None => [] end
     | None => []
     end
  ++ (if bool_decide (body = []) then [] else [(lit "CONTENT_LENGTH", to_digits (Z.of_nat (length body)))]).

Definition server_vars (req : Request) (body : bytes) (ctx : Context) : vars :=
  let trusted := peer_is_trusted (peer ctx) (ctx_trusted ctx) in
  let '(vs, saw) := foldl (add_header trusted) (base_vars req body ctx, false) (fields req) in
  if saw then vs ++ [(lit "HTTP_X_FORWARDED_FOR",
                      ip_to_string (client_ip_from to_str (fields req) (peer ctx) (ctx_trusted ctx)))]
  else vs.

Definition build_request (req : Request) (body : bytes) (ctx : Context) : PhpRequest :=
  let cookie := join (lit "; ") (omap to_str (get_all (fields req) (lit "cookie"))) in
  mkPhpRequest (script ctx) (method req) (default [] (query req))
    (match hget (fields req) (lit "content-type") with Some v => to_str v | None => None end)
    (if bool_decide (cookie = []) then None else Some cookie) body
    (server_vars req body ctx) (namespace ctx).
End Build.

Example v6_string : ip_to_string (V6 ([0xfd; 0x12] ++ replicate 13 0 ++ [1])) = lit "fd12::1".
Proof. vm_compute. reflexivity. Qed.
Example v6_port : host_without_port (lit "[::1]:8080") = lit "[::1]".
Proof. vm_compute. reflexivity. Qed.

(** ** What reaches PHP *)

Section Spec.
Context (to_str : bytes -> option bytes).

Implicit Types (vs : vars) (ctx : Context).

(** Variable names that speak for the network rather than for the client. *)
Definition forwarding_name (k : bytes) : bool :=
  beq k (lit "HTTP_X_REAL_IP") || beq k (lit "HTTP_FORWARDED")
  || starts_with k (lit "HTTP_X_FORWARDED_") && (length (lit "HTTP_X_FORWARDED_") <? length k)%nat.

(** The header a variable came from can be read off its name. *)
Definition header_of (name : bytes) : bytes :=
  (fun x => if x =? UNDERSCORE then 45 else to_lower x) <$> drop 5 name.

Lemma header_of_http_name key :
  to_ascii_lowercase key = key -> UNDERSCORE ∉ key -> header_of (http_name key) = key.
Proof.
  unfold header_of, http_name. change (drop 5 (lit "HTTP_" ++ ?x)) with x.
  rewrite <- list_fmap_compose. unfold to_ascii_lowercase.
  induction key as [|x key IH]; intros Hl Hu; [done|]. cbn [fmap list_fmap] in *.
  injection Hl as Hx Hl. apply not_elem_of_cons in Hu as [Hux Hu]. rewrite IH by done. f_equal.
  unfold compose, to_upper, to_lower, is_ascii_lowercase, is_ascii_uppercase, between, UNDERSCORE in *.
  repeat case_bool; zbool; lia.
Qed.

(** A header that is passed on. *)
Definition passes (trusted : bool) (key : bytes) : Prop := exists sep, header_policy key trusted = Pass sep.

Lemma passes_spec trusted key :
  passes trusted key ->
  (UNDERSCORE ∉ key) /\ key <> lit "proxy" /\ key <> lit "host" /\ key <> lit "x-forwarded-for"
  /\ (trusted = false -> is_forwarding_claim key = false).
Proof.
  intros [sep H]. unfold header_policy in H.
  destruct (beq key (lit "content-type") || _); [done|].
  destruct (beq key (lit "proxy")) eqn:E1; [done|]. destruct (beq key (lit "host")) eqn:E2; [done|].
  destruct (beq key (lit "x-forwarded-for")) eqn:E3; [by destruct trusted|].
  destruct (negb trusted && _) eqn:E4; [done|]. case_bool_decide; [done|].
  split; [done|]. repeat (split; [by intros ->|]). intros ->. exact E4.
Qed.

Lemma push_var_keys vs n sep v :
  (push_var vs n sep v).*1 = if bool_decide (n ∈ vs.*1) then vs.*1 else vs.*1 ++ [n].
Proof.
  induction vs as [|[k x] vs IH]; [done|]. cbn [push_var fmap list_fmap fst].
  destruct (beq k n) eqn:E.
  - apply beq_true in E as ->. rewrite bool_decide_true by left. done.
  - cbn [fmap list_fmap fst]. rewrite IH. assert (k <> n) as Hne by (intros ->; by rewrite beq_refl in E).
    destruct (decide (n ∈ vs.*1)).
    + rewrite !bool_decide_true by (done || by right). done.
    + rewrite !bool_decide_false; [done|by intros [?|?]%elem_of_cons|done].
Qed.

Lemma push_var_other vs n sep v k x : k <> n -> (k, x) ∈ push_var vs n sep v <-> (k, x) ∈ vs.
Proof.
  intros Hne. induction vs as [|[k' x'] vs IH]; cbn [push_var].
  - rewrite elem_of_cons. split; [intros [?|?]; [by simplify_eq|done]|by intros ?%elem_of_nil].
  - destruct (beq k' n) eqn:E.
    + apply beq_true in E as ->. rewrite !elem_of_cons. split; (intros [?|?]; [by simplify_eq|by right]).
    + rewrite !elem_of_cons, IH. done.
Qed.

(** What the header loop keeps true of the variables: those set first stay, and any other is a
    header that passes. *)
Record vars_ok (base : vars) (trusted : bool) (vs : vars) : Prop := {
  ok_nodup : NoDup vs.*1;
  ok_base : forall kv, kv ∈ base -> kv ∈ vs;
  ok_new : forall k v, (k, v) ∈ vs -> (k, v) ∈ base \/
    exists key, passes trusted key /\ to_ascii_lowercase key = key /\ k = http_name key }.

Lemma add_headers_ok base trusted h vs saw :
  (forall key, passes trusted key -> to_ascii_lowercase key = key -> http_name key ∉ base.*1) ->
  Forall (fun kv => to_ascii_lowercase kv.1 = kv.1) h ->
  vars_ok base trusted vs ->
  let '(vs', saw') := foldl (add_header to_str trusted) (vs, saw) h in
  vars_ok base trusted vs' /\ (saw' = true -> saw = true \/ trusted = true).
Proof.
  intros Hfresh Hl. revert vs saw. induction Hl as [|[key value] h Hk _ IH]; intros vs saw Hok; cbn [foldl].
  { by auto. }
  cbn [add_header]. destruct (header_policy key trusted) as [sep|why|] eqn:E; [|by apply IH|].
  - destruct (to_str value) as [v|]; [|by apply IH]. apply IH.
    assert (passes trusted key) as Hp by (by exists sep). cbn [fst] in Hk.
    specialize (Hfresh key Hp Hk). destruct Hok as [Hn Hb Hnew]. split.
    + rewrite push_var_keys. case_bool_decide as Hin; [done|].
      apply NoDup_app. split; [done|]. split; [|apply NoDup_singleton].
      intros k Hk' ->%list_elem_of_singleton. done.
    + intros [k x] Hkv. rewrite push_var_other; [by apply Hb|].
      intros ->. apply Hfresh. by apply (list_elem_of_fmap_2 fst base (http_name key, x)).
    + intros k x Hkx. destruct (decide (k = http_name key)) as [->|Hne].
      * right. by exists key.
      * apply push_var_other in Hkx; [by apply Hnew|done].
  - specialize (IH vs true Hok). destruct (foldl _ (vs, true) h) as [vs' saw'].
    destruct IH as [? _]. split; [done|]. intros _. right. unfold header_policy in E.
    repeat match type of E with context [if ?b then _ else _] => destruct b; try done end.
Qed.

Lemma base_vars_keys req body ctx : exists names,
  (base_vars to_str req body ctx).*1 = names /\ NoDup names
  /\ forall k, k ∈ names -> starts_with k (lit "HTTP_") = true -> k = lit "HTTP_HOST".
Proof.
  eexists. split; [reflexivity|]. unfold base_vars.
  destruct (ctx_https ctx); destruct (hget _ _) as [v|]; try destruct (to_str v); case_bool_decide;
    cbn [Datatypes.app fmap list_fmap fst];
    (split; [apply (bool_decide_unpack _); vm_compute; done|]);
    intros k Hk Hs;
    repeat (apply elem_of_cons in Hk as [->|Hk]; [vm_compute in Hs; done || done|]); by apply elem_of_nil in Hk.
Qed.

(** A variable made from a header that passes is none of these. *)
Lemma http_name_eq trusted key name :
  passes trusted key -> to_ascii_lowercase key = key -> http_name key = name -> key = header_of name.
Proof. intros (Hu & _)%passes_spec Hl <-. by rewrite header_of_http_name. Qed.

Lemma http_name_prefix key : starts_with (http_name key) (lit "HTTP_") = true.
Proof. apply starts_with_true. by eexists. Qed.

Lemma forwarding_http (k : bytes) : forwarding_name k = true -> starts_with k (lit "HTTP_") = true.
Proof.
  unfold forwarding_name. intros [[->%beq_true| ->%beq_true]%orb_true_iff|[H _]%andb_true_iff]%orb_true_iff; try done.
  apply starts_with_true in H as [r ->]. apply starts_with_true. by exists (lit "X_FORWARDED_" ++ r).
Qed.

Lemma forwarding_passes key :
  passes false key -> to_ascii_lowercase key = key -> forwarding_name (http_name key) = false.
Proof.
  intros Hp Hl. apply not_true_iff_false. intros H.
  pose proof (passes_spec _ _ Hp) as (_ & _ & _ & _ & Hf). specialize (Hf eq_refl).
  unfold forwarding_name in H. apply orb_true_iff in H as [[H|H]%orb_true_iff|H].
  - apply beq_true in H. apply (http_name_eq false) in H; [|done..]. by rewrite H in Hf.
  - apply beq_true in H. apply (http_name_eq false) in H; [|done..]. by rewrite H in Hf.
  - apply andb_true_iff in H as [[r H]%starts_with_true Hlen%Nat.ltb_lt].
    assert (key = lit "x-forwarded-" ++ header_of (lit "HTTP_" ++ r)) as E.
    { rewrite (http_name_eq false key _ Hp Hl H). unfold header_of. by rewrite !drop_app, fmap_app. }
    rewrite H, length_app in Hlen. unfold is_forwarding_claim in Hf. rewrite E in Hf.
    apply orb_false_iff in Hf as [_ Hf]. rewrite (proj2 (starts_with_true _ _)) in Hf by eauto.
    rewrite andb_true_r in Hf. apply Nat.ltb_ge in Hf. rewrite length_app in Hf.
    unfold header_of in Hf. rewrite length_fmap, length_drop, length_app in Hf.
    change (length (lit "HTTP_")) with 5%nat in Hf. lia.
Qed.

(** The variables: the ones set first, one per header that passes, and the client. *)
Definition clean (trusted : bool) (k : bytes) : Prop :=
  k <> lit "HTTP_PROXY" /\ k <> lit "HTTP_X_FORWARDED_FOR" /\ (trusted = false -> forwarding_name k = false).

Lemma base_clean trusted req body ctx k : k ∈ (base_vars to_str req body ctx).*1 -> clean trusted k.
Proof.
  destruct (base_vars_keys req body ctx) as (names & -> & _ & Hhttp). intros Hin. unfold clean.
  split; [intros ->; by apply Hhttp in Hin|]. split; [intros ->; by apply Hhttp in Hin|]. intros _.
  apply not_true_iff_false. intros Hf. pose proof (Hhttp k Hin (forwarding_http k Hf)) as ->. by vm_compute in Hf.
Qed.

Lemma passed_clean trusted key :
  passes trusted key -> to_ascii_lowercase key = key ->
  clean trusted (http_name key) /\ http_name key <> lit "HTTP_HOST" /\ http_name key <> lit "REMOTE_ADDR".
Proof.
  intros Hp Hlow. pose proof (passes_spec _ _ Hp) as (_ & H1 & H2 & H3 & _). split; [|split].
  - split; [intros H%(http_name_eq trusted); done|]. split; [intros H%(http_name_eq trusted); done|].
    intros ->. by apply forwarding_passes.
  - intros H%(http_name_eq trusted); done.
  - by unfold http_name.
Qed.

Lemma server_vars_shape req body ctx :
  Forall (fun kv => to_ascii_lowercase kv.1 = kv.1) (fields req) ->
  let base := base_vars to_str req body ctx in
  let client := client_ip_from to_str (fields req) (peer ctx) (ctx_trusted ctx) in
  let trusted := peer_is_trusted (peer ctx) (ctx_trusted ctx) in
  exists vs' (saw : bool),
    server_vars to_str req body ctx
    = (if saw then vs' ++ [(lit "HTTP_X_FORWARDED_FOR", ip_to_string client)] else vs')
    /\ (saw = true -> trusted = true) /\ NoDup vs'.*1
    /\ (forall k v, (k, v) ∈ vs' -> clean trusted k)
    /\ (forall k v, (k, v) ∈ vs' -> k = lit "HTTP_HOST" \/ k = lit "REMOTE_ADDR" -> (k, v) ∈ base).
Proof.
  intros Hl base client trusted. destruct (base_vars_keys req body ctx) as (names & En & Hn & Hhttp).
  assert (forall key, passes trusted key -> to_ascii_lowercase key = key -> http_name key ∉ base.*1) as Hfresh.
  { intros key Hp Hlow Hin. unfold base in Hin. rewrite En in Hin. apply Hhttp in Hin; [|apply http_name_prefix].
    by destruct (passed_clean trusted key Hp Hlow) as (_ & ? & _). }
  assert (vars_ok base trusted base) as Hok0 by (split; [by unfold base; rewrite En|done|by left]).
  pose proof (add_headers_ok _ trusted (fields req) _ false Hfresh Hl Hok0) as Hok.
  unfold server_vars. fold trusted client base.
  destruct (foldl _ _ _) as [vs' saw]. destruct Hok as [[Hnd Hbase Hnew] Hsaw]. exists vs', saw.
  split; [done|]. split; [intros Hs; by destruct (Hsaw Hs)|]. split; [done|]. split.
  - intros k v [Hin|(key & Hp & Hlow & ->)]%Hnew; [|by apply passed_clean].
    apply (base_clean trusted req body ctx). by apply (list_elem_of_fmap_2 fst _ (k, v)).
  - intros k v [Hin|(key & Hp & Hlow & ->)]%Hnew Hor; [done|].
    destruct (passed_clean trusted key Hp Hlow) as (_ & ? & ?). by destruct Hor.
Qed.

(** What is set first is said once. *)
Lemma base_value req body ctx k v v' :
  (k, v) ∈ base_vars to_str req body ctx -> (k, v') ∈ base_vars to_str req body ctx -> v = v'.
Proof. destruct (base_vars_keys req body ctx) as (names & En & Hn & _). apply NoDup_fst_inj. by rewrite En. Qed.

(** C11.  What PHP is told of the network is Askr's word.  Every variable is set once; the host
    and the client's address are the ones Askr resolved; no request header becomes
    [HTTP_PROXY]; [X-Forwarded-For] only ever carries the resolved client, and only behind a
    trusted proxy; and from an untrusted peer no forwarding header of any spelling gets in. *)
Theorem server_vars_trustworthy req body ctx :
  Forall (fun kv => to_ascii_lowercase kv.1 = kv.1) (fields req) ->
  let vs := server_vars to_str req body ctx in
  let client := client_ip_from to_str (fields req) (peer ctx) (ctx_trusted ctx) in
  let trusted := peer_is_trusted (peer ctx) (ctx_trusted ctx) in
  NoDup vs.*1
  /\ (forall v, (lit "HTTP_HOST", v) ∈ vs -> v = default (lit "localhost") (effective_host to_str req))
  /\ (forall v, (lit "REMOTE_ADDR", v) ∈ vs -> v = ip_to_string client)
  /\ ((lit "HTTP_PROXY") ∉ vs.*1)
  /\ (forall v, (lit "HTTP_X_FORWARDED_FOR", v) ∈ vs -> trusted = true /\ v = ip_to_string client)
  /\ (trusted = false -> forall k, k ∈ vs.*1 -> forwarding_name k = false).
Proof.
  intros Hl vs client trusted.
  destruct (server_vars_shape req body ctx Hl) as (vs' & saw & Evs & Hsaw & Hnd & Hclean & Hval).
  assert (forall k v, (k, v) ∈ vs -> (k, v) ∈ vs' \/ saw = true /\ k = lit "HTTP_X_FORWARDED_FOR" /\ v = ip_to_string client) as Hv.
  { intros k v. unfold vs. rewrite Evs. destruct saw; [|by left].
    intros [?|[= -> ->]%list_elem_of_singleton]%elem_of_app; [by left|by right]. }
  split; [|split; [|split; [|split; [|split]]]].
  - unfold vs. rewrite Evs. destruct saw; [|done]. rewrite fmap_app. apply NoDup_app. split; [done|].
    split; [|apply NoDup_singleton]. intros k Hin ->%list_elem_of_singleton.
    apply list_elem_of_fmap in Hin as ([k v] & Ek & Hin). apply Hclean in Hin as (_ & Hx & _). by destruct Hx.
  - intros v [Hin|(_ & ? & _)]%Hv; [|done].
    apply (base_value req body ctx (lit "HTTP_HOST")); [apply (Hval _ _ Hin); by left|]. unfold base_vars. do 14 right. left.
  - intros v [Hin|(_ & ? & _)]%Hv; [|done].
    apply (base_value req body ctx (lit "REMOTE_ADDR")); [apply (Hval _ _ Hin); by right|]. unfold base_vars. do 15 right. left.
  - intros ([k v] & Ek & Hin)%list_elem_of_fmap. cbn in Ek. subst k. apply Hv in Hin as [Hin|(_ & ? & _)]; [|done].
    by apply Hclean in Hin as (? & _).
  - intros v [Hin|(-> & _ & ->)]%Hv; [by apply Hclean in Hin as (_ & ? & _)|]. split; [by apply Hsaw|done].
  - intros Ht k ([k' v] & -> & Hin)%list_elem_of_fmap. apply Hv in Hin as [Hin|(Es & _)]; [by apply Hclean in Hin as (_ & _ & ?); auto|].
    apply Hsaw in Es. unfold trusted in Ht. congruence.
Qed.
End Spec.

(** A request through a trusted proxy, with a forged [Proxy:] header and an underscored copy of
    [X-Forwarded-For]. *)
Definition proxied : Request :=
  mkRequest (lit "GET") (lit "/") None None
    [(lit "host", lit "example.com"); (lit "x-forwarded-for", lit "203.0.113.7");
     (lit "proxy", lit "http://evil"); (lit "x_forwarded_for", lit "1.2.3.4")].
Definition behind_proxy : Context :=
  mkContext (lit "/srv") (lit "/srv/index.php") (lit "/index.php") (V4 [10; 0; 0; 2]) 40000
    false 80 [(V4 [10; 0; 0; 0], 8)] (lit "HTTP/1.1") 0 [].

Lemma server_vars_trustworthy_witness :
  Forall (fun kv => to_ascii_lowercase kv.1 = kv.1) (fields proxied)
  /\ (forall v, (lit "REMOTE_ADDR", v) ∈ server_vars Some proxied [] behind_proxy -> v = lit "203.0.113.7")
  /\ (lit "HTTP_PROXY") ∉ (server_vars Some proxied [] behind_proxy).*1.
Proof.
  assert (Forall (fun kv => to_ascii_lowercase kv.1 = kv.1) (fields proxied)) as H.
  { repeat constructor. }
  pose proof (server_vars_trustworthy Some proxied [] behind_proxy H) as (_ & _ & Ha & Hp & _).
  split; [exact H|]. split; [|exact Hp]. intros v Hv. rewrite (Ha v Hv). vm_compute. reflexivity.
Defined.
