(* ===== verification/CachePolicy.v ===== *)
(** What may be cached, under which key and for how long ([server/cache_policy.rs]): identity,
    the key, [Askr-Cache] directives and [[[cache.rule]]]s, [Vary], the two-level lookup, and
    the PURGE and BAN requests.  The storage is [RCache].

    A request reads the clock once here, as [now], in seconds. *)

From S2P Require Import Prelude Bytes Ns Glob RCache Http Compress Trust.

(** [struct CacheRule] ([config.rs]). *)
Record CacheRule := mkRule {
  rule_path : bytes;
  action : option bytes;
  rule_ttl : option Z;
  rule_swr : Z;
  rule_sie : Z;
  force : bool }.
Definition is_pass (r : CacheRule) : bool := bool_decide (action r = Some (lit "pass")).

(** The part of [server::Config] the cache reads. *)
Record Config := mkConfig {
  https : bool;
  cache_strip_query : list bytes;
  cache_ignore_cookies : list bytes;
  cache_vary_user_agent : bool;
  cache_saint_seconds : Z;
  cache_rules : list CacheRule;
  trusted_proxies : list Cidr }.

(** ** Saint mode: the failing backend, per process *)

Definition saint_mark (until now secs : Z) : Z := if 0 <? secs then wrap64 (now + secs) else until.
Definition saint_active (until now : Z) : bool := now <? until.

(** ** Names, cookies and queries *)

Definition name_matches (pat name : bytes) : bool :=
  match strip_suffix [STAR] pat with
  | Some prefix => (length prefix <=? length name)%nat
                   && eq_ignore_ascii_case (take (length prefix) name) prefix
  | None => eq_ignore_ascii_case name pat
  end.

(** [x.split(c).next().unwrap_or(..)]: [split] always yields. *)
Definition before (c : Z) (x : bytes) : bytes := default [] (head (split_on c x)).

Definition cookies_ignorable (header : bytes) (ignore : list bytes) : bool :=
  if bool_decide (ignore = []) then false
  else forallb (fun c => let name := trim (before 61 c) in
                         beq name [] || existsb (fun p => name_matches p name) ignore)
         (split_on 59 header).

Fixpoint no_repeat (l : list bytes) : bool :=
  match l with
  | x :: ((y :: _) as l') => negb (beq x y) && no_repeat l'
  | _ => true
  end.

Definition query_pairs (query : bytes) (strip : list bytes) : list bytes :=
  filter (fun p => existsb (fun s => name_matches s (before 61 p)) strip = false)
    (filter (fun p => p <> []) (split_on 38 query)).
Definition normalize_query (query : bytes) (strip : list bytes) : bytes :=
  let pairs := query_pairs query strip in
  let names := sort_bytes (before 61 <$> pairs) in
  join [38] (if no_repeat names then sort_bytes pairs else pairs).

Definition MOBILE : list bytes := [lit "Mobi"; lit "Android"; lit "iPhone"; lit "iPad"; lit "iPod"].
Definition ua_class (ua : bytes) : bytes :=
  if existsb (fun m => contains_sub m ua) MOBILE then lit "m" else lit "d".

(** ** Header lists of a PHP response: names as the application wrote them *)

Definition header_value (h : list header) (name : bytes) : option bytes :=
  snd <$> head (filter (fun kv => eq_ignore_ascii_case kv.1 name = true) h).

Definition dropped_headers : list bytes :=
  [lit "set-cookie"; lit "askr-cache"; lit "content-length"; lit "transfer-encoding";
   lit "content-encoding"; lit "vary"].
Definition storable_header (name : bytes) : bool := negb (existsb (eq_ignore_ascii_case name) dropped_headers).

Definition esi_requested (h : list header) : bool :=
  existsb (fun '(k, v) => eq_ignore_ascii_case k (lit "askr-esi")
                          && (eq_ignore_ascii_case (trim v) (lit "on") || beq (trim v) (lit "1"))) h.

(** ** Directives *)

Definition SEPS : list Z := [44; 59; 32].

Definition directive_secs (v name : bytes) : Z :=
  match find_sub name v with
  | None => 0
  | Some i => default 0 (parse_u64 (trim (default [] (head (split_any SEPS (drop (i + length name) v))))))
  end.

Definition find_map {A B} (f : A -> option B) (l : list A) : option B := head (omap f l).

Definition parse_cache_directive (v : bytes) : option (Z * Z * Z * list bytes) :=
  let '(hd, tagstr) := match find_sub (lit "tags=") v with
                       | Some i => (take i v, drop (i + 5) v)
                       | None => (v, [])
                       end in
  match find_map (fun t => parse_u64 (trim t)) (split_any SEPS hd) with
  | None => None
  | Some ttl =>
      Some (ttl, directive_secs v (lit "swr="),
            Z.max (directive_secs v (lit "stale-if-error=")) (directive_secs v (lit "sie=")),
            filter (fun s => s <> []) (trim <$> split_any SEPS tagstr))
  end.

Definition cache_rule_for (path : bytes) (rules : list CacheRule) : option CacheRule :=
  head (filter (fun r => glob_match (rule_path r) path = true) rules).

(** ** [Vary] *)

Definition VARY_INDEX_HEADER : bytes := lit "askr-vary-index".

Definition is_vary_index (c : Cached) : bool :=
  (c_status c =? 0) && bool_decide (is_Some (header_value (c_headers c) VARY_INDEX_HEADER)).

Definition vary_is_covered_by_key (vary : bytes) (vary_ua : bool) : bool :=
  forallb (fun t => eq_ignore_ascii_case t (lit "accept-encoding")
                    || vary_ua && eq_ignore_ascii_case t (lit "user-agent"))
    (filter (fun t => t <> []) (trim <$> split_on 44 vary)).

(** The names of a [Vary], canonical. *)
Definition vary_names (names : bytes) : list bytes :=
  dedup (sort_bytes (filter (fun s => s <> []) ((fun s => to_ascii_lowercase (trim s)) <$> split_on 44 names))).

Section Text.
(** [HeaderValue::to_str]. *)
Context (to_str : bytes -> option bytes).

Definition hget_str (h : headers) (name : bytes) : option bytes :=
  match hget h name with Some v => to_str v | None => None end.

Definition carries_identity (req : Request) (ignore : list bytes) : bool :=
  let h := fields req in
  contains_key h (lit "authorization") || contains_key h (lit "proxy-authorization")
  || existsb (fun v => negb (match to_str v with
                             | Some c => cookies_ignorable c ignore
                             | None => false
                             end)) (get_all h (lit "cookie")).

(** A request's values of one header, as one. *)
Definition joined_values (h : headers) (name : bytes) : bytes :=
  join (lit ", ") (omap to_str (get_all h name)).
Definition vary_suffix (names : bytes) (h : headers) : bytes :=
  concat ((fun name => name ++ [61] ++ joined_values h name ++ [SEP]) <$> vary_names names).

Definition secondary_key (primary names : bytes) (h : headers) : bytes :=
  primary ++ [0] ++ lit "vary" ++ [0] ++ vary_suffix names h.

Definition request_scheme (req : Request) (tls : bool) : bytes :=
  if tls || match hget_str (fields req) (lit "x-forwarded-proto") with
            | Some v => eq_ignore_ascii_case v (lit "https")
            | None => false
            end
  then lit "https" else lit "http".

(** ** The key *)

Definition key_enc (req : Request) : bytes :=
  match hget_str (fields req) (lit "accept-encoding") with
  | Some v => match negotiate v with Some e => enc_header e | None => lit "id" end
  | None => lit "id"
  end.
Definition key_device (req : Request) (cfg : Config) : bytes :=
  if cache_vary_user_agent cfg
  then match hget_str (fields req) (lit "user-agent") with Some ua => ua_class ua | None => lit "d" end
  else [].
Definition key_pq (req : Request) (cfg : Config) : bytes :=
  let query := normalize_query (default [] (query req)) (cache_strip_query cfg) in
  if bool_decide (query = []) then path req else path req ++ [QUESTION] ++ query.

Definition response_cache_key (req : Request) (host : bytes) (cfg : Config) : bytes :=
  join [0] [method req; to_ascii_lowercase host; key_pq req cfg; key_enc req; key_device req cfg;
            request_scheme req (https cfg)].
End Text.

(** ** Storing *)

Inductive Refusal := NotOk | NoDirective | VaryStar | AppCompressed | TooLarge.
Inductive StoreVerdict :=
| Stored (ttl swr stale_if_error : Z) (tags : nat) (by_rule : bool) (variant_on : option bytes)
    (dropped_set_cookie : bool)
| NotStored (why : Refusal).

(** [askr_php::Response]. *)
Record PhpResponse := mkPhp { p_status : Z; p_headers : list header; p_body : bytes }.

Section Store.
Context (to_str : bytes -> option bytes) (encode : Encoding -> bytes -> option bytes).
Context (hash_key : bytes -> Z).

(** Lifetimes and tags: the rule's, or the application's. *)
Definition store_policy (resp : PhpResponse) (rule : option CacheRule) : option (Z * Z * Z * list bytes) :=
  let app_dir := match header_value (p_headers resp) (lit "askr-cache") with
                 | Some v => parse_cache_directive v
                 | None => None
                 end in
  match rule with
  | Some r =>
      match rule_ttl r with
      | Some ttl => Some (ttl, rule_swr r, rule_sie r, match app_dir with Some (_, t) => t | None => [] end)
      | None => app_dir
      end
  | None => app_dir
  end.

Definition uncovered_vary (resp : PhpResponse) (vary_ua : bool) : option bytes :=
  match header_value (p_headers resp) (lit "vary") with
  | Some v => let v := trim v in
              if beq v [] || vary_is_covered_by_key v vary_ua then None else Some v
  | None => None
  end.

Definition app_compressed (resp : PhpResponse) : bool :=
  match header_value (p_headers resp) (lit "content-encoding") with
  | Some e => negb (beq (trim e) []) && negb (eq_ignore_ascii_case (trim e) (lit "identity"))
  | None => false
  end.

(** The headers and body as they are kept. *)
Definition stored_form (resp : PhpResponse) (accept_encoding : bytes) (vary_ua : bool)
    (app_vary : option bytes) : list header * bytes :=
  let stored := filter (fun kv => storable_header kv.1 = true) (p_headers resp) in
  let content_type := default [] (header_value (p_headers resp) (lit "content-type")) in
  let accept_encoding := if esi_requested (p_headers resp) then [] else accept_encoding in
  let '(stored, vary, body) :=
    match maybe encode (p_body resp) content_type accept_encoding with
    | Some (enc, compressed) =>
        (stored ++ [(lit "content-encoding", enc_header enc)], [lit "Accept-Encoding"], compressed)
    | None => (stored, [], p_body resp)
    end in
  let vary := vary ++ (if vary_ua then [lit "User-Agent"] else [])
    ++ match app_vary with
       | Some names => filter (fun n => n <> []) (trim <$> split_on 44 names)
       | None => []
       end in
  (stored ++ (if bool_decide (vary = []) then [] else [(lit "vary", join (lit ", ") vary)]), body).

Definition app_tag (a : App) (t : bytes) : bytes := as_str a ++ [SEP] ++ t.

Definition maybe_store (rc : option rcache) (key : bytes) (resp : PhpResponse) (accept_encoding : bytes)
    (vary_ua : bool) (rule : option CacheRule) (a : App) (h : headers) (now : Z)
    : StoreVerdict * option rcache :=
  if negb (p_status resp =? 200) then (NotStored NotOk, rc)
  else match store_policy resp rule with
  | None => (NotStored NoDirective, rc)
  | Some (ttl, swr, sie, tags) =>
      let by_rule := match rule with Some r => bool_decide (is_Some (rule_ttl r)) | None => false end in
      let app_vary := uncovered_vary resp vary_ua in
      if match app_vary with
         | Some v => existsb (fun t => beq (trim t) [STAR]) (split_on 44 v)
         | None => false
         end then (NotStored VaryStar, rc)
      else if app_compressed resp then (NotStored AppCompressed, rc)
      else
        let '(stored, body) := stored_form resp accept_encoding vary_ua app_vary in
        let ns_tags := app_tag a <$> tags in
        let '(ok, rc) :=
          match app_vary with
          | None => store hash_key rc key (p_status resp) stored body ttl swr sie ns_tags (Some a) now
          | Some names =>
              let '(_, rc) := store hash_key rc key 0 [(VARY_INDEX_HEADER, names)] [] ttl swr sie
                                ns_tags (Some a) now in
              store hash_key rc (secondary_key to_str key names h) (p_status resp) stored body ttl swr sie
                ns_tags (Some a) now
          end in
        if negb ok then (NotStored TooLarge, rc)
        else (Stored ttl swr sie (length tags) by_rule app_vary
                (bool_decide (is_Some (header_value (p_headers resp) (lit "set-cookie")))), rc)
  end.

(** ** The two-level lookup; [fetch] is [get], [peek] or [stale_on_error] *)

Definition resolve_cached (rc : option rcache) (primary : bytes) (h : headers)
    (fetch : option rcache -> bytes -> option Cached * option rcache)
    : option (Cached * bool) * option rcache :=
  let '(first, rc) := fetch rc primary in
  match first with
  | None => (None, rc)
  | Some first =>
      if negb (is_vary_index first) then (Some (first, false), rc)
      else match header_value (c_headers first) VARY_INDEX_HEADER with
           | None => (None, rc)
           | Some names =>
               let '(entry, rc) := fetch rc (secondary_key to_str primary names h) in
               match entry with
               | None => (None, rc)
               | Some entry => if is_vary_index entry then (None, rc) else (Some (entry, true), rc)
               end
           end
  end.

(** ** Serving *)

(** The HTTP library refuses some names and values; [status_ok] is [StatusCode::from_u16]. *)
Context (valid_header : bytes * bytes -> bool).
Definition status_ok (s : Z) : Z := if between 100 999 s then s else 200.
Definition build (status : Z) (h : headers) (body : bytes) : Response :=
  if forallb valid_header h
  then mkResponse (status_ok status) ((fun '(k, v) => (to_ascii_lowercase k, v)) <$> h) body
  else text 500 (lit "askr: bad response").

Definition cached_response (c : Cached) : Response :=
  let st := if c_error_only c then lit "STALE-ERROR" else if c_stale c then lit "STALE" else lit "HIT" in
  build (c_status c) (c_headers c ++ [(lit "X-Askr-Cache", st)]) (c_body c).

(** [HeaderMap::insert] replaces every field of the name. *)
Definition hinsert (h : headers) (name v : bytes) : headers :=
  filter (fun kv => kv.1 <> name) h ++ [(name, v)].

Definition stale_error_fallback (rc : option rcache) (key : bytes) (h : headers) (now : Z)
    : option Response * option rcache :=
  let '(o, rc) := resolve_cached rc key h (fun rc k => stale_on_error hash_key rc k now) in
  (match o with
   | Some (c, _) => let r := cached_response c in
                    Some (mkResponse (r_status r) (hinsert (r_headers r) (lit "x-askr-cache") (lit "STALE-ERROR")) (r_body r))
   | None => None
   end, rc).

(** ** PURGE and BAN *)

(** [Some] of the comparison when a token is configured. *)
Definition control_token_ok (token : option bytes) (req : Request) : option bool :=
  match token with
  | None | Some [] => None
  | Some token =>
      let given := match hget_str to_str (fields req) (lit "authorization") with
                   | Some v => default [] (strip_prefix (lit "Bearer ") v)
                   | None => []
                   end in
      if negb (length given =? length token)%nat then Some false
      else Some (foldl (fun d '(x, y) => Z.lor d (Z.lxor x y)) 0 (zip given token) =? 0)
  end.

Definition count_reply (what : bytes) (n : nat) : Response :=
  mkResponse 200 [(lit "content-type", lit "application/json")]
    ([123; 34] ++ what ++ [34; 58] ++ to_digits (Z.of_nat n) ++ [125]).

Definition looks_like_regex (p : bytes) : bool :=
  starts_with p (lit "^") || contains_sub (lit ".*") p || ends_with p (lit "$").

Definition invalidate_request (token : option bytes) (rc : option rcache) (req : Request) (host : bytes)
    (peer : IpAddr) (cfg : Config) : Response * option rcache :=
  let refused := match control_token_ok token req with
    | Some true => None
    | Some false => Some (text 403 (lit "askr: bad or missing bearer token"))
    | None =>
        if is_loopback peer && bool_decide (trusted_proxies cfg = []) then None
        else if is_loopback peer then
          Some (text 403 (lit "askr: trusted_proxies is set, so a loopback peer is the proxy and not                  necessarily a local operator — set ASKR_ADMIN_TOKEN to allow PURGE/BAN"))
        else Some (text 403 (lit "askr: set ASKR_ADMIN_TOKEN to allow PURGE/BAN from a non-loopback address"))
    end in
  match refused with
  | Some r => (r, rc)
  | None =>
      if negb (RCache.enabled rc) then (text 409 (lit "askr: response cache is disabled"), rc)
      else if beq host [] then (text 400 (lit "askr: PURGE/BAN needs a Host header"), rc)
      else if beq (method req) (lit "PURGE") then
        let '(n, rc) := purge_url rc host (path req) (query req) in (count_reply (lit "purged") n, rc)
      else
        match (match hget_str to_str (fields req) (lit "x-ban-url") with
               | Some v => if beq (trim v) [] then None else Some (trim v)
               | None => None
               end) with
        | None => (text 400 (lit "askr: BAN needs an X-Ban-Url header, e.g. X-Ban-Url: /category/tech/*"), rc)
        | Some pattern =>
            if looks_like_regex pattern then
              (text 400 (lit "askr: X-Ban-Url is a glob, not a regex — use /category/tech/* instead of ^/category/tech/.*"), rc)
            else let '(n, rc) := ban_glob rc host pattern in (count_reply (lit "banned") n, rc)
        end
  end.
End Store.
