(* ===== verification/CacheKey.v ===== *)
(** The cache key ([server/cache_policy.rs]): what a normalised query keeps, which requests share
    an entry, and which entries a PURGE reaches. *)

From stdpp Require Import sorting.
From S2P Require Import Prelude Bytes Ns Glob RCache RCacheUrl Http Compress Trust TrustSpec CachePolicy.

(** ** Queries *)

Lemma no_repeat_NoDup l : StronglySorted bytes_le l -> no_repeat l = true <-> NoDup l.
Proof.
  induction 1 as [|x l Hs IH Hf]; [by split; [constructor|]|].
  destruct l as [|y l]; [by split; [repeat constructor; set_solver|]|].
  change (no_repeat (x :: y :: l)) with (negb (beq x y) && no_repeat (y :: l)).
  rewrite andb_true_iff, IH, (NoDup_cons x), negb_true_iff. split; intros [H1 H2]; (split; [|done]).
  - assert (x <> y) as Hxy by (intros ->; by rewrite beq_refl in H1).
    apply Forall_cons in Hf as [Hxy' Hf]. apply StronglySorted_inv in Hs as [_ Hy].
    rewrite elem_of_cons. intros [?|Hx]; [done|]. rewrite Forall_forall in Hy.
    apply Hxy. by apply (anti_symm bytes_le); [|apply Hy].
  - destruct (beq x y) eqn:E; [|done]. apply beq_true in E as ->. exfalso. apply H1. left.
Qed.

Lemma no_repeat_sorted l : no_repeat (sort_bytes l) = true <-> NoDup l.
Proof. rewrite no_repeat_NoDup by apply sort_bytes_sorted. by rewrite sort_bytes_Permutation. Qed.

Lemma query_pairs_clean q strip p : p ∈ query_pairs q strip -> p <> [] /\ 38 ∉ p.
Proof.
  unfold query_pairs. rewrite !list_elem_of_filter. intros (_ & Hne & Hp).
  split; [done|]. by eapply split_on_pieces.
Qed.

(** Non-empty pieces without the separator can be read back from their join. *)
Lemma join_inj c ps qs :
  Forall (fun p => p <> [] /\ c ∉ p) ps -> Forall (fun p => p <> [] /\ c ∉ p) qs ->
  join [c] ps = join [c] qs -> ps = qs.
Proof.
  assert (forall ps, Forall (fun p => p <> [] /\ c ∉ p) ps ->
            filter (fun p => p <> []) (split_on c (join [c] ps)) = ps) as Hr.
  { clear. intros ps Hf. destruct ps as [|p ps]; [done|]. rewrite split_on_join.
    - apply filter_all. eapply Forall_impl; [done|]. by intros ? [? _].
    - done.
    - eapply Forall_impl; [done|]. by intros ? [_ ?]. }
  intros Hp Hq E. rewrite <- (Hr ps Hp), <- (Hr qs Hq). by rewrite E.
Qed.

Lemma query_pairs_Forall q strip : Forall (fun p => p <> [] /\ 38 ∉ p) (query_pairs q strip).
Proof. apply Forall_forall. intros p. apply query_pairs_clean. Qed.

(** Two queries have one normal form exactly when, stripped parameters aside, they carry
    the same parameters; in the same order too, where a name repeats. *)
Theorem normalize_query_canonical q1 q2 strip :
  normalize_query q1 strip = normalize_query q2 strip
  <-> query_pairs q1 strip ≡ₚ query_pairs q2 strip
      /\ (NoDup (before 61 <$> query_pairs q1 strip) \/ query_pairs q1 strip = query_pairs q2 strip).
Proof.
  unfold normalize_query. pose proof (query_pairs_Forall q1 strip) as H1.
  pose proof (query_pairs_Forall q2 strip) as H2.
  generalize dependent (query_pairs q1 strip). generalize dependent (query_pairs q2 strip).
  intros ps Hp qs Hq.
  assert (forall l : list bytes, Forall (fun p => p <> [] /\ 38 ∉ p) l ->
            Forall (fun p => p <> [] /\ 38 ∉ p) (sort_bytes l)) as Hsort.
  { intros l Hl. by rewrite sort_bytes_Permutation. }
  assert (forall l : list bytes, no_repeat (sort_bytes (before 61 <$> l)) = true
            <-> NoDup (before 61 <$> l)) as Hnr by (intros l; apply no_repeat_sorted).
  split.
  - intros E. apply join_inj in E; cycle 1; [by case_bool; auto..|].
    assert (qs ≡ₚ ps) as Hperm.
    { assert (forall (b : bool) (l : list bytes), (if b then sort_bytes l else l) ≡ₚ l) as Hif
        by (intros [] l; [apply sort_bytes_Permutation|done]).
      rewrite <- (Hif (no_repeat (sort_bytes (before 61 <$> qs))) qs), E. apply Hif. }
    split; [done|].
    destruct (no_repeat (sort_bytes (before 61 <$> qs))) eqn:E1; [left; by apply Hnr|right].
    replace (no_repeat (sort_bytes (before 61 <$> ps))) with false in E; [done|].
    symmetry. apply not_true_iff_false. rewrite Hnr. intros Hnd.
    apply not_true_iff_false in E1. apply E1, Hnr. by rewrite Hperm.
  - intros [Hperm [Hnd| ->]]; [|done].
    assert (NoDup (before 61 <$> ps)) as Hnd' by (by rewrite <- Hperm).
    apply Hnr in Hnd, Hnd'. rewrite Hnd, Hnd'. by rewrite (sort_bytes_canonical qs ps).
Qed.

(** ** What a request's key is made of *)

(** A request whose method, host, path and query hold no NUL, and whose path no [?]: what a URI
    parser accepts. *)
Record clean (req : Request) (host : bytes) : Prop := {
  clean_method : 0 ∉ method req;
  clean_host : 0 ∉ host;
  clean_path : (0 ∉ path req) /\ (QUESTION ∉ path req);
  clean_query : 0 ∉ (default [] (query req)) }.

Lemma elem_of_join x sep ps : x ∈ join sep ps -> x ∈ sep \/ exists p, p ∈ ps /\ x ∈ p.
Proof.
  induction ps as [|p ps IH]; [by intros ?%elem_of_nil|]. destruct ps as [|q ps].
  - intros H. right. exists p. split; [left|done].
  - rewrite join_cons, !elem_of_app. intros [H|[H|H]]; [right; exists p; split; [left|done]|by left|].
    destruct (IH H) as [?|(p' & ? & ?)]; [by left|right]. exists p'. split; [by right|done].
Qed.

Lemma elem_of_split_on x c b p : p ∈ split_on c b -> x ∈ p -> x ∈ b.
Proof.
  revert p. induction b as [|y b IH]; intros p; cbn [split_on].
  - intros ->%list_elem_of_singleton. done.
  - destruct (Z.eqb_spec y c).
    + intros [->|Hp]%elem_of_cons Hx; [by apply elem_of_nil in Hx|right; by eapply IH].
    + destruct (split_on c b) as [|q qs] eqn:E; [by destruct (split_on_nonempty c b)|].
      intros [->|Hp]%elem_of_cons Hx.
      * apply elem_of_cons in Hx as [->|Hx]; [left|right]. apply (IH q); [left|done].
      * right. apply (IH p); [by right|done].
Qed.

Lemma normalize_query_bytes x q strip : x ∈ normalize_query q strip -> x = 38 \/ x ∈ q.
Proof.
  unfold normalize_query. intros [H|(p & Hp & Hx)]%elem_of_join.
  - left. by apply list_elem_of_singleton in H.
  - right. assert (p ∈ query_pairs q strip) as Hq.
    { destruct (no_repeat _); [|done]. by rewrite sort_bytes_Permutation in Hp. }
    unfold query_pairs in Hq. rewrite !list_elem_of_filter in Hq. destruct Hq as (_ & _ & Hq).
    by eapply elem_of_split_on.
Qed.

Lemma elem_of_to_lower x b : x ∈ to_ascii_lowercase b -> x < 65 -> x ∈ b.
Proof.
  unfold to_ascii_lowercase. intros (y & -> & Hy)%list_elem_of_fmap Hx.
  unfold to_lower, is_ascii_uppercase, between in *. destruct (_ && _) eqn:E; [zbool; lia|done].
Qed.

Section Key.
Context (to_str : bytes -> option bytes).
Implicit Types (req : Request) (host : bytes) (cfg : Config).
Abbreviation rkey := (response_cache_key to_str).

Definition variants req cfg : bytes :=
  join [0] [key_enc to_str req; key_device to_str req cfg; request_scheme to_str req (https cfg)].

Lemma response_cache_key_url req host cfg :
  rkey req host cfg = url_key (method req) (to_ascii_lowercase host) (key_pq req cfg) (variants req cfg).
Proof. done. Qed.

Lemma secondary_key_url req host cfg names h :
  secondary_key to_str (rkey req host cfg) names h
  = url_key (method req) (to_ascii_lowercase host) (key_pq req cfg)
      (variants req cfg ++ [0] ++ lit "vary" ++ [0] ++ vary_suffix to_str names h).
Proof.
  unfold secondary_key. rewrite response_cache_key_url. unfold url_key.
  by repeat first [rewrite <- app_assoc | progress (cbn [Datatypes.app])].
Qed.

Lemma key_pq_bytes req host cfg : clean req host -> 0 ∉ key_pq req cfg.
Proof.
  intros [_ _ [Hp _] Hq]. unfold key_pq. case_bool_decide; [done|].
  rewrite !elem_of_app. intros [H0|[H0|H0]]; [done|by apply list_elem_of_singleton in H0|].
  by apply normalize_query_bytes in H0 as [?|?].
Qed.

Lemma variants_pieces req cfg :
  Forall (fun p => 0 ∉ p) [key_enc to_str req; key_device to_str req cfg; request_scheme to_str req (https cfg)].
Proof.
  assert (forall b : bytes, forallb (fun x => 0 <? x) b = true -> 0 ∉ b) as Hb.
  { intros b Hb Hin. apply forallb_Forall in Hb. rewrite Forall_forall in Hb. by specialize (Hb 0 Hin). }
  repeat constructor; apply Hb.
  - unfold key_enc. destruct (hget_str _ _ _) as [v|]; [|done]. by destruct (negotiate v) as [[]|].
  - unfold key_device. destruct (cache_vary_user_agent cfg); [|done].
    destruct (hget_str _ _ _) as [v|]; [|done]. unfold ua_class. by destruct (existsb _ _).
  - unfold request_scheme. by destruct (_ || _).
Qed.

Lemma clean_key_pieces req host cfg :
  clean req host ->
  Forall (fun p => 0 ∉ p) [method req; to_ascii_lowercase host; key_pq req cfg; key_enc to_str req;
                           key_device to_str req cfg; request_scheme to_str req (https cfg)].
Proof.
  intros Hc. destruct (Hc) as [? Hh ? ?]. constructor; [done|]. constructor.
  { intros H0%elem_of_to_lower; [done|lia]. }
  constructor; [by eapply key_pq_bytes|apply variants_pieces].
Qed.

Lemma app_question_inj (p1 p2 q1 q2 : bytes) :
  QUESTION ∉ p1 -> QUESTION ∉ p2 -> p1 ++ QUESTION :: q1 = p2 ++ QUESTION :: q2 -> p1 = p2 /\ q1 = q2.
Proof.
  revert p2. induction p1 as [|x p1 IH]; intros [|y p2] H1 H2 E; cbn in E.
  - by injection E.
  - injection E as <- _. by destruct (H2 ltac:(left)).
  - injection E as -> _. by destruct (H1 ltac:(left)).
  - injection E as -> E. apply not_elem_of_cons in H1 as [_ H1], H2 as [_ H2].
    destruct (IH p2 H1 H2 E) as [-> ->]. done.
Qed.

Lemma key_pq_eq req1 host1 req2 host2 cfg :
  clean req1 host1 -> clean req2 host2 ->
  key_pq req1 cfg = key_pq req2 cfg
  <-> path req1 = path req2
      /\ normalize_query (default [] (query req1)) (cache_strip_query cfg)
        = normalize_query (default [] (query req2)) (cache_strip_query cfg).
Proof.
  intros [_ _ [_ H1] _] [_ _ [_ H2] _]. unfold key_pq.
  assert (forall (p q r : bytes), QUESTION ∉ p -> p <> q ++ [QUESTION] ++ r) as Hno.
  { intros p q r Hp ->. apply Hp. rewrite elem_of_app. right. left. }
  repeat case_bool_decide.
  - split; [intros ->; by split; [|congruence]|by intros [? _]].
  - split; [by intros E%Hno|]. intros [_ E]. congruence.
  - split; [by intros E%symmetry%Hno|]. intros [_ E]. congruence.
  - split; [by intros [-> ->]%app_question_inj|]. by intros [-> ->].
Qed.

(** Two requests share a cache entry exactly when they have the same method, host (in any
    case), path, parameters (as [normalize_query_canonical] says), negotiated encoding, device
    class and scheme. *)
Theorem same_entry req1 host1 req2 host2 cfg :
  clean req1 host1 -> clean req2 host2 ->
  rkey req1 host1 cfg = rkey req2 host2 cfg
  <-> method req1 = method req2 /\ eq_ignore_ascii_case host1 host2 = true
      /\ path req1 = path req2
      /\ normalize_query (default [] (query req1)) (cache_strip_query cfg)
        = normalize_query (default [] (query req2)) (cache_strip_query cfg)
      /\ key_enc to_str req1 = key_enc to_str req2
      /\ key_device to_str req1 cfg = key_device to_str req2 cfg
      /\ request_scheme to_str req1 (https cfg) = request_scheme to_str req2 (https cfg).
Proof.
  intros H1 H2. rewrite eq_ignore_iff. split.
  - intros E. apply (f_equal (split_on 0)) in E. unfold response_cache_key in E.
    rewrite !split_on_join in E by (done || by apply clean_key_pieces).
    injection E as -> Eh Epq Ee Ed Es. apply (key_pq_eq req1 host1 req2 host2) in Epq as [? ?]; [|done..].
    by repeat split.
  - intros (Em & Eh & Ep & Eq & Ee & Ed & Es). unfold response_cache_key.
    rewrite Em, Eh, Ee, Ed, Es. do 2 f_equal.
    by rewrite (proj2 (key_pq_eq req1 host1 req2 host2 cfg H1 H2) (conj Ep Eq)).
Qed.

(** ** PURGE *)

(** A PURGE reaches every stored form of a page: of its entry and of each [Vary] variant, in
    every encoding, device class and scheme, it says the same, and that is "the same host and,
    for a bare path, the path; for a path with a query, the query as the key spells it". *)
Theorem purge_reaches req host cfg names h khost kpath q :
  clean req host -> QUESTION ∉ kpath ->
  Forall (fun key =>
      purge_wants khost kpath q key = true
      <-> (method req = lit "GET" \/ method req = lit "HEAD") /\ eq_ignore_ascii_case khost host = true
          /\ match q with
             | None => kpath = path req
             | Some q => kpath ++ [QUESTION] ++ q = key_pq req cfg
             end)
    [rkey req host cfg; secondary_key to_str (rkey req host cfg) names h].
Proof.
  intros Hc Hk. assert (0 ∉ to_ascii_lowercase host) as H0.
  { destruct Hc. intros H0%elem_of_to_lower; [done|lia]. }
  destruct (Hc) as [Hm Hh [Hp Hq] _].
  assert (forall var, purge_wants khost kpath q (url_key (method req) (to_ascii_lowercase host) (key_pq req cfg) var) = true
      <-> (method req = lit "GET" \/ method req = lit "HEAD") /\ eq_ignore_ascii_case khost host = true
          /\ match q with
             | None => kpath = path req
             | Some q => kpath ++ [QUESTION] ++ q = key_pq req cfg
             end) as Hall.
  { intros var. rewrite purge_wants_iff; [|done|done|by eapply key_pq_bytes].
    unfold purged. rewrite eq_ignore_iff.
    assert (to_ascii_lowercase (to_ascii_lowercase host) = to_ascii_lowercase host) as ->.
    { unfold to_ascii_lowercase. rewrite <- list_fmap_compose. apply list_fmap_ext. intros. apply to_lower_idemp. }
    assert (match q with
            | Some q => key_pq req cfg = kpath ++ QUESTION :: q
            | None => key_pq req cfg = kpath \/ exists q, key_pq req cfg = kpath ++ QUESTION :: q
            end <-> match q with
             | None => kpath = path req
             | Some q => kpath ++ [QUESTION] ++ q = key_pq req cfg
             end) as ->; [|by split; intros (? & ? & ?)].
    destruct q as [q|]; [by split|]. unfold key_pq. case_bool_decide.
    - split; [|by left]. intros [?|[r E]]; [done|]. exfalso. apply Hq. rewrite E, elem_of_app. right. left.
    - split; [|intros ->; right; by eexists]. intros [E|[r E]].
      + exfalso. apply Hk. rewrite <- E, !elem_of_app. right. left. left.
      + by apply app_question_inj in E as [? _]. }
  constructor; [rewrite response_cache_key_url; apply Hall|].
  constructor; [rewrite secondary_key_url; apply Hall|constructor].
Qed.
End Key.

(** ** Concrete requests *)

Definition plain_config : Config := mkConfig false [lit "utm_*"] [lit "_ga*"] false 0 [] [].
Definition get_req (p : bytes) (q : option bytes) (h : headers) : Request := mkRequest (lit "GET") p q None h.

Lemma list_clean : clean (get_req (lit "/l") (Some (lit "b=2&a=1")) []) (lit "x.test").
Proof. split; [not_in|not_in|split; not_in|not_in]. Qed.
Lemma list_clean' : clean (get_req (lit "/l") (Some (lit "a=1&utm_id=9&b=2")) []) (lit "X.test").
Proof. split; [not_in|not_in|split; not_in|not_in]. Qed.

Lemma same_entry_witness :
  response_cache_key ascii_to_str (get_req (lit "/l") (Some (lit "b=2&a=1")) []) (lit "x.test") plain_config
  = response_cache_key ascii_to_str (get_req (lit "/l") (Some (lit "a=1&utm_id=9&b=2")) []) (lit "X.test") plain_config.
Proof.
  apply (same_entry ascii_to_str _ _ _ _ plain_config list_clean list_clean').
  repeat split; vm_compute; reflexivity.
Defined.

Lemma purge_reaches_witness :
  purge_wants (lit "X.TEST") (lit "/l") None
    (secondary_key ascii_to_str
       (response_cache_key ascii_to_str (get_req (lit "/l") (Some (lit "b=2&a=1")) []) (lit "x.test") plain_config)
       (lit "Accept-Language") []) = true.
Proof.
  assert (QUESTION ∉ lit "/l") as Hk by not_in.
  pose proof (purge_reaches ascii_to_str _ _ plain_config (lit "Accept-Language") [] (lit "X.TEST") (lit "/l") None
    list_clean Hk) as H.
  apply Forall_cons in H as [_ H]. apply Forall_cons in H as [H _]. apply H.
  split; [by left|]. split; vm_compute; reflexivity.
Defined.

(** "With a query string it purges that exact URL": the key holds the normalised query and the
    PURGE does not, so a page asked for and purged under one URL stays. *)
Theorem purge_misses_unsorted_query :
  let req := get_req (lit "/l") (Some (lit "b=2&a=1")) [] in
  let key := response_cache_key ascii_to_str req (lit "x.test") plain_config in
  let st := store (foldr Z.add 0) (RCache.init None 16 true) key 200 [] (lit "page") 60 0 0 [] None 1000 in
  let purge := purge_url st.2 (lit "x.test") (path req) (query req) in
  st.1 = true /\ purge.1 = 0%nat
  /\ c_body <$> (get (foldr Z.add 0) purge.2 key 1000).1 = Some (lit "page").
Proof. split; [|split]; vm_compute; reflexivity. Qed.

(** [%61] is [a]. *)
Fixpoint percent_decode (b : bytes) : bytes :=
  match b with
  | 37 :: ((h :: l :: b') as r) =>
      match digit_of 16 h, digit_of 16 l with
      | Some x, Some y => (x * 16 + y) :: percent_decode b'
      | _, _ => 37 :: percent_decode r
      end
  | x :: b' => x :: percent_decode b'
  | [] => []
  end.

(** "Sorting is skipped when a name repeats": not when the repetition is percent-encoded, and then
    two requests whose last value of the name differs share one entry. *)
Theorem encoded_repeat_collides :
  normalize_query (lit "a=1&%61=2") [] = normalize_query (lit "%61=2&a=1") []
  /\ percent_decode (lit "%61=2") = lit "a=2".
Proof. split; vm_compute; reflexivity. Qed.
