(* ===== verification/CacheStore.v ===== *)
(** Storing by policy and looking up in two steps ([maybe_store], [resolve_cached]): what is kept
    of a response, and that each [Vary] variant only ever answers requests that carry its values. *)

From S2P Require Import Prelude Bytes Ns Probe RCache RCacheLemmas RCacheSpec RCacheUrl Http Compress CachePolicy TrustSpec.

(** ** Variants by the values they were rendered for *)

Section Suffix.
Context (to_str : bytes -> option bytes).
Context (to_str_text : forall v s, to_str v = Some s -> SEP ∉ s).

Lemma join_no_sep ps sep : SEP ∉ sep -> Forall (fun p => SEP ∉ p) ps -> SEP ∉ join sep ps.
Proof.
  intros Hs Hf. induction Hf as [|p ps Hp Hf IH]; [apply not_elem_of_nil|].
  destruct ps as [|q ps]; [done|]. rewrite join_cons, !not_elem_of_app. done.
Qed.

Lemma joined_values_text h name : SEP ∉ joined_values to_str h name.
Proof.
  apply join_no_sep; [intros H; by apply (bool_decide_pack _) in H|].
  apply Forall_forall. intros s (v & _ & Hv)%list_elem_of_omap. by eapply to_str_text.
Qed.

Lemma app_sep_inj (a1 a2 b1 b2 : bytes) :
  SEP ∉ a1 -> SEP ∉ a2 -> a1 ++ SEP :: b1 = a2 ++ SEP :: b2 -> a1 = a2 /\ b1 = b2.
Proof.
  revert a2. induction a1 as [|x a1 IH]; intros [|y a2] H1 H2 E; cbn in E.
  - by injection E.
  - injection E as <- _. by destruct (H2 ltac:(left)).
  - injection E as -> _. by destruct (H1 ltac:(left)).
  - injection E as -> E. apply not_elem_of_cons in H1 as [_ H1], H2 as [_ H2].
    destruct (IH a2 H1 H2 E) as [-> ->]. done.
Qed.

(** Two requests select the same variant exactly when they agree on every named header. *)
Lemma vary_suffix_iff names h1 h2 :
  vary_suffix to_str names h1 = vary_suffix to_str names h2
  <-> forall n, n ∈ vary_names names -> joined_values to_str h1 n = joined_values to_str h2 n.
Proof.
  unfold vary_suffix. induction (vary_names names) as [|n ns IH].
  { split; [by intros _ ? ?%elem_of_nil|done]. }
  cbn [fmap list_fmap concat]. split.
  - intros E. rewrite <- !app_assoc in E. apply app_inv_head in E.
    apply app_inv_head in E. cbn [Datatypes.app] in E.
    apply app_sep_inj in E as [Ev E]; [|apply joined_values_text..].
    intros m [->|Hm]%elem_of_cons; [done|]. by apply IH.
  - intros H. rewrite (H n) by left. f_equal. apply IH. intros m Hm. apply H. by right.
Qed.
End Suffix.

(** ** What is kept of a response *)

Section Policy.
Context (to_str : bytes -> option bytes) (to_str_text : forall v s, to_str v = Some s -> SEP ∉ s).
Context (encode : Encoding -> bytes -> option bytes).
Context (hash_key : bytes -> Z) (hash_u64 : forall b, is_u64 (hash_key b)).
Implicit Types (r : rcache) (key : bytes) (resp : PhpResponse).
Abbreviation hashed := (hash_bytes hash_key).
Abbreviation fetch now := (fun rc k => get hash_key rc k now).

(** [maybe_store], once the decision to store is taken. *)
Definition store_both r key resp sb (ttl swr sie : Z) tags a h now (app_vary : option bytes)
    : bool * option rcache :=
  match app_vary with
  | None => store hash_key (Some r) key (p_status resp) sb.1 sb.2 ttl swr sie tags (Some a) now
  | Some names =>
      let rc := (store hash_key (Some r) key 0 [(VARY_INDEX_HEADER, names)] [] ttl swr sie tags (Some a) now).2 in
      store hash_key rc (secondary_key to_str key names h) (p_status resp) sb.1 sb.2 ttl swr sie tags (Some a) now
  end.

Lemma maybe_store_Stored rc key resp ae vary_ua rule a h now ttl swr sie n b app_vary d rc' :
  maybe_store to_str encode hash_key rc key resp ae vary_ua rule a h now
  = (Stored ttl swr sie n b app_vary d, rc') ->
  exists r tags, rc = Some r /\ p_status resp = 200 /\ store_policy resp rule = Some (ttl, swr, sie, tags)
    /\ app_vary = uncovered_vary resp vary_ua
    /\ store_both r key resp (stored_form encode resp ae vary_ua app_vary) ttl swr sie (app_tag a <$> tags) a h now app_vary
       = (true, rc').
Proof.
  unfold maybe_store. destruct (Z.eqb_spec (p_status resp) 200) as [E200|]; [|done]. cbn [negb].
  destruct (store_policy resp rule) as [[[[t s] si] tags]|]; [|done].
  destruct (match uncovered_vary resp vary_ua with Some v => _ | None => false end); [done|].
  destruct (app_compressed resp); [done|].
  destruct (stored_form encode resp ae vary_ua (uncovered_vary resp vary_ua)) as [st bd] eqn:Ef.
  destruct rc as [r|].
  2:{ destruct (uncovered_vary resp vary_ua); cbn; done. }
  intros E. exists r, tags. split; [done|]. split; [done|].
  destruct (uncovered_vary resp vary_ua) as [names|] eqn:Eu.
  - destruct (store hash_key (Some r) key 0 _ _ _ _ _ _ _ _) as [ok1 rc1] eqn:E1.
    destruct (store hash_key rc1 _ _ _ _ _ _ _ _ _ _) as [ok rc2] eqn:E2.
    destruct ok; cbn [negb] in E; [|done]. injection E as <- <- <- <- <- <- <- <-.
    split; [done|]. split; [done|]. cbn [store_both]. by rewrite E1, Ef.
  - destruct (store hash_key (Some r) key _ _ _ _ _ _ _ _ _) as [ok rc2] eqn:E2.
    destruct ok; cbn [negb] in E; [|done]. injection E as <- <- <- <- <- <- <- <-.
    split; [done|]. split; [done|]. cbn [store_both]. by rewrite Ef.
Qed.

(** Nobody's cookie is kept, and neither is the application's own framing or encoding. *)
Lemma filter_none {A} (P Q : A -> Prop) `{!forall x, Decision (P x)} `{!forall x, Decision (Q x)} l :
  (forall x, P x -> ~ Q x) -> filter Q (filter P l) = [].
Proof.
  intros Hex. induction l as [|x l IH]; [done|].
  destruct (decide (P x)); [|by rewrite filter_cons_False].
  rewrite filter_cons_True by done. by rewrite filter_cons_False by auto.
Qed.

Lemma header_value_app h1 h2 name :
  header_value (h1 ++ h2) name = match header_value h1 name with Some v => Some v | None => header_value h2 name end.
Proof.
  induction h1 as [|kv h1 IH]; [done|]. unfold header_value in *. cbn [Datatypes.app].
  destruct (decide (eq_ignore_ascii_case kv.1 name = true)).
  - by rewrite !filter_cons_True by done.
  - by rewrite !filter_cons_False by done.
Qed.

Lemma no_cookie_kept resp ae vary_ua app_vary :
  header_value (stored_form encode resp ae vary_ua app_vary).1 (lit "set-cookie") = None.
Proof.
  assert (header_value (filter (fun kv => storable_header kv.1 = true) (p_headers resp)) (lit "set-cookie") = None) as H.
  { unfold header_value. rewrite filter_none; [done|]. intros [k v] Hs He. cbn [fst] in *.
    unfold storable_header, dropped_headers in Hs. cbn [existsb] in Hs. by rewrite He in Hs. }
  unfold stored_form. destruct (maybe _ _ _ _) as [[enc c]|]; cbn [fst];
    rewrite !header_value_app, H; [destruct enc|]; by case_bool_decide.
Qed.

(** ** One fetch *)

Lemma fetch_fresh r key now c :
  view hash_key r key now = Some c -> c_error_only c = false ->
  exists r', get hash_key (Some r) key now = (Some c, Some r')
    /\ forall k t, view hash_key r' k t = view hash_key r k t.
Proof.
  intros Hv He. unfold get. rewrite peek_spec. rewrite view_spec in Hv.
  destruct (RCacheLemmas.lookup _ _) as [i|]; [|done]. destruct (dead _ _ _); [done|]. injection Hv as ->.
  rewrite He. eexists. split; [reflexivity|]. intros k t. by rewrite !view_spec.
Qed.

Lemma fetch_answer r key now :
  (get hash_key (Some r) key now).1
  = match view hash_key r key now with Some c => if c_error_only c then None else Some c | None => None end.
Proof. apply rget_spec. Qed.

Lemma fetch_none r key now :
  view hash_key r key now = None -> (get hash_key (Some r) key now).1 = None.
Proof. intros H. by rewrite fetch_answer, H. Qed.

(** The index entry reads back as one. *)
Lemma index_headers names :
  13 ∉ names -> trim names = names ->
  parse_hdr_blob (hdr_blob [(VARY_INDEX_HEADER, names)]) = [(VARY_INDEX_HEADER, names)].
Proof.
  intros Hr Ht. unfold parse_hdr_blob, hdr_blob. cbn [fmap list_fmap concat].
  rewrite app_nil_r.
  replace (VARY_INDEX_HEADER ++ lit ": " ++ names ++ CRLF)
    with ((VARY_INDEX_HEADER ++ 58 :: 32 :: names) ++ CRLF ++ []) by (rewrite <- !(assoc_L (++)); by rewrite app_nil_r).
  rewrite split_crlf_app.
  2:{ rewrite elem_of_app. intros [H|H]; [by apply (bool_decide_pack _) in H|].
      by do 2 (apply elem_of_cons in H as [?|H]; [done|]). }
  rewrite filter_cons_True by done. cbn [omap list_omap].
  rewrite split_once_app by (intros H; by apply (bool_decide_pack _) in H).
  cbn [fmap option_fmap option_map]. rewrite trim_space, Ht. done.
Qed.

Lemma uncovered_vary_trim resp vary_ua names : uncovered_vary resp vary_ua = Some names -> trim names = names.
Proof.
  unfold uncovered_vary. destruct (header_value _ _) as [v|]; [|done].
  case_bool; [done|]. intros [= <-]. apply trim_idemp.
Qed.

(** ** The two steps together *)

Lemma store_view_other r key status headers b ttl swr sie tags a now ok r' key' :
  rwf (entries r) ->
  store hash_key (Some r) key status headers b ttl swr sie tags a now = (ok, Some r') ->
  hashed key' <> hashed key ->
  rwf (entries r')
  /\ ((forall t, view hash_key r' key' t = view hash_key r key' t)
      \/ (forall t, view hash_key r' key' t = None)).
Proof.
  intros Hw Hst Hne. pose proof (hashed_u64 hash_key hash_u64 key) as Hh.
  destruct (store_cases hash_key _ _ _ _ _ _ _ _ _ _ _ _ _ Hst)
    as [(_ & _ & Htt & x & y & z & _ & Ee)|(_ & _ & Ee & Htt)].
  2:{ split; [by rewrite Ee|]. left. intros t. rewrite !view_spec, Ee.
      destruct (RCacheLemmas.lookup _ _); [|done]. unfold dead, tag_invalid. by rewrite Htt. }
  assert (rwf (entries r')) as Hw' by (rewrite Ee; by apply store_rwf). split; [done|].
  assert (store_slot (entries r) (hashed key) < length (entries r))%nat as Hlt
    by (eapply rwin_elem; [by apply rwf_size|by apply store_slot_elem]).
  destruct (decide (RCacheLemmas.lookup (entries r) (hashed key') = Some (store_slot (entries r) (hashed key)))) as [Hs|Hs].
  - right. intros t. rewrite view_spec.
    destruct (RCacheLemmas.lookup (entries r') (hashed key')) as [k|] eqn:Ek; [|done]. exfalso.
    apply lookup_iff in Ek; [|done]. rewrite Ee, lookup_total_insert_dec in Ek by done.
    case_decide as E; [by apply rholds_true in Ek as [_ ?]|].
    apply lookup_iff in Ek; [|done]. congruence.
  - left. intros t. rewrite !view_spec, Ee. rewrite store_lookup_ne by done.
    destruct (RCacheLemmas.lookup (entries r) (hashed key')) as [k|] eqn:Ek; [|done].
    rewrite list_lookup_total_insert_ne by congruence. unfold dead, tag_invalid. by rewrite Htt.
Qed.

(** No two keys of a list share a hash: a slot knows its key by the hash alone. *)
Definition no_collision (ks : list bytes) : Prop :=
  forall k1 k2, k1 ∈ ks -> k2 ∈ ks -> hashed k1 = hashed k2 -> k1 = k2.

Lemma no_collision_check ks :
  forallb (fun k1 => forallb (fun k2 => negb (hashed k1 =? hashed k2) || beq k1 k2) ks) ks = true ->
  no_collision ks.
Proof.
  intros H k1 k2 H1 H2 E. apply forallb_Forall in H. rewrite Forall_forall in H. specialize (H k1 H1). cbn beta in H.
  apply forallb_Forall in H. rewrite Forall_forall in H. specialize (H k2 H2). cbn beta in H.
  rewrite E, Z.eqb_refl in H. by apply beq_true.
Qed.

Lemma secondary_ne key names h : secondary_key to_str key names h <> key.
Proof.
  intros E. apply (f_equal length) in E. unfold secondary_key in E.
  rewrite !length_app in E. cbn [length] in E. lia.
Qed.

Lemma with_rc_Some {A} (x : A) r f : exists a r1, with_rc x (Some r) f = (a, Some r1).
Proof. cbn. destruct (f r) as [a r1]. by exists a, r1. Qed.

(** The index, once stored, and everything else. *)
Lemma store_index_view r key names ttl swr sie tags a now now2 :
  rwf (entries r) -> 0 <= now -> 0 <= ttl -> 0 <= swr -> 0 <= sie -> now + ttl + swr < W64 -> now + ttl + sie < W64 ->
  phase ttl swr sie now now2 = Some (false, false) ->
  13 ∉ names -> trim names = names -> Z.of_nat (length names) <= 8000 -> (length tags <= MAX_TAGS)%nat ->
  exists r1, store hash_key (Some r) key 0 [(VARY_INDEX_HEADER, names)] [] ttl swr sie tags a now = (true, Some r1)
    /\ rwf (entries r1)
    /\ view hash_key r1 key now2 = Some (mkCached 0 [(VARY_INDEX_HEADER, names)] [] false false)
    /\ forall k, hashed k <> hashed key ->
         (forall t, view hash_key r1 k t = view hash_key r k t) \/ (forall t, view hash_key r1 k t = None).
Proof.
  intros Hw H0 Ht Hs He B1 B2 Hph Hcr Htrim Hlen Htags.
  destruct (store hash_key (Some r) key 0 [(VARY_INDEX_HEADER, names)] [] ttl swr sie tags a now) as [ok rc] eqn:E.
  assert (exists r1, rc = Some r1) as [r1 ->].
  {    unfold store in E. match type of E with with_rc _ _ ?f = _ => destruct (with_rc_Some false r f) as (? & r1 & E') end.
    rewrite E' in E. injection E as _ <-. by exists r1. }
  destruct (store_cases hash_key _ _ _ _ _ _ _ _ _ _ _ _ _ E) as [(-> & _ & _ & x & y & z & _ & Ee)|(_ & Hn & _)].
  2:{ exfalso. apply Hn. split; [|split; [unfold BODY_MAX; cbn [length]; lia|done]].
      unfold hdr_blob. cbn [fmap list_fmap concat]. rewrite !length_app.
      change (length VARY_INDEX_HEADER) with 15%nat. change (length (lit ": ")) with 2%nat.
      unfold HDR_MAX. cbn [length CRLF]. lia. }
  exists r1. split; [done|]. split.
  { rewrite Ee. by apply store_rwf; [|apply hashed_u64| |]. }
  split.
  - rewrite (store_view hash_key hash_u64 r key _ _ _ _ _ _ _ _ _ _ now2 (rwf_size _ Hw) H0 Ht Hs He B1 B2 E), Hph.
    cbn [fmap option_fmap option_map]. by rewrite index_headers.
  - intros k Hk. by destruct (store_view_other _ _ _ _ _ _ _ _ _ _ _ _ _ k Hw E Hk).
Qed.

(** The lookup behind an index. *)
Lemma resolve_index r key names h now :
  view hash_key r key now = Some (mkCached 0 [(VARY_INDEX_HEADER, names)] [] false false) ->
  (resolve_cached to_str (Some r) key h (fetch now)).1
  = match (get hash_key (Some r) (secondary_key to_str key names h) now).1 with
    | Some c => if is_vary_index c then None else Some (c, true)
    | None => None
    end.
Proof.
  intros Hv. destruct (fetch_fresh _ _ _ _ Hv eq_refl) as (r1 & E & Hsame).
  unfold resolve_cached. rewrite E.
  assert (header_value [(VARY_INDEX_HEADER, names)] VARY_INDEX_HEADER = Some names) as Eh by reflexivity.
  assert (is_vary_index (mkCached 0 [(VARY_INDEX_HEADER, names)] [] false false) = true) as -> by reflexivity.
  cbn [negb c_headers]. rewrite Eh.
  assert ((get hash_key (Some r1) (secondary_key to_str key names h) now).1
          = (get hash_key (Some r) (secondary_key to_str key names h) now).1) as <- by (by rewrite !fetch_answer, Hsame).
  destruct (get hash_key (Some r1) _ _) as [[c|] r2]; cbn; [|done]. by destruct (is_vary_index c).
Qed.

Lemma resolve_none r key h now :
  view hash_key r key now = None -> (resolve_cached to_str (Some r) key h (fetch now)).1 = None.
Proof.
  intros Hv. unfold resolve_cached. pose proof (fetch_none _ _ _ Hv) as E.
  by destruct (get hash_key (Some r) key now) as [o r1]; cbn in E; subst o.
Qed.

(** C25.  A response with a [Vary] beyond the key is shared only among the requests it was
    rendered for.  Once it is stored, and while it is fresh, a request with the same key finds it
    exactly when it agrees with the storing request on the text of every header named (unless a full
    probe window cost the index its slot), where a value that is not text counts as absent (see
    [nontext_variants_shared]); a request that differs in one finds what its own variant held
    before, or nothing.  What is found carries nobody's cookie. *)
Theorem variants_kept_apart r key resp ae vary_ua rule a h now ttl swr sie n by_rule names dropped r' h2 now2 :
  rwf (entries r) -> maybe_store to_str encode hash_key (Some r) key resp ae vary_ua rule a h now
                     = (Stored ttl swr sie n by_rule (Some names) dropped, Some r') ->
  0 <= now -> 0 <= ttl -> 0 <= swr -> 0 <= sie -> now + ttl + swr < W64 -> now + ttl + sie < W64 ->
  phase ttl swr sie now now2 = Some (false, false) ->
  13 ∉ names -> Z.of_nat (length names) <= 8000 ->
  no_collision [key; secondary_key to_str key names h; secondary_key to_str key names h2] ->
  let answer := (resolve_cached to_str (Some r') key h2 (fetch now2)).1 in
  let sb := stored_form encode resp ae vary_ua (Some names) in
  if bool_decide (Forall (fun m => joined_values to_str h m = joined_values to_str h2 m) (vary_names names))
  then answer = Some (mkCached 200 (parse_hdr_blob (hdr_blob sb.1)) sb.2 false false, true)
       \/ view hash_key r' key now2 = None /\ answer = None
  else answer = None
       \/ exists c, view hash_key r (secondary_key to_str key names h2) now2 = Some c /\ answer = Some (c, true).
Proof.
  intros Hw Hm H0 Ht Hs He B1 B2 Hph Hcr Hlen Hcol answer sb.
  apply maybe_store_Stored in Hm as (r0 & tags & [= <-] & H200 & _ & Eu & Hst).
  apply eq_sym in Eu. pose proof (uncovered_vary_trim _ _ _ Eu) as Htrim.
  cbn [store_both] in Hst. rewrite H200 in Hst. fold sb in Hst.
  set (sk := secondary_key to_str key names h) in *. set (sk2 := secondary_key to_str key names h2) in *.
  assert (hashed sk <> hashed key) as Hne.
  { intros E. apply (secondary_ne key names h). apply Hcol; [set_solver..|exact E]. }
  assert (hashed sk2 <> hashed key) as Hne2.
  { intros E. apply (secondary_ne key names h2). apply Hcol; [set_solver..|exact E]. }
  destruct (store_index_view r key names ttl swr sie (app_tag a <$> tags) (Some a) now now2) as (r1 & E1 & Hw1 & Hv1 & Ho1);
    try done.
  { destruct (store hash_key (Some r) key 0 _ _ _ _ _ _ _ _) as [ok [r1|]]; cbn [snd] in Hst; [|done].
    destruct (store_cases hash_key _ _ _ _ _ _ _ _ _ _ _ _ _ Hst) as [(_ & (_ & _ & ?) & _)|[? _]]; done. }
  rewrite E1 in Hst. cbn [snd] in Hst.
  pose proof (store_view hash_key hash_u64 r1 sk _ _ _ _ _ _ _ _ _ _ now2 (rwf_size _ Hw1) H0 Ht Hs He B1 B2 Hst) as Hv2.
  rewrite Hph in Hv2. cbn [fmap option_fmap option_map] in Hv2.
  destruct (store_view_other r1 sk _ _ _ _ _ _ _ _ _ _ _ key Hw1 Hst (not_eq_sym Hne)) as [_ Hkey].
  assert (view hash_key r' key now2 = Some (mkCached 0 [(VARY_INDEX_HEADER, names)] [] false false)
          \/ view hash_key r' key now2 = None) as [Hk|Hk] by (destruct Hkey as [E|E]; rewrite E; [left; exact Hv1|by right]).
  2:{ assert (answer = None) as -> by (by apply resolve_none). case_bool_decide; auto. }
  assert (Forall (fun m => joined_values to_str h m = joined_values to_str h2 m) (vary_names names) <-> sk2 = sk) as Hsame.
  { rewrite Forall_forall, <- (vary_suffix_iff to_str to_str_text). unfold sk, sk2, secondary_key.
    split; [by intros ->|]. intros E. by do 4 apply app_inv_head in E. }
  unfold answer. rewrite (resolve_index _ _ _ _ _ Hk), fetch_answer. fold sk2.
  case_bool_decide as Hd; rewrite Hsame in Hd.
  - left. rewrite Hd, Hv2. done.
  - assert (hashed sk2 <> hashed sk) as Hne3 by (intros E; apply Hd, Hcol; [set_solver..|exact E]).
    destruct (store_view_other r1 sk _ _ _ _ _ _ _ _ _ _ _ sk2 Hw1 Hst Hne3) as [_ [E|E]]; rewrite E; [|by left].
    destruct (Ho1 sk2 Hne2) as [Ev|Ev]; rewrite Ev; [|by left].
    destruct (view hash_key r sk2 now2) as [c|]; [|by left]. destruct (c_error_only c); [by left|].
    destruct (is_vary_index c); [by left|]. right. by exists c.
Qed.
End Policy.

(** ** Concrete pages *)

Lemma ascii_to_str_text v s : ascii_to_str v = Some s -> SEP ∉ s.
Proof.
  unfold ascii_to_str. destruct (forallb _ v) eqn:E; [|done]. intros [= <-] H.
  apply forallb_Forall in E. rewrite Forall_forall in E. by specialize (E SEP H).
Qed.

Definition poly_hash (b : bytes) : Z := wrap64 (foldl (fun h x => h * 31 + x) 7 b).
Lemma poly_hash_u64 b : is_u64 (poly_hash b).
Proof. apply wrap64_range. Qed.
Definition plain (e : Encoding) (b : bytes) : option bytes := None.

(** A page per value of the header [vary], for a minute. *)
Definition page (vary body : bytes) : PhpResponse :=
  mkPhp 200 [(lit "Askr-Cache", lit "60"); (lit "Vary", vary); (lit "Set-Cookie", lit "s=1")] body.
Definition the_app : App := mkApp (lit "0123456789abcdef").
Definition store_page (rc : rcache) (key vary body : bytes) (h : headers) : StoreVerdict * option rcache :=
  maybe_store ascii_to_str plain poly_hash (Some rc) key (page vary body) [] false None the_app h 1000.
Definition lookup_page (rc : rcache) (key : bytes) (h : headers) : option bytes :=
  (fun x => c_body x.1)
  <$> (resolve_cached ascii_to_str (Some rc) key h (fun rc k => get poly_hash rc k 1001)).1.

Definition key_p : bytes := lit "GET" ++ [0] ++ lit "x" ++ [0] ++ lit "/p".
Definition in_french : headers := [(lit "accept-language", lit "fr")].
Definition in_german : headers := [(lit "accept-language", lit "de")].
Definition french_rc : rcache :=
  default empty_rc (store_page empty_rc key_p (lit "Accept-Language") (lit "bonjour") in_french).2.

Lemma french_stored :
  store_page empty_rc key_p (lit "Accept-Language") (lit "bonjour") in_french
  = (Stored 60 0 0 0 false (Some (lit "Accept-Language")) true, Some french_rc).
Proof. vm_compute. reflexivity. Qed.

Lemma variants_kept_apart_witness :
  lookup_page french_rc key_p in_french = Some (lit "bonjour") /\ lookup_page french_rc key_p in_german = None.
Proof.
  assert (rwf (entries empty_rc)) as Hw by (apply rwf_init; lia).
  pose proof (fun h2 => variants_kept_apart ascii_to_str ascii_to_str_text plain poly_hash poly_hash_u64
    empty_rc key_p (page (lit "Accept-Language") (lit "bonjour")) [] false None the_app in_french 1000 60 0 0 0 false
    (lit "Accept-Language") true french_rc h2 1001 Hw french_stored ltac:(lia) ltac:(lia) ltac:(lia) ltac:(lia)
    ltac:(words; lia) ltac:(words; lia) eq_refl ltac:(not_in) ltac:(vm_compute; discriminate)) as H.
  split.
  - destruct (H in_french) as [E|[E _]]; [apply no_collision_check; vm_compute; reflexivity| |].
    + unfold lookup_page. by rewrite E.
    + exfalso. revert E. vm_compute. discriminate.
  - destruct (H in_german) as [E|(c & E & _)]; [apply no_collision_check; vm_compute; reflexivity| |].
    + unfold lookup_page. by rewrite E.
    + exfalso. revert E. vm_compute. discriminate.
Defined.

(** "This request's value for every named header": a value that is not printable ASCII counts as
    none, so one user's page answers another's request. *)
Definition from (user : bytes) : headers := [(lit "x-user", user)].
Theorem nontext_variants_shared :
  let jurgen := from [74; 195; 188; 114; 103; 101; 110] in
  let bjorn := from [66; 106; 195; 184; 114; 110] in
  let st := store_page empty_rc key_p (lit "X-User") (lit "jurgen's page") jurgen in
  lookup_page (default empty_rc st.2) key_p bjorn = Some (lit "jurgen's page").
Proof. vm_compute. reflexivity. Qed.
