(* ===== verification/Esi.v ===== *)
(** Edge Side Includes: the plan of a page ([esi.rs]) and its expansion in passes
    ([esi_expand] of [server/esi.rs]).

    The source walks the body with indices.  [esi_page] of [EsiSpec] says the same by rules on what is left of
    the body, and [plan_faithful] connects the two.  How a fragment is fetched is [Server]'s. *)

From S2P Require Import Prelude Bytes Http.

(** ** Searching, by index *)

Definition prefix_ci (needle b : bytes) : bool := eq_ignore_ascii_case (take (length needle) b) needle.

(** [windows(n).position(..)]. *)
Fixpoint window_position (needle b : bytes) : option nat :=
  if prefix_ci needle b then Some O
  else match b with [] => None | _ :: b' => S <$> window_position needle b' end.

Definition find (hay : bytes) (from : nat) (needle : bytes) : option nat :=
  if (length hay <=? from)%nat || beq needle [] then None
  else (fun p => (p + from)%nat) <$> window_position needle (drop from hay).

Definition starts_with_at (hay : bytes) (at_ : nat) (needle : bytes) : bool :=
  (at_ + length needle <=? length hay)%nat
  && eq_ignore_ascii_case (take (length needle) (drop at_ hay)) needle.

Definition OPEN : bytes := lit "<esi:".
Definition REMOVE : bytes := lit "<esi:remove".
Definition UNREMOVE : bytes := lit "</esi:remove>".
Definition INCLUDE : bytes := lit "<esi:include".
Definition GT : bytes := lit ">".

Definition has_tags (body : bytes) : bool := bool_decide (is_Some (find body 0 OPEN)).

Definition slice (b : bytes) (from to : nat) : bytes := take (to - from) (drop from b).

(** ** Attributes *)

Definition is_ascii_whitespace (x : Z) : bool := bool_decide (x ∈ [32; 9; 10; 12; 13]).

(** [while j < tag.len() && p(tag[j]) { j += 1 }]. *)
Fixpoint run_length (p : Z -> bool) (b : bytes) : nat :=
  match b with x :: b' => if p x then S (run_length p b') else O | [] => O end.
Definition skip (p : Z -> bool) (tag : bytes) (j : nat) : nat := (j + run_length p (drop j tag))%nat.

(** One occurrence of the name; [inl] looks for the next. *)
Definition attr_step (tag name : bytes) (i : nat) : nat + option bytes :=
  match find tag i name with
  | None => inr None
  | Some pos =>
      let boundary := match pos with O => true | S p => is_ascii_whitespace (tag !!! p) end in
      let j := skip is_ascii_whitespace tag (pos + length name) in
      if negb boundary || (length tag <=? j)%nat || negb (tag !!! j =? 61) then inl (pos + length name)%nat
      else
        let j := skip is_ascii_whitespace tag (S j) in
        match tag !! j with
        | None => inr None
        | Some quote =>
            if negb (quote =? 34) && negb (quote =? 39) then inr None
            else
              let value := slice tag (S j) (skip (fun x => negb (x =? quote)) tag (S j)) in
              inr (if from_utf8_ok value then Some value else None)
        end
  end.
Definition attr (tag name : bytes) : option bytes := default None (loop (attr_step tag name) (S (length tag)) O).

(** ** The plan *)

Inductive Segment := Literal (from to : nat) | Include (src : bytes).

Definition push_literal (out : list Segment) (from to : nat) : list Segment :=
  if (from <? to)%nat then out ++ [Literal from to] else out.

(** One round of the loop; the state is [out], [lit_start] and [i]. *)
Definition plan_step (body : bytes) (st : list Segment * nat * nat)
    : (list Segment * nat * nat) + list Segment :=
  let '(out, lit_start, i) := st in
  let stop := inr (push_literal out lit_start (length body)) in
  match find body i OPEN with
  | None => stop
  | Some open =>
      if starts_with_at body open REMOVE then
        match find body open GT with
        | None => stop
        | Some gt =>
            match find body gt UNREMOVE with
            | None => inl (out, lit_start, S gt)
            | Some close =>
                let e := (close + length UNREMOVE)%nat in
                inl (push_literal out lit_start open, e, e)
            end
        end
      else if starts_with_at body open INCLUDE then
        match find body open GT with
        | None => stop
        | Some gt =>
            match attr (slice body open gt) (lit "src") with
            | Some src => inl (push_literal out lit_start open ++ [Include src], S gt, S gt)
            | None => inl (out, lit_start, S gt)
            end
        end
      else inl (out, lit_start, (open + length OPEN)%nat)
  end.
Definition plan (body : bytes) : list Segment :=
  default [] (loop (plan_step body) (S (length body)) ([], O, O)).

(** [safe_src]: same-origin absolute paths only. *)
Definition safe_src (src : bytes) : bool :=
  negb (beq src []) && starts_with src (lit "/") && negb (starts_with src (lit "//"))
  && negb (contains_sub (lit "://") src) && negb (bool_decide (92 ∈ src))
  && negb (existsb (fun s => beq s (lit "..")) (split_on 47 src)).

(** ** The passes *)

Definition ESI_MAX_PASSES : nat := 3.
Definition ESI_MAX_INCLUDES : nat := 32.

Section Expand.
(** [esi_fragment], on whatever it reads and changes. *)
Context {St : Type} (fragment : St -> bytes -> option bytes * St).

(** One pass over the plan. *)
Fixpoint splice (body : bytes) (segs : list Segment) (out : bytes) (budget : nat) (st : St)
    : bytes * nat * St :=
  match segs with
  | [] => (out, budget, st)
  | Literal a b :: segs => splice body segs (out ++ slice body a b) budget st
  | Include src :: segs =>
      match budget with
      | O => splice body segs out O st
      | S budget =>
          let '(o, st) := fragment st src in
          splice body segs (out ++ default [] o) budget st
      end
  end.

Definition is_include (s : Segment) : bool := match s with Include _ => true | _ => false end.

Fixpoint expand_passes (passes : nat) (body : bytes) (budget : nat) (st : St) : bytes * St :=
  match passes with
  | O => (body, st)
  | S passes =>
      if negb (has_tags body) then (body, st)
      else if negb (existsb is_include (plan body)) then (body, st)
      else let '(out, budget, st) := splice body (plan body) [] budget st in
           expand_passes passes out budget st
  end.
Definition esi_expand (st : St) (body : bytes) : bytes * St :=
  expand_passes ESI_MAX_PASSES body ESI_MAX_INCLUDES st.
End Expand.

(** A double-quoted attribute. *)
Definition inc (src : bytes) : bytes := lit "<esi:include src=" ++ [34] ++ src ++ [34] ++ lit "/>".

Example one_hole :
  plan (lit "<a>" ++ inc (lit "/f") ++ lit "</a>") = [Literal 0 3; Include (lit "/f"); Literal 26 30].
Proof. vm_compute. reflexivity. Qed.
Example unquoted_case : plan (lit "<ESI:Include data-src='/x' SRC = '/f' >") = [Include (lit "/f")].
Proof. vm_compute. reflexivity. Qed.
Example removed_fallback :
  plan (lit "a<esi:remove>old</esi:remove>b<esi:comment/>") = [Literal 0 1; Literal 29 44].
Proof. vm_compute. reflexivity. Qed.
