(* ===== verification/EsiSpec.v ===== *)
(** What the plan of a page is: the rules of Edge Side Includes on what is left of the body, and
    the proof that the index walk of [Esi] follows them, ends, and fetches a bounded number of
    fragments. *)

From S2P Require Import Prelude Bytes Http Esi.

(** ** Searching *)

Lemma prefix_ci_length needle b : prefix_ci needle b = true -> (length needle <= length b)%nat.
Proof.
  unfold prefix_ci, eq_ignore_ascii_case. intros H%beq_true.
  apply (f_equal length) in H. unfold to_ascii_lowercase in H. rewrite !length_fmap, length_take in H. lia.
Qed.


(** What is before the first occurrence, and the rest from there. *)
Definition cut (needle b : bytes) : option (bytes * bytes) :=
  (fun k => (take k b, drop k b)) <$> window_position needle b.

Lemma window_position_fits needle b k :
  window_position needle b = Some k -> (k + length needle <= length b)%nat.
Proof.
  revert k. induction b as [|x b IH]; intros k; cbn [window_position];
    (destruct (prefix_ci needle _) eqn:E; [intros [= <-]; by apply prefix_ci_length in E|]); [done|].
  destruct (window_position needle b) as [p|]; [|done]. intros [= <-]. cbn. specialize (IH p eq_refl). lia.
Qed.

Lemma cut_app needle b pre r : cut needle b = Some (pre, r) -> b = pre ++ r.
Proof. unfold cut. destruct (window_position needle b); intros [= <- <-]. by rewrite take_drop. Qed.

Lemma slice_app b i k l : (i <= k <= l)%nat -> slice b i k ++ slice b k l = slice b i l.
Proof.
  intros [Hi Hk]. unfold slice. replace (drop k b) with (drop (k - i) (drop i b)) by (rewrite drop_drop; f_equal; lia).
  rewrite take_take_drop. f_equal. lia.
Qed.
Lemma slice_end b i : slice b i (length b) = drop i b.
Proof. apply take_ge. by rewrite length_drop. Qed.
Lemma slice_nil b i : slice b i i = [].
Proof. unfold slice. by rewrite Nat.sub_diag. Qed.
Lemma slice_drop b i k : (i <= k)%nat -> slice b i k ++ drop k b = drop i b.
Proof.
  intros H. unfold slice. rewrite <- (take_drop (k - i) (drop i b)) at 2. rewrite drop_drop. do 2 f_equal. lia.
Qed.
Lemma take_slice b k n : take n (drop k b) = slice b k (k + n).
Proof. unfold slice. f_equal. lia. Qed.

(** [find] is [cut] on what is left. *)
Lemma find_cut hay i needle :
  needle <> [] ->
  match find hay i needle with
  | Some k => (i <= k)%nat /\ (k + length needle <= length hay)%nat
              /\ cut needle (drop i hay) = Some (slice hay i k, drop k hay)
  | None => cut needle (drop i hay) = None
  end.
Proof.
  intros Hn. unfold find, cut. assert (beq needle [] = false) as -> by (by apply bool_decide_eq_false).
  rewrite orb_false_r. destruct (Nat.leb_spec (length hay) i) as [Hl|Hl].
  { rewrite drop_ge by done. destruct (window_position needle []) eqn:E; [|done].
    apply window_position_fits in E. destruct needle; [done|]. cbn in E. lia. }
  destruct (window_position needle (drop i hay)) as [p|] eqn:E; [|done]. cbn.
  apply window_position_fits in E. rewrite length_drop in E.
  split; [lia|]. split; [lia|]. unfold slice. rewrite drop_drop. do 3 f_equal; lia.
Qed.

Lemma starts_with_at_in hay i needle :
  (i < length hay)%nat -> starts_with_at hay i needle = prefix_ci needle (drop i hay).
Proof.
  intros Hi. unfold starts_with_at. fold (prefix_ci needle (drop i hay)).
  destruct (prefix_ci needle (drop i hay)) eqn:E; [|by rewrite andb_false_r].
  apply prefix_ci_length in E. rewrite length_drop in E. rewrite andb_true_r. apply Nat.leb_le. lia.
Qed.

(** ** The rules *)

(** A page is text, blocks taken out, and holes to fill. *)
Inductive piece := Text (t : bytes) | Removed (block : bytes) | Hole (tag src : bytes).
Definition raw (p : piece) : bytes := match p with Text t | Removed t | Hole t _ => t end.

(** The rules, for one way of telling that a tag has a name. *)
Section Grammar.
Context (names : bytes -> bytes -> bool).
Inductive esi_page : bytes -> list piece -> Prop :=
| page_plain b :
    cut OPEN b = None -> esi_page b [Text b]
| page_removed b pre r hd r1 blk r2 ps :
    cut OPEN b = Some (pre, r) -> names REMOVE r = true ->
    cut GT r = Some (hd, r1) -> cut UNREMOVE r1 = Some (blk, r2) ->
    esi_page (drop (length UNREMOVE) r2) ps ->
    esi_page b (Text pre :: Removed (hd ++ blk ++ take (length UNREMOVE) r2) :: ps)
| page_unclosed b pre r hd r1 ps :
    cut OPEN b = Some (pre, r) -> names REMOVE r = true ->
    cut GT r = Some (hd, r1) -> cut UNREMOVE r1 = None ->
    esi_page (drop 1 r1) ps ->
    esi_page b (Text (pre ++ hd ++ take 1 r1) :: ps)
| page_truncated b pre r :
    cut OPEN b = Some (pre, r) -> names REMOVE r || names INCLUDE r = true ->
    cut GT r = None -> esi_page b [Text b]
| page_hole b pre r tag r1 src ps :
    cut OPEN b = Some (pre, r) -> names REMOVE r = false -> names INCLUDE r = true ->
    cut GT r = Some (tag, r1) -> attr tag (lit "src") = Some src ->
    esi_page (drop 1 r1) ps ->
    esi_page b (Text pre :: Hole (tag ++ take 1 r1) src :: ps)
| page_no_src b pre r tag r1 ps :
    cut OPEN b = Some (pre, r) -> names REMOVE r = false -> names INCLUDE r = true ->
    cut GT r = Some (tag, r1) -> attr tag (lit "src") = None ->
    esi_page (drop 1 r1) ps ->
    esi_page b (Text (pre ++ tag ++ take 1 r1) :: ps)
| page_other b pre r ps :
    cut OPEN b = Some (pre, r) -> names REMOVE r = false -> names INCLUDE r = false ->
    esi_page (drop (length OPEN) r) ps ->
    esi_page b (Text (pre ++ take (length OPEN) r) :: ps).

(** The rules say one thing of a page, and lose no byte of it. *)
Lemma esi_page_det b ps ps' : esi_page b ps -> esi_page b ps' -> ps' = ps.
Proof.
  intros H. revert ps'. induction H; intros ps' H'; inversion H'; subst; try congruence;
    repeat match goal with
    | H1 : cut ?n ?x = Some _, H2 : cut ?n ?x = Some _ |- _ => rewrite H1 in H2; injection H2 as ?; subst
    | H1 : attr ?n ?x = Some _, H2 : attr ?n ?x = Some _ |- _ => rewrite H1 in H2; injection H2 as ?; subst
    end; try congruence;
    repeat match goal with
    | H : _ || _ = true |- _ => apply orb_true_iff in H as [?|?]
    end; try congruence; repeat f_equal; auto.
Qed.

Lemma esi_page_raw b ps : esi_page b ps -> concat (raw <$> ps) = b.
Proof.
  induction 1; cbn [fmap list_fmap raw concat];
    repeat match goal with H : cut _ _ = Some _ |- _ => apply cut_app in H; subst end;
    repeat match goal with H : concat _ = _ |- _ => rewrite H; clear H end;
    rewrite ?app_nil_r, <- ?app_assoc, ?take_drop; try done.
Qed.
End Grammar.

(** ** The walk *)

Section Render.
Context {St : Type} (fragment : St -> bytes -> option bytes * St).

(** Fill the holes in order, while the budget lasts. *)
Fixpoint render (ps : list piece) (out : bytes) (budget : nat) (st : St) : bytes * nat * St :=
  match ps with
  | [] => (out, budget, st)
  | Text t :: ps => render ps (out ++ t) budget st
  | Removed _ :: ps => render ps out budget st
  | Hole _ src :: ps =>
      match budget with
      | O => render ps out O st
      | S budget => let '(o, st) := fragment st src in render ps (out ++ default [] o) budget st
      end
  end.

Lemma splice_snoc body l1 l2 out budget st :
  splice fragment body (l1 ++ l2) out budget st
  = let '(o, b, s) := splice fragment body l1 out budget st in splice fragment body l2 o b s.
Proof.
  revert out budget st. induction l1 as [|[a b|src] l1 IH]; intros out budget st; cbn [Datatypes.app splice]; [done|apply IH|].
  destruct budget; [apply IH|]. destruct (fragment st src). apply IH.
Qed.

Lemma splice_push body l from to out budget st :
  splice fragment body (push_literal l from to) out budget st
  = let '(o, b, s) := splice fragment body l out budget st in (o ++ slice body from to, b, s).
Proof.
  unfold push_literal. destruct (Nat.ltb_spec from to) as [H|H].
  - rewrite splice_snoc. by destruct (splice _ _ l _ _ _) as [[o b] s].
  - destruct (splice _ _ l _ _ _) as [[o b] s]. unfold slice.
    replace (to - from)%nat with O by lia. cbn [take]. by rewrite app_nil_r.
Qed.
End Render.

Definition segment_ok (body : bytes) (s : Segment) : Prop :=
  match s with Literal a b => (a < b <= length body)%nat | Include _ => True end.
Definition state_ok (body : bytes) (st : list Segment * nat * nat) : Prop :=
  let '(out, lit_start, i) := st in
  (lit_start <= i <= length body)%nat /\ Forall (segment_ok body) out.
Definition index (st : list Segment * nat * nat) : nat := st.2.

(** [ps] is what is left of the page at [st], and the plan that comes of it renders so. *)
Definition renders (body : bytes) (st : list Segment * nat * nat) (segs : list Segment) (ps : list piece) : Prop :=
  let '(out, lit_start, i) := st in
  forall (St : Type) (fragment : St -> bytes -> option bytes * St) o b s,
    splice fragment body segs o b s
    = let '(o, b, s) := splice fragment body out o b s in
      render fragment ps (o ++ slice body lit_start i) b s.
Definition planned (body : bytes) (st : list Segment * nat * nat) (segs : list Segment) : Prop :=
  Forall (segment_ok body) segs
  /\ exists ps, esi_page prefix_ci (drop (index st) body) ps /\ renders body st segs ps.

Lemma push_literal_ok body out from to :
  (to <= length body)%nat -> Forall (segment_ok body) out -> Forall (segment_ok body) (push_literal out from to).
Proof.
  intros Ht Ho. unfold push_literal. destruct (Nat.ltb_spec from to); [|done].
  apply Forall_app. split; [done|]. by repeat constructor.
Qed.

Lemma planned_stop body out ls i :
  state_ok body (out, ls, i) -> esi_page prefix_ci (drop i body) [Text (drop i body)] ->
  planned body (out, ls, i) (push_literal out ls (length body)).
Proof.
  intros [Hi Ho] Hp. split; [by apply push_literal_ok|]. exists [Text (drop i body)]. split; [done|].
  intros St fragment o b s. rewrite splice_push. destruct (splice _ _ out o b s) as [[o1 b1] s1]. cbn.
  rewrite <- app_assoc, <- slice_end, slice_app by lia. by rewrite slice_end.
Qed.

(** A stretch passed over. *)
Lemma planned_text body out ls i j segs t :
  (ls <= i <= j)%nat -> t = slice body i j ->
  (forall ps, esi_page prefix_ci (drop j body) ps -> esi_page prefix_ci (drop i body) (Text t :: ps)) ->
  planned body (out, ls, j) segs -> planned body (out, ls, i) segs.
Proof.
  intros Hij -> Hp [Hs (ps & Hps & Hr)]. split; [done|]. exists (Text (slice body i j) :: ps).
  split; [by apply Hp|]. intros St fragment o b s. rewrite Hr.
  destruct (splice _ _ out o b s) as [[o1 b1] s1]. cbn [render]. by rewrite <- app_assoc, slice_app.
Qed.

Lemma planned_removed body out ls i open e segs blk :
  (ls <= i <= open)%nat -> (open <= e <= length body)%nat ->
  (forall ps, esi_page prefix_ci (drop e body) ps -> esi_page prefix_ci (drop i body) (Text (slice body i open) :: Removed blk :: ps)) ->
  planned body (push_literal out ls open, e, e) segs -> planned body (out, ls, i) segs.
Proof.
  intros Hi He Hp [Hs (ps & Hps & Hr)]. split; [done|]. exists (Text (slice body i open) :: Removed blk :: ps).
  split; [by apply Hp|]. intros St fragment o b s. rewrite Hr, splice_push.
  destruct (splice _ _ out o b s) as [[o1 b1] s1]. cbn [render].
  by rewrite slice_nil, app_nil_r, <- app_assoc, slice_app.
Qed.

Lemma planned_hole body out ls i open e segs tag src :
  (ls <= i <= open)%nat -> (open <= e <= length body)%nat ->
  (forall ps, esi_page prefix_ci (drop e body) ps -> esi_page prefix_ci (drop i body) (Text (slice body i open) :: Hole tag src :: ps)) ->
  planned body (push_literal out ls open ++ [Include src], e, e) segs -> planned body (out, ls, i) segs.
Proof.
  intros Hi He Hp [Hs (ps & Hps & Hr)]. split; [done|]. exists (Text (slice body i open) :: Hole tag src :: ps).
  split; [by apply Hp|]. intros St fragment o b s. rewrite Hr, splice_snoc, splice_push.
  destruct (splice _ _ out o b s) as [[o1 b1] s1]. cbn [render splice].
  rewrite <- app_assoc, slice_app by done. destruct b1 as [|b1]; [by rewrite slice_nil, app_nil_r|].
  destruct (fragment s1 src) as [r s2]. by rewrite slice_nil, app_nil_r.
Qed.

Ltac find_as n k H :=
  match goal with |- context [find ?hay ?i n] =>
    pose proof (find_cut hay i n ltac:(done)) as H; destruct (find hay i n) as [k|]
  end.

Lemma plan_step_ok body st :
  state_ok body st ->
  match plan_step body st with
  | inl st' => state_ok body st' /\ (index st < index st')%nat
               /\ forall segs, planned body st' segs -> planned body st segs
  | inr segs => planned body st segs
  end.
Proof.
  destruct st as [[out ls] i]. intros Hok. pose proof Hok as [Hi Ho]. unfold plan_step.
  find_as OPEN open Fo; [destruct Fo as (Hio & Hol & Co)|by apply planned_stop; [|constructor]].
  change (length OPEN) with 5%nat in Hol.
  rewrite !starts_with_at_in by lia.
  destruct (prefix_ci REMOVE (drop open body)) eqn:Er; [|destruct (prefix_ci INCLUDE (drop open body)) eqn:Ei].
  - find_as GT g Fg; [|by apply planned_stop; [|eapply page_truncated; [done|rewrite Er|]]].
    destruct Fg as (Hgt & Hgl & Cg). change (length GT) with 1%nat in Hgl.
    find_as UNREMOVE cl Fc; [destruct Fc as (Hcl & Hce & Cc)|].
    + change (length UNREMOVE) with 13%nat in *. split; [|split].
      * split; [lia|]. apply push_literal_ok; [lia|done].
      * cbn. lia.
      * intros segs. eapply planned_removed; [lia..|]. intros ps Hps. eapply page_removed; [done..|].
        by rewrite drop_drop.
    + split; [split; [lia|done]|]. split; [cbn; lia|]. intros segs.
      eapply planned_text; [lia|reflexivity|]. intros ps Hps.
      rewrite <- (slice_app body i open), <- (slice_app body open g (S g)) by lia.
      replace (slice body g (S g)) with (take 1 (drop g body)) by (rewrite take_slice; f_equal; lia).
      eapply page_unclosed; [done..|]. rewrite drop_drop. by rewrite Nat.add_1_r.
  - find_as GT g Fg; [|by apply planned_stop; [|eapply page_truncated; [done|rewrite Ei; apply orb_true_r|]]].
    destruct Fg as (Hgt & Hgl & Cg). change (length GT) with 1%nat in Hgl.
    destruct (attr (slice body open g) (lit "src")) as [src|] eqn:Ea.
    + split; [|split].
      * split; [lia|]. apply Forall_app. split; [apply push_literal_ok; [lia|done]|by repeat constructor].
      * cbn. lia.
      * intros segs. eapply planned_hole; [lia..|]. intros ps Hps. eapply page_hole; [done..|].
        rewrite drop_drop. by rewrite Nat.add_1_r.
    + split; [split; [lia|done]|]. split; [cbn; lia|]. intros segs.
      eapply planned_text; [lia|reflexivity|]. intros ps Hps.
      rewrite <- (slice_app body i open), <- (slice_app body open g (S g)) by lia.
      replace (slice body g (S g)) with (take 1 (drop g body)) by (rewrite take_slice; f_equal; lia).
      eapply page_no_src; [done..|]. rewrite drop_drop. by rewrite Nat.add_1_r.
  - change (length OPEN) with 5%nat. split; [split; [lia|done]|]. split; [cbn; lia|]. intros segs.
    eapply planned_text; [lia|reflexivity|]. intros ps Hps.
    rewrite <- (slice_app body i open), <- (take_slice body open 5) by lia.
    eapply page_other; [done..|]. change (length OPEN) with 5%nat. by rewrite drop_drop.
Qed.

Lemma plan_walk_ends body :
  exists segs, loop (plan_step body) (S (length body)) ([], O, O) = Some segs.
Proof.
  apply (loop_returns _ (state_ok body) (fun st => (length body - index st)%nat)).
  - intros st st' Hs E. pose proof (plan_step_ok body st Hs) as H. rewrite E in H.
    destruct H as (Hs' & ? & _). split; [done|]. destruct st' as [[? ?] ?]. destruct Hs' as [? _]. cbn in *. lia.
  - split; [lia|constructor].
  - cbn. lia.
Qed.

Lemma attr_walk_ends tag name :
  name <> [] -> exists r, loop (attr_step tag name) (S (length tag)) O = Some r.
Proof.
  intros Hn. apply (loop_returns _ (fun i => (i <= length tag)%nat) (fun i => (length tag - i)%nat)); [|lia..].
  intros i i' Hi. unfold attr_step. pose proof (find_cut tag i name Hn) as F.
  destruct (find tag i name) as [pos|]; [|done]. destruct F as (Hp & Hl & _).
  assert (0 < length name)%nat by (destruct name; [done|cbn; lia]).
  case_match; [intros [= <-]; lia|]. repeat (case_match; try done).
Qed.

Lemma plan_planned body : planned body ([], O, O) (plan body).
Proof.
  destruct (plan_walk_ends body) as [segs E]. unfold plan. rewrite E. cbn.
  refine (loop_ind _ (state_ok body) (planned body) _ _ _ _ _ _ _ E).
  - intros st st' Hs H. pose proof (plan_step_ok body st Hs) as Hk. rewrite H in Hk. by destruct Hk.
  - intros st a Hs H. pose proof (plan_step_ok body st Hs) as Hk. by rewrite H in Hk.
  - intros st st' a Hs H. pose proof (plan_step_ok body st Hs) as Hk. rewrite H in Hk.
    destruct Hk as (_ & _ & Hk). apply Hk.
  - split; [lia|constructor].
Qed.

(** ** Names *)

(** A tag's name ends before white space, [/] or [>]. *)
Definition name_ends (b : bytes) : bool :=
  match b with [] => true | x :: _ => is_ascii_whitespace x || (x =? 47) || (x =? 62) end.
Definition exact_name (needle r : bytes) : bool := prefix_ci needle r && name_ends (drop (length needle) r).
(** No name merely begins with [remove] or [include]. *)
Definition names_exact (b : bytes) : Prop :=
  forall r, r `suffix_of` b -> prefix_ci REMOVE r = exact_name REMOVE r /\ prefix_ci INCLUDE r = exact_name INCLUDE r.

Lemma names_exact_app a b : names_exact (a ++ b) -> names_exact b.
Proof. intros H r [x ->]. apply H. exists (a ++ x). by rewrite <- app_assoc. Qed.
Lemma names_exact_drop n b : names_exact b -> names_exact (drop n b).
Proof. intros H. apply (names_exact_app (take n b)). by rewrite take_drop. Qed.

Lemma esi_page_exact b ps : esi_page prefix_ci b ps -> names_exact b -> esi_page exact_name b ps.
Proof.
  induction 1 as [b Hc|b pre r hd r1 blk r2 ps Hc Hn Hg Hu _ IH|b pre r hd r1 ps Hc Hn Hg Hu _ IH|b pre r Hc Hn Hg
    |b pre r tag r1 src ps Hc Hn Hn' Hg Hs _ IH|b pre r tag r1 ps Hc Hn Hn' Hg Hs _ IH|b pre r ps Hc Hn Hn' _ IH]; intros Hb.
  1: by constructor.
  all: pose proof (cut_app _ _ _ _ Hc) as Eb; assert (names_exact r) as Hr by (eapply names_exact_app; by rewrite <- Eb);
    destruct (Hr r ltac:(by exists [])) as [E1 E2]; rewrite ?E1, ?E2 in *.
  - apply cut_app in Hg as Er, Hu as Er1. subst r r1. apply names_exact_app, names_exact_app in Hr.
    eapply page_removed; try done. by apply IH, names_exact_drop.
  - apply cut_app in Hg as Er. subst r. apply names_exact_app in Hr. eapply page_unclosed; try done. by apply IH, names_exact_drop.
  - by eapply page_truncated.
  - apply cut_app in Hg as Er. subst r. apply names_exact_app in Hr. eapply page_hole; try done. by apply IH, names_exact_drop.
  - apply cut_app in Hg as Er. subst r. apply names_exact_app in Hr. eapply page_no_src; try done. by apply IH, names_exact_drop.
  - eapply page_other; try done. by apply IH, names_exact_drop.
Qed.

(** C37.  The plan of any page follows the rules of [esi_page] for tags whose name begins with [include] or
    [remove]; they read the page in one way and lose no byte of it.  Every literal is a non-empty
    range inside the body, and replaying the plan, with any fragments and any budget, is filling
    the holes of the page in order.  When no name on the page merely begins so, that is the page as
    the rules read it for tags whose name is [include] or [remove], as the source means it; when one
    does, it is taken for the shorter name (see [longer_names_taken]). *)
Theorem plan_faithful body :
  Forall (segment_ok body) (plan body)
  /\ exists ps, esi_page prefix_ci body ps /\ (forall ps', esi_page prefix_ci body ps' -> ps' = ps)
     /\ concat (raw <$> ps) = body
     /\ (names_exact body -> esi_page exact_name body ps /\ forall ps', esi_page exact_name body ps' -> ps' = ps)
     /\ forall (St : Type) (fragment : St -> bytes -> option bytes * St) out budget st,
          splice fragment body (plan body) out budget st = render fragment ps out budget st.
Proof.
  destruct (plan_planned body) as [Hs (ps & Hp & Hr)]. split; [done|]. exists ps. cbn [index snd] in Hp.
  rewrite drop_0 in Hp. split; [done|]. split; [intros ps'; by apply esi_page_det|].
  split; [by eapply esi_page_raw|]. split.
  { intros Hn. pose proof (esi_page_exact _ _ Hp Hn) as He. split; [done|]. intros ps'. by apply esi_page_det. }
  intros St fragment out budget st. rewrite Hr. cbn [splice]. by rewrite slice_nil, app_nil_r.
Qed.

(** Anything else that starts with [<esi:] is to be passed through untouched.  A longer name is not:
    it is included, or its block is removed. *)
Lemma longer_names_taken :
  let a := lit "<esi:includes src='/f'/>" in let b := lit "<esi:removed>x</esi:removed></esi:remove>" in
  plan a = [Include (lit "/f")] /\ plan b = [] /\
  (exists t, esi_page exact_name a t /\ concat (raw <$> t) = a /\ Forall (fun p => exists x, p = Text x) t).
Proof.
  cbv zeta. split; [by vm_compute|]. split; [by vm_compute|].
  eexists. split; [eapply page_other; [by vm_compute..|]; apply page_plain; by vm_compute|].
  split; [by vm_compute|]. repeat constructor; by eexists.
Qed.

(** Neither walk runs for ever, whatever bytes the page holds: [plan] looks at each position
    of the body once, and so does [attr] of a tag. *)
Theorem esi_walks_end body tag :
  (exists segs, loop (plan_step body) (S (length body)) ([], O, O) = Some segs)
  /\ (exists r, loop (attr_step tag (lit "src")) (S (length tag)) O = Some r).
Proof. split; [apply plan_walk_ends|by apply attr_walk_ends]. Qed.

(** ** Fetches *)

Section Budget.
Context {St : Type} (fragment : St -> bytes -> option bytes * St) (cost : St -> nat).
Context (Hcost : forall st src, (cost (fragment st src).2 <= S (cost st))%nat).

Lemma splice_budget body segs out budget st :
  let '(_, budget', st') := splice fragment body segs out budget st in
  (cost st' + budget' <= cost st + budget)%nat.
Proof.
  revert out budget st. induction segs as [|[a b|src] segs IH]; intros out budget st; cbn [splice]; [lia|apply IH|].
  destruct budget as [|budget]; [apply IH|]. pose proof (Hcost st src) as H.
  destruct (fragment st src) as [o st1]. specialize (IH (out ++ default [] o) budget st1).
  destruct (splice _ _ _ _ _ st1) as [[? budget'] st2]. cbn in H. lia.
Qed.

Lemma expand_budget passes body budget st :
  (cost (expand_passes fragment passes body budget st).2 <= cost st + budget)%nat.
Proof.
  revert body budget st. induction passes as [|passes IH]; intros body budget st; cbn [expand_passes]; [cbn; lia|].
  destruct (negb _); [cbn; lia|]. destruct (negb _); [cbn; lia|].
  pose proof (splice_budget body (plan body) [] budget st) as H.
  destruct (splice _ _ _ _ _ _) as [[o b] s]. specialize (IH o b s). lia.
Qed.

(** If a fragment costs at most one, a page costs at most [ESI_MAX_INCLUDES]. *)
Lemma esi_expand_budget st body :
  (cost (esi_expand fragment st body).2 <= cost st + ESI_MAX_INCLUDES)%nat.
Proof. apply expand_budget. Qed.
End Budget.

Section Keep.
Context {St : Type} (fragment : St -> bytes -> option bytes * St) (R : St -> St -> Prop) `{!PreOrder R}.
Context (Hkeep : forall st src, R st (fragment st src).2).

(** What every fragment keeps, the page keeps. *)
Lemma splice_keeps body segs out budget st : R st (splice fragment body segs out budget st).2.
Proof.
  revert out budget st. induction segs as [|[a b|src] segs IH]; intros out budget st; cbn [splice]; [done|apply IH|].
  destruct budget as [|budget]; [apply IH|]. pose proof (Hkeep st src) as H.
  destruct (fragment st src) as [o st1]. etransitivity; [exact H|apply IH].
Qed.
Lemma esi_expand_keeps st body : R st (esi_expand fragment st body).2.
Proof.
  unfold esi_expand. generalize ESI_MAX_INCLUDES, body. revert st.
  induction ESI_MAX_PASSES as [|passes IH]; intros st budget b; cbn [expand_passes]; [done|].
  destruct (negb _); [done|]. destruct (negb _); [done|].
  pose proof (splice_keeps b (plan b) [] budget st) as H.
  destruct (splice _ _ _ _ _ _) as [[o bu] s]. etransitivity; [exact H|apply IH].
Qed.
End Keep.
