(* ===== verification/Statics.v ===== *)
(** Static files ([server/statics.rs]): which part of a request path names a file, what is never
    served as bytes, ranges, and the response for a file.

    A path is the list of its components.  The file system is a [File] per path: what its
    metadata, [read], [open] and [seek] answer. *)

From S2P Require Import Prelude Bytes Http Compress Cgi.

(** ** Paths *)

(** [Path::new(path.trim_start_matches('/')).components()], its [Normal] ones. *)
Definition sanitize (path : bytes) : list bytes :=
  filter (fun c => c <> [] /\ c <> lit "." /\ c <> lit "..") (split_on 47 path).

Definition file_name (rel : list bytes) : option bytes := last rel.

(** [Path::extension]: after the last dot, unless that dot is the first character. *)
Definition extension (rel : list bytes) : option bytes :=
  match file_name rel with
  | None => None
  | Some name => match rposition 46 name with
                 | None | Some O => None
                 | Some i => Some (drop (S i) name)
                 end
  end.

Definition LEFTOVER : list bytes :=
  [lit ".bak"; lit ".orig"; lit ".save"; lit ".swp"; lit ".swo"; lit ".old"; lit ".rej"; lit ".tmp"].
Definition SOURCES : list bytes :=
  [lit "php"; lit "php3"; lit "php4"; lit "php5"; lit "php7"; lit "php8"; lit "phps"; lit "pht";
   lit "phtml"; lit "phar"].

Definition dotted (c : bytes) : bool := starts_with c (lit ".") && negb (beq c (lit ".well-known")).

Definition static_forbidden (rel : list bytes) : bool :=
  if existsb dotted rel then true
  else
    let name := to_ascii_lowercase (default [] (file_name rel)) in
    if contains_sub (lit ".php.") name || ends_with name (lit "~") then true
    else if existsb (ends_with name) LEFTOVER then true
    else match extension rel with
         | Some e => existsb (beq (to_ascii_lowercase e)) SOURCES
         | None => false
         end.

Definition mime_for (path : list bytes) : bytes :=
  let is_ (e : bytes) (l : list bytes) := existsb (beq e) l in
  match extension path with
  | None => lit "application/octet-stream"
  | Some e =>
      if is_ e [lit "html"; lit "htm"] then lit "text/html; charset=utf-8"
      else if is_ e [lit "css"] then lit "text/css; charset=utf-8"
      else if is_ e [lit "js"; lit "mjs"] then lit "text/javascript; charset=utf-8"
      else if is_ e [lit "json"] then lit "application/json"
      else if is_ e [lit "svg"] then lit "image/svg+xml"
      else if is_ e [lit "png"] then lit "image/png"
      else if is_ e [lit "jpg"; lit "jpeg"] then lit "image/jpeg"
      else if is_ e [lit "gif"] then lit "image/gif"
      else if is_ e [lit "webp"] then lit "image/webp"
      else if is_ e [lit "ico"] then lit "image/x-icon"
      else if is_ e [lit "woff2"] then lit "font/woff2"
      else if is_ e [lit "woff"] then lit "font/woff"
      else if is_ e [lit "map"] then lit "application/json"
      else if is_ e [lit "txt"] then lit "text/plain; charset=utf-8"
      else lit "application/octet-stream"
  end.

(** ** Ranges *)

Section Serve.
Context (to_str : bytes -> option bytes) (encode : Encoding -> bytes -> option bytes).

(** [start-end], [start-] or [-suffix], inclusive. *)
Definition range_bounds (s e : bytes) (len : Z) : option (Z * Z) :=
  match s, e with
  | [], suffix => match parse_u64 suffix with
                  | Some n => if 0 <? n then Some (sat_sub64 len n, len - 1) else None
                  | None => None
                  end
  | a, [] => (fun start => (start, len - 1)) <$> parse_u64 a
  | a, b => match parse_u64 a, parse_u64 b with
            | Some start, Some end_ => Some (start, Z.min end_ (len - 1))
            | _, _ => None
            end
  end.

Definition parse_range (h : headers) (len : Z) : Z * Z :=
  let full := (0, sat_sub64 len 1) in
  if len =? 0 then full
  else match (match hget h (lit "range") with Some v => to_str v | None => None end) with
  | None => full
  | Some v =>
      match strip_prefix (lit "bytes=") v with
      | None => full
      | Some spec =>
          match split_once 45 (trim (default [] (head (split_on 44 spec)))) with
          | None => full
          | Some (s, e) =>
              match range_bounds (trim s) (trim e) len with
              | None => full
              | Some (start, end_) => if (end_ <? start) || (len <=? start) then full else (start, end_)
              end
          end
      end
  end.

(** ** The response *)

(** What the file system says of a file. *)
Record File := mkFile {
  f_len : Z;                 (* [metadata().len()] *)
  f_mtime : Z;               (* seconds, 0 when unknown *)
  f_read : option bytes;
  f_open : option bytes;
  f_seek : bool }.

Definition MAX_STATIC : Z := 4 * 1024 * 1024.
Definition etag_suffix (e : Encoding) : bytes := match e with Br => lit "-br" | Gzip => lit "-gz" end.
(** [{:x}] of a [u64]. *)
Definition lower_hex (n : Z) : bytes := hex_acc 16 n [].
Definition etag_of (f : File) : bytes :=
  lit "W/" ++ [34] ++ lower_hex (f_len f) ++ lit "-" ++ lower_hex (f_mtime f) ++ [34].
Definition trim_end_matches (s b : bytes) : bytes := reverse (trim_with (length b) [reverse s] (reverse b)).
Definition etag_matches (inm etag : bytes) : bool :=
  existsb (fun t => beq (trim_end_matches (lit "-gz") (trim_end_matches (lit "-br") (trim t))) etag)
    (split_on 44 inm).

Definition cache_control_for (path : list bytes) : bytes :=
  if bool_decide (lit "build" ∈ path) then lit "public, max-age=31536000, immutable"
  else lit "public, max-age=3600".

(** The compressed form, when it is worth sending. *)
Definition compressed_static (path : list bytes) (f : File) (h : headers) : option (Encoding * bytes) :=
  let ct := mime_for path in
  if negb (contains_key h (lit "range")) && (f_len f <=? MAX_STATIC) && compressible ct then
    let accept := default [] (match hget h (lit "accept-encoding") with Some v => to_str v | None => None end) in
    match negotiate accept with
    | None => None
    | Some enc =>
        match f_read f with
        | None => None
        | Some data => match encode enc data with
                       | Some c => if (length c <? length data)%nat then Some (enc, c) else None
                       | None => None
                       end
        end
    end
  else None.

(** The bytes [FileBody] yields: at most [remaining], to the end of the file. *)
Definition file_body (data : bytes) (start remaining : Z) : bytes :=
  take (Z.to_nat remaining) (drop (Z.to_nat start) data).

Definition serve_static (path : list bytes) (f : File) (h : headers) : Response :=
  let len := f_len f in
  let etag := etag_of f in
  let cc := cache_control_for path in
  let not_modified :=
    match hget h (lit "if-none-match") with
    | Some v => match to_str v with Some inm => etag_matches inm etag | None => false end
    | None => false
    end in
  if not_modified then mkResponse 304 [(lit "etag", etag); (lit "cache-control", cc)] []
  else match compressed_static path f h with
  | Some (enc, c) =>
      mkResponse 200 [(lit "content-type", mime_for path); (lit "etag", etag ++ etag_suffix enc);
                      (lit "cache-control", cc); (lit "content-encoding", enc_header enc);
                      (lit "vary", lit "Accept-Encoding")] c
  | None =>
      let '(start, end_) := parse_range h len in
      let partial := contains_key h (lit "range") && (negb (start =? 0) || negb (end_ =? sat_sub64 len 1)) in
      let send_len := if len =? 0 then 0 else end_ + 1 - start in
      let base := [(lit "content-type", mime_for path); (lit "etag", etag); (lit "cache-control", cc);
                   (lit "accept-ranges", lit "bytes")] in
      let hs := if partial
                then base ++ [(lit "content-range",
                               lit "bytes " ++ to_digits start ++ lit "-" ++ to_digits end_ ++ lit "/" ++ to_digits len)]
                else base in
      match f_open f with
      | None => text 404 (lit "askr: file not found")
      | Some data =>
          if (0 <? start) && negb (f_seek f) then text 500 (lit "askr: seek failed")
          else mkResponse (if partial then 206 else 200) hs (file_body data start send_len)
      end
  end.
End Serve.

Example sanitize_traversal : sanitize (lit "//../a/./b//c.css") = [lit "a"; lit "b"; lit "c.css"].
Proof. vm_compute. reflexivity. Qed.
Example forbidden_env : static_forbidden (sanitize (lit "/.env")) = true.
Proof. vm_compute. reflexivity. Qed.
Example forbidden_upper : static_forbidden (sanitize (lit "/a/INDEX.PHP")) = true.
Proof. vm_compute. reflexivity. Qed.
Example acme_allowed : static_forbidden (sanitize (lit "/.well-known/acme-challenge/x")) = false.
Proof. vm_compute. reflexivity. Qed.
Example range_suffix : parse_range Some [(lit "range", lit "bytes=-500")] 1000 = (500, 999).
Proof. vm_compute. reflexivity. Qed.

(** ** What may be served *)

Lemma to_lower_dot x : to_lower x = 46 -> x = 46.
Proof. unfold to_lower, is_ascii_uppercase, between. case_bool; zbool; lia. Qed.

(** A name whose lower-case form ends in a dot and a dotless [e] is a stem, a dot and some
    spelling of [e]. *)
Lemma lower_split name x e :
  to_ascii_lowercase name = x ++ [46] ++ e ->
  exists y e', name = y ++ 46 :: e' /\ to_ascii_lowercase e' = e /\ length y = length x.
Proof.
  unfold to_ascii_lowercase. intros (y & r & -> & Hr & ->)%fmap_app_inv.
  destruct r as [|d e']; [done|]. cbn in Hr. injection Hr as Hd He.
  symmetry in Hd. apply to_lower_dot in Hd as ->. exists y, e'. split; [done|]. split; [done|].
  by rewrite length_fmap.
Qed.

Lemma ends_with_true b s : ends_with b s = true <-> exists x, b = x ++ s.
Proof.
  unfold ends_with. rewrite starts_with_true. split.
  - intros [r Hr]. exists (reverse r). by rewrite <- (reverse_involutive b), Hr, reverse_app, reverse_involutive.
  - intros [x ->]. exists (reverse x). by rewrite reverse_app.
Qed.

Lemma to_lower_nodot e : 46 ∉ to_ascii_lowercase e -> 46 ∉ e.
Proof.
  intros H Hin. apply H. unfold to_ascii_lowercase. apply list_elem_of_fmap. exists 46. by split.
Qed.

Lemma sources_nodot e : e ∈ SOURCES -> 46 ∉ e.
Proof.
  intros H. assert (Forall (fun e => 46 ∉ e) SOURCES) as F by (apply (bool_decide_unpack _); vm_compute; done).
  by apply (proj1 (Forall_forall _ _) F).
Qed.

(** Each clause of [static_forbidden], as what a file that is served cannot be. *)
Lemma served_not_dotted rel c : static_forbidden rel = false -> c ∈ rel -> starts_with c (lit ".") = true -> c = lit ".well-known".
Proof.
  unfold static_forbidden. destruct (existsb dotted rel) eqn:E; [done|]. intros _ Hc Hs.
  destruct (beq c (lit ".well-known")) eqn:Eb; [by apply beq_true in Eb|].
  exfalso. apply not_true_iff_false in E. apply E, existsb_exists. exists c.
  split; [by apply list_elem_of_In|]. unfold dotted. by rewrite Hs, Eb.
Qed.

Lemma served_not_source rel name e :
  static_forbidden rel = false -> last rel = Some name -> e ∈ SOURCES ->
  ends_with (to_ascii_lowercase name) ([46] ++ e) = false.
Proof.
  intros Hf Hl He. apply not_true_iff_false. intros [x Hx]%ends_with_true.
  destruct (lower_split _ _ _ Hx) as (y & e' & -> & El & _).
  assert (46 ∉ e') as Hd by (apply to_lower_nodot; rewrite El; by apply sources_nodot).
  destruct y as [|d y].
  - pose proof (served_not_dotted rel _ Hf (last_Some_elem_of _ _ Hl)) as Hw.
    cbn [Datatypes.app] in Hw. rewrite (starts_with_true _ _) in Hw.
    specialize (Hw ltac:(by exists e')). injection Hw as ->. rewrite <- El in He. revert He. by not_in.
  - unfold static_forbidden in Hf. destruct (existsb dotted rel); [done|].
    destruct (contains_sub _ _ || _); [done|]. destruct (existsb _ LEFTOVER); [done|].
    unfold extension, file_name in Hf. rewrite Hl, rposition_last in Hf by done. cbn [length] in Hf.
    apply not_true_iff_false in Hf. apply Hf, existsb_exists. exists e. split; [by apply list_elem_of_In|].
    cbn [Datatypes.app drop]. change (46 :: e') with ([46] ++ e'). rewrite app_assoc, drop_app_length' by (rewrite length_app; cbn; lia).
    rewrite El. apply beq_refl.
Qed.

Lemma served_not_leftover rel name :
  static_forbidden rel = false -> last rel = Some name ->
  contains_sub (lit ".php.") (to_ascii_lowercase name) = false
  /\ ends_with (to_ascii_lowercase name) (lit "~") = false
  /\ forall s, s ∈ LEFTOVER -> ends_with (to_ascii_lowercase name) s = false.
Proof.
  unfold static_forbidden, file_name. intros Hf Hl. rewrite Hl in Hf.
  destruct (existsb dotted rel); [done|]. cbv zeta in Hf. change (default [] (Some name)) with name in Hf.
  destruct (contains_sub (lit ".php.") _ || ends_with _ (lit "~")) eqn:E1; [done|].
  apply orb_false_iff in E1 as [E1 E2]. split; [done|]. split; [done|]. intros s Hs. destruct (existsb _ LEFTOVER) eqn:E; [done|].
  apply not_true_iff_false. intros H. apply not_true_iff_false in E. apply E, existsb_exists. exists s.
  split; [by apply list_elem_of_In|done].
Qed.

Lemma sanitize_components path c :
  c ∈ sanitize path -> c <> [] /\ c <> lit "." /\ c <> lit ".." /\ 47 ∉ c.
Proof.
  intros [(? & ? & ?) Hc]%list_elem_of_filter. repeat (split; [done|]). by eapply split_on_pieces.
Qed.

(** C30.  A request path that is served as a file names one under the document root: no component
    is empty, a dot, a double dot or holds a slash.  None is a dotfile, [.well-known] apart, and
    the file is not PHP source in any spelling of its extension, nor an editor's or a deploy's
    leftover. *)
Theorem static_confined path name :
  static_forbidden (sanitize path) = false -> last (sanitize path) = Some name ->
  Forall (fun c => c <> [] /\ c <> lit "." /\ c <> lit ".." /\ (47 ∉ c)
                   /\ (starts_with c (lit ".") = true -> c = lit ".well-known")) (sanitize path)
  /\ (forall e, e ∈ SOURCES -> ends_with (to_ascii_lowercase name) ([46] ++ e) = false)
  /\ contains_sub (lit ".php.") (to_ascii_lowercase name) = false
  /\ ends_with (to_ascii_lowercase name) (lit "~") = false
  /\ (forall s, s ∈ LEFTOVER -> ends_with (to_ascii_lowercase name) s = false).
Proof.
  intros Hf Hl. split; [|split; [intros e; by apply (served_not_source (sanitize path))|by apply (served_not_leftover (sanitize path))]].
  apply Forall_forall. intros c Hc. pose proof (sanitize_components path c Hc) as (? & ? & ? & ?).
  repeat (split; [done|]). exact (served_not_dotted (sanitize path) c Hf Hc).
Qed.

Lemma static_confined_witness :
  static_forbidden (sanitize (lit "/../assets/app.js")) = false
  /\ last (sanitize (lit "/../assets/app.js")) = Some (lit "app.js")
  /\ ends_with (to_ascii_lowercase (lit "app.js")) ([46] ++ lit "php") = false.
Proof.
  assert (static_forbidden (sanitize (lit "/../assets/app.js")) = false) as H1 by (vm_compute; reflexivity).
  assert (last (sanitize (lit "/../assets/app.js")) = Some (lit "app.js")) as H2 by (vm_compute; reflexivity).
  split; [exact H1|]. split; [exact H2|].
  destruct (static_confined (lit "/../assets/app.js") (lit "app.js") H1 H2) as (_ & H & _).
  apply H. apply (bool_decide_unpack _). vm_compute. exact I.
Defined.

(** ** What is served *)

Section Spec.
Context (to_str : bytes -> option bytes) (encode : Encoding -> bytes -> option bytes).

Lemma parse_in_range hi o n : in_range 0 hi o = Some n -> 0 <= n <= hi.
Proof. unfold in_range. destruct o; [|done]. case_bool; [|done]. intros [= <-]. zbool. lia. Qed.

Lemma range_bounds_in s e len start end_ :
  0 < len -> range_bounds s e len = Some (start, end_) -> 0 <= start /\ end_ < len.
Proof.
  intros Hl. unfold range_bounds, parse_u64, parse_unsigned.
  destruct s as [|a s], e as [|b e];
    repeat match goal with |- context [in_range ?l ?hi ?o] => destruct (in_range l hi o) eqn:? end;
    cbn; repeat case_bool; intros ?; simplify_eq;
    repeat match goal with H : in_range _ _ _ = Some _ |- _ => apply parse_in_range in H end;
    unfold sat_sub64; zbool; lia.
Qed.

(** Whatever the header, the range lies in the file. *)
Lemma parse_range_in h len :
  0 < len -> 0 <= (parse_range to_str h len).1 <= (parse_range to_str h len).2 /\ (parse_range to_str h len).2 < len.
Proof.
  intros Hl. unfold parse_range. assert (0 <= (0, sat_sub64 len 1).1 <= (0, sat_sub64 len 1).2
    /\ (0, sat_sub64 len 1).2 < len) as Hfull by (cbn; unfold sat_sub64; lia).
  destruct (Z.eqb_spec len 0); [lia|]. destruct (hget h _) as [v0|]; [|done]. destruct (to_str v0) as [v|]; [|done].
  destruct (strip_prefix _ v) as [spec|]; [|done]. destruct (split_once _ _) as [[s e]|]; [|done]. cbv zeta.
  destruct (range_bounds _ _ _) as [[start end_]|] eqn:E; [|done]. apply range_bounds_in in E; [|done].
  destruct (Z.ltb_spec end_ start); [done|]. destruct (Z.leb_spec len start); [done|]. cbn. lia.
Qed.

(** [trim_end_matches] of a suffix, once or not at all, where the rest does not end so. *)
Lemma trim_end_matches_spec s b :
  s <> [] -> ends_with b s = false ->
  trim_end_matches s (b ++ s) = b /\ trim_end_matches s b = b.
Proof.
  intros Hs Hb. unfold trim_end_matches. unfold ends_with, starts_with in Hb. apply bool_decide_eq_false in Hb.
  assert (strip_any [reverse s] (reverse b) = None) as Hn.
  { unfold strip_any. cbn. destruct (strip_prefix (reverse s) (reverse b)) eqn:E; [|done]. destruct Hb. by eexists. }
  split; [|by rewrite trim_with_None, reverse_involutive].
  rewrite reverse_app. destruct (length (b ++ s)) as [|n] eqn:El.
  { apply length_zero_iff_nil in El. by apply app_eq_nil in El as [_ ?]. }
  cbn [trim_with]. unfold strip_any at 1. cbn [omap list_omap]. rewrite strip_prefix_app. cbn [head].
  by rewrite trim_with_None, reverse_involutive.
Qed.

Lemma ends_with_last x y (a b : Z) : a <> b -> ends_with (x ++ [a]) (y ++ [b]) = false.
Proof.
  intros H. apply not_true_iff_false. intros [z Hz]%ends_with_true. rewrite app_assoc in Hz.
  by apply app_inj_tail in Hz as [_ ?].
Qed.

Definition etag_forms (f : File) : list bytes := [etag_of f; etag_of f ++ lit "-br"; etag_of f ++ lit "-gz"].

Lemma etag_trims f t :
  t ∈ etag_forms f -> trim_end_matches (lit "-gz") (trim_end_matches (lit "-br") t) = etag_of f.
Proof.
  assert (forall y b, b <> 34 -> ends_with (etag_of f) (y ++ [b]) = false) as He.
  { intros y b Hb. unfold etag_of. rewrite !app_assoc. by apply ends_with_last. }
  destruct (trim_end_matches_spec (lit "-br") (etag_of f) ltac:(done) (He (lit "-b") 114 ltac:(lia))) as [H1 H2].
  destruct (trim_end_matches_spec (lit "-gz") (etag_of f) ltac:(done) (He (lit "-g") 122 ltac:(lia))) as [H3 H4].
  assert (trim_end_matches (lit "-br") (etag_of f ++ lit "-gz") = etag_of f ++ lit "-gz") as H5.
  { apply trim_end_matches_spec; [done|]. change (lit "-gz") with (lit "-g" ++ [122]). rewrite app_assoc.
    by apply (ends_with_last _ (lit "-b") 122 114). }
  intros [->|[->|[->|[]%elem_of_nil]%elem_of_cons]%elem_of_cons]%elem_of_cons; congruence.
Qed.

Abbreviation serve := (serve_static to_str encode).

Lemma etag_sent path f h t :
  (lit "etag", t) ∈ r_headers (serve path f h) -> t ∈ etag_forms f.
Proof.
  unfold serve_static, etag_forms. cbv zeta.
  destruct (match hget h (lit "if-none-match") with Some v => _ | None => false end).
  { cbn [r_headers]. rewrite !elem_of_cons. intros [[= ->]|[|[]%elem_of_nil]]; [by left|done]. }
  destruct (compressed_static _ _ _ _ _) as [[enc c]|].
  { cbn [r_headers]. rewrite !elem_of_cons. intros [|[[= ->]|[|[|[|[]%elem_of_nil]]]]]; try done.
    destruct enc; [by right; left|by do 2 right; left]. }
  destruct (parse_range _ _ _) as [start end_]. destruct (f_open f); [|].
  - destruct (_ && negb (f_seek f)); cbn [r_headers text].
    { rewrite !elem_of_cons. by intros [|[]%elem_of_nil]. }
    intros H. assert ((lit "etag", t) ∈ [(lit "content-type", mime_for path); (lit "etag", etag_of f);
      (lit "cache-control", cache_control_for path); (lit "accept-ranges", lit "bytes")]) as H'.
    { destruct (_ && (_ || _)); [|done]. apply elem_of_app in H as [?|[=]%list_elem_of_singleton]. done. }
    rewrite !elem_of_cons in H'. destruct H' as [|[[= ->]|[|[|[]%elem_of_nil]]]]; try done. by left.
  - cbn [r_headers text]. rewrite !elem_of_cons. by intros [|[]%elem_of_nil].
Qed.

(** A validator Askr sends is a validator it honours: the [ETag] of any answer for a file,
    a compressed one's suffix included, sent back in [If-None-Match] alone or in a list, is
    answered 304 without a body for as long as the file's length and time are the same. *)
Theorem etag_revalidates path f h h' t v inm :
  (lit "etag", t) ∈ r_headers (serve path f h) ->
  hget h' (lit "if-none-match") = Some v -> to_str v = Some inm -> t ∈ trim <$> split_on 44 inm ->
  r_status (serve path f h') = 304 /\ r_body (serve path f h') = [].
Proof.
  intros Ht Hv Hs Hin. unfold serve_static. cbv zeta. rewrite Hv, Hs.
  assert (etag_matches inm (etag_of f) = true) as ->; [|done].
  apply list_elem_of_fmap in Hin as (u & -> & Hu). unfold etag_matches. apply existsb_exists.
  exists u. split; [by apply list_elem_of_In|]. rewrite (etag_trims f); [apply beq_refl|]. by eapply etag_sent.
Qed.

(** What is sent of a file whose metadata and contents agree. *)
Inductive sent (f : File) (data : bytes) (h : headers) (r : Response) : Prop :=
| not_changed : r_status r = 304 -> r_body r = [] -> sent f data h r
| no_seek : r_status r = 500 -> f_seek f = false -> sent f data h r
| squeezed enc c :
    encode enc data = Some c -> (length c < length data)%nat -> hget h (lit "range") = None ->
    r_status r = 200 -> r_body r = c -> (lit "content-encoding", enc_header enc) ∈ r_headers r ->
    sent f data h r
| whole : r_status r = 200 -> r_body r = data -> (lit "content-encoding") ∉ (r_headers r).*1 -> sent f data h r
| part s e :
    0 <= s <= e -> e < f_len f -> (s, e) <> (0, f_len f - 1) -> is_Some (hget h (lit "range")) ->
    r_status r = 206 -> r_body r = take (Z.to_nat (e + 1 - s)) (drop (Z.to_nat s) data) ->
    Z.of_nat (length (r_body r)) = e + 1 - s ->
    (lit "content-range", lit "bytes " ++ to_digits s ++ lit "-" ++ to_digits e ++ lit "/" ++ to_digits (f_len f))
      ∈ r_headers r ->
    sent f data h r.

(** Whatever the request asks, a file is answered in full, compressed to something smaller,
    or in part, and then the body is exactly the bytes its [Content-Range] names, all inside the
    file; a file of no bytes included. *)
Theorem static_answer path f h data :
  f_open f = Some data -> f_read f = Some data -> f_len f = Z.of_nat (length data) ->
  sent f data h (serve path f h).
Proof.
  intros Ho Hr Hl. unfold serve_static. cbv zeta.
  destruct (match hget h (lit "if-none-match") with Some v => _ | None => false end); [by apply not_changed|].
  destruct (compressed_static _ _ _ _ _) as [[enc c]|] eqn:Ec.
  { unfold compressed_static in Ec. destruct (_ && _) eqn:Eg; [|done]. apply andb_true_iff in Eg as [Eg _].
    apply andb_true_iff in Eg as [Eg _]. apply negb_true_iff, bool_decide_eq_false in Eg.
    destruct (negotiate _) as [enc'|]; [|done]. rewrite Hr in Ec. destruct (encode enc' data) as [c'|] eqn:Ee; [|done].
    destruct (Nat.ltb_spec (length c') (length data)); [|done]. injection Ec as -> ->.
    eapply squeezed; [done..|by apply eq_None_not_Some|done|done|]. cbn [r_headers]. do 3 right. by left. }
  destruct (parse_range to_str h (f_len f)) as [s e] eqn:Ep. rewrite Ho.
  destruct ((0 <? s) && negb (f_seek f)) eqn:Es.
  { apply andb_true_iff in Es as [_ Es%negb_true_iff]. by apply no_seek. }
  destruct (contains_key h (lit "range") && (negb (s =? 0) || negb (e =? sat_sub64 (f_len f) 1))) eqn:Epart.
  - apply andb_true_iff in Epart as [Hk Hne]. apply bool_decide_eq_true in Hk.
    destruct (Z.eqb_spec (f_len f) 0) as [E0|E0].
    { rewrite E0 in *. unfold parse_range in Ep. cbn in Ep. by injection Ep as <- <-. }
    pose proof (parse_range_in h (f_len f)) as Hin. rewrite Ep in Hin. cbn in Hin. specialize (Hin ltac:(lia)).
    eapply (part _ _ _ _ s e); cbn [r_status r_body r_headers]; [lia|lia| |done|done|done| |].
    + intros [= -> ->]. unfold sat_sub64 in Hne. rewrite Z.max_l in Hne by lia. by rewrite !Z.eqb_refl in Hne.
    + unfold file_body. rewrite length_take, length_drop. lia.
    + apply elem_of_app. right. by left.
  - apply whole; cbn [r_status r_body r_headers]; [done| |by not_in].
    assert (s = 0 /\ e = sat_sub64 (f_len f) 1) as [-> ->].
    { apply andb_false_iff in Epart as [Hk|Hne]; [|apply orb_false_iff in Hne as [H1 H2]; zbool; by split].
      apply bool_decide_eq_false, eq_None_not_Some in Hk. unfold parse_range in Ep. rewrite Hk in Ep.
      destruct (f_len f =? 0); by injection Ep as <- <-. }
    unfold file_body. cbn. rewrite drop_0. apply take_ge. unfold sat_sub64.
    destruct (Z.eqb_spec (f_len f) 0); lia.
Qed.
End Spec.

(** ** Concrete files *)

(** An encoder that never helps. *)
Definition no_encode (e : Encoding) (b : bytes) : option bytes := None.
Definition app_js : list bytes := [lit "srv"; lit "app"; lit "public"; lit "app.js"].
Definition js_file : File := mkFile 10 1700000000 (Some (lit "0123456789")) (Some (lit "0123456789")) true.
Definition wants (range : bytes) : headers := [(lit "range", range)].

Lemma etag_revalidates_witness :
  (lit "etag", etag_of js_file) ∈ r_headers (serve_static Some no_encode app_js js_file [])
  /\ r_status (serve_static Some no_encode app_js js_file
                 [(lit "if-none-match", lit "W/x, " ++ etag_of js_file)]) = 304.
Proof.
  assert ((lit "etag", etag_of js_file) ∈ r_headers (serve_static Some no_encode app_js js_file [])) as H.
  { apply (bool_decide_unpack _). vm_compute. exact I. }
  split; [exact H|].
  apply (etag_revalidates Some no_encode app_js js_file [] [(lit "if-none-match", lit "W/x, " ++ etag_of js_file)]
           (etag_of js_file) (lit "W/x, " ++ etag_of js_file) (lit "W/x, " ++ etag_of js_file) H).
  - reflexivity.
  - reflexivity.
  - apply (bool_decide_unpack _). vm_compute. exact I.
Defined.

Lemma static_answer_witness :
  f_open js_file = Some (lit "0123456789")
  /\ sent no_encode js_file (lit "0123456789") (wants (lit "bytes=2-4"))
       (serve_static Some no_encode app_js js_file (wants (lit "bytes=2-4")))
  /\ r_body (serve_static Some no_encode app_js js_file (wants (lit "bytes=2-4"))) = lit "234".
Proof.
  split; [reflexivity|]. split; [|vm_compute; reflexivity].
  apply (static_answer Some no_encode app_js js_file (wants (lit "bytes=2-4")) (lit "0123456789"));
    [reflexivity|reflexivity|vm_compute; reflexivity].
Defined.

(** "Falls back to the whole file for a missing/invalid/multi-range request": of several ranges
    the first is served, as if it had been the only one. *)
Theorem multi_range_serves_first :
  r_status (serve_static Some no_encode app_js js_file (wants (lit "bytes=0-1,5-6"))) = 206
  /\ r_body (serve_static Some no_encode app_js js_file (wants (lit "bytes=0-1,5-6"))) = lit "01".
Proof. split; vm_compute; reflexivity. Qed.

(** "Hashed build assets can be cached forever; everything else briefly": the test looks at the
    whole path, so under a document root below a directory called [build] every file is sent as
    immutable. *)
Theorem build_root_immutable :
  (lit "cache-control", lit "public, max-age=31536000, immutable")
    ∈ r_headers (serve_static Some no_encode ([lit "srv"; lit "build"; lit "public"] ++ [lit "robots.txt"]) js_file []).
Proof. apply (bool_decide_unpack _). vm_compute. exact I. Qed.
