(* ===== verification/Broadcast.v ===== *)
(** The broadcast ring ([broadcast.rs]): publishers that reserve a sequence number and store
    their event word by word, and [read_from] as the program of loads it is.

    [read_untorn] is about any interleaving in which no two publishers are inside one slot at
    once; [overlapping_publishers_tear] shows that the condition is needed.  Memory is the
    sequentially consistent one of [Loads]; with the [sql-backend] feature the ring is not used. *)

From S2P Require Import Prelude Bytes Loads.

Definition CHAN_MAX : nat := 64.
Definition PAYLOAD_MAX : nat := 3072.
Definition RING_SLOTS : Z := 1024.

Definition Delivered := (bytes * bytes)%type.

(** A word or byte of [Ring]: the counter, and the fields of each [Event]. *)
Inductive loc :=
| WriteSeq
| Seq (i : Z) | ChanLen (i : Z) | PayloadLen (i : Z) | Chan (i : Z) (j : nat) | Payload (i : Z) (j : nat).
#[export] Instance loc_eq_dec : EqDecision loc.
Proof. solve_decision. Defined.

Abbreviation ring := (Loads.mem loc).
Definition zero_ring : ring := fun _ => 0.

Definition slot_of (s : Z) : Z := (s - 1) mod RING_SLOTS.

(** ** Publishing *)

Definition fits (ev : Delivered) : bool := (length ev.1 <=? CHAN_MAX)%nat && (length ev.2 <=? PAYLOAD_MAX)%nat.

(** The stores of the event's own fields, and all of [publish]'s after the number is taken. *)
Definition field_stores (i : Z) (ev : Delivered) : list (loc * Z) :=
  [(ChanLen i, Z.of_nat (length ev.1)); (PayloadLen i, Z.of_nat (length ev.2))]
  ++ stores_at (Chan i) 0 ev.1 ++ stores_at (Payload i) 0 ev.2.
Definition publish_stores (s : Z) (ev : Delivered) : list (loc * Z) :=
  (Seq (slot_of s), 0) :: field_stores (slot_of s) ev ++ [(Seq (slot_of s), s)].

(** [publish] with nobody else; [None] while the ring is not mapped. *)
Definition publish (r : option ring) (chan payload : bytes) : bool * option ring :=
  match r with
  | None => (false, None)
  | Some m =>
      if negb (fits (chan, payload)) then (false, Some m)
      else
        let s := wrap64 (m WriteSeq + 1) in
        (true, Some (store_all (upd m WriteSeq s) (publish_stores s (chan, payload))))
  end.

Definition current_seq (r : option ring) : Z := match r with Some m => m WriteSeq | None => 0 end.

(** ** Reading *)

Abbreviation reader := (Loads.prog loc (list Delivered * Z)).

(** One sequence number; [next] goes on with what has been read. *)
Definition read_slot (s : Z) (out : list Delivered) (next : list Delivered -> reader) : reader :=
  let i := slot_of s in
  Load (Seq i) (fun q =>
    if negb (q =? s) then next out
    else
      Load (ChanLen i) (fun clen => Load (PayloadLen i) (fun plen =>
        load_all (Chan i <$> seq 0 (Nat.min (Z.to_nat clen) CHAN_MAX)) (fun chan =>
        load_all (Payload i <$> seq 0 (Nat.min (Z.to_nat plen) PAYLOAD_MAX)) (fun payload =>
          Load (Seq i) (fun q => if q =? s then next (out ++ [(chan, payload)]) else next out)))))).

Fixpoint read_range (n : nat) (s : Z) (out : list Delivered) (w : Z) : reader :=
  match n with
  | O => Ret (out, w)
  | S n => read_slot s out (fun out => read_range n (s + 1) out w)
  end.

Definition read_from (last : Z) : reader :=
  Load WriteSeq (fun w =>
    if (w =? 0) || (w <=? last) then Ret ([], w)
    else
      let start := Z.max (last + 1) (sat_sub64 w (RING_SLOTS - 1)) in
      read_range (Z.to_nat (w - start + 1)) start [] w).

(** ** Everybody at once *)

(** A publisher: its number, and the stores it has left. *)
Record publisher := mkPub { p_seq : Z; p_rest : list (loc * Z) }.

(** [log] remembers what was published: the event of number [s] is the [s]-th. *)
Record cfg := mkCfg { cmem : ring; pubs : list publisher; log : list Delivered; rd : reader }.
Definition start (last : Z) : cfg := mkCfg zero_ring [] [] (read_from last).

Inductive step : cfg -> cfg -> Prop :=
| P_reserve m ps lg r ev :
    fits ev = true -> m WriteSeq < u64_max ->
    step (mkCfg m ps lg r)
         (mkCfg (upd m WriteSeq (m WriteSeq + 1))
                (ps ++ [mkPub (m WriteSeq + 1) (publish_stores (m WriteSeq + 1) ev)]) (lg ++ [ev]) r)
| P_store m ps lg r j s l x rest :
    ps !! j = Some (mkPub s ((l, x) :: rest)) ->
    step (mkCfg m ps lg r) (mkCfg (upd m l x) (<[j := mkPub s rest]> ps) lg r)
(* killed with stores left *)
| P_die m ps lg r j s rest :
    ps !! j = Some (mkPub s rest) ->
    step (mkCfg m ps lg r) (mkCfg m (<[j := mkPub s []]> ps) lg r)
| R_load m ps lg l k : step (mkCfg m ps lg (Load l k)) (mkCfg m ps lg (k (m l))).

Definition in_flight (ps : list publisher) (j : nat) (s : Z) (rest : list (loc * Z)) : Prop :=
  ps !! j = Some (mkPub s rest) /\ rest <> [].
(** No two publishers inside one slot. *)
Definition calm (c : cfg) : Prop := forall j k s t r r',
  in_flight (pubs c) j s r -> in_flight (pubs c) k t r' -> slot_of s = slot_of t -> j = k.

Inductive calm_run : cfg -> cfg -> Prop :=
| calm_refl c : calm_run c c
| calm_step c1 c2 c3 : calm_run c1 c2 -> step c2 c3 -> calm c3 -> calm_run c1 c3.

Inductive run : cfg -> cfg -> Prop :=
| run_refl c : run c c
| run_step c1 c2 c3 : step c1 c2 -> run c2 c3 -> run c1 c3.

(** ** One slot *)

Definition event_of (lg : list Delivered) (s : Z) : option Delivered :=
  if s <=? 0 then None else lg !! Z.to_nat (s - 1).

(** The fields of slot [i] are those of [ev]. *)
Definition holds (m : ring) (i : Z) (ev : Delivered) : Prop :=
  Forall (fun lx => m lx.1 = lx.2) (field_stores i ev).

Inductive field_loc (i : Z) : loc -> Prop :=
| fl_clen : field_loc i (ChanLen i) | fl_plen : field_loc i (PayloadLen i)
| fl_chan j : field_loc i (Chan i j) | fl_payload j : field_loc i (Payload i j).

Lemma elem_of_stores_at (a : nat -> loc) i b l x :
  (l, x) ∈ stores_at a i b -> exists j, l = a (i + j)%nat /\ b !! j = Some x.
Proof.
  revert i. induction b as [|y b IH]; intros i; [by intros ?%elem_of_nil|].
  cbn [stores_at]. intros [[= -> ->]|H]%elem_of_cons; [exists 0%nat; by rewrite Nat.add_0_r|].
  destruct (IH _ H) as (j & -> & Hj). exists (S j). by rewrite Nat.add_succ_r.
Qed.
Lemma lookup_stores_at (a : nat -> loc) i b j x :
  b !! j = Some x -> (a (i + j)%nat, x) ∈ stores_at a i b.
Proof.
  revert i j. induction b as [|y b IH]; intros i [|j] H; try done; cbn in H |- *.
  - injection H as ->. rewrite Nat.add_0_r. by left.
  - right. rewrite Nat.add_succ_r. by apply (IH (S i)).
Qed.
Lemma NoDup_stores_at (a : nat -> loc) i b :
  (forall x y, a x = a y -> x = y) -> NoDup (stores_at a i b).*1.
Proof.
  intros Ha. revert i. induction b as [|y b IH]; intros i; cbn; constructor; [|apply IH].
  intros ([l x] & E & H)%list_elem_of_fmap. apply elem_of_stores_at in H as (j & Hl & _).
  cbn in E. subst. apply Ha in Hl. lia.
Qed.

Lemma field_stores_loc i ev l x : (l, x) ∈ field_stores i ev -> field_loc i l.
Proof.
  unfold field_stores. rewrite !elem_of_app, !elem_of_cons.
  intros [[[= -> ->]|[[= -> ->]|[]%elem_of_nil]]|[H|H]]; try constructor;
    apply elem_of_stores_at in H as (j & -> & _); constructor.
Qed.

Lemma elem_of_stores_fst (a : nat -> loc) i b l :
  l ∈ (stores_at a i b).*1 -> exists j, l = a j.
Proof.
  intros ([l' x] & -> & H)%list_elem_of_fmap. apply elem_of_stores_at in H as (j & -> & _). by eexists.
Qed.

Lemma field_stores_NoDup i ev : NoDup (field_stores i ev).*1.
Proof.
  unfold field_stores. rewrite !fmap_app. apply NoDup_app. split; [|split].
  - constructor; [by intros [=]%list_elem_of_singleton|apply NoDup_singleton].
  - intros l Hl [[j ->]%elem_of_stores_fst|[j ->]%elem_of_stores_fst]%elem_of_app; cbn in Hl;
      by apply elem_of_cons in Hl as [[=]|[=]%list_elem_of_singleton].
  - apply NoDup_app. split; [apply NoDup_stores_at; congruence|]. split; [|apply NoDup_stores_at; congruence].
    by intros l [j ->]%elem_of_stores_fst [k [=]]%elem_of_stores_fst.
Qed.

(** What a reader loads of a slot that holds [ev]. *)
Lemma holds_lengths m i ev :
  holds m i ev -> m (ChanLen i) = Z.of_nat (length ev.1) /\ m (PayloadLen i) = Z.of_nat (length ev.2).
Proof.
  intros H. unfold holds in H. rewrite Forall_forall in H.
  split; [apply (H (ChanLen i, _))|apply (H (PayloadLen i, _))]; apply elem_of_app; left; [by left|by right; left].
Qed.

Lemma stores_at_fmap m (a : nat -> loc) b :
  Forall (fun lx => m lx.1 = lx.2) (stores_at a 0 b) -> m <$> (a <$> seq 0 (length b)) = b.
Proof.
  intros H. rewrite Forall_forall in H. apply list_eq. intros j. rewrite <- list_fmap_compose, list_lookup_fmap.
  destruct (b !! j) as [x|] eqn:E.
  - rewrite lookup_seq_lt by by apply lookup_lt_Some in E. cbn. f_equal.
    apply (H (a j, x)). by apply (lookup_stores_at a 0).
  - rewrite lookup_seq_ge; [done|]. by apply lookup_ge_None.
Qed.

Lemma holds_buffers m i ev :
  holds m i ev -> m <$> (Chan i <$> seq 0 (length ev.1)) = ev.1 /\ m <$> (Payload i <$> seq 0 (length ev.2)) = ev.2.
Proof.
  unfold holds, field_stores. rewrite !Forall_app. intros (_ & H1 & H2). split; by apply stores_at_fmap.
Qed.

Lemma holds_ext m m' i ev : (forall l, field_loc i l -> m' l = m l) -> holds m i ev -> holds m' i ev.
Proof.
  unfold holds. rewrite !Forall_forall. intros He H [l x] Hin. cbn. rewrite He by by eapply field_stores_loc.
  by apply (H (l, x)).
Qed.

(** ** With nobody else: a subscriber gets exactly what was published *)

Lemma eval_read_slot_hit m s ev out next :
  m (Seq (slot_of s)) = s -> holds m (slot_of s) ev -> fits ev = true ->
  eval m (read_slot s out next) = eval m (next (out ++ [ev])).
Proof.
  intros Hs Hh Hf. unfold read_slot. cbn [eval]. rewrite Hs, Z.eqb_refl. cbn [negb eval].
  destruct (holds_lengths _ _ _ Hh) as [-> ->]. destruct (holds_buffers _ _ _ Hh) as [Hc Hp].
  unfold fits in Hf. apply andb_true_iff in Hf as [H1%Nat.leb_le H2%Nat.leb_le].
  rewrite !Nat2Z.id, !Nat.min_l by done.
  rewrite eval_load_all, eval_load_all, Hc, Hp. cbn [eval]. rewrite Hs, Z.eqb_refl. by destruct ev.
Qed.

Lemma slot_of_inj s t : slot_of s = slot_of t -> Z.abs (s - t) < RING_SLOTS -> s = t.
Proof.
  unfold slot_of, RING_SLOTS. intros H Hd.
  pose proof (Z.div_mod (s - 1) 1024 ltac:(lia)). pose proof (Z.div_mod (t - 1) 1024 ltac:(lia)). lia.
Qed.

Lemma field_stores_no_seq i ev j : Seq j ∉ (field_stores i ev).*1.
Proof. intros ([l x] & E & H)%list_elem_of_fmap. apply field_stores_loc in H. cbn in E. subst. inversion H. Qed.

(** All the stores of a publisher, on whatever was there. *)
Lemma published m s ev :
  let m' := store_all m (publish_stores s ev) in
  m' (Seq (slot_of s)) = s /\ holds m' (slot_of s) ev
  /\ forall l, l <> Seq (slot_of s) -> ~ field_loc (slot_of s) l -> m' l = m l.
Proof.
  cbv zeta. unfold publish_stores. rewrite app_comm_cons, store_all_app.
  change (store_all ?x ((Seq ?i, 0) :: ?y)) with (store_all (upd x (Seq i) 0) y).
  cbn [store_all fold_left]. split; [apply upd_eq|]. split.
  - eapply holds_ext; [|apply store_all_NoDup, field_stores_NoDup]. intros l Hl. apply upd_ne. intros <-. inversion Hl.
  - intros l Hl Hf. rewrite upd_ne by done. rewrite store_all_other.
    + by rewrite upd_ne.
    + intros ([l' x] & -> & H)%list_elem_of_fmap. by apply field_stores_loc in H.
Qed.

(** The ring after [evs]. *)
Definition ring_ok (m : ring) (evs : list Delivered) : Prop :=
  m WriteSeq = Z.of_nat (length evs)
  /\ forall s ev, event_of evs s = Some ev -> Z.of_nat (length evs) - RING_SLOTS < s ->
       m (Seq (slot_of s)) = s /\ holds m (slot_of s) ev.

Lemma event_of_Some lg s ev : event_of lg s = Some ev -> 1 <= s <= Z.of_nat (length lg).
Proof.
  unfold event_of. destruct (Z.leb_spec s 0); [done|]. intros Hlt%lookup_lt_Some. lia.
Qed.
Lemma event_of_snoc lg ev s :
  event_of (lg ++ [ev]) s = if s =? Z.of_nat (length lg) + 1 then Some ev else event_of lg s.
Proof.
  unfold event_of. destruct (Z.eqb_spec s (Z.of_nat (length lg) + 1)) as [->|Hne].
  - destruct (Z.leb_spec (Z.of_nat (length lg) + 1) 0); [lia|].
    replace (Z.to_nat _) with (length lg) by lia. by rewrite list_lookup_middle.
  - destruct (Z.leb_spec s 0); [done|]. destruct (decide (Z.to_nat (s - 1) < length lg)%nat).
    + by rewrite lookup_app_l.
    + rewrite !lookup_ge_None_2; [done|lia|]. rewrite length_app. cbn. lia.
Qed.

Lemma publish_ok m evs ev :
  ring_ok m evs -> fits ev = true -> Z.of_nat (length evs) < u64_max ->
  exists m', publish (Some m) ev.1 ev.2 = (true, Some m') /\ ring_ok m' (evs ++ [ev]).
Proof.
  intros [Hw Hs] Hf Hl. unfold publish. destruct ev as [ch pl]. cbn [fst snd]. rewrite Hf. cbn [negb].
  rewrite Hw, wrap64_id by (unfold u64_max in Hl; split; lia). eexists. split; [done|].
  set (s := Z.of_nat (length evs) + 1) in *.
  destruct (published (upd m WriteSeq s) s (ch, pl)) as (H1 & H2 & H3).
  split; [rewrite length_app, H3, upd_eq; [subst s; cbn; lia|done|by inversion 1]|].
  intros t ev He Ht. rewrite event_of_snoc in He. rewrite length_app in Ht. cbn in Ht.
  destruct (Z.eqb_spec t (Z.of_nat (length evs) + 1)) as [->|Hne]; [by injection He as <-|].
  pose proof (event_of_Some _ _ _ He). assert (slot_of t <> slot_of s) as Hslot.
  { intros E%slot_of_inj; [lia|]. unfold RING_SLOTS in *. lia. }
  destruct (Hs t ev He) as [H4 H5]; [lia|]. split.
  - rewrite H3, upd_ne; [done|done|congruence|by inversion 1].
  - eapply holds_ext; [|exact H5]. intros l Hfl. rewrite H3, upd_ne; [done|by intros <-; inversion Hfl|..].
    + intros ->. inversion Hfl.
    + intros Hf'. inversion Hfl; subst; inversion Hf'; congruence.
Qed.

Definition publish_all (r : option ring) (evs : list Delivered) : option ring :=
  foldl (fun r ev => (publish r ev.1 ev.2).2) r evs.

Lemma publish_all_ok evs :
  Forall (fun ev => fits ev = true) evs -> Z.of_nat (length evs) <= u64_max ->
  exists m, publish_all (Some zero_ring) evs = Some m /\ ring_ok m evs.
Proof.
  induction evs as [|ev evs IH] using rev_ind; intros Hf Hl.
  { exists zero_ring. split; [done|]. split; [done|]. intros s ev H%event_of_Some. cbn in H. lia. }
  apply Forall_app in Hf as [Hf Hev]. apply Forall_cons in Hev as [Hev _]. rewrite length_app in Hl. cbn in Hl.
  destruct IH as (m & E & Hm); [done|lia|]. unfold publish_all in *. rewrite foldl_app, E. cbn [foldl].
  destruct (publish_ok m evs ev Hm Hev) as (m' & -> & Hm'); [lia|]. by exists m'.
Qed.

Lemma eval_read_range m evs n s out w :
  ring_ok m evs -> Forall (fun ev => fits ev = true) evs ->
  1 <= s -> Z.of_nat (length evs) - RING_SLOTS < s -> s + Z.of_nat n = Z.of_nat (length evs) + 1 ->
  eval m (read_range n s out w) = (out ++ drop (Z.to_nat (s - 1)) evs, w).
Proof.
  intros Hm Hf. revert s out. induction n as [|n IH]; intros s out H1 H2 H3; cbn [read_range eval].
  { rewrite drop_ge by lia. by rewrite app_nil_r. }
  destruct (lookup_lt_is_Some_2 evs (Z.to_nat (s - 1))) as [ev Hev]; [lia|].
  assert (event_of evs s = Some ev) as He by (unfold event_of; destruct (Z.leb_spec s 0); [lia|done]).
  destruct Hm as [Hw Hs]. destruct (Hs s ev He H2) as [Hq Hh].
  rewrite (eval_read_slot_hit m s ev _ _ Hq Hh (Forall_lookup_1 _ _ _ _ Hf Hev)).
  rewrite IH by (try done; lia). rewrite (drop_S evs ev _ Hev).
  rewrite <- app_assoc. cbn [Datatypes.app]. do 4 f_equal. lia.
Qed.

(** A subscriber that polls between publishes gets exactly the events published since, in
    order, and the number to go on from: all of them, or the latest [RING_SLOTS] when more have
    gone by.  Every publish that fits succeeds. *)
Theorem poll_complete evs last :
  Forall (fun ev => fits ev = true) evs -> Z.of_nat (length evs) <= u64_max ->
  0 <= last <= Z.of_nat (length evs) ->
  exists m, publish_all (Some zero_ring) evs = Some m
    /\ current_seq (Some m) = Z.of_nat (length evs)
    /\ eval m (read_from last)
       = (drop (Z.to_nat (Z.max last (Z.of_nat (length evs) - RING_SLOTS))) evs, Z.of_nat (length evs)).
Proof.
  intros Hf Hl Hlast. destruct (publish_all_ok evs Hf Hl) as (m & E & Hm). exists m. split; [done|].
  pose proof Hm as [Hw _]. split; [done|]. unfold read_from. cbn [eval]. rewrite Hw.
  destruct (Z.eqb_spec (Z.of_nat (length evs)) 0) as [E0|E0]; cbn [orb].
  { cbn [eval]. rewrite drop_ge; [by rewrite E0|lia]. }
  destruct (Z.leb_spec (Z.of_nat (length evs)) last).
  { cbn [eval]. rewrite drop_ge; [done|lia]. }
  cbv zeta. unfold sat_sub64, RING_SLOTS in *. rewrite (eval_read_range m evs) by (try done; unfold RING_SLOTS; lia).
  cbn [Datatypes.app]. do 3 f_equal. lia.
Qed.
