(* ===== verification/BroadcastRace.v ===== *)
(** The broadcast ring under concurrency: what a reader may deliver while publishers are at work,
    and what goes wrong when two of them are inside one slot. *)

From Stdlib Require Import Sorted.
From S2P Require Import Prelude Bytes Loads Broadcast.

(** ** What the publishers keep true *)

Lemma publish_stores_loc s ev l x :
  (l, x) ∈ publish_stores s ev -> l = Seq (slot_of s) \/ field_loc (slot_of s) l.
Proof.
  unfold publish_stores. rewrite elem_of_cons, elem_of_app, list_elem_of_singleton.
  intros [[= -> ->]|[H%field_stores_loc|[= -> ->]]]; auto.
Qed.

(** [before] of a publisher's stores are done. *)
Definition progress (m : ring) (s : Z) (before : list (loc * Z)) : Prop :=
  before = [] \/ m (Seq (slot_of s)) = 0 /\ Forall (fun lx => m lx.1 = lx.2) (tail before).

Record inv (c : cfg) : Prop := {
  i_seq : cmem c WriteSeq = Z.of_nat (length (log c));
  i_slot : forall i, cmem c (Seq i) <> 0 ->
    slot_of (cmem c (Seq i)) = i
    /\ exists ev, event_of (log c) (cmem c (Seq i)) = Some ev /\ holds (cmem c) i ev;
  i_pub : forall j s rest, in_flight (pubs c) j s rest ->
    cmem c (Seq (slot_of s)) <> s
    /\ exists ev before, event_of (log c) s = Some ev /\ publish_stores s ev = before ++ rest
                         /\ progress (cmem c) s before }.

Lemma ring_inv_start last : inv (start last).
Proof. split; [done|done|]. by intros j s rest [? _]. Qed.

Lemma in_flight_insert ps j s rest k t r :
  in_flight (<[j := mkPub s rest]> ps) k t r -> (k = j /\ t = s /\ r = rest /\ rest <> []) \/ (k <> j /\ in_flight ps k t r).
Proof.
  intros [H Hr]. destruct (decide (k = j)) as [->|Hne].
  - left. destruct (decide (j < length ps)%nat).
    + rewrite list_lookup_insert_eq in H by done. injection H as <- <-. done.
    + rewrite lookup_ge_None_2 in H; [done|]. rewrite length_insert. lia.
  - right. split; [done|]. rewrite list_lookup_insert_ne in H by done. by split.
Qed.

Lemma event_of_app lg lg' s ev : event_of lg s = Some ev -> event_of (lg ++ lg') s = Some ev.
Proof. unfold event_of. destruct (s <=? 0); [done|]. intros H. by apply lookup_app_l_Some. Qed.

(** A publisher's next store, by how far it is. *)
Lemma next_store s ev before l x rest :
  publish_stores s ev = before ++ (l, x) :: rest ->
  (before = [] /\ l = Seq (slot_of s) /\ x = 0 /\ rest <> [])
  \/ (exists d, before = (Seq (slot_of s), 0) :: d /\ field_loc (slot_of s) l /\ rest <> []
        /\ (l ∉ d.*1) /\ Forall (fun lx => field_loc (slot_of s) lx.1) d)
  \/ (before = (Seq (slot_of s), 0) :: field_stores (slot_of s) ev /\ l = Seq (slot_of s) /\ x = s /\ rest = []).
Proof.
  unfold publish_stores. pose proof (field_stores_NoDup (slot_of s) ev) as Hn.
  pose proof (field_stores_loc (slot_of s) ev) as Hloc.
  revert Hn Hloc. generalize (field_stores (slot_of s) ev) as fs. intros fs Hn Hloc.
  destruct before as [|b d].
  { intros [= -> -> <-]. left. repeat (split; [done|]). by destruct fs. }
  cbn [Datatypes.app]. intros [= <- H]. right.
  destruct rest as [|r rest0 _] using rev_ind.
  - right. apply app_inj_tail in H as [<- [= -> ->]]. done.
  - left. exists d. split; [done|]. rewrite app_comm_cons, app_assoc in H.
    apply app_inj_tail in H as [H _].
    split; [apply (Hloc l x); rewrite H; apply elem_of_app; right; left|]. split; [by destruct rest0|].
    rewrite H, fmap_app in Hn. apply NoDup_app in Hn as (_ & Hn & _). split.
    + intros Hl. apply (Hn _ Hl). by left.
    + apply Forall_forall. intros [l' x'] Hd. apply (Hloc l' x'). rewrite H.
      apply elem_of_app. by left.
Qed.

Lemma field_loc_slot i j l : field_loc i l -> field_loc j l -> i = j.
Proof. intros H H'. inversion H; subst; by inversion H'. Qed.

(** A store inside one slot is nothing to another. *)
Lemma other_slot m i j l x l' :
  i <> j -> l = Seq i \/ field_loc i l -> l' = Seq j \/ field_loc j l' -> upd m l x l' = m l'.
Proof.
  intros Hij Hl Hl'. apply upd_ne. intros <-. destruct Hl as [->|Hl], Hl' as [E|Hl'].
  - congruence.
  - inversion Hl'.
  - subst. inversion Hl.
  - by pose proof (field_loc_slot _ _ _ Hl Hl').
Qed.

Lemma holds_other m i j l x ev :
  i <> j -> l = Seq i \/ field_loc i l -> holds m j ev -> holds (upd m l x) j ev.
Proof. intros Hij Hl. apply holds_ext. intros l' Hl'. eapply other_slot; eauto. Qed.

Lemma progress_other m i s l x before rest ev :
  i <> slot_of s -> l = Seq i \/ field_loc i l -> publish_stores s ev = before ++ rest -> rest <> [] ->
  progress m s before -> progress (upd m l x) s before.
Proof.
  intros Hij Hl Hp Hr [->|[H0 Hf]]; [by left|right]. split; [rewrite (other_slot m i (slot_of s)); auto|].
  destruct before as [|b d]; [done|]. cbn [tail] in *. destruct rest as [|[l' x'] rest]; [done|].
  apply next_store in Hp as [(? & _)|[(d' & [= -> <-] & _ & _ & _ & Hd)|([= -> ->] & _)]]; [done| |].
  - apply Forall_forall. intros [l1 x1] H1. cbn. rewrite (other_slot m i (slot_of s)); [|done|done|].
    + by apply (proj1 (Forall_forall _ _) Hf (l1, x1)).
    + right. by apply (proj1 (Forall_forall _ _) Hd (l1, x1)).
  - apply Forall_forall. intros [l1 x1] H1. cbn. rewrite (other_slot m i (slot_of s)); [|done|done|].
    + by apply (proj1 (Forall_forall _ _) Hf (l1, x1)).
    + right. by eapply field_stores_loc.
Qed.

(** One store by a publisher of the invariant: what it does to its own slot. *)
Lemma own_store m s ev before l x rest :
  m (Seq (slot_of s)) <> s -> publish_stores s ev = before ++ (l, x) :: rest -> progress m s before ->
  let m' := upd m l x in
  (l = Seq (slot_of s) \/ field_loc (slot_of s) l)
  /\ ((m' (Seq (slot_of s)) = 0 /\ rest <> [] /\ progress m' s (before ++ [(l, x)])
       /\ (m (Seq (slot_of s)) <> 0 -> before = []))
      \/ (m' (Seq (slot_of s)) = s /\ rest = [] /\ holds m' (slot_of s) ev /\ m (Seq (slot_of s)) = 0)).
Proof.
  intros Hne Hp Hpr m'.
  destruct (next_store _ _ _ _ _ _ Hp) as [(-> & -> & -> & Hr)|[(d & -> & Hl & Hr & Hnew & Hd)|(-> & -> & -> & ->)]].
  - split; [by left|]. left. unfold m'. rewrite upd_eq. split; [done|].
    split; [done|]. split; [|done]. right. by rewrite upd_eq.
  - split; [by right|]. left. destruct Hpr as [|[H0 Hf]]; [done|]. cbn [tail] in Hf.
    assert (m' (Seq (slot_of s)) = 0) as Hz by (unfold m'; rewrite upd_ne; [done|intros ->; inversion Hl]).
    split; [done|]. split; [done|]. split; [|done]. right. split; [done|]. cbn [Datatypes.app tail].
    apply Forall_app. split; [|constructor; [apply upd_eq|done]].
    apply Forall_forall. intros [l1 x1] H1. cbn. unfold m'. rewrite upd_ne.
    + by apply (proj1 (Forall_forall _ _) Hf (l1, x1)).
    + intros ->. apply Hnew. apply list_elem_of_fmap. by exists (l1, x1).
  - split; [by left|]. right. unfold m'. rewrite upd_eq. destruct Hpr as [|[H0 Hf]]; [done|].
    split; [done|]. split; [done|]. split; [|done]. eapply holds_ext; [|exact Hf].
    intros l' Hl'. apply upd_ne. intros <-. inversion Hl'.
Qed.

Lemma inv_reserve m ps lg r ev :
  inv (mkCfg m ps lg r) -> fits ev = true -> m WriteSeq < u64_max ->
  inv (mkCfg (upd m WriteSeq (m WriteSeq + 1))
         (ps ++ [mkPub (m WriteSeq + 1) (publish_stores (m WriteSeq + 1) ev)]) (lg ++ [ev]) r).
Proof.
  intros [Hs Hi Hp] Hf Hm. cbn [cmem pubs log] in *.
  assert (forall l, l <> WriteSeq -> upd m WriteSeq (m WriteSeq + 1) l = m l) as Hu by (intros l Hl; by apply upd_ne).
  split; cbn [cmem pubs log].
  - rewrite upd_eq, length_app. cbn. lia.
  - intros i. rewrite Hu by done. intros [H1 (e & H2 & H3)]%Hi. split; [done|]. exists e.
    split; [by apply event_of_app|]. eapply holds_ext; [|done]. intros l Hl. apply Hu. intros ->. inversion Hl.
  - intros j s rest [H Hr]. rewrite Hu by done. apply lookup_app_Some in H as [H|[Hj H]].
    + destruct (Hp j s rest (conj H Hr)) as [H1 (e & b & H2 & H3 & H4)]. split; [done|]. exists e, b.
      split; [by apply event_of_app|]. split; [done|]. destruct H4 as [?|[H4 H5]]; [by left|right].
      rewrite Hu by done. split; [done|]. destruct b as [|x b]; [done|]. cbn [tail] in *.
      apply Forall_forall. intros [l y] Hin. cbn. rewrite Hu.
      * by apply (proj1 (Forall_forall _ _) H5 (l, y)).
      * intros ->. assert ((WriteSeq, y) ∈ publish_stores s e) as Hbad.
        { rewrite H3. apply elem_of_app. left. by right. }
        apply publish_stores_loc in Hbad as [?|Hbad]; [done|inversion Hbad].
    + destruct (j - length ps)%nat; [|done]. cbn in H. injection H as <- <-. split.
      * intros E. destruct (Hi (slot_of (m WriteSeq + 1))) as [_ (e & H2%event_of_Some & _)]; rewrite E in *; lia.
      * exists ev, []. split; [|split; [done|by left]]. rewrite event_of_snoc. by rewrite <- Hs, Z.eqb_refl.
Qed.

Lemma inv_store m ps lg r j s l x rest :
  inv (mkCfg m ps lg r) -> calm (mkCfg m ps lg r) -> ps !! j = Some (mkPub s ((l, x) :: rest)) ->
  inv (mkCfg (upd m l x) (<[j := mkPub s rest]> ps) lg r).
Proof.
  intros [Hs Hi Hp] Hc Hj. unfold calm in Hc. cbn [cmem pubs log] in *.
  assert (in_flight ps j s ((l, x) :: rest)) as Hfl by done.
  destruct (Hp _ _ _ Hfl) as [Hne (ev & before & Hev & Hps & Hpr)].
  destruct (own_store m s ev before l x rest Hne Hps Hpr) as [Hl Hown]. split; cbn [cmem pubs log].
  - rewrite upd_ne; [done|]. intros ->. destruct Hl as [|Hl]; [done|inversion Hl].
  - intros i Hnz. destruct (decide (i = slot_of s)) as [->|Hi'].
    + destruct Hown as [(H0 & _)|(H0 & _ & Hh & _)]; [done|]. rewrite H0. split; [done|]. by exists ev.
    + rewrite (other_slot m (slot_of s) i) in * by auto. destruct (Hi i Hnz) as [H1 (e & H2 & H3)].
      split; [done|]. exists e. split; [done|]. by eapply holds_other; eauto.
  - intros k t rk [(-> & -> & -> & Hr)|[Hkj Hk]]%in_flight_insert.
    + destruct Hown as [(H0 & _ & Hpr' & _)|(_ & -> & _)]; [|done].
      split.
      * rewrite H0. intros <-. apply event_of_Some in Hev. lia.
      * exists ev, (before ++ [(l, x)]). split; [done|]. split; [by rewrite <- app_assoc|done].
    + destruct (decide (slot_of t = slot_of s)) as [E|E]; [by destruct Hkj; eapply Hc|].
      destruct (Hp _ _ _ Hk) as [H1 (e & b & H2 & H3 & H4)].
      rewrite (other_slot m (slot_of s) (slot_of t)) by auto. split; [done|]. exists e, b.
      split; [done|]. split; [done|]. destruct Hk as [_ Hrk]. by eapply progress_other; eauto.
Qed.

Lemma ring_inv_step c c' : step c c' -> calm c -> inv c -> inv c'.
Proof.
  intros H Hc Hi. destruct H as [m ps lg r ev Hf Hm|m ps lg r j s l x rest Hj|m ps lg r j s rest Hj|m ps lg l k].
  - by apply inv_reserve.
  - by eapply inv_store.
  - destruct Hi as [Hs Hsl Hp]. split; [done|done|]. cbn [cmem pubs log] in *.
    intros k t rk [(-> & -> & -> & Hr)|[_ Hk]]%in_flight_insert; [done|by apply (Hp k)].
  - by destruct Hi as [Hs Hsl Hp].
Qed.

(** ** One number, from the reader's side *)

Definition committed (c : cfg) (s : Z) : Prop := cmem c (Seq (slot_of s)) = s /\ s <> 0.
Definition gone (c : cfg) (s : Z) : Prop :=
  cmem c (Seq (slot_of s)) <> s /\ 1 <= s <= Z.of_nat (length (log c)) /\ forall j rest, ~ in_flight (pubs c) j s rest.

(** A committed event stays as it is until its slot is taken again, and then its number never
    comes back. *)
Lemma committed_step c c' s :
  step c c' -> calm c -> inv c -> committed c s ->
  (committed c' s /\ forall l, field_loc (slot_of s) l -> cmem c' l = cmem c l) \/ gone c' s.
Proof.
  intros H Hc Hi [Hs Hnz].
  destruct H as [m ps lg r ev Hf Hm|m ps lg r j t l x rest Hj|m ps lg r j t rest Hj|m ps lg l k];
    unfold committed, gone in *; cbn [cmem pubs log] in *; [| |by left|by left].
  - left. rewrite upd_ne by done. split; [done|]. intros l Hl. apply upd_ne. intros <-. inversion Hl.
  - destruct Hi as [_ Hsl Hp]. cbn [cmem pubs log] in *.
    assert (in_flight ps j t ((l, x) :: rest)) as Hfl by done.
    destruct (Hp _ _ _ Hfl) as [Hne (ev & before & Hev & Hps & Hpr)].
    destruct (own_store m t ev before l x rest Hne Hps Hpr) as [Hl Hown].
    destruct (decide (slot_of t = slot_of s)) as [E|E].
    + right. rewrite <- E in *. destruct Hown as [(H0 & _)|(_ & _ & _ & H0)]; [|by rewrite Hs in H0].
      rewrite H0. split; [done|]. split.
      * destruct (Hsl (slot_of t)) as [_ (e & He%event_of_Some & _)]; [by rewrite Hs|]. rewrite Hs in He. lia.
      * intros k rk [(-> & -> & _)|[_ Hk]]%in_flight_insert; [by rewrite Hs in Hne|].
        apply (Hp k) in Hk as [Hk _]. by rewrite <- E in Hk.
    + left. rewrite (other_slot m (slot_of t) (slot_of s)) by auto. split; [done|].
      intros l' Hl'. eapply other_slot; eauto.
Qed.

Lemma gone_step c c' s : step c c' -> inv c -> gone c s -> gone c' s.
Proof.
  intros H Hi (Hs & Hle & Hno).
  destruct H as [m ps lg r ev Hf Hm|m ps lg r j t l x rest Hj|m ps lg r j t rest Hj|m ps lg l k];
    unfold gone in *; cbn [cmem pubs log] in *.
  - rewrite upd_ne by done. split; [done|]. rewrite length_app. split; [lia|].
    intros k rk [[Hk|[_ Hk]]%lookup_app_Some Hr]; [by eapply (Hno k rk); split|].
    destruct Hi as [Hlen _ _]. cbn [cmem log] in Hlen. destruct (k - length ps)%nat; [|done]. cbn in Hk.
    injection Hk as E _. lia.
  - assert (in_flight ps j t ((l, x) :: rest)) as Hfl by done.
    destruct Hi as [_ _ Hp]. cbn [cmem pubs log] in *. destruct (Hp _ _ _ Hfl) as [Hne (ev & before & Hev & Hps & Hpr)].
    destruct (own_store m t ev before l x rest Hne Hps Hpr) as [Hl Hown].
    assert (t <> s) as Hts by (intros ->; by eapply Hno).
    split; [|split; [done|]].
    + destruct (decide (slot_of t = slot_of s)) as [E|E].
      * rewrite <- E in *. destruct Hown as [(H0 & _)|(H0 & _)]; rewrite H0; [lia|done].
      * by rewrite (other_slot m (slot_of t) (slot_of s)) by auto.
    + intros k rk [(-> & -> & _)|[_ Hk]]%in_flight_insert; [done|by eapply Hno].
  - split; [done|]. split; [done|].
    intros k rk [(-> & -> & -> & Hr)|[_ Hk]]%in_flight_insert; [done|by eapply Hno].
  - done.
Qed.

(** ** The reader inside one slot *)

Section Slot.
Context (s : Z) (out : list Delivered) (next : list Delivered -> reader).

(** Whatever is loaded, the last load decides between going on with or without an event. *)
Inductive fwd : reader -> Prop :=
| fwd_check k :
    (forall v, v <> s -> k v = next out) -> (exists x, k s = next (out ++ [x])) -> fwd (Load (Seq (slot_of s)) k)
| fwd_load l k : field_loc (slot_of s) l -> (forall v, fwd (k v)) -> fwd (Load l k).

(** On the fields of [m], the event would be [ev]. *)
Inductive good (m : ring) (ev : Delivered) : reader -> Prop :=
| good_check k : k s = next (out ++ [ev]) -> good m ev (Load (Seq (slot_of s)) k)
| good_load l k : field_loc (slot_of s) l -> good m ev (k (m l)) -> good m ev (Load l k).

Lemma good_ext m m' ev p :
  (forall l, field_loc (slot_of s) l -> m' l = m l) -> good m ev p -> good m' ev p.
Proof.
  intros He. induction 1 as [k Hk|l k Hl _ IH]; [by constructor|]. constructor; [done|]. by rewrite He.
Qed.

Lemma fwd_load_all a n i k :
  (forall j, field_loc (slot_of s) (a j)) -> (forall b, fwd (k b)) -> fwd (load_all (a <$> seq i n) k).
Proof.
  intros Ha. revert i k. induction n as [|n IH]; intros i k Hk; cbn; [apply Hk|].
  constructor; [done|]. intros v. apply IH. intros b. apply Hk.
Qed.
Lemma good_load_all m ev a n i k :
  (forall j, field_loc (slot_of s) (a j)) ->
  good m ev (k (m <$> (a <$> seq i n))) -> good m ev (load_all (a <$> seq i n) k).
Proof.
  intros Ha. revert i k. induction n as [|n IH]; intros i k Hk; cbn; [done|].
  constructor; [done|]. by apply IH.
Qed.
End Slot.

Lemma read_slot_enter s out next :
  exists k, read_slot s out next = Load (Seq (slot_of s)) k
    /\ (forall v, v <> s -> k v = next out)
    /\ fwd s out next (k s)
    /\ forall m ev, holds m (slot_of s) ev -> fits ev = true -> good s out next m ev (k s).
Proof.
  eexists. split; [reflexivity|]. cbv beta. split; [|rewrite Z.eqb_refl; cbn [negb]; split].
  - intros v Hv. by rewrite (proj2 (Z.eqb_neq _ _) Hv).
  - apply fwd_load; [constructor|]. intros clen. apply fwd_load; [constructor|]. intros plen.
    apply fwd_load_all; [constructor|]. intros ch. apply fwd_load_all; [constructor|]. intros pl.
    apply fwd_check; [|exists (ch, pl); by rewrite Z.eqb_refl].
    intros v Hv. by rewrite (proj2 (Z.eqb_neq _ _) Hv).
  - intros m ev Hh Hf. apply andb_true_iff in Hf as [H1%Nat.leb_le H2%Nat.leb_le].
    destruct (holds_lengths _ _ _ Hh) as [Hc Hp]. destruct (holds_buffers _ _ _ Hh) as [Hcb Hpb].
    apply good_load; [constructor|]. apply good_load; [constructor|].
    rewrite Hc, Hp, !Nat2Z.id, !Nat.min_l by done.
    apply good_load_all; [constructor|]. apply good_load_all; [constructor|]. rewrite Hcb, Hpb.
    apply good_check. rewrite Z.eqb_refl. by destruct ev.
Qed.

(** ** The reader along a run *)

(** [out] is events of strictly increasing numbers between [lo] and [hi], as published. *)
Definition delivered (lg : list Delivered) (lo hi : Z) (out : list Delivered) : Prop :=
  exists qs, Forall2 (fun q ev => event_of lg q = Some ev) qs out
    /\ StronglySorted Z.lt qs /\ Forall (fun q => lo < q < hi) qs.

Lemma delivered_nil lg lo hi : delivered lg lo hi [].
Proof. exists []. repeat constructor. Qed.
Lemma delivered_log lg lg' lo hi out : delivered lg lo hi out -> delivered (lg ++ lg') lo hi out.
Proof.
  intros (qs & H1 & H2 & H3). exists qs. split; [|by split].
  eapply Forall2_impl; [exact H1|]. intros q ev. apply event_of_app.
Qed.
Lemma delivered_hi lg lo hi hi' out : hi <= hi' -> delivered lg lo hi out -> delivered lg lo hi' out.
Proof.
  intros Hh (qs & H1 & H2 & H3). exists qs. split; [done|]. split; [done|].
  eapply Forall_impl; [exact H3|]. cbn. lia.
Qed.
Lemma delivered_snoc lg lo s out ev :
  delivered lg lo s out -> lo < s -> event_of lg s = Some ev -> delivered lg lo (s + 1) (out ++ [ev]).
Proof.
  intros (qs & H1 & H2 & H3) Hs He. exists (qs ++ [s]). split; [|split].
  - apply Forall2_app; [done|]. by repeat constructor.
  - clear H1. induction qs as [|q qs IH]; cbn; [repeat constructor|].
    apply StronglySorted_inv in H2 as [H2 Hq]. apply Forall_cons in H3 as [Hqs H3].
    constructor; [by apply IH|]. apply Forall_app. split; [done|]. constructor; [lia|done].
  - apply Forall_app. split; [|constructor; [lia|done]]. eapply Forall_impl; [exact H3|]. cbn. lia.
Qed.

Inductive rstate (c : cfg) (last : Z) : reader -> Prop :=
| rs_start : rstate c last (read_from last)
| rs_at n s out w :
    delivered (log c) last s out -> last < s -> 1 <= s -> w <= Z.of_nat (length (log c)) ->
    s + Z.of_nat n = w + 1 -> rstate c last (read_range n s out w)
| rs_in n s out w p :
    delivered (log c) last s out -> last < s -> 1 <= s -> w <= Z.of_nat (length (log c)) ->
    s + Z.of_nat (S n) = w + 1 ->
    fwd s out (fun out => read_range n (s + 1) out w) p ->
    (committed c s /\ (exists ev, event_of (log c) s = Some ev
        /\ good s out (fun out => read_range n (s + 1) out w) (cmem c) ev p)) \/ gone c s ->
    rstate c last p
| rs_empty w : w <= Z.of_nat (length (log c)) -> rstate c last (Ret ([], w)).

Definition rok (c : cfg) (last : Z) : Prop :=
  inv c /\ Forall (fun ev => fits ev = true) (log c) /\ rstate c last (rd c).

(** A step of a publisher leaves the reader where it is. *)
Lemma rstate_publisher c c' last :
  step c c' -> calm c -> inv c -> rd c' = rd c -> (exists more, log c' = log c ++ more) ->
  rstate c last (rd c) -> rstate c' last (rd c').
Proof.
  intros Hs Hc Hi -> [more El] H.
  assert (Z.of_nat (length (log c)) <= Z.of_nat (length (log c'))) as Hle by (rewrite El, length_app; lia).
  destruct H as [|n s out w H1 H2 H3 H4 H5|n s out w p H1 H2 H3 H4 H5 Hf Hg|w H1].
  - constructor.
  - constructor; [|done|done|lia|done]. rewrite El. by apply delivered_log.
  - eapply rs_in; [|done|done| |done|done|]; [rewrite El; by apply delivered_log|lia|].
    destruct Hg as [[Hcm (ev & He & Hg)]|Hg]; [|right; by eapply gone_step].
    destruct (committed_step c c' s Hs Hc Hi Hcm) as [[Hcm' Hl]|Hg']; [left|by right].
    split; [done|]. exists ev. split; [rewrite El; by apply event_of_app|]. by eapply good_ext.
  - apply rs_empty. lia.
Qed.

(** A load. *)
Lemma rstate_load m ps lg l k p last :
  0 <= last -> inv (mkCfg m ps lg (Load l k)) -> Forall (fun ev => fits ev = true) lg ->
  rstate (mkCfg m ps lg (Load l k)) last p -> p = Load l k ->
  rstate (mkCfg m ps lg (k (m l))) last (k (m l)).
Proof.
  intros Hlast [Hlen Hsl _] Hfits H. cbn [cmem log] in *.
  destruct H as [|n s out w H1 H2 H3 H4 H5|n s out w p H1 H2 H3 H4 H5 Hf Hg|]; intros E; [| | |done].
  - unfold read_from in E. injection E as <- <-. rewrite Hlen.
    destruct (Z.eqb_spec (Z.of_nat (length lg)) 0); cbn [orb]; [by apply rs_empty|].
    destruct (Z.leb_spec (Z.of_nat (length lg)) last); [by apply rs_empty|]. cbv zeta. unfold sat_sub64, RING_SLOTS.
    apply rs_at; [apply delivered_nil|lia|lia|done|lia].
  - destruct n as [|n]; [done|]. cbn [read_range] in E.
    destruct (read_slot_enter s out (fun out => read_range n (s + 1) out w)) as (k' & Ek & Hno & Hfw & Hgo).
    rewrite Ek in E. injection E as <- <-. destruct (decide (m (Seq (slot_of s)) = s)) as [Es|Es].
    + rewrite Es. eapply rs_in; [done..|exact Hfw|]. left. split; [split; [done|lia]|].
      destruct (Hsl (slot_of s)) as [_ (ev & He & Hh)]; [lia|]. rewrite Es in He. exists ev. split; [done|].
      apply Hgo; [done|]. unfold event_of in He. destruct (s <=? 0); [done|]. exact (Forall_lookup_1 _ _ _ _ Hfits He).
    + rewrite Hno by done. apply rs_at; [|lia|lia|done|lia]. eapply delivered_hi; [|done]. lia.
  - subst p. inversion Hf as [k0 Hno [x Hx] El|l0 k0 Hl Hall El]; subst.
    + destruct (decide (m (Seq (slot_of s)) = s)) as [Es|Es].
      * rewrite Es. destruct Hg as [[_ (ev & He & Hg)]|[Hg _]]; [|done].
        inversion Hg as [k1 Hk E1|l1 k1 Hl1 _ E1]; subst; [|inversion Hl1]. rewrite Hk.
        apply rs_at; [by apply delivered_snoc|lia|lia|done|lia].
      * rewrite Hno by done. apply rs_at; [|lia|lia|done|lia].
        eapply delivered_hi; [|done]. lia.
    + eapply rs_in; [done..|apply Hall|]. destruct Hg as [[Hcm (ev & He & Hg)]|Hg]; [left|by right].
      split; [done|]. exists ev. split; [done|]. inversion Hg as [k1 _ E1|l1 k1 _ Hg1 E1]; subst; [inversion Hl|done].
Qed.

Lemma calm_start last : calm (start last).
Proof. by intros j k s t r r' [? _]. Qed.

Lemma rok_run last c : 0 <= last -> calm_run (start last) c -> rok c last /\ calm c.
Proof.
  intros Hl. remember (start last) as c0 eqn:E. induction 1 as [c|c1 c2 c3 Hr IH Hs Hc]; subst.
  { split; [|apply calm_start]. split; [apply ring_inv_start|]. split; [done|constructor]. }
  destruct (IH eq_refl) as [(Hi & Hf & Hrs) Hcalm]. split; [|done]. split; [by eapply ring_inv_step|].
  destruct Hs as [m ps lg r ev Hev Hm|m ps lg r j s l x rest Hj|m ps lg r j s rest Hj|m ps lg l k];
    cbn [log rd] in *; (split; [try done; apply Forall_app; by repeat constructor|]).
  - eapply rstate_publisher in Hrs; [exact Hrs|by apply P_reserve|done..|by exists [ev]].
  - eapply rstate_publisher in Hrs; [exact Hrs|by eapply P_store|done..|exists []; by rewrite app_nil_r].
  - eapply rstate_publisher in Hrs; [exact Hrs|by eapply P_die|done..|exists []; by rewrite app_nil_r].
  - by eapply rstate_load.
Qed.

Lemma rstate_ret c last p out w :
  rstate c last p -> p = Ret (out, w) -> w <= Z.of_nat (length (log c)) /\ delivered (log c) last (w + 1) out.
Proof.
  destruct 1 as [|n s out' w' H1 H2 H3 H4 H5|n s out' w' p H1 H2 H3 H4 H5 Hf _|w' H1]; intros E; [done|..].
  - destruct n; [|done]. injection E as <- <-. split; [done|]. by replace (w' + 1) with s by lia.
  - subst. inversion Hf.
  - injection E as <- <-. split; [done|apply delivered_nil].
Qed.

(** C31.  No event is delivered torn: whatever publishers do, die half-way included, as long as no
    two are inside one slot at once, a reader that started from [last] returns events exactly as
    they were published, under strictly increasing numbers after [last] and up to the number it
    returns. *)
Theorem read_untorn last c out w :
  0 <= last -> calm_run (start last) c -> rd c = Ret (out, w) ->
  w <= Z.of_nat (length (log c)) /\ delivered (log c) last (w + 1) out.
Proof. intros Hl Hr Hd. destruct (rok_run last c Hl Hr) as [(_ & _ & Hs) _]. by eapply rstate_ret. Qed.

(** ** Runs *)

Lemma one_calm c : (length (pubs c) <= 1)%nat -> calm c.
Proof. intros Hl j k s t r r' [Hj%lookup_lt_Some _] [Hk%lookup_lt_Some _] _. lia. Qed.

Lemma run_trans c1 c2 c3 : run c1 c2 -> run c2 c3 -> run c1 c3.
Proof. induction 1; [done|]. intros. eapply run_step; eauto. Qed.

Lemma run_stores m ps s ws qs lg r :
  run (mkCfg m (ps ++ mkPub s ws :: qs) lg r) (mkCfg (store_all m ws) (ps ++ mkPub s [] :: qs) lg r).
Proof.
  revert m. induction ws as [|[l x] ws IH]; intros m; [constructor|].
  eapply run_step; [apply (P_store _ _ _ _ (length ps)); by rewrite list_lookup_middle|].
  rewrite insert_app_r_alt, Nat.sub_diag by done. cbn [insert list_insert]. apply IH.
Qed.

Lemma run_eval m ps lg p : run (mkCfg m ps lg p) (mkCfg m ps lg (Ret (eval m p))).
Proof. induction p as [r|l k IH]; [constructor|]. eapply run_step; [apply R_load|]. apply IH. Qed.

(** One publisher from start to end, among others that stand still. *)
Lemma run_publish m ps lg r ev :
  fits ev = true -> m WriteSeq < u64_max ->
  run (mkCfg m ps lg r)
    (mkCfg (store_all (upd m WriteSeq (m WriteSeq + 1)) (publish_stores (m WriteSeq + 1) ev))
       (ps ++ [mkPub (m WriteSeq + 1) []]) (lg ++ [ev]) r).
Proof. intros. eapply run_step; [by apply P_reserve|]. apply run_stores. Qed.

Definition nothing : Delivered := ([], []).

(** [n] of them, none on slot 0. *)
Lemma run_publishes n m ps lg r :
  1 <= m WriteSeq -> m WriteSeq + Z.of_nat n <= RING_SLOTS ->
  exists m' ps', run (mkCfg m ps lg r) (mkCfg m' (ps ++ ps') (lg ++ replicate n nothing) r)
    /\ m' WriteSeq = m WriteSeq + Z.of_nat n
    /\ forall l, l = Seq 0 \/ field_loc 0 l -> m' l = m l.
Proof.
  intros H1 Hn. induction n as [|n IH].
  { exists m, []. rewrite !app_nil_r. split; [constructor|]. split; [lia|done]. }
  destruct IH as (m' & ps' & Hr & Hw & Hk); [lia|]. unfold RING_SLOTS in Hn.
  set (s := m' WriteSeq + 1).
  destruct (published (upd m' WriteSeq s) s nothing) as (_ & _ & Hk').
  assert (slot_of s <> 0) as Hs by (unfold slot_of, RING_SLOTS, s; rewrite Z.mod_small; lia).
  eexists _, (ps' ++ [mkPub s []]). split.
  { rewrite replicate_S_end, !app_assoc. eapply run_trans; [exact Hr|].
    apply run_publish; [done|unfold u64_max, W64; lia]. }
  fold s. split; [rewrite Hk', upd_eq; [lia|done|by inversion 1]|]. intros l Hl. rewrite Hk', upd_ne; [by apply Hk|..].
  - intros <-. destruct Hl as [?|Hl]; [done|inversion Hl].
  - intros ->. destruct Hl as [[= E]|Hl]; [done|inversion Hl].
  - intros Hf. destruct Hl as [->|Hl]; [inversion Hf|]. by apply Hs, (field_loc_slot _ _ l).
Qed.

(** "Collisions only N apart, caught by the reader's seqlock" does not hold while a publisher is
    stopped inside its slot: after a ring's worth of other events the slot is written again, the
    first publisher goes on storing under the second one's number, and a reader takes a mixture of
    the two events, although every publish was accepted and none has failed. *)
Theorem overlapping_publishers_tear : exists c,
  run (start 1024) c
  /\ rd c = Ret ([(lit "a", lit "b")], 1025) /\ (lit "a", lit "b") ∉ log c.
Proof.
  set (e1 := (lit "a", lit "a")). set (e2 := (lit "b", lit "b")).
  set (r := read_from 1024).
  set (m1 := store_all (upd zero_ring WriteSeq 1) (take 3 (publish_stores 1 e1))).
  set (p1 := mkPub 1 (drop 3 (publish_stores 1 e1))).
  assert (run (start 1024) (mkCfg m1 [p1] [e1] r)) as R1.
  { eapply run_step; [by apply (P_reserve zero_ring [] [] r e1)|].
    do 3 (eapply run_step; [by eapply (P_store _ _ _ _ 0)|]). apply run_refl. }
  destruct (run_publishes 1023 m1 [p1] [e1] r) as (m2 & ps & R2 & Hw & Hk); [done|done|].
  assert (m2 WriteSeq = 1024) as Hw2 by (rewrite Hw; done).
  pose proof (run_publish m2 ([p1] ++ ps) ([e1] ++ replicate 1023 nothing) r e2 eq_refl ltac:(by rewrite Hw2)) as R3.
  rewrite Hw2 in R3. set (m3 := store_all _ _) in R3.
  eexists. split; [|split].
  { eapply run_trans; [exact R1|]. eapply run_trans; [exact R2|]. eapply run_trans; [exact R3|].
    eapply run_step; [by eapply (P_store _ _ _ _ 0 1 (Chan 0 0) 97)|]. apply run_eval. }
  2:{ cbn [log]. rewrite !elem_of_app, !list_elem_of_singleton. intros [[[=]|[H _]%elem_of_replicate]|[=]]. done. }
  reflexivity.
Qed.

Lemma calm_run_cons c1 c2 c3 : step c1 c2 -> (length (pubs c2) <= 1)%nat -> calm_run c2 c3 -> calm_run c1 c3.
Proof.
  intros Hs Hl H. induction H as [c|c2 c c3 H IH Hs' Hc]; [|eapply calm_step; eauto].
  eapply calm_step; [apply calm_refl|done|by apply one_calm].
Qed.

Ltac store_by j := eapply calm_run_cons; [by apply (P_store _ _ _ _ j); reflexivity|cbn; lia|].
Ltac load := eapply calm_run_cons; [apply R_load|cbn; lia|].

(** "Events older than a full ring are dropped", and so is a young one: the number a reader returns
    counts events that are reserved but not yet committed, it passes over them, and nothing looks
    at them again.  Here the publish completes, the event stays in the ring for any reader that
    asks from 0, and the subscriber that polled at the wrong moment never sees it. *)
Theorem reserved_event_lost : exists c ev,
  calm_run (start 0) c /\ rd c = Ret ([], 1) /\ log c = [ev] /\ (forall j s rest, ~ in_flight (pubs c) j s rest)
  /\ eval (cmem c) (read_from 0) = ([ev], 1) /\ eval (cmem c) (read_from 1) = ([], 1).
Proof.
  set (ev := (lit "a", lit "b")). eexists _, ev. split; [|split; [|split; [|split]]].
  { eapply calm_run_cons; [by apply (P_reserve zero_ring [] [] _ ev)|cbn; lia|].
    do 2 load. do 6 store_by O. apply calm_refl. }
  - reflexivity.
  - reflexivity.
  - intros [|j] s rest [H Hr]; cbn in H; [by injection H as <- <-|done].
  - split; reflexivity.
Qed.

(** The run behind a delivery. *)
Lemma read_untorn_witness : exists c,
  calm_run (start 0) c /\ rd c = Ret ([(lit "a", lit "b")], 1) /\ delivered (log c) 0 2 [(lit "a", lit "b")].
Proof.
  assert (exists m ps, calm_run (start 0) (mkCfg m ps [(lit "a", lit "b")] (Ret ([(lit "a", lit "b")], 1)))) as (m & ps & Hr).
  { eexists _, _. eapply calm_run_cons; [by apply (P_reserve zero_ring [] [] _ (lit "a", lit "b"))|cbn; lia|].
    do 6 store_by O. do 7 load. apply calm_refl. }
  eexists. split; [exact Hr|]. split; [reflexivity|].
  exact (proj2 (read_untorn 0 _ _ _ ltac:(lia) Hr eq_refl)).
Defined.

Lemma poll_complete_witness :
  Forall (fun ev => fits ev = true) [(lit "orders", lit "1"); (lit "chat", lit "hi")]
  /\ exists m, publish_all (Some zero_ring) [(lit "orders", lit "1"); (lit "chat", lit "hi")] = Some m
       /\ eval m (read_from 1) = ([(lit "chat", lit "hi")], 2).
Proof.
  assert (Forall (fun ev => fits ev = true) [(lit "orders", lit "1"); (lit "chat", lit "hi")]) as H by (by repeat constructor).
  split; [exact H|].
  destruct (poll_complete [(lit "orders", lit "1"); (lit "chat", lit "hi")] 1 H) as (m & E & _ & Hr);
    [by vm_compute|by vm_compute|].
  exists m. split; [exact E|]. rewrite Hr. reflexivity.
Defined.
