(* ===== verification/Server.v ===== *)
(** One request from its headers to its response ([handle] of [server/mod.rs], [esi_fragment] of
    [server/esi.rs], the background refresh of [server/cache_policy.rs]): the components composed.

    What the handler shares with other requests and processes is the [World].  PHP is a function
    of the requests it has run and the one it is given; the file system, the WebSocket, SSE and
    Pusher endpoints and the multipart parser are parameters, as is what happens elsewhere while a
    follower waits.  Within one call the clocks stand still: [now] in seconds, [now_ms] for the
    rate limiter.  The explain trace, telemetry, traffic log, shadow mirror and recording do not
    change an answer and are left out. *)

From S2P Require Import Prelude Bytes Ns Glob RCache Coalesce RateLimit Http Compress Trust Cgi.
From S2P Require Import CachePolicy Esi Statics.

(** ** Configuration *)

(** [struct RedirectRule], [struct RateLimitRule] ([config.rs]) and [struct Site]. *)
Record RedirectRule := mkRedirect { rd_from : bytes; rd_to : bytes; rd_status : Z }.
Record RateLimitRule := mkLimit { rl_path : bytes; rl_limit : Z; rl_window : Z; rl_by : bytes; rl_burst : Z }.
Record Site := mkSite { hosts : list bytes; site_docroot : bytes; site_front : bytes }.

(** [server::Config], as far as a request reads it; the cache settings are [CachePolicy]'s. *)
Record Settings := mkSettings {
  cfg : Config;
  s_docroot : bytes; s_front : bytes; s_sites : list Site;
  listen_port : Z; tls : bool; force_https : bool;
  redirects : list RedirectRule; ratelimits : list RateLimitRule;
  max_body_size : Z; worker_script : bool }.

(** Match a Host against a pattern: exact, or [*.suffix]. *)
Definition host_matches (host pattern : bytes) : bool :=
  match strip_prefix (lit "*.") pattern with
  | Some suffix => beq host suffix || ends_with host (lit "." ++ suffix)
  | None => eq_ignore_ascii_case host pattern
  end.

Definition site_for (s : Settings) (host : bytes) : bytes * bytes :=
  match head (filter (fun st => existsb (host_matches host) (hosts st) = true) (s_sites s)) with
  | Some st => (site_docroot st, site_front st)
  | None => (s_docroot s, s_front s)
  end.

(** [Path::join] of a relative path, and the components of a document root. *)
Definition join_path (d f : bytes) : bytes := if ends_with d (lit "/") then d ++ f else d ++ lit "/" ++ f.
Definition components (d : bytes) : list bytes := sanitize d.

(** ** Redirects *)

Definition redirect_to (location : bytes) (status : Z) : Response :=
  mkResponse (if between 100 999 status then status else 308)
    [(lit "location", location); (lit "content-length", lit "0")] [].

(** ** What PHP can answer *)

Inductive Reply :=
| Buffered (r : PhpResponse)
| Stream (status : Z) (h : list header) (body : bytes)
| Failed (e : bytes).

(** What [upload::parse] makes of a multipart body in worker mode. *)
Inductive Upload := Parsed | TooLargeUpload | BadUpload (e : bytes).

(** A refresh that was spawned and has not run ([spawn_swr_refresh]). *)
Record Refresh := mkRefresh {
  f_key : bytes; f_method : bytes; f_path : bytes; f_query : option bytes; f_authority : option bytes;
  f_host : bytes; f_accept : bytes; f_agent : bytes; f_peer : IpAddr; f_port : Z }.

(** ** The shared state *)

Record World := mkWorld {
  rc : option rcache;
  inflight : option (list Inflight);
  buckets : option RateLimit.table;
  saint : Z;                          (* [SAINT_UNTIL] *)
  names : Ns.state;
  ran : list PhpRequest;              (* what PHP has been given, oldest first *)
  spawned : list Refresh }.

Definition set_rc (w : World) (r : option rcache) : World :=
  mkWorld r (inflight w) (buckets w) (saint w) (names w) (ran w) (spawned w).
Definition set_inflight (w : World) (t : option (list Inflight)) : World :=
  mkWorld (rc w) t (buckets w) (saint w) (names w) (ran w) (spawned w).
Definition set_buckets (w : World) (t : option RateLimit.table) : World :=
  mkWorld (rc w) (inflight w) t (saint w) (names w) (ran w) (spawned w).
Definition set_saint (w : World) (u : Z) : World :=
  mkWorld (rc w) (inflight w) (buckets w) u (names w) (ran w) (spawned w).
Definition add_ran (w : World) (q : PhpRequest) : World :=
  mkWorld (rc w) (inflight w) (buckets w) (saint w) (names w) (ran w ++ [q]) (spawned w).
Definition add_spawned (w : World) (f : Refresh) : World :=
  mkWorld (rc w) (inflight w) (buckets w) (saint w) (names w) (ran w) (spawned w ++ [f]).

(** ** Libraries, services and the other handlers *)

Class Env := {
  to_str : bytes -> option bytes;               (* [HeaderValue::to_str] *)
  valid_header : bytes * bytes -> bool;
  parse_uri : bytes -> option (bytes * option bytes * option bytes);  (* path, query, authority *)
  encode : Encoding -> bytes -> option bytes;
  hash_key : bytes -> Z;
  app_path : bytes -> bytes;
  php : list PhpRequest -> PhpRequest -> Reply;
  fs : bytes -> list bytes -> option File;      (* by document root: a regular file there *)
  ws_upgrade : Request -> option Response;      (* [/app/{key}] with an upgrade *)
  sse : Request -> option Response;             (* [GET /askr/events] *)
  pusher_trigger : Request -> bytes -> option Response;
  is_multipart : bytes -> bool;
  upload : bytes -> bytes -> Upload;            (* content type and body *)
  admin_token : option bytes;
  http_version : bytes }.

Section Handle.
Context `{E : Env} (s : Settings) (now now_ms : Z).

(** ** Rate limiting *)

(** The first cookie of the name, over every [Cookie] field. *)
Definition cookie_value (req : Request) (name : bytes) : option bytes :=
  let pairs := omap (split_once 61) (concat (split_on 59 <$> omap to_str (get_all (fields req) (lit "cookie")))) in
  (fun kv => trim kv.2) <$> head (filter (fun kv => trim kv.1 = name) pairs).

Definition identity_of (by_ : bytes) (req : Request) (peer : IpAddr) : bytes :=
  if beq by_ (lit "ip") then ip_to_string (client_ip_from to_str (fields req) peer (trusted_proxies (cfg s)))
  else match strip_prefix (lit "header:") by_ with
  | Some name => default [] (hget_str to_str (fields req) (to_ascii_lowercase name))
  | None => match strip_prefix (lit "cookie:") by_ with
            | Some name => default [] (cookie_value req name)
            | None => []
            end
  end.

(** The first rule whose glob matches, with its index. *)
Fixpoint find_rule (i : nat) (rules : list RateLimitRule) (path : bytes) : option (nat * RateLimitRule) :=
  match rules with
  | [] => None
  | r :: rules => if glob_match (rl_path r) path then Some (i, r) else find_rule (S i) rules path
  end.

Definition too_many (rule : RateLimitRule) (v : Verdict) : Response :=
  mkResponse 429
    [(lit "retry-after", to_digits (retry_after v)); (lit "x-ratelimit-limit", to_digits (rl_limit rule));
     (lit "x-ratelimit-remaining", to_digits (remaining v));
     (lit "content-type", lit "text/plain; charset=utf-8")]
    (lit "429 Too Many Requests" ++ [10]).

Definition ratelimit_check (w : World) (req : Request) (peer : IpAddr) : option Response * World :=
  if bool_decide (ratelimits s = []) || bool_decide (buckets w = None) then (None, w)
  else if starts_with (path req) (lit "/askr/") then (None, w)
  else match find_rule 0 (ratelimits s) (path req) with
  | None => (None, w)
  | Some (idx, rule) =>
      let identity := identity_of (rl_by rule) req peer in
      if beq identity [] then (None, w)
      else
        let key := to_digits (Z.of_nat idx) ++ [0] ++ identity in
        let '(v, b) := RateLimit.check hash_key (buckets w) key (rl_limit rule) (rl_window rule) (rl_burst rule) now_ms in
        (if allowed v then None else Some (too_many rule v), set_buckets w b)
  end.

(** ** Redirects *)

Definition redirect_target (req : Request) (host : bytes) : option Response :=
  let pq := path_and_query req in
  let secure := tls s || https (cfg s)
                || match hget_str to_str (fields req) (lit "x-forwarded-proto") with
                   | Some v => eq_ignore_ascii_case v (lit "https")
                   | None => false
                   end in
  if force_https s && negb (beq host []) && negb secure
  then Some (redirect_to (lit "https://" ++ host ++ pq) 308)
  else match head (filter (fun r => host_matches host (rd_from r) = true) (redirects s)) with
  | Some rule => Some (redirect_to (trim_end_matches (lit "/") (rd_to rule) ++ pq) (rd_status rule))
  | None => None
  end.

(** ** PHP *)

Definition run_php (w : World) (q : PhpRequest) : Reply * World := (php (ran w) q, add_ran w q).

(** [ns::for_docroot]; the memo it fills changes no answer. *)
Definition app_of (w : World) (docroot : bytes) : App :=
  match for_docroot app_path (names w) docroot with Some (a, _) => a | None => mkApp [] end.

Definition context (w : World) (docroot front : bytes) (peer : IpAddr) (port : Z) : Context :=
  mkContext docroot (join_path docroot front) (lit "/" ++ front) peer port (https (cfg s)) (listen_port s)
    (trusted_proxies (cfg s)) http_version now (as_str (app_of w docroot)).

Definition php_request (w : World) (req : Request) (body docroot front : bytes) (peer : IpAddr) (port : Z) : PhpRequest :=
  build_request to_str req body (context w docroot front peer port).

Abbreviation key_of := (response_cache_key to_str).
Abbreviation cached := (cached_response valid_header).
Definition get_at (r : option rcache) (k : bytes) := RCache.get hash_key r k now.
Definition peek_at (r : option rcache) (k : bytes) := RCache.peek hash_key r k now.

Definition store_reply (w : World) (key : bytes) (resp : PhpResponse) (accept : bytes) (rule : option CacheRule)
    (docroot : bytes) (h : headers) : StoreVerdict * World :=
  let '(v, r) := maybe_store to_str encode hash_key (rc w) key resp accept (cache_vary_user_agent (cfg s)) rule
                   (app_of w docroot) h now in
  (v, set_rc w r).

(** ** Fragments *)

Definition esi_fragment (host docroot front : bytes) (peer : IpAddr) (port : Z) (w : World) (src : bytes)
    : option bytes * World :=
  if negb (safe_src src) then (None, w)
  else match parse_uri src with
  | None => (None, w)
  | Some (p, q, auth) =>
      if negb (valid_header (lit "host", host)) then (None, w)
      else
        let req := mkRequest (lit "GET") p q auth [(lit "host", host)] in
        let '(refused, w) := ratelimit_check w req peer in
        if bool_decide (is_Some refused) then (None, w)
        else
          let key := if RCache.enabled (rc w) then Some (key_of req host (cfg s)) else None in
          let '(hit, w) := match key with
                           | Some k => let '(c, r) := get_at (rc w) k in (c, set_rc w r)
                           | None => (None, w)
                           end in
          match hit with
          | Some c => (Some (c_body c), w)
          | None =>
              let '(reply, w) := run_php w (php_request w req [] docroot front peer port) in
              match reply with
              | Buffered resp =>
                  if p_status resp =? 200 then
                    let w := match key with
                             | Some k => (store_reply w k resp [] (cache_rule_for (before 63 src) (cache_rules (cfg s)))
                                            docroot (fields req)).2
                             | None => w
                             end in
                    (Some (p_body resp), w)
                  else (None, w)
              | Stream _ _ _ | Failed _ => (None, w)
              end
          end
  end.

Definition expand (w : World) (host docroot front : bytes) (peer : IpAddr) (port : Z) (body : bytes) : bytes * World :=
  esi_expand (esi_fragment host docroot front peer port) w body.

(** ** Building the response *)

Definition framing (name : bytes) : bool :=
  existsb (eq_ignore_ascii_case name) [lit "content-length"; lit "transfer-encoding"; lit "askr-cache"; lit "askr-esi"].

(** The last [Content-Type] of the response, as it decides on compression. *)
Definition last_content_type (h : list header) : bytes :=
  default [] (snd <$> last (filter (fun kv => eq_ignore_ascii_case kv.1 (lit "content-type") = true) h)).

Definition build_response (resp : PhpResponse) (cache_state : option bytes) (accept : bytes) : Response :=
  let h := filter (fun kv => framing kv.1 = false) (p_headers resp) in
  let h := h ++ match cache_state with Some st => [(lit "X-Askr-Cache", st)] | None => [] end in
  match maybe encode (p_body resp) (last_content_type (filter (fun kv => framing kv.1 = false) (p_headers resp))) accept with
  | Some (enc, compressed) =>
      build valid_header (p_status resp)
        (h ++ [(lit "content-encoding", enc_header enc); (lit "vary", lit "Accept-Encoding")]) compressed
  | None => build valid_header (p_status resp) h (p_body resp)
  end.

Definition stream_response (status : Z) (h : list header) (body : bytes) : Response :=
  let h := filter (fun kv => framing kv.1 = false) h in
  if forallb valid_header h
  then mkResponse (status_ok status) ((fun '(k, v) => (to_ascii_lowercase k, v)) <$> h) body
  else text 500 (lit "askr: bad stream response").

(** A cached page on its way out: fragments are assembled now. *)
Definition serve_cached (w : World) (c : Cached) (host docroot front : bytes) (peer : IpAddr) (port : Z) (accept : bytes)
    : Response * World :=
  if esi_requested (c_headers c) && has_tags (c_body c) then
    let '(body, w) := expand w host docroot front peer port (c_body c) in
    (build_response (mkPhp (c_status c) (c_headers c) body)
       (Some (if c_stale c then lit "STALE" else lit "HIT")) accept, w)
  else (cached c, w).

(** ** The background refresh *)

Definition spawn_swr_refresh (w : World) (key : bytes) (req : Request) (peer : IpAddr) (port : Z) : World :=
  let '(lead, t) := begin hash_key (inflight w) key now in
  let w := set_inflight w t in
  match lead with
  | Follower => w
  | Leader =>
      let h name := default [] (hget_str to_str (fields req) name) in
      add_spawned w
        (mkRefresh key (method req) (path req) (query req) (authority req)
           (default [] (effective_host to_str req)) (h (lit "accept-encoding"))
           (if cache_vary_user_agent (cfg s) then h (lit "user-agent") else []) peer port)
  end.

(** The request a refresh rebuilds. *)
Definition refresh_fields (f : Refresh) : headers :=
  [(lit "host", f_host f)]
  ++ (if bool_decide (f_accept f = []) then [] else [(lit "accept-encoding", f_accept f)])
  ++ (if bool_decide (f_agent f = []) then [] else [(lit "user-agent", f_agent f)]).
Definition refresh_request (f : Refresh) : Request :=
  mkRequest (f_method f) (f_path f) (f_query f) (f_authority f) (refresh_fields f).

Definition end_key (w : World) (key : bytes) : World := set_inflight w (end_ hash_key (inflight w) key).

Definition refresh_entry (w : World) (f : Refresh) : World :=
  let '(docroot, front) := site_for s (f_host f) in
  if negb (forallb valid_header (refresh_fields f)) then end_key w (f_key f)
  else
    let req := refresh_request f in
    let '(reply, w) := run_php w (php_request w req [] docroot front (f_peer f) (f_port f)) in
    let w := match reply with
             | Buffered resp => (store_reply w (f_key f) resp (f_accept f)
                                   (cache_rule_for (f_path f) (cache_rules (cfg s))) docroot (fields req)).2
             | Stream _ _ _ | Failed _ => w
             end in
    end_key w (f_key f).

(** ** The handler, phase by phase *)

(** What the request is, once it is known where it goes. *)
Record Target := mkTarget { t_host : bytes; t_docroot : bytes; t_front : bytes; t_peer : IpAddr; t_port : Z; t_accept : bytes }.

(** The Host of a request, lower-case and without its port. *)
Definition host_of (req : Request) : bytes :=
  to_ascii_lowercase (host_without_port (default [] (effective_host to_str req))).
Definition target_of (req : Request) (peer : IpAddr) (port : Z) : Target :=
  let host := host_of req in
  let '(docroot, front) := site_for s host in
  mkTarget host docroot front peer port (default [] (hget_str to_str (fields req) (lit "accept-encoding"))).

(** Refusals, PURGE and BAN, redirects; [replaying] is a verification replay. *)
Definition gate (w : World) (req : Request) (peer : IpAddr) (replaying : bool) : option Response * World :=
  let '(refused, w) := if replaying then (None, w) else ratelimit_check w req peer in
  match refused with
  | Some r => (Some r, w)
  | None =>
      if beq (method req) (lit "PURGE") || beq (method req) (lit "BAN") then
        let '(r, c) := invalidate_request to_str admin_token (rc w) req (host_of req) peer (cfg s) in
        (Some r, set_rc w c)
      else if force_https s || negb (bool_decide (redirects s = [])) then (redirect_target req (host_of req), w)
      else (None, w)
  end.

(** The endpoints of its own, and static files. *)
Definition dispatch (req : Request) (t : Target) : option Response :=
  match ws_upgrade req with
  | Some r => Some r
  | None =>
      match (if beq (method req) (lit "GET") && beq (path req) (lit "/askr/events") then sse req else None) with
      | Some r => Some r
      | None =>
          let rel := sanitize (path req) in
          if bool_decide (rel <> []) && negb (static_forbidden rel) then
            match fs (t_docroot t) rel with
            | Some f => Some (serve_static to_str encode (components (t_docroot t) ++ rel) f (fields req))
            | None => None
            end
          else None
      end
  end.

Definition rule_of (req : Request) : option CacheRule := cache_rule_for (path req) (cache_rules (cfg s)).
Definition passed (req : Request) : bool := match rule_of req with Some r => is_pass r | None => false end.
Definition forced (req : Request) : bool := match rule_of req with Some r => force r | None => false end.

Definition cache_key (w : World) (req : Request) (t : Target) (replaying : bool) : option bytes :=
  if RCache.enabled (rc w) && negb replaying && negb (passed req)
     && (beq (method req) (lit "GET") || beq (method req) (lit "HEAD"))
     && (negb (carries_identity to_str req (cache_ignore_cookies (cfg s))) || forced req)
  then Some (key_of req (t_host t) (cfg s)) else None.

(** A follower waits; [meanwhile] is what everybody else does until it stops waiting. *)
Definition follow (meanwhile : World -> World) (w : World) (key : bytes) (h : headers) : option Response * World :=
  let w := meanwhile w in
  if is_inflight hash_key (inflight w) key now then (None, w)
  else
    let '(o, r) := resolve_cached to_str (rc w) key h peek_at in
    let w := set_rc w r in
    match o with
    | Some (c, _) => if c_error_only c then (None, w)
                     else (Some (cached c), set_rc w (note_coalesced (rc w)))
    | None => (None, w)
    end.

(** Lookup, saint mode and coalescing: an answer, or whether this request is now the leader. *)
Definition lookup (meanwhile : World -> World) (w : World) (key : bytes) (req : Request) (t : Target)
    : (Response + bool) * World :=
  let '(o, r) := resolve_cached to_str (rc w) key (fields req) get_at in
  let w := set_rc w r in
  match o with
  | Some (c, varied) =>
      let w := if c_stale c && negb varied then spawn_swr_refresh w key req (t_peer t) (t_port t) else w in
      let '(resp, w) := serve_cached w c (t_host t) (t_docroot t) (t_front t) (t_peer t) (t_port t) (t_accept t) in
      (inl resp, w)
  | None =>
      let '(fallback, w) :=
        if saint_active (saint w) now then
          let '(f, r) := stale_error_fallback to_str hash_key valid_header (rc w) key (fields req) now in
          (f, set_rc w r)
        else (None, w) in
      match fallback with
      | Some resp => (inl resp, w)
      | None =>
          let '(lead, tbl) := begin hash_key (inflight w) key now in
          let w := set_inflight w tbl in
          match lead with
          | Leader => (inr true, w)
          | Follower => let '(o, w) := follow meanwhile w key (fields req) in
                        (match o with Some resp => inl resp | None => inr false end, w)
          end
      end
  end.

(** The body: refused, answered by the Pusher trigger, or a request for PHP. *)
Definition read_body (w : World) (req : Request) (body : bytes) (t : Target) : Response + PhpRequest :=
  let ct := default [] (hget_str to_str (fields req) (lit "content-type")) in
  let request b := php_request w req b (t_docroot t) (t_front t) (t_peer t) (t_port t) in
  let too_large := inl (text 413 (lit "askr: request body too large")) in
  if is_multipart ct && worker_script s then
    match upload ct body with
    | Parsed => inr (request [])
    | TooLargeUpload => inl (text 413 (lit "askr: upload too large"))
    | BadUpload e => inl (text 400 (lit "askr: bad upload: " ++ e))
    end
  else
    let declared := match hget_str to_str (fields req) (lit "content-length") with
                    | Some v => parse_u64 v
                    | None => None
                    end in
    if match declared with Some len => max_body_size s <? len | None => false end then too_large
    else if max_body_size s <? Z.of_nat (length body) then too_large
    else match pusher_trigger req body with
         | Some r => inl r
         | None => inr (request body)
         end.

(** From PHP's reply to the response, before the fallback. *)
Definition respond (w : World) (reply : Reply) (key : option bytes) (req : Request) (t : Target) : Response * World :=
  match reply with
  | Stream status h body => (stream_response status h body, w)
  | Failed e => (text 502 (lit "askr: " ++ e), w)
  | Buffered resp =>
      let w := match key with
               | Some k => (store_reply w k resp (t_accept t) (rule_of req) (t_docroot t) (fields req)).2
               | None => w
               end in
      let state := if passed req then Some (lit "PASS")
                   else if RCache.enabled (rc w) then Some (lit "MISS") else None in
      let '(body, w) :=
        if esi_requested (p_headers resp) && has_tags (p_body resp)
        then expand w (t_host t) (t_docroot t) (t_front t) (t_peer t) (t_port t) (p_body resp)
        else (p_body resp, w) in
      (build_response (mkPhp (p_status resp) (p_headers resp) body) state (t_accept t), w)
  end.

(** A failure is replaced by what may be served on error. *)
Definition on_failure (w : World) (resp : Response) (key : option bytes) (req : Request) : Response * World :=
  if 500 <=? r_status resp then
    let w := set_saint w (saint_mark (saint w) now (cache_saint_seconds (cfg s))) in
    match key with
    | Some k => let '(f, r) := stale_error_fallback to_str hash_key valid_header (rc w) k (fields req) now in
                (default resp f, set_rc w r)
    | None => (resp, w)
    end
  else (resp, w).

(** [handle]. *)
Definition handle (meanwhile : World -> World) (replaying : bool) (w : World) (req : Request) (body : bytes)
    (peer : IpAddr) (port : Z) : Response * World :=
  let '(early, w) := gate w req peer replaying in
  match early with
  | Some r => (r, w)
  | None =>
      let t := target_of req peer port in
      match dispatch req t with
      | Some r => (r, w)
      | None =>
          let key := cache_key w req t replaying in
          let '(found, w) := match key with
                             | Some k => lookup meanwhile w k req t
                             | None => (inr false, w)
                             end in
          match found with
          | inl r => (r, w)
          | inr leader =>
              match read_body w req body t with
              | inl r => (r, w)
              | inr q =>
                  let '(reply, w) := run_php w q in
                  let '(resp, w) := respond w reply key req t in
                  let '(resp, w) := on_failure w resp key req in
                  (resp, match key with
                         | Some k => if leader then end_key w k else w
                         | None => w
                         end)
              end
          end
      end
  end.
End Handle.
