(* ===== verification/ServerDemo.v ===== *)
(** A small server for the examples: a PHP that is a function of the request, no files and no
    other endpoints, a response cache and a coalescing table. *)

From S2P Require Import Prelude Bytes Ns RCache RCacheUrl Coalesce RateLimit Http Compress Trust TrustSpec Cgi.
From S2P Require Import CachePolicy CacheStore Esi Statics Server.

Definition demo_uri (src : bytes) : option (bytes * option bytes * option bytes) :=
  match split_once 63 src with
  | Some (p, q) => Some (p, Some q, None)
  | None => Some (src, None, None)
  end.

Definition demo (run : PhpRequest -> Reply) : Env := {|
  to_str := ascii_to_str; valid_header := fun _ => true; parse_uri := demo_uri;
  encode := plain; hash_key := poly_hash; app_path := fun d => d; php := fun _ q => run q;
  fs := fun _ _ => None; ws_upgrade := fun _ => None; sse := fun _ => None; pusher_trigger := fun _ _ => None;
  is_multipart := fun _ => false; upload := fun _ _ => Parsed; admin_token := None; http_version := lit "HTTP/1.1" |}.

(** One site, and a list of cache rules. *)
Definition demo_cfg (rules : list CacheRule) : Config := mkConfig false [] [] false 10 rules [].
Definition demo_site (rules : list CacheRule) : Settings :=
  mkSettings (demo_cfg rules) (lit "/www") (lit "index.php") [] 80 false false [] [] 1000 false.

Definition demo_world : World :=
  mkWorld (RCache.init None 16 true) (Some (replicate INFLIGHT_SLOTS (mkIn 0 0))) None 0
    (Ns.mkState ∅ [] None) [] [].

Definition get_req (p : bytes) (h : headers) : Request := mkRequest (lit "GET") p None None ((lit "host", lit "x") :: h).
(** The key of a page without a query. *)
Definition demo_key (p : bytes) : bytes := response_cache_key ascii_to_str (get_req p []) (lit "x") (demo_cfg []).
Definition with_cookie (c : bytes) : headers := [(lit "cookie", c)].
Definition loopback : IpAddr := V4 [127; 0; 0; 1].

(** A [$_SERVER] variable of the request, and its path. *)
Definition php_var (q : PhpRequest) (name : bytes) : bytes :=
  default [] (snd <$> head (filter (fun kv => kv.1 = name) (q_server_vars q))).
Definition php_path (q : PhpRequest) : bytes := php_var q (lit "PATH_INFO").
(** A page that lives a minute, and may be kept a while longer. *)
Definition minute (body : bytes) : Reply := Buffered (mkPhp 200 [(lit "Askr-Cache", lit "60")] body).
Definition nobody_else (w : World) : World := w.
