(* ===== verification/ServerCache.v ===== *)
(** What the cache holds, through the whole server: whatever requests, refreshes, purges and
    invalidations have run, an entry's body is one PHP gave to a request that carried no identity. *)

From S2P Require Import Prelude Bytes Ns RCache Coalesce RateLimit Http Compress Trust Cgi.
From S2P Require Import CachePolicy CacheStore Esi EsiSpec Statics Server ServerDemo.

(** ** Bodies of a predicate, operation by operation *)

Section Bodies.
Context (P : bytes -> Prop) (hash_key : bytes -> Z).

Definition body_ok (e : entry) : Prop := state e = 1 -> (length (body e) <= BODY_MAX)%nat /\ P (body e).
Definition holds_only (r : option rcache) : Prop :=
  match r with Some r => Forall body_ok (entries r) | None => True end.

Lemma dead_ok e : body_ok (set_state e 2).
Proof. done. Qed.

Lemma peek_loop_only tt t h now w :
  Forall body_ok t ->
  let '(o, t') := peek_loop tt t h now w in Forall body_ok t' /\ forall c, o = Some c -> P (c_body c).
Proof.
  intros Ht. induction w as [|i w IH]; cbn [peek_loop]; [done|].
  destruct (state (t !!! i) =? 0); [done|]. destruct (Z.eqb_spec (state (t !!! i)) 1) as [Es|]; [|done]. cbn [negb].
  destruct (negb _); [done|]. destruct (past_retain _ _); [split; [apply Forall_insert; done|done]|].
  destruct (tag_invalid _ _); [split; [apply Forall_insert; done|done]|]. split; [done|]. intros c [= <-].
  assert (body_ok (t !!! i)) as Hb.
  { rewrite list_lookup_total_alt. destruct (t !! i) as [e|] eqn:E; [by apply (Forall_lookup_1 _ _ _ _ Ht E)|].
    rewrite list_lookup_total_alt, E in Es. done. }
  destruct (Hb Es) as [Hl HP]. change (c_body (RCache.serve (t !!! i) now)) with (take BODY_MAX (body (t !!! i))).
  by rewrite take_ge.
Qed.

Lemma peek_only r k now :
  holds_only r -> holds_only (peek hash_key r k now).2 /\ forall c, (peek hash_key r k now).1 = Some c -> P (c_body c).
Proof.
  destruct r as [r|]; [|done]. intros H. cbn [peek with_rc].
  pose proof (peek_loop_only (tag_slots r) (entries r) (hash_bytes hash_key k) now
                (RCache.win (entries r) (hash_bytes hash_key k)) H) as Hp.
  by destruct (peek_loop _ _ _ _ _) as [o t].
Qed.

Lemma get_only r k now :
  holds_only r -> holds_only (get hash_key r k now).2 /\ forall c, (get hash_key r k now).1 = Some c -> P (c_body c).
Proof.
  intros H. destruct (peek_only r k now H) as [H1 H2]. unfold get. destruct (peek hash_key r k now) as [o r'].
  cbn [fst snd] in *. split; [by destruct r'|]. intros c. destruct o as [c'|]; [|done].
  destruct (c_error_only c'); [done|]. intros [= <-]. by apply H2.
Qed.

Lemma store_only r key status h b ttl swr sie tags a now :
  P b -> holds_only r -> holds_only (store hash_key r key status h b ttl swr sie tags a now).2.
Proof.
  intros HP. destruct r as [r|]; [|done]. intros H. cbn [store with_rc].
  destruct ((HDR_MAX <? length (hdr_blob h))%nat || (BODY_MAX <? length b)%nat) eqn:E1; [done|].
  destruct (MAX_TAGS <? length tags)%nat; [done|].
  destruct (deadlines _ _ _ _) as [[x y] z]. cbn [snd holds_only set_entries entries].
  apply Forall_insert; [done|]. intros _. cbn [write_entry body]. split; [|done].
  apply orb_false_iff in E1 as [_ E1%Nat.ltb_ge]. done.
Qed.

Lemma scan_only r want : holds_only r -> holds_only (scan_invalidate r want).2.
Proof.
  destruct r as [r|]; [|done]. intros H. cbn [scan_invalidate with_rc snd holds_only set_entries entries].
  apply Forall_fmap. eapply Forall_impl; [exact H|]. intros e He. cbn. by destruct (wanted want e).
Qed.

Lemma forget_only r tag : holds_only r -> holds_only (forget_tag hash_key r tag).
Proof. by destruct r. Qed.
Lemma flush_only r a : holds_only r -> holds_only (flush_app r a).
Proof.
  destruct r as [r|]; [|done]. intros H. cbn [flush_app fmap option_fmap option_map holds_only set_entries entries].
  apply Forall_fmap. eapply Forall_impl; [exact H|]. intros e He. cbn. by destruct (beq (app e) (as_str a)).
Qed.
Lemma init_only slots ok : holds_only (RCache.init None slots ok).
Proof. unfold RCache.init. destruct ok; [|done]. cbn [holds_only entries]. by apply Forall_replicate. Qed.

Lemma resolve_only to_str r key h fetch :
  (forall r k, holds_only r -> holds_only (fetch r k).2 /\ forall c, (fetch r k).1 = Some c -> P (c_body c)) ->
  holds_only r ->
  holds_only (resolve_cached to_str r key h fetch).2
  /\ forall c v, (resolve_cached to_str r key h fetch).1 = Some (c, v) -> P (c_body c).
Proof.
  intros Hf H. unfold resolve_cached. destruct (Hf r key H) as [H1 P1]. destruct (fetch r key) as [[first|] r1]; [|done].
  cbn [fst snd] in *. destruct (negb (is_vary_index first)).
  { split; [done|]. intros c v [= <- _]. by apply P1. }
  destruct (header_value _ _) as [names|]; [|done].
  destruct (Hf r1 (secondary_key to_str key names h) H1) as [H2 P2].
  destruct (fetch r1 _) as [[en|] r2]; [|done]. cbn [fst snd] in *. destruct (is_vary_index en); [done|].
  split; [done|]. intros c v [= <- _]. by apply P2.
Qed.

Lemma maybe_store_only to_str encode r key resp ae ua rule a h now :
  P [] -> P (p_body resp) -> (forall e b, encode e (p_body resp) = Some b -> P b) -> holds_only r ->
  holds_only (maybe_store to_str encode hash_key r key resp ae ua rule a h now).2.
Proof.
  intros P0 P1 P2 H. unfold maybe_store. destruct (negb _); [done|].
  destruct (store_policy resp rule) as [[[[ttl swr] sie] tags]|]; [|done].
  destruct (match uncovered_vary resp ua with Some v => _ | None => false end); [done|].
  destruct (app_compressed resp); [done|].
  assert (P (stored_form encode resp ae ua (uncovered_vary resp ua)).2) as Pb.
  { unfold stored_form. destruct (maybe encode (p_body resp) _ _) as [[e c]|] eqn:Em; [|done]. cbn [snd].
    unfold maybe in Em. destruct (_ || _); [done|]. destruct (negotiate _) as [e'|]; [|done].
    destruct (encode e' (p_body resp)) as [c'|] eqn:Ee; [|done]. destruct (_ <? _)%nat; [|done].
    injection Em as <- <-. by eapply P2. }
  destruct (stored_form _ _ _ _ _) as [st bd]. cbn [snd] in Pb. destruct (uncovered_vary resp ua) as [names|].
  - pose proof (store_only r key 0 [(VARY_INDEX_HEADER, names)] [] ttl swr sie (app_tag a <$> tags) (Some a) now P0 H) as H1.
    destruct (store hash_key r key 0 _ _ _ _ _ _ _ _) as [ok1 r1]. cbn [snd] in H1.
    pose proof (store_only r1 (secondary_key to_str key names h) (p_status resp) st bd ttl swr sie
                  (app_tag a <$> tags) (Some a) now Pb H1) as H2.
    destruct (store hash_key r1 _ _ _ _ _ _ _ _ _ _) as [ok r2]. by destruct ok.
  - pose proof (store_only r key (p_status resp) st bd ttl swr sie (app_tag a <$> tags) (Some a) now Pb H) as H1.
    destruct (store hash_key r key _ _ _ _ _ _ _ _ _) as [ok r1]. by destruct ok.
Qed.
End Bodies.

(** ** The server's steps *)

Section Shared.
Context `{E : Env} (s : Settings).

(** What PHP was given for a request of nobody in particular. *)
Definition anonymous_request (q : PhpRequest) : Prop :=
  exists now w req body docroot front peer port,
    carries_identity to_str req (cache_ignore_cookies (cfg s)) = false
    /\ q = php_request s now w req body docroot front peer port.

(** A page of such a request as PHP gave it, or compressed; an index entry has no body. *)
Definition shared_body (b : bytes) : Prop :=
  b = [] \/ exists hist q resp, anonymous_request q /\ php hist q = Buffered resp
            /\ (b = p_body resp \/ exists e, encode e (p_body resp) = Some b).

Definition shared (w : World) : Prop := holds_only shared_body (rc w).

Lemma store_reply_shared now w key resp ae rule docroot h hist q :
  anonymous_request q -> php hist q = Buffered resp -> shared w -> shared (store_reply s now w key resp ae rule docroot h).2.
Proof.
  intros Hq Hp Hw. unfold store_reply.
  pose proof (maybe_store_only shared_body hash_key to_str encode (rc w) key resp ae (cache_vary_user_agent (cfg s)) rule
                (app_of w docroot) h now) as H.
  destruct (maybe_store _ _ _ _ _ _ _ _ _ _ _ _) as [v r]. cbn [snd] in *. apply H; [by left| | |done].
  - right. exists hist, q, resp. auto.
  - intros e b Hb. right. exists hist, q, resp. split_and!; [done..|]. right. by exists e.
Qed.

Lemma ratelimit_check_rc now_ms w req peer : rc (ratelimit_check s now_ms w req peer).2 = rc w.
Proof.
  unfold ratelimit_check. destruct (_ || _); [done|]. destruct (starts_with _ _); [done|].
  destruct (find_rule _ _ _) as [[i r]|]; [|done]. cbv zeta. destruct (beq _ _); [done|].
  by destruct (RateLimit.check _ _ _ _ _ _ _) as [v b].
Qed.

Lemma esi_fragment_shared now now_ms host docroot front peer port w src :
  shared w -> shared (esi_fragment s now now_ms host docroot front peer port w src).2.
Proof.
  intros Hw. unfold esi_fragment. destruct (negb _); [done|]. destruct (parse_uri src) as [[[p q] auth]|]; [|done].
  destruct (negb _); [done|]. set (req := mkRequest _ _ _ _ _).
  pose proof (ratelimit_check_rc now_ms w req peer) as Hr.
  destruct (ratelimit_check s now_ms w req peer) as [refused w1]. cbn [snd] in Hr.
  assert (shared w1) as H1 by (unfold shared; by rewrite Hr). clear Hr.
  destruct (bool_decide _); [done|]. set (key := if RCache.enabled _ then _ else _).
  assert (forall o w', match key with
                       | Some k => let '(c, r) := get_at now (rc w1) k in (c, set_rc w1 r)
                       | None => (None, w1) end = (o, w') -> shared w') as Hget.
  { intros o w'. destruct key as [k|]; [|by intros [= _ <-]].
    pose proof (get_only shared_body hash_key (rc w1) k now H1) as [Hg _]. unfold get_at.
    destruct (get _ _ _ _) as [c r]. intros [= _ <-]. exact Hg. }
  destruct (match key with Some _ => _ | None => _ end) as [hit w2]. specialize (Hget _ _ eq_refl).
  destruct hit as [c|]; [done|]. unfold run_php.
  destruct (php (ran w2) _) as [resp|? ? ?|?] eqn:Ep; [|done..].
  destruct (_ =? _); [|done]. cbn [snd]. destruct key as [k|]; [|done].
  eapply store_reply_shared; [|exact Ep|exact Hget]. exists now, w2, req, [], docroot, front, peer, port. done.
Qed.

Definition keeps (w w' : World) : Prop := shared w -> shared w'.
#[local] Instance keeps_preorder : PreOrder keeps.
Proof. unfold keeps. split; [by intros w|]. intros w1 w2 w3 H1 H2 H. by apply H2, H1. Qed.

Lemma expand_shared now now_ms w host docroot front peer port body :
  shared w -> shared (expand s now now_ms w host docroot front peer port body).2.
Proof. apply (esi_expand_keeps _ keeps). intros st src H. by apply esi_fragment_shared. Qed.

Lemma serve_cached_shared now now_ms w c host docroot front peer port ae :
  shared w -> shared (serve_cached s now now_ms w c host docroot front peer port ae).2.
Proof.
  intros H. unfold serve_cached. destruct (_ && _); [|done].
  pose proof (expand_shared now now_ms w host docroot front peer port (c_body c) H) as He.
  by destruct (expand _ _ _ _ _ _ _ _ _ _) as [b w'].
Qed.

Lemma spawn_shared now w key req peer port : shared w -> shared (spawn_swr_refresh s now w key req peer port).
Proof. intros H. unfold spawn_swr_refresh. by destruct (begin _ _ _ _) as [[|] t]. Qed.

Lemma end_key_shared w key : shared w -> shared (end_key w key).
Proof. done. Qed.

(** A rebuilt request has a Host and what the page varies on, and nobody's identity. *)
Lemma refresh_anonymous f : carries_identity to_str (refresh_request f) (cache_ignore_cookies (cfg s)) = false.
Proof.
  unfold carries_identity, refresh_request, refresh_fields. cbn [fields].
  by destruct (bool_decide (f_accept f = [])), (bool_decide (f_agent f = [])).
Qed.

Lemma refresh_entry_shared now w f : shared w -> shared (refresh_entry s now w f).
Proof.
  intros H. unfold refresh_entry. destruct (site_for _ _) as [docroot front]. destruct (negb _); [done|].
  unfold run_php. destruct (php (ran w) _) as [resp|? ? ?|?] eqn:Ep; [|done..].
  apply end_key_shared. eapply store_reply_shared; [|exact Ep|exact H].
  exists now, w, (refresh_request f), [], docroot, front, (f_peer f), (f_port f).
  split; [apply refresh_anonymous|done].
Qed.

Lemma invalidate_shared token c req host peer :
  holds_only shared_body c -> holds_only shared_body (invalidate_request to_str token c req host peer (cfg s)).2.
Proof.
  intros H. unfold invalidate_request. cbv zeta. destruct (match control_token_ok _ _ _ with Some _ => _ | None => _ end); [done|].
  destruct (negb _); [done|]. destruct (beq host []); [done|].
  destruct (beq (method req) _).
  { pose proof (scan_only shared_body c (purge_wants host (path req) (query req)) H) as Hs. unfold purge_url.
    by destruct (scan_invalidate _ _) as [n c']. }
  destruct (match hget_str _ _ _ with Some _ => _ | None => _ end) as [pat|]; [|done].
  destruct (looks_like_regex pat); [done|].
  pose proof (scan_only shared_body c (ban_wants host pat) H) as Hs. unfold ban_glob.
  by destruct (scan_invalidate _ _) as [n c'].
Qed.

Lemma gate_shared now_ms w req peer replaying : shared w -> shared (gate s now_ms w req peer replaying).2.
Proof.
  intros H. unfold gate.
  pose proof (ratelimit_check_rc now_ms w req peer) as Hr.
  assert (shared (if replaying then (None, w) else ratelimit_check s now_ms w req peer).2) as H1.
  { destruct replaying; [done|]. unfold shared. by rewrite Hr. }
  destruct (if replaying then _ else _) as [[r|] w1]; cbn [snd] in *; [done|].
  destruct (_ || _).
  { pose proof (invalidate_shared admin_token (rc w1) req (host_of req) peer H1) as Hi.
    by destruct (invalidate_request _ _ _ _ _ _ _) as [r c]. }
  by destruct (_ || _).
Qed.

Lemma resolve_shared now c key h fetch :
  (fetch = get_at now \/ fetch = peek_at now \/ fetch = fun r k => stale_on_error hash_key r k now) ->
  holds_only shared_body c -> holds_only shared_body (resolve_cached to_str c key h fetch).2.
Proof.
  intros Hf H. apply (resolve_only shared_body); [|done]. intros r k Hr.
  destruct Hf as [-> |[-> | ->]]; [by apply get_only|by apply peek_only|].
  unfold stale_on_error. destruct (peek_only shared_body hash_key r k now Hr) as [H1 H2].
  destruct (peek hash_key r k now) as [o r']. cbn [fst snd] in *. done.
Qed.

Lemma fallback_shared now c key h :
  holds_only shared_body c -> holds_only shared_body (stale_error_fallback to_str hash_key valid_header c key h now).2.
Proof.
  intros H. unfold stale_error_fallback.
  pose proof (resolve_shared now c key h _ (or_intror (or_intror eq_refl)) H) as Hr.
  by destruct (resolve_cached _ _ _ _ _) as [[[c' v]|] r].
Qed.

Section Request.
Context (now now_ms : Z) (meanwhile : World -> World) (Hmean : forall w, shared w -> shared (meanwhile w)).

Lemma follow_shared w key h : shared w -> shared (follow now meanwhile w key h).2.
Proof.
  intros H. apply Hmean in H. unfold follow. set (w1 := meanwhile w) in *. cbv zeta. destruct (is_inflight _ _ _ _); [done|].
  pose proof (resolve_shared now (rc w1) key h _ (or_intror (or_introl eq_refl)) H) as Hr.
  destruct (resolve_cached _ _ _ _ _) as [[[c v]|] r]; [|done]. cbn [snd] in Hr.
  destruct (c_error_only c); [done|]. by destruct r.
Qed.

Lemma lookup_shared w key req t : shared w -> shared (lookup s now now_ms meanwhile w key req t).2.
Proof.
  intros H. unfold lookup.
  pose proof (resolve_shared now (rc w) key (fields req) _ (or_introl eq_refl) H) as Hr.
  destruct (resolve_cached _ _ _ _ _) as [[[c v]|] r]; cbn [snd] in Hr.
  - set (w1 := if c_stale c && negb v then _ else _).
    assert (shared w1) as H1 by (unfold w1; destruct (_ && _); [by apply spawn_shared|done]).
    pose proof (serve_cached_shared now now_ms w1 c (t_host t) (t_docroot t) (t_front t) (t_peer t) (t_port t) (t_accept t) H1) as H2.
    by destruct (serve_cached _ _ _ _ _ _ _ _ _ _ _) as [resp w2].
  - set (p := if saint_active _ _ then _ else _).
    assert (shared p.2) as H1.
    { unfold p. destruct (saint_active _ _); [|done].
      pose proof (fallback_shared now r key (fields req) Hr) as Hf.
      by destruct (stale_error_fallback _ _ _ _ _ _ _) as [f r']. }
    destruct p as [[resp|] w1]; [done|]. cbn [snd] in H1.
    destruct (begin _ _ _ _) as [[|] tbl]; [done|].
    pose proof (follow_shared (set_inflight w1 tbl) key (fields req) H1) as Hf.
    by destruct (follow _ _ _ _ _) as [[resp|] w2].
Qed.

Lemma respond_shared w reply key req t hist q :
  (key = None \/ anonymous_request q) -> php hist q = reply -> shared w ->
  shared (respond s now now_ms w reply key req t).2.
Proof.
  intros Hk Hp H. unfold respond. destruct reply as [resp|? ? ?|?]; [|done..].
  set (w1 := match key with Some _ => _ | None => _ end).
  assert (shared w1) as H1.
  { unfold w1. destruct key as [k|]; [|done]. destruct Hk as [|Hq]; [done|]. by eapply store_reply_shared. }
  cbv zeta. destruct (_ && _); [|done].
  pose proof (expand_shared now now_ms w1 (t_host t) (t_docroot t) (t_front t) (t_peer t) (t_port t) (p_body resp) H1) as He.
  by destruct (expand _ _ _ _ _ _ _ _ _ _) as [b w2].
Qed.

Lemma on_failure_shared w resp key req : shared w -> shared (on_failure s now w resp key req).2.
Proof.
  intros H. unfold on_failure. destruct (500 <=? _); [|done]. cbv zeta. destruct key as [k|]; [|done].
  set (w1 := set_saint _ _). pose proof (fallback_shared now (rc w1) k (fields req) H) as Hf.
  by destruct (stale_error_fallback _ _ _ _ _ _ _) as [f r].
Qed.

(** Without a [force] rule, a request with a key has no identity. *)
Lemma cache_key_anonymous w req t replaying :
  Forall (fun r => force r = false) (cache_rules (cfg s)) -> cache_key s w req t replaying <> None ->
  carries_identity to_str req (cache_ignore_cookies (cfg s)) = false.
Proof.
  intros Hf. unfold cache_key, forced, rule_of, cache_rule_for.
  destruct (head (filter _ (cache_rules (cfg s)))) as [r|] eqn:Eh.
  - assert (force r = false) as ->.
    { rewrite Forall_forall in Hf. apply Hf. destruct (filter _ _) as [|r' l] eqn:Ef; [done|]. injection Eh as ->.
      assert (r ∈ r :: l) as Hin by left. rewrite <- Ef in Hin. by apply list_elem_of_filter in Hin as [_ ?]. }
    destruct (carries_identity _ _ _); [|done]. by rewrite andb_false_r.
  - destruct (carries_identity _ _ _); [|done]. by rewrite andb_false_r.
Qed.

Lemma read_body_request w req body t q :
  read_body s now w req body t = inr q ->
  exists b, q = php_request s now w req b (t_docroot t) (t_front t) (t_peer t) (t_port t).
Proof.
  unfold read_body. destruct (_ && worker_script s).
  { destruct (upload _ _); [|done..]. intros [= <-]. by eexists. }
  destruct (match _ with Some len => max_body_size s <? len | None => false end); [done|].
  destruct (max_body_size s <? _); [done|]. destruct (pusher_trigger req body); [done|].
  intros [= <-]. by eexists.
Qed.

Lemma handle_shared replaying w req body peer port :
  Forall (fun r => force r = false) (cache_rules (cfg s)) ->
  shared w -> shared (handle s now now_ms meanwhile replaying w req body peer port).2.
Proof.
  intros Hf H. unfold handle. pose proof (gate_shared now_ms w req peer replaying H) as Hg.
  destruct (gate _ _ _ _ _ _) as [[r|] w1]; [done|]. cbn [snd] in Hg. cbv zeta.
  set (t := target_of s req peer port). destruct (dispatch req t); [done|].
  pose proof (cache_key_anonymous w1 req t replaying Hf) as Ha. set (key := cache_key s w1 req t replaying) in *.
  set (p := match key with Some _ => _ | None => _ end).
  assert (shared p.2) as Hp by (unfold p; destruct key; [by apply lookup_shared|done]).
  destruct p as [[r|leader] w2]; [done|]. cbn [snd] in Hp.
  destruct (read_body _ _ _ _ _ _) as [r|q] eqn:Eb; [done|]. apply read_body_request in Eb as [b ->].
  unfold run_php. set (q := php_request _ _ _ _ _ _ _ _ _).
  assert (key = None \/ anonymous_request q) as Hk.
  { destruct key; [right|by left]. exists now, w2, req, b, (t_docroot t), (t_front t), (t_peer t), (t_port t).
    split; [by apply Ha|done]. }
  pose proof (respond_shared (add_ran w2 q) (php (ran w2) q) key req t (ran w2) q Hk eq_refl Hp) as H3.
  destruct (respond _ _ _ _ _ _ _ _) as [resp w3]. cbn [snd] in H3.
  pose proof (on_failure_shared w3 resp key req H3) as H4.
  destruct (on_failure _ _ _ _ _ _) as [resp' w4]. cbn [snd] in *. destruct key; [|done]. by destruct leader.
Qed.
End Request.

(** ** Everything that can happen *)

Inductive evolves : World -> World -> Prop :=
| nothing w : evolves w w
| a_request w w1 now now_ms meanwhile replaying req body peer port :
    evolves w w1 -> (forall u, evolves u (meanwhile u)) ->
    evolves w (handle s now now_ms meanwhile replaying w1 req body peer port).2
| a_refresh w w1 now f : evolves w w1 -> f ∈ spawned w1 -> evolves w (refresh_entry s now w1 f)
| a_forget w w1 tag : evolves w w1 -> evolves w (set_rc w1 (forget_tag hash_key (rc w1) tag))
| a_flush w w1 a : evolves w w1 -> evolves w (set_rc w1 (flush_app (rc w1) a))
| elsewhere w w1 w2 : evolves w w1 -> rc w2 = rc w1 -> evolves w w2.

Lemma evolves_shared w w' :
  Forall (fun r => force r = false) (cache_rules (cfg s)) -> evolves w w' -> shared w -> shared w'.
Proof.
  intros Hf. induction 1 as [w|w w1 now now_ms meanwhile ? req body peer port _ IH _ IHm|w w1 now f _ IH _
    |w w1 tag _ IH|w w1 a _ IH|w w1 w2 _ IH Er]; intros H.
  - done.
  - apply handle_shared; [exact IHm|done|by apply IH].
  - by apply refresh_entry_shared, IH.
  - apply forget_only. by apply IH.
  - apply flush_only. by apply IH.
  - unfold shared. rewrite Er. by apply IH.
Qed.
End Shared.

(** C1.  Nothing personal is shared.  In a server without a [force] rule whose cache started
    empty, after any requests (however they interleave while followers wait), refreshes, purges,
    bans, invalidations and flushes, whatever the cache hands out under any key is either the
    empty body of a [Vary] index or a body PHP produced for a request that carried no identity:
    no credentials and no cookie outside the ignore list. *)
Theorem nothing_personal_shared `{E : Env} s w w' slots ok key now c :
  Forall (fun r => force r = false) (cache_rules (cfg s)) ->
  rc w = RCache.init None slots ok -> evolves s w w' ->
  (get_at now (rc w') key).1 = Some c \/ (peek_at now (rc w') key).1 = Some c ->
  shared_body s (c_body c).
Proof.
  intros Hf Hrc Hev Hc.
  assert (shared s w') as H.
  { apply (evolves_shared s w); [done..|]. unfold shared. rewrite Hrc. apply init_only. }
  destruct Hc as [Hc|Hc].
  - by destruct (get_only (shared_body s) hash_key (rc w') key now H) as [_ Hp]; apply Hp.
  - by destruct (peek_only (shared_body s) hash_key (rc w') key now H) as [_ Hp]; apply Hp.
Qed.

(** A PHP that greets whoever the cookie names. *)
Definition greeting (q : PhpRequest) : Reply := minute (default (lit "nobody") (q_cookie q)).

(** A visitor and a member on the same page: the cache keeps the visitor's. *)
Lemma nothing_personal_shared_witness :
  let E := demo greeting in let s := demo_site [] in
  let go h w := (handle s 1000 0 nobody_else false w (get_req (lit "/p") h) [] loopback 5000).2 in
  exists c, (get_at 1001 (rc (go (with_cookie (lit "id=7")) (go [] demo_world))) (demo_key (lit "/p"))).1 = Some c
    /\ c_body c = lit "nobody" /\ shared_body s (c_body c).
Proof.
  intros E s go. exists (mkCached 200 [] (lit "nobody") false false).
  split; [vm_compute; reflexivity|]. split; [reflexivity|].
  eapply (nothing_personal_shared (E := E) s demo_world (go (with_cookie (lit "id=7")) (go [] demo_world)) 16 true (demo_key (lit "/p")) 1001);
    [apply Forall_nil_2|reflexivity| |left; vm_compute; reflexivity].
  apply a_request; [apply a_request; [apply nothing|]|]; intros u; apply nothing.
Defined.
