(* ===== verification/ServerSpec.v ===== *)
(** What a whole request promises: how often PHP runs, that a page is rendered once however many
    ask for it, what is answered when PHP fails, and that nobody waits for a leader for ever. *)

From S2P Require Import Prelude Bytes Ns RCache RCacheLemmas RCacheSpec Coalesce RateLimit Http Compress Trust TrustSpec Cgi.
From S2P Require Import CachePolicy CacheStore Esi EsiSpec Statics Server ServerDemo.

Section Promise.
Context `{E : Env} (s : Settings) (hash_u64 : forall b, is_u64 (hash_key b)).
Abbreviation hashed := (hash_bytes hash_key).

(** ** What the parts leave alone *)

(** At most the buckets, the cache and the list of PHP requests changed. *)
Definition aside (w w' : World) : Prop :=
  inflight w' = inflight w /\ saint w' = saint w /\ names w' = names w /\ spawned w' = spawned w.
#[local] Instance aside_preorder : PreOrder aside.
Proof. unfold aside. split; [done|]. intros w1 w2 w3 (-> & -> & -> & ->) (-> & -> & -> & ->). done. Qed.

Lemma ratelimit_check_shape now_ms w req peer :
  exists o b, ratelimit_check s now_ms w req peer = (o, set_buckets w b).
Proof.
  assert (set_buckets w (buckets w) = w) as Hw by (by destruct w).
  assert (exists o b, (None : option Response, w) = (o, set_buckets w b)) as Hn by (exists None, (buckets w); by rewrite Hw).
  unfold ratelimit_check. destruct (_ || _); [done|]. destruct (starts_with _ _); [done|].
  destruct (find_rule _ _ _) as [[i r]|]; [|done]. cbv zeta. destruct (beq _ _); [done|].
  destruct (RateLimit.check _ _ _ _ _ _ _) as [v b]. by eexists _, b.
Qed.

(** A fragment runs PHP at most once, and touches nothing else. *)
Lemma fragment_frame now now_ms host docroot front peer port w src :
  let w' := (esi_fragment s now now_ms host docroot front peer port w src).2 in
  aside w w' /\ (length (ran w') <= S (length (ran w)))%nat.
Proof.
  unfold esi_fragment. assert (aside w w /\ (length (ran w) <= S (length (ran w)))%nat) as Hw by (split; [done|lia]).
  destruct (negb (safe_src src)); [exact Hw|]. destruct (parse_uri src) as [[[p q] auth]|]; [|exact Hw].
  destruct (negb (valid_header _)); [exact Hw|]. cbv zeta.
  match goal with |- context [ratelimit_check s now_ms w ?r peer] => destruct (ratelimit_check_shape now_ms w r peer) as (o & b & ->) end.
  destruct (bool_decide _); [exact Hw|].
  set (key := if RCache.enabled _ then _ else _).
  assert (exists hit r, match key with
                        | Some k => let '(c, r) := get_at now (rc (set_buckets w b)) k in (c, set_rc (set_buckets w b) r)
                        | None => (None, set_buckets w b) end = (hit, set_rc (set_buckets w b) r)) as (hit & r & ->).
  { destruct key as [k|]; [|by exists None, (rc w); destruct w].
    destruct (get_at now _ k) as [c r]. by exists c, r. }
  destruct hit as [c|]; [exact Hw|]. unfold run_php.
  destruct (php _ _) as [resp|? ? ?|?]; [|cbn; rewrite length_app; cbn; split; [done|lia]..].
  destruct (_ =? _); [|cbn; rewrite length_app; cbn; split; [done|lia]].
  destruct key as [k|]; [|cbn; rewrite length_app; cbn; split; [done|lia]].
  unfold store_reply. destruct (maybe_store _ _ _ _ _ _ _ _ _ _ _ _) as [v r'].
  cbn; rewrite length_app; cbn; split; [done|lia].
Qed.

Lemma expand_frame now now_ms w host docroot front peer port body :
  let w' := (expand s now now_ms w host docroot front peer port body).2 in
  aside w w' /\ (length (ran w') <= length (ran w) + 32)%nat.
Proof.
  split.
  - apply (esi_expand_keeps _ aside). intros st src. apply fragment_frame.
  - apply (esi_expand_budget _ (fun w => length (ran w))). intros st src. apply fragment_frame.
Qed.

Lemma serve_cached_frame now now_ms w c host docroot front peer port ae :
  let w' := (serve_cached s now now_ms w c host docroot front peer port ae).2 in
  aside w w' /\ (length (ran w') <= length (ran w) + 32)%nat.
Proof.
  unfold serve_cached. destruct (_ && _); [|cbn; split; [done|lia]].
  pose proof (expand_frame now now_ms w host docroot front peer port (c_body c)) as He.
  by destruct (expand _ _ _ _ _ _ _ _ _ _).
Qed.

Lemma spawn_ran now w key req peer port : ran (spawn_swr_refresh s now w key req peer port) = ran w.
Proof. unfold spawn_swr_refresh. by destruct (begin _ _ _ _) as [[|] t]. Qed.

Lemma gate_ran now_ms w req peer replaying : ran (gate s now_ms w req peer replaying).2 = ran w.
Proof.
  unfold gate. destruct (ratelimit_check_shape now_ms w req peer) as (o & b & ->).
  destruct replaying, o as [o|]; cbn; try done; destruct (_ || _); try (by destruct (_ || _));
    by destruct (invalidate_request _ _ _ _ _ _ _).
Qed.

(** A request that passes has at most spent a token. *)
Lemma gate_pass now_ms w req peer replaying w0 :
  gate s now_ms w req peer replaying = (None, w0) -> exists b, w0 = set_buckets w b.
Proof.
  assert (w = set_buckets w (buckets w)) as Hw by (by destruct w).
  unfold gate. destruct (ratelimit_check_shape now_ms w req peer) as (o & b & ->).
  destruct replaying, o as [o|]; cbn; try done; destruct (_ || _);
    try (destruct (invalidate_request _ _ _ _ _ _ _); done);
    destruct (_ || _); (intros [= _ <-] || intros [= <-]); eauto.
Qed.

Lemma respond_frame now now_ms w reply key req t :
  let w' := (respond s now now_ms w reply key req t).2 in
  aside w w' /\ (length (ran w') <= length (ran w) + 32)%nat.
Proof.
  unfold respond. destruct reply as [resp|? ? ?|?]; [|cbn; split; [done|lia]..]. cbv zeta.
  set (w1 := match key with Some _ => _ | None => _ end).
  assert (exists r, w1 = set_rc w r) as [r Hr].
  { unfold w1. destruct key as [k|]; [|exists (rc w); by destruct w].
    unfold store_reply. destruct (maybe_store _ _ _ _ _ _ _ _ _ _ _ _) as [v r]. by exists r. }
  destruct (_ && _); [|rewrite Hr; cbn; split; [done|lia]].
  pose proof (expand_frame now now_ms w1 (t_host t) (t_docroot t) (t_front t) (t_peer t) (t_port t) (p_body resp)) as He.
  destruct (expand _ _ _ _ _ _ _ _ _ _) as [b w2]. rewrite Hr in He. exact He.
Qed.

Lemma on_failure_frame now w resp key req :
  let w' := (on_failure s now w resp key req).2 in inflight w' = inflight w /\ ran w' = ran w.
Proof.
  unfold on_failure. destruct (500 <=? _); [|done]. destruct key as [k|]; [|done].
  by destruct (stale_error_fallback _ _ _ _ _ _ _).
Qed.

(** ** A request on its way to PHP *)

(** It is let through, nothing but PHP answers it, and its page has the key. *)
Definition arrives (now_ms : Z) (w : World) (req : Request) (peer : IpAddr) (port : Z) (key : bytes) (w0 : World) : Prop :=
  gate s now_ms w req peer false = (None, w0) /\ dispatch req (target_of s req peer port) = None
  /\ cache_key s w0 req (target_of s req peer port) false = Some key.

Lemma handle_answered now now_ms meanwhile w req body peer port key w0 resp w' :
  arrives now_ms w req peer port key w0 ->
  lookup s now now_ms meanwhile w0 key req (target_of s req peer port) = (inl resp, w') ->
  handle s now now_ms meanwhile false w req body peer port = (resp, w').
Proof. intros (Hg & Hd & Hk) Hl. unfold handle. rewrite Hg. cbv zeta. by rewrite Hd, Hk, Hl. Qed.

Lemma handle_led now now_ms meanwhile w req body peer port key w0 w1 q :
  arrives now_ms w req peer port key w0 ->
  lookup s now now_ms meanwhile w0 key req (target_of s req peer port) = (inr true, w1) ->
  read_body s now w1 req body (target_of s req peer port) = inr q ->
  handle s now now_ms meanwhile false w req body peer port
  = (let '(resp, w) := respond s now now_ms (add_ran w1 q) (php (ran w1) q) (Some key) req (target_of s req peer port) in
     let '(resp, w) := on_failure s now w resp (Some key) req in
     (resp, end_key w key)).
Proof.
  intros (Hg & Hd & Hk) Hl Hb. unfold handle. rewrite Hg. cbv zeta. rewrite Hd, Hk, Hl, Hb. cbn [run_php].
  destruct (respond _ _ _ _ _ _ _ _) as [resp w2]. by destruct (on_failure _ _ _ _ _ _) as [resp' w3].
Qed.

Lemma end_key_clears w key now : is_inflight hash_key (inflight (end_key w key)) key now = false.
Proof.
  unfold end_key. cbn [set_inflight inflight]. destruct (inflight w) as [t|]; [|done].
  cbn [end_ fmap option_fmap option_map is_inflight]. set (i := slot_of (hashed key)).
  assert (forall x, inflight_slot (end_slot x (hashed key)) (hashed key) now = false) as He.
  { intros x. unfold end_slot, inflight_slot. pose proof (hashed_ne hash_key key) as Hne.
    destruct (Z.eqb_spec (ikey x) (hashed key)) as [Ex|Ex].
    - cbn [ikey]. by destruct (Z.eqb_spec 0 (hashed key)).
    - by destruct (Z.eqb_spec (ikey x) (hashed key)). }
  destruct (decide (i < length t)%nat).
  - rewrite list_lookup_total_insert_eq by done. apply He.
  - rewrite list_insert_ge by lia. rewrite !list_lookup_total_alt, !lookup_ge_None_2 by lia. cbn.
    pose proof (hashed_ne hash_key key). unfold inflight_slot. cbn [ikey].
    destruct (Z.eqb_spec 0 (hashed key)); [lia|done].
Qed.

(** ** How often PHP runs *)

Lemma lookup_frame now now_ms meanwhile w key req t :
  (forall w, ran (meanwhile w) = ran w) ->
  let '(o, w') := lookup s now now_ms meanwhile w key req t in
  match o with inl _ => (length (ran w') <= length (ran w) + 32)%nat | inr _ => ran w' = ran w end.
Proof.
  intros Hm. unfold lookup. destruct (resolve_cached _ _ _ _ _) as [[[c v]|] r].
  - set (w1 := if c_stale c && negb v then _ else _).
    assert (ran w1 = ran w) as H1 by (unfold w1; destruct (_ && _); [by rewrite spawn_ran|done]).
    pose proof (serve_cached_frame now now_ms w1 c (t_host t) (t_docroot t) (t_front t) (t_peer t) (t_port t) (t_accept t)) as [_ H2].
    destruct (serve_cached _ _ _ _ _ _ _ _ _ _ _) as [resp w2]. by rewrite H1 in H2.
  - set (p := if saint_active _ _ then _ else _).
    assert (ran p.2 = ran w) as H1.
    { unfold p. destruct (saint_active _ _); [|done]. by destruct (stale_error_fallback _ _ _ _ _ _ _). }
    destruct p as [[resp|] w1]; cbn [snd] in H1; [rewrite H1; lia|].
    destruct (begin _ _ _ _) as [[|] tbl]; [done|]. unfold follow. cbv zeta.
    assert (ran (meanwhile (set_inflight w1 tbl)) = ran w) as Hw by (rewrite Hm; exact H1).
    destruct (is_inflight _ _ _ _); [done|].
    destruct (resolve_cached _ _ _ _ _) as [[[c v]|] r']; [|done].
    destruct (c_error_only c); [done|]. cbn. rewrite Hw. lia.
Qed.

End Promise.

(** One request runs PHP at most 33 times: once for the page and once for each of the 32
    fragments a page may include, whatever fragments include in turn, on every path through the
    handler; what other requests run while this one waits is theirs. *)
Theorem php_runs_bounded `{E : Env} s now now_ms meanwhile replaying w req body peer port :
  (forall w, ran (meanwhile w) = ran w) ->
  (length (ran (handle s now now_ms meanwhile replaying w req body peer port).2)
   <= length (ran w) + (1 + ESI_MAX_INCLUDES))%nat.
Proof.
  intros Hm. change (1 + ESI_MAX_INCLUDES)%nat with 33%nat. unfold handle.
  pose proof (gate_ran s now_ms w req peer replaying) as Hg.
  destruct (gate _ _ _ _ _ _) as [[r|] w1]; cbn [snd] in *; [rewrite Hg; lia|]. cbv zeta.
  set (t := target_of s req peer port). destruct (dispatch req t); [cbn; rewrite Hg; lia|].
  set (key := cache_key s w1 req t replaying). set (p := match key with Some _ => _ | None => _ end).
  assert (match p.1 with inl _ => (length (ran p.2) <= length (ran w) + 32)%nat | inr _ => ran p.2 = ran w end) as Hp.
  { unfold p. destruct key as [k|]; [|exact Hg].
    pose proof (lookup_frame s now now_ms meanwhile w1 k req t Hm) as Hl.
    destruct (lookup _ _ _ _ _ _ _ _) as [[r|l] w2]; cbn [fst snd]; by rewrite <- Hg. }
  destruct p as [[r|leader] w2]; cbn [fst snd] in *; [lia|].
  destruct (read_body _ _ _ _ _ _) as [r|q]; [cbn; rewrite Hp; lia|]. cbn [run_php].
  pose proof (respond_frame s now now_ms (add_ran w2 q) (php (ran w2) q) key req t) as [_ H3].
  destruct (respond _ _ _ _ _ _ _ _) as [resp w3]. cbn [snd] in H3.
  pose proof (on_failure_frame s now w3 resp key req) as [_ H4].
  destruct (on_failure _ _ _ _ _ _) as [resp' w4]. cbn [snd] in *. cbn [add_ran ran] in H3.
  rewrite length_app, Hp in H3. cbn [length] in H3.
  destruct key; [destruct leader|]; cbn [end_key set_inflight ran]; rewrite H4; lia.
Qed.

(** A page of forty fragments. *)
Definition forty (q : PhpRequest) : Reply :=
  if beq (php_path q) (lit "/p")
  then Buffered (mkPhp 200 [(lit "Askr-ESI", lit "on")] (concat (replicate 40 (inc (lit "/f")))))
  else Buffered (mkPhp 200 [] (lit "x")).
Lemma php_runs_bounded_witness :
  let E := demo forty in
  let w := (handle (demo_site []) 1000 0 nobody_else false demo_world (get_req (lit "/p") []) [] loopback 5000).2 in
  length (ran w) = 33%nat /\ (length (ran w) <= 0 + 33)%nat.
Proof.
  intros E w. split; [vm_compute; reflexivity|].
  exact (php_runs_bounded (E := E) (demo_site []) 1000 0 nobody_else false demo_world (get_req (lit "/p") []) [] loopback 5000
           (fun w => eq_refl)).
Defined.

(** ** Nobody waits for ever *)

(** C26.  A leader releases its followers.  Once a request has taken the lead for a key and its
    body has been read, the key is no longer in flight when its handler returns, whatever PHP
    did: a page stored or refused, a stream, a failure, a fallback. *)
Theorem leader_releases `{E : Env} s now now_ms meanwhile w req body peer port key w0 w1 q later :
  arrives s now_ms w req peer port key w0 ->
  lookup s now now_ms meanwhile w0 key req (target_of s req peer port) = (inr true, w1) ->
  read_body s now w1 req body (target_of s req peer port) = inr q ->
  is_inflight hash_key (inflight (handle s now now_ms meanwhile false w req body peer port).2) key later = false.
Proof.
  intros Ha Hl Hb. rewrite (handle_led s _ _ _ _ _ _ _ _ _ _ _ _ Ha Hl Hb).
  destruct (respond _ _ _ _ _ _ _ _) as [resp w2]. destruct (on_failure _ _ _ _ _ _) as [resp' w3].
  apply end_key_clears.
Qed.

(** ** One rendering for everybody *)

Section Once.
Context `{E : Env} (s : Settings) (hash_u64 : forall b, is_u64 (hash_key b)).
Abbreviation hashed := (hash_bytes hash_key).
Implicit Types (r : rcache) (w : World).

(** What is kept of a response, as a lookup finds it while it is fresh. *)
Definition kept (resp : PhpResponse) (ae : bytes) : Cached :=
  let sb := stored_form encode resp ae (cache_vary_user_agent (cfg s)) None in
  mkCached (p_status resp) (parse_hdr_blob (hdr_blob sb.1)) sb.2 false false.

Lemma fetch_cold r key now :
  RCacheLemmas.lookup (entries r) (hashed key) = None ->
  get_at now (Some r) key = (None, Some (count_lookup r false)).
Proof. intros Hl. unfold get_at, get. by rewrite peek_spec, Hl. Qed.

(** A miss on a free key: the request leads. *)
Lemma lookup_leads now now_ms meanwhile w key req t r r0 tbl :
  rc w = Some r -> get_at now (Some r) key = (None, Some r0) -> saint_active (saint w) now = false ->
  inflight w = Some tbl -> ikey (tbl !!! slot_of (hashed key)) = 0 ->
  lookup s now now_ms meanwhile w key req t
  = (inr true, set_inflight (set_rc w (Some r0))
                 (Some (<[slot_of (hashed key) := mkIn (hashed key) (wrap64 (now + COALESCE_TTL))]> tbl))).
Proof.
  intros Hr Hl Hs Hi Hf. unfold lookup, resolve_cached. rewrite Hr, Hl. cbv zeta.
  cbn [set_rc saint inflight]. rewrite Hs. cbn [set_rc inflight]. rewrite Hi. cbn [begin]. unfold begin_slot. rewrite Hf.
  pose proof (hashed_ne hash_key key). by destruct (Z.eqb_spec 0 (hashed key)).
Qed.

(** A key in flight: the request waits, and serves what it finds. *)
Lemma peek_at_eq now r key : peek_at now (Some r) key = peek hash_key (Some r) key now.
Proof. reflexivity. Qed.
Lemma peek_at_view now r key : (peek_at now (Some r) key).1 = view hash_key r key now.
Proof. unfold view. by rewrite peek_at_eq. Qed.

Lemma follow_served now meanwhile w key h w' r' c :
  meanwhile w = w' -> is_inflight hash_key (inflight w') key now = false ->
  rc w' = Some r' -> view hash_key r' key now = Some c -> is_vary_index c = false -> c_error_only c = false ->
  exists w2, follow now meanwhile w key h = (Some (cached_response valid_header c), w2) /\ ran w2 = ran w'.
Proof.
  intros Hm Hn Hr' Hv Hx He. unfold follow. cbv zeta. rewrite Hm, Hn, Hr'. unfold resolve_cached.
  rewrite <- peek_at_view in Hv. destruct (peek_at now (Some r') key) as [o x]. cbn [fst] in Hv. subst o.
  rewrite Hx. cbn [negb]. rewrite He. by eexists.
Qed.

Lemma lookup_follows now now_ms meanwhile w key req t r c h tbl w' r' :
  rc w = Some r -> RCacheLemmas.lookup (entries r) (hashed key) = None -> saint_active (saint w) now = false ->
  inflight w = Some tbl -> tbl !!! slot_of (hashed key) = h -> ikey h = hashed key -> now < deadline h ->
  (forall w, meanwhile w = w') -> is_inflight hash_key (inflight w') key now = false ->
  rc w' = Some r' -> view hash_key r' key now = Some c -> is_vary_index c = false -> c_error_only c = false ->
  exists w2, lookup s now now_ms meanwhile w key req t = (inl (cached_response valid_header c), w2) /\ ran w2 = ran w'.
Proof.
  intros Hr Hl Hs Hi Hh Hk Hd Hm Hn Hr' Hv Hx He. unfold lookup, resolve_cached. rewrite Hr, (fetch_cold _ _ _ Hl). cbv zeta.
  cbn [set_rc saint inflight]. rewrite Hs. cbn [set_rc inflight]. rewrite Hi. cbn [begin]. unfold begin_slot. rewrite Hh, Hk, Z.eqb_refl.
  rewrite (proj2 (Z.ltb_lt now (deadline h)) Hd). cbn [andb].
  match goal with |- context [follow now meanwhile ?w0 key ?h0] =>
    destruct (follow_served now meanwhile w0 key h0 w' r' c (Hm w0) Hn Hr' Hv Hx He) as (w2 & -> & Hran) end.
  by exists w2.
Qed.

(** A page that is left for failures only. *)
Lemma peek_live r key now c : view hash_key r key now = Some c -> peek_at now (Some r) key = (Some c, Some r).
Proof.
  rewrite view_spec, peek_at_eq, peek_spec. destruct (RCacheLemmas.lookup _ _) as [i|]; [|done].
  destruct (dead _ _ _); [done|]. by intros [= <-].
Qed.
Lemma fetch_error_only r key now c :
  view hash_key r key now = Some c -> c_error_only c = true -> get_at now (Some r) key = (None, Some (count_lookup r false)).
Proof.
  intros Hv He. apply peek_live in Hv. unfold get_at, get. rewrite <- peek_at_eq. rewrite Hv, He. done.
Qed.

(** The kept page as an answer to a failure. *)
Definition stale_error (c : Cached) : Response :=
  let r := cached_response valid_header c in
  mkResponse (r_status r) (hinsert (r_headers r) (lit "x-askr-cache") (lit "STALE-ERROR")) (r_body r).
Lemma fallback_found r key h now c :
  view hash_key r key now = Some c -> is_vary_index c = false ->
  stale_error_fallback to_str hash_key valid_header (Some r) key h now = (Some (stale_error c), Some r).
Proof.
  intros Hv Hx. apply peek_live in Hv. unfold stale_error_fallback, resolve_cached.
  assert (stale_on_error hash_key (Some r) key now = (Some c, Some r)) as -> by (unfold stale_on_error; by rewrite <- peek_at_eq).
  rewrite Hx. done.
Qed.

(** A fresh page is served as it is kept. *)
Lemma lookup_fresh now now_ms meanwhile w key req t r c :
  rc w = Some r -> view hash_key r key now = Some c -> is_vary_index c = false -> c_error_only c = false ->
  c_stale c = false -> has_tags (c_body c) = false ->
  exists w2, lookup s now now_ms meanwhile w key req t = (inl (cached_response valid_header c), w2) /\ ran w2 = ran w.
Proof.
  intros Hr Hv Hx He Hst Ht. destruct (fetch_fresh hash_key r key now c Hv He) as (r1 & Hg & _).
  unfold lookup, resolve_cached. rewrite Hr. unfold get_at. rewrite Hg, Hx. cbn [negb]. rewrite Hst. cbv zeta. cbn [negb andb].
  unfold serve_cached. rewrite Ht, andb_false_r. by eexists.
Qed.

Lemma respond_plain now now_ms w resp key req t :
  has_tags (p_body resp) = false ->
  (respond s now now_ms w (Buffered resp) (Some key) req t).2
  = (store_reply s now w key resp (t_accept t) (rule_of s req) (t_docroot t) (fields req)).2.
Proof. intros H. unfold respond. rewrite H, andb_false_r. done. Qed.

Lemma store_reply_keeps now w key resp ae rule docroot h ttl swr sie n b d w' r :
  rc w = Some r -> (0 < length (entries r))%nat ->
  store_reply s now w key resp ae rule docroot h = (Stored ttl swr sie n b None d, w') ->
  0 <= now -> 0 <= ttl -> 0 <= swr -> 0 <= sie -> now + ttl + swr < W64 -> now + ttl + sie < W64 ->
  exists r', w' = set_rc w (Some r') /\ forall now2, phase ttl swr sie now now2 = Some (false, false) ->
    view hash_key r' key now2 = Some (kept resp ae) /\ p_status resp = 200.
Proof.
  intros Hr Hl Hst H0 Ht Hs He B1 B2. unfold store_reply in Hst.
  destruct (maybe_store _ _ _ _ _ _ _ _ _ _ _ _) as [v rc'] eqn:Em. injection Hst as -> <-.
  apply maybe_store_Stored in Em as (r0 & tags & Er & H200 & _ & Ea & Hb). rewrite Hr in Er. injection Er as <-.
  cbn [store_both] in Hb.
  assert (exists r', rc' = Some r') as [r' ->].
  { unfold store in Hb. match type of Hb with with_rc _ _ ?f = _ => destruct (with_rc_Some false r f) as (? & r1 & E') end.
    rewrite E' in Hb. injection Hb as _ <-. by exists r1. }
  exists r'. split; [done|]. intros now2 Hph. split; [|done].
  pose proof (store_view hash_key hash_u64 r key _ _ _ _ _ _ _ _ _ _ now2 Hl H0 Ht Hs He B1 B2 Hb) as Hv.
  by rewrite Hph in Hv.
Qed.
End Once.

(** C2.  A page is rendered once.  When a request finds its key cold and free, PHP answers it
    with a page that may be kept, then PHP ran exactly once for it, and everybody who asks for
    the same key gets the kept page without PHP running again: whoever comes after the leader
    while the page is fresh, and whoever came while PHP was running and waited. *)
Theorem page_rendered_once `{E : Env} s now now_ms meanwhile w req body peer port key w0 r tbl q resp ttl swr sie n b d
    (hash_u64 : forall b, is_u64 (hash_key b)) :
  let h := hash_bytes hash_key key in let t := target_of s req peer port in
  let led := (lookup s now now_ms meanwhile w0 key req t).2 in
  let over := (handle s now now_ms meanwhile false w req body peer port).2 in
  let page := kept s resp (t_accept t) in
  arrives s now_ms w req peer port key w0 ->
  rc w = Some r -> (0 < length (entries r))%nat -> RCacheLemmas.lookup (entries r) h = None ->
  inflight w = Some tbl -> length tbl = INFLIGHT_SLOTS -> ikey (tbl !!! slot_of h) = 0 -> saint_active (saint w) now = false ->
  read_body s now led req body t = inr q -> php (ran led) q = Buffered resp ->
  (store_reply s now (add_ran led q) key resp (t_accept t) (rule_of s req) (t_docroot t) (fields req)).1
  = Stored ttl swr sie n b None d ->
  r_status (respond s now now_ms (add_ran led q) (Buffered resp) (Some key) req t).1 < 500 ->
  has_tags (p_body resp) = false -> has_tags (c_body page) = false ->
  0 <= now -> 0 <= ttl -> 0 <= swr -> 0 <= sie ->
  now + ttl + swr < W64 -> now + ttl + sie < W64 -> now + COALESCE_TTL < W64 ->
  ran over = ran w ++ [q]
  /\ (forall now2 now_ms2 meanwhile2 req2 body2 peer2 port2 w2,
        arrives s now_ms2 over req2 peer2 port2 key w2 -> phase ttl swr sie now now2 = Some (false, false) ->
        let answer := handle s now2 now_ms2 meanwhile2 false over req2 body2 peer2 port2 in
        answer.1 = cached_response valid_header page /\ ran answer.2 = ran over)
  /\ (forall now2 now_ms2 req2 body2 peer2 port2 w2,
        arrives s now_ms2 led req2 peer2 port2 key w2 -> phase ttl swr sie now now2 = Some (false, false) ->
        now <= now2 < now + COALESCE_TTL ->
        let answer := handle s now2 now_ms2 (fun _ => over) false led req2 body2 peer2 port2 in
        answer.1 = cached_response valid_header page /\ ran answer.2 = ran over).
Proof.
  intros h t led over page Ha Hr Hl Hcold Hi Htbl Hfree Hsaint Hb Hphp Hst Hok Htag1 Htag2 H0 Ht Hs He B1 B2 B3.
  pose proof Ha as (Hg & _). apply gate_pass in Hg as [bk ->].
  set (r0 := count_lookup r false). set (i := slot_of h) in *.
  set (tbl' := <[i := mkIn h (wrap64 (now + COALESCE_TTL))]> tbl).
  pose proof (lookup_leads s now now_ms meanwhile (set_buckets w bk) key req t r r0 tbl Hr (fetch_cold _ _ _ Hcold) Hsaint Hi Hfree) as Hlook.
  assert (led = set_inflight (set_rc (set_buckets w bk) (Some r0)) (Some tbl')) as Eled by (unfold led; by rewrite Hlook).
  assert (lookup s now now_ms meanwhile (set_buckets w bk) key req t = (inr true, led)) as Hlook' by (by rewrite Eled).
  destruct (store_reply s now (add_ran led q) key resp (t_accept t) (rule_of s req) (t_docroot t) (fields req))
    as [v w1] eqn:Est. cbn [fst] in Hst. subst v.
  destruct (store_reply_keeps s hash_u64 now (add_ran led q) key resp _ _ _ _ ttl swr sie n b d w1 r0
              ltac:(by rewrite Eled) Hl Est H0 Ht Hs He B1 B2) as (r1 & -> & Hkept).
  assert (over = end_key (set_rc (add_ran led q) (Some r1)) key) as Eover.
  { unfold over. rewrite (handle_led s _ _ _ _ _ _ _ _ _ _ _ _ Ha Hlook' Hb), Hphp. fold t.
    pose proof (respond_plain s now now_ms (add_ran led q) resp key req t Htag1) as Hp. rewrite Est in Hp.
    destruct (respond _ _ _ _ _ _ _ _) as [rs w2]. cbn [fst snd] in *. subst w2. unfold on_failure.
    destruct (Z.leb_spec 500 (r_status rs)); [lia|done]. }
  assert (ran over = ran w ++ [q]) as Hran by (by rewrite Eover, Eled).
  assert (rc over = Some r1) as Hrc by (by rewrite Eover).
  split; [exact Hran|]. split.
  - intros now2 now_ms2 m2 req2 body2 peer2 port2 w2 Ha2 Hph. destruct (Hkept now2 Hph) as [Hv H200].
    pose proof Ha2 as (Hg2 & _). apply gate_pass in Hg2 as [bk2 ->].
    destruct (lookup_fresh s now2 now_ms2 m2 (set_buckets over bk2) key req2 (target_of s req2 peer2 port2) r1 page)
      as (w3 & Hlk & Hran3); [exact Hrc|exact Hv| |done|done|exact Htag2|].
    { unfold is_vary_index, page, kept. cbn [c_status]. by rewrite H200. }
    rewrite (handle_answered s _ _ _ _ _ _ _ _ _ _ _ _ Ha2 Hlk). done.
  - intros now2 now_ms2 req2 body2 peer2 port2 w2 Ha2 Hph Hn. destruct (Hkept now2 Hph) as [Hv H200].
    pose proof Ha2 as (Hg2 & _). apply gate_pass in Hg2 as [bk2 ->].
    assert (wrap64 (now + COALESCE_TTL) = now + COALESCE_TTL) as Hw by (apply wrap64_id; words; unfold COALESCE_TTL in *; lia).
    destruct (lookup_follows s now2 now_ms2 (fun _ => over) (set_buckets led bk2) key req2 (target_of s req2 peer2 port2)
                r0 page (mkIn h (now + COALESCE_TTL)) tbl' over r1) as (w3 & Hlk & Hran3); try done.
    + by rewrite Eled.
    + rewrite Eled. cbn. unfold saint_active in *. zbool. apply Z.ltb_ge. lia.
    + by rewrite Eled.
    + unfold tbl'. rewrite list_lookup_total_insert_eq by (by apply slot_lt). by rewrite Hw.
    + cbn [deadline]. lia.
    + rewrite Eover. apply end_key_clears.
    + unfold is_vary_index, page, kept. cbn [c_status]. by rewrite H200.
    + rewrite (handle_answered s _ _ _ _ _ _ _ _ _ _ _ _ Ha2 Hlk). done.
Qed.

(** A page for a minute, asked for a second later. *)
Definition rendered (q : PhpRequest) : Reply := minute (lit "page").
Lemma page_rendered_once_witness :
  let E := demo rendered in let s := demo_site [] in let req := get_req (lit "/p") [] in
  let led := (Server.lookup s 1000 0 nobody_else demo_world (demo_key (lit "/p")) req (target_of s req loopback 5000)).2 in
  let over := (handle s 1000 0 nobody_else false demo_world req [] loopback 5000).2 in
  let late := handle s 1001 0 nobody_else false over (get_req (lit "/p") []) [] loopback 5001 in
  let waited := handle s 1001 0 (fun _ => over) false led (get_req (lit "/p") []) [] loopback 5002 in
  length (ran over) = 1%nat
  /\ r_body late.1 = lit "page" /\ ran late.2 = ran over /\ r_body waited.1 = lit "page" /\ ran waited.2 = ran over.
Proof.
  intros E s req led over late waited.
  destruct (page_rendered_once (E := E) s 1000 0 nobody_else demo_world req [] loopback 5000 (demo_key (lit "/p")) demo_world
    empty_rc (replicate INFLIGHT_SLOTS (mkIn 0 0))
    (php_request s 1000 led req [] (lit "/www") (lit "index.php") loopback 5000)
    (mkPhp 200 [(lit "Askr-Cache", lit "60")] (lit "page")) 60 0 0 0 false false poly_hash_u64)
    as (Hran & Hlate & Hwait).
  1: by split_and!; vm_compute.
  4: reflexivity.
  4: apply length_replicate.
  2: cbn; lia.
  1-17: by vm_compute.
  fold over in Hran. split; [by rewrite Hran|].
  specialize (Hlate 1001 0 nobody_else req [] loopback 5001 over). specialize (Hwait 1001 0 req [] loopback 5002 led).
  assert (arrives (E := E) s 0 over req loopback 5001 (demo_key (lit "/p")) over) as Ha by (split_and!; vm_compute; reflexivity).
  assert (arrives (E := E) s 0 led req loopback 5002 (demo_key (lit "/p")) led) as Hb by (split_and!; vm_compute; reflexivity).
  fold over in Hlate, Hwait. fold led in Hwait.
  specialize (Hlate Ha eq_refl). specialize (Hwait Hb eq_refl ltac:(unfold COALESCE_TTL; lia)).
  destruct Hlate as [Ea Era], Hwait as [Eb Erb].
  split; [etransitivity; [exact (f_equal r_body Ea)|reflexivity]|]. split; [exact Era|].
  split; [etransitivity; [exact (f_equal r_body Eb)|reflexivity]|exact Erb].
Defined.

(** ** When PHP fails *)

(** A 5xx, streamed or not, or a worker that died. *)
Definition failing (reply : Reply) : Prop :=
  match reply with
  | Failed _ => True
  | Stream status _ _ => 500 <= status <= 999
  | Buffered resp => 500 <= p_status resp <= 999 /\ has_tags (p_body resp) = false
  end.

Lemma status_ok_failing status : 500 <= status <= 999 -> 500 <= status_ok status.
Proof. intros H. unfold status_ok, between. destruct (_ && _) eqn:?; lia. Qed.

Lemma respond_failing `{E : Env} s now now_ms w reply key req t :
  failing reply -> exists resp, respond s now now_ms w reply (Some key) req t = (resp, w) /\ 500 <= r_status resp.
Proof.
  destruct reply as [resp|status h b|e]; cbn [failing].
  - intros [Hs Ht]. unfold respond. rewrite Ht, andb_false_r.
    assert (store_reply s now w key resp (t_accept t) (rule_of s req) (t_docroot t) (fields req) = (NotStored NotOk, w)) as ->.
    { unfold store_reply, maybe_store. destruct (Z.eqb_spec (p_status resp) 200); [lia|]. by destruct w. }
    cbn [snd]. eexists. split; [reflexivity|]. unfold build_response. cbn [p_status p_headers p_body].
    assert (forall h b, 500 <= r_status (build valid_header (p_status resp) h b)) as Hb.
    { intros h b. unfold build. destruct (forallb _ _); [by apply status_ok_failing|done]. }
    destruct (maybe _ _ _ _) as [[enc c]|]; apply Hb.
  - intros Hs. eexists. split; [reflexivity|]. unfold stream_response.
    destruct (forallb _ _); [by apply status_ok_failing|done].
  - intros _. eexists. split; [reflexivity|]. done.
Qed.

(** C3.  A failure is not passed on while the page may be served stale.  When PHP fails on a
    request whose page is kept for failures only, the client gets that page, marked
    [STALE-ERROR]; the failure opens saint mode and releases the followers; and until saint mode
    ends, whoever asks for the page gets what is kept without PHP being run. *)
Theorem failure_served_stale `{E : Env} s now now_ms meanwhile w req body peer port key w0 r tbl q c :
  let t := target_of s req peer port in
  let led := (lookup s now now_ms meanwhile w0 key req t).2 in
  let over := handle s now now_ms meanwhile false w req body peer port in
  arrives s now_ms w req peer port key w0 ->
  rc w = Some r -> view hash_key r key now = Some c -> c_error_only c = true -> is_vary_index c = false ->
  saint_active (saint w) now = false ->
  inflight w = Some tbl -> ikey (tbl !!! slot_of (hash_bytes hash_key key)) = 0 ->
  read_body s now led req body t = inr q -> failing (php (ran led) q) ->
  over.1 = stale_error c /\ ran over.2 = ran w ++ [q]
  /\ saint over.2 = saint_mark (saint w) now (cache_saint_seconds (cfg s))
  /\ (forall later, is_inflight hash_key (inflight over.2) key later = false)
  /\ forall now2 now_ms2 meanwhile2 req2 body2 peer2 port2 w2 c2,
       arrives s now_ms2 over.2 req2 peer2 port2 key w2 -> saint_active (saint over.2) now2 = true ->
       view hash_key r key now2 = Some c2 -> c_error_only c2 = true -> is_vary_index c2 = false ->
       let answer := handle s now2 now_ms2 meanwhile2 false over.2 req2 body2 peer2 port2 in
       answer.1 = stale_error c2 /\ ran answer.2 = ran over.2.
Proof.
  intros t led over Ha Hr Hv He Hx Hsaint Hi Hfree Hb Hphp.
  pose proof Ha as (Hg & _). apply gate_pass in Hg as [bk ->].
  pose proof (fetch_error_only r key now c Hv He) as Hget.
  pose proof (lookup_leads s now now_ms meanwhile (set_buckets w bk) key req t r _ tbl Hr Hget Hsaint Hi Hfree) as Hlook.
  set (r0 := count_lookup r false) in *.
  assert (exists tbl', led = set_inflight (set_rc (set_buckets w bk) (Some r0)) (Some tbl')) as [tbl' Eled]
    by (unfold led; rewrite Hlook; by eexists).
  assert (lookup s now now_ms meanwhile (set_buckets w bk) key req t = (inr true, led)) as Hlook' by (unfold led; by rewrite Hlook).
  assert (forall now2 c2, view hash_key r key now2 = Some c2 -> view hash_key r0 key now2 = Some c2) as Hsame
    by (intros now2 c2; by rewrite !view_spec).
  assert (over = (stale_error c, end_key (set_rc (set_saint (add_ran led q) (saint_mark (saint w) now (cache_saint_seconds (cfg s)))) (Some r0)) key)) as Eover.
  { unfold over. rewrite (handle_led s _ _ _ _ _ _ _ _ _ _ _ _ Ha Hlook' Hb). fold t.
    destruct (respond_failing s now now_ms (add_ran led q) _ key req t Hphp) as (resp & -> & H5). unfold on_failure.
    destruct (Z.leb_spec 500 (r_status resp)); [|lia]. cbv zeta. rewrite Eled. cbn [add_ran set_inflight set_saint set_rc rc saint set_buckets].
    rewrite (fallback_found r0 key (fields req) now c (Hsame _ _ Hv) Hx). done. }
  rewrite Eover. split; [done|]. split; [by rewrite Eled|]. split; [done|]. split; [intros; apply end_key_clears|].
  cbn [snd]. intros now2 now_ms2 m2 req2 body2 peer2 port2 w2 c2 Ha2 Hs2 Hv2 He2 Hx2.
  pose proof Ha2 as (Hg2 & _). apply gate_pass in Hg2 as [bk2 ->].
  assert (exists w3, lookup s now2 now_ms2 m2 (set_buckets (end_key (set_rc (set_saint (add_ran led q) (saint_mark (saint w) now (cache_saint_seconds (cfg s)))) (Some r0)) key) bk2)
                       key req2 (target_of s req2 peer2 port2)
                     = (inl (stale_error c2), w3) /\ ran w3 = ran led ++ [q]) as (w3 & Hlk & Hw3).
  { unfold lookup, resolve_cached. cbn [rc set_buckets end_key set_inflight set_rc].
    rewrite (fetch_error_only r0 key now2 c2 (Hsame _ _ Hv2) He2). cbv zeta. cbn [saint set_rc set_buckets end_key set_inflight set_saint] in *.
    rewrite Hs2. cbn [rc].
    rewrite (fallback_found (count_lookup r0 false) key (fields req2) now2 c2); [by eexists|by rewrite view_spec in *|done]. }
  rewrite (handle_answered s _ _ _ _ _ _ _ _ _ _ _ _ Ha2 Hlk). done.
Qed.

Lemma leader_releases_witness :
  let E := demo rendered in let s := demo_site [] in let req := get_req (lit "/p") [] in
  is_inflight poly_hash (inflight (handle s 1000 0 nobody_else false demo_world req [] loopback 5000).2)
    (demo_key (lit "/p")) 1000 = false.
Proof.
  intros E s req.
  apply (leader_releases (E := E) s 1000 0 nobody_else demo_world req [] loopback 5000 (demo_key (lit "/p")) demo_world
    (Server.lookup s 1000 0 nobody_else demo_world (demo_key (lit "/p")) req (target_of s req loopback 5000)).2
    (php_request s 1000 demo_world req [] (lit "/www") (lit "index.php") loopback 5000) 1000);
    by repeat split; vm_compute.
Defined.

(** A PHP that answers once, and is gone an hour later. *)
Definition gone_later (q : PhpRequest) : Reply :=
  if beq (php_var q (lit "REQUEST_TIME")) (lit "1000")
  then Buffered (mkPhp 200 [(lit "Askr-Cache", lit "60, stale-if-error=9000")] (lit "page"))
  else Failed (lit "worker died").
Definition an_hour_later : World :=
  (handle (E := demo gone_later) (demo_site []) 1000 0 nobody_else false demo_world (get_req (lit "/p") []) [] loopback 5000).2.
Definition left_rc : rcache := default empty_rc (rc an_hour_later).
Definition left_inflight : list Inflight := default [] (inflight an_hour_later).
Definition left_page : Cached := default (mkCached 0 [] [] false false) (view poly_hash left_rc (demo_key (lit "/p")) 4600).

Lemma failure_served_stale_witness :
  let E := demo gone_later in let s := demo_site [] in let req := get_req (lit "/p") [] in
  let over := handle s 4600 0 nobody_else false an_hour_later req [] loopback 5000 in
  let again := handle s 4605 0 nobody_else false over.2 req [] loopback 5001 in
  r_body over.1 = lit "page" /\ saint over.2 = 4610
  /\ r_body again.1 = lit "page" /\ ran again.2 = ran over.2.
Proof.
  intros E s req over again.
  destruct (failure_served_stale (E := E) s 4600 0 nobody_else an_hour_later req [] loopback 5000 (demo_key (lit "/p")) an_hour_later
    left_rc left_inflight (php_request s 4600 an_hour_later req [] (lit "/www") (lit "index.php") loopback 5000) left_page)
    as (Hpage & _ & Hsaint & _ & Hnext).
  1: by split_and!; vm_compute.
  1-9: by vm_compute.
  fold over in Hpage, Hsaint, Hnext. split; [etransitivity; [exact (f_equal r_body Hpage)|vm_compute; reflexivity]|].
  split; [etransitivity; [exact Hsaint|vm_compute; reflexivity]|].
  destruct (Hnext 4605 0 nobody_else req [] loopback 5001 over.2 left_page) as [Ha Hr].
  1: by split_and!; vm_compute.
  1-4: by vm_compute.
  split; [etransitivity; [exact (f_equal r_body Ha)|vm_compute; reflexivity]|exact Hr].
Defined.

(** ** What goes out *)

(** A status line that HTTP allows. *)
Definition proper (r : Response) : Prop := 100 <= r_status r <= 999.

Lemma status_ok_proper status : 100 <= status_ok status <= 999.
Proof. unfold status_ok, between. destruct (_ && _) eqn:?; lia. Qed.
Lemma build_proper vh status h b : proper (build vh status h b).
Proof. unfold build, proper. destruct (forallb _ _); [apply status_ok_proper|done]. Qed.
Lemma cached_proper vh c : proper (cached_response vh c).
Proof. apply build_proper. Qed.
#[local] Hint Resolve build_proper cached_proper : core.

Lemma fallback_proper `{E : Env} r key h now o r' :
  stale_error_fallback to_str hash_key valid_header r key h now = (o, r') -> from_option proper True o.
Proof.
  unfold stale_error_fallback. destruct (resolve_cached _ _ _ _ _) as [[[c v]|] x]; intros [= <- _]; [|done].
  apply (cached_proper valid_header c).
Qed.

Lemma serve_static_proper tos enc path f h : proper (serve_static tos enc path f h).
Proof.
  unfold serve_static. cbv zeta. repeat match goal with |- proper (match ?x with _ => _ end) => destruct x end.
  all: unfold proper; cbn [r_status text]; by repeat case_match.
Qed.

Lemma invalidate_proper `{E : Env} token c req host peer cf :
  proper (invalidate_request to_str token c req host peer cf).1.
Proof.
  unfold invalidate_request. cbv zeta.
  assert (forall n m, proper (text n m) <-> 100 <= n <= 999) as Ht by done.
  destruct (match control_token_ok _ _ _ with Some _ => _ | None => _ end) as [r|] eqn:Er; cbn [fst].
  { destruct (control_token_ok _ _ _) as [[|]|]; repeat case_match; by simplify_eq. }
  repeat case_match; done.
Qed.

Section Proper.
Context `{E : Env} (s : Settings) (now now_ms : Z).
Context (Hws : forall req r, ws_upgrade req = Some r -> proper r) (Hsse : forall req r, sse req = Some r -> proper r).
Context (Hpusher : forall req b r, pusher_trigger req b = Some r -> proper r).

Lemma ratelimit_proper w req peer r w' : ratelimit_check s now_ms w req peer = (Some r, w') -> proper r.
Proof. unfold ratelimit_check. intros H. repeat case_match; simplify_eq; done. Qed.

Lemma redirect_proper req host r : redirect_target s req host = Some r -> proper r.
Proof.
  assert (forall l st, proper (redirect_to l st)) as Hr.
  { intros l st. unfold redirect_to, proper. cbn [r_status]. destruct (between 100 999 st) eqn:Eb; [unfold between in Eb; lia|lia]. }
  unfold redirect_target. cbv zeta. repeat case_match; intros; simplify_eq; apply Hr.
Qed.

Lemma gate_proper w req peer replaying r w' : gate s now_ms w req peer replaying = (Some r, w') -> proper r.
Proof.
  unfold gate. destruct (if replaying then (None, w) else _) as [[r0|] w1] eqn:Eg.
  { intros [= <- _]. destruct replaying; [done|]. by eapply ratelimit_proper. }
  destruct (_ || _).
  { pose proof (invalidate_proper admin_token (rc w1) req (host_of req) peer (cfg s)) as Hi.
    destruct (invalidate_request _ _ _ _ _ _ _) as [x c]. intros [= <- _]. exact Hi. }
  destruct (_ || _); [|done]. intros [= Hr _]. by eapply redirect_proper.
Qed.

Lemma dispatch_proper req t r : dispatch req t = Some r -> proper r.
Proof.
  unfold dispatch. destruct (ws_upgrade req) as [r1|] eqn:E1; [intros [= <-]; by eapply Hws|].
  destruct (if _ && _ then sse req else None) as [r2|] eqn:E2.
  { intros [= <-]. destruct (_ && _); [by eapply Hsse|done]. }
  cbv zeta. destruct (bool_decide _ && _); [|by intros]. destruct (fs _ _) as [f|]; [|done]. intros [= <-]. apply serve_static_proper.
Qed.

Lemma build_response_proper resp st ae : proper (build_response resp st ae).
Proof. unfold build_response. cbv zeta. destruct (maybe _ _ _ _) as [[e c]|]; apply build_proper. Qed.

Lemma lookup_proper meanwhile w key req t r w' : lookup s now now_ms meanwhile w key req t = (inl r, w') -> proper r.
Proof.
  unfold lookup. destruct (resolve_cached _ _ _ _ _) as [[[c v]|] x].
  - unfold serve_cached. destruct (_ && has_tags _).
    + destruct (expand _ _ _ _ _ _ _ _ _ _). intros [= <- _]. apply build_response_proper.
    + intros [= <- _]. apply cached_proper.
  - set (p := if saint_active _ _ then _ else _).
    assert (from_option proper True p.1) as Hp.
    { unfold p. destruct (saint_active _ _); [|done].
      destruct (stale_error_fallback _ _ _ _ _ _ _) as [f y] eqn:Ef. by eapply fallback_proper. }
    destruct p as [[resp|] w1]; [by intros [= <- _]|].
    destruct (begin _ _ _ _) as [[|] tbl]; [done|]. unfold follow. cbv zeta. destruct (is_inflight _ _ _ _); [done|].
    destruct (resolve_cached _ _ _ _ _) as [[[c v]|] y]; [|done]. destruct (c_error_only c); [done|].
    intros [= <- _]. apply cached_proper.
Qed.

Lemma read_body_proper w req body t r : read_body s now w req body t = inl r -> proper r.
Proof. unfold read_body. cbv zeta. intros H. repeat case_match; simplify_eq; first [done|by eapply Hpusher]. Qed.

Lemma respond_proper w reply key req t : proper (respond s now now_ms w reply key req t).1.
Proof.
  unfold respond. destruct reply as [resp|status h b|e]; [| |done].
  - cbv zeta. destruct (if _ && _ then _ else _) as [b w1]. apply build_response_proper.
  - cbn [fst]. unfold stream_response. cbv zeta. destruct (forallb _ _); [apply status_ok_proper|done].
Qed.

Lemma on_failure_proper w resp key req : proper resp -> proper (on_failure s now w resp key req).1.
Proof.
  intros H. unfold on_failure. destruct (500 <=? _); [|done]. cbv zeta. destruct key as [k|]; [|done].
  destruct (stale_error_fallback _ _ _ _ _ _ _) as [f x] eqn:Ef. apply fallback_proper in Ef. by destruct f.
Qed.
End Proper.

(** Whatever the request and whatever PHP answers, the response has a status HTTP allows,
    when the endpoints that are not modelled keep to that too. *)
Theorem response_proper `{E : Env} s now now_ms meanwhile replaying w req body peer port :
  (forall req r, ws_upgrade req = Some r -> proper r) -> (forall req r, sse req = Some r -> proper r) ->
  (forall req b r, pusher_trigger req b = Some r -> proper r) ->
  proper (handle s now now_ms meanwhile replaying w req body peer port).1.
Proof.
  intros Hws Hsse Hpusher. unfold handle.
  destruct (gate _ _ _ _ _ _) as [[r|] w1] eqn:Eg; [by eapply gate_proper|]. cbv zeta.
  destruct (dispatch req _) as [r|] eqn:Ed; [by eapply dispatch_proper|].
  set (p := match cache_key _ _ _ _ _ with Some _ => _ | None => _ end).
  destruct p as [[r|leader] w2] eqn:Ep.
  { unfold p in Ep. destruct (cache_key _ _ _ _ _); [by eapply lookup_proper|done]. }
  destruct (read_body _ _ _ _ _ _) as [r|q] eqn:Eb; [by eapply read_body_proper|]. cbn [run_php].
  match goal with |- context [respond s now now_ms ?w0 ?rep ?key req ?t] =>
    pose proof (respond_proper s now now_ms w0 rep key req t) as Hr; destruct (respond s now now_ms w0 rep key req t) as [resp w3] end.
  match goal with |- context [on_failure s now w3 resp ?key req] =>
    pose proof (on_failure_proper s now w3 resp key req Hr) as Hf; by destruct (on_failure s now w3 resp key req) end.
Qed.

(** PHP answers with a status that does not exist. *)
Definition absurd (q : PhpRequest) : Reply := Buffered (mkPhp 7 [] (lit "page")).
Lemma response_proper_witness :
  let E := demo absurd in
  proper (handle (demo_site []) 1000 0 nobody_else false demo_world (get_req (lit "/p") []) [] loopback 5000).1.
Proof.
  intros E. apply (response_proper (E := E) (demo_site []) 1000 0 nobody_else false demo_world (get_req (lit "/p") []) [] loopback 5000);
    by intros.
Defined.
