(* ===== verification/ServerGaps.v ===== *)
(** Where the parts of a request disagree with each other: concrete runs of the server in which
    what the code does is not what its comments say.  Every theorem is one run. *)

From S2P Require Import Prelude Bytes Ns RCache RCacheSpec Coalesce RateLimit Http Compress Trust TrustSpec Cgi.
From S2P Require Import CachePolicy CacheStore Esi EsiSpec Statics Server ServerDemo.

Section Runs.
Context (s : Settings) (run : PhpRequest -> Reply).
#[local] Instance demo_env : Env := demo run.

Definition ask (now : Z) (w : World) (peer : IpAddr) (req : Request) : Response * World :=
  handle s now (now * 1000) nobody_else false w req [] peer 5000.
Definition refresh_all (now : Z) (w : World) : World := foldl (refresh_entry s now) w (spawned w).
End Runs.

Definition get_from (host p : bytes) (h : headers) : Request := mkRequest (lit "GET") p None None ((lit "host", host) :: h).
Definition over_https : headers := [(lit "x-forwarded-proto", lit "https")].
Definition proxy : IpAddr := V4 [10; 0; 0; 1].
Definition stranger : IpAddr := V4 [203; 0; 113; 5].

(** ** The scheme in the key *)

Definition behind_proxy : Settings :=
  mkSettings (mkConfig false [] [] false 10 [] [(V4 [10; 0; 0; 0], 8)]) (lit "/www") (lit "index.php") [] 80
    false false [] [] 1000 false.

(** A page that links to itself, by the scheme PHP is told. *)
Definition links (q : PhpRequest) : Reply :=
  Buffered (mkPhp 200 [(lit "Askr-Cache", lit "60, swr=600")]
    (if beq (php_var q (lit "HTTP_X_FORWARDED_PROTO")) (lit "https") then lit "https link" else lit "http link")).

(** The key believes [X-Forwarded-Proto] from anybody, the page only from a trusted proxy: a
    stranger plants the page of the one scheme under the key of the other. *)
Theorem stranger_plants_scheme :
  let w := (ask behind_proxy links 1000 demo_world stranger (get_req (lit "/p") over_https)).2 in
  r_body (ask behind_proxy links 1001 w proxy (get_req (lit "/p") over_https)).1 = lit "http link"
  /\ r_body (ask behind_proxy links 1001 demo_world proxy (get_req (lit "/p") over_https)).1 = lit "https link".
Proof. split; vm_compute; reflexivity. Qed.

(** A refresh does not rebuild the header, so it stores the other scheme's page. *)
Theorem refresh_loses_scheme :
  let go t w := ask behind_proxy links t w proxy (get_req (lit "/p") over_https) in
  let first := go 1000 demo_world in let stale := go 1070 first.2 in
  let after := go 1071 (refresh_all behind_proxy links 1070 stale.2) in
  r_body first.1 = lit "https link" /\ r_body stale.1 = lit "https link" /\ r_body after.1 = lit "http link".
Proof. split_and!; vm_compute; reflexivity. Qed.

(** ** The host of a refresh *)

Definition two_sites : Settings :=
  mkSettings (demo_cfg []) (lit "/www") (lit "index.php") [mkSite [lit "shop.example"] (lit "/shop") (lit "index.php")]
    80 false false [] [] 1000 false.

(** Which site's front controller ran. *)
Definition names_site (q : PhpRequest) : Reply :=
  Buffered (mkPhp 200 [(lit "Askr-Cache", lit "60, swr=600")] (q_script_filename q)).

(** A refresh looks its site up by the Host as sent, port included: on any port but the default
    one it renders the default site's page and stores it under the other site's key. *)
Theorem refresh_picks_wrong_site :
  let go t w := ask two_sites names_site t w loopback (get_from (lit "shop.example:8080") (lit "/p") []) in
  let first := go 1000 demo_world in let stale := go 1070 first.2 in
  let after := go 1071 (refresh_all two_sites names_site 1070 stale.2) in
  r_body first.1 = lit "/shop/index.php" /\ r_body after.1 = lit "/www/index.php".
Proof. split; vm_compute; reflexivity. Qed.

(** ** Fragments *)

(** A page with one fragment, and a fragment that varies. *)
Definition varying_hole (q : PhpRequest) : Reply :=
  if beq (php_path q) (lit "/p")
  then Buffered (mkPhp 200 [(lit "Askr-ESI", lit "on")] (lit "<" ++ inc (lit "/f") ++ lit ">"))
  else Buffered (mkPhp 200 [(lit "Askr-Cache", lit "60"); (lit "Vary", lit "Accept-Language")] (lit "hello")).

(** A fragment's cache lookup takes the [Vary] index for the page, and leaves the hole empty. *)
Theorem varying_fragment_vanishes :
  let go t w := ask (demo_site []) varying_hole t w loopback (get_req (lit "/p") []) in
  let first := go 1000 demo_world in
  r_body first.1 = lit "<hello>" /\ r_body (go 1001 first.2).1 = lit "<>".
Proof. split; vm_compute; reflexivity. Qed.

(** A page that is kept with its tags. *)
Definition tagged (q : PhpRequest) : Reply :=
  if beq (php_path q) (lit "/p")
  then (if beq (php_var q (lit "REQUEST_TIME")) (lit "1000")
        then Buffered (mkPhp 200 [(lit "Askr-ESI", lit "on"); (lit "Askr-Cache", lit "60, stale-if-error=9000")] (inc (lit "/f")))
        else Failed (lit "worker died"))
  else Buffered (mkPhp 200 [] (lit "hello")).

(** Who waited for the page, and who gets it because PHP failed, gets the tags themselves. *)
Theorem tags_reach_client :
  let s := demo_site [] in let req := get_req (lit "/p") [] in
  let over := ask s tagged 1000 demo_world loopback req in
  let led := (lookup (E := demo tagged) s 1000 0 nobody_else demo_world (demo_key (lit "/p")) req (target_of (E := demo tagged) s req loopback 5000)).2 in
  let waited := handle (E := demo tagged) s 1000 0 (fun _ => over.2) false led req [] loopback 5000 in
  let failed := ask s tagged 2000 over.2 loopback req in
  r_body over.1 = lit "hello" /\ r_body waited.1 = inc (lit "/f") /\ r_body failed.1 = inc (lit "/f").
Proof. split_and!; vm_compute; reflexivity. Qed.

(** A limit on fragments by client address. *)
Definition fragment_limit : Settings :=
  mkSettings (mkConfig false [] [] false 10 [] [(V4 [10; 0; 0; 0], 8)]) (lit "/www") (lit "index.php") [] 80
    false false [] [mkLimit (lit "/f") 1 60 (lit "ip") 0] 1000 false.
Definition plain_hole (q : PhpRequest) : Reply :=
  if beq (php_path q) (lit "/p")
  then Buffered (mkPhp 200 [(lit "Askr-ESI", lit "on")] (lit "<" ++ inc (lit "/f") ++ lit ">"))
  else Buffered (mkPhp 200 [] (lit "hello")).
Definition limited_world : World := set_buckets demo_world (RateLimit.init None 64 true).

(** The rebuilt request has no [X-Forwarded-For]: behind a proxy every visitor's fragments are
    counted as the proxy's, and the second visitor's page has a hole. *)
Theorem fragments_share_a_bucket :
  let visit a w := ask fragment_limit plain_hole 1000 w proxy (get_req (lit "/p") [(lit "x-forwarded-for", a)]) in
  let first := visit (lit "198.51.100.1") limited_world in
  r_body first.1 = lit "<hello>" /\ r_body (visit (lit "198.51.100.2") first.2).1 = lit "<>".
Proof. split; vm_compute; reflexivity. Qed.

(** ** A leader that never ends *)

(** A leader refused for the size it declares leaves its key in flight until the claim lapses. *)
Theorem refused_leader_keeps_key :
  let s := demo_site [] in
  let req := get_req (lit "/p") [(lit "content-length", lit "2000")] in
  let over := ask s plain_hole 1000 demo_world loopback req in
  r_status over.1 = 413
  /\ is_inflight poly_hash (inflight over.2) (demo_key (lit "/p")) 1029 = true
  /\ is_inflight poly_hash (inflight over.2) (demo_key (lit "/p")) 1030 = false.
Proof. split_and!; vm_compute; reflexivity. Qed.

(** ** Hosts *)

(** A [*.suffix] pattern is compared byte for byte, a plain one without regard to case. *)
Theorem wildcard_host_case :
  host_matches (lit "a.example") (lit "*.Example") = false /\ host_matches (lit "example") (lit "Example") = true.
Proof. split; vm_compute; reflexivity. Qed.
