(* ===== verification/Upload.v ===== *)
(** Streamed [multipart/form-data] bodies ([upload.rs]): the measured body, the boundary as PHP
    finds it, and the loop over the parts with PHP's limits.

    The multipart parser (the [multer] crate) is the parameter [multer]: what it makes of a
    boundary and of the chunks it is given.  The loop sees its parts in order; a part it does
    not read to the end is skipped.  The directory for temp files, the names' clock and what the
    file system refuses are parameters; the files themselves are a map.  Sums of chunk lengths
    are kept in [Z]: a body long enough to leave [u64] cannot arrive. *)

From stdpp Require Import gmap.
From S2P Require Import Prelude Bytes Http.

(** ** Settings and results *)

Record UploadLimits := mkLimits {
  file_uploads : bool; upload_max_filesize : Z; max_file_uploads : Z; post_max_size : Z;
  max_input_vars : Z; max_multipart_body_parts : Z }.
Definition PHP_DEFAULTS : UploadLimits := mkLimits true (2 * 1024 * 1024) 20 (8 * 1024 * 1024) 1000 (-1).

Record UploadWarning := mkWarning { message : bytes; startup_error : bool; before_field : nat }.
Record UploadedFile := mkUploaded {
  field_name : bytes; file_name : bytes; full_path : bytes; content_type : bytes; tmp_path : bytes;
  size : Z; error : Z }.

(** [temp_paths] is the guard: what is unlinked when it goes. *)
Record Parsed := mkParsed {
  p_fields : list (bytes * bytes); p_files : list UploadedFile; temp_paths : list bytes;
  p_warnings : list UploadWarning }.
Inductive UploadError := TooLarge | Parse (why : bytes).

Definition empty_parsed (ws : list UploadWarning) : Parsed := mkParsed [] [] [] ws.
Definition startup (msg : bytes) (before : nat) : UploadWarning := mkWarning msg true before.

(** [i64] and [i32] wrap in the release profile. *)
Definition wrap_i64 (x : Z) : Z := (x + 2 ^ 63) mod 2 ^ 64 - 2 ^ 63.
Definition wrap_i32 (x : Z) : Z := (x + 2 ^ 31) mod 2 ^ 32 - 2 ^ 31.

Definition over_post_max (len post_max : Z) : Parsed :=
  empty_parsed [startup (lit "POST Content-Length of " ++ to_digits len ++ lit " bytes exceeds the limit of "
                         ++ to_digits post_max ++ lit " bytes") 0].

(** ** The directory for temp files *)

(** What [lstat] says, and whether a [chmod] works and what [lstat] says after it. *)
Record Meta := mkMeta { is_dir : bool; uid : Z; mode : Z }.
Definition private_dir (euid : Z) (dir : bytes) (lstat : option Meta) (chmod : bool) (after : option Meta) : option bytes :=
  match lstat with
  | None => None
  | Some md =>
      if negb (is_dir md) || negb (uid md =? euid) then None
      else if negb (Z.land (mode md) 0x3F =? 0) then
        (if negb chmod then None
         else match after with
              | None => None
              | Some md => if negb (Z.land (mode md) 0x3F =? 0) then None else Some dir
              end)
      else Some dir
  end.

(** ** Names and numbers *)

(** [&s\[..s.find(seps)\]]. *)
Fixpoint until_any (seps : list Z) (b : bytes) : bytes :=
  match b with
  | [] => []
  | x :: b => if bool_decide (x ∈ seps) then [] else x :: until_any seps b
  end.

Definition is_multipart (ct : bytes) : bool :=
  eq_ignore_ascii_case (until_any [59; 44; 32] ct) (lit "multipart/form-data").

Definition QUOTE : Z := 34.
Definition EOL : bytes := [13; 10].
Definition boundary (ct : bytes) : bytes + UploadWarning :=
  let at_ := match find_sub (lit "boundary") ct with
             | Some i => Some i
             | None => find_sub (lit "boundary") (to_ascii_lowercase ct)
             end in
  match (match at_ with Some i => snd <$> split_once 61 (drop i ct) | None => None end) with
  | None => inr (startup (lit "Missing boundary in multipart/form-data POST data") 0)
  | Some value =>
      let checked value :=
        if (5 * 1024 - 4 <? length value)%nat
        then inr (mkWarning (lit "Boundary too large in multipart/form-data POST data") false 0)
        else inl value in
      match strip_prefix [QUOTE] value with
      | Some quoted => match split_once QUOTE quoted with
                       | Some (v, _) => checked v
                       | None => inr (startup (lit "Invalid boundary in multipart/form-data POST data") 0)
                       end
      | None => checked (until_any [44; 59] value)
      end
  end.

(** The walk over a name, at a depth of brackets. *)
Fixpoint keeps_from (depth : Z) (b : bytes) : bool :=
  match b with
  | [] => depth =? 0
  | c :: b =>
      let depth := if c =? 91 then depth + 1 else if c =? 93 then depth - 1 else depth in
      if (c =? 93) && match b with next :: _ => negb (next =? 91) | [] => false end then false
      else if depth <? 0 then false
      else keeps_from depth b
  end.
Definition php_keeps_file_name (name : bytes) : bool := keeps_from 0 name.

(** [checked_mul] and [checked_add] or [checked_sub], digit by digit. *)
Definition in_i64 (x : Z) : option Z := if (i64_min <=? x) && (x <=? i64_max) then Some x else None.
Fixpoint strtoll_digits (neg : bool) (n : Z) (b : bytes) : Z :=
  match b with
  | [] => n
  | c :: b =>
      if negb (is_ascii_digit c) then n
      else match (match in_i64 (n * 10) with
                  | Some m => in_i64 (if neg then m - (c - 48) else m + (c - 48))
                  | None => None
                  end) with
           | Some n => strtoll_digits neg n b
           | None => if neg then i64_min else i64_max
           end
  end.
Fixpoint trim_c_space (b : bytes) : bytes :=
  match b with
  | x :: b' => if bool_decide (x ∈ [32; 9; 10; 11; 12; 13]) then trim_c_space b' else b
  | [] => []
  end.
Definition strtoll (s : bytes) : Z :=
  match trim_c_space s with
  | 45 :: digits => strtoll_digits true 0 digits
  | 43 :: digits => strtoll_digits false 0 digits
  | digits => strtoll_digits false 0 digits
  end.

Definition is_slash (x : Z) : bool := (x =? 47) || (x =? 92).
Fixpoint basename (b : bytes) : bytes :=
  match b with
  | [] => []
  | x :: b' => if existsb is_slash b' then basename b' else if is_slash x then b' else b
  end.

(** What is left of a field the body ended in. *)
Fixpoint first_from (p : nat -> bool) (n : nat) (i : nat) : option nat :=
  match n with
  | O => None
  | S n => if p i then Some i else first_from p n (S i)
  end.
Definition rest_of_field (value boundary : bytes) : bytes :=
  let next := [10] ++ lit "--" ++ boundary in
  let from := (length value - length next)%nat in
  match first_from (fun i => starts_with next (drop i value)) (length value - from) from with
  | Some i => default (take i value) (strip_suffix [13] (take i value))
  | None => value
  end.

(** ** The measured body *)

Inductive BoxError := OverBody | OverPostMax (len limit : Z) | Io (e : bytes).

(** [Ended]: the chunks the parser is given; [tail] after the last one. *)
Fixpoint ended (max : Z) (post_max : option Z) (tail : option bytes) (read : Z) (body : list (bytes + bytes))
    : list (bytes + BoxError) :=
  match body with
  | [] => match post_max with
          | Some m => if m <? read then [inr (OverPostMax read m)] else inl <$> option_list tail
          | None => inl <$> option_list tail
          end
  | inr e :: _ => [inr (Io e)]
  | inl chunk :: body =>
      let read := read + Z.of_nat (length chunk) in
      if max <? read then [inr OverBody]
      else if match post_max with Some m => m <? read | None => false end
           then ended max post_max tail read body
           else inl chunk :: ended max post_max tail read body
  end.

(** [drain]: the error of a body that is only read. *)
Definition drain (chunks : list (bytes + BoxError)) : option BoxError :=
  head (omap (fun c => match c with inr e => Some e | inl _ => None end) chunks).

(** ** What the multipart parser gives *)

Inductive Broken := Incomplete | Nonsense | ReadFailed (e : BoxError).
(** A part, with its data chunk by chunk; [ends] when an error cuts the data short. *)
Record Part := mkPart {
  disposition : bool; name : option bytes; filename : option bytes; part_type : option bytes;
  data : list bytes; ends : option Broken }.
Inductive Item := APart (p : Part) | NoPart (e : Broken).

Inductive Failure := FOverPostMax (len limit : Z) | FRefused (e : UploadError) | FMalformed.
Definition failure (e : Broken) : Failure :=
  match e with
  | ReadFailed (OverPostMax len limit) => FOverPostMax len limit
  | ReadFailed OverBody => FRefused TooLarge
  | ReadFailed (Io e) => FRefused (Parse (lit "failed to read the body: " ++ e))
  | Incomplete | Nonsense => FMalformed
  end.
Definition incomplete (e : Broken) : bool := match e with Incomplete => true | _ => false end.

(** ** The loop *)

(** The last part read, if the body may have ended in it. *)
Inductive Last := LField (i : nat) (bytes_ : bytes) | LFile (i : nat).

Abbreviation Disk := (gmap bytes bytes).
Record Loop := mkLoop {
  fields : list (bytes * bytes); files : list UploadedFile; warnings : list UploadWarning;
  uploads_left : Z; form_max : Z; parts_left : Z; skip_files : bool; anonymous : Z;
  last_part : option Last; count : Z; temps : list bytes; disk : Disk; seq_no : Z }.

Definition set_fields (s : Loop) fs ws n l : Loop :=
  mkLoop fs (files s) ws (uploads_left s) (form_max s) (parts_left s) (skip_files s) (anonymous s) l n (temps s) (disk s) (seq_no s).
Definition set_files (s : Loop) fs l d : Loop :=
  mkLoop (fields s) fs (warnings s) (uploads_left s) (form_max s) (parts_left s) (skip_files s) (anonymous s) l (count s) (temps s) d (seq_no s).
Definition warn (s : Loop) (w : UploadWarning) : Loop := set_fields s (fields s) (warnings s ++ [w]) (count s) (last_part s).
Definition set_form_max (s : Loop) (m : Z) : Loop :=
  mkLoop (fields s) (files s) (warnings s) (uploads_left s) m (parts_left s) (skip_files s) (anonymous s) (last_part s) (count s) (temps s) (disk s) (seq_no s).
Definition set_parts_left (s : Loop) (n : Z) : Loop :=
  mkLoop (fields s) (files s) (warnings s) (uploads_left s) (form_max s) n (skip_files s) (anonymous s) None (count s) (temps s) (disk s) (seq_no s).
Definition set_uploads (s : Loop) (n : Z) (skip : bool) (a : Z) : Loop :=
  mkLoop (fields s) (files s) (warnings s) n (form_max s) (parts_left s) skip a (last_part s) (count s) (temps s) (disk s) (seq_no s).
(** A temp file is there, empty, and in the guard. *)
Definition new_temp (s : Loop) (p : bytes) : Loop :=
  mkLoop (fields s) (files s) (warnings s) (uploads_left s) (form_max s) (parts_left s) (skip_files s) (anonymous s) (last_part s)
    (count s) (temps s ++ [p]) (<[p := []]> (disk s)) (wrap64 (seq_no s + 1)).

(** What a turn of the loop comes to: another, its end, or the function's. *)
Inductive Flow := Next (s : Loop) | Break (s : Loop) | Return (r : Parsed + UploadError) (s : Loop).

Section Loop.
Context (limits : UploadLimits) (bound end_name : bytes).
(** The directory and the names of temp files, what the file system refuses, and what a file
    holds after the flush whose error nobody looks at. *)
Context (temp_dir : option bytes) (unique_name : Z -> bytes) (create_ok : bytes -> bool) (write_ok : bytes -> bytes -> bool).
Context (flushed : bytes -> bytes -> bytes).

Definition add_field (s : Loop) (f : bytes * bytes) (l : nat -> option Last) : Loop :=
  let n := wrap_i64 (count s + 1) in
  if n <=? max_input_vars limits then set_fields s (fields s ++ [f]) (warnings s) n (l (length (fields s)))
  else
    let s' := set_fields s (fields s) (warnings s) n (last_part s) in
    if n =? wrap_i64 (max_input_vars limits + 1)
    then warn s' (startup (lit "Input variables exceeded " ++ i64_to_string (max_input_vars limits)
                           ++ lit ". To increase the limit change max_input_vars in php.ini.") (length (fields s)))
    else s'.

(** [stop]: an error from the parser ends the loop, or the function. *)
Definition stop (e : Broken) (s : Loop) (malformed : Loop) : Flow :=
  match failure e with
  | FOverPostMax len limit => Return (inl (over_post_max len limit)) s
  | FRefused e => Return (inr e) s
  | FMalformed => Break malformed
  end.

Definition field_part (s : Loop) (p : Part) (nm : bytes) : Flow :=
  match ends p with
  | Some e => stop e s (if incomplete e then add_field s (nm, []) (fun _ => None) else s)
  | None =>
      let raw := concat (data p) in
      let value := from_utf8_lossy raw in
      let s := if eq_ignore_ascii_case nm (lit "MAX_FILE_SIZE") then set_form_max s (strtoll value) else s in
      Next (add_field s (nm, value) (fun i => Some (LField i raw)))
  end.

(** Whether files are skipped from here on, and the warning when it is their number. *)
Definition count_file (s : Loop) : Loop :=
  if negb (file_uploads limits) then set_uploads s (uploads_left s) true (anonymous s)
  else if uploads_left s <=? 0 then
    (let s' := set_uploads s (uploads_left s) true (anonymous s) in
     if uploads_left s =? 0
     then warn (set_uploads s' (uploads_left s - 1) true (anonymous s))
            (startup (lit "Maximum number of allowable file uploads has been exceeded") (length (fields s)))
     else s')
  else s.

Definition cancelled (nm file : bytes) (e : Z) : UploadedFile := mkUploaded nm (basename file) file [] [] 0 e.

(** The data of a file on its way to [tmp]: how it ends, and what has been written. *)
Inductive Received := Whole | Over (e : Z) | Cut (e : Broken) | WriteFailed.
Fixpoint receive (tmp : bytes) (fmax : Z) (chunks : list bytes) (e : option Broken) (written : bytes) : Received * bytes :=
  match chunks with
  | [] => (match e with Some e => Cut e | None => Whole end, written)
  | chunk :: chunks =>
      let total := Z.of_nat (length written) + Z.of_nat (length chunk) in
      if (0 <? upload_max_filesize limits) && (upload_max_filesize limits <? total) then (Over 1, written)
      else if negb (fmax =? 0) && (fmax <? total) then (Over 2, written)
      else if negb (write_ok tmp (written ++ chunk)) then (WriteFailed, written)
      else receive tmp fmax chunks e (written ++ chunk)
  end.

(** A file with a name, once it is not skipped. *)
Definition store_file (s : Loop) (p : Part) (nm file : bytes) : Flow :=
  if bool_decide (file = []) then Next (set_files s (files s ++ [cancelled nm file 4]) (last_part s) (disk s))
  else
    let s := set_uploads s (wrap_i64 (uploads_left s - 1)) (skip_files s) (anonymous s) in
    match temp_dir with
    | None => Return (inr (Parse (lit "temp file: no private directory available for upload temp files"))) s
    | Some dir =>
        let tmp := dir ++ lit "/" ++ unique_name (seq_no s) in
        if negb (create_ok tmp) || bool_decide (is_Some (disk s !! tmp))
        then Return (inr (Parse (lit "temp file: " ++ tmp))) s
        else
          let s := new_temp s tmp in
          let '(r, written) := receive tmp (form_max s) (data p) (ends p) [] in
          match r with
          | WriteFailed => Return (inr (Parse (lit "temp write failed")))
                             (set_files s (files s) (last_part s) (<[tmp := written]> (disk s)))
          | Over e => Next (set_files s (files s ++ [cancelled nm file e]) (last_part s) (delete tmp (disk s)))
          | Cut e =>
              let gone := set_files s (files s) (last_part s) (delete tmp (disk s)) in
              stop e (set_files s (files s) (last_part s) (<[tmp := written]> (disk s)))
                (if incomplete e then set_files s (files s ++ [cancelled nm file 3]) (last_part s) (delete tmp (disk s)) else gone)
          | Whole =>
              let ct := match part_type p with Some v => until_any [59] (from_utf8_lossy v) | None => [] end in
              let f := mkUploaded nm (basename file) file ct (from_utf8_lossy tmp) (Z.of_nat (length written)) 0 in
              Next (set_files s (files s ++ [f]) (Some (LFile (length (files s)))) (<[tmp := flushed tmp written]> (disk s)))
          end
    end.

Definition file_part (s : Loop) (p : Part) : Flow :=
  let s := count_file s in
  match filename p with
  | None => Break (warn s (startup (lit "File Upload Mime headers garbled") (length (fields s))))
  | Some file =>
      let '(nm, s) := match name p with
                      | Some nm => (nm, s)
                      | None => let a := (anonymous s + 1) mod 2 ^ 32 in
                                (to_digits ((a - 1) mod 2 ^ 32), set_uploads s (uploads_left s) (skip_files s) a)
                      end in
      let s := if negb (skip_files s) && negb (php_keeps_file_name nm)
               then set_uploads s (uploads_left s) true (anonymous s) else s in
      if skip_files s then Next s else store_file s p nm file
  end.

(** The body ended inside the last part. *)
Definition cut_last (s : Loop) : Loop :=
  match last_part s with
  | Some (LFile i) =>
      match files s !! i with
      | Some f => set_files s (<[i := mkUploaded (field_name f) (file_name f) (full_path f) [] [] 0 3]> (files s))
                    (last_part s) (delete (tmp_path f) (disk s))
      | None => s
      end
  | Some (LField i raw) =>
      match fields s !! i with
      | Some (nm, _) => set_fields s (<[i := (nm, from_utf8_lossy (rest_of_field raw bound))]> (fields s)) (warnings s) (count s) (last_part s)
      | None => s
      end
  | None => s
  end.

Definition parts_limit : Z :=
  if max_multipart_body_parts limits <? 0 then sat_add_i64 (max_input_vars limits) (max_file_uploads limits)
  else max_multipart_body_parts limits.

Definition turn (s : Loop) (it : Item) : Flow :=
  match it with
  | NoPart e => stop e s s
  | APart p =>
      if bool_decide (name p = Some end_name) then Break (cut_last s)
      else
        let none := set_parts_left s (parts_left s) in
        if negb (disposition p) then Next none
        else
          let s := set_parts_left s (wrap_i64 (parts_left s - 1)) in
          if parts_left s <? 0 then
            Break (warn s (startup (lit "Multipart body parts limit exceeded " ++ i64_to_string (wrap_i32 parts_limit)
                                    ++ lit ". To increase the limit change max_multipart_body_parts in php.ini.") (length (fields s))))
          else match name p, filename p with
               | Some nm, None => field_part s p nm
               | _, _ => file_part s p
               end
  end.

(** The parts in turn; what the guard leaves when the function returns without it. *)
Definition unlink (d : Disk) (ps : list bytes) : Disk := foldl (fun d p => delete p d) d ps.
Fixpoint walk_parts (items : list Item) (s : Loop) : (Parsed + UploadError) * Disk :=
  let whole s := (inl (mkParsed (fields s) (files s) (temps s) (warnings s)), disk s) in
  match items with
  | [] => whole s
  | it :: items =>
      match turn s it with
      | Next s => walk_parts items s
      | Break s => whole s
      | Return r s => (r, unlink (disk s) (temps s))
      end
  end.
End Loop.

(** ** [parse] *)

Section Parse.
Context (multer : bytes -> list (bytes + BoxError) -> list Item).
Context (temp_dir : option bytes) (unique_name : Z -> bytes) (create_ok : bytes -> bool) (write_ok : bytes -> bytes -> bool).
Context (flushed : bytes -> bytes -> bytes).

Definition post_limit (limits : UploadLimits) (max_total : Z) : option Z :=
  if (0 <? post_max_size limits) && (post_max_size limits <? max_total) then Some (post_max_size limits) else None.

Definition start_loop (limits : UploadLimits) (d : Disk) (seq : Z) : Loop :=
  mkLoop [] [] [] (max_file_uploads limits) 0 (parts_limit limits) false 0 None 0 [] d seq.

Definition parse (body : list (bytes + bytes)) (ct : bytes) (max_total : Z) (content_length : option Z)
    (limits : UploadLimits) (d : Disk) (seq : Z) : (Parsed + UploadError) * Disk :=
  if match content_length with Some n => max_total <? n | None => false end then (inr TooLarge, d)
  else
    let post_max := post_limit limits max_total in
    match (match content_length, post_max with Some len, Some m => if m <? len then Some (len, m) else None | _, _ => None end) with
    | Some (len, m) => (inl (over_post_max len m), d)
    | None =>
        match boundary ct with
        | inr w =>
            match (if bool_decide (content_length = None) && bool_decide (is_Some post_max)
                   then drain (ended max_total post_max None 0 body) else None) with
            | Some (OverPostMax len m) => (inl (over_post_max len m), d)
            | Some OverBody => (inr TooLarge, d)
            | Some (Io e) => (inr (Parse (lit "failed to read the body: " ++ e)), d)
            | None => (inl (empty_parsed [w]), d)
            end
        | inl bound =>
            let end_name := lit "askr-body-end-" ++ unique_name seq in
            let tail := EOL ++ lit "--" ++ bound ++ EOL ++ lit "Content-Disposition: form-data; name=" ++ [QUOTE]
                        ++ end_name ++ [QUOTE] ++ EOL ++ EOL in
            let items := multer bound (ended max_total post_max (Some tail) 0 body) in
            walk_parts limits bound end_name temp_dir unique_name create_ok write_ok flushed items
              (start_loop limits d (wrap64 (seq + 1)))
        end
    end.
End Parse.
