(* ===== verification/UploadSpec.v ===== *)
(** What a multipart body leaves behind: no temp file outside the guard, whatever happens; no
    file or field past PHP's limits; every file that is kept is a part of the body, written whole.
    And the names, numbers and sizes that are read as PHP reads them. *)

From stdpp Require Import gmap.
From S2P Require Import Prelude Bytes Http Upload.

Section Spec.
Context (limits : UploadLimits) (bound end_name : bytes).
Context (temp_dir : option bytes) (unique_name : Z -> bytes) (create_ok : bytes -> bool) (write_ok : bytes -> bytes -> bool).
Context (flushed : bytes -> bytes -> bytes).
(** The paths of temp files are text. *)
Context (Htext : forall dir n, temp_dir = Some dir -> from_utf8_lossy (dir ++ lit "/" ++ unique_name n) = dir ++ lit "/" ++ unique_name n).
Context (Hmax : max_file_uploads limits <= i64_max).
Context (items : list Item) (Hitems : Z.of_nat (length items) < 2 ^ 63 - 1).
Context (d0 : Disk).

Abbreviation turn := (turn limits bound end_name temp_dir unique_name create_ok write_ok flushed).
Abbreviation store_file := (store_file limits temp_dir unique_name create_ok write_ok flushed).

(** ** The limit a form sets *)

(** A field named [MAX_FILE_SIZE], in any case, limits the files after it; its last word counts. *)
Definition form_step (m : Z) (it : Item) : Z :=
  match it with
  | APart (mkPart true (Some nm) None _ d None) =>
      if eq_ignore_ascii_case nm (lit "MAX_FILE_SIZE") then strtoll (from_utf8_lossy (concat d)) else m
  | _ => m
  end.
Definition form_limit (its : list Item) : Z := foldl form_step 0 its.

(** ** The invariant of the loop *)

(** Outside the guard nothing has changed, and nothing in the guard was there before. *)
Definition guarded (s : Loop) : Prop :=
  (forall k, k ∉ temps s -> disk s !! k = d0 !! k) /\ (forall k, k ∈ temps s -> d0 !! k = None).

(** A file that is kept is a part of the body, written whole, within the limit; any other is an
    error without a file. *)
Definition kept_file (d : Disk) (ps : list bytes) (f : UploadedFile) : Prop :=
  tmp_path f ∈ ps /\ exists p, (exists before after, items = before ++ APart p :: after
      /\ (form_limit before <> 0 -> size f <= Z.max 0 (form_limit before)))
    /\ filename p = Some (full_path f) /\ ends p = None
    /\ size f = Z.of_nat (length (concat (data p))) /\ d !! tmp_path f = Some (flushed (tmp_path f) (concat (data p)))
    /\ (0 < upload_max_filesize limits -> size f <= upload_max_filesize limits).
Definition file_ok (d : Disk) (ps : list bytes) (f : UploadedFile) : Prop :=
  file_name f = basename (full_path f)
  /\ (error f = 0 /\ kept_file d ps f \/ error f <> 0 /\ tmp_path f = [] /\ size f = 0).

Record files_inv (s : Loop) : Prop := {
  f_ok : Forall (file_ok (disk s) (temps s)) (files s);
  f_apart : forall i j f g, files s !! i = Some f -> files s !! j = Some g -> error f = 0 -> error g = 0 ->
    tmp_path f = tmp_path g -> i = j;
  f_last : match last_part s with Some (LFile i) => exists f, files s !! i = Some f /\ error f = 0 | _ => True end }.

(** [k] turns have been taken. *)
Definition counts_inv (k : Z) (s : Loop) : Prop :=
  0 <= count s <= k /\ Z.of_nat (length (fields s)) <= count s
  /\ Z.of_nat (length (fields s)) <= Z.max 0 (max_input_vars limits)
  /\ Z.of_nat (length (temps s)) + Z.max 0 (uploads_left s) <= Z.max 0 (max_file_uploads limits)
  /\ uploads_left s <= i64_max.

Definition inv (k : Z) (s : Loop) : Prop := guarded s /\ files_inv s /\ counts_inv k s.

(** What is left of it when the loop is over. *)
Definition over_inv (k : Z) (s : Loop) : Prop := guarded s /\ Forall (file_ok (disk s) (temps s)) (files s) /\ counts_inv k s.
Lemma inv_over k s : inv k s -> over_inv k s.
Proof. intros (HG & [HF _ _] & HN). done. Qed.

Definition flow_ok (k : Z) (f : Flow) : Prop :=
  match f with
  | Next s => inv k s
  | Break s => over_inv k s
  | Return r s => guarded s /\ match r with inl p => exists ws, p = empty_parsed ws | inr _ => True end
  end.

(** ** What keeps it *)

Lemma wrap_i64_id x : i64_min <= x <= i64_max -> wrap_i64 x = x.
Proof. unfold wrap_i64, i64_min, i64_max. intros H. rewrite Z.mod_small by lia. lia. Qed.

Lemma inv_warn k s w : inv k s -> inv k (warn s w).
Proof. intros (HG & HF & HN). split; [exact HG|]. split; [|exact HN]. by destruct HF. Qed.
Lemma inv_form_max k s m : inv k s -> inv k (set_form_max s m).
Proof. intros (HG & HF & HN). split; [exact HG|]. split; [|exact HN]. by destruct HF. Qed.
Lemma inv_parts_left k s n : inv k s -> inv k (set_parts_left s n).
Proof. intros (HG & HF & HN). split; [exact HG|]. split; [|exact HN]. by destruct HF. Qed.
Lemma inv_later k k' s : k <= k' -> inv k s -> inv k' s.
Proof. intros Hk (HG & HF & HN). split; [exact HG|]. split; [exact HF|]. unfold counts_inv in *. lia. Qed.
Lemma inv_skip k s n a : n <= Z.max 0 (uploads_left s) -> n <= i64_max -> inv k s -> inv k (set_uploads s n true a).
Proof.
  intros Hn Hb (HG & HF & HN). split; [exact HG|]. split; [by destruct HF|]. unfold counts_inv in *. cbn. lia.
Qed.
Lemma inv_anonymous k s sk a : inv k s -> inv k (set_uploads s (uploads_left s) sk a).
Proof. intros (HG & HF & HN). split; [exact HG|]. split; [|exact HN]. by destruct HF. Qed.

Lemma inv_add_field k s f l :
  k < 2 ^ 63 - 1 -> (forall i, match l i with Some (LFile _) => False | _ => True end) ->
  inv k s -> inv (k + 1) (add_field limits s f l).
Proof.
  intros Hk Hl (HG & HF & HN). unfold add_field.
  assert (wrap_i64 (count s + 1) = count s + 1) as -> by (apply wrap_i64_id; unfold counts_inv, i64_min, i64_max in *; lia).
  assert (inv (k + 1) (set_fields s (fields s) (warnings s) (count s + 1) (last_part s))) as Hs.
  { split; [exact HG|]. split; [by destruct HF|]. unfold counts_inv in *. cbn. lia. }
  destruct (Z.leb_spec (count s + 1) (max_input_vars limits)).
  - split; [exact HG|]. split.
    + destruct HF as [H1 H2 _]. split; [exact H1|exact H2|]. cbn. specialize (Hl (length (fields s))). by destruct (l _) as [[|]|].
    + unfold counts_inv in *. cbn. rewrite length_app. cbn. lia.
  - cbv zeta. destruct (_ =? _); [by apply inv_warn|exact Hs].
Qed.

(** The path of a new temp file is nobody's. *)
Lemma file_ok_new d ps f p x : d !! p = None -> file_ok d ps f -> file_ok (<[p := x]> d) (ps ++ [p]) f.
Proof.
  intros Hp [Hb [[He (Hin & q & H1 & H2 & H3 & H4 & H5 & H6)]|He]]; split; [done| |done|by right].
  left. split; [done|]. split; [by apply elem_of_app; left|]. exists q. split_and!; try done.
  rewrite lookup_insert_ne; [done|]. intros ->. by rewrite Hp in H5.
Qed.
Lemma file_ok_kept d ps f p : p ∉ (tmp_path <$> [f]) -> file_ok d ps f -> file_ok (delete p d) ps f.
Proof.
  intros Hp [Hb [[He (Hin & q & H1 & H2 & H3 & H4 & H5 & H6)]|He]]; split; [done| |done|by right].
  left. split; [done|]. split; [done|]. exists q. split_and!; try done.
  rewrite lookup_delete_ne; [done|]. intros ->. apply Hp. by left.
Qed.

Lemma guarded_set s p x : p ∈ temps s -> guarded s -> guarded (set_files s (files s) (last_part s) (<[p := x]> (disk s))).
Proof. intros Hp [H1 H2]. split; [|exact H2]. cbn. intros k Hk. rewrite lookup_insert_ne by congruence. by apply H1. Qed.

Lemma receive_whole tmp fmax chunks e w w' :
  receive limits write_ok tmp fmax chunks e w = (Whole, w') ->
  e = None /\ w' = w ++ concat chunks
  /\ (fmax <> 0 -> Z.of_nat (length w) <= Z.max 0 fmax -> Z.of_nat (length w') <= Z.max 0 fmax)
  /\ (0 < upload_max_filesize limits -> Z.of_nat (length w) <= upload_max_filesize limits ->
      Z.of_nat (length w') <= upload_max_filesize limits).
Proof.
  revert w. induction chunks as [|c chunks IH]; intros w; cbn [receive].
  { destruct e; [done|]. intros [= <-]. by rewrite app_nil_r. }
  destruct (_ && _) eqn:E1; [done|]. destruct (negb _ && _) eqn:E2; [done|]. destruct (write_ok _ _); [|done].
  intros H. apply IH in H as (-> & -> & H2 & H1). cbn [concat]. rewrite <- app_assoc. apply andb_false_iff in E1, E2.
  split_and!; [done|done| |]; intros Hm Hw; rewrite (assoc_L (++)); [apply H2|apply H1]; try done; rewrite length_app; lia.
Qed.

Lemma receive_over tmp fmax chunks e w x w' : receive limits write_ok tmp fmax chunks e w = (Over x, w') -> x <> 0.
Proof.
  revert w. induction chunks as [|c chunks IH]; intros w; cbn [receive]; [by destruct e|].
  destruct (_ && _); [by intros [= <- _]|]. destruct (negb _ && _); [by intros [= <- _]|].
  destruct (negb _); [done|]. apply IH.
Qed.

Lemma apart_snoc (fs : list UploadedFile) f :
  (forall i j f g, fs !! i = Some f -> fs !! j = Some g -> error f = 0 -> error g = 0 -> tmp_path f = tmp_path g -> i = j) ->
  (error f = 0 -> Forall (fun g => error g = 0 -> tmp_path g <> tmp_path f) fs) ->
  forall i j g h, (fs ++ [f]) !! i = Some g -> (fs ++ [f]) !! j = Some h -> error g = 0 -> error h = 0 ->
    tmp_path g = tmp_path h -> i = j.
Proof.
  intros Ha Hf i j g h Hi Hj Hg Hh E.
  apply lookup_snoc_Some in Hi as [[Hi1 Hi]|[Hi <-]]; apply lookup_snoc_Some in Hj as [[Hj1 Hj]|[Hj <-]].
  - by eapply Ha.
  - exfalso. specialize (Hf Hh). eapply Forall_lookup_1 in Hf; [|exact Hi]. by apply Hf.
  - exfalso. specialize (Hf Hg). eapply Forall_lookup_1 in Hf; [|exact Hj]. by apply Hf.
  - congruence.
Qed.

Lemma inv_cancelled k s nm file e :
  e <> 0 -> inv k s -> inv k (set_files s (files s ++ [cancelled nm file e]) (last_part s) (disk s)).
Proof.
  intros He (HG & [H1 H2 H3] & HN). split; [exact HG|]. split; [|exact HN]. split.
  - apply Forall_app. split; [exact H1|]. apply Forall_cons. split; [split; [done|by right]|done].
  - apply apart_snoc; [exact H2|done].
  - cbn. destruct (last_part s) as [[|i]|]; [done| |done]. destruct H3 as (f & Hf & ?). exists f.
    split; [by apply lookup_app_l_Some|done].
Qed.

(** A temp file that came and went. *)
Lemma inv_gone k s tmp :
  disk s !! tmp = None -> 0 < uploads_left s -> inv k s ->
  inv k (set_files (new_temp (set_uploads s (wrap_i64 (uploads_left s - 1)) (skip_files s) (anonymous s)) tmp)
           (files s) (last_part s) (disk s)).
Proof.
  intros Hd Hu (HG & [H1 H2 H3] & HN).
  assert (wrap_i64 (uploads_left s - 1) = uploads_left s - 1) as Hw
    by (apply wrap_i64_id; unfold counts_inv, i64_min in *; lia).
  split; [|split].
  - destruct HG as [G1 G2]. split; cbn; intros p Hp.
    + apply G1. intros Hin. apply Hp, elem_of_app. by left.
    + apply elem_of_app in Hp as [Hp| ->%list_elem_of_singleton]; [by apply G2|].
      destruct (decide (tmp ∈ temps s)); [by apply G2|]. by rewrite <- G1.
  - split; [|exact H2|exact H3]. cbn. eapply Forall_impl; [exact H1|]. intros f [Hb [[He (Hin & Hq)]|Hf]]; split; [done| |done|by right].
    left. split; [done|]. split; [by apply elem_of_app; left|exact Hq].
  - unfold counts_inv in *. cbn. rewrite length_app, Hw. cbn. lia.
Qed.

(** A temp file with what has been written; nothing is said of it yet. *)
Lemma guarded_temp s tmp u sk a x :
  disk s !! tmp = None -> guarded s ->
  guarded (set_files (new_temp (set_uploads s u sk a) tmp) (files s) (last_part s) (<[tmp := x]> (<[tmp := []]> (disk s)))).
Proof.
  intros Hd [G1 G2]. split; cbn; intros p Hp.
  - assert ((p ∉ temps s) /\ p <> tmp) as [Hp1 Hp2].
    { split; intros H; apply Hp, elem_of_app; [by left|]. right. subst p. by apply list_elem_of_singleton. }
    rewrite !lookup_insert_ne by congruence. by apply G1.
  - apply elem_of_app in Hp as [Hp| ->%list_elem_of_singleton]; [by apply G2|].
    destruct (decide (tmp ∈ temps s)); [by apply G2|]. by rewrite <- G1.
Qed.

Lemma stop_ok k e s m : guarded s -> inv k m -> flow_ok k (stop e s m).
Proof. intros Hs Hm. unfold stop. destruct (failure e); [split; [done|by eexists]|done|]. by apply inv_over. Qed.

Lemma inv_kept k s tmp p nm file ct :
  disk s !! tmp = None -> 0 < uploads_left s ->
  (exists before after, items = before ++ APart p :: after
    /\ (form_limit before <> 0 -> Z.of_nat (length (concat (data p))) <= Z.max 0 (form_limit before))) ->
  filename p = Some file -> ends p = None ->
  (0 < upload_max_filesize limits -> Z.of_nat (length (concat (data p))) <= upload_max_filesize limits) ->
  inv k s ->
  inv k (set_files (new_temp (set_uploads s (wrap_i64 (uploads_left s - 1)) (skip_files s) (anonymous s)) tmp)
           (files s ++ [mkUploaded nm (basename file) file ct tmp (Z.of_nat (length (concat (data p)))) 0])
           (Some (LFile (length (files s)))) (<[tmp := flushed tmp (concat (data p))]> (disk s))).
Proof.
  intros Hd Hu Hin Hf He Hsz Hinv. pose proof (inv_gone k s tmp Hd Hu Hinv) as (_ & _ & HN').
  destruct Hinv as (HG & [H1 H2 H3] & HN). split; [|split; [|exact HN']].
  - pose proof (guarded_temp s tmp (wrap_i64 (uploads_left s - 1)) (skip_files s) (anonymous s)
                  (flushed tmp (concat (data p))) Hd HG) as Hg.
    cbn in Hg. rewrite insert_insert_eq in Hg. exact Hg.
  - split; cbn.
    + apply Forall_app. split.
      * eapply Forall_impl; [exact H1|]. intros f. by apply file_ok_new.
      * apply Forall_cons. split; [|done]. split; [done|]. left. split; [done|].
        split; [apply elem_of_app; right; by left|]. exists p. cbn. split_and!; try done. by rewrite lookup_insert_eq.
    + apply apart_snoc; [exact H2|]. intros _. cbn. eapply Forall_impl; [exact H1|].
      intros f [_ [[_ (_ & q & _ & _ & _ & _ & Hq & _)]|[Hne _]]] Hz Et; [|done]. congruence.
    + eexists. split; [by rewrite lookup_app_r, Nat.sub_diag|done].
Qed.

Lemma store_file_ok k s p nm file before after :
  items = before ++ APart p :: after -> form_max s = form_limit before -> filename p = Some file -> 0 < uploads_left s ->
  inv k s -> flow_ok k (store_file s p nm file).
Proof.
  intros Hin Hform Hf Hu Hinv. unfold store_file, Upload.store_file. case_bool_decide; [by apply inv_cancelled|]. cbv zeta.
  set (u := wrap_i64 (uploads_left s - 1)).
  destruct temp_dir as [dir|] eqn:Edir; [|cbn; by destruct Hinv].
  cbn [seq_no set_uploads disk]. set (tmp := dir ++ lit "/" ++ unique_name (seq_no s)).
  destruct (negb (create_ok tmp) || _) eqn:Ec; [cbn; by destruct Hinv|].
  apply orb_false_iff in Ec as [_ Ec%bool_decide_eq_false].
  assert (disk s !! tmp = None) as Hd by (destruct (disk s !! tmp) eqn:E; [by destruct Ec|done]).
  pose proof (inv_gone k s tmp Hd Hu Hinv) as Hgone. fold u in Hgone.
  assert (forall x, guarded (set_files (new_temp (set_uploads s u (skip_files s) (anonymous s)) tmp) (files s) (last_part s)
                               (<[tmp := x]> (<[tmp := []]> (disk s))))) as Hg.
  { intros x. apply guarded_temp; [done|]. by destruct Hinv. }
  assert (delete tmp (<[tmp := []]> (disk s)) = disk s) as Edel by (by apply delete_insert_id).
  destruct (receive _ _ _ _ _ _ _) as [r w] eqn:Er. cbn [disk new_temp files last_part set_uploads].
  destruct r as [|e|e|].
  - apply receive_whole in Er as (He & -> & Hfm & Hsz). cbn [Datatypes.app] in *. rewrite insert_insert_eq.
    assert (from_utf8_lossy tmp = tmp) as -> by (by apply Htext). apply inv_kept; try done.
    + exists before, after. split; [done|]. rewrite <- Hform. intros Hne. apply Hfm; [exact Hne|]. cbn. lia.
    + intros Hm. apply Hsz; [done|]. cbn. lia.
  - rewrite Edel. apply (inv_cancelled k _ nm file e) in Hgone; [exact Hgone|]. by eapply receive_over.
  - apply stop_ok; [apply Hg|]. rewrite Edel. destruct (incomplete e); [|exact Hgone].
    apply (inv_cancelled k _ nm file 3) in Hgone; [exact Hgone|done].
  - split; [apply Hg|done].
Qed.

Lemma cut_last_ok k s : inv k s -> over_inv k (cut_last bound s).
Proof.
  intros Hinv. unfold cut_last. destruct (last_part s) as [[i raw|i]|] eqn:El; [| |by apply inv_over].
  - destruct (fields s !! i) as [[nm v]|] eqn:Ei; [|by apply inv_over]. destruct Hinv as (HG & [HF _ _] & HN).
    split; [exact HG|]. split; [exact HF|]. unfold counts_inv in *. cbn. by rewrite length_insert.
  - destruct (files s !! i) as [f|] eqn:Ei; [|by apply inv_over]. destruct Hinv as (HG & [H1 H2 H3] & HN).
    rewrite El in H3. destruct H3 as (f' & E' & He). rewrite Ei in E'. injection E' as <-.
    pose proof (Forall_lookup_1 _ _ _ _ H1 Ei) as [_ [[_ [Hin _]]|[Hne _]]]; [|done].
    split; [|split; [|exact HN]].
    + destruct HG as [G1 G2]. split; [|exact G2]. cbn. intros p Hp. rewrite lookup_delete_ne by congruence. by apply G1.
    + cbn. apply Forall_lookup_2. intros j g Hj. destruct (decide (i = j)) as [<-|Hij].
      { rewrite list_lookup_insert_eq in Hj by (by eapply lookup_lt_Some). injection Hj as <-. split; [|by right].
        by destruct (Forall_lookup_1 _ _ _ _ H1 Ei) as [Hb _]. }
      rewrite list_lookup_insert_ne in Hj by done. pose proof (Forall_lookup_1 _ _ _ _ H1 Hj) as Hg.
      destruct (decide (error g = 0)) as [Hg0|Hg0].
      * apply file_ok_kept; [|exact Hg]. intros [Et|Hn%elem_of_nil]%elem_of_cons; [|done]. by apply Hij, (H2 i j f g).
      * destruct Hg as [Hb [[? _]|Hr]]; [done|]. split; [done|by right].
Qed.

Lemma field_part_ok k s p nm : k < 2 ^ 63 - 1 -> inv k s -> flow_ok (k + 1) (field_part limits s p nm).
Proof.
  intros Hk Hinv. unfold field_part. destruct (ends p) as [e|].
  - apply stop_ok; [by destruct Hinv|]. destruct (incomplete e); [by apply inv_add_field|].
    eapply inv_later; [|exact Hinv]. lia.
  - cbv zeta. apply inv_add_field; [done|by intros|]. case_match; [by apply inv_form_max|done].
Qed.

Lemma count_file_form s : form_max (count_file limits s) = form_max s.
Proof. unfold count_file. destruct (negb _); [done|]. destruct (_ <=? _); [|done]. by destruct (_ =? _). Qed.

Lemma count_file_ok k s : inv k s ->
  inv k (count_file limits s) /\ (skip_files (count_file limits s) = false -> 0 < uploads_left (count_file limits s)).
Proof.
  intros Hinv. assert (uploads_left s <= i64_max) as Hu by (destruct Hinv as (_ & _ & HN); unfold counts_inv in HN; lia).
  unfold count_file. destruct (file_uploads limits); cbn [negb].
  - destruct (Z.leb_spec (uploads_left s) 0); [|done]. cbv zeta. destruct (Z.eqb_spec (uploads_left s) 0); (split; [|done]).
    + apply inv_warn. cbn [anonymous set_uploads]. apply (inv_skip k s); [lia..|done].
    + apply inv_skip; [lia..|done].
  - split; [|done]. apply inv_skip; [lia..|done].
Qed.

Lemma file_part_ok k s p before after :
  items = before ++ APart p :: after -> form_max s = form_limit before -> inv k s ->
  flow_ok k (file_part limits temp_dir unique_name create_ok write_ok flushed s p).
Proof.
  intros Hin Hform Hinv. unfold file_part. destruct (count_file_ok k s Hinv) as [Hc Hs]. rewrite <- (count_file_form s) in Hform.
  set (s1 := count_file limits s) in *. cbv zeta. destruct (filename p) as [file|] eqn:Ef; [|by apply inv_over, inv_warn].
  set (x := match name p with Some nm => _ | None => _ end).
  assert (inv k x.2 /\ skip_files x.2 = skip_files s1 /\ uploads_left x.2 = uploads_left s1 /\ form_max x.2 = form_max s1)
    as (Hx & Hsk & Hul & Hfm).
  { unfold x. destruct (name p); [done|]. split; [by apply inv_anonymous|done]. }
  destruct x as [nm s2]. cbn [snd] in *.
  destruct (negb (skip_files s2) && negb (php_keeps_file_name nm)) eqn:E.
  { cbn [skip_files set_uploads]. apply inv_skip; [lia| |exact Hx]. destruct Hx as (_ & _ & HN). unfold counts_inv in HN. lia. }
  destruct (skip_files s2) eqn:Es2; [exact Hx|]. eapply store_file_ok; [done|congruence|done| |done]. rewrite Hul. by apply Hs.
Qed.

Lemma turn_ok k s it before after :
  items = before ++ it :: after -> form_max s = form_limit before -> k < 2 ^ 63 - 1 -> inv k s -> flow_ok (k + 1) (turn s it).
Proof.
  intros Hin Hform Hk Hinv. assert (inv (k + 1) s) as Hinv' by (eapply inv_later; [|exact Hinv]; lia).
  unfold turn, Upload.turn. destruct it as [p|e]; [|apply stop_ok; [by destruct Hinv|done]].
  case_bool_decide; [by apply cut_last_ok|]. cbv zeta.
  destruct (negb (disposition p)); [by apply inv_parts_left|].
  destruct (parts_left (set_parts_left _ _) <? 0); [by apply inv_over, inv_warn, inv_parts_left|].
  destruct (name p) as [nm|], (filename p) as [file|]; try (eapply file_part_ok; [done|done|by apply inv_parts_left]).
  apply field_part_ok; [done|by apply inv_parts_left].
Qed.

(** ** The limit and the parts, turn by turn *)

(** What the application has been given so far; one turn adds at most one of it. *)
Definition held (s : Loop) : nat := (length (fields s) + length (files s))%nat.
Definition grown (n : nat) (s s' : Loop) : Prop := (held s' <= n + held s)%nat /\ parts_left s' = parts_left s.
Definition flow_grown (s : Loop) (f : Flow) : Prop := match f with Next s' | Break s' => grown 1 s s' | Return _ _ => True end.
Definition flow_form (m : Z) (f : Flow) : Prop := match f with Next s' => form_max s' = m | _ => True end.

Lemma add_field_grown s f l : grown 1 s (add_field limits s f l) /\ form_max (add_field limits s f l) = form_max s.
Proof.
  unfold add_field, grown, held. cbv zeta. destruct (_ <=? _); [|destruct (_ =? _)]; cbn; rewrite ?length_app; cbn; split; try split; lia || done.
Qed.
Lemma stop_grown e s m s0 : grown 1 s0 m -> flow_grown s0 (stop e s m).
Proof. intros H. unfold stop. by destruct (failure e). Qed.
Lemma stop_form e s m x : flow_form x (stop e s m).
Proof. unfold stop. by destruct (failure e). Qed.
Lemma grown_0 s s' : grown 0 s s' -> grown 1 s s'.
Proof. intros [? ?]. split; [lia|done]. Qed.
Lemma grown_from s0 s s' : grown 0 s0 s -> grown 1 s s' -> grown 1 s0 s'.
Proof. intros [H1 H2] [H3 H4]. split; [lia|congruence]. Qed.
Lemma flow_grown_from s0 s f : grown 0 s0 s -> flow_grown s f -> flow_grown s0 f.
Proof. destruct f; cbn; intros; try done; by eapply grown_from. Qed.

Lemma field_part_grown s p nm : flow_grown s (field_part limits s p nm).
Proof.
  unfold field_part. destruct (ends p) as [e|].
  - apply stop_grown. destruct (incomplete e); [apply add_field_grown|by apply grown_0].
  - cbv zeta. set (s' := if eq_ignore_ascii_case _ _ then _ else s). cbn [flow_grown]. eapply grown_from; [|apply add_field_grown].
    unfold s'. by destruct (eq_ignore_ascii_case _ _).
Qed.
Lemma field_part_form s p nm :
  flow_form (if bool_decide (ends p = None) && eq_ignore_ascii_case nm (lit "MAX_FILE_SIZE")
             then strtoll (from_utf8_lossy (concat (data p))) else form_max s) (field_part limits s p nm).
Proof.
  unfold field_part. destruct (ends p) as [e|]; [apply stop_form|]. cbn. rewrite (proj2 (add_field_grown _ _ _)).
  by destruct (eq_ignore_ascii_case _ _).
Qed.

Lemma count_file_grown s : grown 0 s (count_file limits s).
Proof. unfold count_file. destruct (negb _); [done|]. destruct (_ <=? _); [|done]. by destruct (_ =? _). Qed.

Lemma cancelled_grown s s1 nm file e d : grown 0 s s1 -> grown 1 s (set_files s1 (files s1 ++ [cancelled nm file e]) (last_part s1) d).
Proof. intros [H1 H2]. unfold grown, held in *. cbn. rewrite length_app. cbn. split; [lia|done]. Qed.

Lemma store_file_grown s p nm file : flow_grown s (store_file s p nm file) /\ flow_form (form_max s) (store_file s p nm file).
Proof.
  unfold store_file, Upload.store_file. case_bool_decide; [split; [by apply (cancelled_grown s)|done]|]. cbv zeta.
  destruct temp_dir as [dir|]; [|done]. destruct (_ || _); [done|]. destruct (receive _ _ _ _ _ _ _) as [[|e|e|] w]; cbn [flow_grown flow_form].
  - split; [|done]. unfold grown, held. cbn. rewrite length_app. cbn. split; [lia|done].
  - split; [|done]. by apply (cancelled_grown s).
  - split; [|apply stop_form]. apply stop_grown. destruct (incomplete e); [by apply (cancelled_grown s)|by apply grown_0].
  - done.
Qed.

Lemma file_part_grown s p :
  let f := file_part limits temp_dir unique_name create_ok write_ok flushed s p in flow_grown s f /\ flow_form (form_max s) f.
Proof.
  cbv zeta. unfold file_part. pose proof (count_file_grown s) as Hg. pose proof (count_file_form s) as Hf.
  set (s1 := count_file limits s) in *. cbv zeta.
  destruct (filename p) as [file|]; [|split; [|done]; by apply grown_0].
  set (x := match name p with Some nm => _ | None => _ end).
  assert (grown 0 s x.2 /\ form_max x.2 = form_max s) as [Hx Hxf] by (unfold x; by destruct (name p)).
  destruct x as [nm s2]. cbn [snd] in *. set (s3 := if _ && _ then _ else s2).
  assert (grown 0 s s3 /\ form_max s3 = form_max s) as [H3 H3f] by (unfold s3; by destruct (_ && _)).
  destruct (skip_files s3); [split; [by apply grown_0|done]|]. destruct (store_file_grown s3 p nm file) as [H4 H5].
  split; [by eapply flow_grown_from|by rewrite <- H3f].
Qed.

Lemma cut_last_held s : held (cut_last bound s) = held s.
Proof.
  unfold cut_last. destruct (last_part s) as [[i raw|i]|]; [| |done].
  - destruct (fields s !! i) as [[nm v]|]; [|done]. unfold held. cbn. by rewrite length_insert.
  - destruct (files s !! i); [|done]. unfold held. cbn. by rewrite length_insert.
Qed.

(** A field that sets the limit sets it for the parts after it. *)
Lemma turn_form s it : flow_form (form_step (form_max s) it) (turn s it).
Proof.
  unfold turn, Upload.turn. destruct it as [p|e]; [|apply stop_form]. case_bool_decide; [done|]. cbv zeta.
  destruct p as [disp nm fn ty d en]. cbn [disposition name filename]. destruct disp; [|done].
  cbn [negb]. destruct (_ <? 0); [done|]. set (s1 := set_parts_left _ _).
  destruct nm as [nm|]; [|by apply (file_part_grown s1)].
  destruct fn as [fn|]; [by apply (file_part_grown s1)|]. pose proof (field_part_form s1 (mkPart true (Some nm) None ty d en) nm) as Hf.
  cbn [ends data] in Hf. by destruct en.
Qed.

Definition parts_inv (s : Loop) : Prop :=
  i64_min < parts_left s <= i64_max /\ Z.of_nat (held s) + Z.max 0 (parts_left s) <= Z.max 0 (parts_limit limits).
Lemma turn_parts s it :
  parts_inv s ->
  match turn s it with
  | Next s' => parts_inv s' | Break s' => Z.of_nat (held s') <= Z.max 0 (parts_limit limits) | Return _ _ => True
  end.
Proof.
  intros [Hp Hh]. unfold turn, Upload.turn. destruct it as [p|e]; [|unfold stop; destruct (failure e); [done|done|lia]].
  case_bool_decide; [rewrite cut_last_held; lia|]. cbv zeta.
  destruct (negb (disposition p)); [by split|].
  assert (wrap_i64 (parts_left s - 1) = parts_left s - 1) as ->.
  { apply wrap_i64_id. unfold i64_min, i64_max in *. lia. }
  set (s1 := set_parts_left _ (parts_left s - 1)). change (parts_left s1) with (parts_left s - 1). change (held s) with (held s1) in Hh.
  destruct (Z.ltb_spec (parts_left s - 1) 0); [change (Z.of_nat (held s1) <= Z.max 0 (parts_limit limits)); lia|].
  assert (forall f, flow_grown s1 f -> match f with Next s' => parts_inv s'
            | Break s' => Z.of_nat (held s') <= Z.max 0 (parts_limit limits) | Return _ _ => True end) as Hf.
  { intros [s'|s'|r s']; cbn; [|intros [Hg _]; lia|done]. intros [Hg El]. change (parts_left s1) with (parts_left s - 1) in El.
    unfold parts_inv. rewrite El. unfold i64_min in *. lia. }
  apply Hf. destruct (name p) as [nm|], (filename p) as [file|]; try apply file_part_grown. apply field_part_grown.
Qed.

(** ** The whole of it *)

Definition guard_of (r : Parsed + UploadError) : list bytes := match r with inl p => temp_paths p | inr _ => [] end.
Definition within (r : Parsed + UploadError) (d : Disk) : Prop :=
  match r with
  | inl p => Forall (file_ok d (temp_paths p)) (p_files p)
             /\ Z.of_nat (length (p_fields p)) <= Z.max 0 (max_input_vars limits)
             /\ Z.of_nat (length (temp_paths p)) <= Z.max 0 (max_file_uploads limits)
             /\ (i64_min < parts_limit limits <= i64_max ->
                 Z.of_nat (length (p_fields p) + length (p_files p)) <= Z.max 0 (parts_limit limits))
  | inr _ => True
  end.

Lemma lookup_unlink (d : Disk) ps k : unlink d ps !! k = if bool_decide (k ∈ ps) then None else d !! k.
Proof.
  unfold unlink. revert d. induction ps as [|p ps IH]; intros d; cbn [foldl]; [done|]. rewrite IH.
  destruct (decide (k = p)) as [->|Hne].
  - rewrite lookup_delete_eq. repeat case_bool_decide; try done; exfalso; set_solver.
  - rewrite lookup_delete_ne by done. repeat case_bool_decide; try done; set_solver.
Qed.

Lemma unlink_guarded s : guarded s -> unlink (disk s) (temps s) = d0.
Proof.
  intros [G1 G2]. apply map_eq. intros k. rewrite lookup_unlink. case_bool_decide as Hk; [symmetry; by apply G2|by apply G1].
Qed.

Lemma walk_parts_ok its before k s :
  items = before ++ its -> form_max s = form_limit before -> (i64_min < parts_limit limits <= i64_max -> parts_inv s) ->
  0 <= k -> k + Z.of_nat (length its) < 2 ^ 63 - 1 -> inv k s ->
  let '(r, d) := walk_parts limits bound end_name temp_dir unique_name create_ok write_ok flushed its s in
  unlink d (guard_of r) = d0 /\ within r d.
Proof.
  revert before k s. induction its as [|it its IH]; intros before k s Hits Hform Hparts Hk0 Hk Hinv; cbn [walk_parts].
  - destruct Hinv as (HG & [HF _ _] & HN). split; [by apply unlink_guarded|]. unfold counts_inv in HN.
    split; [exact HF|]. cbn. split; [lia|]. split; [lia|]. intros Hl. destruct (Hparts Hl). unfold held in *. lia.
  - cbn [length] in Hk. pose proof (turn_ok k s it before its Hits Hform ltac:(lia) Hinv) as Ht.
    pose proof (turn_form s it) as Hf. pose proof (turn_parts s it) as Hq. fold (turn s it).
    destruct (turn s it) as [s'|s'|r s']; cbn [flow_ok flow_form] in Ht, Hf.
    + apply (IH (before ++ [it]) (k + 1)); [by rewrite Hits, <- app_assoc| |by intros Hl; apply Hq, Hparts|lia|lia|done].
      unfold form_limit. rewrite foldl_app. cbn [foldl]. by rewrite Hf, Hform.
    + destruct Ht as (HG & HF & HN). split; [by apply unlink_guarded|]. unfold counts_inv in HN.
      split; [exact HF|]. cbn. split; [lia|]. split; [lia|]. intros Hl. by apply Hq, Hparts.
    + destruct Ht as [HG Hr]. destruct r as [p|e].
      * destruct Hr as [ws ->]. split; [by apply unlink_guarded|]. split; [done|]. cbn. split; [lia|]. split; [lia|]. intros; lia.
      * split; [by apply unlink_guarded|done].
Qed.

Lemma start_inv sq : inv 0 (start_loop limits d0 sq).
Proof.
  split; [|split].
  - split; [done|]. by intros k Hk%elem_of_nil.
  - split; [done| |done]. cbn. intros i j f g Hi. by rewrite lookup_nil in Hi.
  - unfold counts_inv. cbn. lia.
Qed.
End Spec.

(** A file name has no directory part. *)
Lemma basename_clean b : existsb is_slash (basename b) = false.
Proof.
  induction b as [|x b IH]; [done|]. cbn [basename]. destruct (existsb is_slash b) eqn:E; [done|].
  destruct (is_slash x) eqn:Ex; [done|]. cbn [existsb]. by rewrite Ex, E.
Qed.

Section Whole.
Context (multer : bytes -> list (bytes + BoxError) -> list Item).
Context (temp_dir : option bytes) (unique_name : Z -> bytes) (create_ok : bytes -> bool) (write_ok : bytes -> bytes -> bool).
Context (flushed : bytes -> bytes -> bytes).
Context (Htext : forall dir n, temp_dir = Some dir -> from_utf8_lossy (dir ++ lit "/" ++ unique_name n) = dir ++ lit "/" ++ unique_name n).
Context (Hparts : forall b cs, Z.of_nat (length (multer b cs)) < 2 ^ 63 - 1).
Abbreviation parse := (parse multer temp_dir unique_name create_ok write_ok flushed).

(** What the parser is given: the body, and a last part that says it is over. *)
Definition closing (b : bytes) (sq : Z) : bytes :=
  EOL ++ lit "--" ++ b ++ EOL ++ lit "Content-Disposition: form-data; name=" ++ [QUOTE] ++ (lit "askr-body-end-" ++ unique_name sq)
  ++ [QUOTE] ++ EOL ++ EOL.
Definition given (body : list (bytes + bytes)) (max_total : Z) (limits : UploadLimits) (sq : Z) (b : bytes) : list (bytes + BoxError) :=
  ended max_total (post_limit limits max_total) (Some (closing b sq)) 0 body.
Definition parts_of (body : list (bytes + bytes)) (ct : bytes) (max_total : Z) (limits : UploadLimits) (sq : Z) : list Item :=
  match boundary ct with inl b => multer b (given body max_total limits sq b) | inr _ => [] end.

Lemma ended_within max post tail chunks read :
  read + Z.of_nat (length (concat chunks)) <= max ->
  (forall m, post = Some m -> read + Z.of_nat (length (concat chunks)) <= m) ->
  ended max post (Some tail) read (inl <$> chunks) = inl <$> (chunks ++ [tail]).
Proof.
  revert read. induction chunks as [|c chunks IH]; intros read Hm Hp; cbn [fmap list_fmap ended concat length app] in *.
  - destruct post as [m|]; [|done]. specialize (Hp m eq_refl). by replace (m <? read) with false by lia.
  - rewrite length_app in *. replace (max <? _) with false by lia.
    assert (match post with Some m => m <? read + Z.of_nat (length c) | None => false end = false) as ->.
    { destruct post as [m|]; [|done]. specialize (Hp m eq_refl). lia. }
    f_equal. apply IH; [lia|]. intros m Hpm. specialize (Hp m Hpm). lia.
Qed.

Lemma start_parts limits d sq :
  i64_min < parts_limit limits <= i64_max -> parts_inv limits (start_loop limits d sq).
Proof. intros H. split; [exact H|]. unfold held. cbn. lia. Qed.

Lemma upload_parse_ok body ct max_total len limits d sq :
  max_file_uploads limits <= i64_max ->
  let '(r, d') := parse body ct max_total len limits d sq in
  unlink d' (guard_of r) = d /\ within limits flushed (parts_of body ct max_total limits sq) r d'.
Proof.
  intros Hm. unfold Upload.parse. set (parts := parts_of _ _ _ _ _).
  assert (forall ws, unlink d (guard_of (inl (empty_parsed ws))) = d /\ within limits flushed parts (inl (empty_parsed ws)) d) as Hempty.
  { intros ws. split; [done|]. split; [done|]. cbn. lia. }
  destruct (match len with Some n => max_total <? n | None => false end); [done|]. cbv zeta.
  set (o := match len with Some _ => _ | None => _ end). destruct o as [[l m]|]; [apply Hempty|].
  destruct (boundary ct) as [b|w] eqn:Eb.
  - assert (parts = multer b (given body max_total limits sq b)) as Ep by (unfold parts, parts_of; by rewrite Eb).
    pose proof (walk_parts_ok limits b (lit "askr-body-end-" ++ unique_name sq) temp_dir unique_name create_ok write_ok flushed Htext Hm
                  parts ltac:(rewrite Ep; apply Hparts) d parts [] 0 (start_loop limits d (wrap64 (sq + 1))) eq_refl eq_refl
                  (start_parts limits d _) ltac:(lia) ltac:(rewrite Ep; apply Hparts) (start_inv limits flushed Hm parts d _)) as H.
    match goal with |- context [walk_parts _ _ _ _ _ _ _ _ ?x _] => change x with (multer b (given body max_total limits sq b)) end.
    rewrite <- Ep. exact H.
  - destruct (if bool_decide _ && bool_decide _ then drain _ else None) as [[|l m|e]|]; try apply Hempty; done.
Qed.

(** A form over [post_max_size] by its length is empty. *)
Lemma over_by_length body ct max_total n m limits d sq p d' :
  post_limit limits max_total = Some m -> m < n ->
  parse body ct max_total (Some n) limits d sq = (inl p, d') -> p = over_post_max n m.
Proof.
  intros Hm Hn. unfold Upload.parse. destruct (max_total <? n); [done|]. cbv zeta. rewrite Hm. replace (m <? n) with true by lia.
  by intros [= <- _].
Qed.
End Whole.

(** ** File field names: the walk and the grammar *)

(** A name, then any number of subscripts; neither holds a bracket. *)
Definition plain (b : bytes) : Prop := (91 ∉ b) /\ (93 ∉ b).
Definition subscripts (gs : list bytes) : bytes := concat (map (fun g => 91 :: g ++ [93]) gs).
Definition php_name (b : bytes) : Prop := exists base gs, plain base /\ Forall plain gs /\ b = base ++ subscripts gs.

Lemma plain_cons c b : c <> 91 -> c <> 93 -> plain b -> plain (c :: b).
Proof. intros H1 H2 [? ?]. split; intros [?|?]%elem_of_cons; by try congruence. Qed.
Lemma plain_nil : plain [].
Proof. split; by intros ?%elem_of_nil. Qed.

(** Never two deep, and not one deep before another bracket. *)
Lemma keeps_shallow d b : keeps_from d b = true -> d <= 1 /\ (head b = Some 91 -> d <= 0).
Proof.
  revert d. induction b as [|c b IH]; intros d; cbn [keeps_from head].
  { intros H%Z.eqb_eq. split; [lia|done]. }
  cbv zeta. destruct (Z.eqb_spec c 91) as [->|H91].
  - cbn [andb Z.eqb Pos.eqb]. destruct (_ <? 0); [done|]. intros [H _]%IH. split; [lia|intros _; lia].
  - assert (Some c = Some 91 -> d <= 0) as Hc by (intros [= ?]; done).
    destruct (Z.eqb_spec c 93) as [->|H93]; cbn [andb].
    + destruct b as [|n b]; cbn [andb].
      * destruct (_ <? 0); [done|]. intros H%Z.eqb_eq. split; [lia|done].
      * destruct (Z.eqb_spec n 91) as [->|]; [|done]. cbn [negb]. destruct (_ <? 0); [done|]. intros [_ H]%IH. specialize (H eq_refl).
        split; [lia|done].
    + destruct (_ <? 0); [done|]. intros [H _]%IH. split; [lia|done].
Qed.

Lemma keeps_sound b :
  (keeps_from 0 b = true -> php_name b)
  /\ (keeps_from 1 b = true -> exists g gs, plain g /\ Forall plain gs /\ b = g ++ [93] ++ subscripts gs).
Proof.
  induction b as [|c b [IH0 IH1]]; cbn [keeps_from].
  { split; [|done]. intros _. exists [], []. split_and!; [apply plain_nil|done|done]. }
  cbv zeta. destruct (Z.eqb_spec c 91) as [->|H91].
  - cbn [andb Z.eqb Pos.eqb]. split; cbn [Z.add Z.ltb Z.compare].
    + intros (g & gs & Hg & Hgs & ->)%IH1. exists [], (g :: gs). split_and!; [apply plain_nil|by constructor|].
      unfold subscripts. cbn. by rewrite <- app_assoc.
    + intros H%keeps_shallow. cbn in H. lia.
  - destruct (Z.eqb_spec c 93) as [->|H93]; cbn [andb].
    + split; (destruct (match b with n :: _ => _ | [] => _ end) eqn:En; [done|]); cbn [Z.sub Z.add Z.opp Z.ltb Z.compare Pos.compare]; [done|].
      intros (base & gs & Hb & Hgs & ->)%IH0. exists [], gs. split_and!; [apply plain_nil|done|].
      destruct base as [|x base]; [done|]. exfalso. cbn in En. destruct (Z.eqb_spec x 91) as [->|]; [|done].
      destruct Hb as [Hb _]. apply Hb. by left.
    + cbn [Z.ltb Z.compare]. split.
      * intros (base & gs & Hb & Hgs & ->)%IH0. exists (c :: base), gs. split_and!; [by apply plain_cons|done|done].
      * intros (g & gs & Hb & Hgs & ->)%IH1. exists (c :: g), gs. split_and!; [by apply plain_cons|done|done].
Qed.

Lemma keeps_plain d g b : 0 <= d -> plain g -> keeps_from d (g ++ b) = keeps_from d b.
Proof.
  intros Hd. induction g as [|c g IH]; [done|]. intros [H1 H2]. cbn [app keeps_from]. cbv zeta.
  rewrite (proj2 (Z.eqb_neq c 91)), (proj2 (Z.eqb_neq c 93)) by (intros ->; by (apply H1; left) || (apply H2; left)).
  cbn [andb]. rewrite (proj2 (Z.ltb_ge d 0)) by done. apply IH. split; intros ?; [apply H1|apply H2]; by right.
Qed.

Lemma keeps_subscripts gs : Forall plain gs -> keeps_from 0 (subscripts gs) = true.
Proof.
  induction 1 as [|g gs Hg Hgs IH]; [done|]. unfold subscripts. cbn [map concat app]. fold (subscripts gs).
  rewrite <- app_assoc. cbn [keeps_from Z.eqb Pos.eqb andb Z.add Z.ltb Z.compare].
  rewrite keeps_plain by done. cbn [app keeps_from Z.eqb Pos.eqb andb]. cbv zeta.
  destruct (subscripts gs) as [|n b] eqn:E; [done|].
  assert (n = 91) as -> by (destruct gs; [done|]; by injection E). exact IH.
Qed.

(** A file field's name is kept exactly when it is a name followed by subscripts, each closed
    before the next opens and none with a bracket inside. *)
Theorem file_name_kept_iff b : php_keeps_file_name b = true <-> php_name b.
Proof.
  unfold php_keeps_file_name. split; [apply keeps_sound|]. intros (base & gs & Hb & Hgs & ->).
  rewrite keeps_plain by done. by apply keeps_subscripts.
Qed.

(** ** Numbers *)

(** The digits at the front, as a number of any size. *)
Fixpoint digits_value (n : Z) (b : bytes) : Z :=
  match b with
  | c :: b => if is_ascii_digit c then digits_value (n * 10 + (c - 48)) b else n
  | [] => n
  end.
Definition clamp_i64 (x : Z) : Z := Z.max i64_min (Z.min i64_max x).

Lemma digits_value_ge n b : 0 <= n -> n <= digits_value n b.
Proof.
  revert n. induction b as [|c b IH]; intros n Hn; cbn [digits_value]; [lia|].
  destruct (is_ascii_digit c) eqn:Ec; [|lia]. unfold is_ascii_digit, between in Ec. apply andb_true_iff in Ec as [? ?].
  transitivity (n * 10 + (c - 48)); [lia|]. apply IH. lia.
Qed.

Lemma in_i64_step x y : (0 <= x /\ 0 <= y \/ x <= 0 /\ y <= 0) ->
  match in_i64 x with Some z => in_i64 (z + y) | None => None end = in_i64 (x + y).
Proof.
  intros H. unfold in_i64, i64_min, i64_max.
  destruct (Z.leb_spec (- 2 ^ 63) x), (Z.leb_spec x (2 ^ 63 - 1)); cbn [andb]; [done|..];
    destruct (Z.leb_spec (- 2 ^ 63) (x + y)), (Z.leb_spec (x + y) (2 ^ 63 - 1)); cbn [andb]; done || lia.
Qed.

Lemma strtoll_digits_clamp (neg : bool) n b :
  let sign x := if neg then - x else x in
  0 <= n -> i64_min <= sign n <= i64_max -> strtoll_digits neg (sign n) b = clamp_i64 (sign (digits_value n b)).
Proof.
  cbv zeta. revert n. induction b as [|c b IH]; intros n Hn Hr; cbn [strtoll_digits digits_value].
  { unfold clamp_i64. lia. }
  destruct (is_ascii_digit c) eqn:Ec; cbn [negb]; [|unfold clamp_i64; lia].
  assert (0 <= c - 48 <= 9) as Hc by (unfold is_ascii_digit, between in Ec; lia).
  set (m := n * 10 + (c - 48)). pose proof (digits_value_ge m b ltac:(lia)) as Hge.
  assert ((match in_i64 ((if neg then - n else n) * 10) with
           | Some x => in_i64 (if neg then x - (c - 48) else x + (c - 48)) | None => None end)
          = in_i64 (if neg then - m else m)) as ->.
  { destruct neg.
    - replace (- m) with (- n * 10 + - (c - 48)) by lia. apply in_i64_step. lia.
    - apply in_i64_step. lia. }
  unfold in_i64. destruct (_ && _) eqn:E.
  - rewrite IH; [done|lia|]. destruct neg; lia.
  - unfold clamp_i64, i64_min, i64_max in *. destruct neg; lia.
Qed.

(** A [MAX_FILE_SIZE] is read as C's [strtoll] reads it: past the white space, with its sign,
    digits as long as they last, clamped to 64 bits. *)
Theorem strtoll_clamps s :
  strtoll s = match trim_c_space s with
              | 45 :: b => clamp_i64 (- digits_value 0 b)
              | 43 :: b | b => clamp_i64 (digits_value 0 b)
              end.
Proof.
  unfold strtoll. assert (i64_min <= 0 <= i64_max) as H by (by unfold i64_min, i64_max).
  assert (forall b, strtoll_digits true 0 b = clamp_i64 (- digits_value 0 b)) as Hn
    by (intros b; by apply (strtoll_digits_clamp true 0 b)).
  assert (forall b, strtoll_digits false 0 b = clamp_i64 (digits_value 0 b)) as Hp
    by (intros b; by apply (strtoll_digits_clamp false 0 b)).
  destruct (trim_c_space s) as [|c b]; [done|]. destruct c as [|c|c]; [apply Hp| |apply Hp].
  repeat (destruct c as [c|c|]; try apply Hp; try apply Hn).
Qed.

(** ** What is promised *)

(** C23.  Whatever the body is and however it fails — too large, unreadable, broken, no directory,
    a full disk — unlinking the temp files the result's guard names gives back the file system as
    it was; and an error leaves nothing behind at all. *)
Theorem uploads_leave_nothing multer temp_dir unique_name create_ok write_ok flushed body ct max_total len limits d sq :
  (forall dir n, temp_dir = Some dir -> from_utf8_lossy (dir ++ lit "/" ++ unique_name n) = dir ++ lit "/" ++ unique_name n) ->
  (forall b cs, Z.of_nat (length (multer b cs)) < 2 ^ 63 - 1) ->
  max_file_uploads limits <= i64_max ->
  let '(r, d') := parse multer temp_dir unique_name create_ok write_ok flushed body ct max_total len limits d sq in
  match r with inl p => unlink d' (temp_paths p) = d | inr _ => d' = d end.
Proof.
  intros Ht Hp Hm. pose proof (upload_parse_ok multer _ unique_name create_ok write_ok flushed Ht Hp body ct max_total len limits d sq Hm) as H.
  destruct (parse _ _ _ _ _ _ _ _ _ _ _ _ _) as [[p|e] d']; by destruct H.
Qed.

(** C24.  PHP's limits hold of what the application is given: no more fields than [max_input_vars], no
    more temp files than [max_file_uploads], no more of both than the parts a body may have, and
    nothing of a body whose length is over [post_max_size].  No file's name has a directory part.  A
    file without an error is a part that the parser made of this body at its boundary -- of all of
    it, when it is within the limits, and then of the mark of its end -- of the size said, not
    over [upload_max_filesize] nor over the last [MAX_FILE_SIZE] before it, in a temp file of the
    guard that holds what its flush left; any other has no temp file and no size. *)
Theorem uploads_within_limits multer temp_dir unique_name create_ok write_ok flushed body ct max_total len limits d sq :
  (forall dir n, temp_dir = Some dir -> from_utf8_lossy (dir ++ lit "/" ++ unique_name n) = dir ++ lit "/" ++ unique_name n) ->
  (forall b cs, Z.of_nat (length (multer b cs)) < 2 ^ 63 - 1) ->
  max_file_uploads limits <= i64_max ->
  forall p d', parse multer temp_dir unique_name create_ok write_ok flushed body ct max_total len limits d sq = (inl p, d') ->
  Z.of_nat (length (p_fields p)) <= Z.max 0 (max_input_vars limits)
  /\ Z.of_nat (length (temp_paths p)) <= Z.max 0 (max_file_uploads limits)
  /\ (i64_min < parts_limit limits <= i64_max ->
      Z.of_nat (length (p_fields p) + length (p_files p)) <= Z.max 0 (parts_limit limits))
  /\ (forall n m, len = Some n -> post_limit limits max_total = Some m -> m < n -> p = over_post_max n m)
  /\ (forall f, f ∈ p_files p ->
      existsb is_slash (file_name f) = false
      /\ (error f = 0 /\ tmp_path f ∈ temp_paths p
          /\ (exists b before part after, boundary ct = inl b
              /\ multer b (given unique_name body max_total limits sq b) = before ++ APart part :: after
              /\ filename part = Some (full_path f) /\ ends part = None
              /\ size f = Z.of_nat (length (concat (data part)))
              /\ (form_limit before <> 0 -> size f <= Z.max 0 (form_limit before))
              /\ d' !! tmp_path f = Some (flushed (tmp_path f) (concat (data part))))
          /\ (0 < upload_max_filesize limits -> size f <= upload_max_filesize limits)
          \/ error f <> 0 /\ tmp_path f = [] /\ size f = 0))
  /\ (forall chunks b, body = inl <$> chunks -> Z.of_nat (length (concat chunks)) <= max_total ->
      (forall m, post_limit limits max_total = Some m -> Z.of_nat (length (concat chunks)) <= m) ->
      given unique_name body max_total limits sq b = inl <$> (chunks ++ [closing unique_name b sq])).
Proof.
  intros Ht Hp Hm p d' E. pose proof (upload_parse_ok multer _ unique_name create_ok write_ok flushed Ht Hp body ct max_total len limits d sq Hm) as H.
  rewrite E in H. destruct H as (_ & Hf & H1 & H2 & H3). split; [done|]. split; [done|]. split; [done|].
  split; [intros n m -> Hpl Hn; by eapply over_by_length|]. split.
  2:{ intros chunks b -> Hc Hpm. by apply ended_within. }
  intros f Hin. rewrite Forall_forall in Hf. destruct (Hf f Hin) as [Hn Hk]. split; [rewrite Hn; apply basename_clean|].
  destruct Hk as [(He & Hin' & q & (before & after & Ei & Hform) & ? & ? & ? & ? & ?)|?]; [left|by right]. split_and!; try done.
  unfold parts_of in Ei. destruct (boundary ct) as [b|] eqn:Eb; [|by destruct before].
  exists b, before, q, after. by split_and!.
Qed.

(** *** A body with a field, a file, a file too large and a field too many *)
Module Sample.
Definition named (n : bytes) (f : option bytes) (d : list bytes) : Item := APart (mkPart true (Some n) f None d None).
Definition items : list Item :=
  [named (lit "title") None [lit "hello"]; named (lit "photo") (Some (lit "C:\me\a.jpg")) [lit "ab"; lit "c"];
   named (lit "film") (Some (lit "b.mov")) [lit "abcdef"]; named (lit "more") None [lit "x"]].
(** The parts, when the body is the one that holds them. *)
Definition multer (b : bytes) (cs : list (bytes + BoxError)) : list Item :=
  if bool_decide (head (omap (fun c => match c with inl x => Some x | inr _ => None end) cs) = Some (lit "body")) then items else [].
Definition limits : UploadLimits := mkLimits true 4 20 1000 1 (-1).
Definition disk0 : Disk := {[ lit "/etc/motd" := lit "hi" ]}.
Definition unique (n : Z) : bytes := if n =? 8 then lit "8" else lit "9".
Definition run (write_ok : bytes -> bytes -> bool) (flushed : bytes -> bytes -> bytes) : (Parsed + UploadError) * Disk :=
  parse multer (Some (lit "/tmp/askr")) unique (fun _ => true) write_ok flushed [inl (lit "body")]
    (lit "multipart/form-data; boundary=b") 100 None limits disk0 7.
Definition seen (r : Parsed + UploadError) :=
  match r with
  | inl p => inl (p_fields p, (fun f => (file_name f, size f, error f)) <$> p_files p, temp_paths p, length (p_warnings p))
  | inr e => inr e
  end.
Definition all_written : bytes -> bytes -> bool := fun _ _ => true.
Definition kept : bytes -> bytes -> bytes := fun _ w => w.
End Sample.

Example sample_seen : Sample.seen (Sample.run Sample.all_written Sample.kept).1 =
  inl ([(lit "title", lit "hello")], [(lit "a.jpg", 3, 0); (lit "b.mov", 0, 1)], [lit "/tmp/askr/8"; lit "/tmp/askr/9"], 1%nat).
Proof. vm_compute. reflexivity. Qed.

Lemma unique_text dir n :
  Some (lit "/tmp/askr") = Some dir -> from_utf8_lossy (dir ++ lit "/" ++ Sample.unique n) = dir ++ lit "/" ++ Sample.unique n.
Proof. intros [= <-]. unfold Sample.unique. by destruct (n =? 8). Qed.

Lemma few_parts b cs : Z.of_nat (length (Sample.multer b cs)) < 2 ^ 63 - 1.
Proof. unfold Sample.multer. by destruct (bool_decide _). Qed.

Lemma uploads_leave_nothing_witness :
  (Sample.run (fun _ w => (length w <? 3)%nat) Sample.kept).1 = inr (Parse (lit "temp write failed"))
  /\ let '(r, d') := Sample.run (fun _ w => (length w <? 3)%nat) Sample.kept in
     match r with inl p => unlink d' (temp_paths p) = Sample.disk0 | inr _ => d' = Sample.disk0 end.
Proof.
  split; [vm_compute; reflexivity|]. unfold Sample.run.
  apply uploads_leave_nothing; [apply unique_text|apply few_parts|discriminate].
Defined.

Lemma uploads_within_limits_witness :
  match (Sample.run Sample.all_written Sample.kept).1 with inl p => length (p_files p) = 2%nat | inr _ => False end
  /\ (forall p d', Sample.run Sample.all_written Sample.kept = (inl p, d') -> Z.of_nat (length (p_fields p)) <= 1)
  /\ given Sample.unique [inl (lit "body")] 100 Sample.limits 7 (lit "b") = inl <$> [lit "body"; closing Sample.unique (lit "b") 7].
Proof.
  assert (match (Sample.run Sample.all_written Sample.kept).1 with inl p => length (p_files p) = 2%nat | inr _ => False end) as Hr
    by (vm_compute; reflexivity).
  split; [exact Hr|]. destruct (Sample.run Sample.all_written Sample.kept) as [[p0|e0] d0] eqn:E0; [clear Hr|destruct Hr].
  assert (max_file_uploads Sample.limits <= i64_max) as Hm by (vm_compute; discriminate).
  unfold Sample.run in E0. pose proof (uploads_within_limits _ _ _ _ _ _ _ _ _ _ _ _ _ unique_text few_parts Hm p0 d0 E0)
    as (H1 & _ & _ & _ & _ & H2).
  split; [by intros p d' [= <- <-]|]. apply (H2 [lit "body"] (lit "b")); [reflexivity|vm_compute; discriminate|].
  vm_compute. by intros m [= <-].
Defined.

(** A finding: the last write's error is reported at the flush, which is not looked at, so a file
    lost to a full disk is a whole upload to the application. *)
Lemma flush_error_ignored :
  match Sample.run Sample.all_written (fun _ _ => []) with
  | (inl p, d') => match p_files p with
                   | f :: _ => error f = 0 /\ size f = 3 /\ d' !! tmp_path f = Some []
                   | [] => False
                   end
  | _ => False
  end.
Proof. vm_compute. done. Qed.
