(* ===== verification/Supervisor.v ===== *)
(** The supervisor ([supervisor.rs]): forking workers into slots, reaping and respawning them,
    rolling reloads with their canary gate, recycling by memory, queue autoscaling, shutdown.

    The main loop is a machine: a program counter [Pc] and one step from each, in which it reads
    or writes the shared atomics and makes at most one fork.  Between any two steps a signal
    handler may run, or a reload from the admin thread; each of these is one step.  The kernel is
    in the state: the children that have not been reaped, and whether each has been told to go.
    [fork], [waitpid], the clock and the sizes come with each step as its [Env].

    Percentages and means are compared as the [f64]s they are. *)

From Stdlib Require Import Floats.SpecFloat.
From stdpp Require Import gmap.
From S2P Require Import Prelude.

(** ** Sizes and settings *)

Definition MAX_WORKERS : nat := 512.
Definition STAT_SLOTS : nat := 512.
Definition QUEUE_BACKLOG_PER_WORKER : Z := 10.
Definition BOOT_FAIL_SECS : Z := 3.
Definition FASTFAIL_WINDOW_SECS : Z := 30.

Record Conf := mkConf {
  web : nat; queue_min : nat; queue_max : nat; sched : nat; ncmds : nat;
  max_rss_mb : Z; queue_enabled : bool;
  canary_enabled : bool; canary_window : Z; canary_min_requests : Z;
  canary_max_err_rate : Z; canary_max_lat_factor : Z;
  verify_enabled : bool; verify_timeout : Z }.

(** The slots: web, queue, scheduler, commands. *)
Inductive Kind := Web | Queue | Scheduler | Command.
#[global] Instance kind_eq : EqDecision Kind.
Proof. solve_decision. Defined.
Definition workers (c : Conf) : nat := Nat.min (web c + queue_max c + sched c + ncmds c) MAX_WORKERS.
Definition kind_of (c : Conf) (i : nat) : Kind :=
  if (i <? web c)%nat then Web
  else if (i <? web c + queue_max c)%nat then Queue
  else if (i <? web c + queue_max c + sched c)%nat then Scheduler
  else Command.

(** ** Counters in shared memory *)

Record WorkerStat := mkStat { requests : Z; errors : Z; us_sum : Z }.
Definition snapshot (s : WorkerStat) : Z * Z * Z :=
  (requests s, errors s, if requests s =? 0 then 0 else us_sum s / requests s).

(** What [verify::gate] reads of the replay. *)
Record Region := mkRegion { done : bool; replayed : Z; regressed : Z }.
Inductive Gate := Wait | Pass (n : Z) | GateFail.
#[global] Instance gate_eq : EqDecision Gate.
Proof. solve_decision. Defined.
Definition gate (timeout : Z) (r : option Region) (elapsed : Z) : Gate :=
  match r with
  | None => Pass 0
  | Some r => if negb (done r) then (if elapsed <? timeout then Wait else GateFail)
              else if 0 <? regressed r then GateFail
              else Pass (replayed r)
  end.
Definition verify_reset (c : Conf) (r : option Region) : option Region :=
  if verify_enabled c then (fun _ => mkRegion false 0 0) <$> r else r.

(** ** The state *)

Inductive Status := ExitCode (n : Z) | KilledBy (sig : Z).

(** A child that has not been reaped: its slot, and whether it has been sent SIGTERM. *)
Record Proc := mkProc { slot : nat; told : bool }.

(** Why a process was told to go, and what else is worth a line in a history. *)
Inductive Event :=
  ERoll (i : nat) (pid : Z) | ECanary (pid : Z) | EDrain (pid : Z) | ERss (pid : Z) | EScale (pid : Z) | ETerm
| EReload (now : Z) | EVerdict (passed : bool) | EBoot (now : Z) | EHealthy | ERespawn (i : nat) | EOther (pid : Z) | EFork (pid : Z).

Inductive After := AReap | ARefill (i : nat) | AScale (j want : nat).
Inductive Pc :=
  Reap | Fork (i : nat) (k : After) | Record_ (i : nat) (pid : Z) (k : After) | Roll | Refill (i : nat)
| Canary | Rss | Autoscale | Scale (j want : nat) | Check | Exited (code : Z) | Panicked.

Record World := mkWorld {
  children : list Z; spawn_at : list Z; recycle_sent : list Z; quarantined : list bool;
  shutdown : bool; reload_cursor : Z; respawn_count : Z; queue_desired : nat;
  canary_active : bool; canary_deadline : Z; fleet_req : Z; fleet_err : Z; fleet_us : Z; rollout : Z;
  fastfail_count : Z; fastfail_window : Z;
  stats : option (list WorkerStat); replay : option Region;
  procs : gmap Z Proc; pc : Pc; log : list Event }.

(** What one step is given. *)
Record Env := mkEnv {
  now : Z; exited : option (Z * Status); forked : option Z; rss : Z -> option Z;
  mem_due : bool; queue_due : bool; ready : Z }.

Definition goto (w : World) (p : Pc) : World :=
  mkWorld (children w) (spawn_at w) (recycle_sent w) (quarantined w) (shutdown w) (reload_cursor w) (respawn_count w)
    (queue_desired w) (canary_active w) (canary_deadline w) (fleet_req w) (fleet_err w) (fleet_us w) (rollout w)
    (fastfail_count w) (fastfail_window w) (stats w) (replay w) (procs w) p (log w).
Definition note (w : World) (e : Event) : World :=
  mkWorld (children w) (spawn_at w) (recycle_sent w) (quarantined w) (shutdown w) (reload_cursor w) (respawn_count w)
    (queue_desired w) (canary_active w) (canary_deadline w) (fleet_req w) (fleet_err w) (fleet_us w) (rollout w)
    (fastfail_count w) (fastfail_window w) (stats w) (replay w) (procs w) (pc w) (e :: log w).
Definition set_slots (w : World) ch sp : World :=
  mkWorld ch sp (recycle_sent w) (quarantined w) (shutdown w) (reload_cursor w) (respawn_count w)
    (queue_desired w) (canary_active w) (canary_deadline w) (fleet_req w) (fleet_err w) (fleet_us w) (rollout w)
    (fastfail_count w) (fastfail_window w) (stats w) (replay w) (procs w) (pc w) (log w).
Definition set_procs (w : World) ps : World :=
  mkWorld (children w) (spawn_at w) (recycle_sent w) (quarantined w) (shutdown w) (reload_cursor w) (respawn_count w)
    (queue_desired w) (canary_active w) (canary_deadline w) (fleet_req w) (fleet_err w) (fleet_us w) (rollout w)
    (fastfail_count w) (fastfail_window w) (stats w) (replay w) ps (pc w) (log w).
Definition set_sent (w : World) rs : World :=
  mkWorld (children w) (spawn_at w) rs (quarantined w) (shutdown w) (reload_cursor w) (respawn_count w)
    (queue_desired w) (canary_active w) (canary_deadline w) (fleet_req w) (fleet_err w) (fleet_us w) (rollout w)
    (fastfail_count w) (fastfail_window w) (stats w) (replay w) (procs w) (pc w) (log w).
Definition set_quarantined (w : World) q : World :=
  mkWorld (children w) (spawn_at w) (recycle_sent w) q (shutdown w) (reload_cursor w) (respawn_count w)
    (queue_desired w) (canary_active w) (canary_deadline w) (fleet_req w) (fleet_err w) (fleet_us w) (rollout w)
    (fastfail_count w) (fastfail_window w) (stats w) (replay w) (procs w) (pc w) (log w).
Definition set_shutdown (w : World) : World :=
  mkWorld (children w) (spawn_at w) (recycle_sent w) (quarantined w) true (reload_cursor w) (respawn_count w)
    (queue_desired w) (canary_active w) (canary_deadline w) (fleet_req w) (fleet_err w) (fleet_us w) (rollout w)
    (fastfail_count w) (fastfail_window w) (stats w) (replay w) (procs w) (pc w) (log w).
Definition set_cursor (w : World) n : World :=
  mkWorld (children w) (spawn_at w) (recycle_sent w) (quarantined w) (shutdown w) n (respawn_count w)
    (queue_desired w) (canary_active w) (canary_deadline w) (fleet_req w) (fleet_err w) (fleet_us w) (rollout w)
    (fastfail_count w) (fastfail_window w) (stats w) (replay w) (procs w) (pc w) (log w).
Definition count_respawn (w : World) : World :=
  mkWorld (children w) (spawn_at w) (recycle_sent w) (quarantined w) (shutdown w) (reload_cursor w) (wrap64 (respawn_count w + 1))
    (queue_desired w) (canary_active w) (canary_deadline w) (fleet_req w) (fleet_err w) (fleet_us w) (rollout w)
    (fastfail_count w) (fastfail_window w) (stats w) (replay w) (procs w) (pc w) (log w).
Definition set_desired (w : World) n : World :=
  mkWorld (children w) (spawn_at w) (recycle_sent w) (quarantined w) (shutdown w) (reload_cursor w) (respawn_count w)
    n (canary_active w) (canary_deadline w) (fleet_req w) (fleet_err w) (fleet_us w) (rollout w)
    (fastfail_count w) (fastfail_window w) (stats w) (replay w) (procs w) (pc w) (log w).
Definition set_canary (w : World) active deadline r : World :=
  mkWorld (children w) (spawn_at w) (recycle_sent w) (quarantined w) (shutdown w) (reload_cursor w) (respawn_count w)
    (queue_desired w) active deadline (fleet_req w) (fleet_err w) (fleet_us w) r
    (fastfail_count w) (fastfail_window w) (stats w) (replay w) (procs w) (pc w) (log w).
Definition set_baseline (w : World) (t : Z * Z * Z) r : World :=
  mkWorld (children w) (spawn_at w) (recycle_sent w) (quarantined w) (shutdown w) (reload_cursor w) (respawn_count w)
    (queue_desired w) (canary_active w) (canary_deadline w) t.1.1 t.1.2 t.2 (rollout w)
    (fastfail_count w) (fastfail_window w) (stats w) r (procs w) (pc w) (log w).
Definition set_fastfail (w : World) n t : World :=
  mkWorld (children w) (spawn_at w) (recycle_sent w) (quarantined w) (shutdown w) (reload_cursor w) (respawn_count w)
    (queue_desired w) (canary_active w) (canary_deadline w) (fleet_req w) (fleet_err w) (fleet_us w) (rollout w)
    n t (stats w) (replay w) (procs w) (pc w) (log w).
Definition set_shared (w : World) st r : World :=
  mkWorld (children w) (spawn_at w) (recycle_sent w) (quarantined w) (shutdown w) (reload_cursor w) (respawn_count w)
    (queue_desired w) (canary_active w) (canary_deadline w) (fleet_req w) (fleet_err w) (fleet_us w) (rollout w)
    (fastfail_count w) (fastfail_window w) st r (procs w) (pc w) (log w).

(** ** Signals *)

(** [kill(pid, SIGTERM)]: nothing happens to a process that is not there. *)
Definition kill (w : World) (pid : Z) : World :=
  match procs w !! pid with
  | Some p => set_procs w (<[pid := mkProc (slot p) true]> (procs w))
  | None => w
  end.
Definition kill_slot (w : World) (pid : Z) : World := if 0 <? pid then kill w pid else w.
Definition kill_all (w : World) : World := foldl kill_slot w (children w).

Definition child (w : World) (i : nat) : Z := default 0 (children w !! i).

(** [roll_next]: the cursor moves until it has told somebody to go, or has passed the end. *)
Fixpoint roll_loop (n : nat) (w : World) (fuel : nat) : World :=
  match fuel with
  | O => w
  | S fuel =>
      let i := reload_cursor w in
      let w := set_cursor w (wrap64 (i + 1)) in
      if Z.of_nat n <=? i then w
      else
        let pid := child w (Z.to_nat i) in
        if 0 <? pid then note (kill w pid) (ERoll (Z.to_nat i) pid) else roll_loop n w fuel
  end.
Definition roll_next (c : Conf) (w : World) : World := roll_loop (workers c) w (S (workers c)).

Definition on_terminate (w : World) : World := note (kill_all (set_shutdown w)) ETerm.

Definition fleet_totals (st : option (list WorkerStat)) (skip_slot n : nat) : Z * Z * Z :=
  match st with
  | None => (0, 0, 0)
  | Some st =>
      foldl (fun '(r, e, us) i =>
        match st !! i with
        | Some s => if (i =? skip_slot)%nat then (r, e, us)
                    else (wrap64 (r + requests s), wrap64 (e + errors s), wrap64 (us + us_sum s))
        | None => (r, e, us)
        end) (0, 0, 0) (seq 0 (Nat.min n STAT_SLOTS))
  end.

Definition begin_reload (c : Conf) (now : Z) (w : World) : World :=
  let w := note w (EReload now) in
  if canary_enabled c then
    let w := set_baseline w (fleet_totals (stats w) 0 (workers c)) (verify_reset c (replay w)) in
    let w := set_canary w true (wrap64 (now + canary_window c)) 1 in
    let w := set_quarantined w (imap (fun i q => if (i <? workers c)%nat then false else q) (quarantined w)) in
    let pid := child w 0 in
    if 0 <? pid then note (kill w pid) (ECanary pid) else w
  else roll_next c (set_cursor w 0).

(** ** The canary's verdict *)

Definition of_u64 (n : Z) : spec_float := binary_normalize 53 1024 n 0 false.
Definition fmul := SFmul 53 1024.
Definition fdiv := SFdiv 53 1024.
Definition fadd := SFadd 53 1024.
Definition fgt (x y : spec_float) : bool := SFltb y x.

Inductive Reason := Died | ErrorRate | Latency | Verification.
Inductive Verdict := Healthy (requests : Z) (err_pct : spec_float) | Inconclusive (requests needed : Z) | Unhealthy (why : Reason).

Definition canary_verdict (c : Conf) (w : World) (alive : bool) : Verdict :=
  if negb alive then Unhealthy Died
  else match stats w with
  | None => Inconclusive 0 0
  | Some st =>
      let '(c_req, c_err, c_mean) := snapshot (default (mkStat 0 0 0) (st !! 0%nat)) in
      let min_req := canary_min_requests c in
      if c_req <? min_req then Inconclusive c_req min_req
      else
        let '(f_req_now, f_err_now, f_us_now) := fleet_totals (stats w) 0 (web c) in
        let f_req := sat_sub64 f_req_now (fleet_req w) in
        let f_err := sat_sub64 f_err_now (fleet_err w) in
        let f_us := sat_sub64 f_us_now (fleet_us w) in
        let c_rate := fdiv (fmul (of_u64 c_err) (of_u64 100)) (of_u64 c_req) in
        let f_rate := if 0 <? f_req then fdiv (fmul (of_u64 f_err) (of_u64 100)) (of_u64 f_req) else of_u64 0 in
        let max_over := fdiv (of_u64 (canary_max_err_rate c)) (of_u64 100) in
        if fgt c_rate (fadd f_rate max_over) then Unhealthy ErrorRate
        else if (min_req <=? f_req)
                && (let f_mean := f_us / Z.max f_req 1 in
                    let factor := fdiv (of_u64 (canary_max_lat_factor c)) (of_u64 100) in
                    (0 <? f_mean) && fgt (of_u64 c_mean) (fmul (of_u64 f_mean) factor))
             then Unhealthy Latency
             else Healthy c_req c_rate
  end.

(** ** The main loop *)

(** [waitpid]: a child that has exited, if there is one and the kernel says so. *)
Definition waitpid (w : World) (e : Env) : option (Z * Status) :=
  match exited e with
  | Some (pid, st) => if bool_decide (is_Some (procs w !! pid)) then Some (pid, st) else None
  | None => None
  end.
(** [fork]: a PID no unreaped child has. *)
Definition fork (w : World) (e : Env) : option Z :=
  match forked e with
  | Some pid => if (0 <? pid) && negb (bool_decide (is_Some (procs w !! pid))) then Some pid else None
  | None => None
  end.

Definition slot_of (c : Conf) (w : World) (pid : Z) : option nat :=
  fst <$> list_find (fun p => p = pid) (take (workers c) (children w)).

Definition is_fault (sig : Z) : bool := bool_decide (sig ∈ [11; 7; 4; 8; 6; 31; 5]).
Definition failed_exit (st : Status) : bool :=
  match st with ExitCode n => negb (n =? 0) | KilledBy sig => is_fault sig end.
Definition give_up_at (c : Conf) : Z := Z.max (Z.of_nat (workers c) * 3) 10.

Definition after_fork (w : World) (k : After) : World :=
  goto w (match k with AReap => Roll | ARefill i => Refill (S i) | AScale j want => Scale (S j) want end).

(** A worker that was neither shut down nor scaled out: the crash-loop guard, then its slot. *)
Definition respawn (c : Conf) (w : World) (i : nat) : World :=
  if default false (quarantined w !! i) then goto w Reap
  else goto (note (count_respawn w) (ERespawn i)) (Fork i AReap).
Definition guard_boot (c : Conf) (w : World) (now : Z) (i : nat) (st : Status) : World :=
  if (sat_sub64 now (default 0 (spawn_at w !! i)) <? BOOT_FAIL_SECS) && failed_exit st then
    let w := note w (EBoot now) in
    if FASTFAIL_WINDOW_SECS <? sat_sub64 now (fastfail_window w) then respawn c (set_fastfail w 1 now) i
    else
      let n := wrap64 (fastfail_count w + 1) in
      let w := set_fastfail w n (fastfail_window w) in
      if give_up_at c <=? n then goto (note (kill_all w) ETerm) (Exited 1) else respawn c w i
  else respawn c (set_fastfail (note w EHealthy) 0 (fastfail_window w)) i.

(** What the exit of a process means for who was told to go, in the history. *)
Definition other_exit (w : World) (pid : Z) : World :=
  match procs w !! pid with
  | Some p => if told p then w else note w (EOther pid)
  | None => w
  end.

Definition reap (c : Conf) (w : World) (e : Env) : World :=
  match waitpid w e with
  | None => goto w (if shutdown w then Canary else Refill 0)
  | Some (pid, st) =>
      let w := other_exit w pid in
      let w := set_procs w (delete pid (procs w)) in
      match slot_of c w pid with
      | None => w
      | Some i =>
          let w := set_slots w (<[i := 0]> (children w)) (spawn_at w) in
          if shutdown w then w
          else if bool_decide (kind_of c i = Queue) && (queue_desired w <=? i - web c)%nat then w
          else guard_boot c w (now e) i st
      end
  end.

Definition do_fork (w : World) (e : Env) (i : nat) (k : After) : World :=
  let w := set_shared w ((fun st => <[i := mkStat 0 0 0]> st) <$> stats w) (replay w) in
  match fork w e with
  | None => after_fork w k
  | Some pid => goto (note (set_procs w (<[pid := mkProc i false]> (procs w))) (EFork pid)) (Record_ i pid k)
  end.
Definition record (w : World) (e : Env) (i : nat) (pid : Z) (k : After) : World :=
  if (i <? MAX_WORKERS)%nat
  then after_fork (set_slots w (<[i := pid]> (children w)) (<[i := now e]> (spawn_at w))) k
  else goto w Panicked.

Definition refill (c : Conf) (w : World) (i : nat) : World :=
  if (i <? Nat.min (web c) MAX_WORKERS)%nat
  then if (child w i =? 0) && negb (default false (quarantined w !! i)) then goto w (Fork i (ARefill i))
       else goto w (Refill (S i))
  else goto w Canary.

(** The canary gate, once its window has elapsed. *)
Definition verify_gate (c : Conf) (w : World) (now : Z) : Gate :=
  if canary_active w && (canary_deadline w <=? now) && verify_enabled c && negb (child w 0 =? 0)
  then gate (verify_timeout c) (replay w) (sat_sub64 now (sat_sub64 (canary_deadline w) (canary_window c)))
  else Pass 0.
Definition verdict (c : Conf) (w : World) (g : Gate) : Verdict :=
  let alive := negb (child w 0 =? 0) in
  let v := match g with
           | GateFail => if alive then Unhealthy Verification else canary_verdict c w alive
           | _ => canary_verdict c w alive
           end in
  match v, g with
  | Inconclusive r _, Pass n => if 0 <? n then Healthy r (of_u64 0) else v
  | _, _ => v
  end.
Definition act_on (c : Conf) (w : World) (v : Verdict) : World :=
  match v with
  | Healthy _ _ => roll_next c (set_cursor (set_canary (note w (EVerdict true)) false (canary_deadline w) 2) 1)
  | Inconclusive _ _ => roll_next c (set_cursor (set_canary (note w (EVerdict true)) false (canary_deadline w) 4) 1)
  | Unhealthy _ =>
      let w := set_canary (note w (EVerdict false)) false (canary_deadline w) 3 in
      let pid := child w 0 in
      if (1 <? web c)%nat && (0 <? pid)
      then note (kill (set_quarantined w (<[0%nat := true]> (quarantined w))) pid) (EDrain pid)
      else w
  end.
Definition canary (c : Conf) (w : World) (now : Z) : World :=
  let g := verify_gate c w now in
  if canary_active w && (canary_deadline w <=? now) && negb (bool_decide (g = Wait))
  then act_on c w (verdict c w g) else w.

Definition recycle_one (cap : Z) (rss : Z -> option Z) (w : World) (i : nat) : World :=
  let pid := child w i in
  if pid <=? 0 then w
  else if default 0 (recycle_sent w !! i) =? pid then w
  else match rss pid with
       | Some r => if cap <=? r then note (kill (set_sent w (<[i := pid]> (recycle_sent w))) pid) (ERss pid) else w
       | None => w
       end.
Definition recycle_over_rss (c : Conf) (w : World) (rss : Z -> option Z) : World :=
  if max_rss_mb c =? 0 then w
  else foldl (recycle_one (wrap64 (max_rss_mb c * (1024 * 1024))) rss) w (seq 0 (Nat.min (web c + queue_max c) MAX_WORKERS)).

Definition div_ceil (x y : Z) : Z := (x + y - 1) / y.
Definition clamp (x lo hi : Z) : Z := Z.min hi (Z.max lo x).
Definition autoscale (c : Conf) (w : World) (e : Env) : World :=
  if (queue_min c <? queue_max c)%nat && queue_enabled c && queue_due e then
    let desired := queue_desired w in
    let want := Z.to_nat (clamp (div_ceil (ready e) QUEUE_BACKLOG_PER_WORKER) (Z.of_nat (queue_min c)) (Z.of_nat (queue_max c))) in
    if (desired <? want)%nat then goto w (Scale desired want)
    else if (want <? desired)%nat then
      let victim := (desired - 1)%nat in
      let w := set_desired w victim in
      if (web c + victim <? MAX_WORKERS)%nat then
        let pid := child w (web c + victim) in
        goto (if 0 <? pid then note (kill w pid) (EScale pid) else w) Check
      else goto w Panicked
    else goto w Check
  else goto w Check.

Definition check (w : World) : World :=
  if shutdown w && forallb (fun p => p =? 0) (children w) then goto w (Exited 0) else goto w Reap.

(** One step of the main loop. *)
Definition main (c : Conf) (w : World) (e : Env) : World :=
  match pc w with
  | Reap => reap c w e
  | Fork i k => do_fork w e i k
  | Record_ i pid k => record w e i pid k
  | Roll => goto (if reload_cursor w <? Z.of_nat (workers c) then roll_next c w else w) Reap
  | Refill i => refill c w i
  | Canary => goto (canary c w (now e)) Rss
  | Rss => goto (if (0 <? max_rss_mb c) && mem_due e then recycle_over_rss c w (rss e) else w) Autoscale
  | Autoscale => autoscale c w e
  | Scale j want => if (j <? want)%nat then goto w (Fork (web c + j) (AScale j want)) else goto (set_desired w want) Check
  | Check => check w
  | Exited _ | Panicked => w
  end.

(** ** Everything that can happen next *)

Definition stopped (w : World) : bool := match pc w with Exited _ | Panicked => true | _ => false end.
Inductive step (c : Conf) (w : World) : World -> Prop :=
| step_main e : stopped w = false -> step c w (main c w e)
| step_terminate : stopped w = false -> step c w (on_terminate w)
| step_reload now : stopped w = false -> step c w (begin_reload c now w)
| step_shared st r : step c w (set_shared w st r).

(** The state once the first workers have been forked, with their PIDs. *)
Definition started (c : Conf) (i : nat) : bool :=
  (i <? workers c)%nat && negb (bool_decide (kind_of c i = Queue) && (queue_min c <=? i - web c)%nat).
Definition boot_children (c : Conf) (pids : nat -> Z) : list Z :=
  map (fun i => if started c i then pids i else 0) (seq 0 MAX_WORKERS).
Definition boot_procs (c : Conf) (pids : nat -> Z) : gmap Z Proc :=
  list_to_map ((fun i => (pids i, mkProc i false)) <$> filter (fun i => started c i = true) (seq 0 MAX_WORKERS)).
Definition boot (c : Conf) (pids : nat -> Z) (now : Z) (st : option (list WorkerStat)) (r : option Region) : World :=
  mkWorld (boot_children c pids) (map (fun i => if started c i then now else 0) (seq 0 MAX_WORKERS))
    (replicate MAX_WORKERS 0) (replicate MAX_WORKERS false) false u64_max 0 (queue_min c)
    false 0 0 0 0 0 0 0 st r (boot_procs c pids) Reap [].

(** The main loop on its own, given what each step is given. *)
Fixpoint run (c : Conf) (w : World) (es : list Env) : World :=
  match es with [] => w | e :: es => run c (main c w e) es end.
