(* ===== verification/SupervisorSpec.v ===== *)
(** What the supervisor promises, whatever comes between its steps: slots hold live children, a
    reload goes through its canary, workers drain one at a time, a crash loop ends, and so does a
    shutdown. *)

From stdpp Require Import gmap.
From S2P Require Import Prelude Supervisor.

(** ** What telling processes to go leaves alone *)

Record tells (E : Event -> Prop) (w w' : World) : Prop := {
  t_children : children w' = children w;
  t_pc : pc w' = pc w;
  t_shutdown : shutdown w' = shutdown w;
  t_desired : queue_desired w' = queue_desired w;
  t_fastfail : fastfail_count w' = fastfail_count w /\ fastfail_window w' = fastfail_window w;
  t_slots : forall pid, slot <$> procs w' !! pid = slot <$> procs w !! pid;
  t_told : forall pid p, procs w !! pid = Some p -> told p = true -> told <$> procs w' !! pid = Some true;
  t_log : exists l, log w' = l ++ log w /\ Forall E l }.

#[global] Instance tells_preorder E : PreOrder (tells E).
Proof.
  split.
  - intros w. split; try done; [by intros pid p -> <-|by exists []].
  - intros w1 w2 w3 [? ? ? ? [? ?] ? T1 (l1 & L1 & F1)] [? ? ? ? [? ?] ? T2 (l2 & L2 & F2)].
    split; try congruence.
    + split; congruence.
    + intros pid p Hp Ht. specialize (T1 pid p Hp Ht). destruct (procs w2 !! pid) as [q|] eqn:Eq; [|done].
      injection T1 as Hq. by eapply T2.
    + exists (l2 ++ l1). rewrite L2, L1, (assoc_L (++)). split; [done|]. by apply Forall_app.
Qed.

Lemma tells_weaken (E E' : Event -> Prop) w w' : (forall e, E e -> E' e) -> tells E w w' -> tells E' w w'.
Proof.
  intros H [? ? ? ? ? ? ? (l & L & F)]. split; try done. exists l. split; [done|]. by eapply Forall_impl.
Qed.

Section Tells.
Context (E : Event -> Prop).

Lemma tells_note w e : E e -> tells E w (note w e).
Proof. intros He. split; try done; [by cbn; intros pid p -> <-|]. exists [e]. split; [done|]. by repeat constructor. Qed.

(** Updates of the other fields. *)
Lemma tells_same w w' :
  children w' = children w -> pc w' = pc w -> shutdown w' = shutdown w -> queue_desired w' = queue_desired w ->
  fastfail_count w' = fastfail_count w -> fastfail_window w' = fastfail_window w -> procs w' = procs w -> log w' = log w ->
  tells E w w'.
Proof. intros ? ? ? ? ? ? Hp Hl. split; rewrite ?Hp; try done; [by intros pid p -> <-|by exists []]. Qed.

Lemma tells_kill w pid : tells E w (kill w pid).
Proof.
  unfold kill. destruct (procs w !! pid) as [p|] eqn:Ep; [|done]. split; try done; cbn; [| |by exists []].
  - intros k. destruct (decide (k = pid)) as [->|Hk]; [by rewrite lookup_insert_eq, Ep|by rewrite lookup_insert_ne].
  - intros k q Hq Ht. destruct (decide (k = pid)) as [->|Hk]; [by rewrite lookup_insert_eq|].
    rewrite lookup_insert_ne by done. by rewrite Hq, <- Ht.
Qed.

Lemma tells_kill_slot w pid : tells E w (kill_slot w pid).
Proof. unfold kill_slot. destruct (0 <? pid); [apply tells_kill|done]. Qed.

Lemma tells_fold {A} (f : World -> A -> World) w l : (forall w x, tells E w (f w x)) -> tells E w (foldl f w l).
Proof. intros Hf. revert w. induction l as [|x l IH]; intros w; cbn; [done|]. etrans; [apply Hf|apply IH]. Qed.

Lemma tells_kill_all w : tells E w (kill_all w).
Proof. apply tells_fold, tells_kill_slot. Qed.

Lemma tells_roll n w fuel : (forall i pid, E (ERoll i pid)) -> tells E w (roll_loop n w fuel).
Proof.
  intros He. revert w. induction fuel as [|fuel IH]; intros w; cbn; [done|]. cbv zeta.
  set (w1 := set_cursor _ _). assert (tells E w w1) as H1 by (by apply tells_same).
  destruct (_ <=? _); [done|]. destruct (0 <? _).
  - etrans; [exact H1|]. etrans; [apply tells_kill|]. by apply tells_note.
  - etrans; [exact H1|]. apply IH.
Qed.
End Tells.

(** Which part of the supervisor writes which line of the history. *)
Definition rolls (e : Event) : Prop := match e with ERoll _ _ => True | _ => False end.
Definition reloads (e : Event) : Prop := match e with ERoll _ _ | EReload _ | ECanary _ => True | _ => False end.
Definition judges (e : Event) : Prop := match e with ERoll _ _ | EVerdict _ | EDrain _ => True | _ => False end.
Definition recycles (e : Event) : Prop := match e with ERss _ => True | _ => False end.

Lemma tells_reload c t w : tells reloads w (begin_reload c t w).
Proof.
  unfold begin_reload. cbv zeta. destruct (canary_enabled c).
  - set (w1 := set_quarantined _ _). assert (tells reloads w w1) as H1.
    { etrans; [by apply (tells_note reloads w (EReload t))|]. by apply tells_same. }
    destruct (0 <? _); [|done]. etrans; [exact H1|]. etrans; [apply tells_kill|]. by apply tells_note.
  - etrans; [by apply (tells_note reloads w (EReload t))|]. etrans; [by apply (tells_same _ _ (set_cursor (note w (EReload t)) 0))|].
    by apply tells_roll.
Qed.

Lemma tells_canary c w t : tells judges w (canary c w t).
Proof.
  unfold canary. cbv zeta. destruct (_ && _ && _); [|done]. unfold act_on.
  destruct (verdict _ _ _) as [r p|r n|why].
  1,2: etrans; [by apply (tells_note judges w (EVerdict true))|]; etrans; [|by apply tells_roll]; by apply tells_same.
  cbv zeta. set (w1 := set_canary _ _ _ _). assert (tells judges w w1) as H1.
  { etrans; [by apply (tells_note judges w (EVerdict false))|]. by apply tells_same. }
  destruct (_ && _); [|done]. etrans; [exact H1|].
  etrans; [by apply (tells_same _ _ (set_quarantined w1 (<[0%nat := true]> (quarantined w1))))|].
  etrans; [apply tells_kill|]. by apply tells_note.
Qed.

Lemma tells_recycle c w rss : tells recycles w (recycle_over_rss c w rss).
Proof.
  unfold recycle_over_rss. destruct (_ =? _); [done|]. apply tells_fold. intros w1 i. unfold recycle_one.
  destruct (_ <=? _); [done|]. destruct (_ =? _); [done|]. destruct (rss _); [|done]. destruct (_ <=? _); [|done].
  etrans; [by apply (tells_same _ _ (set_sent w1 (<[i := child w1 i]> (recycle_sent w1))))|].
  etrans; [apply tells_kill|]. by apply tells_note.
Qed.

(** ** Slots hold children *)

(** Where the loop may fork: a slot of the table it supervises, or past the end of the array. *)
Definition good_slot (c : Conf) (i : nat) : Prop := (i < workers c)%nat \/ (MAX_WORKERS <= i)%nat.
Definition good_after (c : Conf) (k : After) : Prop := match k with AScale _ want => (want <= queue_max c)%nat | _ => True end.
Definition good_pc (c : Conf) (w : World) : Prop :=
  match pc w with
  | Fork i k => good_slot c i /\ good_after c k
  | Record_ i pid k => good_slot c i /\ good_after c k /\ 0 < pid /\ slot <$> procs w !! pid = Some i /\ (pid ∉ children w)
  | Scale _ want => (want <= queue_max c)%nat
  | _ => True
  end.
Record tracked (c : Conf) (w : World) : Prop := {
  k_len : length (children w) = MAX_WORKERS;
  k_live : forall i p, children w !! i = Some p -> p = 0 \/ (0 < p /\ slot <$> procs w !! p = Some i);
  k_beyond : forall i p, children w !! i = Some p -> (workers c <= i)%nat -> p = 0;
  k_pc : good_pc c w }.

Lemma tracked_tells E c w w' : tells E w w' -> tracked c w -> tracked c w'.
Proof.
  intros [Hc Hp _ _ _ Hs _ _] [H1 H2 H3 H4]. split; rewrite ?Hc; try done.
  - intros i p Hi. rewrite Hs. by apply H2.
  - unfold good_pc in *. rewrite Hp. destruct (pc w); try done. rewrite Hs, Hc. done.
Qed.

Lemma tracked_goto c w p : tracked c w -> good_pc c (goto w p) -> tracked c (goto w p).
Proof. intros [H1 H2 H3 _] H4. by split. Qed.

Lemma good_web c i : (i < Nat.min (web c) MAX_WORKERS)%nat -> good_slot c i.
Proof. intros H. left. unfold workers. lia. Qed.
Lemma good_queue c j : (j < queue_max c)%nat -> good_slot c (web c + j).
Proof. intros H. unfold good_slot, workers. lia. Qed.

(** The first slot of a PID is the only one. *)
Lemma slot_of_spec c w pid :
  tracked c w -> 0 < pid ->
  match slot_of c w pid with
  | Some i => (i < workers c)%nat /\ children w !! i = Some pid /\ forall j, children w !! j = Some pid -> j = i
  | None => pid ∉ children w
  end.
Proof.
  intros Ht Hp. unfold slot_of. destruct (list_find _ _) as [[i p]|] eqn:El; cbn.
  - apply list_find_Some in El as (Hi & -> & _). apply lookup_take_Some in Hi as [Hi Hlt]. split; [done|]. split; [done|].
    intros j Hj. pose proof (k_live c w Ht _ _ Hi) as [|[_ Ei]]; [lia|]. pose proof (k_live c w Ht _ _ Hj) as [|[_ Ej]]; [lia|].
    congruence.
  - intros [j Hj]%list_elem_of_lookup. destruct (decide (j < workers c)%nat) as [Hlt|Hge].
    + apply list_find_None in El. rewrite Forall_forall in El. apply (El pid); [|done].
      apply (list_elem_of_lookup_2 _ j). by apply lookup_take_Some.
    + pose proof (k_beyond c w Ht _ _ Hj ltac:(lia)). lia.
Qed.

Lemma tracked_waited c w pid :
  tracked c w -> pc w = Reap -> 0 < pid ->
  let w1 := set_procs w (delete pid (procs w)) in
  match slot_of c w pid with
  | Some i => (i < workers c)%nat /\ tracked c (set_slots w1 (<[i := 0]> (children w)) (spawn_at w))
  | None => tracked c w1
  end.
Proof.
  intros Ht Hpc Hp. pose proof (slot_of_spec c w pid Ht Hp) as Hs. destruct Ht as [H1 H2 H3 _]. cbv zeta.
  destruct (slot_of c w pid) as [i|].
  - destruct Hs as (Hi & Hc & Hu). split; [done|]. split; cbn; [by rewrite length_insert| | |unfold good_pc; cbn; by rewrite Hpc].
    + intros j p Hj. destruct (decide (i = j)) as [<-|Hij].
      { rewrite list_lookup_insert_eq in Hj by (by eapply lookup_lt_Some). injection Hj as <-. by left. }
      rewrite list_lookup_insert_ne in Hj by done. destruct (H2 _ _ Hj) as [?|[? ?]]; [by left|]. right. split; [done|].
      rewrite lookup_delete_ne; [done|]. intros <-. by apply Hij, eq_sym, Hu.
    + intros j p Hj Hge. rewrite list_lookup_insert_ne in Hj by lia. by apply (H3 j).
  - split; cbn; [done| |done|unfold good_pc; cbn; by rewrite Hpc].
    intros j p Hj. destruct (H2 _ _ Hj) as [?|[? ?]]; [by left|]. right. split; [done|].
    rewrite lookup_delete_ne; [done|]. intros <-. apply Hs. by eapply list_elem_of_lookup_2.
Qed.

Lemma tracked_respawn c w i : tracked c w -> (i < workers c)%nat -> tracked c (respawn c w i).
Proof.
  intros Ht Hi. unfold respawn. destruct (default _ _); [by apply tracked_goto|].
  apply tracked_goto; [|split; [by left|done]]. eapply tracked_tells; [|exact Ht].
  etrans; [by apply (tells_same (fun _ => True) _ (count_respawn w))|]. by apply tells_note.
Qed.

Lemma tracked_guard c w t i st : tracked c w -> (i < workers c)%nat -> tracked c (guard_boot c w t i st).
Proof.
  intros Ht Hi. unfold guard_boot. cbv zeta.
  assert (forall e n u, tracked c (set_fastfail (note w e) n u)) as Hf.
  { intros e n u. eapply tracked_tells in Ht; [|by apply (tells_note (fun _ => True) w e)].
    destruct Ht as [H1 H2 H3 H4]. by split. }
  destruct (_ && _); [|by apply tracked_respawn]. destruct (_ <? _); [by apply tracked_respawn|].
  destruct (_ <=? _); [|by apply tracked_respawn]. apply tracked_goto; [|done].
  eapply tracked_tells; [|apply Hf]. etrans; [apply (tells_kill_all (fun _ => True))|]. by apply tells_note.
Qed.

Lemma waitpid_live w e pid st : waitpid w e = Some (pid, st) -> is_Some (procs w !! pid).
Proof. unfold waitpid. destruct (exited e) as [[p s]|]; [|done]. case_bool_decide; [|done]. by intros [= <- <-]. Qed.

Lemma tells_other_exit w pid : tells (fun e => match e with EOther _ => True | _ => False end) w (other_exit w pid).
Proof. unfold other_exit. destruct (procs w !! pid) as [p|]; [|done]. destruct (told p); [done|]. by apply tells_note. Qed.

(** PIDs are positive. *)
Definition positive (w : World) : Prop := forall pid, is_Some (procs w !! pid) -> 0 < pid.

Lemma tracked_reap c w e : tracked c w -> positive w -> pc w = Reap -> tracked c (reap c w e).
Proof.
  intros Ht Hpos Hpc. unfold reap. destruct (waitpid w e) as [[pid st]|] eqn:Ew.
  - apply waitpid_live in Ew. apply Hpos in Ew as Hp. cbv zeta.
    pose proof (tells_other_exit w pid) as Ho. eapply tracked_tells in Ht; [|exact Ho].
    destruct Ho as [Hc Hpc' _ _ _ _ _ _]. set (w1 := other_exit w pid) in *.
    pose proof (tracked_waited c w1 pid Ht ltac:(congruence) Hp) as Hw. cbv zeta in Hw.
    unfold slot_of in *. cbn [children set_procs] in *. destruct (fst <$> _) as [i|]; [|exact Hw].
    destruct Hw as [Hi Hw]. cbn [children spawn_at set_procs set_slots] in *.
    destruct (shutdown _); [exact Hw|]. destruct (_ && _); [exact Hw|]. by apply tracked_guard.
  - apply tracked_goto; [done|]. unfold good_pc. cbn. by destruct (shutdown w).
Qed.

Lemma tracked_after_fork c w k : tracked c w -> good_after c k -> tracked c (after_fork w k).
Proof. intros Ht Hk. apply tracked_goto; [done|]. by destruct k. Qed.

Lemma tracked_fork c w e i k : tracked c w -> pc w = Fork i k -> tracked c (do_fork w e i k).
Proof.
  intros Ht Hpc. pose proof (k_pc c w Ht) as Hg. unfold good_pc in Hg. rewrite Hpc in Hg. destruct Hg as [Hi Hk].
  unfold do_fork. cbv zeta. set (w1 := set_shared _ _ _). assert (tracked c w1) as Ht1 by (eapply tracked_tells, Ht; by apply (tells_same (fun _ => True))).
  unfold fork. destruct (forked e) as [pid|]; [|by apply tracked_after_fork].
  destruct (_ && _) eqn:Ef; [|by apply tracked_after_fork]. apply andb_true_iff in Ef as [Hp Hn%negb_true_iff%bool_decide_eq_false].
  destruct Ht1 as [H1 H2 H3 _]. assert (pid ∉ children w) as Hnc.
  { intros [j Hj]%list_elem_of_lookup. destruct (H2 j pid Hj) as [|[_ Hs]]; [lia|]. cbn in Hn, Hs. apply Hn. by destruct (procs w !! pid). }
  split; cbn; [done| |done|].
  - intros j p Hj. destruct (H2 j p Hj) as [?|[? Hs]]; [by left|]. right. split; [done|]. cbn in Hs.
    rewrite lookup_insert_ne; [done|]. intros <-. apply Hnc. by eapply list_elem_of_lookup_2.
  - unfold good_pc. cbn. rewrite lookup_insert_eq. split_and!; try done. lia.
Qed.

Lemma tracked_record c w e i pid k : tracked c w -> pc w = Record_ i pid k -> tracked c (record w e i pid k).
Proof.
  intros Ht Hpc. pose proof (k_pc c w Ht) as Hg. unfold good_pc in Hg. rewrite Hpc in Hg. destruct Hg as (Hi & Hk & Hp & Hs & Hn).
  unfold record. destruct (Nat.ltb_spec i MAX_WORKERS) as [Hlt|Hge]; [|by apply tracked_goto].
  destruct Hi as [Hi|?]; [|lia]. destruct Ht as [H1 H2 H3 _]. split; cbn.
  - by rewrite length_insert.
  - intros j p Hj. destruct (decide (i = j)) as [<-|Hij].
    + rewrite list_lookup_insert_eq in Hj by lia. injection Hj as <-. by right.
    + rewrite list_lookup_insert_ne in Hj by done. by apply H2.
  - intros j p Hj Hge. rewrite list_lookup_insert_ne in Hj by lia. by apply (H3 j).
  - unfold good_pc. cbn. by destruct k.
Qed.

Lemma tracked_autoscale c w e : tracked c w -> tracked c (autoscale c w e).
Proof.
  intros Ht. unfold autoscale. destruct (_ && _ && _); [|by apply tracked_goto]. cbv zeta.
  set (want := Z.to_nat _). assert (want <= queue_max c)%nat as Hw by (unfold want, clamp; lia).
  destruct (_ <? _)%nat; [by apply tracked_goto|]. destruct (_ <? _)%nat; [|by apply tracked_goto].
  set (w1 := set_desired _ _). assert (tracked c w1) as Ht1 by (by destruct Ht).
  destruct (_ <? _)%nat; [|by apply tracked_goto]. apply tracked_goto; [|done]. destruct (0 <? _); [|done].
  eapply tracked_tells, Ht1. etrans; [apply (tells_kill (fun _ => True))|]. by apply tells_note.
Qed.

Lemma tracked_main c w e : tracked c w -> positive w -> tracked c (main c w e).
Proof.
  intros Ht Hpos. pose proof (k_pc c w Ht) as Hg. unfold good_pc in Hg. unfold main.
  destruct (pc w) as [|i k|i pid k| |i| | | |j want| |code|] eqn:Hpc; try done.
  - by apply tracked_reap.
  - by apply tracked_fork.
  - by apply tracked_record.
  - apply tracked_goto; [|done]. destruct (_ <? _); [|done]. eapply tracked_tells, Ht. by apply (tells_roll (fun _ => True)).
  - unfold refill. destruct (Nat.ltb_spec i (Nat.min (web c) MAX_WORKERS)); [|by apply tracked_goto].
    destruct (_ && _); apply tracked_goto; try done. split; [by apply good_web|done].
  - apply tracked_goto; [|done]. eapply tracked_tells, Ht. apply tells_canary.
  - apply tracked_goto; [|done]. destruct (_ && _); [|done]. eapply tracked_tells, Ht. apply tells_recycle.
  - by apply tracked_autoscale.
  - destruct (Nat.ltb_spec j want).
    + apply tracked_goto; [done|]. split; [apply good_queue; lia|done].
    + apply tracked_goto; [|done]. by destruct Ht.
  - unfold check. destruct (_ && _); by apply tracked_goto.
Qed.

Lemma tells_terminate w : tells (fun _ => True) (set_shutdown w) (on_terminate w).
Proof. unfold on_terminate. etrans; [apply tells_kill_all|]. by apply tells_note. Qed.

Definition guards (e : Event) : Prop :=
  match e with EBoot _ | EHealthy | ERespawn _ | ETerm => True | _ => False end.
Lemma tells_guard c w t i st : exists n u w1 p,
  tells guards (set_fastfail w n u) w1 /\ guard_boot c w t i st = goto w1 p
  /\ (p = Reap \/ p = Fork i AReap \/ p = Exited 1 /\ (ETerm ∈ log w1)).
Proof.
  assert (forall w, exists w1 p, tells guards w w1 /\ respawn c w i = goto w1 p /\ (p = Reap \/ p = Fork i AReap)) as Hr.
  { intros w1. unfold respawn. destruct (default _ _); [exists w1, Reap; split; [done|by auto]|].
    eexists _, (Fork i AReap). split; [|by auto]. etrans; [by apply (tells_same guards _ (count_respawn w1))|]. by apply tells_note. }
  assert (forall e (n0 u0 : Z), guards e -> exists n u w1 p, tells guards (set_fastfail w n u) w1 /\
            respawn c (set_fastfail (note w e) n0 u0) i = goto w1 p /\ (p = Reap \/ p = Fork i AReap \/ p = Exited 1 /\ (ETerm ∈ log w1))) as Hf.
  { intros e n u He. destruct (Hr (set_fastfail (note w e) n u)) as (w1 & p & H1 & H2 & H3). exists n, u, w1, p.
    split; [|split; [done|tauto]]. etrans; [|exact H1]. apply (tells_note guards (set_fastfail w n u) e He). }
  unfold guard_boot. cbv zeta. destruct (_ && _); [|by apply Hf]. destruct (_ <? _); [by apply Hf|].
  destruct (_ <=? _); [|by apply Hf]. eexists _, _, _, _. split; [|split; [done|right; right; split; [done|by left]]].
  etrans; [apply (tells_note guards (set_fastfail w _ _) (EBoot t) I)|]. etrans; [apply tells_kill_all|]. by apply tells_note.
Qed.

Lemma tells_live E w w' pid : tells E w w' -> is_Some (procs w' !! pid) <-> is_Some (procs w !! pid).
Proof. intros [_ _ _ _ _ H _ _]. rewrite <- !(fmap_is_Some slot). by rewrite H. Qed.

(** [autoscale]: one process told to go, at most, then where the loop goes on. *)
Lemma tells_autoscale c w e : exists n w1 p,
  tells (fun e => match e with EScale _ => True | _ => False end) (set_desired w n) w1 /\ autoscale c w e = goto w1 p
  /\ (p = Check \/ p = Panicked \/ ((queue_min c < queue_max c)%nat /\ queue_enabled c = true /\ exists j want, p = Scale j want)).
Proof.
  unfold autoscale. assert (w = set_desired w (queue_desired w)) as Ew by (by destruct w).
  destruct (_ && _ && _) eqn:Ec; [|exists (queue_desired w), w, Check; rewrite <- Ew; split; [done|split; [done|by left]]]. cbv zeta.
  apply andb_true_iff in Ec as [[Hlt%Nat.ltb_lt Hq]%andb_true_iff _]. set (want := Z.to_nat _).
  destruct (_ <? _)%nat; [exists (queue_desired w), w; eexists; rewrite <- Ew; split; [done|]; split; [done|]; right; right; split_and!; [done|done|by eexists _, _]|].
  destruct (_ <? _)%nat; [|exists (queue_desired w), w, Check; rewrite <- Ew; split; [done|split; [done|by left]]].
  set (w1 := set_desired _ _). destruct (_ <? _)%nat; [|eexists (queue_desired w - 1)%nat, w1, _; split; [done|split; [done|by right; left]]].
  destruct (0 <? _); [|exists (queue_desired w - 1)%nat, w1, Check; split; [done|split; [done|by left]]].
  eexists _, _, Check. split; [|split; [done|by left]]. etrans; [apply tells_kill|]. by apply tells_note.
Qed.

(** Who is there after a step: who was there before, but for the one reaped, and a new one. *)
Lemma main_procs c w e pid :
  is_Some (procs (main c w e) !! pid) -> is_Some (procs w !! pid) \/ (0 < pid /\ exists i k, pc w = Fork i k).
Proof.
  unfold main. destruct (pc w) as [|i k|i p k| |i| | | |j want| |code|] eqn:Hpc; try (by left).
  - intros H. left. unfold reap in H. destruct (waitpid w e) as [[q st]|]; [|exact H]. cbv zeta in H.
    pose proof (tells_other_exit w q) as Ho. rewrite <- (tells_live _ _ _ pid Ho). set (w1 := other_exit w q) in *.
    assert (forall w2 t i, procs w2 = delete q (procs w1) -> is_Some (procs (guard_boot c w2 t i st) !! pid) -> is_Some (procs w1 !! pid)) as Hg.
    { intros w2 t i E2 H2. destruct (tells_guard c w2 t i st) as (n & u & w3 & p & Ht & Eg & _). rewrite Eg in H2.
      cbn in H2. rewrite (tells_live _ _ _ pid Ht) in H2. cbn in H2. rewrite E2 in H2. apply lookup_delete_is_Some in H2. tauto. }
    assert (is_Some (delete q (procs w1) !! pid) -> is_Some (procs w1 !! pid)) as Hd by (rewrite lookup_delete_is_Some; tauto).
    destruct (slot_of _ _ _) as [i|]; [|by apply Hd]. destruct (shutdown _); [by apply Hd|]. destruct (_ && _); [by apply Hd|].
    by eapply Hg, H.
  - unfold do_fork, fork. cbv zeta. destruct (forked e) as [q|]; [|by left]. destruct (_ && _) eqn:Ef; [|by left]. cbn.
    apply andb_true_iff in Ef as [Hq _]. destruct (decide (q = pid)) as [->|Hne].
    + intros _. right. split; [lia|by eauto].
    + rewrite lookup_insert_ne by done. by left.
  - unfold record. destruct (_ <? _)%nat; by left.
  - intros H. left. cbn [procs goto] in H. destruct (_ <? _); [|done].
    eapply (proj1 (tells_live (fun _ => True) _ _ _ ltac:(by apply tells_roll))), H.
  - unfold refill. destruct (_ <? _)%nat; [|by left]. destruct (_ && _); by left.
  - intros H. left. exact (proj1 (tells_live _ _ _ _ (tells_canary c w (now e))) H).
  - intros H. left. cbn [procs goto] in H. destruct (_ && _); [|done].
    exact (proj1 (tells_live _ _ _ _ (tells_recycle c w (rss e))) H).
  - intros H. left. destruct (tells_autoscale c w e) as (n & w1 & p & Ht & E & _). rewrite E in H. cbn in H.
    by rewrite (tells_live _ _ _ pid Ht) in H.
  - destruct (_ <? _)%nat; by left.
  - unfold check. destruct (_ && _); by left.
Qed.

Definition sound (c : Conf) (w : World) : Prop := tracked c w /\ positive w.
Lemma sound_tells E c w w' : tells E w w' -> sound c w -> sound c w'.
Proof. intros Ht [H1 H2]. split; [by eapply tracked_tells|]. intros pid H. apply H2. by rewrite <- (tells_live _ _ _ pid Ht). Qed.
Lemma sound_step c w w' : step c w w' -> sound c w -> sound c w'.
Proof.
  intros [e _|_|t _|st r] [H1 H2].
  - split; [by apply tracked_main|]. intros pid H. apply main_procs in H as [H|[H _]]; [by apply H2|done].
  - eapply sound_tells; [apply tells_terminate|]. split; [by destruct H1|done].
  - eapply sound_tells; [apply tells_reload|done].
  - eapply (sound_tells (fun _ => True) c w); [by apply tells_same|done].
Qed.
Lemma sound_steps c w w' : rtc (step c) w w' -> sound c w -> sound c w'.
Proof. induction 1; [done|]. intros H'. by eapply IHrtc, sound_step. Qed.

(** ** Nobody is lost *)

(** Without autoscaling, every process is in its slot, or about to be written there. *)
Definition no_scaling (c : Conf) : Prop := ~ ((queue_min c < queue_max c)%nat /\ queue_enabled c = true).
Definition fixed_after (k : After) : Prop := match k with AScale _ _ => False | _ => True end.
Definition fixed_pc (w : World) : Prop :=
  match pc w with
  | Fork i k | Record_ i _ k => fixed_after k /\ children w !! i = Some 0
  | Scale _ _ => False
  | _ => True
  end.
Definition recording (w : World) (i : nat) (pid : Z) : Prop :=
  match pc w with Record_ j p _ => j = i /\ p = pid | _ => False end.
Record housed (w : World) : Prop := {
  h_pc : fixed_pc w;
  h_all : forall pid p, procs w !! pid = Some p -> children w !! slot p = Some pid \/ recording w (slot p) pid }.

Lemma tells_proc E w w' pid p :
  tells E w w' -> procs w' !! pid = Some p ->
  exists q, procs w !! pid = Some q /\ slot q = slot p /\ (told q = true -> told p = true).
Proof.
  intros [_ _ _ _ _ Hs Ht _] Hp. specialize (Hs pid). rewrite Hp in Hs. destruct (procs w !! pid) as [q|] eqn:Eq; [|done].
  exists q. split; [done|]. split; [by injection Hs|]. intros Hq. specialize (Ht _ _ Eq Hq). rewrite Hp in Ht. by injection Ht.
Qed.

Lemma housed_tells E w w' : tells E w w' -> housed w -> housed w'.
Proof.
  intros Ht [H1 H2]. destruct Ht as [Hc Hp ? ? ? ? ? ?] eqn:Et; clear Et. split.
  - unfold fixed_pc in *. by rewrite Hp, Hc.
  - intros pid p Hpr. destruct (tells_proc E w w' pid p) as (q & Hq & Hs & _); [by split|done|].
    unfold recording. rewrite Hp, Hc, <- Hs. by apply H2.
Qed.
Definition not_recording (w : World) : Prop := match pc w with Record_ _ _ _ => False | _ => True end.
Lemma housed_goto w p : housed w -> not_recording w -> fixed_pc (goto w p) -> housed (goto w p).
Proof.
  intros [H1 H2] Hr Hf. split; [done|]. intros pid q Hq. destruct (H2 pid q Hq) as [|Hrec]; [by left|]. exfalso.
  unfold recording, not_recording in *. by destruct (pc w).
Qed.

(** A child of the supervised slots that is reaped empties its slot. *)
Lemma housed_reap c w e : sound c w -> housed w -> pc w = Reap -> housed (reap c w e).
Proof.
  intros [Hk Hpos] Hh Hpc. unfold reap. destruct (waitpid w e) as [[pid st]|] eqn:Ew.
  2:{ apply housed_goto; [done|unfold not_recording; by rewrite Hpc|]. unfold fixed_pc. cbn. by destruct (shutdown w). }
  apply waitpid_live in Ew. apply Hpos in Ew as Hp. cbv zeta.
  pose proof (tells_other_exit w pid) as Ho. set (w1 := other_exit w pid) in *.
  assert (tracked c w1) as Hk1 by (by eapply tracked_tells). apply (housed_tells _ _ _ Ho) in Hh.
  pose proof (t_pc _ _ _ Ho) as Hpc1. rewrite Hpc in Hpc1. pose proof (slot_of_spec c w1 pid Hk1 Hp) as Hs.
  change (slot_of c (set_procs w1 (delete pid (procs w1))) pid) with (slot_of c w1 pid). destruct Hh as [_ H2].
  assert (forall q pr, delete pid (procs w1) !! q = Some pr -> q <> pid /\ children w1 !! slot pr = Some q) as Hd.
  { intros q pr [Hne Hq]%lookup_delete_Some. split; [done|]. destruct (H2 q pr Hq) as [|Hr]; [done|].
    unfold recording in Hr. by rewrite Hpc1 in Hr. }
  destruct (slot_of c w1 pid) as [i|].
  2:{ split; [unfold fixed_pc; cbn; by rewrite Hpc1|]. intros q pr Hq. left. by apply Hd. }
  destruct Hs as (Hi & Hc & Hu). set (w2 := set_slots _ _ _).
  assert (housed w2) as Hh2.
  { split; [unfold fixed_pc; cbn; by rewrite Hpc1|]. intros q pr Hq. left. cbn in Hq |- *. destruct (Hd q pr Hq) as [Hne Hq'].
    rewrite list_lookup_insert_ne; [done|]. intros Ei. rewrite <- Ei in Hq'. congruence. }
  destruct (shutdown _); [exact Hh2|]. destruct (_ && _); [exact Hh2|]. fold w2.
  destruct (tells_guard c w2 (now e) i st) as (n & u & w3 & p & Ht & -> & Hp3).
  assert (housed (set_fastfail w2 n u)) as Hh3 by (by destruct Hh2). apply (housed_tells _ _ _ Ht) in Hh3.
  pose proof (t_pc _ _ _ Ht) as Hpc3. pose proof (t_children _ _ _ Ht) as Hc3. cbn in Hpc3, Hc3. rewrite Hpc1 in Hpc3.
  apply housed_goto; [done|unfold not_recording; by rewrite Hpc3|]. unfold fixed_pc. cbn.
  destruct Hp3 as [-> |[-> |[-> _]]]; [done| |done]. split; [done|]. rewrite Hc3. apply list_lookup_insert_eq. by eapply lookup_lt_Some.
Qed.

Lemma housed_fork w e i k : housed w -> pc w = Fork i k -> housed (do_fork w e i k).
Proof.
  intros Hh Hpc. pose proof (h_pc w Hh) as Hf. unfold fixed_pc in Hf. rewrite Hpc in Hf. destruct Hf as [Hk Hc].
  unfold do_fork. cbv zeta. set (w1 := set_shared _ _ _).
  assert (housed w1) as Hh1 by (by eapply housed_tells, Hh; apply (tells_same (fun _ => True))).
  assert (housed (after_fork w1 k)) as Ha.
  { apply housed_goto; [done|unfold not_recording; cbn; by rewrite Hpc|]. by destruct k. }
  destruct (fork w1 e) as [pid|] eqn:Ef; [|done]. unfold fork in Ef. destruct (forked e) as [q|]; [|done].
  destruct (_ && _) eqn:Ep; [|done]. injection Ef as ->. split; [done|]. cbn. intros q pr Hq. unfold recording. cbn.
  destruct (decide (q = pid)) as [->|Hne].
  - rewrite lookup_insert_eq in Hq. injection Hq as <-. by right.
  - rewrite lookup_insert_ne in Hq by done. destruct Hh as [_ H2]. destruct (H2 q pr Hq) as [|Hr]; [by left|].
    unfold recording in Hr. by rewrite Hpc in Hr.
Qed.

Lemma housed_record c w e i pid k :
  sound c w -> housed w -> pc w = Record_ i pid k -> housed (record w e i pid k).
Proof.
  intros [Hk Hpos] Hh Hpc. pose proof (h_pc w Hh) as Hf. unfold fixed_pc in Hf. rewrite Hpc in Hf. destruct Hf as [Hfk Hc].
  unfold record. apply lookup_lt_Some in Hc as Hlt. rewrite (k_len c w Hk) in Hlt.
  destruct (Nat.ltb_spec i MAX_WORKERS); [|lia]. split; [unfold fixed_pc; cbn; by destruct k|].
  cbn. intros q pr Hq. left. destruct (h_all w Hh q pr Hq) as [Hin|Hr].
  - rewrite list_lookup_insert_ne; [done|]. intros Ei. rewrite <- Ei, Hc in Hin. injection Hin as <-.
    assert (0 < 0); [|lia]. apply Hpos. by eexists.
  - unfold recording in Hr. rewrite Hpc in Hr. destruct Hr as [-> ->]. apply list_lookup_insert_eq. rewrite (k_len c w Hk). lia.
Qed.

Lemma housed_main c w e : no_scaling c -> sound c w -> housed w -> housed (main c w e).
Proof.
  intros Hn Hs Hh. pose proof (h_pc w Hh) as Hf. unfold fixed_pc in Hf. unfold main.
  destruct (pc w) as [|i k|i pid k| |i| | | |j want| |code|] eqn:Hpc; try done.
  - by apply (housed_reap c).
  - by apply housed_fork.
  - by apply (housed_record c).
  - apply housed_goto; [|unfold not_recording; destruct (_ <? _); [|by rewrite Hpc]|done].
    + destruct (_ <? _); [|done]. eapply housed_tells, Hh. by apply (tells_roll (fun _ => True)).
    + unfold roll_next. by rewrite (t_pc _ _ _ (tells_roll (fun _ => True) (workers c) w (S (workers c)) ltac:(done))), Hpc.
  - unfold refill. destruct (_ <? _)%nat eqn:El; [|apply housed_goto; [done|unfold not_recording; by rewrite Hpc|done]].
    destruct (_ && _) eqn:Ei; (apply housed_goto; [done|unfold not_recording; by rewrite Hpc|]); [|done].
    split; [done|]. apply andb_true_iff in Ei as [Ei%Z.eqb_eq _]. cbn. destruct (lookup_lt_is_Some_2 (children w) i) as [p Hp].
    { destruct Hs as [Hk _]. rewrite (k_len c w Hk). apply Nat.ltb_lt in El. lia. }
    unfold child in Ei. rewrite Hp in Ei |- *. by cbn in Ei; rewrite Ei.
  - pose proof (tells_canary c w (now e)) as Ht. apply housed_goto; [by eapply housed_tells| |done].
    unfold not_recording. by rewrite (t_pc _ _ _ Ht), Hpc.
  - destruct (_ && _); [|apply housed_goto; [done|unfold not_recording; by rewrite Hpc|done]].
    pose proof (tells_recycle c w (rss e)) as Ht. apply housed_goto; [by eapply housed_tells| |done].
    unfold not_recording. by rewrite (t_pc _ _ _ Ht), Hpc.
  - destruct (tells_autoscale c w e) as (n & w1 & p & Ht & -> & Hp).
    assert (housed (set_desired w n)) as Hh1 by (by destruct Hh). apply (housed_tells _ _ _ Ht) in Hh1.
    apply housed_goto; [done|unfold not_recording; rewrite (t_pc _ _ _ Ht); cbn; by rewrite Hpc|].
    destruct Hp as [-> |[-> |(H1 & H2 & _)]]; [done..|]. by destruct Hn.
  - unfold check. destruct (_ && _); (apply housed_goto; [done|unfold not_recording; by rewrite Hpc|done]).
Qed.

Lemma housed_step c w w' : no_scaling c -> sound c w -> step c w w' -> housed w -> housed w'.
Proof.
  intros Hn Hs [e _|_|t _|st r] Hh.
  - by apply housed_main.
  - eapply housed_tells; [apply tells_terminate|]. by destruct Hh.
  - eapply housed_tells; [apply tells_reload|done].
  - eapply (housed_tells (fun _ => True) w); [by apply tells_same|done].
Qed.

(** ** From the start *)

Lemma boot_slot c pids i : boot_children c pids !! i = (fun _ => if started c i then pids i else 0) <$> (if (i <? MAX_WORKERS)%nat then Some tt else None).
Proof.
  unfold boot_children. rewrite list_lookup_fmap. destruct (Nat.ltb_spec i MAX_WORKERS) as [Hlt|Hge].
  - rewrite lookup_seq_lt by done. done.
  - rewrite lookup_seq_ge by done. done.
Qed.

Lemma boot_proc c pids pid p :
  (forall i j, pids i = pids j -> i = j) ->
  boot_procs c pids !! pid = Some p <-> exists i, (i < MAX_WORKERS)%nat /\ started c i = true /\ pids i = pid /\ p = mkProc i false.
Proof.
  intros Hinj. unfold boot_procs. rewrite <- elem_of_list_to_map.
  - rewrite list_elem_of_fmap. split.
    + intros (i & [= -> ->] & [Hi Hin]%list_elem_of_filter). apply elem_of_seq in Hin. exists i. split_and!; [lia|done..].
    + intros (i & Hlt & Hi & <- & ->). exists i. split; [done|]. apply list_elem_of_filter. split; [done|]. apply elem_of_seq. lia.
  - rewrite <- list_fmap_compose. apply NoDup_fmap_2; [intros i j; apply Hinj|]. apply NoDup_filter, NoDup_seq.
Qed.

Definition good_pids (pids : nat -> Z) : Prop := (forall i j, pids i = pids j -> i = j) /\ forall i, 0 < pids i.

Lemma boot_sound c pids t st r : good_pids pids -> sound c (boot c pids t st r) /\ housed (boot c pids t st r).
Proof.
  intros [Hinj Hpos].
  assert (forall i, started c i = true -> (i < workers c)%nat /\ (i < MAX_WORKERS)%nat) as Hst.
  { intros i [Hi _]%andb_true_iff. apply Nat.ltb_lt in Hi. split; [done|]. unfold workers in Hi. lia. }
  split; [split; [split|]|split]; cbn [boot children procs pc]; try done.
  - intros i p Hi. rewrite boot_slot in Hi. destruct (_ <? _)%nat; [|done]. cbn in Hi.
    destruct (started c i) eqn:Ei; injection Hi as <-; [|by left]. right. split; [apply Hpos|].
    rewrite (proj2 (boot_proc c pids (pids i) (mkProc i false) Hinj)); [done|]. exists i. split_and!; try done. by apply Hst.
  - intros i p Hi Hge. rewrite boot_slot in Hi. destruct (_ <? _)%nat; [|done]. cbn in Hi.
    destruct (started c i) eqn:Ei; injection Hi as <-; [|done]. apply Hst in Ei. lia.
  - intros pid [p Hp]. apply boot_proc in Hp as (i & _ & _ & <- & _); [apply Hpos|done].
  - intros pid p Hp. left. apply boot_proc in Hp as (i & Hlt & Hi & <- & ->); [|done]. cbn [slot].
    rewrite boot_slot, (proj2 (Nat.ltb_lt _ _) Hlt). cbn. by rewrite Hi.
Qed.

Lemma reachable_housed c pids t st r w :
  good_pids pids -> no_scaling c -> rtc (step c) (boot c pids t st r) w -> sound c w /\ housed w.
Proof.
  intros Hp Hn Hr. destruct (boot_sound c pids t st r Hp) as [Hs Hh]. induction Hr as [|w1 w2 w3 H12 H23 IH]; [done|].
  apply IH; [by eapply sound_step|by eapply housed_step].
Qed.

(** ** Shutdown *)

(** Between two of the loop's decisions: no slot has been chosen for a fork. *)
Definition quiet (w : World) : Prop :=
  match pc w with Fork _ _ | Record_ _ _ _ | Refill _ | Scale _ _ => False | _ => True end.
Record closing (w : World) : Prop := {
  c_flag : shutdown w = true;
  c_quiet : quiet w;
  c_told : forall pid p, procs w !! pid = Some p -> told p = true }.

Lemma closing_tells E w w' : tells E w w' -> closing w -> closing w'.
Proof.
  intros Ht [H1 H2 H3]. split.
  - by rewrite (t_shutdown _ _ _ Ht).
  - unfold quiet in *. by rewrite (t_pc _ _ _ Ht).
  - intros pid p Hp. destruct (tells_proc _ _ _ _ _ Ht Hp) as (q & Hq & _ & Hqp). by eapply Hqp, H3.
Qed.
Lemma closing_goto w p : closing w -> quiet (goto w p) -> closing (goto w p).
Proof. intros [H1 H2 H3] H. by split. Qed.

Lemma told_of w pid p : told <$> procs w !! pid = Some true -> procs w !! pid = Some p -> told p = true.
Proof. intros H Hp. rewrite Hp in H. by injection H. Qed.

Lemma kill_told w pid : is_Some (procs w !! pid) -> told <$> procs (kill w pid) !! pid = Some true.
Proof. intros [p Hp]. unfold kill. rewrite Hp. cbn. by rewrite lookup_insert_eq. Qed.
Lemma kill_fold_told l w pid :
  pid ∈ l -> 0 < pid -> is_Some (procs w !! pid) -> told <$> procs (foldl kill_slot w l) !! pid = Some true.
Proof.
  intros Hin Hp. revert w. induction l as [|x l IH]; intros w Hw; [by apply elem_of_nil in Hin|]. cbn [foldl].
  apply elem_of_cons in Hin as [<-|Hin].
  - assert (told <$> procs (kill_slot w pid) !! pid = Some true) as H.
    { unfold kill_slot. rewrite (proj2 (Z.ltb_lt _ _) Hp). by apply kill_told. }
    destruct (procs (kill_slot w pid) !! pid) as [p|] eqn:E; [|done]. injection H as H.
    by apply (t_told _ _ _ (tells_fold (fun _ => True) kill_slot _ l (tells_kill_slot _)) pid p).
  - apply IH; [done|]. apply (tells_live _ _ _ pid (tells_kill_slot (fun _ => True) w x)). done.
Qed.

(** SIGTERM, at a quiet moment, reaches everybody. *)
Lemma terminate_closing c w : sound c w -> housed w -> quiet w -> closing (on_terminate w).
Proof.
  intros [Hk Hpos] Hh Hq. unfold on_terminate. apply (closing_tells (fun _ => True) (kill_all (set_shutdown w))); [by apply tells_note|].
  set (w1 := set_shutdown w). pose proof (tells_kill_all (fun _ => True) w1) as Ht. split.
  - by rewrite (t_shutdown _ _ _ Ht).
  - unfold quiet in *. by rewrite (t_pc _ _ _ Ht).
  - intros pid p Hp. destruct (tells_proc _ _ _ _ _ Ht Hp) as (q & Hq1 & _ & _). eapply told_of; [|exact Hp].
    unfold kill_all. apply kill_fold_told; [|apply Hpos; by eexists|by eexists].
    destruct (h_all w Hh pid q Hq1) as [Hin|Hr]; [by eapply list_elem_of_lookup_2|].
    unfold recording, quiet in *. by destruct (pc w).
Qed.

(** Once it is closing it stays so, and nobody comes back. *)
Lemma closing_main c w e : no_scaling c -> closing w -> closing (main c w e).
Proof.
  intros Hn Hc. pose proof (c_quiet w Hc) as Hq. unfold quiet in Hq. unfold main.
  destruct (pc w) as [|i k|i pid k| |i| | | |j want| |code|] eqn:Hpc; try done.
  - unfold reap. destruct (waitpid w e) as [[pid st]|].
    + cbv zeta. pose proof (tells_other_exit w pid) as Ho. apply (closing_tells _ _ _ Ho) in Hc. set (w1 := other_exit w pid) in *.
      assert (forall ch, closing (set_slots (set_procs w1 (delete pid (procs w1))) ch (spawn_at w1))) as Hd.
      { intros ch. destruct Hc as [H1 H2 H3]. split; [done|done|]. cbn. intros q p [_ Hq1]%lookup_delete_Some. by eapply H3. }
      destruct (slot_of _ _ _) as [i|]; [|by destruct (Hd (children w1))].
      cbn [shutdown set_slots set_procs]. rewrite (c_flag _ Hc). apply (Hd (<[i := 0]> (children w1))).
    + rewrite (c_flag _ Hc). by apply closing_goto.
  - apply closing_goto; [|done]. destruct (_ <? _); [|done]. eapply closing_tells, Hc. by apply (tells_roll (fun _ => True)).
  - apply closing_goto; [|done]. eapply closing_tells, Hc. apply tells_canary.
  - apply closing_goto; [|done]. destruct (_ && _); [|done]. eapply closing_tells, Hc. apply tells_recycle.
  - destruct (tells_autoscale c w e) as (n & w1 & p & Ht & -> & Hp).
    assert (closing (set_desired w n)) as Hc1 by (by destruct Hc). apply (closing_tells _ _ _ Ht) in Hc1.
    apply closing_goto; [done|]. destruct Hp as [-> |[-> |(H1 & H2 & _)]]; [done..|]. by destruct Hn.
  - unfold check. by destruct (_ && _); apply closing_goto.
Qed.

Lemma closing_step c w w' :
  no_scaling c -> closing w -> step c w w' ->
  closing w' /\ forall pid, is_Some (procs w' !! pid) -> is_Some (procs w !! pid).
Proof.
  intros Hn Hc [e _|_|t _|st r].
  - split; [by apply closing_main|]. intros pid H. apply main_procs in H as [?|[_ (i & k & Hpc)]]; [done|].
    pose proof (c_quiet w Hc) as Hq. unfold quiet in Hq. by rewrite Hpc in Hq.
  - split; [eapply closing_tells; [apply tells_terminate|]; by destruct Hc|].
    intros pid H. by rewrite (tells_live _ _ _ pid (tells_terminate w)) in H.
  - split; [by eapply closing_tells, Hc; apply tells_reload|]. intros pid H.
    by rewrite (tells_live _ _ _ pid (tells_reload c t w)) in H.
  - split; [eapply (closing_tells (fun _ => True)), Hc; by apply tells_same|done].
Qed.

(** The loop left to itself, with a kernel that answers. *)
Fixpoint drive (c : Conf) (env : World -> Env) (n : nat) (w : World) : World :=
  match n with O => w | S n => drive c env n (main c w (env w)) end.
Definition answers (env : World -> Env) : Prop :=
  forall w, pc w = Reap -> procs w <> ∅ ->
    exists pid st, exited (env w) = Some (pid, st) /\ is_Some (procs w !! pid).

Lemma drive_add c env n m w : drive c env (n + m) w = drive c env m (drive c env n w).
Proof. revert w. induction n as [|n IH]; intros w; [done|]. cbn. apply IH. Qed.

Lemma tells_size E w w' : tells E w w' -> size (procs w') = size (procs w).
Proof.
  intros Ht. rewrite <- (map_size_fmap slot (procs w')), <- (map_size_fmap slot (procs w)). f_equal. apply map_eq. intros k.
  rewrite !lookup_fmap. apply (t_slots _ _ _ Ht).
Qed.

Lemma autoscale_off c w e : no_scaling c -> autoscale c w e = goto w Check.
Proof.
  intros Hn. unfold autoscale. destruct (_ && _ && _) eqn:E; [|done]. exfalso. apply Hn.
  apply andb_true_iff in E as [[H1%Nat.ltb_lt H2]%andb_true_iff _]. done.
Qed.

(** The stations after the reaping. *)
Record on_its_way (c : Conf) (k : nat) (p : Pc) (w : World) : Prop := {
  w_sound : sound c w; w_closing : closing w; w_size : size (procs w) = k; w_pc : pc w = p }.

Lemma advance c k w e p :
  no_scaling c -> on_its_way c k p w ->
  match p with
  | Roll => on_its_way c k Reap (main c w e)
  | Canary => on_its_way c k Rss (main c w e)
  | Rss => on_its_way c k Autoscale (main c w e)
  | Autoscale => on_its_way c k Check (main c w e)
  | _ => True
  end.
Proof.
  intros Hn [Hs Hc Hk Hpc].
  assert (stopped w = false -> sound c (main c w e)) as Hs' by (intros Hst; eapply sound_step, Hs; by apply step_main).
  pose proof (closing_main c w e Hn Hc) as Hc'. unfold stopped in Hs'. rewrite Hpc in Hs'.
  destruct p; try done; (split; [by apply Hs'|done| |]); unfold main; rewrite Hpc; cbn [procs pc goto]; try done.
  - destruct (_ <? _); [|done]. rewrite <- Hk. eapply (tells_size (fun _ => True)). by apply tells_roll.
  - rewrite <- Hk. eapply tells_size, tells_canary.
  - destruct (_ && _); [|done]. rewrite <- Hk. eapply tells_size, tells_recycle.
  - by rewrite autoscale_off.
  - by rewrite autoscale_off.
Qed.

Lemma no_children c w : sound c w -> procs w = ∅ -> forallb (fun p => p =? 0) (children w) = true.
Proof.
  intros [Hk _] He. apply forallb_Forall, Forall_lookup_2. intros i p Hi. destruct (k_live c w Hk i p Hi) as [-> |[_ H]]; [done|].
  by rewrite He in H.
Qed.

Lemma advance_check c k w e :
  on_its_way c k Check w -> pc (main c w e) = Exited 0 \/ (k <> 0%nat /\ on_its_way c k Reap (main c w e)).
Proof.
  intros [Hs Hc Hk Hpc]. unfold main. rewrite Hpc. unfold check. rewrite (c_flag w Hc). cbn [andb].
  destruct (forallb _ _) eqn:E; [by left|]. right. split.
  - intros ->. apply map_size_empty_inv in Hk. by rewrite (no_children c w Hs Hk) in E.
  - split; [|by apply closing_goto|done|done]. destruct Hs as [Ht Hp]. split; [by apply tracked_goto|done].
Qed.

(** The next station of [H], given its step by [env]. *)
Ltac advance_in env Hn H :=
  match type of H with
  | on_its_way _ _ _ ?w => apply (advance _ _ _ (env w) _ Hn) in H; cbn match in H
  end.

Lemma reap_out c env k w :
  no_scaling c -> (k <> 0%nat -> answers env) -> on_its_way c k Reap w -> pc (drive c env (k + 5) w) = Exited 0.
Proof.
  intros Hn. revert w. induction k as [|k IH]; intros w Ha [Hs Hc Hk Hpc].
  - apply map_size_empty_inv in Hk as He. cbn [plus drive].
    assert (on_its_way c 0 Canary (main c w (env w))) as H1.
    { split; [eapply sound_step, Hs; apply step_main; unfold stopped; by rewrite Hpc|by apply closing_main| |];
        unfold main, reap, waitpid; rewrite Hpc, He, (c_flag w Hc); destruct (exited _) as [[? ?]|]; by rewrite ?lookup_empty. }
    do 3 advance_in env Hn H1. match type of H1 with on_its_way _ _ _ ?w => destruct (advance_check c 0 w (env w) H1) as [H2|[? _]] end; [exact H2|done].
  - cbn [plus drive]. apply IH; [intros _; by apply Ha|].
    destruct (Ha ltac:(done) w Hpc) as (pid & st & He & [p Hp]).
    { intros H. by rewrite H, map_size_empty in Hk. }
    split; [eapply sound_step, Hs; apply step_main; unfold stopped; by rewrite Hpc|by apply closing_main| |];
      unfold main, reap, waitpid; rewrite Hpc, He, bool_decide_eq_true_2 by (by eexists); cbv zeta; unfold other_exit; rewrite Hp;
      rewrite (c_told w Hc pid p Hp); cbn [shutdown set_slots set_procs]; rewrite (c_flag w Hc);
      destruct (slot_of _ _ _); cbn [procs pc set_slots set_procs]; try done; rewrite map_size_delete, Hp; lia.
Qed.

(** How many turns are left, at each station. *)
Lemma ends_from c env k p w :
  no_scaling c -> (k <> 0%nat -> answers env) -> on_its_way c k p w -> p <> Panicked -> (forall code, p <> Exited code) ->
  exists n, (n <= k + 10)%nat /\ pc (drive c env n w) = Exited 0.
Proof.
  intros Hn Ha H Hp Hx.
  assert (forall w, on_its_way c k Reap w -> exists n, (n <= k + 5)%nat /\ pc (drive c env n w) = Exited 0) as Hreap.
  { intros w1 H1. exists (k + 5)%nat. split; [lia|]. by apply reap_out. }
  assert (forall m w, (exists n, (n <= m)%nat /\ pc (drive c env n (main c w (env w))) = Exited 0) ->
            exists n, (n <= S m)%nat /\ pc (drive c env n w) = Exited 0) as Hstep.
  { intros m w1 (n & Hm & E). exists (S n). split; [lia|exact E]. }
  assert (forall w, on_its_way c k Check w -> exists n, (n <= k + 6)%nat /\ pc (drive c env n w) = Exited 0) as Hcheck.
  { intros w1 H1. destruct (advance_check c k w1 (env w1) H1) as [E|[_ H2]]; [by exists 1%nat; split; [lia|]|].
    replace (k + 6)%nat with (S (k + 5)) by lia. by apply Hstep, Hreap. }
  assert (forall m q w, on_its_way c k q w ->
            match q with Roll => m = k + 6 | Autoscale => m = k + 7 | Rss => m = k + 8 | Canary => m = k + 9 | _ => False end%nat ->
            exists n, (n <= m)%nat /\ pc (drive c env n w) = Exited 0) as Hrest.
  { induction m as [|m IH]; intros q w1 H1 Hm; destruct q; try done; try lia; apply Hstep; advance_in env Hn H1.
    - replace m with (k + 5)%nat by lia. by apply Hreap.
    - apply (IH Rss); [done|lia].
    - apply (IH Autoscale); [done|lia].
    - replace m with (k + 6)%nat by lia. by apply Hcheck. }
  pose proof (c_quiet w (w_closing _ _ _ _ H)) as Hq. unfold quiet in Hq. rewrite (w_pc _ _ _ _ H) in Hq.
  assert (forall m, (m <= k + 10)%nat -> (exists n, (n <= m)%nat /\ pc (drive c env n w) = Exited 0) ->
            exists n, (n <= k + 10)%nat /\ pc (drive c env n w) = Exited 0) as Hw.
  { intros m Hm (n & Hle & E). exists n. split; [lia|done]. }
  destruct p; try done.
  - eapply Hw, Hreap; [lia|done].
  - eapply Hw, (Hrest _ Roll); [|done|done]. lia.
  - eapply Hw, (Hrest _ Canary); [|done|done]. lia.
  - eapply Hw, (Hrest _ Rss); [|done|done]. lia.
  - eapply Hw, (Hrest _ Autoscale); [|done|done]. lia.
  - eapply Hw, Hcheck; [lia|done].
  - by destruct (Hx code).
Qed.

(** C6.  After SIGTERM at a moment when no fork is under way, with autoscaling off: nobody new is ever
    started, and everybody there has been told to go.  Once the last of them has been reaped the
    master exits within ten turns, whatever the kernel says.  And if each of its [waitpid]s finds an
    exit for as long as there is a process ([answers]: nobody takes time to drain), it exits within
    ten turns more than there were processes. *)
Theorem shutdown_ends c pids t st r w env :
  good_pids pids -> no_scaling c -> rtc (step c) (boot c pids t st r) w -> quiet w -> stopped w = false ->
  (forall w', rtc (step c) (on_terminate w) w' ->
     forall pid p, procs w' !! pid = Some p -> told p = true /\ is_Some (procs w !! pid))
  /\ (forall w' env', rtc (step c) (on_terminate w) w' -> procs w' = ∅ -> stopped w' = false ->
      exists n, (n <= 10)%nat /\ pc (drive c env' n w') = Exited 0)
  /\ (answers env -> exists n, (n <= size (procs w) + 10)%nat /\ pc (drive c env n (on_terminate w)) = Exited 0).
Proof.
  intros Hp Hn Hr Hq Hst. destruct (reachable_housed c pids t st r w Hp Hn Hr) as [Hs Hh].
  pose proof (terminate_closing c w Hs Hh Hq) as Hc. assert (sound c (on_terminate w)) as Hs1 by (by eapply sound_step, Hs; apply step_terminate).
  assert (forall w1 w2, rtc (step c) w1 w2 -> closing w1 ->
            closing w2 /\ forall pid, is_Some (procs w2 !! pid) -> is_Some (procs w1 !! pid)) as Hrun.
  { induction 1 as [|w1 w2 w3 H12 _ IH]; [done|]. intros H1. apply (closing_step c w1 w2 Hn) in H1 as [H1 Hd]; [|done].
    apply IH in H1 as [H1 Hd']. split; [done|]. intros pid ?. by apply Hd, Hd'. }
  split; [|split].
  - intros w' Hw' pid p Hpid. destruct (Hrun _ _ Hw' Hc) as [Hc' Hd]. split; [by eapply c_told|].
    apply (tells_live _ _ _ pid (tells_terminate w)). apply Hd. by eexists.
  - intros w' env' Hw' He Hst'. destruct (Hrun _ _ Hw' Hc) as [Hc' _].
    assert (sound c w') as Hs' by by eapply sound_steps.
    destruct (ends_from c env' 0 (pc w') w' Hn) as (n & Hle & E); [done|by split; rewrite ?He, ?map_size_empty|..|by exists n].
    + intros Ep. unfold stopped in Hst'. by rewrite Ep in Hst'.
    + intros code Ep. unfold stopped in Hst'. by rewrite Ep in Hst'.
  - intros Ha. set (w1 := on_terminate w) in *.
    assert (size (procs w1) = size (procs w)) as Ek by apply (tells_size _ _ _ (tells_terminate w)).
    destruct (ends_from c env (size (procs w)) (pc w1) w1 Hn (fun _ => Ha)) as (n & Hle & E); [by split|..|by exists n].
    + unfold w1. rewrite (t_pc _ _ _ (tells_terminate w)). cbn. unfold stopped in Hst. by destruct (pc w).
    + intros code. unfold w1. rewrite (t_pc _ _ _ (tells_terminate w)). cbn. unfold stopped in Hst. by destruct (pc w).
Qed.
