(* ===== verification/SupervisorReload.v ===== *)
(** Crash loops and reloads: a fleet that cannot boot gives up, a reload goes through its canary,
    and workers drain no more at once than there were reasons to. *)

From stdpp Require Import gmap.
From S2P Require Import Prelude Supervisor SupervisorSpec.

(** ** A crash loop ends *)

Definition silent (e : Event) : Prop := match e with EBoot _ | EHealthy => False | _ => True end.
(** When the boot failures of a history were, newest first. *)
Definition boots (l : list Event) : list Z := omap (fun e => match e with EBoot t => Some t | _ => None end) l.

Lemma boots_silent l : Forall silent l -> boots l = [] /\ (EHealthy ∉ l).
Proof.
  induction 1 as [|e l He _ [IH1 IH2]]; [split; [done|by intros ?%elem_of_nil]|]. split.
  - unfold boots. cbn. by destruct e.
  - intros [<-|?]%elem_of_cons; [done|by apply IH2].
Qed.
Lemma boots_app l1 l2 : boots (l1 ++ l2) = boots l1 ++ boots l2.
Proof. apply omap_app. Qed.

(** What a step does to the guard's counter and window. *)
Record quiet_step (w w' : World) : Prop := {
  q_log : exists l, log w' = l ++ log w /\ Forall silent l;
  q_same : fastfail_count w' = fastfail_count w /\ fastfail_window w' = fastfail_window w }.
Definition boot_step (c : Conf) (t : Z) (w w' : World) : Prop :=
  (FASTFAIL_WINDOW_SECS < sat_sub64 t (fastfail_window w) /\ fastfail_count w' = 1 /\ fastfail_window w' = t)
  \/ (fastfail_count w' = wrap64 (fastfail_count w + 1) /\ fastfail_window w' = fastfail_window w
      /\ (fastfail_count w' < give_up_at c \/ pc w' = Exited 1)).
Definition fast_step (c : Conf) (w w' : World) : Prop :=
  quiet_step w w'
  \/ exists l, log w' = l ++ log w /\ ((EHealthy ∈ l) \/ exists t, boots l = [t] /\ boot_step c t w w').

Lemma quiet_tells E w w' : (forall e, E e -> silent e) -> tells E w w' -> quiet_step w w'.
Proof. intros He [_ _ _ _ Hf _ _ (l & Hl & HE)]. split; [|done]. exists l. split; [done|]. by eapply Forall_impl. Qed.
Lemma quiet_same w w' : log w' = log w -> fastfail_count w' = fastfail_count w -> fastfail_window w' = fastfail_window w -> quiet_step w w'.
Proof. intros Hl H1 H2. split; [by exists []|done]. Qed.
Lemma fast_after w w1 w' c : quiet_step w w1 -> fast_step c w1 w' -> fast_step c w w'.
Proof.
  intros [(l1 & L1 & S1) [E1 E2]] [[(l & L & S) [E3 E4]]|(l & L & H)].
  - left. split; [|split; congruence]. exists (l ++ l1). rewrite L, L1, (assoc_L (++)). split; [done|]. by apply Forall_app.
  - right. exists (l ++ l1). rewrite L, L1, (assoc_L (++)). split; [done|]. destruct H as [H|(t & Hb & H)].
    + left. apply elem_of_app. by left.
    + right. exists t. destruct (boots_silent l1 S1) as [E _]. rewrite boots_app, E, app_nil_r. split; [done|].
      unfold boot_step in *. by rewrite E1, E2 in H.
Qed.

Lemma respawn_fast c w i : exists l, log (respawn c w i) = l ++ log w /\ Forall silent l
  /\ fastfail_count (respawn c w i) = fastfail_count w /\ fastfail_window (respawn c w i) = fastfail_window w.
Proof.
  unfold respawn. destruct (default _ _); [by exists []|]. exists [ERespawn i]. split_and!; try done. by repeat constructor.
Qed.

Lemma guard_fast c w t i st : fast_step c w (guard_boot c w t i st).
Proof.
  right. unfold guard_boot. cbv zeta. destruct (_ && _).
  2:{ destruct (respawn_fast c (set_fastfail (note w EHealthy) 0 (fastfail_window w)) i) as (l & -> & _). exists (l ++ [EHealthy]).
      split; [by rewrite <- (assoc_L (++))|]. left. apply elem_of_app. right. by left. }
  assert (forall n u, exists l, log (respawn c (set_fastfail (note w (EBoot t)) n u) i) = l ++ log w /\ boots l = [t]
            /\ fastfail_count (respawn c (set_fastfail (note w (EBoot t)) n u) i) = n
            /\ fastfail_window (respawn c (set_fastfail (note w (EBoot t)) n u) i) = u) as Hr.
  { intros n u. destruct (respawn_fast c (set_fastfail (note w (EBoot t)) n u) i) as (l & -> & S & -> & ->). exists (l ++ [EBoot t]).
    destruct (boots_silent l S) as [E _]. rewrite boots_app, E. split_and!; try done. by rewrite <- (assoc_L (++)). }
  destruct (Z.ltb_spec FASTFAIL_WINDOW_SECS (sat_sub64 t (fastfail_window (note w (EBoot t))))) as [Hw|Hw].
  - destruct (Hr 1 t) as (l & L & B & E1 & E2). exists l. split; [done|]. right. exists t. split; [done|]. left. by split_and!.
  - cbn [fastfail_count fastfail_window note set_fastfail].
    destruct (Z.leb_spec (give_up_at c) (wrap64 (fastfail_count w + 1))) as [Hg|Hg].
    + exists [ETerm; EBoot t]. pose proof (tells_kill_all (fun _ => False) (set_fastfail (note w (EBoot t)) (wrap64 (fastfail_count w + 1)) (fastfail_window w))) as Ht.
      destruct (t_log _ _ _ Ht) as (l & L & F). assert (l = []) as -> by (destruct l; [done|by inversion F]).
      destruct (t_fastfail _ _ _ Ht) as [E1 E2]. split; [cbn [log note goto]; by rewrite L|]. right. exists t. split; [done|]. right. split_and!; [exact E1|exact E2|by right].
    + destruct (Hr (wrap64 (fastfail_count w + 1)) (fastfail_window w)) as (l & L & B & E1 & E2). exists l. split; [done|].
      right. exists t. split; [done|]. right. split_and!; [done|done|]. left. lia.
Qed.

Lemma fast_main c w e : fast_step c w (main c w e).
Proof.
  unfold main. destruct (pc w) as [|i k|i pid k| |i| | | |j want| |code|]; try (left; by apply quiet_same).
  - unfold reap. destruct (waitpid w e) as [[pid st]|]; [|left; by apply quiet_same]. cbv zeta.
    eapply fast_after; [eapply quiet_tells, tells_other_exit; by intros []|]. set (w1 := other_exit w pid).
    destruct (slot_of _ _ _) as [i|]; [|left; by apply quiet_same].
    destruct (shutdown _); [left; by apply quiet_same|]. destruct (_ && _); [left; by apply quiet_same|].
    eapply fast_after; [|apply guard_fast]. by apply quiet_same.
  - left. unfold do_fork. cbv zeta. destruct (fork _ _); [|by apply quiet_same]. split; [|done].
    eexists [EFork _]. split; [done|]. by repeat constructor.
  - left. unfold record. destruct (_ <? _)%nat; by apply quiet_same.
  - left. destruct (_ <? _); [|by apply quiet_same].
    destruct (quiet_tells silent w (roll_next c w)) as [? ?]; [done|by apply tells_roll|by split].
  - left. unfold refill. destruct (_ <? _)%nat; [|by apply quiet_same]. destruct (_ && _); by apply quiet_same.
  - left. destruct (quiet_tells judges w (canary c w (now e))) as [? ?]; [by intros []|apply tells_canary|by split].
  - left. destruct (_ && _); [|by apply quiet_same].
    destruct (quiet_tells recycles w (recycle_over_rss c w (rss e))) as [? ?]; [by intros []|apply tells_recycle|by split].
  - left. destruct (tells_autoscale c w e) as (n & w1 & p & Ht & -> & _).
    apply quiet_tells in Ht as [? ?]; [by split|by intros []].
  - left. destruct (_ <? _)%nat; by apply quiet_same.
  - left. unfold check. destruct (_ && _); by apply quiet_same.
Qed.

Lemma fast_any c w w' : step c w w' -> fast_step c w w' /\ (stopped w = true -> pc w' = pc w).
Proof.
  intros [e H|H|t H|st r].
  - split; [apply fast_main|by rewrite H].
  - split; [|by rewrite H]. left. destruct (tells_terminate w) as [_ _ _ _ Hf _ _ _]. split; [|done].
    pose proof (tells_kill_all (fun _ => False) (set_shutdown w)) as Ht.
    destruct (t_log _ _ _ Ht) as (l & L & F). assert (l = []) as -> by (destruct l; [done|by inversion F]).
    exists [ETerm]. split; [unfold on_terminate; cbn [log note]; by rewrite L|by repeat constructor].
  - split; [|by rewrite H]. left. eapply quiet_tells, tells_reload. by intros [].
  - split; [left; by apply quiet_same|done].
Qed.

(** The guard, [k] boot failures after [t]: at most one window has been opened since. *)
Definition within_guard (c : Conf) (t k : Z) (w : World) : Prop :=
  pc w = Exited 1
  \/ 0 <= fastfail_count w < give_up_at c
     /\ (k <= fastfail_count w \/ t <= fastfail_window w /\ k <= fastfail_count w + (give_up_at c - 1)).
Lemma give_up_bounds c : 10 <= give_up_at c <= 1536.
Proof. unfold give_up_at, workers, MAX_WORKERS. lia. Qed.

Lemma within_guard_step c t k w w' :
  step c w w' ->
  exists l, log w' = l ++ log w
    /\ (within_guard c t k w -> (EHealthy ∉ l) -> Forall (fun u => t <= u <= t + FASTFAIL_WINDOW_SECS) (boots l) ->
        within_guard c t (k + Z.of_nat (length (boots l))) w').
Proof.
  intros Hs. destruct (fast_any c w w' Hs) as [Hf Hst]. pose proof (give_up_bounds c) as HN.
  destruct Hf as [[(l & L & S) [E1 E2]]|(l & L & Hf)]; exists l; (split; [done|]); intros Hg Hh Hb.
  - destruct (boots_silent l S) as [-> _]. cbn. rewrite Z.add_0_r. destruct Hg as [Hx|Hg].
    + left. rewrite Hst; [done|]. unfold stopped. by rewrite Hx.
    + right. by rewrite E1, E2.
  - destruct Hf as [?|(u & Eu & Hf)]; [done|]. rewrite Eu in Hb |- *. apply Forall_cons in Hb as [Hu _]. cbn [length].
    destruct Hg as [Hx|[Hc Hg]]; [left; rewrite Hst; [done|]; unfold stopped; by rewrite Hx|].
    unfold FASTFAIL_WINDOW_SECS, sat_sub64 in *. destruct Hf as [(Hw & E1 & E2)|(E1 & E2 & Hf)].
    + unfold FASTFAIL_WINDOW_SECS, sat_sub64 in Hw. right. rewrite E1, E2. split; [lia|]. right. lia.
    + rewrite wrap64_id in E1 by (unfold is_u64, W64; lia). destruct Hf as [Hf|?]; [|by left].
      right. rewrite E1, E2 in *. split; [lia|]. lia.
Qed.

Lemma within_guard_steps c t w w' :
  rtc (step c) w w' -> 0 <= fastfail_count w < give_up_at c ->
  exists l, log w' = l ++ log w
    /\ ((EHealthy ∉ l) -> Forall (fun u => t <= u <= t + FASTFAIL_WINDOW_SECS) (boots l) ->
        within_guard c t (Z.of_nat (length (boots l))) w').
Proof.
  intros Hr Hc. revert w' Hr. apply rtc_ind_r.
  { exists []. split; [done|]. intros _ _. right. cbn. lia. }
  intros w1 w2 _ H12 IH.
  destruct IH as (l1 & L1 & IH). destruct (within_guard_step c t (Z.of_nat (length (boots l1))) w1 w2 H12) as (l & L & Hl).
  exists (l ++ l1). rewrite L, L1, (assoc_L (++)). split; [done|]. rewrite boots_app, length_app, Forall_app, not_elem_of_app.
  intros [Hh Hh1] [Hb Hb1]. rewrite Nat2Z.inj_add, Z.add_comm. by apply Hl, Hb; [apply IH|].
Qed.

(** C27.  A fleet that cannot boot gives up: when boot failures follow each other within one
    window, none of them after a healthy exit, the master has told everybody to go and exited
    with status 1 before there are twice as many as the guard allows. *)
Theorem crash_loop_ends c w w' l t :
  rtc (step c) w w' -> 0 <= fastfail_count w < give_up_at c -> log w' = l ++ log w ->
  (EHealthy ∉ l) -> Forall (fun u => t <= u <= t + FASTFAIL_WINDOW_SECS) (boots l) ->
  2 * give_up_at c - 1 <= Z.of_nat (length (boots l)) -> pc w' = Exited 1.
Proof.
  intros Hr Hc Hl Hh Hb Hk. destruct (within_guard_steps c t w w' Hr Hc) as (l' & Hl' & H).
  rewrite Hl' in Hl. apply (inj (.++ log w)) in Hl as ->.
  destruct (H Hh Hb) as [?|[? H2]]; [done|]. exfalso. destruct H2 as [?|[_ ?]]; lia.
Qed.

(** ** A reload goes through its canary *)

(** What was last said of a deploy: [true] that it passed, [false] that it failed or has only
    been asked for. *)
Definition words (l : list Event) : list bool :=
  omap (fun e => match e with EVerdict b => Some b | EReload _ => Some false | _ => None end) l.
Definition last_word (l : list Event) : option bool := head (words l).

Fixpoint gated (l : list Event) : Prop :=
  match l with
  | [] => True
  | ERoll _ _ :: l => last_word l = Some true /\ gated l
  | _ :: l => gated l
  end.
Lemma gated_split l1 i pid l2 : gated (l1 ++ ERoll i pid :: l2) -> last_word l2 = Some true.
Proof. induction l1 as [|e l1 IH]; cbn; [by intros [? _]|]. destruct e; try exact IH. intros [_ ?]. by apply IH. Qed.

Lemma last_word_mild l l0 : Forall (fun e => match e with EVerdict _ | EReload _ => False | _ => True end) l -> last_word (l ++ l0) = last_word l0.
Proof.
  intros Hl. unfold last_word, words. rewrite omap_app. induction Hl as [|e l He _ IH]; [done|]. cbn. by destruct e.
Qed.
Lemma gated_rolls l l0 : Forall rolls l -> last_word l0 = Some true -> gated l0 -> gated (l ++ l0).
Proof.
  intros Hl Hw Hg. induction Hl as [|e l He Hl IH]; [done|]. destruct e; try done. cbn. split; [|done].
  rewrite last_word_mild; [done|]. eapply Forall_impl; [exact Hl|]. by intros [].
Qed.

(** Steps that neither judge nor roll. *)
Definition mild (e : Event) : Prop := match e with ERoll _ _ | EVerdict _ | EReload _ => False | _ => True end.
Record calm (w w' : World) : Prop := {
  m_active : canary_active w' = canary_active w;
  m_cursor : reload_cursor w' = reload_cursor w;
  m_log : exists l, log w' = l ++ log w /\ Forall mild l }.
#[global] Instance calm_preorder : PreOrder calm.
Proof.
  split; [intros w; split; try done; by exists []|].
  intros w1 w2 w3 [? ? (l1 & L1 & F1)] [? ? (l2 & L2 & F2)]. split; [congruence|congruence|].
  exists (l2 ++ l1). rewrite L2, L1, (assoc_L (++)). split; [done|]. by apply Forall_app.
Qed.
Lemma calm_same w w' : canary_active w' = canary_active w -> reload_cursor w' = reload_cursor w -> log w' = log w -> calm w w'.
Proof. intros ? ? Hl. split; [done..|]. by exists []. Qed.
Lemma calm_note w e : mild e -> calm w (note w e).
Proof. intros He. split; [done..|]. exists [e]. split; [done|]. by repeat constructor. Qed.
Lemma calm_kill w pid : calm w (kill w pid).
Proof. unfold kill. destruct (procs w !! pid); by apply calm_same. Qed.
Lemma calm_fold {A} (f : World -> A -> World) w l : (forall w x, calm w (f w x)) -> calm w (foldl f w l).
Proof. intros Hf. revert w. induction l as [|x l IH]; intros w; cbn; [done|]. etrans; [apply Hf|apply IH]. Qed.
Lemma calm_kill_all w : calm w (kill_all w).
Proof. apply calm_fold. intros w1 pid. unfold kill_slot. destruct (0 <? pid); [apply calm_kill|done]. Qed.

Lemma calm_goto w w' p : calm w w' -> calm w (goto w' p).
Proof. intros H. etrans; [exact H|]. by apply calm_same. Qed.
Lemma calm_noted w w' e : mild e -> calm w w' -> calm w (note w' e).
Proof. intros He H. etrans; [exact H|]. by apply calm_note. Qed.
Lemma calm_killed w w' pid : calm w w' -> calm w (kill w' pid).
Proof. intros H. etrans; [exact H|]. apply calm_kill. Qed.

Lemma calm_recycle c w rss : calm w (recycle_over_rss c w rss).
Proof.
  unfold recycle_over_rss. destruct (_ =? _); [done|]. apply calm_fold. intros w1 i. unfold recycle_one.
  destruct (_ <=? _); [done|]. destruct (_ =? _); [done|]. destruct (rss _); [|done]. destruct (_ <=? _); [|done].
  by apply calm_noted, calm_killed, calm_same.
Qed.

Lemma calm_guard c w t i st : calm w (guard_boot c w t i st).
Proof.
  assert (forall w, calm w (respawn c w i)) as Hr.
  { intros w1. unfold respawn. destruct (default _ _); [by apply calm_same|]. by apply calm_goto, calm_noted, calm_same. }
  assert (forall e n u, mild e -> calm w (set_fastfail (note w e) n u)) as Hf.
  { intros e n u He. transitivity (note w e); [by apply calm_note|by apply calm_same]. }
  unfold guard_boot. cbv zeta. destruct (_ && _); [|etrans; [by apply (Hf EHealthy)|apply Hr]].
  destruct (_ <? _); [etrans; [by apply (Hf (EBoot t))|apply Hr]|].
  destruct (_ <=? _); (etrans; [by apply (Hf (EBoot t))|]); [|apply Hr].
  by apply calm_goto, calm_noted, calm_kill_all.
Qed.

Lemma calm_main c w e : match pc w with Roll | Canary => False | _ => True end -> calm w (main c w e).
Proof.
  unfold main. destruct (pc w) as [|i k|i pid k| |i| | | |j want| |code|]; try done; intros _.
  - unfold reap. destruct (waitpid w e) as [[pid st]|]; [|by apply calm_same]. cbv zeta.
    assert (calm w (other_exit w pid)) as Ho.
    { unfold other_exit. destruct (procs w !! pid) as [p|]; [|done]. destruct (told p); [done|]. by apply calm_note. }
    etrans; [exact Ho|]. set (w1 := other_exit w pid). destruct (slot_of _ _ _) as [i|]; [|by apply calm_same].
    destruct (shutdown _); [by apply calm_same|]. destruct (_ && _); [by apply calm_same|].
    etrans; [|apply calm_guard]. by apply (calm_same w1).
  - unfold do_fork. cbv zeta. destruct (fork _ _); [|by apply calm_same]. split; [done..|].
    eexists [EFork _]. split; [done|]. by repeat constructor.
  - unfold record. destruct (_ <? _)%nat; by apply calm_same.
  - unfold refill. destruct (_ <? _)%nat; [|by apply calm_same]. destruct (_ && _); by apply calm_same.
  - apply calm_goto. destruct (_ && _); [apply calm_recycle|done].
  - unfold autoscale. destruct (_ && _ && _); [|by apply calm_same]. cbv zeta. destruct (_ <? _)%nat; [by apply calm_same|].
    destruct (_ <? _)%nat; [|by apply calm_same]. destruct (_ <? _)%nat; [|by apply calm_same].
    destruct (0 <? _); [|by apply calm_same]. by apply calm_goto, calm_noted, calm_killed, calm_same.
  - destruct (_ <? _)%nat; by apply calm_same.
  - unfold check. destruct (_ && _); by apply calm_same.
Qed.

Lemma roll_shape n w fuel :
  canary_active (roll_loop n w fuel) = canary_active w
  /\ exists l, log (roll_loop n w fuel) = l ++ log w /\ Forall rolls l.
Proof.
  revert w. induction fuel as [|fuel IH]; intros w; cbn [roll_loop]; [split; [done|by exists []]|]. cbv zeta.
  set (w1 := set_cursor _ _). destruct (_ <=? _); [split; [done|by exists []]|]. destruct (0 <? _); [|apply (IH w1)].
  pose proof (calm_kill w1 (child w1 (Z.to_nat (reload_cursor w)))) as [Ha _ _]. split; [exact Ha|].
  eexists [ERoll _ _]. split; [|by repeat constructor]. cbn [log note Datatypes.app]. f_equal. unfold kill. by destruct (procs w1 !! _).
Qed.

(** A reload is only asked for when none is rolling. *)
Inductive orderly (c : Conf) (w : World) : World -> Prop :=
| orderly_main e : stopped w = false -> orderly c w (main c w e)
| orderly_terminate : stopped w = false -> orderly c w (on_terminate w)
| orderly_reload t : stopped w = false -> Z.of_nat (workers c) <= reload_cursor w -> orderly c w (begin_reload c t w)
| orderly_shared st r : orderly c w (set_shared w st r).

Record in_order (c : Conf) (l0 : list Event) (w : World) : Prop := {
  o_log : exists l, log w = l ++ l0 /\ gated l /\ (last_word l = Some true \/ Z.of_nat (workers c) <= reload_cursor w);
  o_active : canary_active w = true -> Z.of_nat (workers c) <= reload_cursor w }.

Lemma gated_mild l l0 : Forall mild l -> gated l0 -> gated (l ++ l0).
Proof. induction 1 as [|e l He _ IH]; [done|]. intros H. by destruct e; try apply IH. Qed.
Lemma in_order_calm c l0 w w' : calm w w' -> in_order c l0 w -> in_order c l0 w'.
Proof.
  intros [Ha Hc (l & L & F)] [(l1 & L1 & G & W) A]. split; rewrite ?Ha, ?Hc; [|done].
  exists (l ++ l1). rewrite L, L1, (assoc_L (++)). split; [done|]. split; [by apply gated_mild|].
  rewrite last_word_mild; [done|]. eapply Forall_impl; [exact F|]. by intros [].
Qed.

(** Rolling, once the last word is that the deploy passed. *)
Lemma in_order_roll c l0 w l :
  canary_active w = false -> log w = l ++ l0 -> gated l -> last_word l = Some true -> in_order c l0 (roll_next c w).
Proof.
  intros Ha L G W. destruct (roll_shape (workers c) w (S (workers c))) as (Ha' & l1 & L1 & F). split.
  - exists (l1 ++ l). unfold roll_next. rewrite L1, L, (assoc_L (++)). split; [done|]. split; [by apply gated_rolls|]. left.
    rewrite last_word_mild; [done|]. eapply Forall_impl; [exact F|]. by intros [].
  - unfold roll_next. rewrite Ha', Ha. done.
Qed.

Lemma in_order_goto c l0 w p : in_order c l0 w -> in_order c l0 (goto w p).
Proof. intros H. eapply in_order_calm, H. by apply calm_same. Qed.

Lemma in_order_canary c l0 w t : in_order c l0 w -> in_order c l0 (canary c w t).
Proof.
  intros Ho. unfold canary. cbv zeta. destruct (canary_active w) eqn:Ea; cbn [andb]; [|done].
  destruct (_ && _); [|done]. pose proof (o_active _ _ _ Ho Ea) as Hc. destruct (o_log _ _ _ Ho) as (l & L & G & W). unfold act_on.
  destruct (verdict _ _ _) as [r p|r n|why]; [apply (in_order_roll c l0 _ (EVerdict true :: l)); [done|cbn; by rewrite L|done..]..|].
  cbv zeta. set (w1 := set_canary _ _ _ _). assert (in_order c l0 w1) as H1.
  { split; [|done]. exists (EVerdict false :: l). cbn. rewrite L. split; [done|]. split; [done|by right]. }
  destruct (_ && _); [|done]. eapply in_order_calm, H1. by apply calm_noted, calm_killed, calm_same.
Qed.

Lemma in_order_step c l0 w w' : canary_enabled c = true -> orderly c w w' -> in_order c l0 w -> in_order c l0 w'.
Proof.
  intros Hen [e Hs|Hs|t Hs Hcur|st r] Ho.
  - destruct (pc w) eqn:Hpc; try (eapply in_order_calm, Ho; apply calm_main; by rewrite Hpc); unfold main; rewrite Hpc; apply in_order_goto.
    + destruct (Z.ltb_spec (reload_cursor w) (Z.of_nat (workers c))); [|done].
      destruct (o_log _ _ _ Ho) as (l & L & G & [W|]); [|lia]. apply (in_order_roll c l0 w l); try done.
      destruct (canary_active w) eqn:Ea; [|done]. pose proof (o_active _ _ _ Ho Ea). lia.
    + by apply in_order_canary.
  - eapply in_order_calm, Ho. apply calm_noted; [done|]. etrans; [|apply calm_kill_all]. by apply calm_same.
  - unfold begin_reload. rewrite Hen. cbv zeta. set (w1 := set_quarantined _ _). destruct (o_log _ _ _ Ho) as (l & L & G & W).
    assert (in_order c l0 w1) as H1.
    { split; [|done]. exists (EReload t :: l). cbn. rewrite L. split; [done|]. split; [done|by right]. }
    destruct (0 <? _); [|done]. eapply in_order_calm, H1. by apply calm_noted, calm_kill.
  - eapply in_order_calm, Ho. by apply calm_same.
Qed.

(** C4.  With the canary on, and no reload asked for while another is rolling, no worker is ever
    rolled unless the last thing said of a deploy is that its canary passed: a deploy that has
    not been judged, or was judged unhealthy, reaches slot 0 and no other. *)
Theorem canary_gates_roll c w w' :
  canary_enabled c = true -> canary_active w = false -> Z.of_nat (workers c) <= reload_cursor w -> rtc (orderly c) w w' ->
  exists l, log w' = l ++ log w /\ forall l1 i pid l2, l = l1 ++ ERoll i pid :: l2 -> last_word l2 = Some true.
Proof.
  intros Hen Ha Hc Hr. assert (in_order c (log w) w') as [(l & L & G & _) _].
  { assert (in_order c (log w) w) as H0. { split; [|by rewrite Ha]. exists []. split; [done|]. split; [done|by right]. }
    revert H0. generalize (log w) as l0. clear Ha Hc. intros l0. induction Hr as [|w1 w2 w3 H12 _ IH]; [done|]. intros H1.
    by eapply IH, in_order_step. }
  exists l. split; [done|]. intros l1 i pid l2 ->. by eapply gated_split.
Qed.

(** ** How many drain at once *)

Definition leaving (kp : Z * Proc) : Prop := told kp.2 = true.
#[global] Instance leaving_dec kp : Decision (leaving kp).
Proof. unfold leaving. apply _. Defined.
(** The processes that have been told to go and are still there. *)
Definition draining (w : World) : nat := size (filter leaving (procs w)).
(** A worker is on its way to replace one that has gone, and the next will then be rolled. *)
Definition pending (w : World) : nat := match pc w with Fork _ AReap | Record_ _ _ AReap | Roll => 1 | _ => 0 end.
(** What gives a reason for one more to go. *)
Definition is_cause (e : Event) : bool :=
  match e with EReload _ | EVerdict _ | ERss _ | EScale _ | EOther _ => true | _ => false end.
Definition causes (l : list Event) : nat := length (List.filter is_cause l).

Lemma draining_kill w pid : (draining (kill w pid) <= S (draining w))%nat.
Proof.
  unfold draining, kill. destruct (procs w !! pid) as [p|]; [|lia]. cbn [procs set_procs].
  rewrite map_filter_insert_True by done. rewrite map_size_insert. destruct (filter _ _ !! pid); unfold id; lia.
Qed.
Lemma draining_insert w pid p : procs w !! pid = None -> told p = false -> size (filter leaving (<[pid := p]> (procs w))) = draining w.
Proof.
  intros Hn Ht. unfold draining. rewrite map_filter_insert_False by (unfold leaving; cbn; congruence).
  by rewrite delete_id.
Qed.
Lemma draining_delete w pid p :
  procs w !! pid = Some p ->
  (size (filter leaving (delete pid (procs w))) + (if told p then 1 else 0) <= draining w)%nat.
Proof.
  intros Hp. unfold draining. rewrite map_filter_delete, map_size_delete.
  destruct (told p) eqn:Et.
  - assert (filter leaving (procs w) !! pid = Some p) as E by (by apply map_lookup_filter_Some). rewrite E.
    assert (size (filter leaving (procs w)) <> 0)%nat; [|lia]. intros E0%map_size_empty_inv. by rewrite E0 in E.
  - assert (filter leaving (procs w) !! pid = None) as ->.
    { apply map_lookup_filter_None. right. intros q Hq. rewrite Hp in Hq. injection Hq as <-. unfold leaving. cbn. congruence. }
    unfold id. lia.
Qed.

(** Every worker that drains has its cause. *)
Definition accounted (w : World) : Prop := (ETerm ∈ log w) \/ (draining w + pending w <= causes (log w))%nat.

Lemma draining_roll n w fuel :
  (draining (roll_loop n w fuel) <= S (draining w))%nat /\ causes (log (roll_loop n w fuel)) = causes (log w)
  /\ ((ETerm ∈ log w) -> (ETerm ∈ log (roll_loop n w fuel))).
Proof.
  revert w. induction fuel as [|fuel IH]; intros w; cbn [roll_loop]; [split; [lia|done]|]. cbv zeta.
  set (w1 := set_cursor _ _). destruct (_ <=? _); [split; [unfold draining; cbn; lia|done]|]. destruct (0 <? _); [|apply (IH w1)].
  set (pid := child w1 _). pose proof (draining_kill w1 pid). split; [exact H|].
  assert (log (kill w1 pid) = log w) as El by (unfold kill; by destruct (procs w1 !! pid)). cbn [log note]. rewrite El.
  split; [done|]. intros ?. by right.
Qed.

(** One more may go for a cause that has just been noted. *)
Lemma accounted_kill w pid e : is_cause e = true -> accounted w -> accounted (note (kill w pid) e).
Proof.
  intros He Ha. pose proof (draining_kill w pid) as Hd. unfold accounted in *.
  assert (log (kill w pid) = log w) as El by (unfold kill; by destruct (procs w !! pid)).
  assert (pc (kill w pid) = pc w) as Ep by (unfold kill; by destruct (procs w !! pid)).
  cbn [log note]. rewrite El. destruct Ha as [?|Ha]; [left; by right|]. right.
  unfold causes, pending, draining in *. cbn [pc note procs List.filter]. rewrite He, Ep. cbn [length]. lia.
Qed.
(** Or for one noted before, which paid for nothing yet. *)
Lemma accounted_paid w pid e :
  is_cause e = false -> (ETerm ∈ log w) \/ (S (draining w) + pending w <= causes (log w))%nat -> accounted (note (kill w pid) e).
Proof.
  intros He Ha. pose proof (draining_kill w pid) as Hd. unfold accounted in *.
  assert (log (kill w pid) = log w) as El by (unfold kill; by destruct (procs w !! pid)).
  assert (pc (kill w pid) = pc w) as Ep by (unfold kill; by destruct (procs w !! pid)).
  cbn [log note]. rewrite El. destruct Ha as [?|Ha]; [left; by right|]. right.
  unfold causes, pending, draining in *. cbn [pc note procs List.filter]. rewrite He, Ep. lia.
Qed.
Lemma accounted_same w w' : procs w' = procs w -> (pending w' <= pending w)%nat -> log w' = log w -> accounted w -> accounted w'.
Proof. unfold accounted, draining. intros -> Hp ->. intros [?|?]; [by left|right; lia]. Qed.

Lemma accounted_reload c t w : accounted w -> accounted (begin_reload c t w).
Proof.
  intros Ha. assert ((ETerm ∈ log (note w (EReload t))) \/ (S (draining w) + pending w <= causes (log (note w (EReload t))))%nat) as H1.
  { destruct Ha as [?|?]; [left; by right|]. right. unfold causes in *. cbn. lia. }
  unfold begin_reload. cbv zeta. destruct (canary_enabled c).
  - set (w1 := set_quarantined _ _). destruct (0 <? _); [by apply (accounted_paid w1)|].
    destruct H1 as [?|?]; [by left|]. right. unfold draining, pending in *. cbn in *. lia.
  - set (w1 := set_cursor _ _). destruct (draining_roll (workers c) w1 (S (workers c))) as (H2 & H3 & H4).
    unfold accounted, roll_next. destruct H1 as [?|H1]; [left; by apply H4|]. right. rewrite H3.
    assert (pending (roll_loop (workers c) w1 (S (workers c))) = pending w) as ->.
    { unfold pending. by rewrite (t_pc _ _ _ (tells_roll (fun _ => True) (workers c) w1 (S (workers c)) ltac:(done))). }
    unfold draining in *. cbn [procs log w1 set_cursor note] in *. lia.
Qed.

Lemma accounted_canary c w t : accounted w -> accounted (canary c w t).
Proof.
  intros Ha. unfold canary. cbv zeta. destruct (_ && _ && _); [|done]. unfold act_on.
  assert (forall b, (ETerm ∈ log (note w (EVerdict b))) \/ (S (draining w) + pending w <= causes (log (note w (EVerdict b))))%nat) as H1.
  { intros b. destruct Ha as [?|?]; [left; by right|]. right. unfold causes in *. cbn. lia. }
  assert (forall w1, procs w1 = procs w -> pc w1 = pc w -> log w1 = log (note w (EVerdict true)) -> accounted (roll_next c w1)) as Hroll.
  { intros w1 Ep Ec El. destruct (draining_roll (workers c) w1 (S (workers c))) as (H2 & H3 & H4).
    unfold accounted, roll_next. destruct (H1 true) as [?|H]; [left; apply H4; by rewrite El|]. right. rewrite H3, El.
    assert (pending (roll_loop (workers c) w1 (S (workers c))) = pending w) as ->.
    { unfold pending. by rewrite (t_pc _ _ _ (tells_roll (fun _ => True) (workers c) w1 (S (workers c)) ltac:(done))), Ec. }
    unfold draining in *. rewrite Ep in H2. lia. }
  destruct (verdict _ _ _) as [r p|r n|why]; [by apply Hroll..|]. cbv zeta. set (w1 := set_canary _ _ _ _).
  destruct (_ && _); [apply (accounted_paid (set_quarantined w1 (<[0%nat := true]> (quarantined w1)))); [done|exact (H1 false)]|].
  destruct (H1 false) as [?|?]; [by left|]. right. unfold draining, pending in *. cbn in *. lia.
Qed.

Lemma accounted_recycle c w rss : accounted w -> accounted (recycle_over_rss c w rss).
Proof.
  unfold recycle_over_rss. destruct (_ =? _); [done|]. generalize (seq 0 (Nat.min (web c + queue_max c) MAX_WORKERS)) as l.
  intros l. revert w. induction l as [|i l IH]; intros w Ha; [done|]. cbn [foldl]. apply IH. unfold recycle_one.
  destruct (_ <=? _); [done|]. destruct (_ =? _); [done|]. destruct (rss _); [|done]. destruct (_ <=? _); [|done].
  apply accounted_kill; [done|]. by eapply accounted_same, Ha.
Qed.

Lemma accounted_goto w p : (pending (goto w p) <= pending w)%nat -> accounted w -> accounted (goto w p).
Proof. intros Hp. by apply accounted_same. Qed.

Lemma accounted_guard c w t i st :
  pc w = Reap -> (ETerm ∈ log w) \/ (draining w + 1 <= causes (log w))%nat -> accounted (guard_boot c w t i st).
Proof.
  intros Hpc Ha. assert (forall e n u, is_cause e = false -> accounted (respawn c (set_fastfail (note w e) n u) i)) as Hr.
  { intros e n u He. unfold respawn, accounted, draining, pending, causes in *. destruct (default _ _); cbn [log pc procs goto note set_fastfail count_respawn List.filter is_cause].
    - rewrite He. destruct Ha as [?|?]; [left; by right|right; lia].
    - rewrite He. destruct Ha as [?|?]; [left; right; by right|right; lia]. }
  unfold guard_boot. cbv zeta. destruct (_ && _); [|by apply Hr]. destruct (_ <? _); [by apply Hr|].
  destruct (_ <=? _); [|by apply Hr]. left. by left.
Qed.

Lemma accounted_reap c w e : pc w = Reap -> accounted w -> accounted (reap c w e).
Proof.
  intros Hpc Ha. unfold reap. destruct (waitpid w e) as [[pid st]|] eqn:Ew.
  2:{ apply accounted_goto; [|done]. unfold pending. cbn. destruct (shutdown w); lia. }
  apply waitpid_live in Ew as [p Hp]. cbv zeta. set (w1 := other_exit w pid).
  assert (procs w1 = procs w /\ pc w1 = Reap) as [Ep Epc] by (unfold w1, other_exit; rewrite Hp; by destruct (told p)).
  assert ((ETerm ∈ log w1) \/ (size (filter leaving (delete pid (procs w1))) + 1 <= causes (log w1))%nat) as H1.
  { pose proof (draining_delete w pid p Hp) as Hd. rewrite Ep. unfold accounted, pending in Ha. rewrite Hpc in Ha.
    unfold w1, other_exit. rewrite Hp. destruct (told p) eqn:Et.
    - destruct Ha as [?|?]; [by left|right; lia].
    - destruct Ha as [?|?]; [left; by right|right]. unfold causes in *. cbn. lia. }
  clearbody w1.
  assert (forall ch sp, accounted (set_slots (set_procs w1 (delete pid (procs w1))) ch sp)) as Hq.
  { intros ch sp. unfold accounted, draining, pending. cbn [log procs pc set_slots set_procs]. rewrite Epc. destruct H1 as [?|?]; [by left|right]. lia. }
  destruct (slot_of _ _ _) as [i|]; [|by apply (Hq (children w1) (spawn_at w1))].
  destruct (shutdown _); [apply Hq|]. destruct (_ && _); [apply Hq|]. by apply accounted_guard.
Qed.

Lemma accounted_fork w e i k : pc w = Fork i k -> accounted w -> accounted (do_fork w e i k).
Proof.
  intros Hpc Ha. unfold do_fork. cbv zeta. set (w1 := set_shared _ _ _).
  destruct (fork w1 e) as [pid|] eqn:Ef.
  - unfold fork in Ef. destruct (forked e) as [q|]; [|done]. destruct (_ && _) eqn:Ep; [|done]. injection Ef as ->.
    apply andb_true_iff in Ep as [_ Hn%negb_true_iff%bool_decide_eq_false]. rewrite <- eq_None_not_Some in Hn. cbn in Hn.
    unfold accounted, draining, pending, causes in *. rewrite Hpc in Ha. cbn [log pc procs goto note set_procs w1 set_shared].
    rewrite draining_insert by done. cbn. destruct Ha as [?|?]; [left; by right|right]. destruct k; unfold draining; lia.
  - apply accounted_goto; [|by eapply accounted_same, Ha]. unfold pending. cbn. rewrite Hpc. by destruct k.
Qed.

Lemma accounted_main c w e : accounted w -> accounted (main c w e).
Proof.
  intros Ha. unfold main. destruct (pc w) as [|i k|i pid k| |i| | | |j want| |code|] eqn:Hpc; try done.
  - by apply accounted_reap.
  - by apply accounted_fork.
  - unfold record. destruct (_ <? _)%nat; [|apply accounted_goto; [unfold pending; cbn; lia|done]].
    apply (accounted_same w); try done. unfold pending, after_fork. cbn. rewrite Hpc. by destruct k.
  - destruct (_ <? _); [|apply accounted_goto; [unfold pending; cbn; lia|done]].
    destruct (draining_roll (workers c) w (S (workers c))) as (H2 & H3 & H4). unfold accounted, pending in *. rewrite Hpc in Ha.
    destruct Ha as [?|?]; [left; by apply H4|right]. unfold roll_next, draining in *. cbn [log pc procs goto]. rewrite H3. lia.
  - unfold refill. destruct (_ <? _)%nat; [|apply accounted_goto; [unfold pending; cbn; lia|done]].
    destruct (_ && _); (apply accounted_goto; [unfold pending; cbn; lia|done]).
  - apply accounted_goto; [unfold pending; cbn; lia|]. by apply accounted_canary.
  - apply accounted_goto; [unfold pending; cbn; lia|]. destruct (_ && _); [by apply accounted_recycle|done].
  - unfold autoscale. assert (forall p, (pending (goto w p) <= 0)%nat -> accounted (goto w p)) as Hg.
    { intros p Hp. apply accounted_goto; [lia|done]. }
    destruct (_ && _ && _); [|apply Hg; unfold pending; cbn; lia]. cbv zeta.
    destruct (_ <? _)%nat; [apply Hg; unfold pending; cbn; lia|]. destruct (_ <? _)%nat; [|apply Hg; unfold pending; cbn; lia].
    set (w1 := set_desired _ _). assert (accounted w1) as H1 by (by eapply accounted_same, Ha).
    destruct (_ <? _)%nat; [|apply accounted_goto; [unfold pending; cbn; lia|done]]. apply accounted_goto; [unfold pending; cbn; lia|].
    destruct (0 <? _); [|done]. by apply accounted_kill.
  - destruct (_ <? _)%nat; [|apply (accounted_same w); try done; unfold pending; cbn; lia].
    apply accounted_goto; [unfold pending; cbn; lia|done].
  - unfold check. destruct (_ && _); (apply accounted_goto; [unfold pending; cbn; lia|done]).
Qed.

Lemma accounted_step c w w' : step c w w' -> accounted w -> accounted w'.
Proof.
  intros [e _|_|t _|st r] Ha.
  - by apply accounted_main.
  - left. by left.
  - by apply accounted_reload.
  - by eapply accounted_same, Ha.
Qed.

(** Workers go one at a time: at any moment before a shutdown, no more are draining than
    there have been reasons -- reloads asked for, verdicts, recycles for memory, scale-downs, and
    workers that went of themselves.  A rolling reload of any fleet is one reason, so with no
    other it never has two workers draining at once. *)
Theorem drains_bounded c pids t st r w :
  good_pids pids -> rtc (step c) (boot c pids t st r) w -> (ETerm ∉ log w) -> (draining w <= causes (log w))%nat.
Proof.
  intros [Hinj _] Hr Hn. assert (accounted (boot c pids t st r)) as H0.
  { right. unfold draining, pending. cbn [boot procs pc log]. assert (filter leaving (boot_procs c pids) = ∅) as ->; [|done].
    apply map_empty. intros pid. apply map_lookup_filter_None. right. intros p Hp. apply boot_proc in Hp as (i & _ & _ & _ & ->); [|done]. done. }
  assert (accounted w) as [?|?]; [|done|lia]. clear Hn. induction Hr as [|w1 w2 w3 H12 _ IH]; [done|].
  by eapply IH, accounted_step.
Qed.
