(* ===== verification/SupervisorGaps.v ===== *)
(** The supervisor on concrete fleets: that its promises are about something, and the runs in
    which it does not do what its comments say. *)

From stdpp Require Import gmap.
From S2P Require Import Prelude Supervisor SupervisorSpec SupervisorReload.

(** ** Runs *)

Lemma main_stopped c w e : stopped w = true -> main c w e = w.
Proof. unfold stopped, main. by destruct (pc w). Qed.
Lemma run_steps c w es : rtc (step c) w (run c w es).
Proof.
  revert w. induction es as [|e es IH]; intros w; [done|]. cbn [run]. destruct (stopped w) eqn:E.
  - rewrite main_stopped by done. apply IH.
  - eapply rtc_l; [by apply step_main|apply IH].
Qed.
Lemma run_orderly c w es : rtc (orderly c) w (run c w es).
Proof.
  revert w. induction es as [|e es IH]; intros w; [done|]. cbn [run]. destruct (stopped w) eqn:E.
  - rewrite main_stopped by done. apply IH.
  - eapply rtc_l; [by apply orderly_main|apply IH].
Qed.

Module Fleet.
(** [n] web workers and nothing else; the canary as said. *)
Definition conf (n : nat) (gate : bool) : Conf := mkConf n 0 0 0 0 0 false gate 5 20 200 300 false 60.
Definition pids (i : nat) : Z := 100 + Z.of_nat i.
Definition start (c : Conf) (st : option (list WorkerStat)) : World := boot c pids 1000 st None.
(** What a step is given: nothing, an exit, a fork, a queue to look at. *)
Definition idle (t : Z) : Env := mkEnv t None None (fun _ => None) false false 0.
Definition exits (t pid : Z) (st : Status) : Env := mkEnv t (Some (pid, st)) None (fun _ => None) false false 0.
Definition forks (t pid : Z) : Env := mkEnv t None (Some pid) (fun _ => None) false false 0.
Definition queue (t n : Z) : Env := mkEnv t None None (fun _ => None) false true n.
(** A worker goes and is replaced. *)
Definition turnover (t pid pid' : Z) (st : Status) : list Env := [exits t pid st; forks t pid'; idle t; idle t].
End Fleet.
Import Fleet.

Lemma pids_good : good_pids pids.
Proof. split; [intros i j|intros i]; unfold pids; lia. Qed.

(** A rolling reload of two workers: the second is told to go once the first is back. *)
Definition rolling : World := run (conf 2 false) (begin_reload (conf 2 false) 1000 (start (conf 2 false) None)) (turnover 1001 100 200 (ExitCode 0)).

Lemma drains_bounded_witness : log rolling = [ERoll 1 101; EFork 200; ERespawn 0; EHealthy; ERoll 0 100; EReload 1000] /\ (draining rolling <= 1)%nat.
Proof.
  split; [vm_compute; reflexivity|].
  apply (drains_bounded (conf 2 false) pids 1000 None None rolling pids_good).
  - eapply rtc_l; [apply (step_reload (conf 2 false) _ 1000); reflexivity|apply run_steps].
  - assert (log rolling = [ERoll 1 101; EFork 200; ERespawn 0; EHealthy; ERoll 0 100; EReload 1000]) as -> by (vm_compute; reflexivity).
    repeat (apply not_elem_of_cons; split; [discriminate|]). apply not_elem_of_nil.
Defined.

(** A kernel that reports whoever is there. *)
Definition reaper (w : World) : Env :=
  match map_to_list (procs w) with (pid, _) :: _ => exits 2000 pid (ExitCode 0) | [] => idle 2000 end.
Lemma reaper_answers : answers reaper.
Proof.
  intros w _ Hne. unfold reaper. destruct (map_to_list (procs w)) as [|[pid p] l] eqn:E.
  - exfalso. by apply Hne, map_to_list_empty_iff.
  - exists pid, (ExitCode 0). split; [done|]. exists p. apply elem_of_map_to_list. rewrite E. by left.
Qed.
Lemma shutdown_ends_witness :
  exists n, (n <= 12)%nat /\ pc (drive (conf 2 false) reaper n (on_terminate (start (conf 2 false) None))) = Exited 0.
Proof.
  refine (proj2 (proj2 (shutdown_ends (conf 2 false) pids 1000 None None (start (conf 2 false) None) reaper pids_good _ _ _ _)) reaper_answers).
  - intros [H _]. cbn in H. lia.
  - reflexivity.
  - exact I.
  - reflexivity.
Defined.

(** Nine boot failures at the end of one window, then ten in the next. *)
Definition crashing (t : Z) (n : nat) : list Env :=
  concat (map (fun i => turnover (t + Z.of_nat i) (200 + Z.of_nat i) (201 + Z.of_nat i) (ExitCode 1)) (seq 0 n)).
Definition crash_start : World :=
  set_fastfail (run (conf 1 false) (start (conf 1 false) None) (turnover 1009 100 200 (ExitCode 0))) 0 987.
Definition crashed : World := run (conf 1 false) crash_start (crashing 1009 19).
Lemma no_healthy l : existsb (fun e => match e with EHealthy => true | _ => false end) l = false -> EHealthy ∉ l.
Proof.
  induction l as [|e l IH]; [by intros _ ?%elem_of_nil|]. cbn. intros H [<-|Hin]%elem_of_cons; [done|].
  apply orb_false_iff in H as [_ H]. by apply IH.
Qed.
Lemma crash_loop_ends_witness : pc crashed = Exited 1 /\ length (boots (log crashed)) = 19%nat.
Proof.
  split; [|vm_compute; reflexivity].
  apply (crash_loop_ends (conf 1 false) crash_start crashed
    (firstn (length (log crashed) - length (log crash_start)) (log crashed)) 1009).
  - apply run_steps.
  - vm_compute. split; [discriminate|reflexivity].
  - vm_compute. reflexivity.
  - apply no_healthy. vm_compute. reflexivity.
  - vm_compute. repeat constructor; discriminate.
  - vm_compute. discriminate.
Defined.

(** A quiet canary: slot 0 is replaced, the window passes without traffic, and slot 1 follows. *)
Definition waits (t : Z) (n : nat) : list Env := replicate n (idle t).
Definition canaried : World :=
  run (conf 2 true) (begin_reload (conf 2 true) 1000 (start (conf 2 true) None)) (turnover 1001 100 200 (ExitCode 0) ++ waits 1006 5).
Lemma canary_gates_roll_witness :
  log canaried = [ERoll 1 101; EVerdict true; EFork 200; ERespawn 0; EHealthy; ECanary 100; EReload 1000]
  /\ exists l, log canaried = l ++ log (start (conf 2 true) None)
     /\ forall l1 i pid l2, l = l1 ++ ERoll i pid :: l2 -> last_word l2 = Some true.
Proof.
  split; [vm_compute; reflexivity|].
  apply (canary_gates_roll (conf 2 true)); [reflexivity|reflexivity|vm_compute; discriminate|].
  eapply rtc_l; [apply (orderly_reload (conf 2 true) _ 1000); [reflexivity|vm_compute; discriminate]|apply run_orderly].
Defined.

(** ** The verdict, on the numbers of the source's own tests *)

Definition seen (l : list WorkerStat) (web : nat) (min_req : Z) : Verdict :=
  let c := mkConf web 0 0 0 0 0 false true 5 min_req 200 300 false 60 in
  canary_verdict c (start c (Some l)) true.
Definition served (n e us : Z) : WorkerStat := mkStat n e (n * us).
Definition healthy (v : Verdict) : bool := match v with Healthy _ _ => true | _ => false end.

Example quiet_is_inconclusive : seen [served 3 0 1000] 2 20 = Inconclusive 3 20.
Proof. vm_compute. reflexivity. Qed.
Example clean_is_healthy : healthy (seen [served 50 0 1000; served 50 0 1000] 2 10) = true.
Proof. vm_compute. reflexivity. Qed.
Example fleet_errors_not_blamed : healthy (seen [served 100 0 1000; served 100 30 1000; served 100 30 1000] 3 10) = true.
Proof. vm_compute. reflexivity. Qed.
Example failing_is_unhealthy : seen [served 100 60 1000; served 100 0 1000] 2 10 = Unhealthy ErrorRate.
Proof. vm_compute. reflexivity. Qed.
Example matching_is_tolerated : healthy (seen [served 100 5 1000; served 100 5 1000] 2 10) = true.
Proof. vm_compute. reflexivity. Qed.
Example slow_is_unhealthy : seen [served 50 0 40000; served 50 0 5000] 2 10 = Unhealthy Latency.
Proof. vm_compute. reflexivity. Qed.
Example idle_fleet_no_baseline : healthy (seen [served 50 0 40000; served 0 0 0] 2 10) = true.
Proof. vm_compute. reflexivity. Qed.

(** ** Where it does not do what it says *)

(** Whose process is in no slot, and who has not been told to go. *)
Definition untold (w : World) : list Z :=
  omap (fun '(pid, p) => if told p then None else Some pid) (map_to_list (procs w)).
Definition lost (w : World) : list Z :=
  omap (fun '(pid, _) => if bool_decide (pid ∈ children w) then None else Some pid) (map_to_list (procs w)).

(** One web worker and queue workers between [lo] and [hi]. *)
Definition queues (lo hi : nat) (sched : nat) : Conf := mkConf 1 lo hi sched 0 0 true false 5 20 200 300 false 60.

(** From the reaping to the autoscaler, which sees [n] jobs ready; [more]: what comes after. *)
Definition look (t n : Z) (more : list Env) : list Env := waits t 5 ++ [queue t n] ++ more.
Definition look_down (t n : Z) (more : list Env) : list Env := waits t 3 ++ [queue t n] ++ more.

(** The autoscaler does not look at [SHUTDOWN]: with a backlog it forks a queue worker while the
    fleet is draining, whom nobody tells to go, and the master waits for it for ever. *)
Definition scaled_in_shutdown : World :=
  let c := queues 1 2 0 in
  run c (on_terminate (start c None))
    (look_down 1001 100 [idle 1001; forks 1001 300; idle 1001; idle 1001; idle 1001;
                         exits 1002 100 (ExitCode 0); exits 1002 101 (ExitCode 0)]).
Lemma autoscaler_forks_in_shutdown :
  shutdown scaled_in_shutdown = true /\ untold scaled_in_shutdown = [300] /\ size (procs scaled_in_shutdown) = 1%nat.
Proof. vm_compute. done. Qed.

(** SIGTERM between the test of [SHUTDOWN] and the fork that follows it: the same. *)
Definition signalled_at_fork : World :=
  let c := conf 1 false in
  run c (on_terminate (run c (start c None) [exits 1001 100 (ExitCode 0)])) [forks 1001 300; idle 1001; idle 1001].
Lemma terminate_misses_a_fork :
  shutdown signalled_at_fork = true /\ untold signalled_at_fork = [300] /\ pc signalled_at_fork = Reap.
Proof. vm_compute. done. Qed.

(** Scaled down, then up again while the worker let go is still at its last job: the new one takes
    its slot, and there are more queue workers than [queue_max], one of them in no slot. *)
Definition scaled_over : World :=
  let c := queues 0 1 0 in
  run c (run c (run c (start c None) (look 1001 5 [idle 1001; forks 1001 300; idle 1001; idle 1001; idle 1001]))
           (look 1003 0 [idle 1003]))
        (look 1005 5 [idle 1005; forks 1005 301; idle 1005; idle 1005; idle 1005]).
Lemma scale_up_loses_a_worker : lost scaled_over = [300] /\ size (procs scaled_over) = 3%nat /\ queue_desired scaled_over = 1%nat.
Proof. vm_compute. done. Qed.

(** A queue worker that is being rolled when it is scaled out goes without a successor, and
    without the next one being told: the reload stops there, the scheduler still on old code. *)
Definition stalled : World :=
  let c := queues 1 2 1 in
  let w := run c (start c None) (look 1001 20 [idle 1001; forks 1001 300; idle 1001; idle 1001; idle 1001]) in
  let w := run c (begin_reload c 1002 w) (turnover 1003 100 200 (ExitCode 0) ++ turnover 1004 101 201 (ExitCode 0)) in
  run c w (look 1005 0 [idle 1005; exits 1006 300 (ExitCode 0)] ++ waits 1007 40).
Lemma scale_down_stalls_reload :
  reload_cursor stalled = 3 /\ workers (queues 1 2 1) = 4%nat /\ draining stalled = 0%nat /\ child stalled 3 = 103 /\ existsb (Z.eqb 103) (untold stalled) = true.
Proof. vm_compute. done. Qed.

(** A canary that drains for longer than its window is judged by its predecessor's numbers: the
    fleet is rolled, and nothing has been forked since the reload. *)
Definition judged_early : World :=
  let c := conf 2 true in
  run c (begin_reload c 1000 (start c (Some [served 50 0 1000; served 50 0 1000]))) (waits 1006 5).
Lemma canary_judges_old_worker :
  log judged_early = [ERoll 1 101; EVerdict true; ECanary 100; EReload 1000] /\ rollout judged_early = 2 /\ child judged_early 0 = 100.
Proof. vm_compute. done. Qed.

(** A second deploy while the first is rolling: its canary's return rolls the next worker at
    once, before the canary has served anything. *)
Definition overtaken : World :=
  let c := conf 3 true in
  let w := run c (begin_reload c 1000 (start c None)) (turnover 1001 100 200 (ExitCode 0) ++ waits 1006 9) in
  run c (begin_reload c 1007 w) (turnover 1008 200 201 (ExitCode 0)).
Lemma second_reload_skips_canary :
  exists l, log overtaken = ERoll 2 102 :: l /\ last_word l = Some false /\ canary_active overtaken = true.
Proof. eexists. split; [vm_compute; reflexivity|]. vm_compute. done. Qed.

(** And without a canary: both of two workers are draining. *)
Definition twice : World :=
  let c := conf 2 false in begin_reload c 1002 (run c (begin_reload c 1000 (start c None)) (turnover 1001 100 200 (ExitCode 0))).
Lemma two_reloads_leave_nobody : draining twice = 2%nat /\ untold twice = [].
Proof. vm_compute. done. Qed.

(** A scheduler whose fork fails once is not forked again: only web slots are refilled. *)
Definition orphaned : World :=
  let c := mkConf 1 0 0 1 0 0 false false 5 20 200 300 false 60 in
  run c (start c None) ([exits 1001 101 (ExitCode 1); idle 1001; idle 1001] ++ replicate 35 (forks 1002 500)).
Lemma failed_fork_not_retried : child orphaned 1 = 0 /\ shutdown orphaned = false /\ size (procs orphaned) = 1%nat /\ pc orphaned = Reap.
Proof. vm_compute. done. Qed.

(** Web and queue workers together past the size of the array: the autoscaler's fork indexes
    past its end, and the master panics. *)
Definition overfull : World :=
  let c := mkConf 511 1 3 0 0 0 true false 5 20 200 300 false 60 in
  run c (start c None) (waits 1001 515 ++ [queue 1001 20; idle 1001; forks 1001 5000; idle 1001]).
Lemma autoscaler_leaves_the_array : pc overfull = Panicked.
Proof. vm_compute. reflexivity. Qed.
