(* ===== verification/Cow.v ===== *)
(** The copy-on-write template ([cow_ready_trampoline] of [supervisor.rs]): a booted process that
    forks warm workers into slots, reaps them, and sizes the fleet to what is in flight.

    As in [Supervisor], each step makes at most one fork, and a signal may come between any two.
    In the template every signal it catches is a shutdown. *)

From stdpp Require Import gmap.
From S2P Require Import Prelude Supervisor.

Record CowConf := mkCow { cmin : nat; cmax : nat }.
Inductive CowPc := CFill (i d : nat) | CFork (i d : nat) | CRecord (i : nat) (pid : Z) (d : nat) | CReap | CScale | CCheck | CExited.
Record Template := mkTemplate {
  slots : list Z; desired : nat; down : bool; respawns : Z; tick : Z; idle_ticks : Z;
  fleet : gmap Z Proc; at_ : CowPc }.
Record CowEnv := mkCowEnv { c_exited : option Z; c_forked : option Z; busy : Z }.

Definition cow_goto (w : Template) (p : CowPc) : Template :=
  mkTemplate (slots w) (desired w) (down w) (respawns w) (tick w) (idle_ticks w) (fleet w) p.
Definition cow_size (w : Template) (d : nat) (idle : Z) : Template :=
  mkTemplate (slots w) d (down w) (respawns w) (tick w) idle (fleet w) (at_ w).
Definition cow_procs (w : Template) (s : list Z) (f : gmap Z Proc) : Template :=
  mkTemplate s (desired w) (down w) (respawns w) (tick w) (idle_ticks w) f (at_ w).

Definition cow_kill (w : Template) (pid : Z) : Template :=
  match fleet w !! pid with
  | Some p => if 0 <? pid then cow_procs w (slots w) (<[pid := mkProc (slot p) true]> (fleet w)) else w
  | None => w
  end.
(** [on_terminate]. *)
Definition cow_terminate (w : Template) : Template :=
  foldl cow_kill (mkTemplate (slots w) (desired w) true (respawns w) (tick w) (idle_ticks w) (fleet w) (at_ w)) (slots w).

Definition cow_slot (w : Template) (i : nat) : Z := default 0 (slots w !! i).

(** The slots below [d], what [desired] was when the turn began. *)
Definition cow_fill (w : Template) (i d : nat) : Template :=
  if (i <? d)%nat then
    (if negb (down w) && (cow_slot w i =? 0) then cow_goto w (CFork i d) else cow_goto w (CFill (S i) d))
  else cow_goto w CReap.
Definition cow_fork (w : Template) (e : CowEnv) (i d : nat) : Template :=
  match c_forked e with
  | Some pid => if (0 <? pid) && negb (bool_decide (is_Some (fleet w !! pid)))
                then cow_goto (cow_procs w (slots w) (<[pid := mkProc i false]> (fleet w))) (CRecord i pid d)
                else cow_goto w (CFill (S i) d)
  | None => cow_goto w (CFill (S i) d)
  end.

Definition cow_reap (c : CowConf) (w : Template) (e : CowEnv) : Template :=
  match c_exited e with
  | Some pid =>
      if bool_decide (is_Some (fleet w !! pid)) then
        let f := delete pid (fleet w) in
        match fst <$> list_find (fun p => p = pid) (take (cmax c) (slots w)) with
        | Some i => mkTemplate (<[i := 0]> (slots w)) (desired w) (down w)
                      (if down w then respawns w else wrap64 (respawns w + 1)) (tick w) (idle_ticks w) f (at_ w)
        | None => cow_procs w (slots w) f
        end
      else cow_goto w CScale
  | None => cow_goto w CScale
  end.

Definition cow_autoscale (c : CowConf) (w : Template) (e : CowEnv) : Template :=
  let t := (tick w + 1) mod 2 ^ 32 in
  let w := mkTemplate (slots w) (desired w) (down w) (respawns w) t (idle_ticks w) (fleet w) CCheck in
  if (cmin c <? cmax c)%nat && negb (down w) && (t mod 20 =? 0) then
    let alive := Z.of_nat (length (List.filter (fun p => 0 <? p) (take (cmax c) (slots w)))) in
    let d := desired w in
    if (alive <=? busy e) && (d <? cmax c)%nat then cow_size w (S d) 0
    else if (cmin c <? d)%nat && (busy e + 1 <? Z.of_nat d) then
      (if 4 <=? idle_ticks w + 1
       then let w := cow_size w (d - 1) 0 in cow_kill w (cow_slot w (d - 1))
       else cow_size w d (idle_ticks w + 1))
    else cow_size w d 0
  else w.

Definition cow_check (c : CowConf) (w : Template) : Template :=
  if down w && forallb (fun p => p =? 0) (take (cmax c) (slots w)) then cow_goto w CExited
  else cow_goto w (CFill 0 (desired w)).

Definition cow_main (c : CowConf) (w : Template) (e : CowEnv) : Template :=
  match at_ w with
  | CFill i d => cow_fill w i d
  | CFork i d => cow_fork w e i d
  | CRecord i pid d => cow_goto (cow_procs w (<[i := pid]> (slots w)) (fleet w)) (CFill (S i) d)
  | CReap => cow_reap c w e
  | CScale => cow_autoscale c w e
  | CCheck => cow_check c w
  | CExited => w
  end.

Inductive cow_step (c : CowConf) (w : Template) : Template -> Prop :=
| cow_step_main e : at_ w <> CExited -> cow_step c w (cow_main c w e)
| cow_step_terminate : at_ w <> CExited -> cow_step c w (cow_terminate w).

Definition cow_boot (c : CowConf) : Template :=
  mkTemplate (replicate MAX_WORKERS 0) (cmin c) false 0 0 0 ∅ (CFill 0 (cmin c)).

(** ** The fleet and its slots *)

(** Where a process is: in its slot, or forked and about to be written there. *)
Definition in_slot (w : Template) (pid : Z) (p : Proc) : Prop :=
  slots w !! slot p = Some pid \/ exists d, at_ w = CRecord (slot p) pid d.
Record cow_ok (c : CowConf) (w : Template) : Prop := {
  ok_len : length (slots w) = MAX_WORKERS;
  ok_sizes : (cmin c <= desired w <= cmax c)%nat;
  ok_pids : forall pid p, fleet w !! pid = Some p -> 0 < pid /\ (slot p < cmax c)%nat /\ in_slot w pid p;
  ok_slots : forall i pid, slots w !! i = Some pid -> pid = 0 \/ slot <$> fleet w !! pid = Some i;
  ok_pc : match at_ w with
          | CFill _ d => (d <= cmax c)%nat
          | CFork i d => (i < d <= cmax c)%nat /\ slots w !! i = Some 0
          | CRecord i pid d => (i < d <= cmax c)%nat /\ slots w !! i = Some 0 /\ slot <$> fleet w !! pid = Some i
          | _ => True
          end }.

Lemma cow_ok_goto c w p :
  cow_ok c w -> match at_ w with CRecord _ _ _ => False | _ => True end ->
  match p with CFill _ d => (d <= cmax c)%nat | CFork i d => (i < d <= cmax c)%nat /\ slots w !! i = Some 0 | CRecord _ _ _ => False | _ => True end ->
  cow_ok c (cow_goto w p).
Proof.
  intros [H1 H2 H3 H4 _] Ha Hp. split; try done; [|by destruct p].
  intros pid q Hq. destruct (H3 pid q Hq) as (? & ? & [Hs|[d Hd]]); [|by rewrite Hd in Ha]. split_and!; [done|done|by left].
Qed.

Lemma cow_ok_kill c w pid : cow_ok c w -> cow_ok c (cow_kill w pid).
Proof.
  intros [H1 H2 H3 H4 H5]. unfold cow_kill. destruct (fleet w !! pid) as [p|] eqn:Ep; [|by split]. destruct (0 <? pid); [|by split].
  assert (forall k, slot <$> <[pid := mkProc (slot p) true]> (fleet w) !! k = slot <$> fleet w !! k) as Hs.
  { intros k. destruct (decide (k = pid)) as [->|Hk]; [by rewrite lookup_insert_eq, Ep|by rewrite lookup_insert_ne]. }
  split; cbn; try done.
  - intros k q Hq. specialize (Hs k). rewrite Hq in Hs. destruct (fleet w !! k) as [q'|] eqn:Ek; [|done]. injection Hs as Hs.
    unfold in_slot. cbn. rewrite Hs. by apply (H3 k).
  - intros i k Hk. rewrite Hs. by apply H4.
  - destruct (at_ w); try done. by rewrite Hs.
Qed.
Lemma cow_ok_terminate c w : cow_ok c w -> cow_ok c (cow_terminate w).
Proof.
  intros H. unfold cow_terminate. assert (forall l w, cow_ok c w -> cow_ok c (foldl cow_kill w l)) as Hl.
  { induction l as [|x l IH]; intros w1 H1; [done|]. cbn. by apply IH, cow_ok_kill. }
  apply Hl. by destruct H.
Qed.
Lemma cow_ok_size c w d idle : cow_ok c w -> (cmin c <= d <= cmax c)%nat -> cow_ok c (cow_size w d idle).
Proof. intros [H1 H2 H3 H4 H5] Hd. by split. Qed.

Lemma cow_ok_fork c w e i d : cow_ok c w -> at_ w = CFork i d -> cow_ok c (cow_fork w e i d).
Proof.
  intros Hok Ha. pose proof (ok_pc c w Hok) as Hp. rewrite Ha in Hp. destruct Hp as [Hid Hi].
  assert (cow_ok c (cow_goto w (CFill (S i) d))) as Hskip by (apply cow_ok_goto; [done|by rewrite Ha|lia]).
  unfold cow_fork. destruct (c_forked e) as [pid|]; [|done]. destruct (_ && _) eqn:Ef; [|done].
  apply andb_true_iff in Ef as [Hpid Hn%negb_true_iff%bool_decide_eq_false]. rewrite <- eq_None_not_Some in Hn.
  destruct Hok as [H1 H2 H3 H4 _]. split; cbn; try done.
  - intros k q Hk. destruct (decide (k = pid)) as [->|Hne].
    + rewrite lookup_insert_eq in Hk. injection Hk as <-. cbn. split_and!; [lia|lia|]. right. by exists d.
    + rewrite lookup_insert_ne in Hk by done. destruct (H3 k q Hk) as (? & ? & [Hs|[d' Hd]]); [|by rewrite Ha in Hd].
      split_and!; [done|done|by left].
  - intros j k Hk. destruct (H4 j k Hk) as [?|Hs]; [by left|]. right. rewrite lookup_insert_ne; [done|]. intros ->. by rewrite Hn in Hs.
  - rewrite lookup_insert_eq. done.
Qed.

Lemma cow_ok_record c w i pid d :
  cow_ok c w -> at_ w = CRecord i pid d -> cow_ok c (cow_goto (cow_procs w (<[i := pid]> (slots w)) (fleet w)) (CFill (S i) d)).
Proof.
  intros [H1 H2 H3 H4 H5] Ha. rewrite Ha in H5. destruct H5 as (Hid & Hi & Hs). apply lookup_lt_Some in Hi as Hlt.
  split; cbn; try done.
  - by rewrite length_insert.
  - intros k q Hk. destruct (H3 k q Hk) as (Hpos & Hq & Hin). split_and!; [done|done|]. left. cbn.
    destruct Hin as [Hin|[d' Hd]].
    + rewrite list_lookup_insert_ne; [done|]. intros Ei. rewrite <- Ei, Hi in Hin. injection Hin as <-. lia.
    + rewrite Ha in Hd. injection Hd as -> -> _. by apply list_lookup_insert_eq.
  - intros j k Hk. destruct (decide (i = j)) as [<-|Hne].
    + rewrite list_lookup_insert_eq in Hk by done. injection Hk as <-. by right.
    + rewrite list_lookup_insert_ne in Hk by done. by apply H4.
  - lia.
Qed.

Lemma cow_ok_reap c w e : cow_ok c w -> at_ w = CReap -> cow_ok c (cow_reap c w e).
Proof.
  intros Hok Ha. unfold cow_reap. destruct (c_exited e) as [pid|]; [|apply cow_ok_goto; [done|by rewrite Ha|done]].
  case_bool_decide as Hw; [|apply cow_ok_goto; [done|by rewrite Ha|done]]. cbv zeta. destruct Hok as [H1 H2 H3 H4 _].
  destruct Hw as [p Hp]. destruct (H3 pid p Hp) as (Hpos & Hlt & [Hin|[d Hd]]); [|by rewrite Ha in Hd].
  assert (forall k q, delete pid (fleet w) !! k = Some q -> k <> pid /\ 0 < k /\ (slot q < cmax c)%nat /\ slots w !! slot q = Some k) as Hd.
  { intros k q [Hne Hk]%lookup_delete_Some. destruct (H3 k q Hk) as (? & ? & [?|[d Hd]]); [done|by rewrite Ha in Hd]. }
  destruct (list_find _ _) as [[i x]|] eqn:El; cbn.
  - apply list_find_Some in El as (Hi & -> & _). apply lookup_take_Some in Hi as [Hi _].
    split; cbn; rewrite ?Ha; try done.
    + by rewrite length_insert.
    + intros k q Hk. destruct (Hd k q Hk) as (Hne & ? & ? & Hs). split_and!; [done|done|]. left. cbn.
      rewrite list_lookup_insert_ne; [done|]. intros Ei. rewrite <- Ei in Hs. congruence.
    + intros j k Hk. destruct (decide (i = j)) as [<-|Hne].
      { rewrite list_lookup_insert_eq in Hk by (by eapply lookup_lt_Some). injection Hk as <-. by left. }
      rewrite list_lookup_insert_ne in Hk by done. destruct (H4 j k Hk) as [?|Hs]; [by left|]. right.
      rewrite lookup_delete_ne; [done|]. intros <-. destruct (H4 i pid Hi) as [|Hs']; [lia|]. congruence.
  - exfalso. apply list_find_None in El. rewrite Forall_forall in El. apply (El pid); [|done].
    apply (list_elem_of_lookup_2 _ (slot p)). by apply lookup_take_Some.
Qed.

Ltac case_if E := match goal with |- context [if ?b then _ else _] => destruct b eqn:E end.

Lemma cow_ok_autoscale c w e : cow_ok c w -> at_ w = CScale -> cow_ok c (cow_autoscale c w e).
Proof.
  intros Hok Ha. unfold cow_autoscale. cbv zeta. set (w1 := mkTemplate _ _ _ _ _ _ _ _).
  assert (cow_ok c w1) as H1.
  { destruct Hok as [H1 H2 H3 H4 _]. split; try done. intros pid p Hp. destruct (H3 pid p Hp) as (? & ? & [?|[d Hd]]); [|by rewrite Ha in Hd].
    split_and!; [done|done|by left]. }
  pose proof (ok_sizes c w1 H1) as Hs. case_if E0; [|done].
  case_if E1; [apply cow_ok_size; [done|]; apply andb_true_iff in E1 as [_ ?%Nat.ltb_lt]; lia|].
  case_if E2; [|by apply cow_ok_size]. case_if E3; [|by apply cow_ok_size].
  apply cow_ok_kill, cow_ok_size; [done|]. apply andb_true_iff in E2 as [?%Nat.ltb_lt _]. lia.
Qed.

Lemma cow_ok_main c w e : (cmax c <= MAX_WORKERS)%nat -> cow_ok c w -> cow_ok c (cow_main c w e).
Proof.
  intros Hm Hok. pose proof (ok_pc c w Hok) as Hp. unfold cow_main. destruct (at_ w) as [i d|i d|i pid d| | | |] eqn:Ha; try done.
  - unfold cow_fill. destruct (Nat.ltb_spec i d) as [Hlt|]; [|apply cow_ok_goto; [done|by rewrite Ha|done]].
    destruct (_ && _) eqn:E; (apply cow_ok_goto; [done|by rewrite Ha|]); [|done]. split; [lia|].
    apply andb_true_iff in E as [_ E%Z.eqb_eq]. unfold cow_slot in E. pose proof (ok_len c w Hok) as Hl.
    destruct (slots w !! i) as [x|] eqn:Ei; [by cbn in E; rewrite E|]. apply lookup_ge_None in Ei. lia.
  - by apply cow_ok_fork.
  - by apply cow_ok_record.
  - by apply cow_ok_reap.
  - by apply cow_ok_autoscale.
  - unfold cow_check. destruct (_ && _); (apply cow_ok_goto; [done|by rewrite Ha|]); [done|]. apply (ok_sizes c w Hok).
Qed.

(** At most one process per slot. *)
Lemma injective_size (f : gmap Z Proc) (n : nat) :
  (forall k p, f !! k = Some p -> (slot p < n)%nat) ->
  (forall k k' p p', f !! k = Some p -> f !! k' = Some p' -> slot p = slot p' -> k = k') -> (size f <= n)%nat.
Proof.
  intros Hlt Hinj. transitivity (length ((fun kp => slot kp.2) <$> map_to_list f)).
  { by rewrite length_fmap, length_map_to_list. }
  rewrite <- (length_seq n 0). apply submseteq_length, NoDup_submseteq.
  - apply NoDup_fmap_2_strong; [|apply NoDup_map_to_list]. intros [k p] [k' p'] Hk%elem_of_map_to_list Hk'%elem_of_map_to_list E.
    cbn in E. assert (k = k') as -> by (by eapply Hinj). congruence.
  - intros i ([k p] & -> & Hk%elem_of_map_to_list)%list_elem_of_fmap. apply elem_of_seq. cbn. specialize (Hlt k p Hk). lia.
Qed.

Lemma cow_reachable c w : (cmin c <= cmax c <= MAX_WORKERS)%nat -> rtc (cow_step c) (cow_boot c) w -> cow_ok c w.
Proof.
  intros Hc Hr. assert (cow_ok c (cow_boot c)) as H0.
  { split; cbn [cow_boot slots desired fleet at_]; [done|lia|done| |lia].
    intros i pid Hi. apply lookup_replicate in Hi as [-> _]. by left. }
  induction Hr as [|w1 w2 w3 H12 _ IH]; [done|]. apply IH. destruct H12; [apply cow_ok_main; [lia|done]|by apply cow_ok_terminate].
Qed.

(** ** The fleet comes back to its size *)

(** The loop left to itself, with a kernel that forks. *)
Fixpoint cow_drive (c : CowConf) (env : Template -> CowEnv) (n : nat) (w : Template) : Template :=
  match n with O => w | S n => cow_drive c env n (cow_main c w (env w)) end.
Definition forks (env : Template -> CowEnv) : Prop :=
  forall w, exists pid, c_forked (env w) = Some pid /\ 0 < pid /\ fleet w !! pid = None.

Lemma cow_drive_add c env n m w : cow_drive c env (n + m) w = cow_drive c env m (cow_drive c env n w).
Proof. revert w. induction n as [|n IH]; intros w; [done|]. cbn. apply IH. Qed.

(** The slots below [i] are taken, and the turn is at slot [i]. *)
Record filling (c : CowConf) (i d : nat) (w : Template) : Prop := {
  l_ok : cow_ok c w; l_at : at_ w = CFill i d; l_up : down w = false;
  l_taken : forall j, (j < i)%nat -> exists pid, slots w !! j = Some pid /\ pid <> 0 }.

Lemma fill_slot c env i d w :
  (cmax c <= MAX_WORKERS)%nat -> forks env -> (i < d)%nat -> filling c i d w ->
  exists n, (n <= 3)%nat /\ filling c (S i) d (cow_drive c env n w).
Proof.
  intros Hm Hf Hi [Hok Ha Hu Ht]. pose proof (ok_pc c w Hok) as Hd. rewrite Ha in Hd.
  assert (exists x, slots w !! i = Some x) as [x Ex].
  { apply lookup_lt_is_Some. rewrite (ok_len c w Hok). lia. }
  assert (forall n, cow_ok c (cow_drive c env n w)) as Hoks.
  { intros n. clear -Hm Hok. revert w Hok. induction n as [|n IH]; intros w Hok; [done|]. cbn. by apply IH, cow_ok_main. }
  assert (cow_main c w (env w) = if x =? 0 then cow_goto w (CFork i d) else cow_goto w (CFill (S i) d)) as E1.
  { unfold cow_main. rewrite Ha. unfold cow_fill, cow_slot. rewrite (proj2 (Nat.ltb_lt _ _)) by done. by rewrite Hu, Ex. }
  destruct (Z.eqb_spec x 0) as [->|Hx].
  - destruct (Hf (cow_goto w (CFork i d))) as (pid & Ep & Hp & Hn). exists 3%nat. split; [done|].
    assert (cow_drive c env 3 w = cow_goto (cow_procs (cow_goto w (CFork i d)) (<[i := pid]> (slots w))
              (<[pid := mkProc i false]> (fleet w))) (CFill (S i) d)) as E3.
    { cbn [cow_drive]. rewrite E1. unfold cow_main at 2. cbn [at_ cow_goto]. unfold cow_fork. rewrite Ep.
      cbn [fleet cow_goto]. cbn [fleet cow_goto] in Hn. rewrite Hn. by replace (0 <? pid) with true by lia. }
    split; [apply Hoks| | |]; rewrite E3; try done. cbn. intros j Hj. destruct (decide (i = j)) as [<-|Hne].
    + exists pid. rewrite list_lookup_insert_eq by (by eapply lookup_lt_Some). split; [done|lia].
    + rewrite list_lookup_insert_ne by done. apply Ht. lia.
  - exists 1%nat. split; [lia|]. split; [apply Hoks| | |]; cbn [cow_drive]; rewrite E1; try done. cbn. intros j Hj.
    destruct (decide (i = j)) as [<-|Hne]; [by exists x|]. apply Ht. lia.
Qed.

Lemma fill_slots c env k i d w :
  (cmax c <= MAX_WORKERS)%nat -> forks env -> (k + i = d)%nat -> filling c i d w ->
  exists n, (n <= 3 * k)%nat /\ filling c d d (cow_drive c env n w).
Proof.
  intros Hm Hf. revert i w. induction k as [|k IH]; intros i w Hk Hw; [cbn in Hk; subst i; by exists 0%nat|].
  destruct (fill_slot c env i d w Hm Hf ltac:(lia) Hw) as (n & Hn & H1).
  destruct (IH (S i) _ ltac:(lia) H1) as (n' & Hn' & H2). exists (n + n')%nat. rewrite cow_drive_add. split; [lia|exact H2].
Qed.

(** A slot that is taken holds a process of its own. *)
Lemma taken_size c d w : cow_ok c w -> (forall j, (j < d)%nat -> exists pid, slots w !! j = Some pid /\ pid <> 0) -> (d <= size (fleet w))%nat.
Proof.
  intros [_ _ _ H4 _] Ht.
  assert (forall j pid, (j < d)%nat -> slots w !! j = Some pid -> slot <$> fleet w !! pid = Some j) as Hs.
  { intros j pid Hj Ej. destruct (Ht j Hj) as (p & Ep & Hp). destruct (H4 j pid Ej); [congruence|done]. }
  assert (length (take d (slots w)) = d) as Hl.
  { rewrite length_take. destruct d as [|d]; [done|]. destruct (Ht d ltac:(lia)) as (p & Ep & _). apply lookup_lt_Some in Ep. lia. }
  rewrite <- Hl at 1. rewrite <- (size_list_to_set (C:=gset Z)).
  - rewrite <- size_dom. apply subseteq_size. intros pid [j Hj]%elem_of_list_to_set%list_elem_of_lookup. apply lookup_take_Some in Hj as [Hj Hd].
    apply elem_of_dom. specialize (Hs j pid Hd Hj). destruct (fleet w !! pid); [by eexists|done].
  - apply NoDup_alt. intros j k pid [Hj Hdj]%lookup_take_Some [Hk Hdk]%lookup_take_Some.
    pose proof (Hs j pid Hdj Hj). pose proof (Hs k pid Hdk Hk). congruence.
Qed.

Lemma fill_restores c env w :
  (cmax c <= MAX_WORKERS)%nat -> forks env -> cow_ok c w -> at_ w = CCheck -> down w = false ->
  exists n, (n <= 3 * desired w + 2)%nat /\ at_ (cow_drive c env n w) = CReap /\ (desired w <= size (fleet (cow_drive c env n w)))%nat.
Proof.
  intros Hm Hf Hok Ha Hu. set (w1 := cow_main c w (env w)).
  assert (w1 = cow_goto w (CFill 0 (desired w))) as E1 by (unfold w1, cow_main, cow_check; by rewrite Ha, Hu).
  assert (filling c 0 (desired w) w1) as H1.
  { split; [by apply cow_ok_main|by rewrite E1|by rewrite E1|lia]. }
  destruct (fill_slots c env (desired w) 0 (desired w) w1 Hm Hf ltac:(lia) H1) as (n & Hn & [Hok2 Ha2 _ Ht2]).
  exists (1 + (n + 1))%nat. rewrite !cow_drive_add. change (cow_drive c env 1 w) with w1. split; [lia|].
  set (w2 := cow_drive c env n w1) in *. cbn [cow_drive]. unfold cow_main. rewrite Ha2. unfold cow_fill.
  rewrite (proj2 (Nat.ltb_ge _ _)) by lia. split; [done|]. exact (taken_size c _ w2 Hok2 Ht2).
Qed.

(** C28.  The template keeps its fleet in its slots and brings it back to its size: whatever dies, however
    the load goes and whenever it is signalled, the size aimed for is between the minimum and the
    maximum, there are never more workers than the maximum, and every worker is in the slot it was
    forked for -- none is ever lost from the table, as none is forked over another.  Fewer workers
    than that there may be for a while: at the next turn of the loop, unless it is shutting down and
    as long as the kernel forks, there are as many as are aimed for. *)
Theorem cow_fleet_housed c w :
  (cmin c <= cmax c <= MAX_WORKERS)%nat -> rtc (cow_step c) (cow_boot c) w ->
  (cmin c <= desired w <= cmax c)%nat /\ (size (fleet w) <= cmax c)%nat
  /\ (forall pid p, fleet w !! pid = Some p -> (slot p < cmax c)%nat /\ in_slot w pid p)
  /\ (at_ w = CCheck -> down w = false -> forall env, forks env ->
      exists n, (n <= 3 * desired w + 2)%nat /\ at_ (cow_drive c env n w) = CReap /\
        (cmin c <= desired w <= size (fleet (cow_drive c env n w)))%nat).
Proof.
  intros Hc Hr. pose proof (cow_reachable c w Hc Hr) as [H1 H2 H3 H4 H5]. split; [done|]. split.
  - apply injective_size; [intros k p Hk; by destruct (H3 k p Hk) as (_ & ? & _)|].
    intros k k' p p' Hk Hk' E. destruct (H3 k p Hk) as (? & _ & [Hs|[d Hd]]), (H3 k' p' Hk') as (? & _ & [Hs'|[d' Hd']]).
    + congruence.
    + rewrite Hd' in H5. destruct H5 as (_ & Hz & _). rewrite E, Hz in Hs. injection Hs as <-. lia.
    + rewrite Hd in H5. destruct H5 as (_ & Hz & _). rewrite <- E, Hz in Hs'. injection Hs' as <-. lia.
    + congruence.
  - split; [intros pid p Hp; by destruct (H3 pid p Hp) as (_ & ? & ?)|]. intros Ha Hu env Hf.
    destruct (fill_restores c env w ltac:(lia) Hf (cow_reachable c w Hc Hr) Ha Hu) as (n & Hn & Hat & Hz).
    exists n. split; [done|]. split; [done|lia].
Qed.

(** One to three workers under load: two more are forked as the seconds go by. *)
Fixpoint cow_run (c : CowConf) (w : Template) (es : list CowEnv) : Template :=
  match es with [] => w | e :: es => cow_run c (cow_main c w e) es end.
Lemma cow_run_steps c w es : rtc (cow_step c) w (cow_run c w es).
Proof.
  revert w. induction es as [|e es IH]; intros w; [done|]. cbn [cow_run]. destruct (at_ w) eqn:E.
  all: try (eapply rtc_l; [apply (cow_step_main c w e); by rewrite E|apply IH]).
  unfold cow_main. rewrite E. apply IH.
Qed.
Definition loaded : Template :=
  cow_run (mkCow 1 3) (cow_boot (mkCow 1 3)) (map (fun i => mkCowEnv None (Some (100 + Z.of_nat i)) 5) (seq 0 400)).
(** The one in slot 0 dies; the kernel forks again. *)
Definition one_lost : Template :=
  cow_run (mkCow 1 3) loaded (repeat (mkCowEnv (Some (default 0 (slots loaded !! 0%nat))) None 5) 8).
Definition next_pid (w : Template) : Z := map_fold (fun k _ a => Z.max a (k + 1)) 1 (fleet w).
Definition forking (w : Template) : CowEnv := mkCowEnv None (Some (next_pid w)) 0.
Lemma forking_forks : forks forking.
Proof.
  intros w. exists (next_pid w). split; [done|].
  assert (forall m : gmap Z Proc, let n := map_fold (fun k _ a => Z.max a (k + 1)) 1 m in
            0 < n /\ forall k, is_Some (m !! k) -> k < n) as H.
  { apply (map_fold_weak_ind (fun n m => 0 < n /\ forall k, is_Some (m !! k) -> k < n)); [split; [lia|]; intros k [? Hk]; by rewrite lookup_empty in Hk|].
    intros k x m r Hk [H1 H2]. split; [lia|]. intros j. rewrite lookup_insert_is_Some'. intros [->|Hj]; [lia|]. specialize (H2 j Hj). lia. }
  destruct (H (fleet w)) as [H1 H2]. split; [done|]. apply eq_None_not_Some. intros Hs. specialize (H2 _ Hs). unfold next_pid in *. lia.
Qed.

Lemma one_lost_reached : rtc (cow_step (mkCow 1 3)) (cow_boot (mkCow 1 3)) one_lost.
Proof. transitivity loaded; [unfold loaded|unfold one_lost]; apply cow_run_steps. Qed.
Lemma one_lost_looks : at_ one_lost = CCheck /\ down one_lost = false /\ desired one_lost = 3%nat /\ size (fleet one_lost) = 2%nat.
Proof. by vm_compute. Qed.

Lemma cow_fleet_housed_witness :
  size (fleet one_lost) = 2%nat /\
  exists n, (3 <= size (fleet (cow_drive (mkCow 1 3) forking n one_lost)))%nat.
Proof.
  destruct one_lost_looks as (Ea & Eu & Ed & Es). split; [exact Es|].
  assert (1 <= 3 <= MAX_WORKERS)%nat as Hc by (unfold MAX_WORKERS; lia).
  destruct (cow_fleet_housed (mkCow 1 3) one_lost Hc one_lost_reached) as (_ & _ & _ & H).
  destruct (H Ea Eu forking forking_forks) as (n & _ & _ & [_ Hn]). exists n. rewrite Ed in Hn. exact Hn.
Defined.
