(* ===== verification/Pusher.v ===== *)
(** The Pusher endpoints ([pusher.rs]): who may subscribe, who may publish, and what a connection
    is sent.

    JSON is [serde_json]'s: its values are [Value], its parser and printer parameters, as are the
    digests of the [hmac], [sha2] and [md5] crates.  The WebSocket is [fastwebsockets]'s: a
    connection is the messages it reads and the frames it writes. *)

From stdpp Require Import gmap strings.
From S2P Require Import Prelude Bytes Http.

(** ** JSON *)

Inductive Value := Null | Bool (b : bool) | Number (text : bytes) | Str (s : bytes) | Arr (l : list Value) | Obj (fields : list (bytes * Value)).
Definition get (v : Value) (key : bytes) : option Value :=
  match v with Obj fs => snd <$> List.find (fun kv => beq kv.1 key) fs | _ => None end.
Definition as_str (v : Value) : option bytes := match v with Str s => Some s | _ => None end.
Definition as_array (v : Value) : option (list Value) := match v with Arr l => Some l | _ => None end.

(** Text with single quotes for double ones, as the frames are written here. *)
Definition quoted (s : string) : bytes := (fun c => if c =? 39 then 34 else c) <$> lit s.
Arguments quoted s%_string_scope.

(** ** Signatures *)

(** [ct_eq]: every byte is looked at. *)
Definition ct_eq (a b : bytes) : bool :=
  if negb (length a =? length b)%nat then false
  else foldl (fun diff '(x, y) => Z.lor diff (Z.lxor x y)) 0 (zip a b) =? 0.

Definition hex_digit (n : Z) : Z := if n <? 10 then 48 + n else 87 + n.
Definition hex (b : bytes) : bytes := concat (map (fun x => [hex_digit (x / 16); hex_digit (x mod 16)]) b).

Definition MAX_CHANNEL_NAME : nat := 164.
Definition MAX_SUBSCRIPTIONS : nat := 256.
Definition TRIGGER_MAX_SKEW_SECS : Z := 600.

Inductive TriggerRejected := MissingAuth | BodyMismatch | StaleTimestamp | BadSignature.

Section Signatures.
Context (hmac : bytes -> bytes -> bytes) (md5 : bytes -> bytes).

Definition sign (secret s : bytes) : bytes := hex (hmac secret s).

Definition subscription_string (socket_id channel : bytes) (channel_data : option bytes) : bytes :=
  match channel_data with
  | Some cd => socket_id ++ [58] ++ channel ++ [58] ++ cd
  | None => socket_id ++ [58] ++ channel
  end.
Definition verify_subscription (secret socket_id channel : bytes) (channel_data : option bytes) (auth : bytes) : bool :=
  let expected := sign secret (subscription_string socket_id channel channel_data) in
  let provided := List.last (split_on 58 auth) [] in
  ct_eq (to_ascii_lowercase provided) expected.

(** ** [verify_trigger] *)

Abbreviation Param := (bytes * bytes)%type.
Definition parse_param (kv : bytes) : Param :=
  match split_once 61 kv with
  | Some (k, v) => (to_ascii_lowercase k, v)
  | None => (to_ascii_lowercase kv, [])
  end.
Definition parse_params (query : option bytes) : list Param :=
  map parse_param (List.filter (fun kv => negb (beq kv [])) (split_on 38 (default [] query))).

(** The first of a name, and the rest. *)
Fixpoint take_param (name : bytes) (ps : list Param) : option (bytes * list Param) :=
  match ps with
  | [] => None
  | (k, v) :: ps => if beq k name then Some (v, ps)
                    else match take_param name ps with Some (r, ps') => Some (r, (k, v) :: ps') | None => None end
  end.
Definition find_param (name : bytes) (ps : list Param) : option bytes := snd <$> List.find (fun kv => beq kv.1 name) ps.

Definition param_cmp (x y : Param) : comparison := then_with (bytes_cmp x.1 y.1) (bytes_cmp x.2 y.2).
Definition show_param (kv : Param) : bytes := kv.1 ++ [61] ++ kv.2.
Definition trigger_string (path : bytes) (ps : list Param) : bytes :=
  lit "POST" ++ [10] ++ path ++ [10] ++ join [38] (map show_param (sort_by param_cmp ps)).

(** [None]: the request is the application's. *)
Definition verify_trigger (secret path : bytes) (query : option bytes) (body : bytes) (now : Z) : option TriggerRejected :=
  match take_param (lit "auth_signature") (parse_params query) with
  | None => Some MissingAuth
  | Some (signature, ps) =>
      match find_param (lit "auth_key") ps, find_param (lit "auth_timestamp") ps,
            find_param (lit "auth_version") ps, find_param (lit "body_md5") ps with
      | Some _, Some ts, Some _, Some md =>
          if negb (ct_eq (to_ascii_lowercase md) (hex (md5 body))) then Some BodyMismatch
          else match parse_u64 ts with
          | None => Some StaleTimestamp
          | Some ts =>
              if TRIGGER_MAX_SKEW_SECS <? Z.abs (now - ts) then Some StaleTimestamp
              else if negb (ct_eq (to_ascii_lowercase signature) (sign secret (trigger_string path ps))) then Some BadSignature
              else None
          end
      | _, _, _, _ => Some MissingAuth
      end
  end.

(** ** Messages and events *)

Context (from_slice : bytes -> option Value) (to_string : Value -> bytes).

Definition subscription_error (channel error : bytes) : bytes :=
  to_string (Obj [(lit "event", Str (lit "pusher_internal:subscription_error")); (lit "channel", Str channel);
                  (lit "data", Obj [(lit "type", Str (lit "AuthError")); (lit "status", Number (lit "401")); (lit "error", Str error)])]).
Definition PONG : bytes := quoted "{'event':'pusher:pong','data':'{}'}".
Definition subscription_succeeded (channel : bytes) : bytes :=
  let payload := if starts_with channel (lit "presence-")
                 then quoted "{\'presence\':{\'count\':0,\'ids\':[],\'hash\':{}}}" else lit "{}" in
  quoted "{'event':'pusher_internal:subscription_succeeded','channel':'" ++ channel ++ quoted "','data':'" ++ payload ++ quoted "'}".

Definition needs_auth (channel : bytes) : bool := starts_with channel (lit "private-") || starts_with channel (lit "presence-").
Definition str_at (v : option Value) (key : bytes) : option bytes := (v ≫= (fun v => get v key)) ≫= as_str.

Abbreviation Subs := (gset bytes).
Definition subscribe (data : option Value) (subs : Subs) (socket_id : bytes) (secret : option bytes) (channel : bytes) : option bytes * Subs :=
  if (MAX_CHANNEL_NAME <? length channel)%nat then (Some (subscription_error channel (lit "channel name too long")), subs)
  else if (MAX_SUBSCRIPTIONS <=? size subs)%nat && negb (bool_decide (channel ∈ subs))
       then (Some (subscription_error channel (lit "too many subscriptions")), subs)
  else
    let ok := match secret with
              | Some secret =>
                  negb (needs_auth channel)
                  || match str_at data (lit "auth") with
                     | Some a => verify_subscription secret socket_id channel (str_at data (lit "channel_data")) a
                     | None => false
                     end
              | None => true
              end in
    if negb ok then (Some (subscription_error channel (lit "auth signature mismatch")), subs)
    else (Some (subscription_succeeded channel), {[channel]} ∪ subs).

Definition handle_client_message (payload : bytes) (subs : Subs) (socket_id : bytes) (secret : option bytes) : option bytes * Subs :=
  match from_slice payload with
  | None => (None, subs)
  | Some v =>
      match str_at (Some v) (lit "event") with
      | None => (None, subs)
      | Some event =>
          let data := get v (lit "data") in
          if beq event (lit "pusher:ping") then (Some PONG, subs)
          else if beq event (lit "pusher:subscribe") then
            match str_at data (lit "channel") with
            | None => (None, subs)
            | Some channel => subscribe data subs socket_id secret channel
            end
          else if beq event (lit "pusher:unsubscribe") then
            match str_at data (lit "channel") with
            | Some channel => (None, subs ∖ {[channel]})
            | None => (None, subs)
            end
          else (None, subs)
      end
  end.

Definition build_event_frame (channel payload : bytes) : bytes :=
  match from_slice payload ≫= (fun v => (fun e => (e, v)) <$> str_at (Some v) (lit "event")) with
  | Some (event, v) =>
      to_string (Obj [(lit "event", Str event); (lit "channel", Str channel); (lit "data", default Null (get v (lit "data")))])
  | None =>
      to_string (Obj [(lit "event", Str (lit "message")); (lit "channel", Str channel); (lit "data", Str (from_utf8_lossy payload))])
  end.

(** ** Connections *)

(** A connection's queue in the hub: its capacity is [mpsc::channel(256)]. *)
Definition QUEUE : nat := 256.
Record Conn := mkConn { queue : list (bytes * bytes); open : bool }.
Definition register (conns : list Conn) : list Conn := conns ++ [mkConn [] true].
(** [deliver]: a connection that is closed or whose queue is full is dropped. *)
Definition deliver (conns : list Conn) (channel payload : bytes) : list Conn :=
  let item := (channel, build_event_frame channel payload) in
  omap (fun c => if open c && (length (queue c) <? QUEUE)%nat then Some (mkConn (queue c ++ [item]) (open c)) else None) conns.
Definition prune (conns : list Conn) : list Conn := List.filter open conns.

(** One turn of [serve]: an event from the hub, or a message from the client; what is written. *)
Inductive Turn := Item (channel frame : bytes) | Message (payload : bytes).
Definition turn (socket_id : bytes) (secret : option bytes) (subs : Subs) (t : Turn) : option bytes * Subs :=
  match t with
  | Item channel frame => (if bool_decide (channel ∈ subs) then Some frame else None, subs)
  | Message payload => handle_client_message payload subs socket_id secret
  end.
Fixpoint serve (socket_id : bytes) (secret : option bytes) (subs : Subs) (ts : list Turn) : list (option bytes) * Subs :=
  match ts with
  | [] => ([], subs)
  | t :: ts => let '(out, subs) := turn socket_id secret subs t in
               let '(outs, subs) := serve socket_id secret subs ts in (out :: outs, subs)
  end.

(** ** Publishing *)

(** The calls of [broadcast::publish], in order. *)
Definition trigger (body : bytes) : list (bytes * bytes) :=
  match from_slice body with
  | None => []
  | Some v =>
      let name := default (lit "message") (str_at (Some v) (lit "name")) in
      let data := default Null (get v (lit "data")) in
      let channels := option_list (str_at (Some v) (lit "channel"))
                      ++ omap as_str (default [] (get v (lit "channels") ≫= as_array)) in
      let inner := to_string (Obj [(lit "event", Str name); (lit "data", data)]) in
      map (fun ch => (ch, inner)) channels
  end.
Definition is_trigger (path : bytes) : bool := starts_with path (lit "/apps/") && ends_with path (lit "/events").
Definition is_ws_path (path : bytes) : bool := starts_with path (lit "/app/").

(** The endpoint: the status, and what is published. *)
Definition trigger_endpoint (secret : option bytes) (path : bytes) (query : option bytes) (body : bytes) (now : Z)
    : Z * list (bytes * bytes) :=
  match secret with
  | Some s => match verify_trigger s path query body now with Some _ => (401, []) | None => (200, trigger body) end
  | None => (200, trigger body)
  end.
End Signatures.
