(* ===== verification/PusherSpec.v ===== *)
(** What the Pusher endpoints promise: a connection with a secret configured holds a private or
    presence channel only after a message whose signature verifies, within the limits of the
    source; a trigger's signature is good for one path, one body, one set of parameters and
    twenty minutes. *)

From stdpp Require Import gmap sorting strings.
From S2P Require Import Prelude Bytes Http.
From S2P Require RCacheSpec.
From S2P Require Import CacheKey Pusher.

(** ** Bytes *)

Lemma foldl_lor_zero (ps : list (Z * Z)) (d : Z) :
  foldl (fun diff '(x, y) => Z.lor diff (Z.lxor x y)) d ps = 0 <-> d = 0 /\ Forall (fun p => p.1 = p.2) ps.
Proof.
  revert d. induction ps as [|[x y] ps IH]; intros d; cbn [foldl].
  - by rewrite Forall_nil; intuition.
  - by rewrite IH, Forall_cons, Z.lor_eq_0_iff, Z.lxor_eq_0_iff; intuition.
Qed.

(** The comparison without early exit is equality. *)
Lemma ct_eq_true (a b : bytes) : ct_eq a b = true <-> a = b.
Proof.
  unfold ct_eq. destruct (Nat.eqb_spec (length a) (length b)) as [Hl|Hl]; cbn [negb]; [|by split; [|intros ->]].
  rewrite Z.eqb_eq, foldl_lor_zero. split; [intros [_ Hf]|intros ->; split; [done|]].
  - revert b Hl Hf. induction a as [|x a IH]; intros [|y b]; try done. cbn [zip zip_with length].
    intros [=Hl] [[=->] Hf]%Forall_cons. by rewrite (IH b).
  - clear. induction b; by constructor.
Qed.

Lemma split_once_Some c b p r : split_once c b = Some (p, r) -> b = p ++ c :: r /\ c ∉ p.
Proof.
  unfold split_once. revert p r. induction b as [|x b IH]; intros p r; cbn [position]; [done|].
  destruct (Z.eqb_spec x c) as [->|Hx].
  - intros [= <- <-]. split; [done|]. apply not_elem_of_nil.
  - destruct (position c b) as [i|]; [|done]. cbn [fmap option_fmap option_map]. intros [= <- <-].
    destruct (IH (take i b) (drop (S i) b) eq_refl) as [E Hi]. cbn [take drop app]. split; [by rewrite E at 1|].
    apply not_elem_of_cons. by split; [apply not_eq_sym|].
Qed.

Lemma split_once_None c b : split_once c b = None -> c ∉ b.
Proof.
  unfold split_once. induction b as [|x b IH]; cbn [position]; [intros _; apply not_elem_of_nil|].
  destruct (Z.eqb_spec x c) as [->|Hx]; [done|]. destruct (position c b); [done|]. intros _.
  apply not_elem_of_cons. split; [by apply not_eq_sym|by apply IH].
Qed.

(** Lowercasing adds no byte that is not a letter. *)
Lemma not_elem_of_lowercase c b : between 97 122 c = false -> c ∉ b -> c ∉ to_ascii_lowercase b.
Proof.
  intros Hc Hb (x & -> & Hx)%list_elem_of_fmap. unfold to_lower in *.
  destruct (is_ascii_uppercase x) eqn:E; [|done]. unfold is_ascii_uppercase, between in *. crush.
Qed.

(** ** Subscriptions *)

Section Subscriptions.
Context (hmac : bytes -> bytes -> bytes) (from_slice : bytes -> option Value) (to_string : Value -> bytes).
Abbreviation sign := (sign hmac).
Abbreviation handle := (handle_client_message hmac from_slice to_string).
Abbreviation serve := (serve hmac from_slice to_string).

(** A message of [ts] asks for [ch] and carries the signature for it. *)
Definition vouched (sid secret : bytes) (ts : list Turn) (ch : bytes) : Prop :=
  exists payload v auth, Message payload ∈ ts /\ from_slice payload = Some v
    /\ str_at (Some v) (lit "event") = Some (lit "pusher:subscribe")
    /\ str_at (get v (lit "data")) (lit "channel") = Some ch
    /\ str_at (get v (lit "data")) (lit "auth") = Some auth
    /\ to_ascii_lowercase (List.last (split_on 58 auth) [])
       = sign secret (subscription_string sid ch (str_at (get v (lit "data")) (lit "channel_data"))).

Lemma vouched_mono sid secret ts ts' ch : ts ⊆ ts' -> vouched sid secret ts ch -> vouched sid secret ts' ch.
Proof. intros Hs (p & v & a & Hp & Hr). exists p, v, a. by split; [apply Hs|]. Qed.

(** What a connection with a secret holds after [ts]. *)
Definition held (sid secret : bytes) (ts : list Turn) (subs : gset bytes) : Prop :=
  (size subs <= MAX_SUBSCRIPTIONS)%nat
  /\ forall ch, ch ∈ subs -> (length ch <= MAX_CHANNEL_NAME)%nat /\ (needs_auth ch = true -> vouched sid secret ts ch).

Lemma held_mono sid secret ts ts' subs : ts ⊆ ts' -> held sid secret ts subs -> held sid secret ts' subs.
Proof.
  intros Hs [Hn H]. split; [done|]. intros ch Hch. destruct (H ch Hch) as [Hl Hv]. split; [done|].
  intros Ha. by eapply vouched_mono; [|apply Hv].
Qed.

Lemma held_subset sid secret ts subs subs' : subs' ⊆ subs -> held sid secret ts subs -> held sid secret ts subs'.
Proof.
  intros Hs [Hn H]. split; [|by intros ch Hch; apply H, Hs]. apply subseteq_size in Hs. lia.
Qed.

Lemma held_add sid secret ts subs ch :
  (length ch <= MAX_CHANNEL_NAME)%nat -> (size subs < MAX_SUBSCRIPTIONS)%nat \/ ch ∈ subs ->
  (needs_auth ch = true -> vouched sid secret ts ch) -> held sid secret ts subs -> held sid secret ts ({[ch]} ∪ subs).
Proof.
  intros Hl Hn Hv [Hs H]. split.
  - destruct (decide (ch ∈ subs)) as [Hi|Hi]; [by replace ({[ch]} ∪ subs) with subs by set_solver|].
    rewrite size_union, size_singleton by set_solver. destruct Hn; [lia|done].
  - intros c [->%elem_of_singleton|Hc]%elem_of_union; [done|by apply H].
Qed.

(** Each branch of [subscribe] keeps what the connection holds. *)
Lemma subscribe_held sid secret ts payload v ch subs :
  Message payload ∈ ts -> from_slice payload = Some v -> str_at (Some v) (lit "event") = Some (lit "pusher:subscribe") ->
  str_at (get v (lit "data")) (lit "channel") = Some ch -> held sid secret ts subs ->
  held sid secret ts (subscribe hmac to_string (get v (lit "data")) subs sid (Some secret) ch).2.
Proof.
  intros Hm Hv He Hc Hh. unfold subscribe.
  destruct (MAX_CHANNEL_NAME <? length ch)%nat eqn:Hl; [done|]. apply Nat.ltb_ge in Hl.
  destruct ((MAX_SUBSCRIPTIONS <=? size subs)%nat && negb (bool_decide (ch ∈ subs))) eqn:Hn; [done|].
  destruct (negb (needs_auth ch) || _) eqn:Ha; [cbn [negb]|done]. apply held_add; [done| | |done].
  - apply andb_false_iff in Hn as [Hn%Nat.leb_gt|Hn]; [by left|right].
    by apply negb_false_iff, bool_decide_eq_true in Hn.
  - intros Hna. rewrite Hna in Ha. cbn [negb orb] in Ha.
    destruct (str_at (get v (lit "data")) (lit "auth")) as [a|] eqn:Hauth; [|done].
    apply ct_eq_true in Ha. by exists payload, v, a.
Qed.

Lemma handle_held sid secret ts payload subs :
  Message payload ∈ ts -> held sid secret ts subs -> held sid secret ts (handle payload subs sid (Some secret)).2.
Proof.
  intros Hm Hh. unfold handle_client_message. destruct (from_slice payload) as [v|] eqn:Hv; [|done].
  destruct (str_at (Some v) (lit "event")) as [ev|] eqn:He; [|done].
  destruct (beq ev (lit "pusher:ping")); [done|].
  destruct (beq ev (lit "pusher:subscribe")) eqn:Es.
  - apply beq_true in Es as ->. destruct (str_at (get v (lit "data")) (lit "channel")) as [ch|] eqn:Hc; [|done].
    by apply (subscribe_held _ _ _ payload).
  - destruct (beq ev (lit "pusher:unsubscribe")); [|done]. destruct (str_at (get v _) _); [|done].
    eapply held_subset; [|exact Hh]. cbn [snd]. set_solver.
Qed.

Lemma turn_held sid secret ts t subs :
  t ∈ ts -> held sid secret ts subs -> held sid secret ts (turn hmac from_slice to_string sid (Some secret) subs t).2.
Proof. destruct t; [done|apply handle_held]. Qed.

(** What is written for an event is the event, of a channel the connection holds. *)
Definition entitled (sid secret : bytes) (ts : list Turn) (outs : list (option bytes)) : Prop :=
  forall i ch frame, ts !! i = Some (Item ch frame) ->
    outs !! i = Some None \/ outs !! i = Some (Some frame) /\ (needs_auth ch = true -> vouched sid secret (take i ts) ch).

Lemma serve_held sid secret h subs ts outs subs' :
  held sid secret h subs -> serve sid (Some secret) subs ts = (outs, subs') ->
  held sid secret (h ++ ts) subs'
  /\ length outs = length ts
  /\ forall i ch frame, ts !! i = Some (Item ch frame) ->
       outs !! i = Some None \/ outs !! i = Some (Some frame) /\ (needs_auth ch = true -> vouched sid secret (h ++ take i ts) ch).
Proof.
  revert h subs outs subs'. induction ts as [|t ts IH]; intros h subs outs subs' Hh; cbn [Pusher.serve].
  { intros [= <- <-]. by rewrite app_nil_r. }
  pose proof (turn_held sid secret (h ++ [t]) t subs) as Ht.
  destruct (turn _ _ _ _ _ _ t) as [out s] eqn:Et. destruct (serve sid (Some secret) s ts) as [outs1 s'] eqn:Es.
  intros [= <- <-]. destruct (IH (h ++ [t]) s outs1 s') as (H1 & H2 & H3); [|done|].
  { apply Ht; [set_solver|]. by eapply held_mono; [|done]; set_solver. }
  rewrite <- app_assoc in H1. split; [done|]. split; [by cbn [length]; rewrite H2|].
  intros [|i] ch frame; cbn [lookup list_lookup take].
  - intros [= ->]. cbn [turn] in Et. destruct Hh as [_ Hh]. rewrite app_nil_r.
    destruct (decide (ch ∈ subs)) as [Hi|Hi].
    + rewrite bool_decide_true in Et by done. simplify_eq. right. split; [done|]. by apply Hh.
    + rewrite bool_decide_false in Et by done. simplify_eq. by left.
  - intros Hi. specialize (H3 i ch frame Hi). by rewrite <- app_assoc in H3.
Qed.

(** C13.  A connection with a secret configured, whatever its client sends: it never holds more than 256
    channels nor a name over 164 bytes; it holds a private or presence channel, and is written an
    event of one, only after a message for that very channel with the signature of this
    connection's socket id and the channel. *)
Theorem private_channels_vouched sid secret ts outs subs :
  serve sid (Some secret) ∅ ts = (outs, subs) ->
  held sid secret ts subs /\ length outs = length ts /\ entitled sid secret ts outs.
Proof.
  intros E. apply (serve_held sid secret []) in E; [done|].
  split; [by rewrite size_empty; cbn; lia|set_solver].
Qed.

End Subscriptions.

(** ** Triggers *)

Section Triggers.
Context (hmac : bytes -> bytes -> bytes) (md5 : bytes -> bytes).
Abbreviation sign := (sign hmac).
Abbreviation verify_trigger := (verify_trigger hmac md5).

(** A parameter as the query's parts make it. *)
Definition clean (kv : bytes * bytes) : Prop := (61 ∉ kv.1) /\ (38 ∉ kv.1) /\ (38 ∉ kv.2).

Lemma parse_param_clean kv : 38 ∉ kv -> clean (parse_param kv).
Proof.
  intros H. unfold parse_param. destruct (split_once 61 kv) as [[k v]|] eqn:E.
  - apply split_once_Some in E as [-> E]. apply not_elem_of_app in H as [Hk Hv].
    apply not_elem_of_cons in Hv as [_ Hv]. by split_and!; [apply not_elem_of_lowercase..|].
  - apply split_once_None in E. split_and!; [by apply not_elem_of_lowercase..|apply not_elem_of_nil].
Qed.

Lemma parse_params_clean query : Forall clean (parse_params query).
Proof.
  unfold parse_params. rewrite Forall_fmap. apply Forall_forall. intros kv [Hk _]%list_elem_of_In%filter_In.
  apply list_elem_of_In in Hk. by apply parse_param_clean, (split_on_pieces _ (default [] query)).
Qed.

Lemma take_param_Permutation name ps r ps' : take_param name ps = Some (r, ps') -> ps ≡ₚ (name, r) :: ps'.
Proof.
  revert r ps'. induction ps as [|[k v] ps IH]; intros r ps'; cbn [take_param]; [done|].
  destruct (beq k name) eqn:E; [apply beq_true in E as ->; by intros [= <- <-]|].
  destruct (take_param name ps) as [[r1 ps1]|]; [|done]. intros [= <- <-]. rewrite (IH r1 ps1 eq_refl). apply Permutation_swap.
Qed.

Lemma find_param_Some name ps v : find_param name ps = Some v -> (name, v) ∈ ps.
Proof.
  unfold find_param. destruct (List.find _ ps) as [[k w]|] eqn:E; [|done]. intros [= ->].
  apply find_some in E as [Hin Hk]. apply beq_true in Hk. cbn in Hk. subst. by apply list_elem_of_In.
Qed.

(** With no name twice, what is found does not depend on the order. *)
Lemma find_param_unique name ps v : NoDup ps.*1 -> (name, v) ∈ ps -> find_param name ps = Some v.
Proof.
  intros Hn. unfold find_param. induction ps as [|[k w] ps IH]; [by intros ?%elem_of_nil|].
  cbn [fmap list_fmap fst] in Hn. apply NoDup_cons in Hn as [Hk Hn]. cbn [List.find fst].
  intros [[= -> ->]|Hin]%elem_of_cons; [by rewrite beq_refl|].
  destruct (beq k name) eqn:E; [|by apply IH]. apply beq_true in E as ->.
  destruct Hk. by apply (list_elem_of_fmap_2' fst _ (name, v)).
Qed.

Lemma find_param_Permutation name ps ps' v :
  NoDup ps.*1 -> ps ≡ₚ ps' -> find_param name ps' = Some v -> find_param name ps = Some v.
Proof. intros Hn Hp H%find_param_Some. apply find_param_unique; [done|]. by rewrite Hp. Qed.

(** What is signed can be read back. *)
Lemma show_param_inj kv kv' : clean kv -> clean kv' -> show_param kv = show_param kv' -> kv = kv'.
Proof.
  destruct kv as [k v], kv' as [k' v']. intros [H _] [H' _] E. cbn [fst snd] in *.
  assert (split_once 61 (k ++ 61 :: v) = split_once 61 (k' ++ 61 :: v')) as E1 by (unfold show_param in E; cbn [fst snd app] in E; by rewrite E).
  rewrite !RCacheSpec.split_once_app in E1 by done. by simplify_eq.
Qed.

Lemma show_params_inj ps ps' :
  Forall clean ps -> Forall clean ps' -> join [38] (map show_param ps) = join [38] (map show_param ps') -> ps = ps'.
Proof.
  assert (forall l, Forall clean l -> Forall (fun p => p <> [] /\ 38 ∉ p) (map show_param l)) as Hf.
  { intros l Hl. apply Forall_fmap. eapply Forall_impl; [exact Hl|]. intros [k v] (_ & Hk & Hv). cbn [fst snd] in *. split.
    - by destruct k.
    - unfold show_param. cbn [fst snd app]. rewrite not_elem_of_app, not_elem_of_cons. done. }
  intros H H' E. apply join_inj in E; [|by apply Hf..]. revert ps' H' E.
  induction H as [|kv ps Hkv H IH]; intros [|kv' ps'] H' E; try done. apply Forall_cons in H' as [Hkv' H'].
  cbn [map] in E. injection E as E1 E2. f_equal; [by apply show_param_inj|by apply IH].
Qed.

Lemma trigger_string_inj path path' ps ps' :
  10 ∉ path -> 10 ∉ path' -> Forall clean ps -> Forall clean ps' ->
  trigger_string path ps = trigger_string path' ps' -> path = path' /\ ps ≡ₚ ps'.
Proof.
  intros Hp Hp' H H' E. unfold trigger_string in E. do 2 apply app_inv_head in E. cbn [app] in E.
  apply (f_equal (split_once 10)) in E. rewrite !RCacheSpec.split_once_app in E by done. injection E as E1 E2.
  split; [done|]. apply show_params_inj in E2; [|by rewrite sort_by_Permutation..].
  by rewrite <- (sort_by_Permutation param_cmp ps), E2, sort_by_Permutation.
Qed.

(** What an accepted trigger carries. *)
Lemma verify_trigger_None secret path query body now :
  verify_trigger secret path query body now = None ->
  exists sig ps ts md t, take_param (lit "auth_signature") (parse_params query) = Some (sig, ps)
    /\ find_param (lit "auth_timestamp") ps = Some ts /\ find_param (lit "body_md5") ps = Some md
    /\ to_ascii_lowercase md = hex (md5 body) /\ parse_u64 ts = Some t /\ Z.abs (now - t) <= TRIGGER_MAX_SKEW_SECS
    /\ to_ascii_lowercase sig = sign secret (trigger_string path ps).
Proof.
  unfold Pusher.verify_trigger. destruct (take_param _ _) as [[sig ps]|]; [|done].
  destruct (find_param (lit "auth_key") ps); [|done]. destruct (find_param (lit "auth_timestamp") ps) as [ts|] eqn:Et; [|done].
  destruct (find_param (lit "auth_version") ps); [|done]. destruct (find_param (lit "body_md5") ps) as [md|] eqn:Em; [|done].
  destruct (ct_eq (to_ascii_lowercase md) _) eqn:E1; [cbn [negb]|done]. destruct (parse_u64 ts) as [t|] eqn:Ep; [|done].
  destruct (TRIGGER_MAX_SKEW_SECS <? _) eqn:Es; [done|]. destruct (ct_eq (to_ascii_lowercase sig) _) eqn:E2; [|done].
  intros _. apply ct_eq_true in E1, E2. apply Z.ltb_ge in Es. by exists sig, ps, ts, md, t.
Qed.

(** A trigger's signature is good for one request.  Two accepted triggers with one signature, in
    either case of hex, are for one path and one set of parameters, whatever their order, and
    within twenty minutes of each other; and they carry one body, unless it collides in MD5.
    The only other way is two different signed strings that collide in the HMAC. *)
Theorem trigger_signature_binds secret path query body now path' query' body' now' sig ps sig' ps' :
  verify_trigger secret path query body now = None -> verify_trigger secret path' query' body' now' = None ->
  10 ∉ path -> 10 ∉ path' ->
  take_param (lit "auth_signature") (parse_params query) = Some (sig, ps) ->
  take_param (lit "auth_signature") (parse_params query') = Some (sig', ps') ->
  to_ascii_lowercase sig = to_ascii_lowercase sig' -> NoDup ps.*1 ->
  (path = path' /\ ps ≡ₚ ps' /\ Z.abs (now - now') <= 2 * TRIGGER_MAX_SKEW_SECS
   /\ (body = body' \/ body <> body' /\ hex (md5 body) = hex (md5 body')))
  \/ trigger_string path ps <> trigger_string path' ps' /\ sign secret (trigger_string path ps) = sign secret (trigger_string path' ps').
Proof.
  intros (s1 & q1 & ts & md & t & T1 & Ht & Hm & Hmd & Hpt & Hn & Hs)%verify_trigger_None
    (s2 & q2 & ts' & md' & t' & T2 & Ht' & Hm' & Hmd' & Hpt' & Hn' & Hs')%verify_trigger_None Hp Hp' E1 E2 Hsig Hnd.
  rewrite E1 in T1. rewrite E2 in T2. simplify_eq.
  assert (forall q s r, take_param (lit "auth_signature") (parse_params q) = Some (s, r) -> Forall clean r) as Hcl.
  { intros q s r Ht0%take_param_Permutation. pose proof (parse_params_clean q) as Hc. rewrite Ht0 in Hc. by apply Forall_cons in Hc as [_ Hc]. }
  destruct (decide (trigger_string path q1 = trigger_string path' q2)) as [E|E]; [left|right].
  - apply trigger_string_inj in E as [-> Hperm]; [|done..|by eapply Hcl|by eapply Hcl].
    apply (find_param_Permutation _ _ _ _ Hnd Hperm) in Ht', Hm'. simplify_eq.
    split_and!; [done|done|lia|]. destruct (decide (body = body')); [by left|right]. by rewrite <- Hmd, <- Hmd'.
  - split; [done|]. by rewrite <- Hs, <- Hs'.
Qed.

End Triggers.

(** ** Publishing *)

Section Publishing.
Context (from_slice : bytes -> option Value) (to_string : Value -> bytes).

Lemma deliver_spec conns ch payload :
  deliver from_slice to_string conns ch payload
  = (fun c => mkConn (queue c ++ [(ch, build_event_frame from_slice to_string ch payload)]) true)
    <$> List.filter (fun c => open c && (length (queue c) <? QUEUE)%nat) conns.
Proof.
  unfold deliver. induction conns as [|c conns IH]; [done|]. cbn [omap list_omap List.filter].
  destruct (open c) eqn:Eo; cbn [andb]; [|done]. destruct (_ <? _)%nat; [|done]. cbn [fmap list_fmap]. by rewrite IH.
Qed.

(** What the application publishes is what a subscriber reads.  Every channel the trigger names
    gets the event: in the queue of each connection that is open and has room, the others being
    dropped, last, and as a frame with the trigger's name, the channel and its data; provided
    [serde_json] reads back the event it wrote to the ring. *)
Theorem trigger_reaches_subscribers body v ch inner conns :
  let name := default (lit "message") (str_at (Some v) (lit "name")) in
  let data := default Null (get v (lit "data")) in
  let event := Obj [(lit "event", Str name); (lit "data", data)] in
  from_slice body = Some v -> (ch, inner) ∈ trigger from_slice to_string body -> from_slice (to_string event) = Some event ->
  (str_at (Some v) (lit "channel") = Some ch \/ exists l, get v (lit "channels") = Some (Arr l) /\ Str ch ∈ l)
  /\ deliver from_slice to_string conns ch inner
     = (fun c => mkConn (queue c ++ [(ch, to_string (Obj [(lit "event", Str name); (lit "channel", Str ch); (lit "data", data)]))]) true)
       <$> List.filter (fun c => open c && (length (queue c) <? QUEUE)%nat) conns.
Proof.
  intros name data event Hb Hin He. unfold trigger in Hin. rewrite Hb in Hin. fold name data event in Hin.
  apply list_elem_of_fmap in Hin as (c & [= -> ->] & Hin). split.
  - apply elem_of_app in Hin as [Hin|Hin]; [left|right].
    + destruct (str_at (Some v) (lit "channel")) as [x|]; [|by apply elem_of_nil in Hin]. by apply list_elem_of_singleton in Hin as ->.
    + apply list_elem_of_omap in Hin as (x & Hx & Hs). destruct x; try done. cbn in Hs. simplify_eq.
      destruct (get v (lit "channels")) as [w|]; [|by apply elem_of_nil in Hx].
      destruct w as [| | | |l|]; try (by apply elem_of_nil in Hx). by exists l.
  - rewrite deliver_spec. unfold build_event_frame. rewrite He. reflexivity.
Qed.
End Publishing.

(** ** A connection and a trigger, and what modelling showed *)

(** A digest and a JSON that can be computed, for the examples: a sum, and two fields between
    zero bytes. *)
Definition sum_mac (key s : bytes) : bytes := [foldl Z.add 0 (key ++ s) mod 251].
Definition sum_md5 (s : bytes) : bytes := [foldl Z.add 0 s mod 251].
Definition demo_json (b : bytes) : option Value :=
  match split_on 0 b with
  | [event; channel; auth] => Some (Obj [(lit "event", Str event); (lit "data", Obj [(lit "channel", Str channel); (lit "auth", Str auth)])])
  | [name; channel] => Some (Obj [(lit "name", Str name); (lit "channel", Str channel); (lit "data", Str (lit "d"))])
  | [name] => Some (Obj [(lit "event", Str name); (lit "data", Str (lit "d"))])
  | _ => None
  end.
Definition demo_print (v : Value) : bytes :=
  match v with Obj ((_, Str s) :: (_, Str t) :: _) => if beq t (lit "d") then s else s ++ [0] ++ t | _ => lit "{}" end.

Definition demo_auth : bytes := lit "key:" ++ sign sum_mac (lit "secret") (subscription_string (lit "7.1") (lit "private-a") None).
Definition demo_turns : list Turn :=
  [Item (lit "private-a") (lit "too early");
   Message (lit "pusher:subscribe" ++ [0] ++ lit "private-a" ++ [0] ++ lit "key:00");
   Message (lit "pusher:subscribe" ++ [0] ++ lit "private-a" ++ [0] ++ demo_auth);
   Item (lit "private-a") (lit "event"); Item (lit "private-b") (lit "other")].

Lemma private_channels_vouched_witness :
  exists outs subs, serve sum_mac demo_json demo_print (lit "7.1") (Some (lit "secret")) ∅ demo_turns = (outs, subs)
    /\ (outs !! 3%nat = Some (Some (lit "event")) /\ lit "private-a" ∈ subs)
    /\ held sum_mac demo_json (lit "7.1") (lit "secret") demo_turns subs /\ length outs = length demo_turns
    /\ entitled sum_mac demo_json (lit "7.1") (lit "secret") demo_turns outs.
Proof.
  set (r := serve sum_mac demo_json demo_print (lit "7.1") (Some (lit "secret")) ∅ demo_turns).
  exists r.1, r.2. split; [by rewrite <- surjective_pairing|]. split.
  - split; [by vm_compute|]. apply (bool_decide_unpack (lit "private-a" ∈ r.2)). by vm_compute.
  - apply (private_channels_vouched sum_mac demo_json demo_print (lit "7.1") (lit "secret") demo_turns r.1 r.2). by rewrite <- surjective_pairing.
Defined.

Definition demo_params : list bytes :=
  [lit "auth_key=k"; lit "auth_timestamp=1000"; lit "auth_version=1.0"; lit "body_md5=" ++ hex (sum_md5 (lit "body"))].
Definition demo_signature : bytes :=
  lit "auth_signature=" ++ sign sum_mac (lit "secret") (trigger_string (lit "/apps/1/events") (parse_params (Some (join [38] demo_params)))).
Definition demo_query : bytes := join [38] (demo_signature :: demo_params).
Definition demo_query' : bytes := join [38] (reverse demo_params ++ [demo_signature]).

Lemma trigger_signature_binds_witness :
  exists sig ps sig' ps',
    take_param (lit "auth_signature") (parse_params (Some demo_query)) = Some (sig, ps)
    /\ take_param (lit "auth_signature") (parse_params (Some demo_query')) = Some (sig', ps')
    /\ ((lit "/apps/1/events" = lit "/apps/1/events" /\ ps ≡ₚ ps' /\ Z.abs (500 - 1500) <= 2 * TRIGGER_MAX_SKEW_SECS
          /\ (lit "body" = lit "body" \/ lit "body" <> lit "body" /\ hex (sum_md5 (lit "body")) = hex (sum_md5 (lit "body"))))
        \/ trigger_string (lit "/apps/1/events") ps <> trigger_string (lit "/apps/1/events") ps'
            /\ sign sum_mac (lit "secret") (trigger_string (lit "/apps/1/events") ps)
                = sign sum_mac (lit "secret") (trigger_string (lit "/apps/1/events") ps')).
Proof.
  do 4 eexists. split; [vm_compute; reflexivity|]. split; [vm_compute; reflexivity|].
  eapply (trigger_signature_binds sum_mac sum_md5 (lit "secret") (lit "/apps/1/events") (Some demo_query) (lit "body") 500
           (lit "/apps/1/events") (Some demo_query') (lit "body") 1500); [by vm_compute|by vm_compute|not_in|not_in|
           vm_compute; reflexivity|vm_compute; reflexivity|reflexivity|].
  apply (bool_decide_unpack (NoDup _)). by vm_compute.
Defined.

Lemma trigger_reaches_subscribers_witness :
  exists inner, (lit "orders", inner) ∈ trigger demo_json demo_print (lit "shipped" ++ [0] ++ lit "orders")
    /\ deliver demo_json demo_print [mkConn [] true; mkConn [] false] (lit "orders") inner = [mkConn [(lit "orders", lit "shipped" ++ [0] ++ lit "orders")] true].
Proof.
  exists (lit "shipped"). split; [left|].
  by apply (trigger_reaches_subscribers demo_json demo_print (lit "shipped" ++ [0] ++ lit "orders")
    (Obj [(lit "name", Str (lit "shipped")); (lit "channel", Str (lit "orders")); (lit "data", Str (lit "d"))])
    (lit "orders") (lit "shipped") [mkConn [] true; mkConn [] false]); [|left|].
Defined.

(** The signature of a channel with a colon is also the signature of the channel before the
    colon, with the rest as its data: the data is appended for private channels too. *)
Lemma signature_of_two_channels hmac secret sid ch cd auth :
  verify_subscription hmac secret sid (ch ++ [58] ++ cd) None auth = verify_subscription hmac secret sid ch (Some cd) auth.
Proof. reflexivity. Qed.

(** The frame that confirms a subscription holds the channel's name as it came: one with a
    quote in it ends the string and goes on with fields of its own. *)
Lemma channel_name_unescaped :
  subscription_succeeded (quoted "x','event':'mine")
  = quoted "{'event':'pusher_internal:subscription_succeeded','channel':'x','event':'mine','data':'{}'}".
Proof. by vm_compute. Qed.
