(* ===== verification/Admin.v ===== *)
(** The access gate of the admin plane ([admin.rs]): who may read the operational data and who may
    roll the fleet.  The documents it answers with are not modelled, only which one it is; a
    reload is the supervisor's. *)

From stdpp Require Import strings.
From S2P Require Import Prelude Bytes Http Trust Cgi CachePolicy.
From S2P Require Statics Pusher PusherSpec Supervisor.

Inductive Endpoint := Dashboard | Healthz | Status | MetricsJson | Prometheus | Errors | Why | Routes | Reload | NotFound.
#[export] Instance Endpoint_eq_dec : EqDecision Endpoint.
Proof. solve_decision. Defined.

(** [Forbidden]: 403 with its text; [Unauthorized]: 401 with [WWW-Authenticate]. *)
Inductive Answer := Forbidden (msg : bytes) | Unauthorized | Answered (e : Endpoint).
#[export] Instance Answer_eq_dec : EqDecision Answer.
Proof. solve_decision. Defined.

Definition path_is_open (path : bytes) : bool :=
  beq path (lit "/") || beq path (lit "/favicon.ico") || beq path (lit "/healthz").

Definition route (method path : bytes) : Endpoint :=
  let get := beq method (lit "GET") in
  if get && beq path (lit "/") then Dashboard
  else if get && beq path (lit "/healthz") then Healthz
  else if get && beq path (lit "/api/status") then Status
  else if get && beq path (lit "/api/metrics") then MetricsJson
  else if get && beq path (lit "/metrics") then Prometheus
  else if get && beq path (lit "/api/errors") then Errors
  else if get && beq path (lit "/api/why") then Why
  else if get && beq path (lit "/api/routes") then Routes
  else if beq method (lit "POST") && beq path (lit "/api/reload") then Reload
  else NotFound.

(** [trim_start_matches(char)], and [rsplit(str).next()]: what follows the last occurrence. *)
Definition trim_start_matches (s b : bytes) : bytes := trim_with (length b) [s] b.
Definition after_last (needle b : bytes) : bytes :=
  match find_sub (reverse needle) (reverse b) with
  | Some i => reverse (take i (reverse b))
  | None => b
  end.

(** [workers_configured] is zero where there is no supervisor. *)
Definition healthz (workers_configured : nat) (w : Supervisor.World) : Z :=
  if (workers_configured =? 0)%nat || (0 <? length (List.filter (Z.ltb 0) (Supervisor.children w)))%nat then 200 else 503.

Section Gate.
Context (to_str : bytes -> option bytes).

Definition listener_name (host : bytes) : bytes :=
  Statics.trim_end_matches [93] (trim_start_matches [91] (host_without_port host)).

(** [hosts]: [ASKR_ADMIN_HOSTS], when it is set. *)
Definition host_names_this_listener (req : Request) (addr : IpAddr) (hosts : option bytes) : bool :=
  if negb (is_loopback addr) then true
  else match hget_str to_str (fields req) (lit "host") with
  | None => false
  | Some host =>
      let name := listener_name host in
      if eq_ignore_ascii_case name (lit "localhost") then true
      else if match parse_ip name with Some ip => is_loopback ip | None => false end then true
      else match hosts with
           | Some allowed =>
               existsb (fun a => negb (beq a []) && eq_ignore_ascii_case a name) (map trim (split_on 44 allowed))
           | None => false
           end
  end.

Definition site_is_ours (site : bytes) : bool :=
  eq_ignore_ascii_case (trim site) (lit "same-origin") || eq_ignore_ascii_case (trim site) (lit "none").
Definition browser_says_cross_site (req : Request) : bool :=
  let get name := hget_str to_str (fields req) (lit name) in
  match get "sec-fetch-site"%string with
  | Some site => negb (site_is_ours site)
  | None => false
  end
  || match get "origin"%string with
     | Some origin => negb (eq_ignore_ascii_case (after_last (lit "//") (trim origin)) (default [] (get "host"%string)))
     | None => false
     end.

Definition bearer_ok (req : Request) (token : bytes) : bool :=
  match hget_str to_str (fields req) (lit "authorization") ≫= strip_prefix (lit "Bearer ") with
  | Some h => Pusher.ct_eq h token
  | None => false
  end.

Definition handle (c : Supervisor.Conf) (now : Z) (addr : IpAddr) (hosts token : option bytes)
    (req : Request) (w : Supervisor.World) : Answer * Supervisor.World :=
  let protected := negb (path_is_open (path req)) in
  if protected && negb (host_names_this_listener req addr hosts)
  then (Forbidden (lit "askr: unexpected Host header for the admin plane"), w)
  else if protected && browser_says_cross_site req then (Forbidden (lit "askr: cross-site request refused"), w)
  else if protected && negb (match token with Some tok => bearer_ok req tok | None => true end) then (Unauthorized, w)
  else
    let e := route (method req) (path req) in
    (Answered e, if bool_decide (e = Reload) then Supervisor.begin_reload c now w else w).

(** ** Who gets through *)

Definition lower : bytes -> bytes := to_ascii_lowercase.

(** The [Host] names the listener: a loopback name, or one the operator listed. *)
Definition named (hosts : option bytes) (host : bytes) : Prop :=
  lower (listener_name host) = lit "localhost"
  \/ (exists ip, parse_ip (listener_name host) = Some ip /\ is_loopback ip = true)
  \/ exists l a, hosts = Some l /\ a ∈ split_on 44 l /\ trim a <> [] /\ lower (trim a) = lower (listener_name host).

(** What a request must show before anything but the shell and the probe answers it. *)
Record cleared (addr : IpAddr) (hosts token : option bytes) (req : Request) : Prop := {
  cleared_host : is_loopback addr = true ->
    exists host, hget_str to_str (fields req) (lit "host") = Some host /\ named hosts host;
  cleared_site site : hget_str to_str (fields req) (lit "sec-fetch-site") = Some site ->
    lower (trim site) = lit "same-origin" \/ lower (trim site) = lit "none";
  cleared_origin origin : hget_str to_str (fields req) (lit "origin") = Some origin ->
    lower (after_last (lit "//") (trim origin)) = lower (default [] (hget_str to_str (fields req) (lit "host")));
  cleared_token tok : token = Some tok ->
    hget_str to_str (fields req) (lit "authorization") = Some (lit "Bearer " ++ tok) }.

Lemma eq_ignore_lower a b : eq_ignore_ascii_case a b = true <-> lower a = lower b.
Proof. apply beq_true. Qed.

Lemma listed l name :
  existsb (fun a => negb (beq a []) && eq_ignore_ascii_case a name) (map trim (split_on 44 l)) = true
  <-> exists a, a ∈ split_on 44 l /\ trim a <> [] /\ lower (trim a) = lower name.
Proof.
  rewrite existsb_exists. split.
  - intros (a & (b & <- & Hb)%in_map_iff & [H1 H2%eq_ignore_lower]%andb_true_iff).
    apply negb_true_iff, bool_decide_eq_false in H1. exists b. by rewrite list_elem_of_In.
  - intros (a & Ha & Hn & Hl). exists (trim a). split; [by apply in_map, list_elem_of_In|].
    apply andb_true_iff. split; [by apply negb_true_iff, bool_decide_eq_false|by apply eq_ignore_lower].
Qed.

Lemma host_named req addr hosts :
  host_names_this_listener req addr hosts = true <->
  (is_loopback addr = true -> exists host, hget_str to_str (fields req) (lit "host") = Some host /\ named hosts host).
Proof.
  unfold host_names_this_listener. destruct (is_loopback addr); cbn [negb]; [|done].
  destruct (hget_str _ _ _) as [host|]; [|split; [done|by intros H; destruct (H eq_refl) as (? & ? & _)]].
  transitivity (named hosts host); [|by split; [intros H _; exists host|intros H; destruct (H eq_refl) as (? & [= <-] & ?)]].
  unfold named. change (lit "localhost") with (lower (lit "localhost")) at 2. rewrite <- eq_ignore_lower.
  destruct (eq_ignore_ascii_case _ _); [by split; [left|]|].
  destruct (parse_ip (listener_name host)) as [ip|]; [destruct (is_loopback ip) eqn:El|].
  - split; [intros _; right; left; by exists ip|done].
  - destruct hosts as [l|]; [rewrite listed|]; split; try done.
    + intros (a & Ha). right. right. by exists l, a.
    + by intros [?|[(? & [= <-] & ?)|(? & a & [= <-] & Ha)]]; [|congruence|exists a].
    + by intros [?|[(? & [= <-] & ?)|(? & a & ? & Ha)]]; [|congruence|].
  - destruct hosts as [l|]; [rewrite listed|]; split; try done.
    + intros (a & Ha). right. right. by exists l, a.
    + by intros [?|[(? & ? & ?)|(? & a & [= <-] & Ha)]]; [| |exists a].
    + by intros [?|[(? & ? & ?)|(? & a & ? & Ha)]].
Qed.

Lemma not_cross_site req :
  browser_says_cross_site req = false <->
  (forall site, hget_str to_str (fields req) (lit "sec-fetch-site") = Some site ->
     lower (trim site) = lit "same-origin" \/ lower (trim site) = lit "none")
  /\ (forall origin, hget_str to_str (fields req) (lit "origin") = Some origin ->
        lower (after_last (lit "//") (trim origin)) = lower (default [] (hget_str to_str (fields req) (lit "host")))).
Proof.
  unfold browser_says_cross_site. rewrite orb_false_iff.
  assert (forall (o : option bytes) (f : bytes -> bool) (P : bytes -> Prop), (forall x, f x = true <-> P x) ->
            match o with Some x => negb (f x) | None => false end = false <-> forall x, o = Some x -> P x) as Hm.
  { intros [x|] f P Hf; [rewrite negb_false_iff, Hf|done]. split; [by intros ? ? [= <-]|by intros H; apply H]. }
  rewrite (Hm _ _ _ (fun x => eq_ignore_lower (after_last (lit "//") (trim x)) _)).
  by rewrite (Hm _ site_is_ours (fun site => lower (trim site) = lit "same-origin" \/ lower (trim site) = lit "none"))
    by (intros x; unfold site_is_ours; by rewrite orb_true_iff, !eq_ignore_lower).
Qed.

Lemma bearer_exact req tok :
  bearer_ok req tok = true <-> hget_str to_str (fields req) (lit "authorization") = Some (lit "Bearer " ++ tok).
Proof.
  unfold bearer_ok. destruct (hget_str _ _ _) as [v|]; cbn [mbind option_bind]; [|done].
  transitivity (strip_prefix (lit "Bearer ") v = Some tok); [|by rewrite strip_prefix_Some; split; congruence].
  destruct (strip_prefix _ v) as [h|]; [|done]. rewrite PusherSpec.ct_eq_true. by split; congruence.
Qed.

Lemma open_route method path : path_is_open path = true -> route method path ∈ [Dashboard; Healthz; NotFound].
Proof.
  unfold path_is_open. intros [[->%beq_true| ->%beq_true]%orb_true_iff| ->%beq_true]%orb_true_iff; unfold route;
    destruct (beq method (lit "GET")), (beq method (lit "POST")); vm_compute; repeat constructor.
Qed.

(** C14.  The gate of the admin plane is exact.  A request is answered if and only if its path is one of
    the three open ones or it shows everything the gate asks for: a [Host] that names a loopback
    listener, nothing from the browser that says another site, the exact bearer token where one is
    configured.  The open paths reach only the shell, the probe or nothing; and the fleet is
    rolled exactly by an answered [POST /api/reload]. *)
Theorem admin_gate_exact c now addr hosts token req w :
  let r := handle c now addr hosts token req w in
  ((exists e, r.1 = Answered e) <-> path_is_open (path req) = true \/ cleared addr hosts token req)
  /\ (forall e, r.1 = Answered e -> e = route (method req) (path req)
       /\ (path_is_open (path req) = true -> e ∈ [Dashboard; Healthz; NotFound]))
  /\ r.2 = (if decide (r.1 = Answered Reload) then Supervisor.begin_reload c now w else w).
Proof.
  intros r. unfold handle in r.
  pose proof (host_named req addr hosts) as Hh. pose proof (not_cross_site req) as Hs.
  pose proof (open_route (method req) (path req)) as Ho.
  destruct (path_is_open (path req)) eqn:Ep; cbn [negb andb] in r.
  { subst r. cbn [fst snd]. split; [naive_solver|]. split; [by intros e [= <-]|].
    by repeat case_decide; case_bool_decide; congruence. }
  assert (match token with Some tok => bearer_ok req tok | None => true end = true <->
          forall tok, token = Some tok -> hget_str to_str (fields req) (lit "authorization") = Some (lit "Bearer " ++ tok)) as Ht.
  { destruct token as [tok|]; [|done]. rewrite bearer_exact. by split; [intros ? ? [= <-]|intros H; apply H]. }
  assert (cleared addr hosts token req <-> host_names_this_listener req addr hosts = true
            /\ browser_says_cross_site req = false /\ match token with Some tok => bearer_ok req tok | None => true end = true) as Hc.
  { rewrite Hh, Hs, Ht. split; [intros []|intros (? & [? ?] & ?); split]; eauto. }
  rewrite Hc. destruct (host_names_this_listener req addr hosts), (browser_says_cross_site req),
    (match token with Some tok => bearer_ok req tok | None => true end); subst r; cbn [negb andb fst snd].
  all: (split; [naive_solver|]); (split; [by intros e [=]|]); repeat case_decide; try case_bool_decide; congruence.
Qed.
End Gate.

(** ** The requests of the source's tests *)

Definition admin_request (method path : bytes) (fields : headers) : Request := mkRequest method path None None fields.
Definition from_host (host : bytes) : Request := admin_request (lit "GET") (lit "/api/status") [(lit "host", host)].
Definition local_bind : IpAddr := V4 [127; 0; 0; 1].

Example rebound_host_refused :
  map (fun h => host_names_this_listener Some (from_host h) local_bind None)
    [lit "127.0.0.1:9000"; lit "localhost:9000"; lit "localhost"; lit "[::1]:9000"; lit "evil.test:9000"; lit "192.168.1.10:9000"]
  = [true; true; true; true; false; false]
  /\ host_names_this_listener Some (admin_request (lit "GET") (lit "/api/status") []) local_bind None = false
  /\ host_names_this_listener Some (from_host (lit "admin.internal")) (V4 [10; 0; 0; 5]) None = true.
Proof. by vm_compute. Qed.

Example cross_site_refused :
  let at_host fs := admin_request (lit "POST") (lit "/api/reload") ((lit "host", lit "127.0.0.1:9000") :: fs) in
  map (browser_says_cross_site Some)
    [admin_request (lit "POST") (lit "/api/reload") []; at_host [(lit "sec-fetch-site", lit "cross-site")];
     at_host [(lit "origin", lit "https://evil.test")]; at_host [(lit "origin", lit "null")];
     at_host [(lit "sec-fetch-site", lit "same-origin"); (lit "origin", lit "http://127.0.0.1:9000")]]
  = [false; true; true; true; false].
Proof. by vm_compute. Qed.
