(* ===== verification/Oracle.v ===== *)
(** The cache oracle ([oracle.rs]): the traffic log's lines, the shape of a path, the simulation
    of one cache rule over the log, and the rules the report suggests.

    What a report prints is not modelled, but for the rules it tells the operator to paste. *)

From stdpp Require Import gmap strings sorting.
From S2P Require Import Prelude Bytes Http.

Record Sample := mkSample {
  ts_ms : Z; method : bytes; host : bytes; path : bytes; query : bytes;
  cookie : bool; set_cookie : bool; status : Z; nbytes : Z; php_us : Z; body_hash : Z; opted_in : bool }.

(** ** A line of the log *)

Definition esc_char (c : Z) : bytes :=
  if c =? 34 then [92; 34] else if c =? 92 then [92; 92] else if c <? 32 then [32] else [c].
Definition esc (s : bytes) : bytes := concat (map esc_char s).

Definition key (k : string) : bytes := 34 :: lit k ++ [34; 58].
Definition show_bool (b : bool) : bytes := if b then lit "true" else lit "false".
Definition to_line (s : Sample) : bytes :=
  lit "{" ++ key "t" ++ to_digits (ts_ms s) ++ lit "," ++ key "m" ++ [34] ++ esc (method s) ++ [34]
  ++ lit "," ++ key "h" ++ [34] ++ esc (host s) ++ [34] ++ lit "," ++ key "p" ++ [34] ++ esc (path s) ++ [34]
  ++ lit "," ++ key "q" ++ [34] ++ esc (query s) ++ [34] ++ lit "," ++ key "c" ++ show_bool (cookie s)
  ++ lit "," ++ key "sc" ++ show_bool (set_cookie s) ++ lit "," ++ key "s" ++ to_digits (status s)
  ++ lit "," ++ key "b" ++ to_digits (nbytes s) ++ lit "," ++ key "u" ++ to_digits (php_us s)
  ++ lit "," ++ key "x" ++ to_digits (body_hash s) ++ lit "," ++ key "o" ++ show_bool (opted_in s) ++ lit "}".

(** What follows the first occurrence of the key. *)
Definition field (line key : bytes) : option bytes :=
  (fun i => drop (i + length key) line) <$> find_sub key line.
Fixpoint until_comma (b : bytes) : option bytes :=
  match b with
  | [] => None
  | c :: b => if (c =? 44) || (c =? 125) then Some [] else cons c <$> until_comma b
  end.
Definition num (line key : bytes) : option Z := (field line key ≫= until_comma) ≫= (fun d => parse_u64 (trim d)).
Definition boolean (line key : bytes) : option bool := (fun rest => starts_with rest (lit "true")) <$> field line key.
Fixpoint unquote (out b : bytes) : option bytes :=
  match b with
  | [] => None
  | 92 :: b => match b with c :: b => unquote (out ++ [c]) b | [] => None end
  | 34 :: _ => Some out
  | c :: b => unquote (out ++ [c]) b
  end.
Definition string_at (line key : bytes) : option bytes := (field line key ≫= strip_prefix [34]) ≫= unquote [].

Definition from_line (line : bytes) : option Sample :=
  t ← num line (key "t"); m ← string_at line (key "m"); h ← string_at line (key "h"); p ← string_at line (key "p");
  let q := default [] (string_at line (key "q")) in
  c ← boolean line (key "c"); sc ← boolean line (key "sc"); s ← num line (key "s"); b ← num line (key "b");
  u ← num line (key "u"); x ← num line (key "x"); o ← boolean line (key "o");
  Some (mkSample t m h p q c sc (s mod 2 ^ 16) b u x o).

(** ** Shapes of paths *)

Definition is_ascii_hexdigit (c : Z) : bool := is_ascii_digit c || between 97 102 c || between 65 70 c.
Definition is_identifier (seg : bytes) : bool :=
  forallb is_ascii_digit seg && negb (beq seg [])
  || (16 <=? length seg)%nat && forallb (fun c => is_ascii_hexdigit c || (c =? 45) || (c =? 95)) seg
  || (24 <=? length seg)%nat && existsb is_ascii_digit seg.
Definition shape_of (seg : bytes) : bytes :=
  if beq seg [] then [] else 47 :: (if is_identifier seg then [42] else seg).
Definition path_pattern (p : bytes) : bytes :=
  let out := concat (map shape_of (split_on 47 p)) in if beq out [] then [47] else out.

(** ** One rule over the log *)

Record Verdict := mkVerdict {
  pattern : bytes; ttl : Z; requests : nat; eligible : nat; hits : nat; php_us_saved : Z;
  with_cookies : nat; v_set_cookie : nat; divergent : nat; already_opted_in : bool }.
Definition start (pat : bytes) (ttl : Z) : Verdict := mkVerdict pat ttl 0 0 0 0 0 0 0 false.

Definition cacheable (s : Sample) : bool := (beq (method s) (lit "GET") || beq (method s) (lit "HEAD")) && (status s =? 200).
Definition sample_key (s : Sample) : bytes := method s ++ [32] ++ host s ++ [32] ++ path s ++ [63] ++ query s.
Definition note_request (v : Verdict) (s : Sample) : Verdict :=
  mkVerdict (pattern v) (ttl v) (S (requests v)) (eligible v) (hits v) (php_us_saved v)
    (if cookie s then S (with_cookies v) else with_cookies v)
    (if set_cookie s then S (v_set_cookie v) else v_set_cookie v) (divergent v) (already_opted_in v || opted_in s).
Definition note_eligible (v : Verdict) : Verdict :=
  mkVerdict (pattern v) (ttl v) (requests v) (S (eligible v)) (hits v) (php_us_saved v) (with_cookies v) (v_set_cookie v)
    (divergent v) (already_opted_in v).
Definition note_hit (v : Verdict) (us : Z) (diverges : bool) : Verdict :=
  mkVerdict (pattern v) (ttl v) (requests v) (eligible v) (S (hits v)) (wrap64 (php_us_saved v + us)) (with_cookies v)
    (v_set_cookie v) (if diverges then S (divergent v) else divergent v) (already_opted_in v).

(** When a key's body was stored, and its hash. *)
Abbreviation Store := (gmap bytes (Z * Z)).
Definition fresh (ttl : Z) (s : Sample) (stored_at : Z) : bool := Z.max 0 (ts_ms s - stored_at) <=? wrap64 (ttl * 1000).
Definition simulate_step (vs : Verdict * Store) (s : Sample) : Verdict * Store :=
  let '(v, store) := vs in
  if negb (beq (path_pattern (path s)) (pattern v)) then (v, store)
  else
    let v := note_request v s in
    if negb (cacheable s) then (v, store)
    else
      let v := note_eligible v in
      match store !! sample_key s with
      | Some (stored_at, hash) =>
          if fresh (ttl v) s stored_at then (note_hit v (php_us s) (negb (hash =? body_hash s)), store)
          else (v, <[sample_key s := (ts_ms s, body_hash s)]> store)
      | None => (v, <[sample_key s := (ts_ms s, body_hash s)]> store)
      end.
Definition simulate (samples : list Sample) (pat : bytes) (ttl : Z) : Verdict :=
  (foldl simulate_step (start pat ttl, ∅) samples).1.

(** The safety note, by what it rests on. *)
Inductive Risk := Differed (n : nat) | SetsCookie (n : nat) | SomeCookies | SameForAll.
Definition risk (v : Verdict) : Risk :=
  if (0 <? divergent v)%nat then Differed (divergent v)
  else if (0 <? v_set_cookie v)%nat then SetsCookie (v_set_cookie v)
  else if (0 <? with_cookies v)%nat then SomeCookies
  else SameForAll.

(** ** The report *)

Definition by_saving (v w : Verdict) : comparison := php_us_saved w ?= php_us_saved v.
Definition load (lines : list bytes) : list Sample := sort_by (fun a b => ts_ms a ?= ts_ms b) (omap from_line lines).
(** The TTL of the list that saves most, the first of equals. *)
Definition best_ttl (samples : list Sample) (ttls : list Z) (p : bytes) : option Verdict :=
  match sort_by by_saving (map (simulate samples p) ttls) with
  | v :: _ => if (0 <? eligible v)%nat then Some v else None
  | [] => None
  end.
Definition best (samples : list Sample) (ttls : list Z) : list Verdict :=
  sort_by by_saving (omap (best_ttl samples ttls) (dedup (sort_bytes (map (fun s => path_pattern (path s)) samples)))).
(** The rules the operator is told to paste. *)
Definition paste (samples : list Sample) (ttls : list Z) (top : nat) : list (bytes * Z) :=
  map (fun v => (pattern v, ttl v))
    (take top (List.filter (fun v => (divergent v =? 0)%nat && (v_set_cookie v =? 0)%nat && (0 <? hits v)%nat
                                     && negb (already_opted_in v)) (best samples ttls))).
