(* ===== verification/OracleSpec.v ===== *)
(** What the oracle promises: a line of the log reads back as the sample it was written from; a
    rule found safe would have served every visitor the bytes the application made. *)

From stdpp Require Import gmap strings sorting.
From S2P Require Import Prelude Bytes Http Oracle.

(** ** Reading a line back *)

Lemma starts_with_false b p : strip_prefix p b = None -> starts_with b p = false.
Proof. intros H. unfold starts_with. by rewrite H. Qed.

Lemma starts_with_cons x b y p : starts_with (x :: b) (y :: p) = (y =? x) && starts_with b p.
Proof. unfold starts_with. cbn [strip_prefix]. by destruct (y =? x). Qed.

Lemma field_skip c b k : starts_with (c :: b) k = false -> field (c :: b) k = field b k.
Proof. intros H. unfold field. cbn [find_sub]. rewrite H. by destruct (find_sub k b). Qed.

Lemma field_hit k b : field (k ++ b) k = Some b.
Proof.
  assert (find_sub k (k ++ b) = Some 0%nat) as Hf.
  { assert (starts_with (k ++ b) k = true) as H by (apply starts_with_true; by exists b).
    destruct (k ++ b); cbn [find_sub]; by rewrite H. }
  unfold field. rewrite Hf. cbn [fmap option_fmap option_map]. by rewrite Nat.add_0_l, drop_app_length.
Qed.

(** The names of keys: some letters. *)
Definition name_ok (k : string) : Prop := Forall (fun c => c <> 34 /\ c <> 92 /\ c <> 44 /\ c <> 58) (lit k) /\ lit k <> [].

(** The keys of a line, each written once. *)
Definition KEYS : list string := ["t"; "m"; "h"; "p"; "q"; "c"; "sc"; "s"; "b"; "u"; "x"; "o"]%string.
Lemma KEYS_ok k : k ∈ KEYS -> name_ok k.
Proof.
  intros Hk. repeat (apply elem_of_cons in Hk as [->|Hk]); [..|by apply elem_of_nil in Hk].
  all: by split; [repeat constructor|].
Qed.

Section Fields.
Context (k : string) (Hk : name_ok k).

Lemma field_plain seg b : 34 ∉ seg -> field (seg ++ b) (key k) = field b (key k).
Proof.
  intros Hs. induction seg as [|c seg IH]; [done|]. apply not_elem_of_cons in Hs as [Hc Hs]. cbn [app].
  rewrite field_skip; [by apply IH|]. unfold key. rewrite starts_with_cons. by apply Z.eqb_neq in Hc as ->.
Qed.

(** A quote before a byte that no name begins with. *)
Lemma field_quote c b : c = 44 \/ c = 58 -> field (34 :: c :: b) (key k) = field (c :: b) (key k).
Proof.
  intros Hc. apply field_skip. unfold key. rewrite starts_with_cons. destruct Hk as [Hf Hn].
  destruct (lit k) as [|a r]; [done|]. apply Forall_cons in Hf as [(Ha & Hb & Hd & He) _]. cbn [app].
  rewrite starts_with_cons. by replace (a =? c) with false by (symmetry; apply Z.eqb_neq; naive_solver).
Qed.

(** Text that has been escaped does not go on as a name, a quote and a colon. *)
Lemma esc_no_name (x r n : bytes) :
  Forall (fun c => c <> 34 /\ c <> 92 /\ c <> 44 /\ c <> 58) n ->
  starts_with (esc x ++ 34 :: 44 :: r) (n ++ [34; 58]) = false.
Proof.
  revert n. induction x as [|c x IH]; intros n Hn.
  - unfold esc; destruct n as [|a n]; cbn [map concat app]; rewrite starts_with_cons; [done|].
    apply Forall_cons in Hn as [(Ha & _) _]. by apply Z.eqb_neq in Ha as ->.
  - unfold esc. cbn [map concat]. fold (esc x). rewrite <- app_assoc. unfold esc_char.
    destruct n as [|a n]; cbn [app].
    + repeat case_bool; zbool; subst; cbn [app]; rewrite starts_with_cons; try done.
      by destruct (34 =? c) eqn:E; [zbool; congruence|].
    + apply Forall_cons in Hn as [(H1 & H2 & H3 & H4) Hn].
      repeat case_bool; zbool; subst; cbn [app]; rewrite starts_with_cons; try (by apply Z.eqb_neq in H2 as ->).
      all: rewrite (IH n) by done; by rewrite andb_false_r.
Qed.

Lemma field_esc x b : field (esc x ++ 34 :: 44 :: b) (key k) = field (44 :: b) (key k).
Proof.
  destruct Hk as [Hf Hn]. induction x as [|c x IH]; [by apply field_quote; left|].
  unfold esc. cbn [map concat]. fold (esc x). rewrite <- app_assoc. rewrite <- IH. unfold esc_char.
  repeat case_bool; zbool; subst; cbn [app].
  - rewrite !field_skip; [done| |]; unfold key; rewrite starts_with_cons; [|done]. cbn [Z.eqb Pos.eqb andb].
    by apply esc_no_name.
  - rewrite !field_skip; [done| |]; unfold key; by rewrite starts_with_cons.
  - rewrite field_skip; [done|]. unfold key. by rewrite starts_with_cons.
  - rewrite field_skip; [done|]. unfold key. rewrite starts_with_cons.
    by destruct (34 =? c) eqn:E; [zbool; congruence|].
Qed.

Lemma field_string x b : field ([34] ++ esc x ++ [34] ++ lit "," ++ b) (key k) = field b (key k).
Proof.
  destruct Hk as [Hf Hn]. change (lit ",") with [44]. cbn [app]. rewrite field_skip.
  - rewrite field_esc. apply (field_plain [44]). not_in.
  - unfold key. rewrite starts_with_cons. cbn [Z.eqb Pos.eqb andb]. by apply esc_no_name.
Qed.

Lemma field_key j b : name_ok j -> lit j <> lit k -> field (key j ++ b) (key k) = field b (key k).
Proof.
  intros [Hj _] Hjk. destruct Hk as [Hf _]. unfold key at 1. cbn [app]. rewrite field_skip.
  - rewrite <- app_assoc, field_plain; [|by intros Hi; rewrite Forall_forall in Hj; apply Hj in Hi as [? _]].
    cbn [app]. rewrite field_quote by auto. apply (field_plain [58]). not_in.
  - unfold key. rewrite starts_with_cons. cbn [Z.eqb Pos.eqb andb]. rewrite <- app_assoc. cbn [app].
    apply not_true_is_false. intros (r & E)%starts_with_true. rewrite <- app_assoc in E. cbn [app] in E.
    apply Hjk. apply (f_equal (split_on 34)) in E.
    assert (forall n, Forall (fun c => c <> 34 /\ c <> 92 /\ c <> 44 /\ c <> 58) n -> 34 ∉ n) as Hq.
    { intros n Hn Hi. rewrite Forall_forall in Hn. by apply Hn in Hi as [? _]. }
    rewrite !split_on_app in E by auto. by simplify_eq.
Qed.
End Fields.

Lemma until_comma_app d b : 44 ∉ d -> 125 ∉ d -> until_comma (d ++ 44 :: b) = Some d.
Proof.
  intros H1 H2. induction d as [|c d IH]; [done|]. apply not_elem_of_cons in H1 as [Hc H1], H2 as [Hc' H2].
  cbn [app until_comma]. apply not_eq_sym, Z.eqb_neq in Hc as ->. apply not_eq_sym, Z.eqb_neq in Hc' as ->. cbn [orb].
  by rewrite IH.
Qed.

Lemma num_at line k n b :
  0 <= n <= u64_max -> field line k = Some (to_digits n ++ lit "," ++ b) -> num line k = Some n.
Proof.
  intros Hn Hf. unfold num. rewrite Hf. cbn [mbind option_bind]. change (lit "," ++ b) with (44 :: b).
  rewrite until_comma_app by (apply to_digits_free; [lia|done]). cbn [mbind option_bind].
  rewrite trim_graphic by (by apply digits_acc_graphic). unfold parse_u64, parse_unsigned.
  destruct (to_digits_head n) as (c & r & E & Hc). pose proof (parse_to_digits n Hn) as Hp. rewrite E in Hp |- *.
  assert (in_range 0 u64_max (parse_nonempty (c :: r)) = Some n) as Hr.
  { rewrite Hp. unfold in_range. by replace ((0 <=? n) && (n <=? u64_max)) with true by lia. }
  rewrite <- Hr. destruct (Z.eq_dec c 43) as [->|Hd]; [done|].
  destruct c as [|p|p]; try done. do 6 (destruct p as [p|p|]; try done).
Qed.

(** What the writer keeps of a text: control characters become spaces. *)
Definition blank (s : bytes) : bytes := (fun c => if c <? 32 then 32 else c) <$> s.

Lemma unquote_esc x out r : unquote out (esc x ++ 34 :: r) = Some (out ++ blank x).
Proof.
  revert out. induction x as [|c x IH]; intros out; [unfold esc, blank; cbn; by rewrite app_nil_r|].
  unfold esc, blank. cbn [map concat fmap list_fmap]. fold (esc x) (blank x). rewrite <- app_assoc.
  replace (out ++ (if c <? 32 then 32 else c) :: blank x) with ((out ++ [if c <? 32 then 32 else c]) ++ blank x)
    by (by rewrite <- app_assoc).
  rewrite <- IH. unfold esc_char.
  destruct (Z.eqb_spec c 34) as [->|H1]; [done|]. destruct (Z.eqb_spec c 92) as [->|H2]; [done|].
  destruct (c <? 32) eqn:E; [done|]. zbool. cbn [app unquote].
  destruct c as [|p|p]; try done. do 7 (destruct p as [p|p|]; try done).
Qed.

Lemma string_at_spec line k x b : field line k = Some ([34] ++ esc x ++ [34] ++ b) -> string_at line k = Some (blank x).
Proof.
  intros Hf. unfold string_at. rewrite Hf. cbn [mbind option_bind app strip_prefix Z.eqb Pos.eqb].
  by apply (unquote_esc x []).
Qed.

Lemma boolean_at line k x b : field line k = Some (show_bool x ++ b) -> boolean line k = Some x.
Proof. intros Hf. unfold boolean. rewrite Hf. by destruct x. Qed.

Definition sample_ok (s : Sample) : Prop :=
  is_u64 (ts_ms s) /\ 0 <= status s < 2 ^ 16 /\ is_u64 (nbytes s) /\ is_u64 (php_us s) /\ is_u64 (body_hash s).

(** Find a key in a line: over what comes before it. *)
Ltac not_quote :=
  lazymatch goal with
  | |- _ ∉ to_digits _ => apply to_digits_free; [lia|reflexivity]
  | |- _ ∉ show_bool ?b => destruct b; not_in
  | |- _ => not_in
  end.
Ltac name_side := apply KEYS_ok, (bool_decide_unpack (_ ∈ KEYS)); vm_compute; exact I.
Ltac seek :=
  lazymatch goal with
  | |- field (key ?k ++ _) (key ?k) = _ => apply field_hit
  | |- field (key _ ++ _) _ = _ => refine (eq_trans (field_key _ _ _ _ _ _) _); [name_side|name_side|discriminate|seek]
  | |- field ([34] ++ _) _ = _ => refine (eq_trans (field_string _ _ _ _) _); [name_side|seek]
  | |- field _ _ = _ => refine (eq_trans (field_plain _ _ _ _) _); [not_quote|seek]
  end.

(** A line of the traffic log reads back as the sample it was written from, whatever quotes,
    backslashes and braces its texts hold; control characters come back as spaces. *)
Theorem sample_roundtrip s :
  sample_ok s ->
  from_line (to_line s)
  = Some (mkSample (ts_ms s) (blank (method s)) (blank (host s)) (blank (path s)) (blank (query s)) (cookie s) (set_cookie s)
            (status s) (nbytes s) (php_us s) (body_hash s) (opted_in s)).
Proof.
  intros (Ht & Hs & Hb & Hu & Hx). unfold is_u64, W64 in *.
  assert (u64_max = 2 ^ 64 - 1) as Hm by done.
  unfold from_line, to_line.
  erewrite (num_at _ (key "t") (ts_ms s)) by (first [lia|seek]). cbn [mbind option_bind].
  erewrite (string_at_spec _ (key "m") (method s)) by seek. cbn [mbind option_bind].
  erewrite (string_at_spec _ (key "h") (host s)) by seek. cbn [mbind option_bind].
  erewrite (string_at_spec _ (key "p") (path s)) by seek. cbn [mbind option_bind].
  erewrite (string_at_spec _ (key "q") (query s)) by seek. cbn [default].
  erewrite (boolean_at _ (key "c") (cookie s)) by seek. cbn [mbind option_bind].
  erewrite (boolean_at _ (key "sc") (set_cookie s)) by seek. cbn [mbind option_bind].
  erewrite (num_at _ (key "s") (status s)) by (first [lia|seek]). cbn [mbind option_bind].
  erewrite (num_at _ (key "b") (nbytes s)) by (first [lia|seek]). cbn [mbind option_bind].
  erewrite (num_at _ (key "u") (php_us s)) by (first [lia|seek]). cbn [mbind option_bind].
  erewrite (num_at _ (key "x") (body_hash s)) by (first [lia|seek]). cbn [mbind option_bind].
  erewrite (boolean_at _ (key "o") (opted_in s)) by seek. cbn [mbind option_bind].
  by rewrite Z.mod_small.
Qed.

(** ** What a simulated rule would have served *)

Section Rule.
Context (pat : bytes) (life : Z).

Definition rule_applies (s : Sample) : bool := beq (path_pattern (path s)) pat && cacheable s.

(** The copy a cache with the rule holds of a key, after the requests of [past], the last one
    first: the first body made since the last copy expired. *)
Fixpoint copy_of (past : list Sample) (k : bytes) : option (Z * Z) :=
  match past with
  | [] => None
  | s :: past =>
      if rule_applies s && beq (sample_key s) k then
        match copy_of past k with
        | Some (t, h) => if fresh life s t then Some (t, h) else Some (ts_ms s, body_hash s)
        | None => Some (ts_ms s, body_hash s)
        end
      else copy_of past k
  end.

(** The copy was made by an earlier request with the key. *)
Lemma copy_made past k t h : copy_of past k = Some (t, h) ->
  exists s, s ∈ past /\ rule_applies s = true /\ sample_key s = k /\ ts_ms s = t /\ body_hash s = h.
Proof.
  induction past as [|s past IH]; cbn [copy_of]; [done|]. intros H.
  assert (copy_of past k = Some (t, h) \/ rule_applies s && beq (sample_key s) k = true /\ (ts_ms s, body_hash s) = (t, h)) as [Hc|[Hs [= <- <-]]].
  { destruct (_ && _); [|by left]. destruct (copy_of past k) as [[t0 h0]|]; [destruct (fresh life s t0); [by left|]|]; by right; simplify_eq. }
  - destruct (IH Hc) as (s0 & ? & ?). exists s0. split; [by right|done].
  - apply andb_true_iff in Hs as [? ?%beq_true]. exists s. by split_and!; [left|..].
Qed.

(** One request against the rule: what it leaves, and what it adds to the counters. *)
Lemma step_store v store s :
  pattern v = pat -> ttl v = life ->
  pattern (simulate_step (v, store) s).1 = pat /\ ttl (simulate_step (v, store) s).1 = life
  /\ forall k, (simulate_step (v, store) s).2 !! k
     = if rule_applies s && beq (sample_key s) k then
         match store !! k with
         | Some (t, h) => if fresh life s t then Some (t, h) else Some (ts_ms s, body_hash s)
         | None => Some (ts_ms s, body_hash s)
         end
       else store !! k.
Proof.
  intros Hp Ht. unfold simulate_step, rule_applies. rewrite Hp.
  destruct (beq (path_pattern (path s)) pat), (cacheable s); cbn [negb andb ttl note_request note_eligible]; rewrite ?Ht; try done.
  assert (forall k, <[sample_key s := (ts_ms s, body_hash s)]> store !! k
            = if beq (sample_key s) k then Some (ts_ms s, body_hash s) else store !! k) as Hi.
  { intros k. destruct (beq (sample_key s) k) eqn:Ek; [apply beq_true in Ek as <-; by rewrite lookup_insert_eq|].
    rewrite lookup_insert_ne; [done|]. intros E. by rewrite (proj2 (beq_true _ _) E) in Ek. }
  destruct (store !! sample_key s) as [[t h]|] eqn:Es; [destruct (fresh life s t) eqn:Ef|]; (split_and!; [done..|]);
    intros k; cbn [snd]; rewrite ?Hi; (destruct (beq (sample_key s) k) eqn:Ek; [|done]); apply beq_true in Ek as <-;
    by rewrite Es, ?Ef.
Qed.

Lemma step_counts v store s :
  pattern v = pat -> ttl v = life ->
  let v' := (simulate_step (v, store) s).1 in
  (divergent v <= divergent v')%nat /\ (v_set_cookie v <= v_set_cookie v')%nat
  /\ (path_pattern (path s) = pat -> set_cookie s = true -> (v_set_cookie v < v_set_cookie v')%nat)
  /\ (forall t h, rule_applies s = true -> store !! sample_key s = Some (t, h) -> fresh life s t = true -> h <> body_hash s ->
        (divergent v < divergent v')%nat).
Proof.
  intros Hp Ht. unfold simulate_step, rule_applies. rewrite Hp.
  destruct (beq (path_pattern (path s)) pat) eqn:Ep; cbn [negb andb].
  2: { split_and!; try done. intros E%beq_true. congruence. }
  destruct (cacheable s); cbn [negb ttl note_request note_eligible]; rewrite ?Ht;
    [destruct (store !! sample_key s) as [[t h]|]; [destruct (fresh life s t) eqn:Ef|]|]; cbn;
    (split_and!; [repeat case_bool; lia|destruct (set_cookie s); lia|intros _ ->; lia|]); try done.
  - intros t0 h0 _ [= <- <-] _ Hh. apply Z.eqb_neq in Hh as ->. cbn. lia.
  - intros t0 h0 _ [= <- <-] Hf. congruence.
Qed.

Abbreviation run := (foldl simulate_step (start pat life, ∅)).

Lemma run_store pre :
  pattern (run pre).1 = pat /\ ttl (run pre).1 = life /\ forall k, (run pre).2 !! k = copy_of (reverse pre) k.
Proof.
  induction pre as [|s pre IH] using rev_ind; [by split_and!|]. rewrite foldl_snoc, reverse_snoc. cbn [copy_of].
  destruct (run pre) as [v st]. cbn [fst snd] in IH. destruct IH as (Hp & Ht & Hs).
  destruct (step_store v st s Hp Ht) as (H1 & H2 & H3). split_and!; [done..|]. intros k. by rewrite H3, Hs.
Qed.

Lemma run_mono pre post :
  (divergent (run pre).1 <= divergent (run (pre ++ post)).1)%nat
  /\ (v_set_cookie (run pre).1 <= v_set_cookie (run (pre ++ post)).1)%nat.
Proof.
  induction post as [|s post IH] using rev_ind; [by rewrite app_nil_r|]. rewrite app_assoc, foldl_snoc.
  destruct (run_store (pre ++ post)) as (Hp & Ht & _). destruct (run (pre ++ post)) as [v st].
  destruct (step_counts v st s Hp Ht) as (H1 & H2 & _). cbn [fst] in *. lia.
Qed.

(** A rule without a divergent response serves right. *)
Lemma served_right samples pre s post t h :
  samples = pre ++ s :: post -> divergent (simulate samples pat life) = 0%nat ->
  rule_applies s = true -> copy_of (reverse pre) (sample_key s) = Some (t, h) -> fresh life s t = true -> h = body_hash s.
Proof.
  intros -> Hd Hr Hc Hf. destruct (decide (h = body_hash s)) as [|Hne]; [done|exfalso].
  destruct (run_store pre) as (Hp & Ht & Hs). rewrite <- Hs in Hc.
  pose proof (run_mono (pre ++ [s]) post) as [Hm _]. rewrite <- app_assoc, foldl_snoc in Hm. cbn [app] in Hm.
  destruct (run pre) as [v st]. destruct (step_counts v st s Hp Ht) as (_ & _ & _ & H).
  specialize (H t h Hr Hc Hf Hne). unfold simulate in Hd. lia.
Qed.

Lemma no_cookie_set samples s :
  v_set_cookie (simulate samples pat life) = 0%nat -> s ∈ samples -> path_pattern (path s) = pat -> set_cookie s = false.
Proof.
  intros Hd (pre & post & ->)%list_elem_of_split Hp. apply not_true_is_false. intros Hc.
  destruct (run_store pre) as (H1 & H2 & _).
  pose proof (run_mono (pre ++ [s]) post) as [_ Hm]. rewrite <- app_assoc, foldl_snoc in Hm. cbn [app] in Hm.
  destruct (run pre) as [v st]. destruct (step_counts v st s H1 H2) as (_ & _ & H & _).
  specialize (H Hp Hc). unfold simulate in Hd. lia.
Qed.
End Rule.

Lemma simulate_pattern samples pat life : pattern (simulate samples pat life) = pat /\ ttl (simulate samples pat life) = life.
Proof. by destruct (run_store pat life samples) as (? & ? & _). Qed.

Lemma dedup_subset l : dedup l ⊆ l.
Proof.
  induction l as [|x [|y l] IH]; [done|done|]. cbn [dedup]. destruct (beq x y); intros z.
  - intros Hz%IH. by right.
  - intros [->|Hz]%elem_of_cons; [left|right; by apply IH].
Qed.

Lemma best_simulates samples ttls v :
  v ∈ best samples ttls ->
  exists pat life, v = simulate samples pat life /\ life ∈ ttls /\ exists s, s ∈ samples /\ path_pattern (path s) = pat.
Proof.
  unfold best. rewrite sort_by_Permutation. intros (pat & Hp & Hv)%list_elem_of_omap.
  apply dedup_subset in Hp. unfold sort_bytes in Hp. rewrite sort_by_Permutation in Hp.
  apply list_elem_of_fmap in Hp as (s & -> & Hs). unfold best_ttl in Hv.
  destruct (sort_by by_saving (map (simulate samples (path_pattern (path s))) ttls)) as [|w ws] eqn:E; [done|].
  case_match; [|done]. simplify_eq. assert (v ∈ v :: ws) as Hin by left.
  rewrite <- E, sort_by_Permutation in Hin. apply list_elem_of_fmap in Hin as (life & -> & Hl). eauto 10.
Qed.

(** A rule the report tells the operator to paste is safe on the traffic it saw: it is for a
    shape of path that occurs and a TTL that was asked for, no response of that shape set a
    cookie, and whenever a cache with the rule would have answered from its copy, the visitor
    would have got the body the application made for that very request. *)
Theorem pasted_rules_safe samples ttls top pat life :
  (pat, life) ∈ paste samples ttls top ->
  life ∈ ttls
  /\ (exists s, s ∈ samples /\ path_pattern (path s) = pat)
  /\ (forall s, s ∈ samples -> path_pattern (path s) = pat -> set_cookie s = false)
  /\ (forall pre s post t h, samples = pre ++ s :: post -> rule_applies pat s = true ->
        copy_of pat life (reverse pre) (sample_key s) = Some (t, h) -> fresh life s t = true -> h = body_hash s).
Proof.
  intros (v & [= -> ->] & Hv)%list_elem_of_fmap. apply (subseteq_take top) in Hv.
  apply list_elem_of_In, filter_In in Hv as [Hv Hs]. apply list_elem_of_In in Hv.
  apply andb_true_iff in Hs as [[[Hd%Nat.eqb_eq Hc%Nat.eqb_eq]%andb_true_iff _]%andb_true_iff _].
  destruct (best_simulates samples ttls v Hv) as (p & l & -> & Hl & Hs). destruct (simulate_pattern samples p l) as [-> ->].
  split_and!; [done..| |].
  - intros s. by apply (no_cookie_set p l).
  - intros pre s post t h E. by apply (served_right p l samples pre s post t h).
Qed.

(** ** Shapes *)

Lemma split_on_slashes l : l <> [] -> Forall (fun p => 47 ∉ p) l -> split_on 47 (concat (map (cons 47) l)) = [] :: l.
Proof.
  intros Hn Hf. destruct l as [|p l]; [done|]. clear Hn. cbn [map concat app split_on Z.eqb Pos.eqb]. f_equal.
  revert p Hf. induction l as [|q l IH]; intros p [Hp Hf]%Forall_cons; cbn [map concat].
  - rewrite app_nil_r. by apply split_on_none.
  - cbn [app]. rewrite split_on_app by done. f_equal. by apply IH.
Qed.

Definition segment (seg : bytes) : bytes := if is_identifier seg then [42] else seg.
Lemma segment_idem seg : segment (segment seg) = segment seg.
Proof. unfold segment. destruct (is_identifier seg) eqn:E; [done|by rewrite E]. Qed.

Lemma path_pattern_segments p :
  path_pattern p = match List.filter (fun s => negb (beq s [])) (split_on 47 p) with
                   | [] => [47]
                   | l => concat (map (cons 47) (map segment l))
                   end.
Proof.
  assert (forall l, concat (map shape_of l) = concat (map (cons 47) (map segment (List.filter (fun s => negb (beq s [])) l)))) as Hc.
  { intros l. induction l as [|s l IH]; [done|]. cbn [map concat List.filter]. unfold shape_of at 1.
    destruct (beq s []); cbn [negb map concat app]; by rewrite IH. }
  unfold path_pattern. rewrite Hc. by destruct (List.filter _ _).
Qed.

(** A shape is its own shape: the report's pattern, given back as a path, is the same rule. *)
Theorem path_pattern_idem p : path_pattern (path_pattern p) = path_pattern p.
Proof.
  rewrite (path_pattern_segments p). set (l := List.filter (fun s => negb (beq s [])) (split_on 47 p)).
  assert (Forall (fun s => (47 ∉ s) /\ s <> []) l) as Hl.
  { apply Forall_forall. intros s [Hs Hn]%list_elem_of_In%filter_In. apply list_elem_of_In in Hs.
    split; [by eapply split_on_pieces|]. by intros ->. }
  assert (Forall (fun s => (47 ∉ s) /\ s <> []) (map segment l)) as Hm.
  { apply Forall_fmap. eapply Forall_impl; [exact Hl|]. intros s [H1 H2]. cbn. unfold segment.
    destruct (is_identifier s); [split; [not_in|done]|done]. }
  clearbody l. destruct l as [|s l]; [done|]. set (k := s :: l) in *.
  rewrite path_pattern_segments, split_on_slashes by (first [done|eapply Forall_impl; [exact Hm|naive_solver]]).
  cbn [List.filter]. rewrite (proj2 (beq_true [] []) eq_refl). cbn [negb].
  assert (List.filter (fun s => negb (beq s [])) (map segment k) = map segment k) as ->.
  { clearbody k. clear Hl. induction k as [|q k IH]; [done|]. cbn [map List.filter]. apply Forall_cons in Hm as [[_ Hq] Hm].
    rewrite IH by done. unfold beq. by rewrite bool_decide_false. }
  subst k. cbn [map]. rewrite segment_idem. do 3 f_equal. rewrite map_map. apply map_ext. intros q. apply segment_idem.
Qed.

(** ** The source's tests, and what modelling showed *)

Definition at_path (t : Z) (p : string) (us h : Z) : Sample :=
  mkSample t (lit "GET") (lit "example.com") (lit p) [] false false 200 100 us h false.

Example identifiers_collapse :
  map (fun p => path_pattern (lit p))
    ["/products/1421"; "/products/1421/reviews"; "/"; "/orders/550e8400-e29b-41d4-a716-446655440000"; "/newsletter-subscribe"; "/api/v1/health"]%string
  = map lit ["/products/*"; "/products/*/reviews"; "/"; "/orders/*"; "/newsletter-subscribe"; "/api/v1/health"]%string.
Proof. by vm_compute. Qed.

Example differing_bodies_unsafe :
  let v := simulate [at_path 0 "/dashboard" 20000 111; at_path 1000 "/dashboard" 20000 222; at_path 2000 "/dashboard" 20000 333]
             (lit "/dashboard") 60 in
  (hits v, divergent v, risk v) = (2%nat, 2%nat, Differed 2).
Proof. by vm_compute. Qed.

Definition quoted_query : bytes := lit "q=" ++ [34; 92] ++ lit "," ++ [34] ++ lit "c" ++ [34; 58] ++ lit "true".
Lemma sample_roundtrip_witness :
  let s := mkSample 1234 (lit "GET") (lit "h") (lit "/a/b") (quoted_query ++ [7]) true false 200 100 42 (u64_max) true in
  sample_ok s /\ from_line (to_line s)
  = Some (mkSample 1234 (blank (lit "GET")) (blank (lit "h")) (blank (lit "/a/b")) (quoted_query ++ [32]) true false 200 100 42 u64_max true).
Proof.
  intros s. assert (sample_ok s) as Hs by (unfold sample_ok, is_u64, W64; cbn; unfold u64_max, W64; lia).
  split; [exact Hs|]. exact (sample_roundtrip s Hs).
Defined.

Definition about : list Sample := [at_path 0 "/about" 10000 1; at_path 1000 "/about" 10000 1; at_path 70000 "/about" 10000 2].
Lemma pasted_rules_safe_witness :
  (lit "/about", 60) ∈ paste about [60; 10] 5
  /\ forall s, s ∈ about -> path_pattern (path s) = lit "/about" -> set_cookie s = false.
Proof.
  assert ((lit "/about", 60) ∈ paste about [60; 10] 5) as Hp by (apply (bool_decide_unpack (_ ∈ _)); vm_compute; exact I).
  split; [exact Hp|]. destruct (pasted_rules_safe about [60; 10] 5 (lit "/about") 60 Hp) as (_ & _ & H & _). exact H.
Defined.

(** Two visitors two seconds apart who get different bodies, and a rule of ten seconds that is
    found the same for all: only the copy is compared, and it was renewed between them. *)
Lemma straddling_bodies_missed :
  let v := simulate [at_path 0 "/me" 10 1; at_path 1000 "/me" 10 1; at_path 9000 "/me" 10 1; at_path 11000 "/me" 10 2] (lit "/me") 10 in
  (hits v, divergent v, risk v) = (2%nat, 0%nat, SameForAll).
Proof. by vm_compute. Qed.
