(* ===== verification/Routes.v ===== *)
(** Costs per route ([routes.rs]): the shared table of route shapes, one counting thread at a
    time and many at once, what a snapshot shows, and its percentiles.

    A name is written and a response counted in one step each: names are read only for display,
    and each counter is one atomic addition. *)

From Stdlib Require Import Floats.SpecFloat.
From stdpp Require Import gmap strings relations.
From S2P Require Import Prelude Bytes Http Oracle.
From S2P Require Supervisor.

Definition SLOTS : nat := 512.
Definition NAME_MAX : nat := 120.
Definition PROBES : nat := 32.
Definition BUCKET_BOUNDS_MS : list Z := [1; 2; 5; 10; 25; 50; 100; 250; 500; 1000; 2500; 5000].
Definition NBUCKETS : nat := 13.
Definition EMPTY : Z := 0.
Definition CLAIMING : Z := 1.
Definition OTHER : bytes := lit "(other)".

Record Counters := mkCounters {
  requests : Z; php_us : Z; total_us : Z; errors : Z; nbytes : Z; hits : Z; misses : Z; buckets : list Z }.
Definition zeroes : Counters := mkCounters 0 0 0 0 0 0 0 (replicate NBUCKETS 0).
Record Slot := mkSlot { tag : Z; name : bytes; counts : Counters }.

(** FNV-1a, kept clear of the reserved tags. *)
Definition fnv (h : Z) (b : bytes) : Z := foldl (fun h x => wrap64 (Z.lxor h x * 0x100000001b3)) h b.
Definition tag_of (route : bytes) : Z := Z.lor (fnv 0xcbf29ce484222325 route) 2.

(** [write_name]: cut at a character boundary. *)
Definition cut_name (route : bytes) : bytes := take (char_boundary (Nat.min (length route) NAME_MAX) route) route.

Definition empty_slot : Slot := mkSlot EMPTY [] zeroes.
Definition map_table : list Slot := mkSlot (tag_of OTHER) (cut_name OTHER) zeroes :: replicate (SLOTS - 1) empty_slot.

Definition route_of (method : bytes) (host : option bytes) (path : bytes) : bytes :=
  match host with
  | Some h => method ++ [32] ++ h ++ path_pattern path
  | None => method ++ [32] ++ path_pattern path
  end.

Record Cost := mkCost { c_status : Z; c_bytes : Z; c_php_us : Z; c_total_us : Z; cache_hit : option bool }.
(** The header [x-askr-cache], when it is text. *)
Definition cache_hit_of (header : option bytes) : option bool :=
  match header with
  | Some v => if beq v (lit "HIT") || beq v (lit "STALE") || beq v (lit "STALE-ERROR") then Some true
              else if beq v (lit "MISS") then Some false else None
  | None => None
  end.

Fixpoint position_le (ms : Z) (bounds : list Z) : nat :=
  match bounds with [] => 0%nat | b :: bs => if ms <=? b then 0%nat else S (position_le ms bs) end.
(** After the last bound comes the overflow bucket. *)
Definition bucket (total_us : Z) : nat := position_le (total_us / 1000) BUCKET_BOUNDS_MS.
Definition add (x y : Z) : Z := wrap64 (x + y).
Definition count (c : Cost) (s : Counters) : Counters :=
  mkCounters (add (requests s) 1) (add (php_us s) (c_php_us c)) (add (total_us s) (c_total_us c))
    (if 500 <=? c_status c then add (errors s) 1 else errors s) (add (nbytes s) (c_bytes c))
    (match cache_hit c with Some true => add (hits s) 1 | _ => hits s end)
    (match cache_hit c with Some false => add (misses s) 1 | _ => misses s end)
    (alter (fun n => add n 1) (bucket (c_total_us c)) (buckets s)).

(** ** One at a time *)

(** The [i]th slot probed for a tag. *)
Definition probe (t : Z) (i : nat) : nat := ((Z.to_nat (t mod Z.of_nat (SLOTS - 1)) + i) mod (SLOTS - 1) + 1)%nat.
Definition slot_at (ss : list Slot) (i : nat) : Slot := default empty_slot (ss !! i).
Definition set_tag (t : Z) (n : bytes) (s : Slot) : Slot := mkSlot t n (counts s).
Fixpoint slot_for_from (n i : nat) (ss : list Slot) (route : bytes) : nat * list Slot :=
  match n with
  | O => (0%nat, ss)
  | S n =>
      let t := tag_of route in
      let s := slot_at ss (probe t i) in
      if tag s =? t then (probe t i, ss)
      else if tag s =? EMPTY then (probe t i, alter (set_tag t (cut_name route)) (probe t i) ss)
      else slot_for_from n (S i) ss route
  end.
Definition slot_for : list Slot -> bytes -> nat * list Slot := slot_for_from PROBES 0.
Definition record_in (ss : list Slot) (route : bytes) (c : Cost) : list Slot :=
  let '(i, ss) := slot_for ss route in alter (fun s => mkSlot (tag s) (name s) (count c (counts s))) i ss.

Definition shown (s : Slot) : bool := (CLAIMING <? tag s) && (0 <? requests (counts s)).
Definition stats_cmp (a b : bytes * Counters) : comparison := then_with (php_us b.2 ?= php_us a.2) (bytes_cmp a.1 b.1).
Definition snapshot_of (ss : list Slot) : list (bytes * Counters) :=
  sort_by stats_cmp (map (fun s => (from_utf8_lossy (name s), counts s)) (List.filter shown ss)).

(** ** Percentiles *)

(** [f64::ceil] and the cast to [u64], of a float that is not negative. *)
Definition ceil_u64 (x : spec_float) : Z :=
  match x with
  | S754_finite false m e =>
      let v := if 0 <=? e then Z.shiftl (Z.pos m) e else - ((- Z.pos m) / 2 ^ (- e)) in Z.min v u64_max
  | S754_infinity false => u64_max
  | _ => 0
  end.
(** [NONE]: slower than the last bound. *)
Fixpoint percentile_from (want seen : Z) (ns : list Z) (bounds : list Z) : option Z :=
  match ns with
  | [] => None
  | n :: ns => if want <=? add seen n then head bounds else percentile_from want (add seen n) ns (tail bounds)
  end.
Definition want_of (total p : Z) : Z :=
  Z.max 1 (ceil_u64 (Supervisor.fdiv (Supervisor.fmul (Supervisor.of_u64 total) (Supervisor.of_u64 p)) (Supervisor.of_u64 100))).
Definition percentile_ms (ns : list Z) (p : Z) : option (option Z) :=
  let total := foldl add 0 ns in
  if total =? 0 then None else Some (percentile_from (want_of total p) 0 ns BUCKET_BOUNDS_MS).

(** ** Many at once *)

(** A thread that records a response: which slot it looks at, what it has found there. *)
Inductive Pc := Look (i : nat) | Cas (i : nat) | Naming (i : nat) | Counting (slot : nat) | Done (slot : nat).
Record Thread := mkThread { t_route : bytes; t_cost : Cost; t_pc : Pc }.
Record World := mkWorld { slots : list Slot; threads : gmap nat Thread }.

Definition goto (w : World) (id : nat) (th : Thread) (ss : list Slot) (p : Pc) : World :=
  mkWorld ss (<[id := mkThread (t_route th) (t_cost th) p]> (threads w)).
Definition next (i : nat) : Pc := if (S i <? PROBES)%nat then Look (S i) else Counting 0.

(** One access of a thread.  [impatient]: it has looked a million times at a slot that another
    thread is naming. *)
Definition access (impatient : bool) (w : World) (id : nat) (th : Thread) : World :=
  let t := tag_of (t_route th) in
  let go := goto w id th in
  match t_pc th with
  | Look i =>
      let s := slot_at (slots w) (probe t i) in
      if tag s =? t then go (slots w) (Counting (probe t i))
      else if (tag s =? CLAIMING) && negb impatient then w
      else if tag s =? EMPTY then go (slots w) (Cas i)
      else go (slots w) (next i)
  | Cas i =>
      let s := slot_at (slots w) (probe t i) in
      if tag s =? EMPTY then go (alter (set_tag CLAIMING (name s)) (probe t i) (slots w)) (Naming i)
      else go (slots w) (Look i)
  | Naming i => go (alter (set_tag t (cut_name (t_route th))) (probe t i) (slots w)) (Counting (probe t i))
  | Counting s => go (alter (fun s => mkSlot (tag s) (name s) (count (t_cost th) (counts s))) s (slots w)) (Done s)
  | Done _ => w
  end.

Inductive step (patience : Prop) : World -> World -> Prop :=
| step_start w id route cost : threads w !! id = None ->
    step patience w (mkWorld (slots w) (<[id := mkThread route cost (Look 0)]> (threads w)))
| step_access w id th impatient : threads w !! id = Some th -> (impatient = true -> ~ patience) ->
    step patience w (access impatient w id th).
Definition init : World := mkWorld map_table ∅.

(** ** The source's tests *)

Definition us (n : Z) : Cost := mkCost 200 10 (n * 1000) (n * 1000) (Some false).
Definition demo_table : list Slot :=
  let r := lit "GET /products/*" in
  foldl (fun ss '(r, c) => record_in ss r c) map_table
    [(r, us 1); (r, us 3); (r, us 3); (r, us 300); (r, mkCost 502 0 0 10 (Some true)); (lit "GET /cheap", mkCost 200 0 5 0 None)].
Example routes_keep_their_slot :
  map (fun r => (r.1, requests r.2, php_us r.2, errors r.2, hits r.2, misses r.2, nbytes r.2)) (snapshot_of demo_table)
  = [(lit "GET /products/*", 5, 307000, 1, 1, 4, 40); (lit "GET /cheap", 1, 5, 0, 0, 0, 0)].
Proof. by vm_compute. Qed.

Example percentiles_from_buckets :
  let b := [90; 0; 0; 0; 0; 0; 10; 0; 0; 0; 0; 0; 0] in
  (percentile_ms (replicate NBUCKETS 0) 95, percentile_ms b 50, percentile_ms b 95, percentile_ms (<[12%nat := 1000]> b) 95)
  = (None, Some (Some 1), Some (Some 100), Some None).
Proof. by vm_compute. Qed.

(** * What it promises

    What the table of routes promises, however its recorders are interleaved: one slot per route
    while nobody gives up on a slot being named, every response counted exactly once, in the
    slot of its route or in the one for the rest. *)

(** ** Tags and slots *)

Lemma fnv_nonneg h b : 0 <= h -> 0 <= fnv h b.
Proof.
  revert h. induction b as [|x b IH]; intros h Hh; [done|]. cbn [fnv foldl]. apply IH.
  unfold wrap64. apply Z.mod_pos_bound, W64_pos.
Qed.

Lemma tag_of_settled r : CLAIMING < tag_of r.
Proof.
  unfold tag_of, CLAIMING. set (h := fnv _ r). assert (0 <= h) as Hh by by apply fnv_nonneg.
  assert (0 <= Z.lor h 2) as H0 by (apply Z.lor_nonneg; lia).
  assert (Z.testbit (Z.lor h 2) 1 = true) as Ht by (by rewrite Z.lor_spec, orb_true_r).
  destruct (decide (Z.lor h 2 = 0)) as [E|]; [by rewrite E in Ht|].
  destruct (decide (Z.lor h 2 = 1)) as [E|]; [by rewrite E in Ht|]. lia.
Qed.

Lemma probe_range t i : (0 < probe t i < SLOTS)%nat.
Proof. unfold probe, SLOTS. pose proof (Nat.mod_upper_bound (Z.to_nat (t mod Z.of_nat (512 - 1)) + i) (512 - 1)). lia. Qed.

Definition settled (s : Slot) : Prop := tag s <> EMPTY /\ tag s <> CLAIMING.

Lemma tag_of_neq r : tag_of r <> EMPTY /\ tag_of r <> CLAIMING.
Proof. pose proof (tag_of_settled r). unfold EMPTY, CLAIMING in *. lia. Qed.

Lemma slot_at_alter f i j ss :
  slot_at (alter f i ss) j = if decide (i = j /\ (i < length ss)%nat) then f (slot_at ss i) else slot_at ss j.
Proof.
  unfold slot_at. destruct (decide (i = j)) as [<-|Hij].
  - rewrite list_lookup_alter_eq. destruct (ss !! i) eqn:E.
    + apply lookup_lt_Some in E. by rewrite decide_True.
    + apply lookup_ge_None in E. rewrite decide_False by lia. done.
  - rewrite list_lookup_alter_ne by done. by rewrite decide_False by naive_solver.
Qed.

(** Settled slots keep their tag. *)
Definition grows (ss ss' : list Slot) : Prop :=
  length ss' = length ss /\ forall i, settled (slot_at ss i) -> tag (slot_at ss' i) = tag (slot_at ss i).

Lemma grows_refl ss : grows ss ss.
Proof. done. Qed.

Lemma grows_alter f i ss : (settled (slot_at ss i) -> tag (f (slot_at ss i)) = tag (slot_at ss i)) -> grows ss (alter f i ss).
Proof.
  intros Hf. split; [apply length_alter|]. intros j Hj. rewrite slot_at_alter.
  destruct (decide (i = j /\ (i < length ss)%nat)) as [[<- _]|]; [by apply Hf|done].
Qed.

(** ** The invariant *)

Section Race.
Context (patience : Prop).
Implicit Types (w : World) (th : Thread) (ss : list Slot).

(** The slots probed before the [i]th belong to other routes. *)
Definition passed ss (t : Z) (i : nat) : Prop :=
  patience -> forall j, (j < i)%nat -> settled (slot_at ss (probe t j)) /\ tag (slot_at ss (probe t j)) <> t.
Definition thread_ok ss th : Prop :=
  let t := tag_of (t_route th) in
  match t_pc th with
  | Look i | Cas i => (i < PROBES)%nat /\ passed ss t i
  | Naming i => ((i < PROBES)%nat /\ passed ss t i) /\ tag (slot_at ss (probe t i)) = CLAIMING
  | Counting s | Done s => s = 0%nat /\ passed ss t PROBES \/ (0 < s < SLOTS)%nat /\ tag (slot_at ss s) = t
  end.
(** A settled slot is the first of its tag's probes that was not another's. *)
Definition placed ss : Prop :=
  forall i, (0 < i)%nat -> settled (slot_at ss i) ->
    exists n, i = probe (tag (slot_at ss i)) n /\ (n < PROBES)%nat /\ passed ss (tag (slot_at ss i)) n.
Record inv w : Prop := {
  inv_length : length (slots w) = SLOTS;
  inv_placed : placed (slots w);
  inv_threads id th : threads w !! id = Some th -> thread_ok (slots w) th;
  inv_excl id id' th th' i i' : threads w !! id = Some th -> threads w !! id' = Some th' ->
    t_pc th = Naming i -> t_pc th' = Naming i' ->
    probe (tag_of (t_route th)) i = probe (tag_of (t_route th')) i' -> id = id' }.

Lemma passed_grows ss ss' t i : grows ss ss' -> passed ss t i -> passed ss' t i.
Proof.
  intros [_ Hg] Hp P j Hj. destruct (Hp P j Hj) as [Hs Ht]. unfold settled. rewrite Hg; [by split|done].
Qed.

Lemma passed_next ss t i : settled (slot_at ss (probe t i)) -> tag (slot_at ss (probe t i)) <> t -> passed ss t i -> passed ss t (S i).
Proof.
  intros Hs Ht Hp P j Hj. destruct (decide (j = i)) as [->|]; [done|]. apply Hp; [done|lia].
Qed.

Lemma thread_ok_grows ss ss' th :
  grows ss ss' -> (forall i, t_pc th = Naming i -> tag (slot_at ss' (probe (tag_of (t_route th)) i)) = CLAIMING) ->
  thread_ok ss th -> thread_ok ss' th.
Proof.
  intros Hg Hn. unfold thread_ok. destruct (t_pc th) as [i|i|i|s|s].
  1, 2: intros [? ?]; split; [done|by eapply passed_grows].
  - intros [[? ?] _]. split; [split; [done|by eapply passed_grows]|by apply Hn].
  - intros [[? ?]|[? Ht]]; [left; split; [done|by eapply passed_grows]|right].
    destruct Hg as [_ Hg]. rewrite Hg; [done|]. unfold settled. rewrite Ht. apply tag_of_neq.
  - intros [[? ?]|[? Ht]]; [left; split; [done|by eapply passed_grows]|right].
    destruct Hg as [_ Hg]. rewrite Hg; [done|]. unfold settled. rewrite Ht. apply tag_of_neq.
Qed.

Lemma naming_ok w id th i : inv w -> threads w !! id = Some th -> t_pc th = Naming i ->
  ((i < PROBES)%nat /\ passed (slots w) (tag_of (t_route th)) i) /\ tag (slot_at (slots w) (probe (tag_of (t_route th)) i)) = CLAIMING.
Proof. intros Hi Hid Hpc. pose proof (inv_threads w Hi id th Hid) as H. unfold thread_ok in H. by rewrite Hpc in H. Qed.

(** A thread moves on, and leaves the slots others are naming alone. *)
Lemma table_move w id th ss' p :
  inv w -> threads w !! id = Some th -> grows (slots w) ss' -> placed ss' ->
  thread_ok ss' (mkThread (t_route th) (t_cost th) p) ->
  (forall id' th' i, id' <> id -> threads w !! id' = Some th' -> t_pc th' = Naming i ->
     tag (slot_at ss' (probe (tag_of (t_route th')) i)) = CLAIMING
     /\ forall n, p = Naming n -> probe (tag_of (t_route th')) i <> probe (tag_of (t_route th)) n) ->
  inv (goto w id th ss' p).
Proof.
  intros [Hl Hp Ht He] Hid Hg Hp' Ho Hn. split; cbn [slots threads goto].
  - by destruct Hg as [-> _].
  - done.
  - intros id' th'. rewrite lookup_insert_Some. intros [[-> <-]|[Hne Hth]]; [done|].
    apply (thread_ok_grows (slots w)); [done| |by eapply Ht]. intros i Hi. by eapply Hn.
  - intros i1 i2 th1 th2 n1 n2. rewrite !lookup_insert_Some.
    intros [[<- <-]|[H1 T1]] [[<- <-]|[H2 T2]] P1 P2 E; cbn in P1, P2; [done| | |by eapply He].
    + simplify_eq. destruct (Hn i2 th2 n2) as [_ H]; [done..|]. by destruct (H n1).
    + simplify_eq. destruct (Hn i1 th1 n1) as [_ H]; [done..|]. by destruct (H n2).
Qed.

(** Only its place in the program changes. *)
Lemma inv_go w id th p :
  inv w -> threads w !! id = Some th -> thread_ok (slots w) (mkThread (t_route th) (t_cost th) p) ->
  (forall n, p <> Naming n) -> inv (goto w id th (slots w) p).
Proof.
  intros Hi Hid Ho Hp. apply table_move; try done; [by apply inv_placed|].
  intros id' th' i Hne Hth Hn. destruct (naming_ok w id' th' i) as [_ Hc]; [done..|].
  split; [done|]. by intros n ->; destruct (Hp n).
Qed.

Lemma inv_next w id th i :
  inv w -> threads w !! id = Some th -> (i < PROBES)%nat -> passed (slots w) (tag_of (t_route th)) (S i) -> inv (goto w id th (slots w) (next i)).
Proof.
  intros Hi Hid Hn Hp. unfold next. destruct (S i <? PROBES)%nat eqn:E; apply inv_go; try done.
  - apply Nat.ltb_lt in E. by split.
  - apply Nat.ltb_ge in E. left. split; [done|]. by replace PROBES with (S i) by lia.
Qed.

Lemma slot_at_set ss i n t j : length ss = SLOTS -> (i < SLOTS)%nat ->
  tag (slot_at (alter (set_tag t n) i ss) j) = if decide (i = j) then t else tag (slot_at ss j).
Proof. intros Hl Hi. rewrite slot_at_alter, Hl. repeat case_decide; naive_solver. Qed.

Lemma placed_grows ss ss' : grows ss ss' -> placed ss ->
  (forall i, settled (slot_at ss' i) -> settled (slot_at ss i) \/ exists n, i = probe (tag (slot_at ss' i)) n /\ (n < PROBES)%nat /\ passed ss (tag (slot_at ss' i)) n) ->
  placed ss'.
Proof.
  intros Hg Hp Hn i Hi Hs. destruct (Hn i Hs) as [Ho|(n & E & Hb & Hpa)].
  - destruct (Hp i Hi Ho) as (n & E & Hb & Hpa). destruct Hg as [Hl Hg]. rewrite Hg by done. exists n. split_and!; [done..|].
    by eapply passed_grows.
  - exists n. split_and!; [done..|]. by eapply passed_grows.
Qed.

Lemma inv_cas w id th i :
  inv w -> threads w !! id = Some th -> t_pc th = Cas i -> tag (slot_at (slots w) (probe (tag_of (t_route th)) i)) = EMPTY ->
  inv (goto w id th (alter (set_tag CLAIMING (name (slot_at (slots w) (probe (tag_of (t_route th)) i)))) (probe (tag_of (t_route th)) i) (slots w)) (Naming i)).
Proof.
  intros Hi Hid Hpc He. set (t := tag_of (t_route th)) in *. set (n := name _). destruct (probe_range t i) as [_ Hr].
  pose proof (inv_length w Hi) as Hl. pose proof (inv_threads w Hi id th Hid) as Hok. unfold thread_ok in Hok. rewrite Hpc in Hok. fold t in Hok.
  assert (grows (slots w) (alter (set_tag CLAIMING n) (probe t i) (slots w))) as Hg.
  { apply grows_alter. intros [H _]. by rewrite He in H. }
  apply table_move; [done|done|done| | |].
  - apply (placed_grows (slots w)); [done|by apply inv_placed|]. intros j. unfold settled. rewrite slot_at_set by done.
    case_decide; [by intros []|by left].
  - unfold thread_ok. cbn. fold t. destruct Hok as [Hb Hok]. split; [split; [done|by eapply passed_grows]|]. rewrite slot_at_set by done. by rewrite decide_True.
  - intros id' th' j Hne Hth Hpc'. destruct (naming_ok w id' th' j) as [_ Ho]; [done..|]. rewrite slot_at_set by done. split; [by case_decide|]. intros m [= <-] E. rewrite E in Ho. fold t in Ho. by rewrite He in Ho.
Qed.

Lemma inv_name w id th i :
  inv w -> threads w !! id = Some th -> t_pc th = Naming i ->
  inv (goto w id th (alter (set_tag (tag_of (t_route th)) (cut_name (t_route th))) (probe (tag_of (t_route th)) i) (slots w))
         (Counting (probe (tag_of (t_route th)) i))).
Proof.
  intros Hi Hid Hpc. set (t := tag_of (t_route th)) in *. destruct (probe_range t i) as [Hz Hr].
  pose proof (inv_length w Hi) as Hl. destruct (naming_ok w id th i) as [[Hb Hpa] Hc]; [done..|]. fold t in Hpa, Hc.
  set (n := cut_name _).
  assert (grows (slots w) (alter (set_tag t n) (probe t i) (slots w))) as Hg.
  { apply grows_alter. intros [_ H]. by rewrite Hc in H. }
  apply table_move; [done|done|done| | |].
  - apply (placed_grows (slots w)); [done|by apply inv_placed|]. intros j. unfold settled. rewrite slot_at_set by done.
    case_decide as E; [right|by left]. exists i. by split_and!.
  - right. cbn [t_pc t_route]. fold t. split; [by apply probe_range|]. rewrite slot_at_set by done. by rewrite decide_True.
  - intros id' th' j Hne Hth Hpc'. destruct (naming_ok w id' th' j) as [_ Ho]; [done..|].
    rewrite slot_at_set by done. split; [|done]. case_decide as E; [|done].
    destruct Hne. by eapply (inv_excl w Hi id' id); [| | | |symmetry].
Qed.

Lemma slot_at_count ss i c j : tag (slot_at (alter (fun s => mkSlot (tag s) (name s) (count c (counts s))) i ss) j) = tag (slot_at ss j).
Proof. rewrite slot_at_alter. case_decide as E; [by destruct E as [-> _]|done]. Qed.

Lemma inv_count w id th s :
  inv w -> threads w !! id = Some th -> t_pc th = Counting s ->
  inv (goto w id th (alter (fun s => mkSlot (tag s) (name s) (count (t_cost th) (counts s))) s (slots w)) (Done s)).
Proof.
  intros Hi Hid Hpc. pose proof (inv_threads w Hi id th Hid) as Ho. unfold thread_ok in Ho. rewrite Hpc in Ho.
  assert (grows (slots w) (alter (fun s => mkSlot (tag s) (name s) (count (t_cost th) (counts s))) s (slots w))) as Hg by by apply grows_alter.
  apply table_move; [done|done|done| | |].
  - apply (placed_grows (slots w)); [done|by apply inv_placed|]. intros j. unfold settled. rewrite slot_at_count. by left.
  - unfold thread_ok. cbn [t_pc t_route]. rewrite slot_at_count.
    destruct Ho as [[? ?]|?]; [left; split; [done|by eapply passed_grows]|by right].
  - intros id' th' j Hne Hth Hpc'. rewrite slot_at_count. by split; [eapply naming_ok|].
Qed.

Lemma inv_access w id th impatient :
  (impatient = true -> ~ patience) -> inv w -> threads w !! id = Some th -> inv (access impatient w id th).
Proof.
  intros Him Hi Hid. pose proof (inv_threads w Hi id th Hid) as Ho. unfold thread_ok in Ho. unfold access.
  destruct (t_pc th) as [i|i|i|s|s] eqn:Hpc; [| |by apply inv_name|by apply inv_count|done].
  - set (t := tag_of (t_route th)) in *. set (x := tag (slot_at (slots w) (probe t i))).
    destruct (Z.eqb_spec x t) as [Et|Et].
    { apply inv_go; try done. right. split; [apply probe_range|done]. }
    destruct ((x =? CLAIMING) && negb impatient) eqn:Ec; [done|].
    destruct (Z.eqb_spec x EMPTY) as [Ee|Ee]; [by apply inv_go|]. destruct Ho as [Hb Ho]. apply inv_next; [done..|].
    destruct (decide (x = CLAIMING)) as [E|E].
    + rewrite E in Ec. destruct impatient; [|done]. by intros P; destruct (Him eq_refl).
    + by apply passed_next.
  - destruct (Z.eqb_spec (tag (slot_at (slots w) (probe (tag_of (t_route th)) i))) EMPTY) as [Ee|Ee]; [by apply inv_cas|by apply inv_go].
Qed.

Lemma init_slot i : (0 < i)%nat -> slot_at (slots init) i = empty_slot.
Proof.
  intros Hi. unfold slot_at, init, map_table. destruct i as [|i]; [lia|]. cbn [slots lookup list_lookup].
  destruct (replicate (SLOTS - 1) empty_slot !! i) eqn:E; [by apply lookup_replicate in E as [-> _]|done].
Qed.

Lemma inv_init : inv init.
Proof.
  split; [done| |done|done]. intros i Hi [Hs _]. by rewrite init_slot in Hs.
Qed.

Lemma table_step w w' : step patience w w' -> inv w -> inv w'.
Proof.
  intros [w0 id route cost Hid|w0 id th im Hid Him] Hi; [|by apply inv_access].
  destruct Hi as [Hl Hp Ht He]. split; cbn [slots threads]; [done|done| |].
  - intros id' th. rewrite lookup_insert_Some. intros [[-> <-]|[_ H]]; [|by eapply Ht]. split; [by vm_compute; lia|]. intros P j. lia.
  - intros i1 i2 th1 th2 n1 n2. rewrite !lookup_insert_Some. intros [[<- <-]|[_ T1]] [[<- <-]|[_ T2]] P1 P2; try done. by eapply He.
Qed.

Lemma inv_reachable w : rtc (step patience) init w -> inv w.
Proof.
  intros H. assert (inv init -> inv w) as Hw; [|by apply Hw, inv_init].
  induction H as [|w1 w2 w3 Hs _ IH]; [done|]. intros Hi. by apply IH, (table_step w1).
Qed.

(** Where a thread counts or has counted. *)
Definition slot_of th : option nat := match t_pc th with Counting s | Done s => Some s | _ => None end.

(** No slot of the tag comes before one that has been passed. *)
Lemma placed_not_passed ss t i n :
  patience -> placed ss -> (0 < i)%nat -> settled (slot_at ss i) -> tag (slot_at ss i) = t -> passed ss t n ->
  exists m, i = probe t m /\ (n <= m < PROBES)%nat.
Proof.
  intros P Hp Hi Hs Ht Hn. destruct (Hp i Hi Hs) as (m & E & Hb & _). rewrite Ht in E. exists m. split; [done|].
  destruct (decide (n <= m)%nat) as [|Hlt]; [done|]. destruct (Hn P m) as [_ []]; [lia|]. by rewrite <- E.
Qed.

Lemma thread_slot w id th s : inv w -> threads w !! id = Some th -> slot_of th = Some s ->
  s = 0%nat /\ passed (slots w) (tag_of (t_route th)) PROBES \/ (0 < s < SLOTS)%nat /\ tag (slot_at (slots w) s) = tag_of (t_route th).
Proof.
  intros Hi Hid Hs. pose proof (inv_threads w Hi id th Hid) as Ho. unfold thread_ok, slot_of in *.
  by destruct (t_pc th); simplify_eq.
Qed.
End Race.

(** While nobody gives up on a slot that is being named, however the recorders are interleaved, no
    two slots have one tag; and a route counts in one place: all its responses in the same slot,
    which has its tag, or all of them in the slot for the rest. *)
Theorem one_slot_per_route w :
  rtc (step True) init w ->
  (forall i j, (0 < i)%nat -> (0 < j)%nat -> settled (slot_at (slots w) i) ->
     tag (slot_at (slots w) i) = tag (slot_at (slots w) j) -> i = j)
  /\ (forall id id' th th' s s', threads w !! id = Some th -> threads w !! id' = Some th' ->
        slot_of th = Some s -> slot_of th' = Some s' -> tag_of (t_route th) = tag_of (t_route th') ->
        s = s' /\ (s = 0%nat \/ tag (slot_at (slots w) s) = tag_of (t_route th))).
Proof.
  intros Hi%inv_reachable. pose proof (inv_placed _ w Hi) as Hp.
  assert (forall i j, (0 < i)%nat -> (0 < j)%nat -> settled (slot_at (slots w) i) ->
     tag (slot_at (slots w) i) = tag (slot_at (slots w) j) -> i = j) as Hu.
  { intros i j H0i H0j Hs E. destruct (Hp i H0i Hs) as (n & Ei & _ & Hn).
    assert (settled (slot_at (slots w) j)) as Hs' by (unfold settled; by rewrite <- E).
    destruct (Hp j H0j Hs') as (m & Ej & _ & Hm). rewrite <- E in Ej, Hm. destruct (lt_eq_lt_dec n m) as [[Hlt| ->]|Hlt]; [|by rewrite Ei, Ej|].
    - destruct (Hm I n Hlt) as [_ []]. by rewrite <- Ei.
    - destruct (Hn I m Hlt) as [_ []]. by rewrite <- Ej. }
  split; [done|]. intros id id' th th' s s' H1 H2 S1 S2 E.
  destruct (thread_slot _ w id th s Hi H1 S1) as [[-> P1]|[R1 T1]], (thread_slot _ w id' th' s' Hi H2 S2) as [[-> P2]|[R2 T2]].
  - by split; [|left].
  - exfalso. rewrite E in P1. destruct (placed_not_passed True (slots w) (tag_of (t_route th')) s' PROBES I Hp) as (m & _ & ?);
      [lia|unfold settled; rewrite T2; apply tag_of_neq|done|done|lia].
  - exfalso. rewrite <- E in P2. destruct (placed_not_passed True (slots w) (tag_of (t_route th)) s PROBES I Hp) as (m & _ & ?);
      [lia|unfold settled; rewrite T1; apply tag_of_neq|done|done|lia].
  - split; [|by right]. apply Hu; [lia|lia| |congruence]. unfold settled. rewrite T1. apply tag_of_neq.
Qed.

(** ** Counting *)

Definition done_here (s : nat) (th : Thread) : list Cost :=
  match t_pc th with Done s' => if decide (s' = s) then [t_cost th] else [] | _ => [] end.
(** What has been counted in the slot. *)
Definition done_at (m : gmap nat Thread) (s : nat) : list Cost := concat (map (fun kv => done_here s kv.2) (map_to_list m)).

Lemma done_at_lookup m id th s : m !! id = Some th -> done_at m s ≡ₚ done_here s th ++ done_at (delete id m) s.
Proof.
  intros H. unfold done_at. pose proof (map_to_list_delete m id th H) as Hp.
  assert (forall l k : list (nat * Thread), l ≡ₚ k -> concat (map (fun kv => done_here s kv.2) l) ≡ₚ concat (map (fun kv => done_here s kv.2) k)) as Hc.
  { intros l k Hlk. induction Hlk; cbn [map concat]; [done|by f_equiv| |by etrans].
    by rewrite !(assoc (++)), (comm (++) (done_here s y.2)). }
  by rewrite <- (Hc _ _ Hp).
Qed.

Lemma done_at_insert m id th s : done_at (<[id := th]> m) s ≡ₚ done_here s th ++ done_at (delete id m) s.
Proof. rewrite (done_at_lookup _ id th) by apply lookup_insert_eq. by rewrite delete_insert_eq. Qed.

(** A step that counts nothing in the slot leaves what is done there. *)
Lemma done_at_move m id th th' s :
  m !! id = Some th -> done_here s th = [] -> done_here s th' = [] -> done_at (<[id := th']> m) s ≡ₚ done_at m s.
Proof. intros H E E'. by rewrite done_at_insert, (done_at_lookup m id th) by done; rewrite E, E'. Qed.

Definition total (l : list Cost) : Counters := foldl (fun s c => count c s) zeroes l.
Definition tallied (w : World) : Prop :=
  forall s, (s < SLOTS)%nat -> exists l, l ≡ₚ done_at (threads w) s /\ counts (slot_at (slots w) s) = total l.

Lemma tallied_quiet w id th ss p :
  tallied w -> threads w !! id = Some th -> (forall s, t_pc th <> Done s) -> (forall s, p <> Done s) ->
  (forall s, counts (slot_at ss s) = counts (slot_at (slots w) s)) -> tallied (goto w id th ss p).
Proof.
  intros Ht Hid Hn Hp Hc s Hs. destruct (Ht s Hs) as (l & Hl & E). exists l. cbn [slots threads goto]. split; [|by rewrite Hc].
  rewrite Hl. symmetry. apply (done_at_move _ id th); [done| |]; unfold done_here; cbn.
  - destruct (t_pc th) eqn:E1; try done. by destruct (Hn slot).
  - destruct p; try done. by destruct (Hp slot).
Qed.

Lemma counts_alter f i ss s : (forall x, counts (f x) = counts x) -> counts (slot_at (alter f i ss) s) = counts (slot_at ss s).
Proof. intros Hf. rewrite slot_at_alter. case_decide as E; [by destruct E as [-> _]; rewrite Hf|done]. Qed.

Lemma tallied_access P w id th impatient :
  inv P w -> tallied w -> threads w !! id = Some th -> tallied (access impatient w id th).
Proof.
  intros Hi Ht Hid. unfold access. destruct (t_pc th) as [i|i|i|s|s] eqn:Hpc.
  - repeat case_match; try done; apply tallied_quiet; try done; try (intros ?; congruence); unfold next; by case_match.
  - case_match; apply tallied_quiet; try done; try (intros ?; congruence). intros ?. by apply counts_alter.
  - apply tallied_quiet; try done; try (intros ?; congruence). intros ?. by apply counts_alter.
  - intros s' Hs'. destruct (Ht s' Hs') as (l & Hl & E). cbn [slots threads goto].
    assert (s < length (slots w))%nat as Hlen.
    { rewrite (inv_length _ w Hi).
      destruct (thread_slot P w id th s Hi Hid) as [[-> _]|[? _]]; [by unfold slot_of; rewrite Hpc|unfold SLOTS; lia|lia]. }
    assert (done_at (<[id := mkThread (t_route th) (t_cost th) (Done s)]> (threads w)) s'
            ≡ₚ (if decide (s = s') then [t_cost th] else []) ++ done_at (threads w) s') as Hd.
    { rewrite done_at_insert, (done_at_lookup (threads w) id th s') by done. unfold done_here. rewrite Hpc. done. }
    rewrite slot_at_alter. destruct (decide (s = s')) as [<-|Hne].
    + exists (l ++ [t_cost th]). rewrite decide_True by done. split; [rewrite Hd, Hl; apply Permutation_app_comm|].
      unfold total. rewrite foldl_snoc. cbn [counts]. by rewrite E.
    + exists l. rewrite decide_False by naive_solver. split; [by rewrite Hd|done].
  - done.
Qed.

Lemma tallied_init : tallied init.
Proof.
  intros s Hs. exists []. split; [done|]. destruct s as [|s]; [done|]. by rewrite init_slot by lia.
Qed.

Lemma tallied_reachable P w : rtc (step P) init w -> inv P w /\ tallied w.
Proof.
  intros H. assert (inv P init /\ tallied init -> inv P w /\ tallied w) as Hw; [|apply Hw; split; [apply inv_init|apply tallied_init]].
  induction H as [|w1 w2 w3 Hs _ IH]; [done|]. intros [Hi Ht]. apply IH. split; [by apply (table_step P w1)|].
  destruct Hs as [w0 id route cost Hid|w0 id th im Hid Him]; [|by apply (tallied_access P)].
  intros s Hss. destruct (Ht s Hss) as (l & Hl & E). exists l. split; [|done]. cbn [slots threads].
  by rewrite done_at_insert, delete_id by done.
Qed.

Lemma add_wrap x n : add (wrap64 x) n = wrap64 (x + n).
Proof. unfold add, wrap64. by rewrite Zplus_mod_idemp_l. Qed.

Lemma total_requests l : requests (total l) = wrap64 (Z.of_nat (length l)).
Proof.
  unfold total. induction l as [|c l IH] using rev_ind; [done|]. rewrite foldl_snoc, length_app. cbn [requests count length].
  rewrite IH, add_wrap. f_equal. lia.
Qed.

(** Every response is counted exactly once, whatever the interleaving and whoever gives up: the
    counters of a slot are what the responses done there add up to, in some order, each of them
    of a route with the slot's tag -- or of any route, in the slot for the rest. *)
Theorem counted_once P w s :
  rtc (step P) init w -> (s < SLOTS)%nat ->
  (exists l, l ≡ₚ done_at (threads w) s /\ counts (slot_at (slots w) s) = total l)
  /\ requests (counts (slot_at (slots w) s)) = wrap64 (Z.of_nat (length (done_at (threads w) s)))
  /\ (forall id th, threads w !! id = Some th -> t_pc th = Done s -> s = 0%nat \/ tag (slot_at (slots w) s) = tag_of (t_route th)).
Proof.
  intros [Hi Ht]%tallied_reachable Hs. destruct (Ht s Hs) as (l & Hl & E). split_and!; [by exists l| |].
  - by rewrite E, total_requests, Hl.
  - intros id th Hid Hpc. destruct (thread_slot P w id th s Hi Hid) as [[-> _]|[_ ?]]; [by unfold slot_of; rewrite Hpc|by left|by right].
Qed.

(** ** Alone *)

(** One thread runs and the others stand still. *)
Definition alone (id : nat) (w w' : World) : Prop := exists th, threads w !! id = Some th /\ w' = access false w id th.
Definition finishes (id : nat) (w : World) (ss : list Slot) : Prop :=
  exists w' th s, rtc (alone id) w w' /\ slots w' = ss /\ threads w' !! id = Some th /\ t_pc th = Done s.

Lemma finishes_step id w th ss : threads w !! id = Some th -> finishes id (access false w id th) ss -> finishes id w ss.
Proof.
  intros Hid (w' & th' & s & Hr & H). exists w', th', s. split; [|done]. eapply rtc_l; [|exact Hr]. by exists th.
Qed.

Lemma goto_thread w id th ss p : threads (goto w id th ss p) !! id = Some (mkThread (t_route th) (t_cost th) p).
Proof. apply lookup_insert_eq. Qed.

Lemma finishes_count id w th s ss c :
  threads w !! id = Some th -> t_pc th = Counting s -> slots w = ss -> t_cost th = c ->
  finishes id w (alter (fun x => mkSlot (tag x) (name x) (count c (counts x))) s ss).
Proof.
  intros Hid Hpc <- <-. apply (finishes_step _ _ th); [done|]. unfold access. rewrite Hpc.
  eexists _, _, s. split; [reflexivity|]. split; [done|]. by split; [apply goto_thread|].
Qed.

Lemma set_tag_twice t n t' n' (i : nat) (ss : list Slot) : alter (set_tag t n) i (alter (set_tag t' n') i ss) = alter (set_tag t n) i ss.
Proof. revert i. induction ss as [|s ss IH]; intros [|i]; try done. change (s :: alter (set_tag t n) i (alter (set_tag t' n') i ss) = s :: alter (set_tag t n) i ss). by rewrite IH. Qed.

(** The search from the [i]th probe on, with [n] left. *)
Lemma finishes_look n i w id th :
  (n + i = PROBES)%nat -> (forall j, tag (slot_at (slots w) j) <> CLAIMING) -> length (slots w) = SLOTS ->
  threads w !! id = Some th -> t_pc th = (if (n =? 0)%nat then Counting 0 else Look i) ->
  let '(s, ss) := slot_for_from n i (slots w) (t_route th) in
  finishes id w (alter (fun x => mkSlot (tag x) (name x) (count (t_cost th) (counts x))) s ss).
Proof.
  revert i w th. induction n as [|n IH]; intros i w th Hn Hc Hl Hid Hpc; cbn [slot_for_from Nat.eqb] in *; [by eapply finishes_count|].
  set (t := tag_of (t_route th)) in *. destruct (tag (slot_at (slots w) (probe t i)) =? t) eqn:Et.
  { apply (finishes_step _ _ th); [done|]. unfold access. rewrite Hpc. fold t. rewrite Et.
    by eapply finishes_count; [apply goto_thread|..]. }
  assert ((tag (slot_at (slots w) (probe t i)) =? CLAIMING) = false) as Ec by by apply Z.eqb_neq.
  destruct (tag (slot_at (slots w) (probe t i)) =? EMPTY) eqn:Ee.
  - do 3 (eapply finishes_step; [first [exact Hid|apply goto_thread]|]; unfold access; rewrite ?Hpc; cbn [t_pc t_route goto slots];
      fold t; rewrite ?Et, ?Ec, ?Ee; cbn [andb]).
    eapply finishes_count; [apply goto_thread|done|apply set_tag_twice|done].
  - destruct (slot_for_from n (S i) (slots w) (t_route th)) as [s ss] eqn:Es.
    apply (finishes_step _ _ th); [done|]. unfold access. rewrite Hpc. fold t. rewrite Et, Ec, Ee. cbn [andb].
    specialize (IH (S i) (goto w id th (slots w) (next i)) (mkThread (t_route th) (t_cost th) (next i))). cbn [slots goto t_route t_cost t_pc] in IH.
    rewrite Es in IH. apply IH; [lia|done|done|apply goto_thread|].
    unfold next. destruct n; cbn [Nat.eqb]; [rewrite (proj2 (Nat.ltb_ge _ _)) by lia|rewrite (proj2 (Nat.ltb_lt _ _)) by lia]; done.
Qed.

(** A recorder that nobody disturbs ends, and does to the table what [record_in] says. *)
Theorem recorded_alone w id route cost :
  (forall i, tag (slot_at (slots w) i) <> CLAIMING) -> length (slots w) = SLOTS ->
  threads w !! id = Some (mkThread route cost (Look 0)) ->
  finishes id w (record_in (slots w) route cost).
Proof.
  intros Hc Hl Hid. pose proof (finishes_look PROBES 0 w id _ eq_refl Hc Hl Hid eq_refl) as H.
  unfold record_in, slot_for. cbn [t_route t_cost] in H. by destruct (slot_for_from PROBES 0 (slots w) route).
Qed.

(** ** Percentiles *)

Definition sum (ns : list Z) : Z := foldr Z.add 0 ns.

Lemma sum_cons n ns : sum (n :: ns) = n + sum ns.
Proof. done. Qed.
Lemma sum_nonneg ns : Forall (fun n => 0 <= n) ns -> 0 <= sum ns.
Proof. induction 1 as [|n ns Hn _ IH]; [done|]. rewrite sum_cons. lia. Qed.

Lemma percentile_from_spec want seen ns bounds b :
  Forall (fun n => 0 <= n) ns -> 0 <= seen -> seen + sum ns < W64 -> seen < want ->
  percentile_from want seen ns bounds = Some b ->
  exists i, bounds !! i = Some b /\ seen + sum (take i ns) < want <= seen + sum (take (S i) ns).
Proof.
  revert seen bounds. induction ns as [|n ns IH]; intros seen bounds Hn Hs Hw Hlt; cbn [percentile_from]; [done|].
  apply Forall_cons in Hn as [H0 Hn]. rewrite sum_cons in Hw. pose proof (sum_nonneg ns Hn) as Hns.
  assert (add seen n = seen + n) as -> by (unfold add, wrap64; apply Z.mod_small; lia).
  destruct (Z.leb_spec want (seen + n)) as [Hle|Hgt].
  - destruct bounds as [|x bs]; [done|]. intros [= ->]. exists 0%nat. split; [done|]. unfold sum. simpl. lia.
  - intros Hp. destruct (IH (seen + n) (tail bounds)) as (i & Hi & Hb); [done|lia|lia|lia|done|].
    exists (S i). split; [by destruct bounds|]. change (take (S (S i)) (n :: ns)) with (n :: take (S i) ns). change (take (S i) (n :: ns)) with (n :: take i ns). rewrite !sum_cons. lia.
Qed.

(** A percentile is the least bound under which so many responses fell. *)
Theorem percentile_least ns p b :
  Forall (fun n => 0 <= n) ns -> sum ns < W64 -> percentile_ms ns p = Some (Some b) ->
  exists i, BUCKET_BOUNDS_MS !! i = Some b
    /\ sum (take i ns) < want_of (foldl add 0 ns) p <= sum (take (S i) ns).
Proof.
  intros Hn Hs. unfold percentile_ms. case_bool; [done|]. intros [= H].
  apply percentile_from_spec in H as (i & Hi & H); [by exists i|done|done|lia|unfold want_of; lia].
Qed.

(** ** Runs *)

Definition begin (w : World) (id : nat) (route : bytes) : World :=
  mkWorld (slots w) (<[id := mkThread route (us 1) (Look 0)]> (threads w)).
Definition act (w : World) (a : nat * bool) : World :=
  match threads w !! a.1 with Some th => access a.2 w a.1 th | None => w end.
Definition two : World := begin (begin init 1 (lit "GET /race")) 2 (lit "GET /race").
(** Both see the slot empty; the second has lost the claim when it tries. *)
Definition race : World := foldl act two (map (fun id => (id, false)) [1; 2; 1; 2; 2; 1; 2; 1; 2]%nat).

Lemma act_reachable P w a : rtc (step P) init w -> (a.2 = true -> ~ P) -> rtc (step P) init (act w a).
Proof.
  intros Hr Ha. destruct a as [id im]. unfold act. cbn [fst snd] in *. destruct (threads w !! id) as [th|] eqn:E; [|done].
  eapply rtc_r; [exact Hr|]. by apply step_access.
Qed.
Lemma acts_reachable P w l : rtc (step P) init w -> Forall (fun a : nat * bool => a.2 = true -> ~ P) l -> rtc (step P) init (foldl act w l).
Proof.
  intros Hr Hl. revert w Hr. induction Hl as [|a l Ha _ IH]; intros w Hr; [done|]. apply IH. by apply act_reachable.
Qed.
Lemma two_reachable P : rtc (step P) init two.
Proof. eapply rtc_l; [by apply (step_start P init 1 (lit "GET /race") (us 1))|]. eapply rtc_l; [|done]. by apply step_start. Qed.
Lemma race_reachable : rtc (step True) init race.
Proof. apply acts_reachable; [apply two_reachable|]. by repeat constructor. Qed.

Lemma one_slot_per_route_witness :
  rtc (step True) init race
  /\ forall th th' s s', threads race !! 1%nat = Some th -> threads race !! 2%nat = Some th' ->
       slot_of th = Some s -> slot_of th' = Some s' -> tag_of (t_route th) = tag_of (t_route th') ->
       s = s' /\ (s = 0%nat \/ tag (slot_at (slots race) s) = tag_of (t_route th)).
Proof.
  split; [exact race_reachable|]. intros th th' s s'. exact (proj2 (one_slot_per_route race race_reachable) 1%nat 2%nat th th' s s').
Defined.

Definition race_slot : nat := probe (tag_of (lit "GET /race")) 0.
Lemma counted_once_witness :
  length (done_at (threads race) race_slot) = 2%nat /\ requests (counts (slot_at (slots race) race_slot)) = wrap64 (Z.of_nat 2).
Proof.
  assert (length (done_at (threads race) race_slot) = 2%nat) as H by (vm_compute; reflexivity).
  split; [exact H|]. rewrite <- H. refine (proj1 (proj2 (counted_once True race race_slot race_reachable _))).
  apply Nat.ltb_lt. vm_compute. reflexivity.
Defined.

(** A recorder held up while it names its slot for longer than another's patience: the route has
    two slots, and its responses are counted in both. *)
Definition impatience : World :=
  foldl act two [(1%nat, false); (1%nat, false); (2%nat, true); (2%nat, false); (2%nat, false); (2%nat, false); (2%nat, false);
                 (1%nat, false); (1%nat, false)].
Lemma impatience_takes_two_slots :
  map (fun s => (fst s, requests (snd s))) (snapshot_of (slots impatience)) = [(lit "GET /race", 1); (lit "GET /race", 1)].
Proof. vm_compute. reflexivity. Qed.
