(* ===== verification/Verify.v ===== *)
(** Verified reloads ([verify.rs]): the ring of requests the old code answered, the replay of them
    against the new code, and the verdict the canary gate reads.

    The replayed request goes through the server's own handler: here [ask], a function of the
    state the new code has got to.  A record is kept and read in one step: the per-entry seqlock
    is not modelled. *)

From stdpp Require Import list strings.
From S2P Require Import Prelude Bytes.
From S2P Require Routes Supervisor.

Definition RING : nat := 256.
Definition HOST_MAX : nat := 96.
Definition PQ_MAX : nat := 400.
Definition REPORT_MAX : nat := 16.
Definition URL_MAX : nat := 160.
Definition IDLE : Z := 0.
Definition REPLAYING : Z := 1.
Definition DONE : Z := 2.

Record Entry := mkEntry { seq : Z; url_hash : Z; e_host : bytes; e_pq : bytes; e_status : Z; e_body_hash : Z; e_at_ms : Z }.
Record Region := mkRegion {
  ring : list Entry; state : Z; started_ms : Z; finished_ms : Z;
  replayed : Z; identical : Z; changed : Z; flaky : Z; regressed : Z; regressions : list (bytes * Z * Z) }.
Definition map_region : Region := mkRegion (replicate RING (mkEntry 0 0 [] [] 0 0 0)) IDLE 0 0 0 0 0 0 0 (replicate REPORT_MAX ([], 0, 0)).

(** Each part, and a byte no text holds. *)
Definition fnv (parts : list bytes) : Z := Routes.fnv 0xcbf29ce484222325 (concat (map (fun p => p ++ [255]) parts)).
Definition body_hash (body : bytes) : Z := fnv [body].

(** [Bytes::set] keeps what fits. *)
Definition kept (n : nat) (s : bytes) : bytes := take n s.

Definition slot_of (host pq : bytes) : nat := Z.to_nat (fnv [host; pq] mod Z.of_nat RING).
Definition set_ring (r : Region) (f : list Entry -> list Entry) : Region :=
  mkRegion (f (ring r)) (state r) (started_ms r) (finished_ms r) (replayed r) (identical r) (changed r) (flaky r) (regressed r) (regressions r).
Definition write_entry (host pq : bytes) (status hash at_ms : Z) (e : Entry) : Entry :=
  if Z.odd (seq e) then e
  else mkEntry (seq e + 2) (fnv [host; pq]) (kept HOST_MAX host) (kept PQ_MAX pq) status hash at_ms.
Definition record_in (r : Region) (host pq : bytes) (status hash at_ms : Z) : Region :=
  if (HOST_MAX <? length host)%nat || (PQ_MAX <? length pq)%nat then r
  else set_ring r (alter (write_entry host pq status hash at_ms) (slot_of host pq)).

Record Recorded := mkRecorded { host : bytes; path_and_query : bytes; status : Z; r_hash : Z; at_ms : Z }.
Definition read_entry (e : Entry) : option Recorded :=
  if (seq e =? 0) || Z.odd (seq e) then None
  else Some (mkRecorded (from_utf8_lossy (e_host e)) (from_utf8_lossy (e_pq e)) (e_status e mod 2 ^ 16) (e_body_hash e) (e_at_ms e)).
(** The most recent first. *)
Definition recorded_in (r : Region) (limit : nat) : list Recorded :=
  take limit (sort_by (fun a b => at_ms b ?= at_ms a) (omap read_entry (ring r))).

Inductive Outcome := Identical | Changed | Regressed.
#[export] Instance Outcome_eq_dec : EqDecision Outcome.
Proof. solve_decision. Defined.
Definition within (lo hi x : Z) : bool := (lo <=? x) && (x <? hi).
Definition judge (before before_hash after : Z) (after_hash : option Z) : Outcome :=
  let ok_before := within 200 400 before in
  let broken_now := (500 <=? after) || (within 200 300 before && within 400 500 after && negb (after =? 429)) in
  if ok_before && broken_now then Regressed
  else
    let same_body := match after_hash with None => true | Some h => h =? before_hash end in
    if (before =? after) && same_body then Identical else Changed.

Definition reset (enabled : bool) (r : Region) : Region :=
  if enabled then mkRegion (ring r) IDLE (started_ms r) (finished_ms r) 0 0 0 0 0 (regressions r) else r.

(** ** The replay *)

Section Replay.
Context {W : Type} (ask : W -> Recorded -> Z * option Z * W).

(** One page: its outcome, whether it was flaky, the status it is reported with. *)
Definition try_page (w : W) (rec : Recorded) : Outcome * bool * Z * W :=
  let '(after, hash, w) := ask w rec in
  let outcome := judge (status rec) (r_hash rec) after hash in
  if decide (outcome = Regressed) then
    let '(again, hash2, w) := ask w rec in
    if decide (judge (status rec) (r_hash rec) again hash2 = Regressed) then (Regressed, false, again, w)
    else (Changed, true, after, w)
  else (outcome, false, after, w).

Definition tally (o : Outcome) (was_flaky : bool) (r : Region) : Region :=
  mkRegion (ring r) (state r) (started_ms r) (finished_ms r) (wrap64 (replayed r + 1))
    (match o with Identical => wrap64 (identical r + 1) | _ => identical r end)
    (match o with Changed => wrap64 (changed r + 1) | _ => changed r end)
    (if was_flaky then wrap64 (flaky r + 1) else flaky r)
    (match o with Regressed => wrap64 (regressed r + 1) | _ => regressed r end) (regressions r).
Definition set_regressions (r : Region) (l : list (bytes * Z * Z)) : Region :=
  mkRegion (ring r) (state r) (started_ms r) (finished_ms r) (replayed r) (identical r) (changed r) (flaky r) (regressed r) l.
Definition set_state (r : Region) (s started finished : Z) : Region :=
  mkRegion (ring r) s started finished (replayed r) (identical r) (changed r) (flaky r) (regressed r) (regressions r).

Definition replay_start (now : Z) (r : Region) : Region := set_state r REPLAYING now (finished_ms r).
(** [n] regressions have been written down. *)
Definition replay_one (st : Region * nat * W) (rec : Recorded) : Region * nat * W :=
  let '(r, n, w) := st in
  let '(o, was_flaky, after, w) := try_page w rec in
  let r := tally o was_flaky r in
  match o with
  | Regressed =>
      if (n <? REPORT_MAX)%nat
      then (set_regressions r (<[n := (kept URL_MAX (host rec ++ path_and_query rec), status rec, after)]> (regressions r)), S n, w)
      else (r, n, w)
  | _ => (r, n, w)
  end.
Definition replay_end (now : Z) (r : Region) : Region := set_state r DONE (started_ms r) now.
(** The replay alone, of at most [limit] requests. *)
Definition replay (limit : nat) (t0 t1 : Z) (r : Region) (w : W) : Region * W :=
  let r := replay_start t0 r in
  let '(r, _, w) := foldl replay_one (r, 0%nat, w) (recorded_in r limit) in
  (replay_end t1 r, w).
End Replay.

(** ** The verdict *)

(** What the gate looks at, as the supervisor's model has it. *)
Definition seen (r : Region) : Supervisor.Region := Supervisor.mkRegion (state r =? DONE) (replayed r) (regressed r).
(** The pages a failed gate names: three at most. *)
Definition named (r : Region) : list (bytes * Z * Z) :=
  map (fun '(u, b, a) => (from_utf8_lossy u, b, a)) (take (Nat.min (Z.to_nat (regressed r)) 3) (regressions r)).
(** [/api/status]: the state, the counters and the regressions kept. *)
Definition report (r : Region) : string * nat * list Z * list (bytes * Z * Z) :=
  ((if state r =? REPLAYING then "replaying"%string else if state r =? DONE then "done"%string else "idle"%string),
   length (recorded_in r RING), [replayed r; identical r; changed r; flaky r; regressed r],
   map (fun '(u, b, a) => (from_utf8_lossy u, b mod 2 ^ 16, a mod 2 ^ 16)) (take (Nat.min (Z.to_nat (regressed r)) REPORT_MAX) (regressions r))).
Definition should_replay (enabled canary_active : bool) (my_slot : nat) : bool := enabled && (my_slot =? 0)%nat && canary_active.
