(* ===== verification/VerifySpec.v ===== *)
(** What a verified reload promises: the ring holds the last answer of each URL that has a slot;
    the counters of a replay are the outcomes of its pages; a page that worked and fails twice
    stops the rollout, and nothing else the replay sees does. *)

From stdpp Require Import list strings.
From S2P Require Import Prelude Bytes Verify.
From S2P Require Supervisor SupervisorSpec.

(** ** The ring *)

Record Call := mkCall { c_host : bytes; c_pq : bytes; c_status : Z; c_hash : Z; c_at : Z }.
Definition fits (c : Call) : bool := (length (c_host c) <=? HOST_MAX)%nat && (length (c_pq c) <=? PQ_MAX)%nat.
Definition record_call (r : Region) (c : Call) : Region := record_in r (c_host c) (c_pq c) (c_status c) (c_hash c) (c_at c).
Definition slot_of_call (c : Call) : nat := slot_of (c_host c) (c_pq c).
Definition entry_of (c : Call) (seq : Z) : Entry :=
  mkEntry seq (fnv [c_host c; c_pq c]) (c_host c) (c_pq c) (c_status c) (c_hash c) (c_at c).

Lemma slot_of_lt host pq : (slot_of host pq < RING)%nat.
Proof.
  unfold slot_of. pose proof (Z.mod_pos_bound (fnv [host; pq]) (Z.of_nat RING)) as H.
  assert (0 < Z.of_nat RING) as H0 by done. specialize (H H0). lia.
Qed.

(** The last of the calls that fit and have the slot. *)
Fixpoint last_in (i : nat) (past : list Call) : option Call :=
  match past with
  | [] => None
  | c :: past => if fits c && (slot_of_call c =? i)%nat then Some c else last_in i past
  end.

Definition entry_matches (o : option Call) (e : Entry) : Prop :=
  match o with Some c => exists n, e = entry_of c n /\ Z.odd n = false /\ 0 < n | None => e = mkEntry 0 0 [] [] 0 0 0 end.

Lemma record_ring cs : 
  length (ring (foldl record_call map_region cs)) = RING
  /\ forall i e, ring (foldl record_call map_region cs) !! i = Some e -> entry_matches (last_in i (reverse cs)) e.
Proof.
  induction cs as [|c cs IH] using rev_ind.
  - split; [done|]. intros i e [-> _]%lookup_replicate. done.
  - rewrite foldl_snoc, reverse_snoc. cbn [last_in]. destruct IH as [Hl IH]. set (r := foldl record_call map_region cs) in *.
    unfold record_call, record_in, fits. set (i0 := slot_of (c_host c) (c_pq c)).
    destruct (Nat.leb_spec (length (c_host c)) HOST_MAX) as [Hh|Hh]; rewrite ?(proj2 (Nat.ltb_lt _ _) Hh), ?(proj2 (Nat.ltb_ge _ _) Hh); cbn [orb andb]; [|done].
    destruct (Nat.leb_spec (length (c_pq c)) PQ_MAX) as [Hp|Hp]; rewrite ?(proj2 (Nat.ltb_lt _ _) Hp), ?(proj2 (Nat.ltb_ge _ _) Hp); cbn [orb andb]; [|done].
    cbn [ring set_ring]. rewrite length_alter. split; [done|]. intros i e. unfold slot_of_call. fold i0.
    destruct (Nat.eqb_spec i0 i) as [<-|Hne]; [|rewrite list_lookup_alter_ne by done; apply IH].
    rewrite list_lookup_alter_eq. destruct (ring r !! i0) as [e0|] eqn:E; [|done]. intros [= <-]. apply IH in E.
    assert (Z.odd (seq e0) = false /\ 0 <= seq e0) as [Ho H0].
    { unfold entry_matches in E. destruct (last_in _ _); [destruct E as (n & -> & ? & ?); cbn; split; [done|lia]|by rewrite E]. }
    unfold write_entry. rewrite Ho. exists (seq e0 + 2). unfold entry_of, kept. rewrite !take_ge by done.
    split; [done|]. split; [by rewrite Z.odd_add, Ho|lia].
Qed.

Lemma read_entry_of c n : Z.odd n = false -> 0 < n ->
  read_entry (entry_of c n) = Some (mkRecorded (from_utf8_lossy (c_host c)) (from_utf8_lossy (c_pq c)) (c_status c mod 2 ^ 16) (c_hash c) (c_at c)).
Proof. intros Ho Hn. unfold read_entry. cbn. rewrite Ho. by replace (n =? 0) with false by (symmetry; apply Z.eqb_neq; lia). Qed.

(** What is replayed was answered: each page of a replay is one of the calls that were recorded,
    as it was, and no later call had its slot. *)
Theorem replayed_was_answered cs limit rec :
  rec ∈ recorded_in (foldl record_call map_region cs) limit ->
  exists pre c post, cs = pre ++ c :: post /\ fits c = true
    /\ rec = mkRecorded (from_utf8_lossy (c_host c)) (from_utf8_lossy (c_pq c)) (c_status c mod 2 ^ 16) (c_hash c) (c_at c)
    /\ forall c', c' ∈ post -> fits c' = true -> slot_of_call c' <> slot_of_call c.
Proof.
  intros Hr. apply (subseteq_take limit) in Hr. rewrite sort_by_Permutation in Hr.
  apply list_elem_of_omap in Hr as (e & (i & He)%list_elem_of_lookup & Hr).
  destruct (record_ring cs) as [_ Hm]. apply Hm in He. unfold entry_matches in He.
  destruct (last_in i (reverse cs)) as [c|] eqn:El; [|by rewrite He in Hr].
  destruct He as (n & -> & Ho & Hn). rewrite read_entry_of in Hr by done. simplify_eq.
  assert (forall l, last_in i l = Some c -> exists a b, l = a ++ c :: b /\ fits c = true /\ slot_of_call c = i
            /\ forall c', c' ∈ a -> fits c' = true -> slot_of_call c' <> i) as Hl.
  { clear. induction l as [|x l IH]; cbn [last_in]; [done|]. destruct (fits x && (slot_of_call x =? i)%nat) eqn:E.
    - intros [= ->]. apply andb_true_iff in E as [? ?%Nat.eqb_eq]. exists [], l. split_and!; [done..|]. by intros c' ?%elem_of_nil.
    - intros (a & b & -> & ? & ? & Ha)%IH. exists (x :: a), b. split_and!; [done..|].
      intros c' [->|Hc]%elem_of_cons Hf Hs; [|by eapply Ha]. by rewrite Hf, (proj2 (Nat.eqb_eq _ _) Hs) in E. }
  destruct (Hl _ El) as (a & b & E & Hf & Hs & Ha). exists (reverse b), c, (reverse a). split_and!; [|done|done|].
  - rewrite <- (reverse_involutive cs), E, reverse_app, reverse_cons, <- app_assoc. done.
  - intros c' Hc. rewrite Hs. apply Ha. by apply elem_of_reverse.
Qed.

(** ** The replay *)

Section Replay.
Context {W : Type} (ask : W -> Recorded -> Z * option Z * W).
Implicit Types (w : W) (rec : Recorded).

(** The pages in order, each with its outcome. *)
Fixpoint outcomes w (todo : list Recorded) : list (Recorded * Outcome * bool) :=
  match todo with
  | [] => []
  | rec :: todo => let '(o, was_flaky, _, w) := try_page ask w rec in (rec, o, was_flaky) :: outcomes w todo
  end.
Definition of_outcome (o : Outcome) (l : list (Recorded * Outcome * bool)) : Z :=
  Z.of_nat (length (List.filter (fun x => bool_decide (x.1.2 = o)) l)).
Definition of_flaky (l : list (Recorded * Outcome * bool)) : Z := Z.of_nat (length (List.filter snd l)).

Lemma of_outcome_cons o x l : of_outcome o (x :: l) = (if decide (x.1.2 = o) then 1 else 0) + of_outcome o l.
Proof. unfold of_outcome. cbn [List.filter]. case_bool_decide; case_decide; try done; cbn [length]; lia. Qed.
Lemma of_flaky_cons x l : of_flaky (x :: l) = (if x.2 then 1 else 0) + of_flaky l.
Proof. unfold of_flaky. cbn [List.filter]. destruct x.2; cbn [length]; lia. Qed.
Lemma of_outcome_nil o : of_outcome o [] = 0.
Proof. done. Qed.
Lemma of_flaky_nil : of_flaky [] = 0.
Proof. done. Qed.
Lemma of_outcome_bounds o l : 0 <= of_outcome o l <= Z.of_nat (length l).
Proof. unfold of_outcome. pose proof (List.filter_length_le (fun x => bool_decide (x.1.2 = o)) l). lia. Qed.
Lemma of_flaky_bounds l : 0 <= of_flaky l <= Z.of_nat (length l).
Proof. unfold of_flaky. pose proof (List.filter_length_le (snd (B := bool)) l). lia. Qed.

(** What a replay adds to the counters. *)
Record adds (r r' : Region) (l : list (Recorded * Outcome * bool)) : Prop := {
  adds_replayed : replayed r' = replayed r + Z.of_nat (length l);
  adds_identical : identical r' = identical r + of_outcome Identical l;
  adds_changed : changed r' = changed r + of_outcome Changed l;
  adds_regressed : regressed r' = regressed r + of_outcome Regressed l;
  adds_flaky : flaky r' = flaky r + of_flaky l }.

Definition room (r : Region) (n : nat) : Prop :=
  Forall (fun x => 0 <= x /\ x + Z.of_nat n < W64) [replayed r; identical r; changed r; regressed r; flaky r].

Lemma wrap_room x : 0 <= x -> x + 1 < W64 -> wrap64 (x + 1) = x + 1.
Proof. intros. apply Z.mod_small. lia. Qed.

Lemma tally_adds rec o fl r : room r 1 -> adds r (tally o fl r) [(rec, o, fl)].
Proof.
  unfold room. rewrite !Forall_cons. intros ([? ?] & [? ?] & [? ?] & [? ?] & [? ?] & _).
  split; rewrite ?of_outcome_cons, ?of_flaky_cons, ?of_outcome_nil, ?of_flaky_nil; cbn [fst snd length tally replayed identical changed regressed flaky];
    destruct o, fl; repeat case_decide; try congruence; rewrite ?wrap_room by lia; lia.
Qed.

Lemma replay_adds todo : forall r n w, room r (length todo) ->
  let '(r', _, _) := foldl (replay_one ask) (r, n, w) todo in adds r r' (outcomes w todo) /\ state r' = state r.
Proof.
  induction todo as [|rec todo IH]; intros r n w Hr; cbn [foldl outcomes].
  { split; [|done]. split; rewrite ?of_outcome_nil, ?of_flaky_nil; cbn [length]; lia. }
  destruct (try_page ask w rec) as [[[o fl] after] w1] eqn:Et.
  assert (exists r1 n1, replay_one ask (r, n, w) rec = (r1, n1, w1) /\ adds r r1 [(rec, o, fl)] /\ state r1 = state r) as (r1 & n1 & -> & Ha & Hs).
  { unfold replay_one. rewrite Et. pose proof (tally_adds rec o fl r) as Ht.
    assert (adds r (tally o fl r) [(rec, o, fl)]) as [] by (apply Ht; eapply Forall_impl; [exact Hr|cbn [length]; intros x; lia]).
    destruct o; [by do 2 eexists..|]. destruct (n <? REPORT_MAX)%nat; by do 2 eexists. }
  specialize (IH r1 n1 w1). destruct (foldl (replay_one ask) (r1, n1, w1) todo) as [[r' n'] w'].
  destruct Ha as [A1 A2 A3 A4 A5]. rewrite ?of_outcome_cons, ?of_flaky_cons, ?of_outcome_nil, ?of_flaky_nil in *. cbn [length fst snd] in *.
  assert (room r1 (length todo)) as Hr1.
  { unfold room in *. rewrite !Forall_cons in *. rewrite A1, A2, A3, A4, A5.
    destruct o, fl; repeat case_decide; try congruence; split_and!; try done; lia. }
  destruct (IH Hr1) as [[B1 B2 B3 B4 B5] E]. split; [|congruence].
  split; rewrite ?of_outcome_cons, ?of_flaky_cons; cbn [length fst snd]; lia.
Qed.

Lemma outcomes_length w todo : length (outcomes w todo) = length todo.
Proof. revert w. induction todo as [|rec todo IH]; intros w; cbn [outcomes]; [done|]. destruct (try_page ask w rec) as [[[o fl] a] w1]. cbn. by rewrite IH. Qed.

(** The page, asked now and once more, is worse both times than it was before. *)
Definition fails_twice w rec : Prop :=
  let '(after, hash, w1) := ask w rec in
  let '(again, hash2, _) := ask w1 rec in
  judge (status rec) (r_hash rec) after hash = Regressed /\ judge (status rec) (r_hash rec) again hash2 = Regressed.
Definition asked w (pre : list Recorded) : W := foldl (fun w rec => (try_page ask w rec).2) w pre.

Lemma try_page_regressed w rec : (try_page ask w rec).1.1.1 = Regressed <-> fails_twice w rec.
Proof.
  unfold try_page, fails_twice. destruct (ask w rec) as [[after hash] w1]. destruct (ask w1 rec) as [[again hash2] w2].
  repeat case_decide; cbn; naive_solver.
Qed.

Lemma regressed_somewhere w todo :
  0 < of_outcome Regressed (outcomes w todo) <-> exists pre rec post, todo = pre ++ rec :: post /\ fails_twice (asked w pre) rec.
Proof.
  revert w. induction todo as [|rec todo IH]; intros w; cbn [outcomes].
  { rewrite of_outcome_nil. split; [lia|]. by intros ([|? ?] & ? & ? & ? & _). }
  pose proof (try_page_regressed w rec) as Ht. destruct (try_page ask w rec) as [[[o fl] a] w1] eqn:Et. cbn in Ht.
  rewrite of_outcome_cons. cbn [fst snd]. pose proof (of_outcome_bounds Regressed (outcomes w1 todo)) as [H0 _].
  specialize (IH w1). split.
  - destruct (decide (o = Regressed)) as [->|Ho]; intros Hp; [exists [], rec, todo; split; [done|by apply Ht]|].
    destruct (proj1 IH) as (pre & r & post & -> & Hf); [lia|]. exists (rec :: pre), r, post. split; [done|].
    unfold asked. cbn [foldl]. by rewrite Et.
  - intros (pre & r & post & E & Hf). destruct pre as [|x pre]; cbn [app] in E; simplify_eq.
    + apply Ht in Hf as ->. rewrite decide_True by done. lia.
    + unfold asked in Hf. cbn [foldl] in Hf. rewrite Et in Hf. assert (0 < of_outcome Regressed (outcomes w1 (pre ++ r :: post))) as H1 by (apply IH; by exists pre, r, post).
      case_decide; lia.
Qed.

Lemma outcomes_partition l : of_outcome Identical l + of_outcome Changed l + of_outcome Regressed l = Z.of_nat (length l).
Proof.
  induction l as [|x l IH]; [done|]. rewrite !of_outcome_cons. cbn [length]. destruct (x.1.2); repeat case_decide; try congruence; lia.
Qed.

Definition fresh (r : Region) : Prop := replayed r = 0 /\ identical r = 0 /\ changed r = 0 /\ regressed r = 0 /\ flaky r = 0.

Lemma recorded_in_length r limit : (length (recorded_in r limit) <= length (ring r))%nat.
Proof.
  unfold recorded_in. rewrite length_take, (Permutation_length (sort_by_Permutation _ _)).
  assert (length (omap read_entry (ring r)) <= length (ring r))%nat; [|lia].
  generalize (ring r). intros l. induction l as [|e l IH]; cbn [omap list_omap length]; [lia|]. destruct (read_entry e); cbn [length]; lia.
Qed.

(** The verdict of a replay that nobody reset meanwhile: every page is counted as identical,
    changed or regressed, and the gate fails exactly when some page that worked before failed when
    it was asked and again when it was asked once more; otherwise it passes with the number of
    pages asked. *)
Theorem verified_gate limit t0 t1 r r' w w' timeout elapsed :
  fresh r -> length (ring r) = RING -> replay ask limit t0 t1 r w = (r', w') ->
  let todo := recorded_in r limit in
  (replayed r' = Z.of_nat (length todo) /\ replayed r' = identical r' + changed r' + regressed r')
  /\ (Supervisor.gate timeout (Some (seen r')) elapsed = Supervisor.GateFail
      <-> exists pre rec post, todo = pre ++ rec :: post /\ fails_twice (asked w pre) rec)
  /\ (Supervisor.gate timeout (Some (seen r')) elapsed = Supervisor.GateFail
      \/ Supervisor.gate timeout (Some (seen r')) elapsed = Supervisor.Pass (Z.of_nat (length todo))).
Proof.
  intros (F1 & F2 & F3 & F4 & F5) Hl. unfold replay. change (recorded_in (replay_start t0 r) limit) with (recorded_in r limit).
  pose proof (recorded_in_length r limit) as Hn. rewrite Hl in Hn. set (todo := recorded_in r limit) in *.
  pose proof (replay_adds todo (replay_start t0 r) 0 w) as Ha. destruct (foldl _ _ todo) as [[r1 n1] w1]. intros [= <- <-]. cbv zeta.
  destruct Ha as [[A1 A2 A3 A4 A5] _].
  { unfold room. cbn [replayed identical changed regressed flaky replay_start set_state]. rewrite F1, F2, F3, F4, F5.
    assert (0 + Z.of_nat (length todo) < W64) by (unfold RING, W64 in *; lia). by repeat constructor; lia. }
  cbn [replayed identical changed regressed flaky replay_start set_state] in A1, A2, A3, A4, A5. rewrite ?F1, ?F2, ?F3, ?F4, ?F5, ?outcomes_length in *.
  pose proof (outcomes_partition (outcomes w todo)) as Hp. rewrite outcomes_length in Hp.
  pose proof (of_outcome_bounds Regressed (outcomes w todo)) as [H0 _].
  unfold Supervisor.gate. cbn [seen Supervisor.done Supervisor.regressed Supervisor.replayed state replay_end set_state negb Z.eqb Pos.eqb regressed replayed identical changed].
  rewrite <- regressed_somewhere. rewrite A1, A2, A3, A4, !Z.add_0_l. change (DONE =? DONE) with true. cbn [negb].
  destruct (Z.ltb_spec 0 (of_outcome Regressed (outcomes w todo))); (split; [by split; lia|]); split; try (by split; intros; first [done|lia]); [by left|by right].
Qed.
End Replay.

(** ** The rollout *)

Import Supervisor.

Lemma kill_keeps w pid :
  log (kill w pid) = log w /\ reload_cursor (kill w pid) = reload_cursor w
  /\ canary_active (kill w pid) = canary_active w /\ rollout (kill w pid) = rollout w.
Proof. unfold kill. by destruct (procs w !! pid). Qed.

(** C5.  A page that worked before the deploy and failed twice after it stops the rollout: once the
    canary's window is over and the replay done, the canary is judged unhealthy, no worker is
    rolled, the reload's cursor stays where it is and no canary is waited for any more. *)
Theorem regression_stops_rollout {W} (ask : W -> Recorded -> Z * option Z * W) limit t0 t1 r r' w w' c sw now pre rec post :
  fresh r -> length (ring r) = RING -> Verify.replay ask limit t0 t1 r w = (r', w') ->
  recorded_in r limit = pre ++ rec :: post -> fails_twice ask (asked ask w pre) rec ->
  Supervisor.replay sw = Some (seen r') ->
  canary_active sw = true -> canary_deadline sw <= now -> verify_enabled c = true -> child sw 0 <> 0 ->
  exists l, log (canary c sw now) = l ++ EVerdict false :: log sw /\ (forall i pid, ERoll i pid ∉ l)
    /\ reload_cursor (canary c sw now) = reload_cursor sw /\ canary_active (canary c sw now) = false /\ rollout (canary c sw now) = 3.
Proof.
  intros Hf Hl Hr Ht Hbad Hsw Ha Hd Hv Hc.
  assert (verify_gate c sw now = GateFail) as Hg.
  { unfold verify_gate. rewrite Ha, Hv, Hsw, (proj2 (Z.leb_le _ _) Hd), (proj2 (Z.eqb_neq _ _) Hc). cbn [andb negb].
    apply (verified_gate ask limit t0 t1 r r' w w' _ _ Hf Hl Hr). by exists pre, rec, post. }
  unfold canary. rewrite Hg, Ha, (proj2 (Z.leb_le _ _) Hd). cbn [andb].
  assert (verdict c sw GateFail = Unhealthy Verification) as -> by (unfold verdict; by rewrite (proj2 (Z.eqb_neq _ _) Hc)).
  rewrite bool_decide_false by done. cbn [negb act_on]. set (w1 := set_canary _ _ _ _).
  destruct (_ && _); [|by exists []; split_and!; [|by intros ? ? ?%elem_of_nil|..]].
  destruct (kill_keeps (set_quarantined w1 (<[0%nat := true]> (quarantined w1))) (child w1 0)) as (K1 & K2 & K3 & K4).
  exists [EDrain (child w1 0)]. cbn [note log reload_cursor canary_active rollout]. rewrite K1, K2, K3, K4.
  split_and!; [done|by intros ? ? ?%list_elem_of_singleton|done..].
Qed.

(** ** The source's tests, a rollout that is stopped, and what modelling showed *)

Example what_counts_as_a_regression :
  [judge 200 1 200 (Some 1); judge 200 1 200 (Some 2); judge 200 1 200 None; judge 200 1 500 None; judge 302 1 502 None;
   judge 200 1 404 None; judge 200 1 429 None; judge 301 1 404 None; judge 404 1 500 None; judge 500 1 500 (Some 1)]
  = [Identical; Changed; Identical; Regressed; Regressed; Regressed; Changed; Changed; Changed; Identical].
Proof. by vm_compute. Qed.

Definition demo_calls : list Call :=
  [mkCall (lit "shop.test") (lit "/a") 200 11 1000; mkCall (lit "shop.test") (lit "/b?x=1") 200 22 2000; mkCall (lit "shop.test") (lit "/a") 200 33 3000].
Definition demo_ring : Verify.Region := foldl record_call map_region demo_calls.
Lemma replayed_was_answered_witness :
  exists pre c post, demo_calls = pre ++ c :: post /\ fits c = true
    /\ mkRecorded (lit "shop.test") (lit "/a") 200 33 3000
       = mkRecorded (from_utf8_lossy (c_host c)) (from_utf8_lossy (c_pq c)) (c_status c mod 2 ^ 16) (c_hash c) (c_at c)
    /\ forall c', c' ∈ post -> fits c' = true -> slot_of_call c' <> slot_of_call c.
Proof.
  apply (replayed_was_answered demo_calls 10).
  assert (recorded_in (foldl record_call map_region demo_calls) 10
          = [mkRecorded (lit "shop.test") (lit "/a") 200 33 3000; mkRecorded (lit "shop.test") (lit "/b?x=1") 200 22 2000]) as -> by (vm_compute; reflexivity).
  left.
Defined.

(** The new code has lost one page and has a second that fails the first time it is asked. *)
Definition demo_ask (n : nat) (rec : Recorded) : Z * option Z * nat :=
  if beq (path_and_query rec) (lit "/a") then (500, None, S n) else if (n <? 3)%nat then (502, None, S n) else (200, Some 22, S n).
Definition demo_replay : Verify.Region * nat := Verify.replay demo_ask 200 0 1 demo_ring 0%nat.
Definition demo_conf : Conf := mkConf 2 0 0 0 0 0 false true 5 20 200 300 true 60.
Definition judged : World :=
  let w := begin_reload demo_conf 1000 (boot demo_conf (fun i => 100 + Z.of_nat i) 990 None None) in
  set_shared w (stats w) (Some (seen demo_replay.1)).

Lemma regression_stops_rollout_witness :
  (Verify.regressed demo_replay.1 = 1 /\ Verify.flaky demo_replay.1 = 1)
  /\ exists l, log (canary demo_conf judged 1005) = l ++ EVerdict false :: log judged /\ (forall i pid, ERoll i pid ∉ l)
    /\ reload_cursor (canary demo_conf judged 1005) = reload_cursor judged
    /\ canary_active (canary demo_conf judged 1005) = false /\ rollout (canary demo_conf judged 1005) = 3.
Proof.
  split; [by vm_compute|].
  apply (regression_stops_rollout demo_ask 200 0 1 demo_ring demo_replay.1 0%nat demo_replay.2 demo_conf judged 1005
           [] (mkRecorded (lit "shop.test") (lit "/a") 200 33 3000) [mkRecorded (lit "shop.test") (lit "/b?x=1") 200 22 2000]).
  - by vm_compute.
  - by vm_compute.
  - unfold demo_replay. by destruct (Verify.replay _ _ _ _ _ _).
  - vm_compute. reflexivity.
  - by vm_compute.
  - reflexivity.
  - by vm_compute.
  - by vm_compute.
  - reflexivity.
  - by vm_compute.
Defined.

(** A second reload while the first one's canary replays: the reset sends the verdict back to
    idle, but the old worker, which drains, goes on and ends its replay.  What it leaves passes the
    second reload's gate, though the page it had found broken is forgotten and nothing was asked
    of the code now being deployed. *)
Definition overtaken : Verify.Region :=
  let '(r, n, w) := replay_one demo_ask (replay_start 0 demo_ring, 0%nat, 0%nat) (mkRecorded (lit "shop.test") (lit "/a") 200 33 3000) in
  replay_end 2 (reset true r).
Lemma old_replay_passes_new_deploy : gate 120 (Some (seen overtaken)) 0 = Pass 0.
Proof. by vm_compute. Qed.
