(* ===== verification/Config.v ===== *)
(** The configuration ([config.rs]): what [askr.toml] says, and what [resolve] makes of it.

    A [FileConfig] is what [serde] read: every section with every field.  [resolve] checks it
    against the file system, in the source's order, and [assemble] builds what the server runs
    with.  An error is a constructor, one for each [ensure!], [bail!] and [?] of the source; its
    text is not modelled.  Warnings are log lines and are left out. *)

From Stdlib Require Import Floats.SpecFloat.
From S2P Require Import Prelude Bytes Ns Http Trust Cgi CachePolicy Statics Server.

(** ** Paths *)

(** What the file system answers while the configuration is read. *)
Class Files := {
  exists_ : bytes -> bool;                       (* [metadata(p).is_ok()] *)
  is_file : bytes -> bool;
  is_dir : bytes -> bool;
  canonicalize : bytes -> option bytes;
  current_dir : option bytes }.

(** [std::path::absolute]: no error but for the empty path and a working directory that is gone. *)
Definition absolute `{Files} (p : bytes) : option bytes :=
  match p with
  | [] => None
  | _ => if starts_with p (lit "/") then Some p else (fun d => d ++ lit "/" ++ p) <$> current_dir
  end.

(** [components().collect()]: [.] and repeated or trailing separators go, a leading [.] stays. *)
Definition path_parts (p : bytes) : list bytes := filter (fun c => c <> [] /\ c <> lit ".") (split_on 47 p).
Definition tidy (p : bytes) : bytes :=
  if starts_with p (lit "/") then lit "/" ++ join (lit "/") (path_parts p)
  else join (lit "/") ((if bool_decide (head (split_on 47 p) = Some (lit ".")) then [lit "."] else [])
                       ++ path_parts p).

(** [ns::app_path]. *)
Definition app_path `{Files} (p : bytes) : bytes := tidy (default p (absolute p)).

(** [Path::join]. *)
Definition path_join (d f : bytes) : bytes :=
  if starts_with f (lit "/") then f else if bool_decide (d = []) then f else join_path d f.

(** ** Socket addresses *)

Record SocketAddr := mkSock { sock_ip : IpAddr; sock_port : Z; sock_scope : Z }.

Definition read_scope (b : bytes) : Z * bytes :=
  match read_given_char 37 b with
  | Some b' => default (0, b) (read_number 10 (2 ^ 32 - 1) None true b')
  | None => (0, b)
  end.

(** [parse::<SocketAddr>()]. *)
Definition read_socket_v4 (b : bytes) : option (SocketAddr * bytes) :=
  '(o, r) ← read_ipv4_addr b; '(port, r') ← read_port r; Some (mkSock (V4 o) port 0, r').
Definition read_socket_v6 (b : bytes) : option (SocketAddr * bytes) :=
  b1 ← read_given_char 91 b; '(o, r) ← read_ipv6_addr b1;
  r' ← read_given_char 93 (read_scope r).2; '(port, r'') ← read_port r';
  Some (mkSock (V6 o) port (read_scope r).1, r'').
Definition parse_socket (b : bytes) : option SocketAddr :=
  match read_socket_v4 b with Some x => all_of (Some x) | None => all_of (read_socket_v6 b) end.

(** ** Floats: the [f64]s of [[reload]] *)

Definition f64_of (n : Z) : spec_float := binary_normalize 53 1024 n 0 false.

(** [f64::max]: the other operand when one is not a number. *)
Definition f64_max (x y : spec_float) : spec_float :=
  match x with S754_nan => y | _ => if SFltb x y then y else x end.

(** ** The sections of the file *)

Record SiteSpec := mkSiteSpec {
  spec_hosts : list bytes; spec_root : bytes; spec_front : bytes; spec_app_id : option bytes }.

Record SidecarSpec := mkSidecar { command : bytes }.

Record ServerSection := mkServer {
  srv_listen : bytes;
  srv_root : bytes;
  srv_front : bytes;
  srv_workers : bytes;
  srv_workers_min : option Z;
  srv_workers_max : option Z;
  srv_max_requests : Z;
  srv_max_rss : Z;
  srv_shadow_to : option bytes;
  srv_shadow_sample : Z;
  srv_max_body_size : bytes;
  srv_https : bool;
  srv_force_https : bool;
  srv_http_redirect : option SocketAddr;
  srv_traffic_log : option bytes;
  srv_trusted_proxies : list bytes;
  srv_app_id : option bytes;
  srv_access_log : option bytes;
  srv_http3 : bool;
  srv_tls_handshake_timeout : Z;
  srv_header_read_timeout : Z;
  srv_sandbox : bool;
  srv_sandbox_required : bool;
  srv_sandbox_write : list bytes }.

Record WorkerSection := mkWorker {
  wrk_script : option bytes;
  wrk_app_base : option bytes;
  wrk_ini : option bytes;
  wrk_paranoid : bool;
  wrk_paranoid_sample : option Z }.

Record TlsSection := mkTls { tls_cert : option bytes; tls_key : option bytes; tls_self_signed : bool }.

Record AcmeSection := mkAcme {
  acme_enabled : bool;
  acme_domains : list bytes;
  acme_email : option bytes;
  acme_dir : option bytes;
  acme_staging : bool;
  acme_directory_url : option bytes;
  acme_http : option bytes;
  acme_ca_root : option bytes }.

Record AdminSection := mkAdmin { adm_listen : option bytes }.

Record QueueSection := mkQueue {
  q_workers : Z;
  q_workers_max : option Z;
  q_script : option bytes;
  q_slots : Z;
  q_persist : option bytes;
  q_stall_secs : Z;
  q_root : option bytes }.

Record SchedulerSection := mkScheduler { sch_script : option bytes; sch_root : option bytes }.

Record CacheSection := mkCacheSection {
  ca_slots : Z;
  ca_large_slots : Z;
  ca_response_slots : Z;
  ca_strip_query_params : list bytes;
  ca_ignore_cookies : list bytes;
  ca_vary_user_agent : bool;
  ca_saint_seconds : Z;
  ca_rule : list CacheRule;
  ca_persist : option bytes;
  ca_persist_key : option bytes }.

Record BroadcastSection := mkBroadcast { bc_enabled : bool }.

Record ReloadSection := mkReload {
  rel_canary : bool;
  rel_canary_window : Z;
  rel_canary_min_requests : Z;
  rel_canary_max_error_rate : spec_float;
  rel_canary_max_latency_factor : spec_float;
  rel_verify : bool;
  rel_verify_requests : Z;
  rel_verify_timeout : Z }.

Record RecordSection := mkRecord { rec_dir : option bytes }.
Record PusherSection := mkPusher { psh_enabled : bool; psh_secret : option bytes }.

Record FileConfig := mkFile {
  server : ServerSection;
  worker : WorkerSection;
  tls : TlsSection;
  acme : AcmeSection;
  admin : AdminSection;
  queue : QueueSection;
  scheduler : SchedulerSection;
  cache : CacheSection;
  broadcast : BroadcastSection;
  reload : ReloadSection;
  record : RecordSection;
  pusher : PusherSection;
  sidecar : list SidecarSpec;
  redirect : list RedirectRule;
  site : list SiteSpec;
  ratelimit : list RateLimitRule }.

(** The values of keys a file leaves out. *)
Definition default_redirect_status : Z := 308.
Definition default_rl_window : Z := 60.
Definition default_rl_by : bytes := lit "ip".
Definition default_front : bytes := lit "index.php".
Definition default_workers_setting : bytes := lit "auto".
Definition default_body : bytes := lit "16M".
Definition default_shadow_sample : Z := 100.
Definition default_handshake_timeout : Z := 10.
Definition default_header_read_timeout : Z := 15.
Definition default_verify_requests : Z := 200.
Definition default_verify_timeout : Z := 120.
Definition default_canary_window : Z := 5.
Definition default_canary_min_requests : Z := 20.
Definition default_canary_max_error_rate : spec_float := f64_of 2.
Definition default_canary_max_latency_factor : spec_float := f64_of 3.

(** [Default for ServerSection] and [Default for ReloadSection]. *)
Definition server_default : ServerSection :=
  mkServer (lit "127.0.0.1:8000") (lit "public") default_front default_workers_setting None None 0 0
    None default_shadow_sample default_body false false None None [] None None false
    default_handshake_timeout default_header_read_timeout false false [].
Definition reload_default : ReloadSection :=
  mkReload false default_canary_window default_canary_min_requests default_canary_max_error_rate
    default_canary_max_latency_factor false default_verify_requests default_verify_timeout.

(** ** What the server runs with *)

(** [server::Site]. *)
Record Site := mkSite {
  s_hosts : list bytes; s_docroot : bytes; s_front_controller : bytes; s_app_id : option bytes }.

(** [server::Config]. *)
Record Config := mkConfig {
  docroot : bytes;
  sidecar_docroot : bytes;
  scheduler_docroot : bytes;
  front_controller : bytes;
  listen : SocketAddr;
  https : bool;
  worker_script : option bytes;
  max_requests : Z;
  max_rss_mb : Z;
  c_tls_cert : option bytes;
  c_tls_key : option bytes;
  c_tls_self_signed : bool;
  max_body_size : Z;
  record_dir : option bytes;
  c_pusher : bool;
  pusher_secret : option bytes;
  access_log : option bytes;
  traffic_log : option bytes;
  sandbox : bool;
  sandbox_required : bool;
  sandbox_write : list bytes;
  shadow_to : option bytes;
  shadow_sample : Z;
  http3 : bool;
  tls_handshake_timeout : Z;
  header_read_timeout : Z;
  force_https : bool;
  http_redirect : option SocketAddr;
  redirects : list RedirectRule;
  sites : list Site;
  app_id : option bytes;
  cache_strip_query : list bytes;
  cache_ignore_cookies : list bytes;
  cache_vary_user_agent : bool;
  cache_saint_seconds : Z;
  cache_rules : list CacheRule;
  ratelimits : list RateLimitRule;
  trusted_proxies : list Cidr }.

Record Resolved := mkResolved {
  config : Config;
  workers : Z;
  workers_min : Z;
  workers_max : Z;
  ini : option bytes;
  app_base : option bytes;
  paranoid : bool;
  paranoid_sample : option Z;
  admin_listen : option SocketAddr;
  r_acme : bool;
  r_acme_domains : list bytes;
  r_acme_email : option bytes;
  r_acme_dir : option bytes;
  r_acme_staging : bool;
  r_acme_directory : option bytes;
  r_acme_http : option SocketAddr;
  r_acme_ca_root : option bytes;
  queue_workers : Z;
  queue_workers_max : Z;
  queue_script : option bytes;
  queue_slots : Z;
  queue_persist : option bytes;
  queue_stall_secs : Z;
  scheduler_script : option bytes;
  sidecars : list bytes;
  cache_slots : Z;
  cache_large_slots : Z;
  response_cache_slots : Z;
  cache_persist : option bytes;
  cache_persist_key : option bytes;
  r_broadcast : bool;
  canary_reload : bool;
  canary_window : Z;
  canary_min_requests : Z;
  canary_max_error_rate : spec_float;
  canary_max_latency_factor : spec_float;
  verify : bool;
  verify_requests : Z;
  verify_timeout : Z }.

(** [Checked]: what validation computed on the way. *)
Record Checked := mkChecked {
  ck_listen : SocketAddr;
  ck_docroot : bytes;
  ck_front : bytes;
  ck_sidecar_docroot : bytes;
  ck_scheduler_docroot : bytes;
  ck_sites : list Site;
  ck_workers : Z;
  ck_max_body_size : Z;
  ck_admin_listen : option SocketAddr;
  ck_acme_http : option SocketAddr }.

(** ** [assemble] *)

(** The [config] of the literal. *)
Definition assemble_config (f : FileConfig) (k : Checked) : Config :=
  let s := server f in
  let tls_on := bool_decide (is_Some (tls_cert (tls f))) || tls_self_signed (tls f) || acme_enabled (acme f) in
  {| docroot := ck_docroot k;
     sidecar_docroot := ck_sidecar_docroot k;
     scheduler_docroot := ck_scheduler_docroot k;
     front_controller := ck_front k;
     listen := ck_listen k;
     https := srv_https s || tls_on;
     worker_script := wrk_script (worker f);
     max_requests := srv_max_requests s;
     max_rss_mb := srv_max_rss s;
     c_tls_cert := tls_cert (tls f);
     c_tls_key := tls_key (tls f);
     c_tls_self_signed := tls_self_signed (tls f);
     max_body_size := ck_max_body_size k;
     record_dir := rec_dir (record f);
     c_pusher := psh_enabled (pusher f);
     pusher_secret := psh_secret (pusher f);
     access_log := srv_access_log s;
     traffic_log := srv_traffic_log s;
     sandbox := srv_sandbox s || srv_sandbox_required s || bool_decide (srv_sandbox_write s <> []);
     sandbox_required := srv_sandbox_required s;
     sandbox_write := srv_sandbox_write s;
     shadow_to := srv_shadow_to s;
     shadow_sample := srv_shadow_sample s;
     http3 := srv_http3 s;
     tls_handshake_timeout := srv_tls_handshake_timeout s;
     header_read_timeout := srv_header_read_timeout s;
     force_https := srv_force_https s;
     http_redirect := srv_http_redirect s;
     redirects := redirect f;
     sites := ck_sites k;
     cache_strip_query := ca_strip_query_params (cache f);
     cache_ignore_cookies := ca_ignore_cookies (cache f);
     cache_vary_user_agent := ca_vary_user_agent (cache f);
     cache_saint_seconds := ca_saint_seconds (cache f);
     cache_rules := ca_rule (cache f);
     ratelimits := ratelimit f;
     trusted_proxies := omap parse_cidr (srv_trusted_proxies s);
     app_id := srv_app_id s |}.

Definition assemble (f : FileConfig) (k : Checked) : Resolved :=
  let s := server f in
  let q := queue f in
  let r := reload f in
  let queue_workers := if bool_decide (is_Some (q_script q)) then q_workers q else 0 in
  let workers_min := Z.max (default (ck_workers k) (srv_workers_min s)) 1 in
  {| config := assemble_config f k;
     workers := ck_workers k;
     workers_min := workers_min;
     workers_max := Z.max (default (ck_workers k) (srv_workers_max s)) workers_min;
     ini := wrk_ini (worker f);
     app_base := wrk_app_base (worker f);
     paranoid := wrk_paranoid (worker f);
     paranoid_sample := wrk_paranoid_sample (worker f);
     admin_listen := ck_admin_listen k;
     r_acme := acme_enabled (acme f);
     r_acme_domains := acme_domains (acme f);
     r_acme_email := acme_email (acme f);
     r_acme_dir := acme_dir (acme f);
     r_acme_staging := acme_staging (acme f);
     r_acme_directory := acme_directory_url (acme f);
     r_acme_http := ck_acme_http k;
     r_acme_ca_root := acme_ca_root (acme f);
     queue_workers := queue_workers;
     queue_workers_max := Z.max (default queue_workers (q_workers_max q)) queue_workers;
     queue_script := q_script q;
     queue_slots := q_slots q;
     queue_persist := q_persist q;
     queue_stall_secs := q_stall_secs q;
     scheduler_script := sch_script (scheduler f);
     sidecars := command <$> sidecar f;
     cache_slots := ca_slots (cache f);
     cache_large_slots := ca_large_slots (cache f);
     response_cache_slots := ca_response_slots (cache f);
     cache_persist := ca_persist (cache f);
     cache_persist_key := ca_persist_key (cache f);
     r_broadcast := bc_enabled (broadcast f);
     canary_reload := rel_canary r;
     canary_window := Z.max (rel_canary_window r) 1;
     canary_min_requests := rel_canary_min_requests r;
     canary_max_error_rate := f64_max (rel_canary_max_error_rate r) (f64_of 0);
     canary_max_latency_factor := f64_max (rel_canary_max_latency_factor r) (f64_of 1);
     verify := rel_verify r;
     verify_requests := Z.max (rel_verify_requests r) 1;
     verify_timeout := Z.max (rel_verify_timeout r) 1 |}.

(** ** Errors *)

(** The [ensure!]s, [bail!]s and [?]s of [resolve].  A place is the number of a [[[site]]] entry,
    counted from one; 0 is [[server]]. *)
Inductive Err :=
| RootNotFound (key p : bytes)
| InvalidListen (s : bytes)
| FrontNotFound (p : bytes)
| SiteFrontNotFound (p : bytes)
| SiteWithoutHosts
| InvalidAppId (place : nat) (id : bytes)
| DocrootNamedTwice (place other : nat)
| AppIdUsedTwice (place other : nat)
| RuleWithoutPath
| RuleRegex (p : bytes)
| RulePath (p : bytes)
| RuleAction (a : bytes)
| RuleWithoutPolicy (p : bytes)
| RuleTwoPolicies (p : bytes)
| LimitRegex (p : bytes)
| LimitPath (p : bytes)
| LimitZero (p : bytes)
| LimitWindowZero (p : bytes)
| LimitBy (by_ : bytes)
| ProxyNotAddress (p : bytes)
| InvalidWorkers (s : bytes)
| InvalidSize (s : bytes)
| WorkerScriptNotFound (p : bytes)
| AppBaseNotFound (p : bytes)
| SampleZero
| SampleAndParanoid
| VerifyWithoutCanary
| CertNotFound (p : bytes)
| KeyNotFound (p : bytes)
| CertAndSelfSigned
| CertWithoutKey
| AcmeWithoutDomains
| AcmeAndCert
| AcmeDomain (d : bytes)
| AcmeCaRootNotFound (p : bytes)
| AcmeDisabled
| InvalidAcmeHttp (s : bytes)
| InvalidAdminListen (s : bytes)
| QueueWithoutScript
| QueueWithoutSlots
| SidecarUnnamed
| QueueScriptNotFound (p : bytes)
| SchedulerScriptNotFound (p : bytes).

#[global] Instance err_eq_dec : EqDecision Err.
Proof. solve_decision. Defined.

Definition Result (A : Type) : Type := (Err + A)%type.
#[global] Instance result_ret : MRet Result := fun A x => inr x.
#[global] Instance result_bind : MBind Result := fun A B f m =>
  match m with inl e => inl e | inr x => f x end.

(** [ensure!], and [ok_or] with [?]. *)
Definition ensure (b : bool) (e : Err) : Result () := if b then inr () else inl e.
Definition some_or {A} (o : option A) (e : Err) : Result A :=
  match o with Some x => inr x | None => inl e end.

(** A check of every element, and of the value of an option. *)
Definition each {A} (f : A -> Result ()) : list A -> Result () :=
  fix go l := match l with [] => inr () | x :: l => _ ← f x; go l end.
Definition when_some {A} (o : option A) (f : A -> Result ()) : Result () :=
  match o with Some x => f x | None => inr () end.
Fixpoint each_map {A B} (f : A -> Result B) (l : list A) : Result (list B) :=
  match l with [] => inr [] | x :: l => y ← f x; ys ← each_map f l; mret (y :: ys) end.
Definition option_map_res {A B} (f : A -> Result B) (o : option A) : Result (option B) :=
  match o with Some x => y ← f x; mret (Some y) | None => mret None end.

(** ** The checks of [resolve], in its order *)

Section Resolve.
Context `{Files}.

Definition app_root (p key : bytes) : Result bytes :=
  _ ← ensure (exists_ p) (RootNotFound key p); mret (app_path p).

Definition resolve_site (s : SiteSpec) : Result Site :=
  sroot ← app_root (spec_root s) (lit "site root");
  let sfront := spec_front s in
  _ ← ensure (is_file (path_join sroot sfront)) (SiteFrontNotFound (path_join sroot sfront));
  _ ← ensure (bool_decide (spec_hosts s <> [])) SiteWithoutHosts;
  mret (mkSite (to_ascii_lowercase <$> spec_hosts s) sroot sfront (spec_app_id s)).

(** The loop over [named], with the ids met so far. *)
Fixpoint check_ids (ids named : list (bytes * bytes * nat)) : Result () :=
  match named with
  | [] => mret ()
  | (root, id, place) :: named =>
      _ ← ensure (valid_app_id id) (InvalidAppId place id);
      _ ← each (fun '(r, other, where_) =>
                  _ ← ensure (negb (beq r root && negb (beq other id))) (DocrootNamedTwice place where_);
                  ensure (negb (negb (beq r root) && beq other id)) (AppIdUsedTwice place where_)) ids;
      check_ids (ids ++ [(root, id, place)]) named
  end.

(** [named], without the places that have no id. *)
Definition named_apps (root : bytes) (id : option bytes) (ss : list Site) : list (bytes * bytes * nat) :=
  omap (fun '(r, o, place) => (fun id => (r, id, place)) <$> o)
    ((root, id, 0%nat) :: imap (fun i s => (s_docroot s, s_app_id s, S i)) ss).

(** A root in the spelling of the served application it names.  Both are made by [app_path], so
    that two paths are equal when their bytes are. *)
Definition as_served (served : list bytes) (p : bytes) : bytes :=
  let real := canonicalize p in
  default p (head (filter (fun d => d = p \/ (is_Some real /\ canonicalize d = real)) served)).

Definition regex_shaped (p : bytes) : bool :=
  starts_with p (lit "^") || contains_sub (lit ".*") p || ends_with p (lit "$").

Definition check_rule (r : CacheRule) : Result () :=
  let p := rule_path r in
  _ ← ensure (bool_decide (trim p <> [])) RuleWithoutPath;
  _ ← ensure (negb (regex_shaped p)) (RuleRegex p);
  _ ← ensure (starts_with p (lit "/")) (RulePath p);
  _ ← when_some (action r) (fun a => ensure (beq a (lit "pass")) (RuleAction a));
  _ ← ensure (is_pass r || bool_decide (is_Some (rule_ttl r))) (RuleWithoutPolicy p);
  ensure (negb (is_pass r && bool_decide (is_Some (rule_ttl r)))) (RuleTwoPolicies p).

Definition by_ok (b : bytes) : bool :=
  beq b (lit "ip")
  || match strip_prefix (lit "header:") b with Some n => bool_decide (trim n <> []) | None => false end
  || match strip_prefix (lit "cookie:") b with Some n => bool_decide (trim n <> []) | None => false end.

Definition check_limit (r : RateLimitRule) : Result () :=
  let p := rl_path r in
  _ ← ensure (negb (regex_shaped p)) (LimitRegex p);
  _ ← ensure (starts_with p (lit "/")) (LimitPath p);
  _ ← ensure (0 <? rl_limit r) (LimitZero p);
  _ ← ensure (0 <? rl_window r) (LimitWindowZero p);
  ensure (by_ok (rl_by r)) (LimitBy (rl_by r)).

Definition check_proxy (p : bytes) : Result () :=
  ensure (bool_decide (is_Some (parse_cidr p))) (ProxyNotAddress p).

(** [parse_size] of [main.rs]: the product wraps in a release build. *)
Definition parse_size (s : bytes) : Result Z :=
  let s := trim s in
  let '(num, mult) :=
    match last s with
    | Some c =>
        if (c =? 75) || (c =? 107) then (take (length s - 1) s, 1024)
        else if (c =? 77) || (c =? 109) then (take (length s - 1) s, 1024 * 1024)
        else if (c =? 71) || (c =? 103) then (take (length s - 1) s, 1024 * 1024 * 1024)
        else (s, 1)
    | None => (s, 1)
    end in
  n ← some_or (parse_u64 (trim num)) (InvalidSize s);
  mret (wrap64 (n * mult)).

Definition resolve_workers (setting : bytes) (cpus : Z) : Result Z :=
  if beq setting (lit "auto") then mret (Z.max cpus 1)
  else n ← some_or (parse_u64 setting) (InvalidWorkers setting); mret (Z.max n 1).

Definition check_paranoid_sample (paranoid : bool) (sample : option Z) : Result () :=
  when_some sample (fun n =>
    _ ← ensure (1 <=? n) SampleZero; ensure (negb paranoid) SampleAndParanoid).

Definition check_worker (w : WorkerSection) : Result () :=
  _ ← when_some (wrk_script w) (fun p => ensure (is_file p) (WorkerScriptNotFound p));
  _ ← when_some (wrk_app_base w) (fun p => ensure (is_dir p) (AppBaseNotFound p));
  check_paranoid_sample (wrk_paranoid w) (wrk_paranoid_sample w).

Definition check_reload (r : ReloadSection) : Result () :=
  ensure (negb (rel_verify r) || rel_canary r) VerifyWithoutCanary.

Definition check_tls (t : TlsSection) : Result () :=
  match tls_cert t, tls_key t with
  | Some c, Some k =>
      _ ← ensure (is_file c) (CertNotFound c);
      _ ← ensure (is_file k) (KeyNotFound k);
      ensure (negb (tls_self_signed t)) CertAndSelfSigned
  | None, None => mret ()
  | _, _ => inl CertWithoutKey
  end.

Definition check_acme (t : TlsSection) (a : AcmeSection) : Result () :=
  let static_tls := bool_decide (is_Some (tls_cert t)) || tls_self_signed t in
  if acme_enabled a then
    _ ← ensure (bool_decide (acme_domains a <> [])) AcmeWithoutDomains;
    _ ← ensure (negb static_tls) AcmeAndCert;
    _ ← each (fun d => ensure (negb (contains_sub (lit "/") d) && negb (contains_sub (lit ":") d)
                               && negb (starts_with d (lit "*"))) (AcmeDomain d)) (acme_domains a);
    when_some (acme_ca_root a) (fun r => ensure (is_file r) (AcmeCaRootNotFound r))
  else
    ensure (bool_decide (acme_domains a = []) && bool_decide (acme_email a = None)) AcmeDisabled.

Definition check_queue (q : QueueSection) : Result () :=
  if 0 <? q_workers q then
    _ ← ensure (bool_decide (is_Some (q_script q))) QueueWithoutScript;
    ensure (0 <? q_slots q) QueueWithoutSlots
  else mret ().

(** Virtual hosts beside a sidecar must say which application it serves. *)
Definition check_sidecars (f : FileConfig) : Result () :=
  if (bool_decide (is_Some (q_script (queue f))) || bool_decide (is_Some (sch_script (scheduler f)))
      || bool_decide (sidecar f <> []))
     && bool_decide (site f <> [])
     && bool_decide (q_root (queue f) = None) && bool_decide (sch_root (scheduler f) = None)
  then inl SidecarUnnamed else mret ().

Definition check_scripts (f : FileConfig) : Result () :=
  _ ← when_some (q_script (queue f)) (fun s => ensure (is_file s) (QueueScriptNotFound s));
  when_some (sch_script (scheduler f)) (fun s => ensure (is_file s) (SchedulerScriptNotFound s)).

Definition resolve (f : FileConfig) (cpus : Z) : Result Resolved :=
  let s := server f in
  listen ← some_or (parse_socket (srv_listen s)) (InvalidListen (srv_listen s));
  docroot ← app_root (srv_root s) (lit "server.root");
  let front := srv_front s in
  _ ← ensure (is_file (path_join docroot front)) (FrontNotFound (path_join docroot front));
  queue_root ← option_map_res (fun p => app_root p (lit "queue.root")) (q_root (queue f));
  scheduler_root ← option_map_res (fun p => app_root p (lit "scheduler.root")) (sch_root (scheduler f));
  sites ← each_map resolve_site (site f);
  _ ← check_ids [] (named_apps docroot (srv_app_id s) sites);
  let served := docroot :: (s_docroot <$> sites) in
  let queue_root := as_served served <$> queue_root in
  let scheduler_root := as_served served <$> scheduler_root in
  let sidecar_docroot := default docroot queue_root in
  let scheduler_docroot := default docroot (match scheduler_root with Some r => Some r | None => queue_root end) in
  _ ← each check_rule (ca_rule (cache f));
  _ ← each check_limit (ratelimit f);
  _ ← each check_proxy (srv_trusted_proxies s);
  workers ← resolve_workers (srv_workers s) cpus;
  max_body_size ← parse_size (srv_max_body_size s);
  _ ← check_worker (worker f);
  _ ← check_reload (reload f);
  _ ← check_tls (tls f);
  _ ← check_acme (tls f) (acme f);
  acme_http ← option_map_res (fun a => some_or (parse_socket a) (InvalidAcmeHttp a)) (acme_http (acme f));
  admin_listen ← option_map_res (fun a => some_or (parse_socket a) (InvalidAdminListen a)) (adm_listen (admin f));
  _ ← check_queue (queue f);
  _ ← check_sidecars f;
  _ ← check_scripts f;
  mret (assemble f {| ck_listen := listen; ck_docroot := docroot; ck_front := front;
                      ck_sidecar_docroot := sidecar_docroot; ck_scheduler_docroot := scheduler_docroot;
                      ck_sites := sites; ck_workers := workers; ck_max_body_size := max_body_size;
                      ck_admin_listen := admin_listen; ck_acme_http := acme_http |}).
End Resolve.

(** ** The applications of a configuration *)

Section Names.
Context `{Files}.

(** [Config::name_apps]: the names are known before any process uses the data. *)
Definition name_app_opt (st : option Ns.state) (root : bytes) (id : option bytes) : option Ns.state :=
  match id with
  | Some id => st ← st; snd <$> Ns.name_app app_path st root id
  | None => st
  end.
Definition name_apps (c : Config) (st : Ns.state) : option Ns.state :=
  foldl (fun st s => name_app_opt st (s_docroot s) (s_app_id s))
    (name_app_opt (Some st) (docroot c) (app_id c)) (sites c).
End Names.

(** [l2_sharing_warning]: the back ends selected, how many applications there are, and what is
    shared. *)
Inductive Effect := SharedCache | SharedQueues | SharedChannels.
Record Sharing := mkSharing { sh_l2 : list bytes; sh_apps : nat; sh_effects : list Effect }.

Definition id_of (c : Config) (root : bytes) : option bytes :=
  let at_site := head (filter (fun s => s_docroot s = root /\ is_Some (s_app_id s)) (sites c)) ≫= s_app_id in
  if beq root (docroot c) then match app_id c with Some id => Some id | None => at_site end else at_site.

(** [sort] and [dedup]. *)
Fixpoint dedup (l : list bytes) : list bytes :=
  match l with
  | x :: (y :: _) as l' => if beq x y then dedup l' else x :: dedup l'
  | _ => l
  end.
Definition apps (c : Config) : list bytes :=
  dedup (sort_by bytes_cmp ([docroot c; sidecar_docroot c; scheduler_docroot c] ++ (s_docroot <$> sites c))).

Definition effect_of (unnamed : nat) (var : bytes) : option Effect :=
  if beq var (lit "ASKR_CACHE_DB") && (1 <=? unnamed)%nat then Some SharedCache
  else if beq var (lit "ASKR_QUEUE_DB") && (2 <=? unnamed)%nat then Some SharedQueues
  else if beq var (lit "ASKR_BROADCAST_DB") then Some SharedChannels
  else None.

Definition l2_sharing_warning (c : Config) (l2 : list bytes) : option Sharing :=
  if (length (apps c) <? 2)%nat || bool_decide (l2 = []) then None
  else
    let unnamed := length (filter (fun a => id_of c a = None) (apps c)) in
    match omap (effect_of unnamed) l2 with
    | [] => None
    | effects => Some (mkSharing l2 (length (apps c)) effects)
    end.
