(* ===== verification/ConfigSpec.v ===== *)
(** What a configuration that loads promises ([config.rs]).

    [accepted] is what [resolve] has checked by the time it answers; the theorems read the running
    server's promises off it, and follow the names and roots of applications into [Ns]. *)

From Stdlib Require Import Floats.SpecFloat.
From stdpp Require Import gmap.
From S2P Require Import Prelude Bytes Ns Http Trust CachePolicy Server Config.

(** ** Checks that passed *)

Lemma bind_inr {A B} (m : Result A) (k : A -> Result B) y :
  (x ← m; k x) = inr y <-> exists x, m = inr x /\ k x = inr y.
Proof. destruct m as [e|x]; cbn; naive_solver. Qed.

Lemma ensure_inr b e u : ensure b e = inr u <-> b = true.
Proof. unfold ensure. destruct b, u; naive_solver. Qed.

Lemma some_or_inr {A} (o : option A) e x : some_or o e = inr x <-> o = Some x.
Proof. destruct o; cbn; naive_solver. Qed.

Lemma when_some_inr {A} (o : option A) f u : when_some o f = inr u <-> forall x, o = Some x -> f x = inr ().
Proof. destruct u, o; cbn; naive_solver. Qed.

Lemma each_inr {A} (f : A -> Result ()) l u : each f l = inr u <-> Forall (fun x => f x = inr ()) l.
Proof.
  destruct u. induction l as [|x l IH]; [by split|].
  change (each f (x :: l)) with (_ ← f x; each f l). rewrite bind_inr, Forall_cons_iff, <- IH.
  split; [intros ([] & ? & ?); done|intros [? ?]; by exists ()].
Qed.

Lemma each_map_inr {A B} (f : A -> Result B) l k :
  each_map f l = inr k <-> Forall2 (fun x y => f x = inr y) l k.
Proof.
  revert k. induction l as [|x l IH]; intros k.
  - cbn. split; [intros [= <-]; constructor|by inversion 1].
  - change (each_map f (x :: l)) with (y ← f x; ys ← each_map f l; mret (y :: ys)).
    rewrite bind_inr. setoid_rewrite bind_inr. setoid_rewrite IH. split.
    + intros (y & ? & ys & ? & [= <-]). by constructor.
    + inversion 1; subst. eauto 10.
Qed.

Lemma option_map_res_inr {A B} (f : A -> Result B) o k :
  option_map_res f o = inr k <-> match o, k with
                                 | Some x, Some y => f x = inr y
                                 | None, None => True
                                 | _, _ => False
                                 end.
Proof.
  destruct o as [x|]; cbn [option_map_res].
  - rewrite bind_inr. destruct k; unfold mret, result_ret; naive_solver.
  - destruct k; unfold mret, result_ret; naive_solver.
Qed.

Lemma ret_inr {A} (x y : A) : (mret x : Result A) = inr y <-> x = y.
Proof. unfold mret, result_ret. split; congruence. Qed.

(** Turn every [... = inr _] in the context into what it says. *)
Ltac ok_inv :=
  repeat match goal with
  | H : mbind _ _ = inr _ |- _ => apply bind_inr in H; destruct H as (? & ? & H)
  | H : ensure _ _ = inr _ |- _ => apply ensure_inr in H
  | H : some_or _ _ = inr _ |- _ => apply some_or_inr in H
  | H : when_some _ _ = inr _ |- _ => rewrite when_some_inr in H
  | H : each _ _ = inr _ |- _ => apply each_inr in H
  | H : each_map _ _ = inr _ |- _ => apply each_map_inr in H
  | H : option_map_res _ _ = inr _ |- _ => apply option_map_res_inr in H
  | H : mret _ = inr _ |- _ => apply (proj1 (ret_inr _ _)) in H; subst
  | x : unit |- _ => destruct x
  end.

(** ** Paths *)

Definition part_ok (c : bytes) : Prop := c <> [] /\ c <> lit "." /\ 47 ∉ c.

Lemma path_parts_ok p : Forall part_ok (path_parts p).
Proof.
  apply Forall_forall. intros c [[? ?] Hc]%list_elem_of_filter. repeat split; [done..|].
  by eapply split_on_pieces.
Qed.

Lemma path_parts_join l : Forall part_ok l -> path_parts (join (lit "/") l) = l.
Proof.
  intros Hl. destruct l as [|c l']; [done|]. unfold path_parts. change (lit "/") with [47].
  rewrite split_on_join; [|done|eapply Forall_impl; [done|]; by intros ? (? & ? & ?)].
  apply filter_all. eapply Forall_impl; [done|]. by intros ? (? & ? & ?).
Qed.

Lemma head_split_join c l :
  Forall (fun x => 47 ∉ x) (c :: l) -> head (split_on 47 (join (lit "/") (c :: l))) = Some c.
Proof. intros Hl. change (lit "/") with [47]. by rewrite split_on_join. Qed.

Lemma not_starts_slash c l : c <> [] -> 47 ∉ c -> starts_with (join (lit "/") (c :: l)) (lit "/") = false.
Proof.
  intros Hc Hs. destruct (starts_with _ _) eqn:E; [|done]. apply starts_with_true in E as [r E].
  destruct c as [|x c]; [done|]. exfalso. apply Hs.
  destruct l; cbn in E; simplify_eq; apply list_elem_of_here.
Qed.

Lemma tidy_slash p : starts_with p (lit "/") = true -> tidy p = lit "/" ++ join (lit "/") (path_parts p).
Proof. intros H. unfold tidy. by rewrite H. Qed.

Lemma tidy_starts p : starts_with p (lit "/") = true -> starts_with (tidy p) (lit "/") = true.
Proof. intros H. rewrite tidy_slash by done. apply starts_with_true. eauto. Qed.

Lemma tidy_idem p : tidy (tidy p) = tidy p.
Proof.
  destruct (starts_with p (lit "/")) eqn:E.
  - rewrite (tidy_slash (tidy p)) by by apply tidy_starts. rewrite (tidy_slash p) by done. do 2 f_equal.
    transitivity (path_parts (join (lit "/") (path_parts p))); [done|].
    apply path_parts_join, path_parts_ok.
  - unfold tidy at 2 3. rewrite E. pose proof (path_parts_ok p) as Hp. case_bool_decide as Eh.
    + cbn [app]. unfold tidy.
      assert (47 ∉ lit ".") by not_in.
      assert (Forall (fun x => 47 ∉ x) (lit "." :: path_parts p)) as Hf.
      { constructor; [done|]. eapply Forall_impl; [done|]. by intros ? (? & ? & ?). }
      rewrite not_starts_slash, head_split_join by done. rewrite bool_decide_eq_true_2 by done.
      cbn [app]. do 2 f_equal. unfold path_parts at 1. change (lit "/") with [47].
      rewrite split_on_join by done. rewrite filter_cons_False by (by intros [_ ?]).
      apply filter_all. eapply Forall_impl; [done|]. by intros ? (? & ? & ?).
    + cbn [app]. destruct (path_parts p) as [|c l] eqn:Ep; [done|].
      pose proof (Forall_inv Hp) as (Hc & Hd & Hs). unfold tidy.
      assert (Forall (fun x => 47 ∉ x) (c :: l)) as Hf.
      { eapply Forall_impl; [done|]. by intros ? (? & ? & ?). }
      rewrite not_starts_slash, head_split_join by done. rewrite bool_decide_eq_false_2 by congruence.
      cbn [app]. by rewrite path_parts_join.
Qed.

Section Config.
Context `{Files}.

(** A working directory is an absolute path. *)
Definition cwd_absolute : Prop := forall d, current_dir = Some d -> starts_with d (lit "/") = true.

Lemma app_path_idem p : cwd_absolute -> app_path (app_path p) = app_path p.
Proof.
  intros Hd. unfold app_path. set (q := default p (absolute p)).
  assert (starts_with q (lit "/") = true \/ current_dir = None \/ q = []) as [Hq|[Hn|Hq]].
  { subst q. destruct p as [|x p]; [by right; right|]. unfold absolute.
    destruct (starts_with (x :: p) (lit "/")) eqn:E; [by left|].
    destruct current_dir as [d|] eqn:Ed; [left|by right; left].
    specialize (Hd d Ed). apply starts_with_true in Hd as [r ->].
    apply starts_with_true. exists (r ++ lit "/" ++ x :: p). reflexivity. }
  - replace (default (tidy q) (absolute (tidy q))) with (tidy q); [apply tidy_idem|].
    apply tidy_starts in Hq. destruct (tidy q) as [|x t]; [done|]. unfold absolute. by rewrite Hq.
  - replace (default (tidy q) (absolute (tidy q))) with (tidy q); [apply tidy_idem|].
    destruct (tidy q) as [|x t]; [done|]. unfold absolute. rewrite Hn. by destruct (starts_with _ _).
  - by rewrite Hq.
Qed.

(** ** What [resolve] has checked *)

Record accepted (f : FileConfig) (cpus : Z) (k : Checked) : Prop := {
  ac_listen : parse_socket (srv_listen (server f)) = Some (ck_listen k);
  ac_docroot : app_root (srv_root (server f)) (lit "server.root") = inr (ck_docroot k);
  ac_front : ck_front k = srv_front (server f) /\ is_file (path_join (ck_docroot k) (ck_front k)) = true;
  ac_sites : Forall2 (fun s t => resolve_site s = inr t) (site f) (ck_sites k);
  ac_ids : check_ids [] (named_apps (ck_docroot k) (srv_app_id (server f)) (ck_sites k)) = inr ();
  ac_roots : exists qr sr,
    option_map_res (fun p => app_root p (lit "queue.root")) (q_root (queue f)) = inr qr /\
    option_map_res (fun p => app_root p (lit "scheduler.root")) (sch_root (scheduler f)) = inr sr /\
    let served := ck_docroot k :: (s_docroot <$> ck_sites k) in
    let qr := as_served served <$> qr in
    ck_sidecar_docroot k = default (ck_docroot k) qr /\
    ck_scheduler_docroot k =
      default (ck_docroot k) (match as_served served <$> sr with Some r => Some r | None => qr end);
  ac_rules : Forall (fun r => check_rule r = inr ()) (ca_rule (cache f));
  ac_limits : Forall (fun r => check_limit r = inr ()) (ratelimit f);
  ac_proxies : Forall (fun p => check_proxy p = inr ()) (srv_trusted_proxies (server f));
  ac_workers : resolve_workers (srv_workers (server f)) cpus = inr (ck_workers k);
  ac_size : parse_size (srv_max_body_size (server f)) = inr (ck_max_body_size k);
  ac_worker : check_worker (worker f) = inr ();
  ac_reload : check_reload (reload f) = inr ();
  ac_tls : check_tls (tls f) = inr ();
  ac_acme : check_acme (tls f) (acme f) = inr ();
  ac_acme_http : option_map_res (fun a => some_or (parse_socket a) (InvalidAcmeHttp a)) (acme_http (acme f))
                 = inr (ck_acme_http k);
  ac_admin : option_map_res (fun a => some_or (parse_socket a) (InvalidAdminListen a)) (adm_listen (admin f))
             = inr (ck_admin_listen k);
  ac_queue : check_queue (queue f) = inr ();
  ac_sidecars : check_sidecars f = inr ();
  ac_scripts : check_scripts f = inr () }.

(** A file resolves to what its checks allow, and only to that. *)
Lemma resolve_inr f cpus r :
  resolve f cpus = inr r <-> exists k, accepted f cpus k /\ r = assemble f k.
Proof.
  split.
  - unfold resolve. cbv zeta. intros Hr.
    repeat (apply bind_inr in Hr; destruct Hr as (? & ? & Hr)). apply (proj1 (ret_inr _ _)) in Hr. subst r.
    repeat match goal with x : unit |- _ => destruct x end.
    eexists. split; [|reflexivity].
    split; cbn [ck_listen ck_docroot ck_front ck_sites ck_sidecar_docroot ck_scheduler_docroot ck_workers
                ck_max_body_size ck_acme_http ck_admin_listen]; try done; try (by ok_inv).
    eexists _, _. done.
  - intros (k & [] & ->). destruct ac_front0 as [Hf Hfile], ac_roots0 as (qr & sr & Hq & Hs & Ek & Es).
    unfold resolve. cbv zeta. apply bind_inr. eexists. split; [by apply some_or_inr|].
    apply bind_inr. eexists. split; [done|]. apply bind_inr. exists ().
    split; [apply ensure_inr; by rewrite <- Hf|]. do 2 (apply bind_inr; eexists; split; [done|]).
    apply bind_inr. eexists. split; [by apply each_map_inr|].
    do 4 (apply bind_inr; eexists; split; [first [by apply (each_inr _ _ ())|done]|]).
    repeat (apply bind_inr; eexists; split; [done|]).
    apply ret_inr. f_equal. rewrite <- Hf, <- Ek, <- Es. by destruct k.
Qed.

Lemma check_limit_inr r :
  check_limit r = inr () ->
  regex_shaped (rl_path r) = false /\ starts_with (rl_path r) (lit "/") = true /\
  0 < rl_limit r /\ 0 < rl_window r /\ by_ok (rl_by r) = true.
Proof. unfold check_limit. intros Hr. ok_inv. zbool. repeat (split; try done); lia. Qed.

Lemma check_rule_inr r :
  check_rule r = inr () ->
  starts_with (rule_path r) (lit "/") = true /\ (is_pass r = true <-> rule_ttl r = None) /\
  (is_pass r = false -> action r = None).
Proof.
  unfold check_rule. intros Hr. ok_inv. split; [done|]. unfold is_pass in *.
  assert (forall a, action r = Some a -> a = lit "pass") as Ha.
  { intros a E. apply (beq_true a), (ensure_inr _ (RuleAction a) ()). by apply H3. }
  destruct (action r) as [a|]; [rewrite (Ha a eq_refl) in *|]; cbn in *;
    destruct (rule_ttl r); cbn in *; naive_solver.
Qed.


Lemma check_proxies_inr ps :
  Forall (fun p => check_proxy p = inr ()) ps -> Some <$> omap parse_cidr ps = parse_cidr <$> ps.
Proof.
  induction 1 as [|p ps Hp _ IH]; [done|]. unfold check_proxy in Hp. ok_inv. zbool.
  destruct Hp as [c Hc]. cbn. rewrite Hc. cbn. by f_equal.
Qed.

Lemma resolve_site_inr s t :
  resolve_site s = inr t ->
  exists_ (spec_root s) = true /\ s_docroot t = app_path (spec_root s) /\ s_app_id t = spec_app_id s /\
  s_hosts t = to_ascii_lowercase <$> spec_hosts s /\ s_hosts t <> [] /\
  is_file (path_join (s_docroot t) (s_front_controller t)) = true.
Proof.
  unfold resolve_site, app_root. intros Ht. ok_inv. cbn. repeat (split; [done|]). split; [|done].
  zbool. by destruct (spec_hosts s).
Qed.

Lemma check_tls_inr t :
  check_tls t = inr () ->
  (tls_cert t = None <-> tls_key t = None) /\
  forall c, tls_cert t = Some c -> is_file c = true /\ tls_self_signed t = false.
Proof.
  unfold check_tls. destruct (tls_cert t), (tls_key t); intros Ht; try done. ok_inv. zbool. naive_solver.
Qed.

Lemma check_acme_inr t a :
  check_acme t a = inr () -> acme_enabled a = true ->
  acme_domains a <> [] /\ tls_cert t = None /\ tls_self_signed t = false.
Proof.
  unfold check_acme. intros Ha E. rewrite E in Ha. ok_inv. zbool. destruct (tls_cert t); [|by auto].
  cbn in *. naive_solver.
Qed.

Lemma check_queue_inr f :
  check_queue (queue f) = inr () -> check_scripts f = inr () -> 0 < q_workers (queue f) ->
  0 < q_slots (queue f) /\ exists s, q_script (queue f) = Some s /\ is_file s = true.
Proof.
  unfold check_queue, check_scripts. intros Hq Hs Hw. rewrite (proj2 (Z.ltb_lt _ _) Hw) in Hq. ok_inv. zbool.
  split; [lia|]. destruct (q_script (queue f)) as [s|]; [|by destruct H1]. exists s. split; [done|].
  by eapply ensure_inr, H0.
Qed.

(** A file that resolves gives a server what it needs.  The front controllers are there; every
    pool has room for its floor; a queue with workers has a ring and a script to run; verified
    reloads have their canary; there is one source of certificates, and with ACME the server
    speaks HTTPS; a rate limit lets something through in some time; every proxy named is trusted;
    and a cache rule has one policy. *)
Theorem resolved_keeps_promises f cpus r :
  resolve f cpus = inr r ->
  let c := config r in
  (is_file (path_join (docroot c) (front_controller c)) = true /\
   Forall (fun s => s_hosts s <> [] /\ is_file (path_join (s_docroot s) (s_front_controller s)) = true) (sites c)) /\
  (1 <= workers r /\ 1 <= workers_min r <= workers_max r /\ queue_workers r <= queue_workers_max r) /\
  (0 < queue_workers r -> 0 < queue_slots r /\ exists s, queue_script r = Some s /\ is_file s = true) /\
  (verify r = true -> canary_reload r = true) /\
  ((c_tls_cert c = None <-> c_tls_key c = None) /\ (c_tls_cert c <> None -> c_tls_self_signed c = false)) /\
  (r_acme r = true ->
   https c = true /\ r_acme_domains r <> [] /\ c_tls_cert c = None /\ c_tls_self_signed c = false) /\
  Forall (fun l => 0 < rl_limit l /\ 0 < rl_window l /\ by_ok (rl_by l) = true) (ratelimits c) /\
  Some <$> trusted_proxies c = parse_cidr <$> srv_trusted_proxies (server f) /\
  Forall (fun u => is_pass u = true <-> rule_ttl u = None) (cache_rules c).
Proof.
  intros (k & A & ->)%resolve_inr. cbn zeta. unfold assemble. cbn [config workers workers_min workers_max
    queue_workers queue_workers_max queue_slots queue_script verify canary_reload r_acme r_acme_domains].
  unfold assemble_config. cbn [docroot front_controller sites c_tls_cert c_tls_key c_tls_self_signed https
    ratelimits trusted_proxies cache_rules].
  repeat match goal with |- _ /\ _ => split end.
  - apply A.
  - eapply Forall2_Forall_r; [apply A|]. apply Forall_forall. intros s _ t Ht.
    by apply resolve_site_inr in Ht as (_ & _ & _ & _ & ? & ?).
  - pose proof (ac_workers _ _ _ A) as Hw. unfold resolve_workers in Hw. case_bool; ok_inv; lia.
  - lia.
  - lia.
  - lia.
  - case_bool_decide as Hs; [|lia]. apply (check_queue_inr f); apply A.
  - pose proof (ac_reload _ _ _ A) as Hr. unfold check_reload in Hr. ok_inv.
    destruct (rel_verify (reload f)); [|done]. by cbn in Hr.
  - by apply check_tls_inr, A.
  - intros Hc. destruct (tls_cert (tls f)) as [p|] eqn:E; [|done].
    by apply (proj2 (check_tls_inr _ (ac_tls _ _ _ A)) p).
  - intros Ea. pose proof (check_acme_inr _ _ (ac_acme _ _ _ A) Ea) as (? & ? & ?).
    rewrite Ea. split; [|done]. by rewrite !orb_true_r.
  - eapply Forall_impl; [apply A|]. intros l Hl. by apply check_limit_inr in Hl as (_ & _ & ? & ? & ?).
  - apply check_proxies_inr, A.
  - eapply Forall_impl; [apply A|]. intros u Hu. by apply check_rule_inr in Hu as (_ & ? & _).
Qed.

(** ** Names of applications *)

(** Of two places, the docroot is the same exactly when the id is. *)
Definition consistent (l : list (bytes * bytes * nat)) : Prop :=
  forall r i p r' i' p', (r, i, p) ∈ l -> (r', i', p') ∈ l -> (r = r' <-> i = i').

Lemma check_ids_inr ids named :
  check_ids ids named = inr () -> consistent ids ->
  consistent (ids ++ named) /\ Forall (fun '(_, id, _) => valid_app_id id = true) named.
Proof.
  revert ids. induction named as [|[[root id] place] named IH]; intros ids; [by rewrite app_nil_r|].
  cbn [check_ids]. intros Hc Hids. ok_inv.
  assert (consistent (ids ++ [(root, id, place)])) as Hc'.
  { assert (forall r i p, (r, i, p) ∈ ids -> (r = root <-> i = id)) as Hx.
    { intros r i p Hr. rewrite Forall_forall in H1. specialize (H1 _ Hr). cbn in H1. ok_inv.
      destruct (beq r root) eqn:E1, (beq i id) eqn:E2; cbn in *; try done;
        [apply beq_true in E1, E2; naive_solver|].
      split; [intros ->; by rewrite beq_refl in E1|intros ->; by rewrite beq_refl in E2]. }
    intros r i p r' i' p' Hr Hr'. rewrite elem_of_app, list_elem_of_singleton in Hr, Hr'.
    destruct Hr as [Hr|[= -> -> ->]], Hr' as [Hr'|[= -> -> ->]]; [by eapply Hids|by eapply Hx| |done].
    specialize (Hx _ _ _ Hr'). naive_solver. }
  destruct (IH _ Hc Hc') as [Hall Hv]. rewrite <- app_assoc in Hall. split; [done|by constructor].
Qed.

Lemma for_id_total id : exists a, Ns.for_id id = Some a.
Proof. eexists. apply parse_hex16. Qed.

(** The docroots of [l] answer by their ids. *)
Definition known (st : Ns.state) (l : list (bytes * bytes * nat)) : Prop :=
  forall r i p, (r, i, p) ∈ l ->
  exists a, Ns.for_id i = Some a /\ Ns.memo st !! r = Some a /\ a ∈ Ns.named st.

Lemma name_app_known st l root id place :
  known st l -> consistent (l ++ [(root, id, place)]) -> app_path root = root ->
  exists st', name_app_opt (Some st) root (Some id) = Some st' /\ known st' (l ++ [(root, id, place)]).
Proof.
  intros Hk Hc Hr. destruct (for_id_total id) as [a Ha]. eexists.
  cbn. unfold Ns.name_app. rewrite Ha, Hr. split; [reflexivity|]. cbn.
  assert (a ∈ (if bool_decide (a ∈ Ns.named st) then Ns.named st else Ns.named st ++ [a])) as Hin.
  { case_bool_decide; [done|]. apply elem_of_app. right. by apply list_elem_of_singleton. }
  intros r i p Hx. cbn. rewrite elem_of_app, list_elem_of_singleton in Hx.
  destruct (decide (r = root)) as [->|Hne].
  - assert (i = id) as ->.
    { eapply (Hc root i p root id place); [|set_solver|done]. set_solver. }
    exists a. by rewrite lookup_insert_eq.
  - destruct Hx as [Hx|[= -> _ _]]; [|done]. destruct (Hk _ _ _ Hx) as (b & Hb & Hm & Hn).
    exists b. rewrite !lookup_insert_ne by done. repeat split; [done..|].
    case_bool_decide; [done|]. apply elem_of_app. by left.
Qed.

Lemma consistent_app_l l k : consistent (l ++ k) -> consistent l.
Proof. intros Hc r i p r' i' p' ? ?. eapply Hc; apply elem_of_app; by left. Qed.

Definition name_one (st : option Ns.state) (x : bytes * bytes * nat) : option Ns.state :=
  name_app_opt st x.1.1 (Some x.1.2).

(** Places without an id change nothing. *)
Lemma fold_named ss st (g : nat -> nat) :
  foldl (fun st s => name_app_opt st (s_docroot s) (s_app_id s)) st ss =
  foldl name_one st (omap (fun '(r, o, place) => (fun id => (r, id, place)) <$> o)
                          (imap (fun i s => (s_docroot s, s_app_id s, g i)) ss)).
Proof.
  revert st g. induction ss as [|s ss IH]; intros st g; [done|].
  cbn [foldl imap omap list_omap]. destruct (s_app_id s) as [id|]; cbn [fmap option_fmap option_map foldl].
  - apply (IH _ (fun i => g (S i))).
  - apply (IH _ (fun i => g (S i))).
Qed.

Lemma name_apps_fold c st :
  name_apps c st = foldl name_one (Some st) (named_apps (docroot c) (app_id c) (sites c)).
Proof.
  unfold name_apps, named_apps. rewrite (fold_named _ _ S). cbn [omap list_omap].
  by destruct (app_id c).
Qed.

Lemma name_all_known todo l st :
  known st l -> consistent (l ++ todo) -> Forall (fun x => app_path x.1.1 = x.1.1) todo ->
  exists st', foldl name_one (Some st) todo = Some st' /\ known st' (l ++ todo).
Proof.
  revert l st. induction todo as [|[[r i] p] todo IH]; intros l st Hk Hc Hf.
  { exists st. by rewrite app_nil_r. }
  apply Forall_cons_iff in Hf as [Hr Hf]. cbn [foldl]. rewrite cons_middle, app_assoc in Hc |- *.
  destruct (name_app_known st l r i p) as (st1 & E1 & K1); [done|by eapply consistent_app_l|done|].
  unfold name_one at 2. cbn [fst snd]. rewrite E1. by apply IH.
Qed.

Lemma sites_tidy f cpus k :
  cwd_absolute -> accepted f cpus k ->
  Forall (fun d => app_path d = d) (ck_docroot k :: (s_docroot <$> ck_sites k)).
Proof.
  intros Hd A. constructor.
  - pose proof (ac_docroot _ _ _ A) as E. unfold app_root in E. ok_inv. rewrite <- E. by apply app_path_idem.
  - apply Forall_fmap. eapply Forall2_Forall_r; [apply A|]. apply Forall_forall. intros s _ t Ht.
    apply resolve_site_inr in Ht as (_ & E & _). cbn. rewrite E. by apply app_path_idem.
Qed.

Lemma named_apps_place root id ss r i p :
  (r, i, p) ∈ named_apps root id ss ->
  (r = root /\ id = Some i) \/ exists s, s ∈ ss /\ r = s_docroot s /\ s_app_id s = Some i.
Proof.
  unfold named_apps. intros ([[r' o] p'] & Hx & E)%list_elem_of_omap.
  destruct o as [i'|]; [|done]. cbn in E. injection E as -> -> ->.
  apply elem_of_cons in Hx as [[= -> -> ->]|Hx]; [by left|right].
  apply elem_of_lookup_imap in Hx as (n & s & [= -> E ->] & Hs). exists s.
  split; [by eapply list_elem_of_lookup_2|done].
Qed.

Lemma in_named_apps root id ss r i :
  (r = root /\ id = Some i) \/ (exists s, s ∈ ss /\ r = s_docroot s /\ s_app_id s = Some i) ->
  exists p, (r, i, p) ∈ named_apps root id ss.
Proof.
  unfold named_apps. intros [[-> ->]|(s & Hs & -> & E)].
  - exists 0%nat. apply list_elem_of_omap. exists (root, Some i, 0%nat). split; [set_solver|done].
  - apply list_elem_of_lookup_1 in Hs as [n Hn]. exists (S n). apply list_elem_of_omap.
    exists (s_docroot s, s_app_id s, S n). split; [|by rewrite E].
    apply list_elem_of_further, elem_of_lookup_imap. eauto.
Qed.

(** What resolution and [name_apps] establish together. *)
Lemma resolved_names f cpus r st :
  cwd_absolute -> resolve f cpus = inr r ->
  let l := named_apps (docroot (config r)) (app_id (config r)) (sites (config r)) in
  consistent l /\ Forall (fun '(_, id, _) => valid_app_id id = true) l /\
  exists st', name_apps (config r) st = Some st' /\ known st' l.
Proof.
  intros Hd (k & A & ->)%resolve_inr. cbn zeta. cbn [assemble config assemble_config docroot app_id sites].
  destruct (check_ids_inr _ _ (ac_ids _ _ _ A)) as [Hc Hv]; [by intros ? ? ? ? ? ? ?%not_elem_of_nil|].
  split; [done|]. split; [done|]. rewrite name_apps_fold.
  cbn [assemble config assemble_config docroot app_id sites].
  apply (name_all_known _ []); [by intros ? ? ? ?%not_elem_of_nil|done|].
  apply Forall_forall. intros [[r i] p] Hx. cbn.
  pose proof (sites_tidy _ _ _ Hd A) as Ht. rewrite Forall_forall in Ht. apply Ht.
  apply named_apps_place in Hx as [[-> _]|(s & Hs & -> & _)]; set_solver.
Qed.

(** An application's name holds from start-up on: whatever was remembered before, each docroot
    with an [app_id] is the application of that id for every process, however many docroots,
    sites and names there are; and two docroots have one id only if they are one. *)
Theorem names_hold f cpus r st :
  cwd_absolute -> resolve f cpus = inr r ->
  let c := config r in
  let l := named_apps (docroot c) (app_id c) (sites c) in
  exists st', name_apps c st = Some st' /\
  forall root id p, (root, id, p) ∈ l ->
    valid_app_id id = true /\
    (forall root' id' p', (root', id', p') ∈ l -> (root = root' <-> id = id')) /\
    exists a, Ns.for_id id = Some a /\ Ns.for_docroot app_path st' root = Some (a, st') /\
              Ns.is_named st' a = true.
Proof.
  intros Hd Hr. destruct (resolved_names f cpus r st Hd Hr) as (Hc & Hv & st' & E & K). cbn zeta.
  exists st'. split; [done|]. intros root id p Hx. rewrite Forall_forall in Hv.
  split; [by apply (Hv _ Hx)|]. split; [intros root' id' p' Hx'; by eapply Hc|].
  destruct (K _ _ _ Hx) as (a & Ha & Hm & Hn). exists a. split; [done|]. unfold Ns.for_docroot. rewrite Hm.
  split; [done|]. by apply bool_decide_eq_true.
Qed.

(** ** Sharing the back ends *)

Lemma id_of_Some c root id :
  id_of c root = Some id -> exists p, (root, id, p) ∈ named_apps (docroot c) (app_id c) (sites c).
Proof.
  unfold id_of. set (at_site := head _ ≫= _). intros Hi. apply in_named_apps.
  assert (at_site = Some id -> exists s, s ∈ sites c /\ root = s_docroot s /\ s_app_id s = Some id) as Hs.
  { subst at_site. intros (s & Hh & E)%bind_Some. exists s.
    apply head_Some_elem_of, list_elem_of_filter in Hh as [[-> _] ?]. done. }
  destruct (beq root (docroot c)) eqn:Eb; [|by right; apply Hs].
  apply beq_true in Eb. destruct (app_id c) as [i|]; [|by right; apply Hs]. injection Hi as ->. by left.
Qed.

Lemma elem_of_dedup x l : x ∈ l -> x ∈ dedup l.
Proof.
  induction l as [|y l IH]; [done|]. intros Hx. cbn [dedup]. destruct l as [|z l]; [done|].
  destruct (beq y z) eqn:E.
  - apply IH. apply beq_true in E as ->. set_solver.
  - apply elem_of_cons in Hx as [->|Hx]; [set_solver|]. apply elem_of_cons. right. by apply IH.
Qed.

Definition roots (c : Config) : list bytes :=
  [docroot c; sidecar_docroot c; scheduler_docroot c] ++ (s_docroot <$> sites c).

Lemma elem_of_apps c x : x ∈ roots c -> x ∈ apps c.
Proof. intros Hx. apply elem_of_dedup. by rewrite sort_by_Permutation. Qed.

Lemma two_apps (l : list bytes) x y : x ∈ l -> y ∈ l -> x <> y -> (2 <= length l)%nat.
Proof.
  destruct l as [|a [|b l]]; intros Hx Hy Hne; [by apply not_elem_of_nil in Hx| |cbn; lia].
  apply list_elem_of_singleton in Hx, Hy. congruence.
Qed.

(** No warning with the cache's back end selected: every application has an id. *)
Lemma silence_names c l2 x y :
  l2_sharing_warning c l2 = None -> lit "ASKR_CACHE_DB" ∈ l2 -> x ∈ apps c -> y ∈ apps c -> x <> y ->
  is_Some (id_of c x).
Proof.
  unfold l2_sharing_warning. intros Hw Hl Hx Hy Hne. pose proof (two_apps _ _ _ Hx Hy Hne) as H2.
  destruct (_ || _) eqn:Eb.
  { exfalso. apply orb_true_iff in Eb as [Eb%Nat.ltb_lt|Eb%bool_decide_eq_true]; [lia|].
    subst l2. by apply not_elem_of_nil in Hl. }
  set (u := length _) in Hw. destruct (omap (effect_of u) l2) as [|e es] eqn:Eo; [|done].
  destruct (id_of c x) as [i|] eqn:Ei; [done|]. exfalso.
  assert (x ∈ filter (fun a => id_of c a = None) (apps c)) as Hf by by apply list_elem_of_filter.
  assert (1 <= u)%nat as Hu. { subst u. destruct (filter _ _); [by apply not_elem_of_nil in Hf|cbn; lia]. }
  assert (SharedCache ∈ omap (effect_of u) l2) as Hin.
  { apply list_elem_of_omap. exists (lit "ASKR_CACHE_DB"). split; [done|]. unfold effect_of.
    rewrite beq_refl, (proj2 (Nat.leb_le _ _) Hu). done. }
  rewrite Eo in Hin. by apply not_elem_of_nil in Hin.
Qed.

(** When start-up does not warn of a shared cache, the cache rows of two applications are apart:
    the processes of each have a name of their own and no key of one is a key of the other.  The
    names of this configuration are assumed not to collide as hashes. *)
Theorem silence_means_apart f cpus r l2 st st' x y :
  cwd_absolute -> resolve f cpus = inr r -> name_apps (config r) st = Some st' ->
  l2_sharing_warning (config r) l2 = None -> lit "ASKR_CACHE_DB" ∈ l2 ->
  x ∈ roots (config r) -> y ∈ roots (config r) -> x <> y ->
  (forall i j, id_of (config r) x = Some i -> id_of (config r) y = Some j ->
               Ns.for_id i = Ns.for_id j -> i = j) ->
  exists a b, Ns.for_docroot app_path st' x = Some (a, st') /\ Ns.for_docroot app_path st' y = Some (b, st') /\
  forall k k', Ns.l2_key (Ns.set st' a) k <> Ns.l2_key (Ns.set st' b) k'.
Proof.
  intros Hd Hr Hn Hw Hl Hx%elem_of_apps Hy%elem_of_apps Hne Hinj.
  destruct (resolved_names f cpus r st Hd Hr) as (Hc & _ & st'' & E & K). rewrite Hn in E. injection E as <-.
  destruct (silence_names _ _ _ _ Hw Hl Hx Hy Hne) as [i Hi].
  destruct (silence_names _ _ _ _ Hw Hl Hy Hx (not_eq_sym Hne)) as [j Hj].
  destruct (id_of_Some _ _ _ Hi) as [p Hp], (id_of_Some _ _ _ Hj) as [q Hq].
  destruct (K _ _ _ Hp) as (a & Ha & Hma & Hna), (K _ _ _ Hq) as (b & Hb & Hmb & Hnb).
  exists a, b. unfold Ns.for_docroot. rewrite Hma, Hmb. split; [done|]. split; [done|]. intros k k' Ek.
  unfold Ns.l2_key, Ns.is_named, Ns.set, Ns.set_current in Ek. cbn in Ek.
  rewrite !bool_decide_eq_true_2 in Ek by done.
  apply Ns.prefix_inj in Ek as [-> _]; [|by eapply Ns.parse_ok..].
  apply Hne, (Hc _ _ _ _ _ _ Hp Hq), (Hinj i j Hi Hj). congruence.
Qed.

(** ** Whose sidecars they are *)

Lemma as_served_spec served p d :
  d ∈ served -> is_Some (canonicalize p) -> canonicalize d = canonicalize p ->
  as_served served p ∈ served /\ (as_served served p = p \/ canonicalize (as_served served p) = canonicalize p).
Proof.
  intros Hd Hp E. unfold as_served.
  set (l := filter _ served). assert (d ∈ l) as Hl by (apply list_elem_of_filter; naive_solver).
  destruct (head l) as [d'|] eqn:Eh; [|destruct l; [by apply not_elem_of_nil in Hl|done]]. cbn.
  apply head_Some_elem_of, list_elem_of_filter in Eh as [[->|[_ ?]] ?]; [by auto|]. split; [done|]. by right.
Qed.

(** Workers of the queue whose root is a served application's directory are that application's
    workers, however the root is spelled: if one served docroot is that directory, the processes
    take its spelling, and with it its namespace. *)
Theorem sidecar_joins_its_site f cpus r p d st :
  resolve f cpus = inr r -> q_root (queue f) = Some p ->
  let c := config r in
  let served := docroot c :: (s_docroot <$> sites c) in
  is_Some (canonicalize (app_path p)) ->
  (forall d', d' ∈ served -> canonicalize d' = canonicalize (app_path p) -> d' = d) ->
  d ∈ served -> canonicalize d = canonicalize (app_path p) ->
  sidecar_docroot c = d /\
  Ns.for_docroot app_path st (sidecar_docroot c) = Ns.for_docroot app_path st d /\
  (sch_root (scheduler f) = None -> scheduler_docroot c = d).
Proof.
  intros (k & A & ->)%resolve_inr Hq. cbn zeta.
  cbn [assemble config assemble_config docroot sites sidecar_docroot scheduler_docroot].
  destruct (ac_roots _ _ _ A) as (qr & sr & Eq & Es & -> & ->). cbn zeta. rewrite Hq in Eq.
  intros Hs Huniq Hd Hcan.
  destruct qr as [q|]; [|by apply option_map_res_inr in Eq]. apply option_map_res_inr in Eq.
  unfold app_root in Eq. ok_inv. cbn.
  destruct (as_served_spec _ _ d Hd Hs Hcan) as [Hin [E|E]].
  - assert (as_served (ck_docroot k :: (s_docroot <$> ck_sites k)) (app_path p) = d) as ->.
    { apply Huniq; [done|]. by rewrite E. }
    repeat split. intros Hn. rewrite Hn in Es. by destruct sr.
  - assert (as_served (ck_docroot k :: (s_docroot <$> ck_sites k)) (app_path p) = d) as -> by by apply Huniq.
    repeat split. intros Hn. rewrite Hn in Es. by destruct sr.
Qed.
End Config.
