(* ===== verification/ConfigDemo.v ===== *)
(** A configuration, resolved: the theorems of [ConfigSpec] at a shop with a blog beside it, and the
    files [resolve] reads otherwise than its comments say. *)

From stdpp Require Import gmap.
From S2P Require Import Prelude Bytes Ns Http Trust Cgi CachePolicy Server Config ConfigSpec.

(** A machine where [/srv/current] is a link to [/srv/shop], and every PHP file is there. *)
#[local] Instance demo_files : Files := {|
  exists_ := fun _ => true;
  is_file := fun p => ends_with p (lit ".php");
  is_dir := fun _ => true;
  canonicalize := fun p => Some (if beq p (lit "/srv/current/public") then lit "/srv/shop/public" else p);
  current_dir := Some (lit "/srv") |}.

Lemma demo_cwd : cwd_absolute.
Proof. by intros d [= <-]. Qed.

Definition demo_server (root : bytes) (id : option bytes) : ServerSection :=
  {| srv_listen := lit "0.0.0.0:8000"; srv_root := root; srv_front := lit "index.php"; srv_workers := lit "auto";
     srv_workers_min := Some 0; srv_workers_max := None; srv_max_requests := 500; srv_max_rss := 0;
     srv_shadow_to := None; srv_shadow_sample := 100; srv_max_body_size := lit "16M"; srv_https := false;
     srv_force_https := false; srv_http_redirect := None; srv_traffic_log := None;
     srv_trusted_proxies := [lit "10.0.0.0/8"]; srv_app_id := id; srv_access_log := None; srv_http3 := false;
     srv_tls_handshake_timeout := 10; srv_header_read_timeout := 15; srv_sandbox := false;
     srv_sandbox_required := false; srv_sandbox_write := [] |}.

Definition demo_site (root : bytes) (id : option bytes) : SiteSpec :=
  mkSiteSpec [lit "Blog.Test"] root (lit "index.php") id.

Definition demo_queue (workers slots : Z) (root : option bytes) : QueueSection :=
  mkQueue workers None (Some (lit "/srv/queue.php")) slots None 0 root.

Definition demo_file (s : ServerSection) (q : QueueSection) (sched : SchedulerSection) (sites : list SiteSpec) :
    FileConfig :=
  {| server := s; worker := mkWorker None None None false None; tls := mkTls None None false;
     acme := mkAcme false [] None None false None None None; admin := mkAdmin (Some (lit "127.0.0.1:9000"));
     queue := q; scheduler := sched;
     cache := mkCacheSection 64 0 64 [] [] false 0 [mkRule (lit "/admin/*") (Some (lit "pass")) None 0 0 false]
                None None;
     broadcast := mkBroadcast false; reload := reload_default; record := mkRecord None;
     pusher := mkPusher false None; sidecar := []; redirect := []; site := sites;
     ratelimit := [mkLimit (lit "/api/*") 60 60 (lit "ip") 0] |}.

Definition no_scheduler : SchedulerSection := mkScheduler None None.
Definition at_root : SocketAddr := mkSock (V4 [0; 0; 0; 0]) 8000 0.

(** The shop and the blog, each with a name; the queue is the shop's, through the link. *)
Definition shop : FileConfig :=
  demo_file (demo_server (lit "shop/public/") (Some (lit "shop")))
    (demo_queue 2 64 (Some (lit "/srv/current/public"))) no_scheduler
    [demo_site (lit "/srv/blog/./public") (Some (lit "blog"))].

Definition checked (root sidecars : bytes) (ss : list Site) : Checked :=
  {| ck_listen := at_root; ck_docroot := root; ck_front := lit "index.php"; ck_sidecar_docroot := sidecars;
     ck_scheduler_docroot := sidecars; ck_sites := ss; ck_workers := 4; ck_max_body_size := 16 * 1024 * 1024;
     ck_admin_listen := Some (mkSock (V4 [127; 0; 0; 1]) 9000 0); ck_acme_http := None |}.

Definition shop_r : Resolved :=
  assemble shop (checked (lit "/srv/shop/public") (lit "/srv/shop/public")
    [mkSite [lit "blog.test"] (lit "/srv/blog/public") (lit "index.php") (Some (lit "blog"))]).

Lemma shop_resolves : resolve shop 4 = inr shop_r.
Proof. vm_compute. reflexivity. Qed.

Lemma resolved_keeps_promises_witness :
  resolve shop 4 = inr shop_r /\
  (0 < queue_workers shop_r -> 0 < queue_slots shop_r /\ exists s, queue_script shop_r = Some s /\ is_file s = true).
Proof.
  split; [exact shop_resolves|].
  exact (proj1 (proj2 (proj2 (resolved_keeps_promises shop 4 shop_r shop_resolves)))).
Defined.

Definition fresh : Ns.state := Ns.mkState ∅ [] None.

Lemma names_hold_witness :
  exists st', name_apps (config shop_r) fresh = Some st' /\
  forall root id p,
    (root, id, p) ∈ [(lit "/srv/shop/public", lit "shop", 0%nat); (lit "/srv/blog/public", lit "blog", 1%nat)] ->
    exists a, Ns.for_id id = Some a /\ Ns.for_docroot app_path st' root = Some (a, st').
Proof.
  destruct (names_hold shop 4 shop_r fresh demo_cwd shop_resolves) as (st' & E & K).
  exists st'. split; [exact E|]. intros root id p Hx.
  destruct (K root id p Hx) as (_ & _ & a & Ha & Hd & _). exists a. split; [exact Ha|exact Hd].
Defined.

Definition shop_names : Ns.state := default fresh (name_apps (config shop_r) fresh).

Lemma shop_named : name_apps (config shop_r) fresh = Some shop_names.
Proof. vm_compute. reflexivity. Qed.

Lemma ids_apart i j :
  id_of (config shop_r) (lit "/srv/shop/public") = Some i ->
  id_of (config shop_r) (lit "/srv/blog/public") = Some j -> Ns.for_id i = Ns.for_id j -> i = j.
Proof.
  replace (id_of (config shop_r) (lit "/srv/shop/public")) with (Some (lit "shop")) by by vm_compute.
  replace (id_of (config shop_r) (lit "/srv/blog/public")) with (Some (lit "blog")) by by vm_compute.
  intros Hi Hj. injection Hi as <-. injection Hj as <-. vm_compute. discriminate.
Qed.

Lemma silence_means_apart_witness :
  exists a b, Ns.for_docroot app_path shop_names (lit "/srv/shop/public") = Some (a, shop_names) /\
    Ns.for_docroot app_path shop_names (lit "/srv/blog/public") = Some (b, shop_names) /\
    forall k k', Ns.l2_key (Ns.set shop_names a) k <> Ns.l2_key (Ns.set shop_names b) k'.
Proof.
  apply (silence_means_apart shop 4 shop_r [lit "ASKR_CACHE_DB"; lit "ASKR_QUEUE_DB"] fresh shop_names
           (lit "/srv/shop/public") (lit "/srv/blog/public")).
  - exact demo_cwd.
  - exact shop_resolves.
  - exact shop_named.
  - vm_compute. reflexivity.
  - left.
  - left.
  - right. right. right. left.
  - vm_compute. discriminate.
  - exact ids_apart.
Defined.

Lemma sidecar_joins_its_site_witness :
  sidecar_docroot (config shop_r) = lit "/srv/shop/public" /\
  Ns.for_docroot app_path fresh (sidecar_docroot (config shop_r))
    = Ns.for_docroot app_path fresh (lit "/srv/shop/public").
Proof.
  destruct (sidecar_joins_its_site shop 4 shop_r (lit "/srv/current/public") (lit "/srv/shop/public") fresh)
    as (E & F & _).
  - exact shop_resolves.
  - vm_compute. reflexivity.
  - vm_compute. eexists. reflexivity.
  - intros d' Hd'. apply elem_of_cons in Hd' as [->|Hd']; [by intros _|].
    apply elem_of_cons in Hd' as [->|Hd']; [by vm_compute|by apply not_elem_of_nil in Hd'].
  - left.
  - vm_compute. reflexivity.
  - split; [exact E|exact F].
Defined.

(** ** What the tests of [config.rs] check *)

Definition refused (f : FileConfig) (e : Err) : bool :=
  match resolve f 4 with inl e' => bool_decide (e = e') | inr _ => false end.

Definition site_beside (id sid : option bytes) (q : QueueSection) : FileConfig :=
  demo_file (demo_server (lit "/srv/shop/public") id) q no_scheduler [demo_site (lit "/srv/blog/public") sid].

Example a_sidecar_beside_virtual_hosts_must_name_its_application :
  refused (site_beside None None (demo_queue 1 64 None)) SidecarUnnamed = true.
Proof. vm_compute. reflexivity. Qed.

Example an_app_id_names_exactly_one_application :
  let q := demo_queue 1 64 (Some (lit "/srv/blog/public")) in
  refused (site_beside (Some (lit "My Shop")) None q) (InvalidAppId 0 (lit "My Shop")) = true /\
  refused (site_beside (Some (lit "shop")) (Some (lit "shop")) q) (AppIdUsedTwice 1 0) = true /\
  refused (demo_file (demo_server (lit "/srv/shop/public") (Some (lit "shop"))) q no_scheduler
             [demo_site (lit "/srv/shop//public") (Some (lit "blog"))]) (DocrootNamedTwice 1 0) = true.
Proof. vm_compute. auto. Qed.

Example queue_workers_without_slots_are_refused :
  refused (demo_file (demo_server (lit "/srv/shop/public") None) (demo_queue 1 0 None) no_scheduler [])
    QueueWithoutSlots = true.
Proof. vm_compute. reflexivity. Qed.

Example ratelimit_rules_are_validated_at_load :
  let rule p n b := mkLimit p n 60 b 0 in
  check_limit (rule (lit "^/api/.*") 5 (lit "ip")) = inl (LimitRegex (lit "^/api/.*")) /\
  check_limit (rule (lit "/api/*") 0 (lit "ip")) = inl (LimitZero (lit "/api/*")) /\
  check_limit (rule (lit "/api/*") 5 (lit "header: ")) = inl (LimitBy (lit "header: ")) /\
  check_limit (rule (lit "/api/*") 5 (lit "header:X-Api-Key")) = inr () /\
  check_proxy (lit "10.0.0.0/40") = inl (ProxyNotAddress (lit "10.0.0.0/40")).
Proof. vm_compute. auto. Qed.

Example parse_size_units :
  parse_size (lit "16M") = inr (16 * 1024 * 1024) /\ parse_size (lit " 512k ") = inr (512 * 1024) /\
  parse_size (lit "2G") = inr (2 * 1024 * 1024 * 1024) /\ parse_size (lit "100") = inr 100 /\
  parse_size (lit "lots") = inl (InvalidSize (lit "lots")).
Proof. vm_compute. auto. Qed.

(** ** Where the code and its comments part *)

(** A size that does not fit wraps: this many gigabytes is a limit of nothing, and every body is
    too large. *)
Lemma parse_size_wraps : parse_size (lit "17179869184G") = inr 0.
Proof. vm_compute. reflexivity. Qed.

(** The roots of a resolved file: its sites' and its sidecars'. *)
Definition roots_of (f : FileConfig) : option (list bytes * bytes * bytes) :=
  match resolve f 4 with
  | inr r => Some (s_docroot <$> sites (config r), sidecar_docroot (config r), scheduler_docroot (config r))
  | inl _ => None
  end.

(** The queue's root is the site's, as the site spells it.  But the server's root is a link to
    that directory, it comes first, and its spelling is taken: the workers are another
    application's, and do not see the jobs of the site they name. *)
Lemma exact_spelling_lost :
  let site_root := lit "/srv/shop/public" in
  roots_of (demo_file (demo_server (lit "/srv/current/public") None) (demo_queue 1 64 (Some site_root)) no_scheduler
              [demo_site site_root None])
  = Some ([site_root], lit "/srv/current/public", lit "/srv/current/public") /\
  fst <$> Ns.for_docroot app_path fresh (lit "/srv/current/public")
  <> fst <$> Ns.for_docroot app_path fresh site_root.
Proof. split; vm_compute; [reflexivity|discriminate]. Qed.

(** A scheduler's root says nothing of the queue's workers, but it is enough to pass the check that
    they name their application: they serve the top-level one, by the default the check is there
    to refuse. *)
Lemma scheduler_root_excuses_the_queue :
  roots_of (demo_file (demo_server (lit "/srv/shop/public") None) (demo_queue 1 64 None)
              (mkScheduler None (Some (lit "/srv/blog/public"))) [demo_site (lit "/srv/blog/public") None])
  = Some ([lit "/srv/blog/public"], lit "/srv/shop/public", lit "/srv/blog/public").
Proof. vm_compute. reflexivity. Qed.
