(* ===== verification/ConfigKeys.v ===== *)
(** Keys no section has ([FileConfig::parse] and its helpers in [config.rs]): where an unknown key
    is, which keys that section accepts, and which of them was meant.

    The edit distance is [strsim]'s, a parameter.  What a section accepts are the fields of its
    struct, which [fields_of] reads from [serde]. *)

From stdpp Require Import strings.
From S2P Require Import Prelude Bytes Http.

(** [serde_ignored::Path]. *)
Inductive Path :=
| Root
| Seq (parent : Path) (index : Z)
| Map (parent : Path) (key : bytes)
| Some_ (parent : Path)
| NewtypeStruct (parent : Path)
| NewtypeVariant (parent : Path).

Fixpoint path_segments (p : Path) : list bytes :=
  match p with
  | Root => []
  | Seq parent index => path_segments parent ++ [to_digits index]
  | Map parent key => path_segments parent ++ [key]
  | Some_ parent | NewtypeStruct parent | NewtypeVariant parent => path_segments parent
  end.

(** The fields of each section's struct, and the table that has it. *)
Definition accepted_keys (table : list bytes) : list bytes :=
  let at_ t := bool_decide (table = (lit <$> t)) in
  lit <$>
  (if at_ [] then
     ["server"; "worker"; "tls"; "acme"; "admin"; "queue"; "scheduler"; "cache"; "broadcast"; "reload";
      "record"; "pusher"; "sidecar"; "redirect"; "site"; "ratelimit"]%string
   else if at_ ["server"%string] then
     ["listen"; "root"; "front"; "workers"; "workers_min"; "workers_max"; "max_requests"; "max_rss"; "shadow_to";
      "shadow_sample"; "max_body_size"; "https"; "force_https"; "http_redirect"; "traffic_log";
      "trusted_proxies"; "app_id"; "access_log"; "http3"; "tls_handshake_timeout"; "header_read_timeout";
      "sandbox"; "sandbox_required"; "sandbox_write"]%string
   else if at_ ["worker"%string] then ["script"; "app_base"; "ini"; "paranoid"; "paranoid_sample"]%string
   else if at_ ["tls"%string] then ["cert"; "key"; "self_signed"]%string
   else if at_ ["acme"%string] then
     ["enabled"; "domains"; "email"; "dir"; "staging"; "directory_url"; "http"; "ca_root"]%string
   else if at_ ["admin"%string] then ["listen"]%string
   else if at_ ["queue"%string] then
     ["workers"; "workers_max"; "script"; "slots"; "persist"; "stall_secs"; "root"]%string
   else if at_ ["scheduler"%string] then ["script"; "root"]%string
   else if at_ ["cache"%string] then
     ["slots"; "large_slots"; "response_slots"; "strip_query_params"; "ignore_cookies"; "vary_user_agent";
      "saint_seconds"; "rule"; "persist"; "persist_key"]%string
   else if at_ ["cache"; "rule"]%string then ["path"; "action"; "ttl"; "swr"; "stale_if_error"; "force"]%string
   else if at_ ["broadcast"%string] then ["enabled"]%string
   else if at_ ["reload"%string] then
     ["canary"; "canary_window"; "canary_min_requests"; "canary_max_error_rate"; "canary_max_latency_factor";
      "verify"; "verify_requests"; "verify_timeout"]%string
   else if at_ ["record"%string] then ["dir"]%string
   else if at_ ["pusher"%string] then ["enabled"; "secret"]%string
   else if at_ ["sidecar"%string] then ["command"]%string
   else if at_ ["redirect"%string] then ["from"; "to"; "status"]%string
   else if at_ ["site"%string] then ["hosts"; "root"; "front"; "app_id"]%string
   else if at_ ["ratelimit"%string] then ["path"; "limit"; "window"; "by"; "burst"]%string
   else []).

Section Keys.
Context (levenshtein : bytes -> bytes -> nat).

(** The case and the dashes of a key do not count. *)
Definition norm (s : bytes) : bytes := (fun c => if c =? 45 then 95 else c) <$> to_ascii_lowercase s.
Definition key_words (s : bytes) : list bytes := sort_by bytes_cmp (split_on 95 s).

(** [chars().count()] of a string. *)
Definition char_count (s : bytes) : nat := length (filter (fun c => is_cont c = false) s).

(** The first of the least, as [min_by_key] takes it. *)
Fixpoint min_by_key {A} (key : A -> nat) (l : list A) : option A :=
  match l with
  | [] => None
  | x :: l => match min_by_key key l with
              | Some y => if (key y <? key x)%nat then Some y else Some x
              | None => Some x
              end
  end.

Definition closest (key : bytes) (accepted : list bytes) : option bytes :=
  let key_n := norm key in
  match head (filter (fun a => key_words (norm a) = key_words key_n) accepted) with
  | Some a => Some a
  | None =>
      snd <$> min_by_key fst
        (filter (fun da => (da.1 <= Nat.max (char_count key / 3) 1)%nat)
           ((fun a => (levenshtein key_n (norm a), a)) <$> accepted))
  end.

Inductive Place := TopLevel | Entry (names : list bytes) (number : Z) | Table (names : list bytes).
Inductive Advice := DidYouMean (m : bytes) | Accepts (keys : list bytes) | NoAdvice.
Record Unknown := mkUnknown { u_key : bytes; u_place : Place; u_hint : Advice }.

(** [unknown_key_warning]: [["site", "1"]] is the second [[[site]]]. *)
Definition unknown_key_warning (segments : list bytes) : Unknown :=
  let key := default [] (last segments) in
  let table := take (length segments - 1) segments in
  let '(names, entry) :=
    match last table with
    | Some l => match parse_u64 l with
                | Some i => (take (length table - 1) table, Some i)
                | None => (table, None)
                end
    | None => (table, None)
    end in
  let place := match names, entry with
               | [], _ => TopLevel
               | _, Some i => Entry names (wrap64 (i + 1))
               | _, None => Table names
               end in
  let accepted := accepted_keys names in
  mkUnknown key place
    (match closest key accepted with
     | Some m => DidYouMean m
     | None => match accepted with [] => NoAdvice | _ => Accepts accepted end
     end).

(** ** The key that was meant *)

Lemma min_by_key_least {A} (key : A -> nat) l x :
  min_by_key key l = Some x -> x ∈ l /\ forall y, y ∈ l -> (key x <= key y)%nat.
Proof.
  revert x. induction l as [|z l IH]; [done|]. intros x. cbn [min_by_key].
  destruct (min_by_key key l) as [y|] eqn:E.
  - specialize (IH y eq_refl) as [Hy Hl]. destruct (key y <? key z)%nat eqn:Ek; intros [= <-].
    + apply Nat.ltb_lt in Ek. split; [set_solver|]. intros w [->|Hw]%elem_of_cons; [lia|by apply Hl].
    + apply Nat.ltb_ge in Ek. split; [set_solver|]. intros w [->|Hw]%elem_of_cons; [lia|].
      specialize (Hl w Hw). lia.
  - intros [= <-]. split; [set_solver|]. destruct l as [|w l]; [|cbn [min_by_key] in E; destruct (min_by_key key l); [by destruct (_ <? _)%nat|done]].
    intros y [->|Hy]%elem_of_cons; [lia|by apply not_elem_of_nil in Hy].
Qed.

(** The suggestion is a key the section has; it is the same words in some order, or within a third
    of the key's length and nearest of them all. *)
Theorem closest_is_nearest key accepted m :
  closest key accepted = Some m ->
  m ∈ accepted /\
  (key_words (norm m) = key_words (norm key) \/
   (levenshtein (norm key) (norm m) <= Nat.max (char_count key / 3) 1)%nat /\
   forall a, a ∈ accepted -> (levenshtein (norm key) (norm m) <= levenshtein (norm key) (norm a))%nat).
Proof.
  unfold closest. intros Hc. destruct (head _) as [a|] eqn:Eh.
  - injection Hc as ->. apply head_Some_elem_of, list_elem_of_filter in Eh as [? ?]. auto.
  - apply fmap_Some in Hc as ([d a] & Hm & ->). cbn [snd].
    apply min_by_key_least in Hm as [Hin Hl]. apply list_elem_of_filter in Hin as [Hd Hin].
    apply list_elem_of_fmap in Hin as (b & [= -> ->] & Hb). cbn [fst] in Hd, Hl. split; [done|]. right. split; [done|].
    intros c Hc. destruct (decide (levenshtein (norm key) (norm c) <= Nat.max (char_count key / 3) 1)%nat).
    + apply (Hl (_, c)), list_elem_of_filter. split; [done|]. apply list_elem_of_fmap. by exists c.
    + lia.
Qed.

(** A key in another order or spelling is recognised: the same words say what was meant. *)
Lemma closest_same_words key accepted a :
  a ∈ accepted -> key_words (norm a) = key_words (norm key) ->
  exists m, closest key accepted = Some m /\ key_words (norm m) = key_words (norm key).
Proof.
  intros Ha Hw. unfold closest.
  set (l := filter _ accepted). assert (a ∈ l) as Hl by by apply list_elem_of_filter.
  destruct (head l) as [m|] eqn:Eh; [|destruct l; [by apply not_elem_of_nil in Hl|done]].
  exists m. split; [done|]. by apply head_Some_elem_of, list_elem_of_filter in Eh as [? _].
Qed.
End Keys.

(** What the tests of [config.rs] expect, whatever the distance. *)
Example an_unknown_key_names_the_key_it_meant :
  (fun lev => unknown_key_warning lev (path_segments (Map (Map Root (lit "server")) (lit "max_workers")))) (fun _ _ => 9%nat)
  = mkUnknown (lit "max_workers") (Table [lit "server"]) (DidYouMean (lit "workers_max")) /\
  unknown_key_warning (fun _ _ => 9%nat) (path_segments (Map (Seq (Map Root (lit "site")) 1) (lit "hostz")))
  = mkUnknown (lit "hostz") (Entry [lit "site"] 2) (Accepts (lit <$> ["hosts"; "root"; "front"; "app_id"]%string)).
Proof. vm_compute. auto. Qed.
