(* ===== verification/Startup.v ===== *)
(** Start-up ([main.rs], the [serve] command): from the command line or a file to the regions that
    are mapped, the listener, and the shape the process takes.

    [Boot] is a writer with an exception: what start-up has done, in order, and its answer or its
    refusal.  Log lines are left out, and so is [warn_if_unavailable], which is one.  [clap] has
    parsed the arguments: [Args] is what [Command::Serve] holds.  [toml] and [serde] read a file,
    [instant-acme] obtains certificates, the kernel binds sockets: the fields of [Host]. *)

From Stdlib Require Import Floats.SpecFloat.
From stdpp Require Import gmap.
From S2P Require Import Prelude Bytes Ns Supervisor Http Trust Cgi CachePolicy Server Config.

(** ** What start-up asks of its surroundings *)

Record AcmeConfig := mkAcmeConfig {
  ac_domains : list bytes; ac_email : bytes; ac_cache_dir : bytes; ac_directory_url : bytes;
  ac_challenge_addr : SocketAddr; ac_ca_root : option bytes; ac_renew_after_days : Z }.

Class Host := {
  files :: Files;
  load : bytes -> option FileConfig;             (* [FileConfig::load] *)
  env_var : bytes -> option bytes;
  cpus : Z;                                      (* [default_workers()] *)
  l2_enabled : bool;                             (* [queue::l2_enabled()] *)
  read_to_string : bytes -> option bytes;
  now_secs : Z;
  staging_url : bytes;
  production_url : bytes;
  obtain_blocking : AcmeConfig -> bool;
  bind_listener : SocketAddr -> bool }.

(** [Command::Serve]. *)
Record Args := mkArgs {
  a_config : option bytes;
  a_admin : option SocketAddr;
  a_root : option bytes;
  a_app_id : option bytes;
  a_front : bytes;
  a_listen : SocketAddr;
  a_workers : option Z;
  a_workers_min : option Z;
  a_workers_max : option Z;
  a_https : bool;
  a_ini : option bytes;
  a_worker_script : option bytes;
  a_max_requests : Z;
  a_max_rss : Z;
  a_shadow_to : option bytes;
  a_shadow_sample : Z;
  a_http3 : bool;
  a_force_https : bool;
  a_http_redirect : option SocketAddr;
  a_tls_handshake_timeout : Z;
  a_header_read_timeout : Z;
  a_tls_cert : option bytes;
  a_tls_key : option bytes;
  a_tls_self_signed : bool;
  a_max_body_size : bytes;
  a_paranoid : bool;
  a_paranoid_sample : option Z;
  a_queue : Z;
  a_queue_max : option Z;
  a_queue_script : option bytes;
  a_queue_slots : Z;
  a_scheduler_script : option bytes;
  a_sidecar : list bytes;
  a_cache_slots : Z;
  a_cache_large_slots : Z;
  a_response_cache : Z;
  a_broadcast : bool;
  a_canary : bool;
  a_cow : bool;
  a_record_errors : option bytes;
  a_acme : bool;
  a_acme_domain : list bytes;
  a_acme_email : option bytes;
  a_acme_dir : bytes;
  a_acme_staging : bool;
  a_acme_directory : option bytes;
  a_acme_http : SocketAddr;
  a_acme_ca_root : option bytes;
  a_sandbox : bool;
  a_sandbox_write : list bytes;
  a_sandbox_required : bool;
  a_pusher : bool;
  a_pusher_secret : option bytes;
  a_access_log : option bytes;
  a_traffic_log : option bytes;
  argv : list bytes }.                           (* [std::env::args().skip(1)] *)

(** ** Doing and refusing *)

Inductive Refusal :=
| FlagsBesideConfig (flags : list bytes)
| ConfigUnreadable (path : bytes)
| InvalidConfig (e : Err)
| BadRoot (p : bytes)
| NoFront (p : bytes)
| NoWorkerScript (p : bytes)
| NoCert (p : bytes)
| NoQueueScript (p : bytes)
| QueueScriptWithoutSlots
| NoSchedulerScript (p : bytes)
| BadAppId (id : bytes)
| AcmeNoDomain
| AcmeFailed
| AdminOpen (addr : SocketAddr)
| SandboxWithoutPaths
| RedirectWithoutHttps
| CannotBind (addr : SocketAddr)
| CowWithoutScript.

(** The settings other parts read from statics. *)
Record Globals := mkGlobals {
  CANARY_ENABLED : bool; CANARY_WINDOW : Z; CANARY_MIN_REQUESTS : Z; CANARY_MAX_ERR_RATE : Z;
  CANARY_MAX_LAT_FACTOR : Z; WORKERS_MIN : Z; WORKERS_MAX : Z; QUEUE_CAP : Z; PERSIST_NAME : option bytes;
  STALL_SECS : option Z }.

Inductive Action :=
| SetEnv (name value : bytes)
| Store (g : Globals)
| NameApps
| InitCache (slots large_slots : Z)
| InitResponses (slots : Z)
| RestoreResponses (path : bytes)
| InitBroadcast
| InitLimits (slots : Z)
| InitQueue (slots : Z) (name : option bytes)
| InitCounters
| InitVerify (budget timeout : Z)
| SpawnFront (addr : SocketAddr) (redirect : bool)
| Obtain (c : AcmeConfig)
| SpawnRenewal
| Bind (addr : SocketAddr).

Definition Boot (A : Type) : Type := (list Action * (Refusal + A))%type.
#[global] Instance boot_ret : MRet Boot := fun A x => ([], inr x).
#[global] Instance boot_bind : MBind Boot := fun A B f m =>
  match m with
  | (l, inl e) => (l, inl e)
  | (l, inr x) => let '(l', r) := f x in (l ++ l', r)
  end.

Definition act (a : Action) : Boot () := ([a], inr ()).
Definition refuse {A} (e : Refusal) : Boot A := ([], inl e).
Definition check_that (b : bool) (e : Refusal) : Boot () := if b then mret () else refuse e.
Definition act_if (b : bool) (a : Action) : Boot () := if b then act a else mret ().
Definition when_given {A} (o : option A) (f : A -> Boot ()) : Boot () :=
  match o with Some x => f x | None => mret () end.
Definition checked_by {A} (r : Result A) : Boot A :=
  match r with inr x => mret x | inl e => refuse (InvalidConfig e) end.

(** ** The command line *)

(** [ignored_with_config]: the flags after [serve] but for [--config] and its value. *)
Fixpoint ignored_from (in_serve skip_next : bool) (args : list bytes) : list bytes :=
  match args with
  | [] => []
  | a :: args =>
      if negb in_serve then ignored_from (beq a (lit "serve")) skip_next args
      else if skip_next then ignored_from in_serve false args
      else if beq a (lit "--config") || beq a (lit "-c") then ignored_from in_serve true args
      else if starts_with a (lit "--config=") then ignored_from in_serve skip_next args
      else if starts_with a (lit "--") then default a (head (split_on 61 a)) :: ignored_from in_serve skip_next args
      else ignored_from in_serve skip_next args
  end.
Definition ignored_with_config (args : list bytes) : list bytes := ignored_from false false args.

(** [Display for SocketAddr]. *)
Definition sock_to_string (s : SocketAddr) : bytes :=
  match sock_ip s with
  | V4 _ => ip_to_string (sock_ip s)
  | V6 _ => lit "[" ++ ip_to_string (sock_ip s)
            ++ (if sock_scope s =? 0 then [] else lit "%" ++ to_digits (sock_scope s)) ++ lit "]"
  end ++ lit ":" ++ to_digits (sock_port s).

Section Startup.
Context `{Host}.

Definition resolve_root (root : option bytes) : Boot bytes :=
  let root := match root with
              | Some r => r
              | None => if is_dir (lit "public") then lit "public" else lit "."
              end in
  _ ← check_that (exists_ root) (BadRoot root);
  mret (app_path root).

(** The command line, said as a config file. *)
Definition cli_file (a : Args) (docroot : bytes) (workers : Z) : FileConfig :=
  {| server :=
       {| srv_listen := sock_to_string (a_listen a); srv_root := docroot;
          srv_front := from_utf8_lossy (a_front a); srv_workers := to_digits workers;
          srv_workers_min := a_workers_min a; srv_workers_max := a_workers_max a;
          srv_max_requests := a_max_requests a; srv_max_rss := a_max_rss a;
          srv_shadow_to := a_shadow_to a; srv_shadow_sample := a_shadow_sample a;
          srv_max_body_size := a_max_body_size a; srv_https := a_https a;
          srv_force_https := a_force_https a; srv_http_redirect := a_http_redirect a;
          srv_traffic_log := a_traffic_log a; srv_trusted_proxies := []; srv_app_id := a_app_id a;
          srv_access_log := a_access_log a; srv_http3 := a_http3 a;
          srv_tls_handshake_timeout := a_tls_handshake_timeout a;
          srv_header_read_timeout := a_header_read_timeout a; srv_sandbox := a_sandbox a;
          srv_sandbox_required := a_sandbox_required a; srv_sandbox_write := a_sandbox_write a |};
     worker :=
       {| wrk_script := a_worker_script a; wrk_app_base := None;
          wrk_ini := match a_ini a with Some i => Some i | None => env_var (lit "ASKR_PHP_INI") end;
          wrk_paranoid := a_paranoid a; wrk_paranoid_sample := a_paranoid_sample a |};
     tls := mkTls (a_tls_cert a) (a_tls_key a) (a_tls_self_signed a);
     acme :=
       {| acme_enabled := a_acme a; acme_domains := a_acme_domain a; acme_email := a_acme_email a;
          acme_dir := Some (a_acme_dir a); acme_staging := a_acme_staging a;
          acme_directory_url := a_acme_directory a; acme_http := Some (sock_to_string (a_acme_http a));
          acme_ca_root := a_acme_ca_root a |};
     admin := mkAdmin (sock_to_string <$> a_admin a);
     queue := mkQueue (a_queue a) (a_queue_max a) (a_queue_script a) (a_queue_slots a) None 0 None;
     scheduler := mkScheduler (a_scheduler_script a) None;
     cache := mkCacheSection (a_cache_slots a) (a_cache_large_slots a) (a_response_cache a) [] [] false 0 [] None None;
     broadcast := mkBroadcast (a_broadcast a);
     reload :=
       {| rel_canary := a_canary a; rel_canary_window := default_canary_window;
          rel_canary_min_requests := default_canary_min_requests;
          rel_canary_max_error_rate := default_canary_max_error_rate;
          rel_canary_max_latency_factor := default_canary_max_latency_factor;
          rel_verify := false; rel_verify_requests := default_verify_requests;
          rel_verify_timeout := default_verify_timeout |};
     record := mkRecord (a_record_errors a);
     pusher := mkPusher (a_pusher a)
                 (match a_pusher_secret a with Some s => Some s | None => env_var (lit "ASKR_PUSHER_SECRET") end);
     sidecar := mkSidecar <$> a_sidecar a;
     redirect := [];
     site := [];
     ratelimit := [] |}.

(** The checks of the command line, and what they give [assemble]. *)
Definition resolve_cli (a : Args) : Boot Resolved :=
  max_body_size ← checked_by (parse_size (a_max_body_size a));
  docroot ← resolve_root (a_root a);
  let front := path_join docroot (a_front a) in
  _ ← check_that (is_file front) (NoFront front);
  _ ← when_given (a_worker_script a) (fun p => check_that (is_file p) (NoWorkerScript p));
  _ ← when_given (a_tls_cert a) (fun p => check_that (is_file p) (NoCert p));
  _ ← when_given (a_queue_script a) (fun p =>
        _ ← check_that (is_file p) (NoQueueScript p); check_that (0 <? a_queue_slots a) QueueScriptWithoutSlots);
  _ ← when_given (a_scheduler_script a) (fun p => check_that (is_file p) (NoSchedulerScript p));
  _ ← when_given (a_app_id a) (fun id => check_that (valid_app_id id) (BadAppId id));
  _ ← checked_by (check_paranoid_sample (a_paranoid a) (a_paranoid_sample a));
  let workers := Z.max (default cpus (a_workers a)) 1 in
  mret (assemble (cli_file a docroot workers)
          {| ck_listen := a_listen a; ck_docroot := docroot; ck_front := a_front a;
             ck_sidecar_docroot := docroot; ck_scheduler_docroot := docroot; ck_sites := [];
             ck_workers := workers; ck_max_body_size := max_body_size; ck_admin_listen := a_admin a;
             ck_acme_http := Some (a_acme_http a) |}).

(** A config file is the whole configuration. *)
Definition configured (a : Args) : Boot Resolved :=
  match a_config a with
  | Some path =>
      let ignored := ignored_with_config (argv a) in
      _ ← check_that (bool_decide (ignored = [])) (FlagsBesideConfig ignored);
      f ← match load path with Some f => mret f | None => refuse (ConfigUnreadable path) end;
      checked_by (resolve f cpus)
  | None => resolve_cli a
  end.

(** ** Statics, regions and certificates *)

(** [x as u64]: towards zero, saturating, 0 for what is not a number. *)
Definition f64_to_u64 (x : spec_float) : Z :=
  match x with
  | S754_finite false m e => Z.min u64_max (if 0 <=? e then Z.pos m * 2 ^ e else Z.pos m / 2 ^ (- e))
  | S754_infinity false => u64_max
  | _ => 0
  end.

Definition globals (r : Resolved) : Globals :=
  {| CANARY_ENABLED := canary_reload r; CANARY_WINDOW := canary_window r;
     CANARY_MIN_REQUESTS := canary_min_requests r;
     CANARY_MAX_ERR_RATE := f64_to_u64 (fmul (canary_max_error_rate r) (f64_of 100));
     CANARY_MAX_LAT_FACTOR := f64_to_u64 (fmul (canary_max_latency_factor r) (f64_of 100));
     WORKERS_MIN := workers_min r; WORKERS_MAX := workers_max r; QUEUE_CAP := queue_slots r;
     PERSIST_NAME := queue_persist r;
     STALL_SECS := if 0 <? queue_stall_secs r then Some (queue_stall_secs r) else None |}.

(** [Sidecars] and [AcmeSettings]. *)
Record Sidecars := mkSidecars {
  sc_queue : Z; sc_queue_max : Z; sc_queue_script : option bytes; sc_scheduler_script : option bytes;
  sc_commands : list bytes }.
Definition sidecars_of (r : Resolved) : Sidecars :=
  mkSidecars (queue_workers r) (Z.max (queue_workers_max r) (queue_workers r)) (queue_script r)
    (scheduler_script r) (sidecars r).

Record AcmeSettings := mkAcmeSettings {
  as_on : bool; as_domains : list bytes; as_email : option bytes; as_dir : bytes; as_staging : bool;
  as_directory : option bytes; as_http : SocketAddr; as_ca_root : option bytes }.
Definition acme_settings (r : Resolved) : AcmeSettings :=
  mkAcmeSettings (r_acme r) (r_acme_domains r) (r_acme_email r)
    (default (lit "/var/lib/askr/acme") (r_acme_dir r)) (r_acme_staging r) (r_acme_directory r)
    (default (mkSock (V4 [0; 0; 0; 0]) 80 0) (r_acme_http r)) (r_acme_ca_root r).

(** Map the shared regions, before any fork. *)
Definition map_regions (r : Resolved) : Boot () :=
  let c := config r in
  _ ← act_if ((0 <? cache_slots r) || (0 <? cache_large_slots r))
        (InitCache (Z.max (cache_slots r) 1) (cache_large_slots r));
  _ ← (if 0 <? response_cache_slots r then
         _ ← act (InitResponses (response_cache_slots r));
         when_given (cache_persist r) (fun p => act (RestoreResponses p))
       else mret ());
  _ ← act_if (r_broadcast r || c_pusher c) InitBroadcast;
  _ ← act_if (bool_decide (ratelimits c <> [])) (InitLimits 4096);
  let queue_slots := QUEUE_CAP (globals r) in
  _ ← act_if ((0 <? queue_slots) && negb l2_enabled) (InitQueue queue_slots (PERSIST_NAME (globals r)));
  _ ← (if paranoid r then act (SetEnv (lit "ASKR_PARANOID") (lit "1"))
       else when_given (paranoid_sample r) (fun n => act (SetEnv (lit "ASKR_PARANOID_SAMPLE") (to_digits n))));
  _ ← act InitCounters;
  act_if (verify r) (InitVerify (verify_requests r) (verify_timeout r)).

(** [acme::cert_path], [key_path] and [needs_renewal]. *)
Definition cert_path (dir : bytes) : bytes := path_join dir (lit "cert.pem").
Definition key_path (dir : bytes) : bytes := path_join dir (lit "key.pem").
Definition needs_renewal (dir : bytes) : bool :=
  negb (exists_ (cert_path dir)) || negb (exists_ (key_path dir))
  || match t ← read_to_string (path_join dir (lit "renew_at")); parse_u64 (trim t) with
     | Some renew_at => renew_at <=? now_secs
     | None => true
     end.

Definition acme_config (s : AcmeSettings) : AcmeConfig :=
  {| ac_domains := as_domains s;
     ac_email := default (lit "admin@" ++ default [] (head (as_domains s))) (as_email s);
     ac_cache_dir := as_dir s;
     ac_directory_url := default (if as_staging s then staging_url else production_url) (as_directory s);
     ac_challenge_addr := as_http s; ac_ca_root := as_ca_root s; ac_renew_after_days := 60 |}.

Definition with_acme (c : Config) (dir : bytes) : Config :=
  {| docroot := docroot c; sidecar_docroot := sidecar_docroot c; scheduler_docroot := scheduler_docroot c;
     front_controller := front_controller c; listen := listen c; https := true;
     worker_script := worker_script c; max_requests := max_requests c; max_rss_mb := max_rss_mb c;
     c_tls_cert := Some (cert_path dir); c_tls_key := Some (key_path dir); c_tls_self_signed := false;
     max_body_size := max_body_size c; record_dir := record_dir c; c_pusher := c_pusher c;
     pusher_secret := pusher_secret c; access_log := access_log c; traffic_log := traffic_log c;
     sandbox := sandbox c; sandbox_required := sandbox_required c; sandbox_write := sandbox_write c;
     shadow_to := shadow_to c; shadow_sample := shadow_sample c; http3 := http3 c;
     tls_handshake_timeout := tls_handshake_timeout c; header_read_timeout := header_read_timeout c;
     force_https := force_https c; http_redirect := http_redirect c; redirects := redirects c;
     sites := sites c; app_id := app_id c; cache_strip_query := cache_strip_query c;
     cache_ignore_cookies := cache_ignore_cookies c; cache_vary_user_agent := cache_vary_user_agent c;
     cache_saint_seconds := cache_saint_seconds c; cache_rules := cache_rules c;
     ratelimits := ratelimits c; trusted_proxies := trusted_proxies c |}.

(** A certificate before anything forks, and a thread that renews it. *)
Definition certificates (s : AcmeSettings) (c : Config) : Boot Config :=
  if as_on s then
    _ ← check_that (bool_decide (as_domains s <> [])) AcmeNoDomain;
    _ ← act (SpawnFront (as_http s) (force_https c));
    _ ← (if needs_renewal (as_dir s) then
           _ ← act (Obtain (acme_config s)); check_that (obtain_blocking (acme_config s)) AcmeFailed
         else mret ());
    _ ← act SpawnRenewal;
    mret (with_acme c (as_dir s))
  else mret c.

(** [acme::spawn_front]: the first call has the port, later ones return at once. *)
Definition front_of (l : list Action) : option (SocketAddr * bool) :=
  head (omap (fun x => match x with SpawnFront addr redirect => Some (addr, redirect) | _ => None end) l).

(** ** What is refused before the listener is bound *)

Definition gate_admin (r : Resolved) : Boot () :=
  when_given (admin_listen r) (fun addr =>
    let token := t ← env_var (lit "ASKR_ADMIN_TOKEN"); if bool_decide (t = []) then None else Some t in
    check_that (is_loopback (sock_ip addr) || bool_decide (is_Some token)) (AdminOpen addr)).

Definition gate_sandbox (c : Config) : Boot () :=
  check_that (negb (sandbox_required c && bool_decide (sandbox_write c = []))) SandboxWithoutPaths.

Definition redirect_front (a : Args) (c : Config) : Boot () :=
  when_given (match a_http_redirect a with Some x => Some x | None => http_redirect c end) (fun addr =>
    _ ← check_that (a_force_https a || force_https c) RedirectWithoutHttps;
    act (SpawnFront addr true)).

(** ** The shape of the process *)

Definition supervisor_conf (r : Resolved) (c : Config) : Conf :=
  {| web := Z.to_nat (Z.max (workers r) 1);
     queue_min := Z.to_nat (sc_queue (sidecars_of r));
     queue_max := Z.to_nat (Z.max (sc_queue_max (sidecars_of r)) (sc_queue (sidecars_of r)));
     sched := match sc_scheduler_script (sidecars_of r) with Some _ => 1%nat | None => 0%nat end;
     ncmds := length (sc_commands (sidecars_of r));
     Supervisor.max_rss_mb := max_rss_mb c;
     queue_enabled := l2_enabled || (0 <? queue_slots r);
     canary_enabled := CANARY_ENABLED (globals r);
     Supervisor.canary_window := CANARY_WINDOW (globals r);
     Supervisor.canary_min_requests := CANARY_MIN_REQUESTS (globals r);
     canary_max_err_rate := CANARY_MAX_ERR_RATE (globals r);
     canary_max_lat_factor := CANARY_MAX_LAT_FACTOR (globals r);
     verify_enabled := verify r;
     Supervisor.verify_timeout := verify_timeout r |}.

Inductive Shape :=
| RunCow (workers_min workers_max : Z)
| RunWorker
| Supervise (conf : Conf) (admin : option SocketAddr).

Definition clamp (lo hi x : Z) : Z := Z.max lo (Z.min hi x).

Definition has_sidecars (s : Sidecars) : bool :=
  (0 <? sc_queue s) || bool_decide (is_Some (sc_scheduler_script s)) || bool_decide (sc_commands s <> []).

(** [acme] is the flag of the command line. *)
Definition need_supervisor (a : Args) (r : Resolved) (c : Config) : bool :=
  (1 <? workers r) || (0 <? max_requests c) || (0 <? max_rss_mb c)
  || bool_decide (is_Some (admin_listen r)) || has_sidecars (sidecars_of r) || a_acme a.

Definition shape (a : Args) (r : Resolved) (c : Config) : Boot Shape :=
  if a_cow a then
    _ ← check_that (bool_decide (is_Some (worker_script c))) CowWithoutScript;
    let wmin := clamp 1 (Z.of_nat MAX_WORKERS) (workers_min r) in
    mret (RunCow wmin (clamp wmin (Z.of_nat MAX_WORKERS) (workers_max r)))
  else if need_supervisor a r c then mret (Supervise (supervisor_conf r c) (admin_listen r))
  else mret RunWorker.

(** The [serve] command. *)
Definition serve (a : Args) : Boot (Config * Shape) :=
  r ← configured a;
  _ ← when_given (app_base r) (fun b => act (SetEnv (lit "ASKR_APP_BASE") b));
  _ ← act (Store (globals r));
  _ ← act NameApps;
  _ ← map_regions r;
  c ← certificates (acme_settings r) (config r);
  _ ← gate_admin r;
  _ ← gate_sandbox c;
  _ ← redirect_front a c;
  _ ← act (Bind (listen c));
  _ ← check_that (bind_listener (listen c)) (CannotBind (listen c));
  s ← shape a r c;
  mret (c, s).
End Startup.
