(* ===== verification/StartupSpec.v ===== *)
(** What start-up promises to what it starts ([main.rs]). *)

From stdpp Require Import gmap.
From S2P Require Import Prelude Bytes Ns Supervisor Http Trust Server Config ConfigSpec Startup.

(** ** What has been done when start-up goes on *)

Lemma boot_inr {A B} (m : Boot A) (k : A -> Boot B) l y :
  (x ← m; k x) = (l, inr y) <->
  exists l1 x l2, m = (l1, inr x) /\ k x = (l2, inr y) /\ l = l1 ++ l2.
Proof.
  unfold mbind, boot_bind. destruct m as [l1 [e|x]]; [naive_solver|].
  destruct (k x) as [l2 r] eqn:E. split; [intros [= <- ->]; eauto 10|].
  intros (? & ? & ? & [= <- <-] & E' & ->). rewrite E in E'. by injection E' as -> ->.
Qed.

Lemma ret_boot {A} (x y : A) l : (mret x : Boot A) = (l, inr y) <-> l = [] /\ x = y.
Proof. unfold mret, boot_ret. naive_solver. Qed.
Lemma act_boot a l u : act a = (l, inr u) <-> l = [a].
Proof. unfold act. destruct u. naive_solver. Qed.
Lemma check_that_boot b e l u : check_that b e = (l, inr u) <-> l = [] /\ b = true.
Proof. unfold check_that, refuse, mret, boot_ret. destruct b, u; naive_solver. Qed.
Lemma act_if_boot b a l u : act_if b a = (l, inr u) <-> l = if b then [a] else [].
Proof. unfold act_if, act, mret, boot_ret. destruct b, u; naive_solver. Qed.
Lemma checked_by_boot {A} (r : Result A) l x : checked_by r = (l, inr x) <-> l = [] /\ r = inr x.
Proof. unfold checked_by, refuse, mret, boot_ret. destruct r; naive_solver. Qed.
Lemma when_given_boot {A} (o : option A) f l u :
  when_given o f = (l, inr u) <-> match o with Some x => f x = (l, inr ()) | None => l = [] end.
Proof. unfold when_given, mret, boot_ret. destruct o, u; naive_solver. Qed.

(** Turn every step of start-up that went on into what it did and what it checked. *)
Ltac boot_inv :=
  repeat match goal with
  | H : mbind _ _ = (_, inr _) |- _ => apply boot_inr in H; destruct H as (? & ? & ? & ? & H & ?)
  | H : act _ = (_, inr _) |- _ => apply act_boot in H
  | H : act_if _ _ = (_, inr _) |- _ => apply act_if_boot in H
  | H : check_that _ _ = (_, inr _) |- _ => apply check_that_boot in H; destruct H as [? H]
  | H : checked_by _ = (_, inr _) |- _ => apply checked_by_boot in H; destruct H as [? H]
  | H : when_given _ _ = (_, inr _) |- _ => rewrite when_given_boot in H
  | H : mret _ = (_, inr _) |- _ => apply (proj1 (ret_boot _ _ _)) in H; destruct H as [? ?]
  | x : unit |- _ => destruct x
  end.

Section Startup.
Context `{Host}.

(** ** The settings start-up goes by *)

(** However the server was configured, a queue with workers has slots. *)
Lemma configured_queue a l r : configured a = (l, inr r) -> 0 < queue_workers r -> 0 < queue_slots r.
Proof.
  unfold configured. destruct (a_config a) as [path|]; intros Hc Hw.
  - boot_inv. apply resolve_inr in Hc as (k & A & ->). revert Hw.
    unfold assemble. cbn [queue_workers queue_slots].
    destruct (bool_decide (is_Some (q_script _))); [|lia]. intros Hw.
    by apply (check_queue_inr _ (ac_queue _ _ _ A) (ac_scripts _ _ _ A)).
  - unfold resolve_cli in Hc. boot_inv. subst. revert Hw.
    unfold assemble, cli_file. cbn [queue_workers queue_slots queue q_script q_slots q_workers].
    destruct (a_queue_script a); [|rewrite bool_decide_eq_false_2 by (by intros [? ?]); lia]. intros _.
    boot_inv. lia.
Qed.

Lemma configured_silent a l r : configured a = (l, inr r) -> l = [].
Proof.
  unfold configured. destruct (a_config a) as [path|]; intros Hc.
  - destruct (load path); [|boot_inv; done]. boot_inv. by subst.
  - unfold resolve_cli, resolve_root in Hc. boot_inv. subst.
    destruct (a_worker_script a), (a_tls_cert a), (a_queue_script a), (a_scheduler_script a), (a_app_id a);
      boot_inv; by subst.
Qed.

(** ** What is done before the listener is bound *)

(** The regions a configuration relies on, each by the action that maps it. *)
Definition mapped (r : Resolved) (l : list Action) : Prop :=
  (0 < cache_slots r \/ 0 < cache_large_slots r -> InitCache (Z.max (cache_slots r) 1) (cache_large_slots r) ∈ l) /\
  (0 < response_cache_slots r -> InitResponses (response_cache_slots r) ∈ l) /\
  (r_broadcast r = true \/ c_pusher (config r) = true -> InitBroadcast ∈ l) /\
  (ratelimits (config r) <> [] -> InitLimits 4096 ∈ l) /\
  (0 < queue_slots r -> l2_enabled = false -> InitQueue (queue_slots r) (queue_persist r) ∈ l) /\
  (verify r = true -> InitVerify (verify_requests r) (verify_timeout r) ∈ l).

Definition binds (x : Action) : Prop := match x with Bind _ => True | _ => False end.

Lemma act_if_mem b a l : act_if b a = (l, inr ()) -> b = true -> a ∈ l.
Proof. intros ->%act_if_boot ->. by apply list_elem_of_singleton. Qed.

(** Steps of start-up whose actions bind nothing. *)
Definition quiet {A} (m : Boot A) : Prop := Forall (fun x => ~ binds x) m.1.

Lemma quiet_bind {A B} (m : Boot A) (k : A -> Boot B) : quiet m -> (forall x, quiet (k x)) -> quiet (x ← m; k x).
Proof.
  unfold quiet, mbind, boot_bind. destruct m as [l [e|x]]; [done|]. intros Hm Hk. specialize (Hk x).
  destruct (k x) as [l' r]. by apply Forall_app.
Qed.
Lemma quiet_ret {A} (x : A) : quiet (mret x).
Proof. constructor. Qed.
Lemma quiet_refuse {A} e : quiet (refuse e : Boot A).
Proof. constructor. Qed.
Lemma quiet_check b e : quiet (check_that b e).
Proof. unfold check_that. destruct b; constructor. Qed.
Lemma quiet_act a : ~ binds a -> quiet (act a).
Proof. intros Ha. by repeat constructor. Qed.
Lemma quiet_act_if b a : ~ binds a -> quiet (act_if b a).
Proof. intros Ha. unfold act_if. destruct b; [by apply quiet_act|constructor]. Qed.
Lemma quiet_given {A} (o : option A) f : (forall x, quiet (f x)) -> quiet (when_given o f).
Proof. intros Hf. destruct o; [apply Hf|constructor]. Qed.
Lemma quiet_checked {A} (r : Result A) : quiet (checked_by r).
Proof. destruct r; constructor. Qed.
Create HintDb quiet.
#[local] Hint Resolve quiet_bind quiet_ret quiet_refuse quiet_check quiet_act quiet_act_if quiet_given
  quiet_checked : quiet.
Ltac quietly := repeat first [progress intros|case_match|progress (eauto with quiet)|
  apply quiet_bind|apply quiet_given|apply quiet_act_if|apply quiet_act|intros []].

Lemma app_base_quiet (r : Resolved) : quiet (when_given (app_base r) (fun b => act (SetEnv (lit "ASKR_APP_BASE") b))).
Proof. quietly. Qed.
Lemma store_quiet g : quiet (act (Store g)).
Proof. apply quiet_act. by intros []. Qed.
Lemma names_quiet : quiet (act NameApps).
Proof. apply quiet_act. by intros []. Qed.
Lemma map_regions_quiet r : quiet (map_regions r).
Proof. unfold map_regions. quietly. Qed.
Lemma certificates_quiet s c : quiet (certificates s c).
Proof. unfold certificates. quietly. Qed.
Lemma redirect_front_quiet a c : quiet (redirect_front a c).
Proof. unfold redirect_front. quietly. Qed.
Lemma configured_quiet a : quiet (configured a).
Proof. unfold configured, resolve_cli, resolve_root. quietly. Qed.

Lemma map_regions_did r l : map_regions r = (l, inr ()) -> mapped r l.
Proof.
  unfold map_regions. cbv zeta. intros Hm.
  repeat (apply boot_inr in Hm; destruct Hm as (? & [] & ? & ? & Hm & ->)).
  repeat split; intros Hc; try intros Hl2; repeat rewrite elem_of_app.
  - left. eapply act_if_mem; [done|]. destruct Hc as [Hc|Hc]; apply Z.ltb_lt in Hc; rewrite Hc; [done|].
    apply orb_true_r.
  - right. left. apply Z.ltb_lt in Hc. rewrite Hc in H1. boot_inv. subst. set_solver.
  - right. right. left. eapply act_if_mem; [done|]. destruct Hc as [->| ->]; [done|apply orb_true_r].
  - right. right. right. left. eapply act_if_mem; [done|]. by apply bool_decide_eq_true.
  - right. right. right. right. left. eapply act_if_mem; [done|]. apply Z.ltb_lt in Hc. cbn [QUEUE_CAP globals].
    by rewrite Hc, Hl2.
  - do 7 right. by eapply act_if_mem.
Qed.

Lemma gate_admin_did r l :
  gate_admin r = (l, inr ()) ->
  forall addr, admin_listen r = Some addr ->
  is_loopback (sock_ip addr) = true \/ exists t, env_var (lit "ASKR_ADMIN_TOKEN") = Some t /\ t <> [].
Proof.
  unfold gate_admin. intros Hg addr Ha. rewrite when_given_boot, Ha in Hg. boot_inv.
  apply orb_true_iff in Hg as [?|Hg%bool_decide_eq_true]; [by left|right].
  destruct (env_var _) as [t|]; cbn in Hg; [|by destruct Hg]. exists t. split; [done|].
  by case_bool_decide; [destruct Hg|].
Qed.

Lemma certificates_did s c l c' :
  certificates s c = (l, inr c') ->
  listen c' = listen c /\ sandbox_required c' = sandbox_required c /\ sandbox_write c' = sandbox_write c /\
  c_pusher c' = c_pusher c /\ ratelimits c' = ratelimits c /\
  (as_on s = true ->
   https c' = true /\ c_tls_cert c' = Some (cert_path (as_dir s)) /\ c_tls_key c' = Some (key_path (as_dir s)) /\
   c_tls_self_signed c' = false /\ (needs_renewal (as_dir s) = false \/ obtain_blocking (acme_config s) = true)).
Proof.
  unfold certificates. destruct (as_on s); intros Hc.
  - destruct (needs_renewal (as_dir s)) eqn:En; boot_inv; subst; do 5 (split; [done|]); intros _;
      do 4 (split; [done|]); [by right|by left].
  - boot_inv. subst. by do 5 (split; [done|]).
Qed.

(** What a shape of the process is fit for. *)
Definition fit (r : Resolved) (c : Config) (s : Shape) : Prop :=
  match s with
  | RunCow wmin wmax => worker_script c <> None /\ 1 <= wmin <= wmax /\ wmax <= Z.of_nat MAX_WORKERS
  | RunWorker => workers r <= 1 /\ admin_listen r = None
  | Supervise conf _ =>
      (1 <= web conf)%nat /\ (queue_min conf <= queue_max conf)%nat /\
      ((0 < queue_min conf)%nat -> queue_enabled conf = true /\ 0 < queue_slots r)
  end.

Lemma shape_did a r c l s :
  (0 < queue_workers r -> 0 < queue_slots r) -> shape a r c = (l, inr s) -> l = [] /\ fit r c s.
Proof.
  intros Hq. unfold shape. destruct (a_cow a); intros Hs.
  - boot_inv. subst. split; [done|]. cbn [fit]. apply bool_decide_eq_true in H0 as [p ->].
    split; [done|]. unfold clamp, MAX_WORKERS. lia.
  - destruct (need_supervisor a r c) eqn:En; boot_inv; subst; (split; [done|]).
    + cbn [fit supervisor_conf web queue_min queue_max queue_enabled sidecars_of sc_queue sc_queue_max].
      split; [lia|]. split; [lia|]. intros Hw. assert (0 < queue_slots r) as Hs by (apply Hq; lia).
      apply Z.ltb_lt in Hs as Hs'. by rewrite Hs', orb_true_r.
    + unfold need_supervisor in En. rewrite !orb_false_iff in En. cbn.
      destruct En as [[[[[? _] _] Ha] _] _]. zbool. split; [lia|].
      destruct (admin_listen r); [|done]. exfalso. apply Ha. eauto.
Qed.

Lemma quiet_did {A} (m : Boot A) l x : quiet m -> m = (l, x) -> Forall (fun y => ~ binds y) l.
Proof. by intros Hm ->. Qed.

Lemma mapped_mono r l l' : mapped r l -> l ⊆ l' -> mapped r l'.
Proof. unfold mapped. intros (? & ? & ? & ? & ? & ?) Hl. repeat split; intros; apply Hl; auto. Qed.

(** C22.  A server that comes up is what its configuration says.  Every region the configuration relies
    on is mapped before the listener is bound, and so before any worker; nothing is bound before
    all is checked.  An admin plane off the loopback has a token; a sandbox that is required has
    its paths; with ACME there is a certificate and HTTPS.  The master that takes over has a slot
    for a web worker, and its queue's workers have a queue. *)
Theorem served_as_configured a l c s :
  serve a = (l, inr (c, s)) ->
  exists r before,
    (configured a).2 = inr r /\
    l = before ++ [Bind (listen c)] /\ Forall (fun x => ~ binds x) before /\ bind_listener (listen c) = true /\
    mapped r before /\
    (forall addr, admin_listen r = Some addr ->
       is_loopback (sock_ip addr) = true \/ exists t, env_var (lit "ASKR_ADMIN_TOKEN") = Some t /\ t <> []) /\
    (sandbox_required c = true -> sandbox_write c <> []) /\
    (r_acme r = true -> https c = true /\ c_tls_cert c <> None /\ c_tls_key c <> None) /\
    fit r c s.
Proof.
  unfold serve. intros Hs. apply boot_inr in Hs as (l0 & r & ? & Hc & Hs & ->).
  pose proof (configured_silent _ _ _ Hc) as ->. pose proof (configured_queue _ _ _ Hc) as Hq.
  do 10 (apply boot_inr in Hs; destruct Hs as (? & ? & ? & ? & Hs & ->)).
  apply boot_inr in Hs as (? & s' & ? & Hshape & Hs & ->).
  apply (proj1 (ret_boot _ _ _)) in Hs as [-> [= -> ->]].
  apply shape_did in Hshape as [-> Hfit]; [|done].
  repeat match goal with x : unit |- _ => destruct x end.
  pose proof (quiet_did _ _ _ (app_base_quiet r) H0) as Q0.
  pose proof (quiet_did _ _ _ (map_regions_quiet r) H3) as Q1.
  pose proof (quiet_did _ _ _ (certificates_quiet _ _) H4) as Q2.
  pose proof (quiet_did _ _ _ (quiet_given _ _ (fun b => quiet_check _ _)) H5) as Q3.
  pose proof (quiet_did _ _ _ (redirect_front_quiet a c) H7) as Q4.
  apply map_regions_did in H3. apply certificates_did in H4 as (_ & _ & _ & _ & _ & Hacme).
  pose proof (gate_admin_did _ _ H5) as Hadm.
  apply act_boot in H1 as ->, H2 as ->, H8 as ->. apply check_that_boot in H9 as [-> Hbind].
  apply check_that_boot in H6 as [-> Hsb].
  exists r, (x0 ++ [Store (globals r)] ++ [NameApps] ++ x4 ++ x6 ++ x8 ++ x12).
  split; [by rewrite Hc|]. split; [by rewrite !app_nil_r, <- !app_assoc|].
  split. { rewrite !Forall_app. repeat split; try done; repeat constructor; auto. }
  split; [done|]. split; [eapply mapped_mono; [done|]; set_solver|]. split; [done|].
  split. { intros Hr E. by rewrite Hr, bool_decide_eq_true_2 in Hsb. }
  split; [|done]. intros Ha. destruct (Hacme Ha) as (? & -> & -> & _). done.
Qed.

Lemma boot_inl {A B} (m : Boot A) (k : A -> Boot B) l e :
  (x ← m; k x) = (l, inl e) ->
  m = (l, inl e) \/ exists l1 x l2, m = (l1, inr x) /\ k x = (l2, inl e) /\ l = l1 ++ l2.
Proof.
  unfold mbind, boot_bind. destruct m as [l1 [e1|x]]; [naive_solver|].
  destruct (k x) as [l2 r] eqn:E. intros [= <- ->]. right. eauto 10.
Qed.

(** A step that refuses has bound nothing, or a later one refuses. *)
Lemma quiet_refused {A B} (m : Boot A) (k : A -> Boot B) l e (P : Prop) :
  quiet m -> (x ← m; k x) = (l, inl e) ->
  (forall x l', k x = (l', inl e) -> Forall (fun y => ~ binds y) l' \/ P) -> Forall (fun y => ~ binds y) l \/ P.
Proof.
  intros Hm [E|(l1 & x & l2 & E1 & E2 & ->)]%boot_inl Hk.
  - left. by eapply quiet_did.
  - destruct (Hk _ _ E2) as [?|?]; [left|by right]. apply Forall_app. split; [|done]. by eapply quiet_did.
Qed.

(** Whatever is wrong with the configuration, the admin plane, the sandbox, the redirect or the
    certificate is refused before the server's port is bound. *)
Theorem refused_unbound a l e :
  serve a = (l, inl e) ->
  Forall (fun x => ~ binds x) l \/ (exists addr, e = CannotBind addr) \/ e = CowWithoutScript.
Proof.
  unfold serve. intros Hs.
  refine (quiet_refused _ _ _ _ _ (configured_quiet a) Hs _). clear Hs. intros r l1 Hs.
  refine (quiet_refused _ _ _ _ _ (app_base_quiet r) Hs _). clear Hs. intros _ l2 Hs.
  refine (quiet_refused _ _ _ _ _ (store_quiet _) Hs _). clear Hs. intros _ l3 Hs.
  refine (quiet_refused _ _ _ _ _ names_quiet Hs _). clear Hs. intros _ l4 Hs.
  refine (quiet_refused _ _ _ _ _ (map_regions_quiet r) Hs _). clear Hs. intros _ l5 Hs.
  refine (quiet_refused _ _ _ _ _ (certificates_quiet _ _) Hs _). clear Hs. intros c l6 Hs.
  refine (quiet_refused _ _ _ _ _ (quiet_given _ _ (fun b => quiet_check _ _)) Hs _). clear Hs. intros _ l7 Hs.
  refine (quiet_refused _ _ _ _ _ (quiet_check _ _) Hs _). clear Hs. intros _ l8 Hs.
  refine (quiet_refused _ _ _ _ _ (redirect_front_quiet a c) Hs _). clear Hs. intros _ l9 Hs.
  apply boot_inl in Hs as [Hs|(? & ? & ? & _ & Hs & _)]; [done|]. right.
  apply boot_inl in Hs as [Hs|(? & ? & ? & _ & Hs & _)].
  { unfold check_that, refuse, mret, boot_ret in Hs. destruct (bind_listener _); [done|].
    injection Hs as _ <-. left. eauto. }
  apply boot_inl in Hs as [Hs|(? & ? & ? & _ & Hs & _)]; [|done]. right.
  unfold shape in Hs. destruct (a_cow a); [|by destruct (need_supervisor _ _ _)].
  apply boot_inl in Hs as [Hs|(? & ? & ? & _ & Hs & _)]; [|done].
  unfold check_that, refuse, mret, boot_ret in Hs. destruct (bool_decide _); [done|]. by injection Hs as _ <-.
Qed.
End Startup.
