(* ===== verification/StartupDemo.v ===== *)
(** Start-up at the shop of [ConfigDemo], and the runs in which it does not do what its comments
    say. *)

From stdpp Require Import gmap.
From S2P Require Import Prelude Bytes Ns Supervisor Http Trust Server Config ConfigSpec ConfigDemo Startup StartupSpec.

(** One worker with certificates from [[acme]], and an admin plane on every address. *)
Definition front_server (workers : bytes) (redirect_to : option SocketAddr) : ServerSection :=
  {| srv_listen := lit "0.0.0.0:443"; srv_root := lit "/srv/shop/public"; srv_front := lit "index.php";
     srv_workers := workers; srv_workers_min := None; srv_workers_max := None; srv_max_requests := 0;
     srv_max_rss := 0; srv_shadow_to := None; srv_shadow_sample := 100; srv_max_body_size := lit "16M";
     srv_https := false; srv_force_https := true; srv_http_redirect := redirect_to; srv_traffic_log := None;
     srv_trusted_proxies := []; srv_app_id := None; srv_access_log := None; srv_http3 := false;
     srv_tls_handshake_timeout := 10; srv_header_read_timeout := 15; srv_sandbox := false;
     srv_sandbox_required := false; srv_sandbox_write := [] |}.

Definition acme_file (redirect_to : option SocketAddr) (adm : option bytes) : FileConfig :=
  {| server := front_server (lit "1") redirect_to; worker := mkWorker None None None false None;
     tls := mkTls None None false;
     acme := mkAcme true [lit "shop.test"] None None false None None None; admin := mkAdmin adm;
     queue := mkQueue 0 None None 0 None 0 None; scheduler := no_scheduler;
     cache := mkCacheSection 0 0 0 [] [] false 0 [] None None;
     broadcast := mkBroadcast false; reload := reload_default; record := mkRecord None;
     pusher := mkPusher false None; sidecar := []; redirect := []; site := []; ratelimit := [] |}.

Definition port (n : Z) : SocketAddr := mkSock (V4 [0; 0; 0; 0]) n 0.

#[local] Instance demo_host : Host := {|
  files := demo_files;
  load := fun p =>
    if beq p (lit "/etc/shop.toml") then Some shop
    else if beq p (lit "/etc/acme.toml") then Some (acme_file None None)
    else if beq p (lit "/etc/open.toml") then Some (acme_file None (Some (lit "0.0.0.0:9000")))
    else if beq p (lit "/etc/redirect.toml") then Some (acme_file (Some (port 8080)) None)
    else None;
  env_var := fun _ => None;
  cpus := 4;
  l2_enabled := false;
  read_to_string := fun _ => Some (lit "2000000000");
  now_secs := 1700000000;
  staging_url := lit "https://staging.test/dir";
  production_url := lit "https://production.test/dir";
  obtain_blocking := fun _ => true;
  bind_listener := fun _ => true |}.

(** [askr serve], with a config file or with flags. *)
Definition serve_args (path : option bytes) (acme : bool) (flags : list bytes) : Args :=
  {| a_config := path; a_admin := None; a_root := Some (lit "/srv/shop/public"); a_app_id := None;
     a_front := lit "index.php"; a_listen := port 443; a_workers := Some 1; a_workers_min := None;
     a_workers_max := None; a_https := false; a_ini := None; a_worker_script := None; a_max_requests := 0;
     a_max_rss := 0; a_shadow_to := None; a_shadow_sample := 100; a_http3 := false; a_force_https := false;
     a_http_redirect := None; a_tls_handshake_timeout := 10; a_header_read_timeout := 15; a_tls_cert := None;
     a_tls_key := None; a_tls_self_signed := false; a_max_body_size := lit "16M"; a_paranoid := false;
     a_paranoid_sample := None; a_queue := 0; a_queue_max := None; a_queue_script := None; a_queue_slots := 0;
     a_scheduler_script := None; a_sidecar := []; a_cache_slots := 0; a_cache_large_slots := 0;
     a_response_cache := 0; a_broadcast := false; a_canary := false; a_cow := false; a_record_errors := None;
     a_acme := acme; a_acme_domain := [lit "shop.test"]; a_acme_email := None;
     a_acme_dir := lit "/var/lib/askr/acme"; a_acme_staging := false; a_acme_directory := None;
     a_acme_http := port 80; a_acme_ca_root := None; a_sandbox := false; a_sandbox_write := [];
     a_sandbox_required := false; a_pusher := false; a_pusher_secret := None; a_access_log := None;
     a_traffic_log := None; argv := flags |}.

Definition with_file (path : bytes) : Args := serve_args (Some path) false [lit "serve"; lit "--config"; path].

Definition shop_conf : Conf :=
  mkConf 4 2 2 0 0 0 true false 5 20 200 300 false 120.

Lemma shop_served :
  serve (with_file (lit "/etc/shop.toml"))
  = ([Store (globals shop_r); NameApps; InitCache 64 0; InitResponses 64; InitLimits 4096; InitQueue 64 None;
      InitCounters; Bind at_root],
     inr (config shop_r, Supervise shop_conf (Some (mkSock (V4 [127; 0; 0; 1]) 9000 0)))).
Proof. vm_compute. reflexivity. Qed.

Lemma served_as_configured_witness :
  exists before,
    (serve (with_file (lit "/etc/shop.toml"))).1 = before ++ [Bind at_root] /\
    ((0 < queue_min shop_conf)%nat -> queue_enabled shop_conf = true) /\ Forall (fun x => ~ binds x) before.
Proof.
  destruct (served_as_configured _ _ _ _ shop_served) as (r & before & Hr & El & Hq & _ & _ & _ & _ & _ & _ & _ & Hw).
  exists before. split; [rewrite shop_served; exact El|]. split; [intros Hm; apply (Hw Hm)|exact Hq].
Defined.

(** ** The command line says it once *)

(** What the configuration file says, the command line may not say again. *)
Example flags_beside_a_file :
  serve (serve_args (Some (lit "/etc/shop.toml")) false
           [lit "serve"; lit "--config"; lit "/etc/shop.toml"; lit "--workers=4"; lit "--listen"; lit "0.0.0.0:80"])
  = ([], inl (FlagsBesideConfig [lit "--workers"; lit "--listen"])).
Proof. vm_compute. reflexivity. Qed.

Lemma refused_unbound_witness :
  serve (with_file (lit "/etc/none.toml")) = ([], inl (ConfigUnreadable (lit "/etc/none.toml"))) /\
  Forall (fun x => ~ binds x) [].
Proof.
  assert (serve (with_file (lit "/etc/none.toml")) = ([], inl (ConfigUnreadable (lit "/etc/none.toml")))) as E
    by (vm_compute; reflexivity).
  split; [exact E|].
  destruct (refused_unbound _ _ _ E) as [Hq|[[addr Hb]|Hc]]; [exact Hq|discriminate Hb|discriminate Hc].
Defined.

(** ** Where the code and its comments part *)

Definition shape_of (a : Args) : option Shape :=
  match (serve a).2 with inr (_, s) => Some s | inl _ => None end.
Definition supervised (a : Args) : option bool :=
  (fun s => match s with Supervise _ _ => true | _ => false end) <$> shape_of a.

(** The supervisor is needed for the renewal of certificates, and the flag [--acme] brings it up;
    [[acme] enabled] does not.  With one worker the process serves alone, and the reload that
    follows a renewal has no one to carry it out: the old certificate is served until it expires. *)
Lemma acme_in_a_file_is_not_supervised :
  supervised (serve_args None true [lit "serve"; lit "--acme"]) = Some true /\
  supervised (with_file (lit "/etc/acme.toml")) = Some false /\
  SpawnRenewal ∈ (serve (with_file (lit "/etc/acme.toml"))).1.
Proof. vm_compute. split; [done|]. split; [done|]. repeat constructor. Qed.

(** An open admin plane is refused before anything binds -- but the front of the ACME challenge is
    up by then, with the certificate fetched. *)
Lemma open_admin_is_refused_late :
  (serve (with_file (lit "/etc/open.toml"))).2 = inl (AdminOpen (mkSock (V4 [0; 0; 0; 0]) 9000 0)) /\
  SpawnFront (port 80) true ∈ (serve (with_file (lit "/etc/open.toml"))).1.
Proof. vm_compute. split; [done|]. repeat constructor. Qed.

(** With ACME, the address of [http_redirect] is never listened on: the front has been started for
    the challenges, and a second one returns at once. *)
Lemma http_redirect_lost_to_acme :
  let l := (serve (with_file (lit "/etc/redirect.toml"))).1 in
  SpawnFront (port 8080) true ∈ l /\ front_of l = Some (port 80, true).
Proof. vm_compute. split; [|done]. repeat constructor. Qed.
