(* ===== verification/Sse.v ===== *)
(** Server-sent events ([server/sse.rs]): the hub of one worker, between the broadcast ring and its
    clients.

    A subscriber is a bounded channel: the hub holds the sending end, a client the other.  The
    [HashMap] of channels is an association list, in no particular order: no sender is in two
    entries, so that none of the operations depends on it. *)

From S2P Require Import Prelude Bytes Http Broadcast.

(** ** The hub *)

(** [mpsc::channel(128)]. *)
Definition CAPACITY : nat := 128.
Record Sub := mkSub {
  buf : list bytes;          (* sent and not yet received *)
  taken : list bytes;        (* received, oldest first *)
  open : bool }.             (* the client is there *)
#[global] Instance sub_eq_dec : EqDecision Sub.
Proof. solve_decision. Defined.

(** [SseHub]: the senders of each channel, by number; and every subscriber there has been. *)
Record Hub := mkHub { channels : list (bytes * list nat); subs : list Sub }.

Definition empty_hub : Hub := mkHub [] [].

Definition connected : bytes := lit ": connected" ++ [10; 10].
Definition ping_msg : bytes := lit ": ping" ++ [10; 10].

(** [try_send]: an error when the buffer is full or the client is gone. *)
Definition try_send (s : Sub) (data : bytes) : option Sub :=
  if open s && (length (buf s) <? CAPACITY)%nat then Some (mkSub (buf s ++ [data]) (taken s) (open s)) else None.

(** [entry(channel).or_default().push(tx)]. *)
Fixpoint push_sender (chan : bytes) (id : nat) (l : list (bytes * list nat)) : list (bytes * list nat) :=
  match l with
  | [] => [(chan, [id])]
  | (c, ids) :: l => if beq c chan then (c, ids ++ [id]) :: l else (c, ids) :: push_sender chan id l
  end.

Definition subscribe (h : Hub) (chan : bytes) : Hub :=
  mkHub (push_sender chan (length (subs h)) (channels h)) (subs h ++ [mkSub [connected] [] true]).

(** [retain(|tx| tx.try_send(data).is_ok())]. *)
Fixpoint retain (data : bytes) (ids : list nat) (ss : list Sub) : list nat * list Sub :=
  match ids with
  | [] => ([], ss)
  | id :: ids =>
      match ss !! id ≫= (fun s => try_send s data) with
      | Some s => let '(ids, ss) := retain data ids (<[id := s]> ss) in (id :: ids, ss)
      | None => retain data ids ss
      end
  end.

(** The entries [which] picks are sent [data], and go when nobody is left in them. *)
Fixpoint sweep (which : bytes -> bool) (data : bytes) (l : list (bytes * list nat)) (ss : list Sub)
    : list (bytes * list nat) * list Sub :=
  match l with
  | [] => ([], ss)
  | (c, ids) :: l =>
      if which c then
        let '(ids, ss) := retain data ids ss in
        let '(l, ss) := sweep which data l ss in
        (match ids with [] => l | _ => (c, ids) :: l end, ss)
      else let '(l, ss) := sweep which data l ss in ((c, ids) :: l, ss)
  end.

Definition swept (which : bytes -> bool) (data : bytes) (h : Hub) : Hub :=
  let '(l, ss) := sweep which data (channels h) (subs h) in mkHub l ss.

Definition deliver (h : Hub) (channel data : bytes) : Hub := swept (beq channel) data h.
Definition ping (h : Hub) : Hub := swept (fun _ => true) ping_msg h.
Definition close_all (h : Hub) : Hub := mkHub [] (subs h).

(** A client receives a frame ([poll_frame]), or goes. *)
Definition receive (h : Hub) (id : nat) : Hub :=
  mkHub (channels h) (alter (fun s => match buf s with
                                      | b :: bs => mkSub bs (taken s ++ [b]) (open s)
                                      | [] => s
                                      end) id (subs h)).
Definition leave (h : Hub) (id : nat) : Hub :=
  mkHub (channels h) (alter (fun s => mkSub [] (taken s) false) id (subs h)).

(** ** [GET /askr/events] *)

Inductive SseReply := Forbidden | TooLong | Streaming (id : nat).

Definition channel_of (query : option bytes) : bytes :=
  default (lit "default")
    (q ← query; head (omap (strip_prefix (lit "channel=")) (split_on 38 q))).

Definition privileged (channel : bytes) : bool :=
  starts_with channel (lit "private-") || starts_with channel (lit "presence-").

Definition sse_response (h : Hub) (query : option bytes) : SseReply * Hub :=
  let channel := channel_of query in
  if privileged channel then (Forbidden, h)
  else if (Z.of_nat (length channel) >? Z.of_nat CHAN_MAX) then (TooLong, h)
  else (Streaming (length (subs h)), subscribe h channel).

(** ** The task that tails the ring ([server/mod.rs]) *)

Definition frame (payload : bytes) : bytes := lit "data: " ++ from_utf8_lossy payload ++ [10; 10].

(** The events of one turn, in the ring's order. *)
Definition tail (h : Hub) (events : list (bytes * bytes)) : Hub :=
  foldl (fun h '(ch, payload) => deliver h (from_utf8_lossy ch) (frame payload)) h events.

(** ** What happens to a hub *)

Inductive Event :=
| ERequest (query : option bytes)
| EDeliver (channel data : bytes)
| EPing
| EClose
| EReceive (id : nat)
| ELeave (id : nat).

Definition on_event (h : Hub) (e : Event) : Hub :=
  match e with
  | ERequest q => (sse_response h q).2
  | EDeliver c d => deliver h c d
  | EPing => ping h
  | EClose => close_all h
  | EReceive id => receive h id
  | ELeave id => leave h id
  end.
