(* ===== verification/SseSpec.v ===== *)
(** What a subscriber of [Sse] hears: everything on its channel from the moment it subscribed, in
    order and without a gap, until it falls too far behind and is cut off. *)

From S2P Require Import Prelude Bytes Http Broadcast Sse.

(** ** The specification: what each subscriber was due *)

(** Of each subscriber, its channel and what has been sent to it since it came. *)
Definition due (l : list (bytes * list bytes)) (e : Event) : list (bytes * list bytes) :=
  match e with
  | ERequest q =>
      if privileged (channel_of q) || (Z.of_nat (length (channel_of q)) >? Z.of_nat CHAN_MAX) then l
      else l ++ [(channel_of q, [connected])]
  | EDeliver c d => (fun '(c', hs) => if beq c c' then (c', hs ++ [d]) else (c', hs)) <$> l
  | EPing => (fun '(c', hs) => (c', hs ++ [ping_msg])) <$> l
  | _ => l
  end.

(** ** The senders of a hub *)

Definition senders (l : list (bytes * list nat)) : list nat := l ≫= snd.

(** [id] sends on [c]. *)
Definition reg (l : list (bytes * list nat)) (c : bytes) (id : nat) : Prop := exists ids, (c, ids) ∈ l /\ id ∈ ids.

Lemma reg_nil c id : ~ reg [] c id.
Proof. by intros (ids & []%not_elem_of_nil & _). Qed.

Lemma reg_cons c0 ids0 l c id : reg ((c0, ids0) :: l) c id <-> (c = c0 /\ id ∈ ids0) \/ reg l c id.
Proof.
  unfold reg. setoid_rewrite elem_of_cons. split; [intros (ids & [[= -> ->]|?] & ?); eauto|].
  intros [[-> ?]|(ids & ? & ?)]; eauto.
Qed.

Lemma reg_sender l c id : reg l c id -> id ∈ senders l.
Proof. intros (ids & Hc & Hi). apply list_elem_of_bind. by exists (c, ids). Qed.

Lemma sender_reg l id : id ∈ senders l -> exists c, reg l c id.
Proof. intros ([c ids] & Hi & Hc)%list_elem_of_bind. by exists c, ids. Qed.

Lemma senders_cons c ids l : senders ((c, ids) :: l) = ids ++ senders l.
Proof. done. Qed.

(** An entry without senders might as well be there. *)
Lemma reg_cons_ne c0 ids0 l c id :
  reg (match ids0 with [] => l | _ => (c0, ids0) :: l end) c id <-> (c = c0 /\ id ∈ ids0) \/ reg l c id.
Proof. destruct ids0; [|apply reg_cons]. split; [by right|]. by intros [[_ ?%not_elem_of_nil]|?]. Qed.

(** *** What [retain] and [sweep] do, sender by sender *)

Definition sent (data : bytes) (ss : list Sub) (id : nat) : option Sub := ss !! id ≫= (fun s => try_send s data).

Lemma retain_spec data ids ss ids' ss' :
  NoDup ids -> retain data ids ss = (ids', ss') ->
  length ss' = length ss /\ sublist ids' ids /\
  (forall id, id ∈ ids' <-> id ∈ ids /\ is_Some (sent data ss id)) /\
  (forall id, ss' !! id = if decide (id ∈ ids') then sent data ss id else ss !! id).
Proof.
  revert ss ids' ss'. induction ids as [|j ids IH]; intros ss ids' ss' Hn Hr.
  { injection Hr as <- <-. split; [done|]. split; [constructor|].
    split; intros id.
    - split; [by intros ?%not_elem_of_nil|by intros [?%not_elem_of_nil _]].
    - by rewrite decide_False by apply not_elem_of_nil. }
  apply NoDup_cons in Hn as [Hj Hn]. cbn [retain] in Hr. fold (sent data ss j) in Hr.
  destruct (sent data ss j) as [s|] eqn:Es.
  - destruct (retain data ids _) as [ids1 ss1] eqn:E1. injection Hr as <- <-.
    destruct (IH _ _ _ Hn E1) as (Hlen & Hsub & Hin & Hat).
    assert (forall id, id ∈ ids -> sent data (<[j:=s]> ss) id = sent data ss id) as Hsame.
    { intros id Hid. unfold sent. by rewrite list_lookup_insert_ne by (by intros ->). }
    split; [by rewrite Hlen, length_insert|]. split; [by constructor|]. split.
    + intros id. rewrite !elem_of_cons, Hin. split.
      * intros [->|[Hid Hs]]; [split; [by left|by exists s]|]. rewrite Hsame in Hs by done. auto.
      * intros [[->|Hid] Hs]; [by left|right]. split; [done|]. by rewrite Hsame.
    + intros id. rewrite Hat. destruct (decide (id = j)) as [->|Hne].
      * rewrite (decide_False (P := j ∈ ids1)) by (intros [? _]%Hin; done).
        rewrite (decide_True (P := j ∈ j :: ids1)) by by left.
        rewrite Es. unfold sent in Es. apply bind_Some in Es as (s0 & Hs0 & _). apply list_lookup_insert_eq.
        by eapply lookup_lt_Some.
      * destruct (decide (id ∈ ids1)) as [Hi|Hi].
        -- rewrite decide_True by by right. apply Hin in Hi as [Hi _]. by apply Hsame.
        -- rewrite decide_False by (intros [?|?]%elem_of_cons; done). by apply list_lookup_insert_ne.
  - destruct (IH _ _ _ Hn Hr) as (Hlen & Hsub & Hin & Hat). split; [done|]. split; [by constructor|].
    split; [|done]. intros id. rewrite elem_of_cons, Hin. split; [intros [? ?]; auto|].
    intros [[->|?] Hs]; [rewrite Es in Hs; by destruct Hs|done].
Qed.

(** [l'] and [ss'] are [l] and [ss] after the sweep: who is still there, and who was sent what. *)
Definition swept_to (which : bytes -> bool) (data : bytes) (l : list (bytes * list nat)) (ss : list Sub)
    (l' : list (bytes * list nat)) (ss' : list Sub) : Prop :=
  length ss' = length ss /\ sublist (senders l') (senders l) /\
  (forall c id, reg l' c id <-> reg l c id /\ (which c = true -> is_Some (sent data ss id))) /\
  (forall c id, reg l c id -> which c = true -> is_Some (sent data ss id) -> ss' !! id = sent data ss id) /\
  (forall id, ss' !! id <> ss !! id -> exists c, reg l c id /\ which c = true /\ is_Some (sent data ss id)).

Lemma swept_to_skip which data c0 ids l ss l' ss' :
  which c0 = false -> swept_to which data l ss l' ss' ->
  swept_to which data ((c0, ids) :: l) ss ((c0, ids) :: l') ss'.
Proof.
  intros Ew (Hl2 & Hsub2 & Hreg2 & Hsent2 & Hch2). split; [done|]. split.
  { rewrite !senders_cons. by apply sublist_app. }
  split; [|split].
  - intros c id. rewrite !reg_cons, Hreg2. split.
    + intros [[-> Hi]|[Hr Hw]]; [|auto]. split; [auto|]. congruence.
    + intros [[[-> Hi]|Hr] Hw]; auto.
  - intros c id [[-> Hi]|Hr]%reg_cons Hw Hs; [congruence|]. by apply (Hsent2 c).
  - intros id (c & Hr & Hw)%Hch2. exists c. split; [apply reg_cons; auto|done].
Qed.

Lemma swept_to_take which data c0 ids l ss ids1 ss1 l' ss' :
  which c0 = true -> NoDup ids -> (forall c id, reg l c id -> id ∉ ids) ->
  retain data ids ss = (ids1, ss1) -> swept_to which data l ss1 l' ss' ->
  swept_to which data ((c0, ids) :: l) ss (match ids1 with [] => l' | _ => (c0, ids1) :: l' end) ss'.
Proof.
  intros Ew Hn0 Hout E1 (Hl2 & Hsub2 & Hreg2 & Hsent2 & Hch2).
  destruct (retain_spec _ _ _ _ _ Hn0 E1) as (Hl1 & Hsub1 & Hin1 & Hat1).
  assert (forall id, id ∉ ids -> ss1 !! id = ss !! id) as Hold.
  { intros id Hi. rewrite Hat1, decide_False; [done|]. by intros [? _]%Hin1. }
  assert (forall c id, reg l c id -> sent data ss1 id = sent data ss id) as Hsame.
  { intros c id Hr. unfold sent. rewrite Hold; [done|by eapply Hout]. }
  split; [by rewrite Hl2|]. split.
  { rewrite senders_cons. destruct ids1; [by apply sublist_inserts_l|]. rewrite senders_cons. by apply sublist_app. }
  split; [|split].
  - intros c id. rewrite reg_cons_ne, reg_cons, Hin1, Hreg2. split.
    + intros [(-> & Hi & Hs)|[Hr Hw]]; [auto|]. split; [by right|]. intros Hwc.
      rewrite <- (Hsame c id) by done. auto.
    + intros [[[-> Hi]|Hr] Hw]; [by left; auto|right]. split; [done|]. intros Hwc.
      rewrite (Hsame c id) by done. auto.
  - intros c id [[-> Hi]|Hr]%reg_cons Hw Hs.
    + destruct (decide (ss' !! id = ss1 !! id)) as [->|Hne].
      * rewrite Hat1, decide_True; [done|]. by apply Hin1.
      * apply Hch2 in Hne as (c & Hr & _). by apply Hout in Hr.
    + rewrite <- (Hsame c id) in Hs |- * by done. by apply (Hsent2 c).
  - intros id Hne. destruct (decide (id ∈ ids1)) as [Hi|Hi].
    + exists c0. apply Hin1 in Hi as [Hi Hs]. split; [apply reg_cons; auto|done].
    + assert (ss1 !! id = ss !! id) as E by by rewrite Hat1, decide_False.
      rewrite <- E in Hne. apply Hch2 in Hne as (c & Hr & Hw & Hs). exists c.
      split; [apply reg_cons; auto|]. split; [done|]. by rewrite <- (Hsame c id).
Qed.

Lemma sweep_spec which data l ss l' ss' :
  NoDup (senders l) -> sweep which data l ss = (l', ss') -> swept_to which data l ss l' ss'.
Proof.
  revert ss l' ss'. induction l as [|[c0 ids] l IH]; intros ss l' ss' Hn Hs.
  { injection Hs as <- <-. split; [done|]. split; [constructor|]. split; [|split].
    - intros c id. split; [by intros ?%reg_nil|by intros [?%reg_nil _]].
    - by intros c id ?%reg_nil.
    - done. }
  rewrite senders_cons in Hn. apply NoDup_app in Hn as (Hn0 & Hdis & Hn1). cbn [sweep] in Hs.
  destruct (which c0) eqn:Ew.
  - destruct (retain data ids ss) as [ids1 ss1] eqn:E1, (sweep which data l ss1) as [l2 ss2] eqn:E2.
    injection Hs as <- <-. eapply swept_to_take; eauto.
    intros c id Hr Hi. apply reg_sender in Hr. by apply (Hdis id).
  - destruct (sweep which data l ss) as [l2 ss2] eqn:E2. injection Hs as <- <-. by apply swept_to_skip; auto.
Qed.

(** ** One subscriber against what it was due *)

Definition heard (s : Sub) : list bytes := taken s ++ buf s.

(** A sender the hub still has, has sent all that was due; every client has read from the front of
    it. *)
Definition hub_ok (h : Hub) (l : list (bytes * list bytes)) : Prop :=
  length (subs h) = length l /\ NoDup (senders (channels h)) /\ Forall (fun x => privileged x.1 = false) l /\
  (forall c id, reg (channels h) c id ->
     exists s hs, subs h !! id = Some s /\ l !! id = Some (c, hs) /\ (open s = true -> heard s = hs)) /\
  (forall id s c hs, subs h !! id = Some s -> l !! id = Some (c, hs) ->
     heard s `prefix_of` hs /\ (length (buf s) <= CAPACITY)%nat /\ (open s = false -> buf s = [])).

Lemma try_send_Some s d s' :
  try_send s d = Some s' ->
  open s = true /\ open s' = true /\ taken s' = taken s /\ heard s' = heard s ++ [d] /\
  (length (buf s') <= CAPACITY)%nat.
Proof.
  unfold try_send, heard. destruct (open s) eqn:Eo; [|done]. destruct (_ <? _)%nat eqn:El; [|done].
  intros [= <-]. cbn. rewrite app_assoc, length_app. apply Nat.ltb_lt in El. cbn. repeat split; lia.
Qed.

Definition owe (which : bytes -> bool) (data : bytes) (x : bytes * list bytes) : bytes * list bytes :=
  (x.1, if which x.1 then x.2 ++ [data] else x.2).

Lemma owe_lookup which data (l : list (bytes * list bytes)) id c hs :
  l !! id = Some (c, hs) -> (owe which data <$> l) !! id = Some (c, if which c then hs ++ [data] else hs).
Proof. intros E. rewrite list_lookup_fmap.  by rewrite E. Qed.

Lemma hub_ok_swept which data h l : hub_ok h l -> hub_ok (swept which data h) (owe which data <$> l).
Proof.
  intros (Hlen & Hn & Hp & Hr & Hs). unfold swept. destruct (sweep _ _ _ _) as [l' ss'] eqn:E.
  destruct (sweep_spec _ _ _ _ _ _ Hn E) as (Hl & Hsub & Hreg & Hsent & Hch).
  split; [by cbn; rewrite Hl, length_fmap|]. split; [by eapply sublist_NoDup|].
  split; [apply Forall_fmap; eapply Forall_impl; [done|]; by intros []|]. cbn [channels subs].
  assert (forall c id, reg (channels h) c id -> which c = false -> ss' !! id = subs h !! id) as Hkeep.
  { intros c id Hc Hw. destruct (decide (ss' !! id = subs h !! id)) as [|(c' & Hc' & Hw' & _)%Hch]; [done|].
    destruct (Hr _ _ Hc) as (? & ? & _ & Hd & _), (Hr _ _ Hc') as (? & ? & _ & Hd' & _). congruence. }
  split.
  - intros c id [Hc Hw]%Hreg. destruct (Hr _ _ Hc) as (s & hs & Es & El & Ho).
    destruct (which c) eqn:Ew.
    + specialize (Hw eq_refl) as [s' Hs']. exists s', (hs ++ [data]).
      rewrite (Hsent c id) by eauto. split; [done|]. split; [by rewrite (owe_lookup _ _ _ _ _ _ El), Ew|]. unfold sent in Hs'. rewrite Es in Hs'.
      apply try_send_Some in Hs' as (Hos & _ & _ & -> & _). intros _. by rewrite Ho.
    + exists s, hs. rewrite (Hkeep c id) by done. split; [done|].
      split; [by rewrite (owe_lookup _ _ _ _ _ _ El), Ew|done].
  - intros id s' c hs' Es' El'. rewrite list_lookup_fmap in El'.
    apply fmap_Some in El' as ([c0 hs] & El & [= -> ->]). cbn.
    assert (hs `prefix_of` (if which c0 then hs ++ [data] else hs)) as Hpre.
    { destruct (which c0); [by apply prefix_app_r|done]. }
    destruct (decide (ss' !! id = subs h !! id)) as [Eq|(c' & Hc' & Hw' & Hse)%Hch].
    + rewrite Eq in Es'. destruct (Hs _ _ _ _ Es' El) as (H1 & H2 & H3).
      split; [by etrans|done].
    + rewrite (Hsent c' id) in Es' by done. destruct (Hr _ _ Hc') as (s & hs1 & Es & El1 & Ho).
      rewrite El in El1. injection El1 as -> ->. unfold sent in Es'. rewrite Es in Es'.
      apply try_send_Some in Es' as (Hos & Hos' & Ht & Hh & Hb). rewrite Hw', Hh, (Ho Hos).
      split; [done|]. split; [done|congruence].
Qed.

(** *** Subscribing *)

Lemma reg_push chan n l c id : reg (push_sender chan n l) c id <-> reg l c id \/ (c = chan /\ id = n).
Proof.
  induction l as [|[c0 ids] l IH]; cbn [push_sender].
  - rewrite reg_cons, list_elem_of_singleton. split; [intros [?|?%reg_nil]; [by right|done]|].
    intros [?%reg_nil|?]; [done|by left].
  - destruct (beq c0 chan) eqn:Eb; rewrite !reg_cons; [|rewrite IH; tauto].
    apply beq_true in Eb as ->. rewrite elem_of_app, list_elem_of_singleton. tauto.
Qed.

Lemma senders_push chan n l : senders (push_sender chan n l) ≡ₚ n :: senders l.
Proof.
  induction l as [|[c0 ids] l IH]; cbn [push_sender]; [done|]. unfold senders in *.
  destruct (beq c0 chan); cbn [mbind list_bind snd] in *.
  - rewrite <- app_assoc. cbn. by rewrite <- Permutation_middle.
  - rewrite IH. by rewrite <- Permutation_middle.
Qed.

Lemma hub_ok_subscribe h l chan :
  privileged chan = false -> hub_ok h l -> hub_ok (subscribe h chan) (l ++ [(chan, [connected])]).
Proof.
  intros Hpr (Hlen & Hn & Hp & Hr & Hs).
  assert (forall c id, reg (channels h) c id -> (id < length l)%nat) as Hlt.
  { intros c id (s & hs & _ & El & _)%Hr. by eapply lookup_lt_Some. }
  split; [by cbn; rewrite !length_app, Hlen|]. split.
  { cbn. rewrite senders_push. constructor; [|done]. intros (c & Hc)%sender_reg. apply Hlt in Hc. lia. }
  split; [apply Forall_app; split; [done|by repeat constructor]|]. cbn [channels subs subscribe]. split.
  - intros c id [Hc|[-> ->]]%reg_push.
    + specialize (Hlt _ _ Hc). destruct (Hr _ _ Hc) as (s & hs & Es & El & Ho). exists s, hs.
      rewrite !lookup_app_l by lia. done.
    + eexists _, _. rewrite list_lookup_middle by done. rewrite Hlen, list_lookup_middle by done. done.
  - intros id s c hs Es El. destruct (decide (id < length l)%nat) as [Hi|Hi].
    + rewrite lookup_app_l in El by lia. rewrite lookup_app_l in Es by lia. by eapply Hs.
    + assert (id = length l) as ->.
      { apply lookup_lt_Some in El. rewrite length_app in El. cbn in El. lia. }
      rewrite list_lookup_middle in El by done. rewrite <- Hlen, list_lookup_middle in Es by done.
      injection El as <- <-. injection Es as <-. cbn. split; [done|]. split; [|done].
      unfold CAPACITY. lia.
Qed.

(** *** The clients' side, and the drain *)

Lemma hub_ok_alter f id h l :
  hub_ok h l ->
  (forall s, (open s = false -> buf s = []) ->
     (open (f s) = true -> open s = true /\ heard (f s) = heard s) /\ heard (f s) `prefix_of` heard s /\
     (length (buf (f s)) <= length (buf s))%nat /\ (open (f s) = false -> buf (f s) = [])) ->
  hub_ok (mkHub (channels h) (alter f id (subs h))) l.
Proof.
  intros (Hlen & Hn & Hp & Hr & Hs) Hf.
  split; [by cbn; rewrite length_alter|]. split; [done|]. split; [done|]. cbn [channels subs]. split.
  - intros c j Hc. destruct (Hr _ _ Hc) as (s & hs & Es & El & Hh).
    destruct (decide (j = id)) as [->|Hne].
    + exists (f s), hs. rewrite list_lookup_alter_eq, Es. split; [done|]. split; [done|].
      destruct (Hs _ _ _ _ Es El) as (_ & _ & Hc0). destruct (Hf s Hc0) as (Ho & _).
      intros [Ho' ->]%Ho. by apply Hh.
    + exists s, hs. by rewrite list_lookup_alter_ne by done.
  - intros j s c hs Es El. destruct (decide (j = id)) as [->|Hne].
    + rewrite list_lookup_alter_eq in Es. apply fmap_Some in Es as (s0 & Es & ->).
      destruct (Hs _ _ _ _ Es El) as (H1 & H2 & H3), (Hf s0 H3) as (_ & Hpre & Hle & Hcl).
      split; [by etrans|]. split; [lia|done].
    + rewrite list_lookup_alter_ne in Es by done. by eapply Hs.
Qed.

Lemma hub_ok_receive h l id : hub_ok h l -> hub_ok (receive h id) l.
Proof.
  intros Hok. apply hub_ok_alter; [done|]. intros s Hcl. destruct (buf s) as [|b bs] eqn:E; cbn.
  { rewrite E. repeat split; auto; lia. }
  unfold heard. cbn. rewrite E, <- app_assoc. cbn. split; [auto|]. split; [done|].
  split; [lia|]. intros Ho. by specialize (Hcl Ho).
Qed.

Lemma hub_ok_leave h l id : hub_ok h l -> hub_ok (leave h id) l.
Proof.
  intros Hok. apply hub_ok_alter; [done|]. intros s _. unfold heard. cbn. rewrite app_nil_r.
  split; [done|]. split; [by apply prefix_app_r|]. split; [lia|done].
Qed.

Lemma hub_ok_close h l : hub_ok h l -> hub_ok (close_all h) l.
Proof.
  intros (Hlen & Hn & Hp & Hr & Hs). split; [done|]. split; [constructor|]. split; [done|]. split; [|done].
  by intros c id ?%reg_nil.
Qed.

Lemma hub_ok_step h l e : hub_ok h l -> hub_ok (on_event h e) (due l e).
Proof.
  intros Hok. destruct e as [q|c d| | |id|id]; cbn [on_event due].
  - unfold sse_response. destruct (privileged (channel_of q)) eqn:Ep; [done|]. cbn [orb].
    destruct (_ >? _); [done|]. by apply hub_ok_subscribe.
  - erewrite list_fmap_ext; [by apply (hub_ok_swept (beq c) d h l)|].
    intros i [c' hs] _. unfold owe. cbn. by destruct (beq c c').
  - erewrite list_fmap_ext; [by apply (hub_ok_swept (fun _ => true) ping_msg h l)|].
    by intros i [c' hs] _.
  - by apply hub_ok_close.
  - by apply hub_ok_receive.
  - by apply hub_ok_leave.
Qed.

Lemma hub_ok_empty : hub_ok empty_hub [].
Proof.
  split; [done|]. split; [constructor|]. split; [constructor|]. split; [by intros c id ?%reg_nil|done].
Qed.

(** C38.  A subscriber hears its channel without a gap.  Whatever happens to the hub -- other clients,
    other channels, keep-alives, clients that are slow or go, a drain -- what a client has received
    and what waits for it are, from the first, in order and each once, what was sent on its channel
    since it came; as long as the hub keeps it and it is there, they are all of it.  At most
    [CAPACITY] messages wait, and no subscriber is on a channel that needs a signature. *)
Theorem heard_without_gaps es id s :
  let h := foldl on_event empty_hub es in
  subs h !! id = Some s ->
  exists c sent,
    foldl due [] es !! id = Some (c, sent) /\ privileged c = false /\
    (taken s ++ buf s) `prefix_of` sent /\ (length (buf s) <= CAPACITY)%nat /\
    forall c', reg (channels h) c' id -> c' = c /\ (open s = true -> taken s ++ buf s = sent).
Proof.
  cbn zeta. intros Hs.
  assert (forall es h l, hub_ok h l -> hub_ok (foldl on_event h es) (foldl due l es)) as Hrun.
  { clear. induction es as [|e es IH]; intros h l Hok; [done|]. by apply IH, hub_ok_step. }
  destruct (Hrun es _ _ hub_ok_empty) as (Hlen & _ & Hp & Hr & Hh).
  destruct (lookup_lt_is_Some_2 (foldl due [] es) id) as [[c hs] El].
  { rewrite <- Hlen. by eapply lookup_lt_Some. }
  destruct (Hh _ _ _ _ Hs El) as (H1 & H2 & _). exists c, hs. split; [done|].
  split; [by apply (proj1 (Forall_lookup _ _) Hp id (c, hs))|]. split; [done|]. split; [done|].
  intros c' Hc. destruct (Hr _ _ Hc) as (s' & hs' & Es & El' & Ho). rewrite Hs in Es. rewrite El in El'.
  injection Es as <-. injection El' as <- <-. done.
Qed.

Definition demo_events : list Event :=
  [ERequest (Some (lit "channel=orders")); ERequest None; EDeliver (lit "orders") (frame (lit "1"));
   EReceive 0; EDeliver (lit "default") (frame (lit "x")); EPing; ERequest (Some (lit "channel=private-orders"));
   EDeliver (lit "orders") (frame (lit "2")); ELeave 1].

Lemma heard_without_gaps_witness :
  exists c hs,
    foldl due [] demo_events !! 0%nat = Some (c, hs) /\
    ([connected] ++ [frame (lit "1"); ping_msg; frame (lit "2")]) `prefix_of` hs.
Proof.
  destruct (heard_without_gaps demo_events 0 (mkSub [frame (lit "1"); ping_msg; frame (lit "2")] [connected] true))
    as (c & hs & Hd & _ & Hp & _).
  - vm_compute. reflexivity.
  - exists c, hs. split; [exact Hd|exact Hp].
Defined.

(** A client that reads nothing is cut off at its 128th message, and what it has is whole. *)
Example slow_client_cut_off :
  let h := foldl on_event empty_hub
             (ERequest None :: repeat (EDeliver (lit "default") (frame (lit "x"))) 128) in
  (fun s => length (buf s)) <$> subs h !! 0%nat = Some 128%nat /\ channels h = [].
Proof. vm_compute. auto. Qed.

Example privileged_channels_refused :
  (sse_response empty_hub (Some (lit "channel=private-orders"))).1 = Forbidden /\
  (sse_response empty_hub (Some (lit "a=b&channel=presence-room"))).1 = Forbidden /\
  (sse_response empty_hub (Some (lit "channel=orders"))).1 = Streaming 0.
Proof. vm_compute. auto. Qed.

(** ** Frames, as a browser reads them

    The event-stream format: lines end in LF, CR or both; a blank line dispatches what the [data]
    lines before it said; a line that starts with a colon is a comment. *)

Fixpoint stream_lines (cur : bytes) (b : bytes) : list bytes :=
  match b with
  | [] => []
  | 13 :: (10 :: b') => cur :: stream_lines [] b'
  | x :: b' => if (x =? 10) || (x =? 13) then cur :: stream_lines [] b' else stream_lines (cur ++ [x]) b'
  end.

Fixpoint dispatch (data : list bytes) (ls : list bytes) : list bytes :=
  match ls with
  | [] => []
  | [] :: ls => match data with [] => dispatch [] ls | _ => join [10] data :: dispatch [] ls end
  | l :: ls =>
      match split_once 58 l with
      | Some (name, v) =>
          if beq name (lit "data")
          then dispatch (data ++ [match v with 32 :: v' => v' | _ => v end]) ls else dispatch data ls
      | None => dispatch (if beq l (lit "data") then data ++ [[]] else data) ls
      end
  end.

Definition messages (b : bytes) : list bytes := dispatch [] (stream_lines [] b).

Lemma stream_lines_plain cur p r :
  Forall (fun x => x <> 10 /\ x <> 13) p -> stream_lines cur (p ++ 10 :: r) = (cur ++ p) :: stream_lines [] r.
Proof.
  revert cur. induction p as [|x p IH]; intros cur Hp; [by rewrite app_nil_r|].
  apply Forall_cons_iff in Hp as [[H1 H2] Hp]. cbn [app].
  transitivity (stream_lines (cur ++ [x]) (p ++ 10 :: r)).
  - cbn. destruct x as [|x|x]; [done| |done].
    repeat (destruct x as [x|x|]; try done).
  - rewrite IH by done. by rewrite <- app_assoc.
Qed.

(** A payload of one line arrives as it was broadcast. *)
Theorem frame_is_one_message p :
  Forall (fun x => x <> 10 /\ x <> 13) (from_utf8_lossy p) -> messages (frame p) = [from_utf8_lossy p].
Proof.
  intros Hp. unfold messages, frame. generalize dependent (from_utf8_lossy p). intros q Hq.
  change (q ++ [10; 10]) with (q ++ 10 :: [10]). rewrite app_assoc, stream_lines_plain; [reflexivity|].
  apply Forall_app. split; [|done]. vm_compute. repeat constructor; discriminate.
Qed.

Lemma frame_is_one_message_witness : messages (frame (lit "{id:1}")) = [lit "{id:1}"].
Proof. apply (frame_is_one_message (lit "{id:1}")). vm_compute. repeat constructor; discriminate. Defined.

(** A payload with a line break is not: what follows it is read as fields of its own, and a blank
    line ends the message.  One broadcast is two messages, or loses its second line. *)
Lemma line_break_splits_frame :
  messages (frame (lit "a" ++ [10; 10] ++ lit "data: b")) = [lit "a"; lit "b"] /\
  messages (frame (lit "a" ++ [10] ++ lit "b")) = [lit "a"].
Proof. vm_compute. auto. Qed.

(** The channel of a query is not percent-decoded: a name with a space can be published to, and a
    browser that asks for it hears nothing. *)
Lemma encoded_channel_unheard :
  channel_of (Some (lit "channel=order%20lines")) = lit "order%20lines" /\
  let h := foldl on_event empty_hub
             [ERequest (Some (lit "channel=order%20lines")); EDeliver (lit "order lines") (frame (lit "1"))] in
  buf <$> subs h !! 0%nat = Some [connected].
Proof. vm_compute. auto. Qed.
