(* ===== verification/Record.v ===== *)
(** Recording of failed requests, and their replay ([record.rs]), of the request [Cgi] builds and
    what an upload adds to it ([server/mod.rs]).

    A directory is a map from file names to a mode and a content.  What can go wrong with a write
    is an argument, and so are the clock and the process number.  [serde_json] is not part of the
    repository: what it makes of an envelope is a parameter. *)

From stdpp Require Import gmap.
From S2P Require Import Prelude Bytes Http Trust Cgi Upload.

(** ** What PHP is given *)

(** [askr_php::Request]: what [Cgi] builds, and what was uploaded. *)
Record Job := mkJob {
  built : PhpRequest; post_fields : list (bytes * bytes); files : list UploadedFile;
  warnings : list UploadWarning }.

(** [handle], the request: an upload is consumed while it streams ([parsed]). *)
Definition request_for (to_str : bytes -> option bytes) (parsed : option Parsed) (req : Request) (body : bytes)
    (ctx : Context) : Job :=
  match parsed with
  | Some p => mkJob (build_request to_str req [] ctx) (p_fields p) (p_files p) (p_warnings p)
  | None => mkJob (build_request to_str req body ctx) [] [] []
  end.

(** ** The envelope *)

Record Envelope := mkEnvelope {
  e_id : bytes; e_status : Z; e_recorded_at : Z;
  e_script_filename : bytes; e_method : bytes; e_query_string : bytes;
  e_content_type : option bytes; e_cookie : option bytes;
  e_server_vars : vars; e_body_len : Z; e_namespace : bytes }.

Definition REDACTED : bytes := lit "[redacted]".
Definition REDACT_KEYS : list bytes :=
  [lit "HTTP_COOKIE"; lit "HTTP_AUTHORIZATION"; lit "HTTP_PROXY_AUTHORIZATION"].

Definition redacts (k : bytes) : bool := existsb (fun r => eq_ignore_ascii_case k r) REDACT_KEYS.
Definition redact (vs : vars) : vars := (fun '(k, v) => if redacts k then (k, REDACTED) else (k, v)) <$> vs.

(** ** Files *)

Record File := mkFile { mode : Z; content : bytes }.
Abbreviation Dir := (gmap bytes File).

(** How an open and a write turn out. *)
Inductive Outcome := OpenFails | WriteFails (n : nat) | Writes.

Definition PRIVATE : Z := 6 * 8 ^ 2.  (* 0o600 *)
(** [create_new]: the name must not be there, not even as a link. *)
Definition write_private (io : Outcome) (name b : bytes) (d : Dir) : bool * Dir :=
  match d !! name with
  | Some _ => (false, d)
  | None =>
      match io with
      | OpenFails => (false, d)
      | WriteFails n => (false, <[name := mkFile PRIVATE (take n b)]> d)
      | Writes => (true, <[name := mkFile PRIVATE b]> d)
      end
  end.

(** [Path::extension] and [with_extension] of a file name. *)
Definition DOT : Z := 46.
Definition split_name (name : bytes) : bytes * option bytes :=
  match rposition DOT name with
  | Some (S i) => (take (S i) name, Some (drop (S (S i)) name))
  | _ => (name, None)
  end.
Definition extension (name : bytes) : option bytes := (split_name name).2.
Definition with_extension (name ext : bytes) : bytes := (split_name name).1 ++ [DOT] ++ ext.

(** ** Recording *)

(** What a process sees of the outside while it records: the outcome of [mkdir], of the two writes,
    and the clock, read twice. *)
Record Outside := mkOutside { mkdir_ok : bool; bin_io : Outcome; json_io : Outcome; now1 : Z; now2 : Z }.

Definition file_id (secs pid seq : Z) : bytes :=
  to_digits secs ++ lit "-" ++ to_digits pid ++ lit "-" ++ to_digits seq.

Section Recorder.
(** [serde_json::to_vec_pretty] and [from_slice]. *)
Context (to_json : Envelope -> option bytes) (of_json : bytes -> option Envelope).

Definition envelope (id : bytes) (at_ : Z) (j : Job) (status : Z) : Envelope :=
  let q := built j in
  mkEnvelope id status at_ (q_script_filename q) (q_method q) (q_query_string q) (q_content_type q)
    ((fun _ => REDACTED) <$> q_cookie q) (redact (q_server_vars q)) (Z.of_nat (length (q_body q)))
    (q_namespace q).

(** The directory, if it is there, and [SEQ]. *)
Definition record_failure (o : Outside) (pid : Z) (j : Job) (status : Z) (w : option Dir * Z) : option Dir * Z :=
  let '(dir, seq) := w in
  if negb (mkdir_ok o) then (dir, seq)
  else
    let d := default ∅ dir in
    let id := file_id (now1 o) pid seq in
    let seq := (seq + 1) mod 2 ^ 64 in
    match to_json (envelope id (now2 o) j status) with
    | None => (Some d, seq)
    | Some json =>
        let d := (write_private (bin_io o) (id ++ lit ".bin") (q_body (built j)) d).2 in
        let d := (write_private (json_io o) (id ++ lit ".json") json d).2 in
        (Some d, seq)
    end.

(** ** Replay *)

Inductive LoadError := Reading | Parsing.

Definition load (d : Dir) (name : bytes) : Job + LoadError :=
  match d !! name with
  | None => inr Reading
  | Some f =>
      match of_json (content f) with
      | None => inr Parsing
      | Some env =>
          let body := default [] (content <$> d !! with_extension name (lit "bin")) in
          inl (mkJob (mkPhpRequest (e_script_filename env) (e_method env) (e_query_string env)
                        (e_content_type env) (e_cookie env) body (e_server_vars env) (e_namespace env))
                 [] [] [])
      end
  end.

(** The entries of a directory, in the order [read_dir] gives them. *)
Definition list_errors (entries : list (bytes * File)) : list (bytes * Z) :=
  sort_by (fun a b => bytes_cmp b.1 a.1)
    (omap (fun '(name, f) =>
             if bool_decide (extension name = Some (lit "json"))
             then (fun env => (e_id env, e_status env)) <$> of_json (content f) else None) entries).
End Recorder.
