(* ===== verification/RecordSpec.v ===== *)
(** What a recording keeps of a request: nothing of its credentials, and enough to replay it. *)

From stdpp Require Import gmap.
From S2P Require Import Prelude Bytes Http Trust Cgi Upload Record.

(** ** Requests that differ in their credentials only *)

Definition SECRET_HEADERS : list bytes := [lit "cookie"; lit "authorization"; lit "proxy-authorization"].

Section Secrets.
Context (to_str : bytes -> option bytes).

(** Two values of a credential: both readable or neither, both empty or neither. *)
Definition alike (v1 v2 : bytes) : Prop :=
  match to_str v1, to_str v2 with
  | Some s1, Some s2 => s1 = [] <-> s2 = []
  | None, None => True
  | _, _ => False
  end.

Definition field_alike (f1 f2 : bytes * bytes) : Prop :=
  f1.1 = f2.1 /\ (f1.2 = f2.2 \/ f1.1 ∈ SECRET_HEADERS /\ alike f1.2 f2.2).

Definition same_but_secrets (r1 r2 : Request) : Prop :=
  method r1 = method r2 /\ path r1 = path r2 /\ Http.query r1 = query r2 /\ authority r1 = authority r2 /\
  Forall2 field_alike (Http.fields r1) (Http.fields r2).

Lemma get_all_alike h1 h2 name :
  Forall2 field_alike h1 h2 -> name ∉ SECRET_HEADERS -> get_all h1 name = get_all h2 name.
Proof.
  intros H Hn. induction H as [|[k1 v1] [k2 v2] h1 h2 [Hk Hv] _ IH]; [done|].
  cbn in Hk, Hv. subst k2. rewrite !get_all_cons, IH. case_bool_decide as E; [|done]. subst k1.
  by destruct Hv as [->|[? _]].
Qed.

Lemma get_all_readable h1 h2 name :
  Forall2 field_alike h1 h2 ->
  Forall2 (fun s1 s2 : bytes => s1 = [] <-> s2 = []) (omap to_str (get_all h1 name)) (omap to_str (get_all h2 name)).
Proof.
  intros H. induction H as [|[k1 v1] [k2 v2] h1 h2 [Hk Hv] _ IH]; [constructor|].
  cbn in Hk, Hv. subst k2. rewrite !get_all_cons. case_bool_decide; [|done]. cbn.
  destruct Hv as [->|[_ Ha]]; [destruct (to_str v2); [by constructor|done]|].
  unfold alike in Ha. destruct (to_str v1), (to_str v2); try done. by constructor.
Qed.

Lemma join_alike sep l1 l2 :
  sep <> [] -> Forall2 (fun s1 s2 : bytes => s1 = [] <-> s2 = []) l1 l2 -> join sep l1 = [] <-> join sep l2 = [].
Proof.
  intros Hsep H. destruct H as [|s1 s2 l1 l2 Hs H]; [done|]. destruct H as [|t1 t2 l1 l2 _ _]; [done|].
  cbn [join]. split; intros [_ [? _]%app_nil]%app_nil; done.
Qed.

(** *** The variables *)

Definition var_alike (x1 x2 : bytes * bytes) : Prop := x1.1 = x2.1 /\ (x1.2 = x2.2 \/ redacts x1.1 = true).

Lemma vars_alike_refl vs : Forall2 var_alike vs vs.
Proof. induction vs; constructor; [by split; [|left]|done]. Qed.

Lemma redact_alike vs1 vs2 : Forall2 var_alike vs1 vs2 -> redact vs1 = redact vs2.
Proof.
  intros H. unfold redact. induction H as [|[k1 v1] [k2 v2] vs1 vs2 [Hk Hv] _ IH]; [done|].
  cbn [fmap list_fmap]. cbn [fst snd] in Hk, Hv. subst k2. f_equal; [|exact IH]. by destruct Hv as [-> | ->].
Qed.

Lemma push_var_alike vs1 vs2 k sep v1 v2 :
  Forall2 var_alike vs1 vs2 -> v1 = v2 \/ redacts k = true ->
  Forall2 var_alike (push_var vs1 k sep v1) (push_var vs2 k sep v2).
Proof.
  intros H Hkv. induction H as [|[k1 x1] [k2 x2] vs1 vs2 [Hk Hx] H IH]; cbn [push_var].
  { constructor; [by split|constructor]. }
  cbn [fst snd] in Hk, Hx. subst k2. destruct (beq k1 k) eqn:E.
  - apply beq_true in E as ->. constructor; [|done]. split; [done|]. cbn [fst snd].
    destruct Hkv as [-> |]; [|by right]. destruct Hx as [-> |]; [by left|by right].
  - by constructor.
Qed.

Lemma secret_redacts k : k ∈ SECRET_HEADERS -> redacts (http_name k) = true.
Proof. intros Hk. repeat (apply elem_of_cons in Hk as [-> | Hk]; [by vm_compute|]). by apply elem_of_nil in Hk. Qed.

Lemma add_headers_alike trusted h1 h2 vs1 vs2 saw :
  Forall2 field_alike h1 h2 -> Forall2 var_alike vs1 vs2 ->
  let '(vs1', saw1) := foldl (add_header to_str trusted) (vs1, saw) h1 in
  let '(vs2', saw2) := foldl (add_header to_str trusted) (vs2, saw) h2 in
  Forall2 var_alike vs1' vs2' /\ saw1 = saw2.
Proof.
  intros H. revert vs1 vs2 saw. induction H as [|[k1 v1] [k2 v2] h1 h2 [Hk Hv] _ IH]; intros vs1 vs2 saw Hvs; [done|].
  cbn [fst snd] in Hk, Hv. subst k2. cbn [foldl add_header].
  destruct (header_policy k1 trusted) as [sep|why|]; [|by apply IH..].
  destruct Hv as [->|[Hs Ha]].
  - destruct (to_str v2); apply IH; [|done]. apply push_var_alike; auto.
  - unfold alike in Ha. destruct (to_str v1), (to_str v2); try done; apply IH; [|done].
    apply push_var_alike; [done|]. right. by apply secret_redacts.
Qed.
End Secrets.

(** *** The request handed to PHP *)

Section Hidden.
Context (to_str : bytes -> option bytes).

Lemma server_vars_alike r1 r2 body ctx :
  same_but_secrets to_str r1 r2 -> redact (server_vars to_str r1 body ctx) = redact (server_vars to_str r2 body ctx).
Proof.
  intros (Em & Ep & Eq & Ea & Hf). apply redact_alike. unfold server_vars.
  assert (forall n, n ∉ SECRET_HEADERS -> get_all (Http.fields r1) n = get_all (Http.fields r2) n) as Hg.
  { intros n. by eapply get_all_alike. }
  assert (client_ip_from to_str (Http.fields r1) (peer ctx) (ctx_trusted ctx)
          = client_ip_from to_str (Http.fields r2) (peer ctx) (ctx_trusted ctx)) as Ec.
  { unfold client_ip_from, chain. by rewrite Hg by (apply (bool_decide_unpack _); vm_compute; done). }
  assert (base_vars to_str r1 body ctx = base_vars to_str r2 body ctx) as Eb.
  { unfold base_vars, path_and_query, effective_host, hget. rewrite Em, Ep, Eq, Ea, Ec.
    by rewrite !Hg by (apply (bool_decide_unpack _); vm_compute; done). }
  rewrite Eb, Ec. pose proof (add_headers_alike to_str (peer_is_trusted (peer ctx) (ctx_trusted ctx)) _ _
    (base_vars to_str r2 body ctx) (base_vars to_str r2 body ctx) false Hf) as H.
  destruct (foldl _ _ (Http.fields r1)) as [vs1 saw1], (foldl _ _ (Http.fields r2)) as [vs2 saw2].
  destruct H as [Hvs ->]; [apply vars_alike_refl|].
  destruct saw2; [|done]. apply Forall2_app; [done|]. constructor; [by split; [|left]|constructor].
Qed.

Lemma envelope_alike r1 r2 parsed body ctx id t status :
  same_but_secrets to_str r1 r2 ->
  envelope id t (request_for to_str parsed r1 body ctx) status
  = envelope id t (request_for to_str parsed r2 body ctx) status.
Proof.
  intros H. pose proof H as (Em & _ & Eq & _ & Hf).
  assert (forall b, (fun _ => REDACTED) <$> q_cookie (build_request to_str r1 b ctx)
                    = (fun _ => REDACTED) <$> q_cookie (build_request to_str r2 b ctx)) as Eck.
  { intros b. cbn [q_cookie build_request].
    pose proof (join_alike (lit "; ") _ _ ltac:(done) (get_all_readable _ _ _ (lit "cookie") Hf)) as Hj.
    repeat case_bool_decide; [done|exfalso; tauto..|done]. }
  assert (hget (Http.fields r1) (lit "content-type") = hget (Http.fields r2) (lit "content-type")) as Ect.
  { unfold hget. by rewrite (get_all_alike to_str _ _ _ Hf) by (apply (bool_decide_unpack _); vm_compute; done). }
  destruct parsed; unfold envelope, request_for; cbn [built];
    rewrite Eck; cbn [build_request q_script_filename q_method q_query_string q_content_type q_server_vars q_body
                      q_namespace]; by rewrite (server_vars_alike _ _ _ _ H), Em, Eq, Ect.
Qed.

(** C21.  No credential is recorded.  Two requests that differ only in the values of [Cookie],
    [Authorization] and [Proxy-Authorization] leave the same directory behind -- the same names,
    modes and bytes -- whatever PHP's variables were made of, and however the writes turn out. *)
Theorem credentials_never_recorded to_json o pid parsed r1 r2 body ctx status w :
  same_but_secrets to_str r1 r2 ->
  record_failure to_json o pid (request_for to_str parsed r1 body ctx) status w
  = record_failure to_json o pid (request_for to_str parsed r2 body ctx) status w.
Proof.
  intros H. unfold record_failure. destruct w as [dir seq], (mkdir_ok o); [|done]. cbn [negb].
  rewrite (envelope_alike r1 r2) by done. by destruct parsed.
Qed.
End Hidden.

(** ** Names *)

Lemma dash_free n : 0 <= n -> 45 ∉ to_digits n.
Proof. intros Hn. by apply to_digits_free. Qed.

Lemma file_id_join s p q : file_id s p q = join [45] [to_digits s; to_digits p; to_digits q].
Proof. reflexivity. Qed.

Lemma to_digits_inj n m : 0 <= n <= u64_max -> 0 <= m <= u64_max -> to_digits n = to_digits m -> n = m.
Proof. intros Hn Hm E. pose proof (parse_to_digits n Hn) as H. rewrite E, parse_to_digits in H by done. congruence. Qed.

(** Two failures of one process never share an id. *)
Lemma file_id_seq_inj s p q s' q' :
  0 <= s -> 0 <= s' -> 0 <= p -> 0 <= q <= u64_max -> 0 <= q' <= u64_max -> file_id s p q = file_id s' p q' -> q = q'.
Proof.
  intros Hs Hs' Hp Hq Hq' E. rewrite !file_id_join in E. apply (f_equal (split_on 45)) in E.
  rewrite !split_on_join in E by (done || (repeat constructor; apply dash_free; lia)).
  apply to_digits_inj; [done..|]. congruence.
Qed.

Lemma file_id_cons s p q : exists c r, file_id s p q = c :: r.
Proof. destruct (to_digits_head s) as (c & r & E & _). unfold file_id. rewrite E. by eexists _, _. Qed.

Lemma json_name id : id <> [] -> with_extension (id ++ lit ".json") (lit "bin") = id ++ lit ".bin".
Proof.
  intros Hid. unfold with_extension, split_name. change (lit ".json") with (DOT :: lit "json").
  rewrite rposition_last by (apply (bool_decide_unpack _); vm_compute; done).
  destruct id as [|c id]; [done|]. cbn [length]. change (S (length id)) with (length (c :: id)).
  by rewrite take_app_length.
Qed.

Lemma names_apart id id' : id ++ lit ".bin" <> id' ++ lit ".json".
Proof. intros E. apply (f_equal reverse) in E. rewrite !reverse_app in E. by vm_compute in E. Qed.

(** ** Files that are there stay *)

Lemma write_private_keeps io name b d : d ⊆ (write_private io name b d).2.
Proof.
  unfold write_private. destruct (d !! name) eqn:E; [done|].
  destruct io; [done|by apply insert_subseteq..].
Qed.

Lemma record_failure_keeps to_json o pid j status dir seq d :
  dir = Some d -> exists d', (record_failure to_json o pid j status (dir, seq)).1 = Some d' /\ d ⊆ d'.
Proof.
  intros ->. unfold record_failure. destruct (mkdir_ok o); cbn [negb default]; [|by eauto].
  destruct (to_json _); [|by eauto]. eexists. split; [reflexivity|].
  etrans; [apply (write_private_keeps (bin_io o))|apply write_private_keeps].
Qed.

(** ** Replays *)

(** What a replay runs: the request without its credentials and its upload. *)
Definition replayed (j : Job) : Job :=
  let q := built j in
  mkJob (mkPhpRequest (q_script_filename q) (q_method q) (q_query_string q) (q_content_type q)
           ((fun _ => REDACTED) <$> q_cookie q) (q_body q) (redact (q_server_vars q)) (q_namespace q)) [] [] [].

Abbreviation Failure := (Outside * Job * Z)%type.

Section Replay.
Context (to_json : Envelope -> option bytes) (of_json : bytes -> option Envelope).
(** An envelope is texts and numbers: it can be serialised, and reads back. *)
Hypothesis json_law : forall e, exists b, to_json e = Some b /\ of_json b = Some e.

(** The failures of one process, one after the other. *)
Definition record_all (pid : Z) (fs : list Failure) (w : option Dir * Z) : option Dir * Z :=
  foldl (fun w '(o, j, status) => record_failure to_json o pid j status w) w fs.

(** The files of a failure could be written; the clock of any is one. *)
Definition smooth (f : Failure) : Prop := let o := f.1.1 in mkdir_ok o = true /\ bin_io o = Writes /\ json_io o = Writes.
Definition clocked (f : Failure) : Prop := 0 <= now1 f.1.1 <= u64_max.
(** How many numbers failures take: none when the directory cannot be made. *)
Definition numbers (fs : list Failure) : Z := Z.of_nat (length (filter (fun f => mkdir_ok f.1.1 = true) fs)).

(** No file has a name this process is yet to use. *)
Definition fresh (pid seq : Z) (d : Dir) : Prop :=
  forall s q, 0 <= s -> seq <= q <= u64_max ->
    d !! (file_id s pid q ++ lit ".bin") = None /\ d !! (file_id s pid q ++ lit ".json") = None.

Lemma record_all_keeps pid fs seq d :
  exists d', (record_all pid fs (Some d, seq)).1 = Some d' /\ d ⊆ d'.
Proof.
  revert seq d. induction fs as [|[[o j] status] fs IH]; intros seq d; [by exists d|].
  cbn [record_all foldl]. destruct (record_failure_keeps to_json o pid j status (Some d) seq d eq_refl) as (d1 & E1 & H1).
  destruct (record_failure _ _ _ _ _ _) as [dir1 seq1]. cbn in E1. subst dir1.
  destruct (IH seq1 d1) as (d2 & E2 & H2). exists d2. split; [exact E2|by etrans].
Qed.

(** One failure: its two files, and the next number. *)
Lemma record_failure_writes o j status pid d seq :
  smooth (o, j, status) -> 0 <= now1 o -> fresh pid seq d -> 0 <= pid -> 0 <= seq <= u64_max ->
  let id := file_id (now1 o) pid seq in
  exists json,
    of_json json = Some (envelope id (now2 o) j status) /\
    record_failure to_json o pid j status (Some d, seq)
    = (Some (<[id ++ lit ".json" := mkFile PRIVATE json]> (<[id ++ lit ".bin" := mkFile PRIVATE (q_body (built j))]> d)),
       (seq + 1) mod 2 ^ 64).
Proof.
  intros (Hm & Hb & Hj) Ht Hf Hp Hs id. cbn [fst snd] in *.
  destruct (json_law (envelope id (now2 o) j status)) as (json & E1 & E2). exists json. split; [done|].
  destruct (Hf (now1 o) seq ltac:(lia) ltac:(lia)) as [H1 H2]. fold id in H1, H2.
  unfold record_failure. rewrite Hm. cbn [negb]. change (default ∅ (Some d)) with d. fold id. rewrite E1.
  unfold write_private. rewrite Hb, Hj, H1. cbn [snd]. rewrite lookup_insert_ne by apply names_apart. by rewrite H2.
Qed.

(** Whatever goes wrong, a failure touches no name but its own two. *)
Lemma record_failure_others o j status pid d seq :
  mkdir_ok o = true -> 0 <= seq < u64_max ->
  let id := file_id (now1 o) pid seq in
  exists d', record_failure to_json o pid j status (Some d, seq) = (Some d', seq + 1) /\
    forall n, n <> id ++ lit ".bin" -> n <> id ++ lit ".json" -> d' !! n = d !! n.
Proof.
  intros Hm Hs id. assert (forall io b (n name : bytes) (x : Dir), n <> name -> (write_private io name b x).2 !! n = x !! n) as Hw.
  { intros io b n name x Hn. unfold write_private. by destruct (x !! name), io; cbn [snd]; rewrite ?lookup_insert_ne by congruence. }
  unfold record_failure. rewrite Hm. cbn [negb]. change (default ∅ (Some d)) with d. fold id.
  rewrite Z.mod_small by (change (2 ^ 64) with (u64_max + 1); lia).
  destruct (to_json _) as [json|]; eexists; (split; [reflexivity|]); [|done]. intros n H1 H2. by rewrite !Hw.
Qed.

Lemma fresh_next o pid seq d d' :
  0 <= now1 o -> 0 <= pid -> 0 <= seq -> seq + 1 <= u64_max -> fresh pid seq d ->
  (forall n, n <> file_id (now1 o) pid seq ++ lit ".bin" -> n <> file_id (now1 o) pid seq ++ lit ".json" -> d' !! n = d !! n) ->
  fresh pid (seq + 1) d'.
Proof.
  intros Ht Hp Hs Hle Hf Hd s q Hs' Hq. destruct (Hf s q Hs' ltac:(lia)) as [H1 H2].
  assert (file_id (now1 o) pid seq <> file_id s pid q) as Hne.
  { intros E. apply file_id_seq_inj in E; lia. }
  split; (rewrite Hd; [done| |]); intros E; try (apply app_inv_tail in E; congruence);
    by (apply names_apart in E || apply eq_sym, names_apart in E).
Qed.

Lemma load_written (id json : bytes) (o : Outside) (j : Job) (status : Z) (d : Dir) (m1 m2 : Z) :
  id <> [] -> of_json json = Some (envelope id (now2 o) j status) ->
  d !! (id ++ lit ".json") = Some (mkFile m1 json) ->
  d !! (id ++ lit ".bin") = Some (mkFile m2 (q_body (built j))) -> load of_json d (id ++ lit ".json") = inl (replayed j).
Proof. intros Hid E1 E2 E3. unfold load. rewrite E2. cbn [content]. by rewrite E1, json_name, E3 by done. Qed.

(** C39.  A failure whose two files could be written can be replayed.  Of the failures of one process, one
    after the other and in a directory that may hold anything but the names it is to use, whatever
    goes wrong around the others, such a one is loaded from the file named after it as the request
    PHP was given -- script, method, query, body, variables -- but for its credentials, which read
    [REDACTED], and its upload, which is gone. *)
Theorem failures_replayable pid fs d seq i o j status :
  0 <= pid -> 0 <= seq -> seq + Z.of_nat (length fs) <= u64_max -> Forall clocked fs -> fresh pid seq d ->
  fs !! i = Some (o, j, status) -> smooth (o, j, status) ->
  exists d', (record_all pid fs (Some d, seq)).1 = Some d' /\
    load of_json d' (file_id (now1 o) pid (seq + numbers (take i fs)) ++ lit ".json") = inl (replayed j).
Proof.
  intros Hp Hs Hlen Hcl. revert seq d i Hs Hlen. induction Hcl as [|[[o1 j1] st1] fs H1 _ IH]; intros seq d i Hs Hlen Hf Hi Hsm; [done|].
  cbn [length] in Hlen. destruct H1 as [H1 _]. cbn [fst] in H1. destruct i as [|i].
  - injection Hi as -> -> ->. unfold numbers. cbn [take filter length]. rewrite Z.add_0_r.
    destruct (record_failure_writes _ _ _ _ _ _ Hsm H1 Hf Hp ltac:(lia)) as (json & Ej & Er). cbn [record_all foldl]. rewrite Er.
    rewrite Z.mod_small by (change (2 ^ 64) with (u64_max + 1); lia).
    edestruct (record_all_keeps pid fs) as (d' & E' & Hsub). exists d'. split; [exact E'|].
    destruct (file_id_cons (now1 o) pid seq) as (c & r & Eid).
    eapply (load_written _ _ o j status); [by rewrite Eid|exact Ej|..].
    + eapply lookup_weaken; [|exact Hsub]. by rewrite lookup_insert_eq.
    + eapply lookup_weaken; [|exact Hsub]. rewrite lookup_insert_ne by (intros E; by apply eq_sym, names_apart in E).
      by rewrite lookup_insert_eq.
  - cbn [take record_all foldl]. unfold numbers. destruct (mkdir_ok o1) eqn:Em.
    + destruct (record_failure_others o1 j1 st1 pid d seq Em ltac:(lia)) as (d1 & Er & Hd). rewrite Er.
      rewrite filter_cons_True by done. cbn [length]. rewrite Nat2Z.inj_succ.
      replace (seq + Z.succ _) with (seq + 1 + numbers (take i fs)) by (unfold numbers; lia).
      apply IH; [lia|lia| |exact Hi|exact Hsm]. eapply fresh_next; [exact H1|lia..|exact Hf|exact Hd].
    + assert (record_failure to_json o1 pid j1 st1 (Some d, seq) = (Some d, seq)) as -> by (unfold record_failure; by rewrite Em).
      rewrite filter_cons_False by (cbn; by rewrite Em). apply IH; done || lia.
Qed.
End Replay.

(** ** An encoding, in place of JSON *)

Definition envelope_parts (e : Envelope) :=
  (e_id e, e_status e, e_recorded_at e, (e_script_filename e, e_method e, e_query_string e), (e_content_type e, e_cookie e),
   (e_server_vars e, e_body_len e, e_namespace e)).
Definition envelope_of (t : bytes * Z * Z * (bytes * bytes * bytes) * (option bytes * option bytes) * (vars * Z * bytes)) :
    Envelope :=
  let '(i, s, t, (f, m, q), (c, k), (v, l, n)) := t in mkEnvelope i s t f m q c k v l n.
Definition encode_json (e : Envelope) : option bytes := Some [Z.pos (encode (envelope_parts e))].
Definition decode_json (b : bytes) : option Envelope :=
  match b with [Z.pos p] => envelope_of <$> decode p | _ => None end.

Lemma encode_json_law e : exists b, encode_json e = Some b /\ decode_json b = Some e.
Proof. eexists. split; [reflexivity|]. cbn [decode_json]. rewrite decode_encode. by destruct e. Qed.

Definition calm : Outside := mkOutside true Writes Writes 100 100.
Definition demo_ctx : Context :=
  mkContext (lit "/srv") (lit "/srv/index.php") (lit "/index.php") (V4 [192; 0; 2; 1]) 5000 true 443 []
    (lit "HTTP/1.1") 100 (lit "app").
Definition login (cookie token : bytes) : Request :=
  mkRequest (lit "POST") (lit "/login") None None
    [(lit "host", lit "a.example"); (lit "cookie", cookie); (lit "authorization", token); (lit "accept", lit "*/*")].
Definition demo_job : Job := request_for Some None (login (lit "session=abc") (lit "Bearer x")) (lit "a=1") demo_ctx.

Lemma credentials_never_recorded_witness :
  record_failure encode_json calm 7 (request_for Some None (login (lit "session=abc") (lit "Bearer x")) (lit "a=1") demo_ctx)
    500 (None, 0)
  = record_failure encode_json calm 7 (request_for Some None (login (lit "s=1") (lit "Basic eDp5")) (lit "a=1") demo_ctx)
    500 (None, 0).
Proof.
  apply (credentials_never_recorded Some). do 4 (split; [reflexivity|]).
  assert (forall k v1 v2, k ∈ SECRET_HEADERS -> v1 <> [] -> v2 <> [] -> field_alike Some (k, v1) (k, v2)) as H.
  { intros k v1 v2 Hk H1 H2. split; [done|right]. split; [done|]. by split. }
  constructor; [by split; [|left]|]. constructor; [by apply H; [left|..]|].
  constructor; [by apply H; [right; left|..]|]. by repeat (constructor; [by split; [|left]|]).
Defined.

(** The marker is there, and nothing else of a credential. *)
Example demo_redacted :
  let q := built (replayed demo_job) in
  q_cookie q = Some REDACTED /\ (lit "HTTP_AUTHORIZATION", REDACTED) ∈ q_server_vars q /\
  (lit "HTTP_ACCEPT", lit "*/*") ∈ q_server_vars q /\ q_body q = lit "a=1".
Proof. vm_compute. repeat split; apply list_elem_of_In; cbn; tauto. Qed.

(** The disk is full for the first, the directory cannot be made for the second. *)
Definition full_disk : Outside := mkOutside true (WriteFails 1) OpenFails 100 100.
Definition no_dir : Outside := mkOutside false Writes Writes 100 100.

Lemma failures_replayable_witness :
  exists d', (record_all encode_json 7 [(full_disk, demo_job, 500); (no_dir, demo_job, 500); (calm, demo_job, 502)] (Some ∅, 0)).1 = Some d' /\
    load decode_json d' (file_id 100 7 1 ++ lit ".json") = inl (replayed demo_job).
Proof.
  apply (failures_replayable encode_json decode_json encode_json_law 7
           [(full_disk, demo_job, 500); (no_dir, demo_job, 500); (calm, demo_job, 502)] ∅ 0 2 calm demo_job 502).
  - lia.
  - lia.
  - apply Z.leb_le. vm_compute. reflexivity.
  - repeat constructor; apply Z.leb_le; vm_compute; reflexivity.
  - intros s q _ _. split; apply lookup_empty.
  - reflexivity.
  - by repeat split.
Defined.

(** ** What a replay is not *)

(** Of an upload nothing is recorded but its headers: whatever its fields and files, the files left
    behind are the same, and the replay is a form without fields. *)
Lemma uploads_recorded_alike to_str to_json o pid p1 p2 req b1 b2 ctx status w :
  record_failure to_json o pid (request_for to_str (Some p1) req b1 ctx) status w
  = record_failure to_json o pid (request_for to_str (Some p2) req b2 ctx) status w /\
  q_body (built (replayed (request_for to_str (Some p1) req b1 ctx))) = [].
Proof. done. Qed.

Section Limits.
Context (to_json : Envelope -> option bytes) (of_json : bytes -> option Envelope).
Hypothesis json_law : forall e, exists b, to_json e = Some b /\ of_json b = Some e.

(** A body that could not be written is replayed as an empty one, though the envelope says how long
    it was. *)
Lemma lost_body_replays_empty pid j status seq :
  let o := mkOutside true OpenFails Writes 100 100 in
  exists d j',
    (record_failure to_json o pid j status (None, seq)).1 = Some d /\
    load of_json d (file_id 100 pid seq ++ lit ".json") = inl j' /\ q_body (built j') = [].
Proof.
  cbn zeta. unfold record_failure. cbn [negb mkdir_ok now1 now2 bin_io json_io]. change (default ∅ None) with (∅ : Dir).
  destruct (json_law (envelope (file_id 100 pid seq) 100 j status)) as (b & -> & Eb).
  eexists _, _. split; [reflexivity|]. unfold load, write_private. rewrite !lookup_empty. cbn [snd].
  rewrite lookup_empty. cbn [snd]. rewrite lookup_insert_eq. cbn [content]. rewrite Eb.
  split; [reflexivity|]. cbn [built q_body]. destruct (file_id_cons 100 pid seq) as (c & r & Eid).
  rewrite json_name by (by rewrite Eid). rewrite lookup_insert_ne by (intros E; by apply eq_sym, names_apart in E).
  by rewrite lookup_empty.
Qed.

(** Ids are ordered as text: within a second, a process's tenth failure is listed after its ninth. *)
Lemma newest_not_first j status b9 b10 :
  to_json (envelope (file_id 100 7 9) 100 j status) = Some b9 ->
  to_json (envelope (file_id 100 7 10) 100 j status) = Some b10 ->
  list_errors of_json [(file_id 100 7 10 ++ lit ".json", mkFile PRIVATE b10);
                       (file_id 100 7 9 ++ lit ".json", mkFile PRIVATE b9)]
  = [(file_id 100 7 9, status); (file_id 100 7 10, status)].
Proof.
  intros E9 E10. destruct (json_law (envelope (file_id 100 7 9) 100 j status)) as (b & E & L9).
  rewrite E9 in E. injection E as <-. destruct (json_law (envelope (file_id 100 7 10) 100 j status)) as (b & E & L10).
  rewrite E10 in E. injection E as <-. unfold list_errors. cbn [omap list_omap content].
  rewrite !bool_decide_true by (by vm_compute). by rewrite L9, L10.
Qed.
End Limits.
