(* ===== verification/QueueWatch.v ===== *)
(** Which queues are in trouble, and why ([queue.rs], with the watchdog of [supervisor.rs]): the
    classification behind the log line, the admin plane's warnings and the Prometheus series,
    over the reports of [SQueue].  The SQL back end's reports are not modelled. *)

From S2P Require Import Prelude Bytes Ns SQueue SQueueSpec.

Definition DEFAULT_STALL_SECS : Z := 30.
(** [set_stall_secs]: the new threshold, of the old one. *)
Definition set_stall_secs (secs stall : Z) : Z := if 0 <? secs then secs else stall.
Definition POLL_STALE_SECS : Z := 60.

Inductive LaneFault :=
| Unattended
| WrongApplication (polled_by : list App)
| NotDraining.

Definition fault_kind (f : LaneFault) : bytes :=
  match f with
  | Unattended => lit "queue_unattended"
  | WrongApplication _ => lit "queue_wrong_application"
  | NotDraining => lit "queue_not_draining"
  end.

Record LaneWarning := mkWarning {
  w_queue : bytes; w_app : option App; w_fault : LaneFault; w_pending : Z; w_oldest_pending_secs : Z;
  w_last_polled_secs : option Z; w_last_drained_secs : option Z }.

Definition age_secs (now_ms stamp_ms : Z) : option Z :=
  if stamp_ms =? 0 then None else Some (sat_sub64 now_ms stamp_ms / 1000).

(** [matches!(age_secs(..), Some(s) if s <= POLL_STALE_SECS)]. *)
Definition recent (age : option Z) : bool := match age with Some s => s <=? POLL_STALE_SECS | None => false end.

Section Watch.
Context (stall_secs : Z).

(** One occupied queue. *)
Definition warning_for (now_ms : Z) (lanes : list LaneStats) (x : queue_key * Counts) : option LaneWarning :=
  let '((app, name), c) := x in
  if (pending c =? 0) || (oldest_pending_created_ms c =? 0) then None
  else
    let oldest := sat_sub64 now_ms (oldest_pending_created_ms c) / 1000 in
    if oldest <? stall_secs then None
    else
      let lane := head (filter (fun l => ls_name l = name /\ ls_app l = app) lanes) in
      let last_polled_secs := l ← lane; age_secs now_ms (ls_polled l) in
      let last_drained_secs := l ← lane; age_secs now_ms (ls_drained l) in
      let unattended := negb (recent last_polled_secs) in
      let others :=
        if unattended
        then omap ls_app (filter (fun l => recent (age_secs now_ms (ls_polled l)) = true)
                            (filter (fun l => ls_name l = name /\ ls_app l <> app) lanes))
        else [] in
      let fault :=
        if negb (bool_decide (others = [])) then WrongApplication others
        else if unattended then Unattended else NotDraining in
      Some (mkWarning name app fault (pending c) oldest last_polled_secs last_drained_secs).

Definition warning_cmp (a b : LaneWarning) : comparison :=
  then_with (w_pending b ?= w_pending a) (bytes_cmp (w_queue a) (w_queue b)).

Definition warnings_from (now_ms : Z) (occupied : list (queue_key * Counts)) (lanes : list LaneStats) :
    list LaneWarning :=
  sort_by warning_cmp (omap (warning_for now_ms lanes) occupied).

Definition warnings (now_ms : Z) (q : option ring) : list LaneWarning :=
  warnings_from now_ms (by_queue_with_app q now_ms) (lane_stats q).

(** ** The watchdog

    Times are milliseconds of a clock that does not step back; [warned_stale] maps a queue to when
    it was last logged. *)
Record Watchdog := mkWatchdog { last_stale_check : Z; warned_stale : list (bytes * Z) }.

Fixpoint when_warned (m : list (bytes * Z)) (queue : bytes) : option Z :=
  match m with
  | [] => None
  | (k, t) :: m => if beq k queue then Some t else when_warned m queue
  end.

(** One warning: is it logged, and the map after it. *)
Definition watch_one (t : Z) (acc : list (bytes * Z) * list LaneWarning) (w : LaneWarning) :
    list (bytes * Z) * list LaneWarning :=
  let '(m, logged) := acc in
  let due := match when_warned m (w_queue w) with Some t0 => 60 * 1000 <=? t - t0 | None => true end in
  if due then ((w_queue w, t) :: filter (fun x => x.1 <> w_queue w) m, logged ++ [w]) else (m, logged).

(** One turn of the main loop, at the instant [t]: what is logged. *)
Definition watch_turn (shutdown : bool) (t now_ms : Z) (q : option ring) (st : Watchdog) : Watchdog * list LaneWarning :=
  if negb shutdown && (10 * 1000 <=? t - last_stale_check st) then
    let ws := warnings now_ms q in
    let '(m, logged) := foldl (watch_one t) (warned_stale st, []) ws in
    (mkWatchdog t (filter (fun x => x.1 ∈ w_queue <$> ws) m), logged)
  else (st, []).
End Watch.

(** * What it promises

    The watchdog is exact: a queue is flagged when, and only when, it has a ready job of the
    age that counts as stalled, and the fault it is given is the one its lanes show. *)

(** ** The report per queue, as a map *)

Fixpoint get (m : list (queue_key * Counts)) (k : queue_key) : option Counts :=
  match m with
  | [] => None
  | (k', c) :: m => if bool_decide (k' = k) then Some c else get m k
  end.

Lemma get_upd m k f k' :
  get (upd_counts m k f) k' = if decide (k = k') then Some (f (default no_counts (get m k))) else get m k'.
Proof.
  induction m as [|[k0 c] m IH]; cbn [upd_counts get].
  - case_bool_decide as Hk; [by rewrite decide_True|by rewrite decide_False].
  - destruct (decide (k0 = k)) as [->|Hk].
    + rewrite !bool_decide_true by done. cbn [get]. case_bool_decide as Hk'; [by rewrite decide_True|].
      by rewrite decide_False.
    + rewrite !(bool_decide_false (k0 = k)) by done. cbn [get]. rewrite IH.
      case_bool_decide as Hk'; [|done]. subst k'. by rewrite decide_False.
Qed.

Lemma upd_keys m k f : (upd_counts m k f).*1 = if decide (k ∈ m.*1) then m.*1 else m.*1 ++ [k].
Proof.
  induction m as [|[k0 c] m IH]; [done|]. cbn [upd_counts fmap list_fmap fst]. case_bool_decide as Hk.
  - subst k0. rewrite decide_True by left. done.
  - cbn [fmap list_fmap fst]. rewrite IH.
    destruct (decide (k ∈ m.*1)); [by rewrite decide_True by (by right)|].
    rewrite decide_False; [done|]. by intros [?|?]%elem_of_cons.
Qed.

Lemma get_elem m k c : NoDup m.*1 -> (k, c) ∈ m <-> get m k = Some c.
Proof.
  induction m as [|[k0 c0] m IH]; [by split; [intros ?%not_elem_of_nil|]|].
  intros [Hk Hn]%NoDup_cons. cbn [get]. rewrite elem_of_cons. case_bool_decide as E.
  - subst k0. split; [|intros [= ->]; by left]. intros [[= ->]|Hin]; [done|].
    exfalso. apply Hk. by apply (list_elem_of_fmap_2 fst m (k, c)).
  - rewrite <- IH by done. split; [intros [[= -> _]|]; done|by right].
Qed.

(** What [by_queue_with_app] has folded over the jobs [js]. *)
Definition report (now : Z) (js : list job) : list (queue_key * Counts) :=
  foldl (fun m j => upd_counts m (job_key j) (fun c => bucket c j now)) [] js.

Definition of_key (k : queue_key) (js : list job) : list job := filter (fun j => job_key j = k) js.

Lemma report_snoc now js j :
  report now (js ++ [j]) = upd_counts (report now js) (job_key j) (fun c => bucket c j now).
Proof. unfold report. by rewrite foldl_app. Qed.

Lemma report_keys now js : NoDup (report now js).*1.
Proof.
  induction js as [|j js IH] using rev_ind; [constructor|]. rewrite report_snoc, upd_keys.
  destruct (decide _) as [|Hk]; [done|]. apply NoDup_app. split; [done|]. split; [|apply NoDup_singleton].
  by intros k Hin ->%list_elem_of_singleton.
Qed.

Lemma report_get now js k :
  get (report now js) k
  = if decide (of_key k js = []) then None else Some (foldl (fun c j => bucket c j now) no_counts (of_key k js)).
Proof.
  induction js as [|j js IH] using rev_ind; [done|]. rewrite report_snoc, get_upd. unfold of_key in *.
  rewrite filter_app. destruct (decide (job_key j = k)) as [<-|Hk].
  - rewrite (filter_cons_True _ j []) by done. rewrite decide_False by (intros [_ ?]%app_nil; done).
    rewrite foldl_app, IH. cbn [foldl filter list_filter]. f_equal. f_equal. by destruct (decide _) as [->|].
  - rewrite filter_cons_False by done. by rewrite app_nil_r.
Qed.

(** ** The counts of a queue *)

Lemma bucket_oldest c j now :
  0 <= now -> 0 < created_at j -> 0 <= oldest_pending_created_ms c ->
  let o := oldest_pending_created_ms c in
  oldest_pending_created_ms (bucket c j now)
  = if ready j now then (if (o =? 0) || (created_at j <? o) then created_at j else o) else o.
Proof.
  intros Hn Hc Ho. unfold bucket, ready.
  destruct (Z.ltb_spec now (reserved_until j)), (Z.ltb_spec now (available_at j)); cbn [oldest_pending_created_ms];
    destruct (Z.leb_spec (available_at j) now); try lia;
    destruct (Z.eqb_spec (reserved_until j) 0), (Z.leb_spec (reserved_until j) now); cbn [andb orb]; lia.
Qed.

(** The oldest stamp is that of a ready job, and of the oldest; there is none when it is 0. *)
Definition oldest_of (now : Z) (js : list job) (o : Z) : Prop :=
  (forall j, j ∈ js -> ready j now = true -> 0 < o <= created_at j) /\
  (0 <= o) /\ (0 < o -> exists j, j ∈ js /\ ready j now = true /\ created_at j = o).

Lemma oldest_loop now js :
  0 <= now -> Forall (fun j => 0 < created_at j) js ->
  oldest_of now js (oldest_pending_created_ms (foldl (fun c j => bucket c j now) no_counts js)).
Proof.
  intros Hn. induction js as [|j js IH] using rev_ind; intros Hc.
  { split; [by intros j ?%not_elem_of_nil|]. by split. }
  apply Forall_app in Hc as [Hc Hj]. apply Forall_inv in Hj. destruct (IH Hc) as (H1 & H2 & H3).
  rewrite foldl_app. cbn [foldl]. set (c := foldl _ _ _) in *.
  assert (forall j', j' ∈ js ++ [j] <-> j' ∈ js \/ j' = j) as Hin.
  { intros j'. by rewrite elem_of_app, list_elem_of_singleton. }
  pose proof (bucket_oldest c j now Hn Hj H2) as E. cbv zeta in E. set (o' := oldest_pending_created_ms _) in E |- *.
  destruct (ready j now) eqn:Er.
  - destruct (Z.eqb_spec (oldest_pending_created_ms c) 0) as [Ez|Ez], (Z.ltb_spec (created_at j) (oldest_pending_created_ms c));
      cbn [orb] in E; rewrite E; (split; [|split; [lia|]]).
    all: try (intros j' [Hj'| ->]%Hin Hr; [specialize (H1 j' Hj' Hr); lia|lia]).
    all: try (intros _; exists j; split; [apply Hin; by right|done]).
    intros Ho. destruct (H3 Ho) as (j' & ? & ?). exists j'. split; [apply Hin; by left|done].
  - rewrite E. split; [|split; [done|]].
    + intros j' [Hj'| ->]%Hin Hr; [by apply H1|congruence].
    + intros Ho. destruct (H3 Ho) as (j' & ? & ?). exists j'. split; [apply Hin; by left|done].
Qed.

(** ** Lanes *)

(** A worker of the application asked the queue for work within the last minute. *)
Definition polled (now : Z) (ls : list LaneStats) (a : option App) (q : bytes) : Prop :=
  exists l, l ∈ ls /\ ls_app l = a /\ ls_name l = q /\ ls_polled l <> 0 /\ now - ls_polled l < (POLL_STALE_SECS + 1) * 1000.

(** The fault that a queue's lanes show. *)
Definition fault_fits (now : Z) (ls : list LaneStats) (a : option App) (q : bytes) (f : LaneFault) : Prop :=
  match f with
  | NotDraining => polled now ls a q
  | WrongApplication os =>
      ~ polled now ls a q /\ os <> [] /\ forall a', a' ∈ os <-> Some a' <> a /\ polled now ls (Some a') q
  | Unattended => ~ polled now ls a q /\ forall a', Some a' <> a -> ~ polled now ls (Some a') q
  end.

Definition lane_id (l : LaneStats) : queue_key := (ls_app l, ls_name l).

Lemma recent_spec now p : recent (age_secs now p) = true <-> p <> 0 /\ now - p < (POLL_STALE_SECS + 1) * 1000.
Proof.
  unfold age_secs, recent, POLL_STALE_SECS. destruct (Z.eqb_spec p 0) as [->|Hp]; [split; [done|by intros []]|].
  rewrite Z.leb_le. unfold sat_sub64. split.
  - intros H. split; [done|]. apply Z.lt_succ_r in H. pose proof (Z.div_mod (Z.max (now - p) 0) 1000).
    pose proof (Z.mod_pos_bound (Z.max (now - p) 0) 1000). lia.
  - intros [_ H]. apply Z.lt_succ_r, Z.div_lt_upper_bound; lia.
Qed.

Lemma first_lane now ls a q :
  NoDup (lane_id <$> ls) ->
  recent (l ← head (filter (fun l => ls_name l = q /\ ls_app l = a) ls); age_secs now (ls_polled l)) = true
  <-> polled now ls a q.
Proof.
  intros Hn. unfold polled. split.
  - destruct (filter _ ls) as [|l k] eqn:E; [done|]. cbn [head mbind option_bind].
    intros [Hp Hr]%recent_spec. exists l.
    assert (l ∈ filter (fun l => ls_name l = q /\ ls_app l = a) ls) as Hl by (rewrite E; by left).
    apply list_elem_of_filter in Hl as [[? ?] ?]. done.
  - intros (l & Hl & Ha & Hq & Hp & Hr).
    assert (l ∈ filter (fun l => ls_name l = q /\ ls_app l = a) ls) as Hin by by apply list_elem_of_filter.
    destruct (filter _ ls) as [|l' k] eqn:E; [by apply not_elem_of_nil in Hin|].
    assert (l' ∈ filter (fun l => ls_name l = q /\ ls_app l = a) ls) as Hin' by (rewrite E; by left).
    apply list_elem_of_filter in Hin' as [[Hq' Ha'] Hl']. cbn [head mbind option_bind].
    assert (l' = l) as -> by (apply (NoDup_fmap_inj_on lane_id ls); unfold lane_id; congruence || done).
    by apply recent_spec.
Qed.

Lemma fault_exact now ls a q others :
  NoDup (lane_id <$> ls) ->
  let unattended := negb (recent (l ← head (filter (fun l => ls_name l = q /\ ls_app l = a) ls); age_secs now (ls_polled l))) in
  others = (if unattended
            then omap ls_app (filter (fun l => recent (age_secs now (ls_polled l)) = true)
                                (filter (fun l => ls_name l = q /\ ls_app l <> a) ls))
            else []) ->
  fault_fits now ls a q
    (if negb (bool_decide (others = [])) then WrongApplication others
     else if unattended then Unattended else NotDraining).
Proof.
  intros Hn un Eo. pose proof (first_lane now ls a q Hn) as Hrec. fold un in Hrec.
  destruct (recent _) eqn:Er in Hrec; unfold un in Eo |- *; rewrite Er in Eo |- *; cbn [negb] in *.
  - subst others. rewrite bool_decide_true by done. cbn. by apply Hrec.
  - assert (~ polled now ls a q) as Hno by (intros H; by apply Hrec in H).
    assert (forall a', a' ∈ others <-> Some a' <> a /\ polled now ls (Some a') q) as Hos.
    { intros a'. rewrite Eo, list_elem_of_omap. split.
      - intros (l & [Hr%recent_spec [[Hq Ha] Hl]%list_elem_of_filter]%list_elem_of_filter & Eq).
        rewrite Eq in Ha. split; [done|]. exists l. destruct Hr. done.
      - intros [Ha (l & Hl & Ea & Eq & Hp & Hr)]. exists l. split; [|done].
        apply list_elem_of_filter. split; [by apply recent_spec|]. apply list_elem_of_filter. by rewrite Ea. }
    case_bool_decide as Hb; cbn; [|done]. split; [done|]. intros a' Ha Hp.
    assert (a' ∈ others) as Hin by by apply Hos. rewrite Hb in Hin. by apply not_elem_of_nil in Hin.
Qed.

(** ** One warning, and all of them *)

Section Exact.
Context (stall_secs : Z).

Lemma warning_for_spec now ls a q c w :
  NoDup (lane_id <$> ls) -> warning_for stall_secs now ls ((a, q), c) = Some w ->
  w_app w = a /\ w_queue w = q /\ w_pending w = pending c /\ pending c <> 0 /\ oldest_pending_created_ms c <> 0 /\
  w_oldest_pending_secs w = sat_sub64 now (oldest_pending_created_ms c) / 1000 /\
  stall_secs <= w_oldest_pending_secs w /\ fault_fits now ls a q (w_fault w).
Proof.
  intros Hn. unfold warning_for. destruct (Z.eqb_spec (pending c) 0); [done|].
  destruct (Z.eqb_spec (oldest_pending_created_ms c) 0); [done|]. cbn [orb].
  destruct (Z.ltb_spec (sat_sub64 now (oldest_pending_created_ms c) / 1000) stall_secs); [done|]. intros [= <-].
  cbn [w_app w_queue w_pending w_oldest_pending_secs w_fault]. repeat (split; [done|]). by apply fault_exact.
Qed.

Lemma warning_for_Some now ls x :
  pending x.2 <> 0 -> oldest_pending_created_ms x.2 <> 0 ->
  stall_secs <= sat_sub64 now (oldest_pending_created_ms x.2) / 1000 ->
  exists w, warning_for stall_secs now ls x = Some w /\ (w_app w, w_queue w) = x.1.
Proof.
  destruct x as [[a q] c]. cbn [fst snd]. intros Hp Ho Hs. unfold warning_for.
  rewrite (proj2 (Z.eqb_neq _ _) Hp), (proj2 (Z.eqb_neq _ _) Ho), (proj2 (Z.ltb_ge _ _) Hs). cbn [orb].
  by eexists.
Qed.

Definition occupied (r : ring) : list job := filter (fun j => id j <> 0) (jobs r).

(** The jobs of a queue that a worker could take now. *)
Definition waiting (now : Z) (r : ring) (a : option App) (q : bytes) : list job :=
  filter (fun j => ready j now = true) (of_key (a, q) (occupied r)).

Lemma waiting_elem now r a q j :
  j ∈ waiting now r a q <-> j ∈ jobs r /\ id j <> 0 /\ job_key j = (a, q) /\ ready j now = true.
Proof. unfold waiting, of_key, occupied. rewrite !list_elem_of_filter. tauto. Qed.

Lemma by_queue_elem r now k c :
  (k, c) ∈ by_queue_with_app (Some r) now <->
  of_key k (occupied r) <> [] /\ c = foldl (fun c j => bucket c j now) no_counts (of_key k (occupied r)).
Proof.
  unfold by_queue_with_app. rewrite sort_by_Permutation. fold (occupied r). fold (report now (occupied r)).
  rewrite (get_elem _ k c (report_keys now _)), report_get.
  destruct (decide _) as [E|E]; [split; [done|by intros []]|]. split; [intros [= <-]; done|by intros [_ ->]].
Qed.

(** What the report says of a queue. *)
Lemma report_counts r now k c :
  0 <= now -> Z.of_nat (length (jobs r)) < W64 -> Forall (fun j => id j <> 0 -> 0 < created_at j) (jobs r) ->
  (k, c) ∈ by_queue_with_app (Some r) now ->
  pending c = Z.of_nat (length (waiting now r k.1 k.2)) /\ oldest_of now (of_key k (occupied r)) (oldest_pending_created_ms c).
Proof.
  intros Hn Hl Hc [_ ->]%by_queue_elem. unfold waiting. destruct k as [a q]. cbn [fst snd]. split.
  - destruct (counts_loop (of_key (a, q) (occupied r)) now no_counts) as (-> & _); [done| |done..].
    cbn. pose proof (length_filter_le (fun j => job_key j = (a, q)) (occupied r)) as H1.
    pose proof (length_filter_le (fun j => id j <> 0) (jobs r)) as H2. unfold of_key, occupied in *. lia.
  - apply oldest_loop; [done|]. apply Forall_forall. unfold of_key, occupied.
    intros j [_ [Hi Hj]%list_elem_of_filter]%list_elem_of_filter. rewrite Forall_forall in Hc. by apply Hc.
Qed.

Lemma warning_keys now ls m : sublist ((fun w => (w_app w, w_queue w)) <$> omap (warning_for stall_secs now ls) m) m.*1.
Proof.
  induction m as [|x m IH]; [constructor|]. cbn [omap list_omap fmap list_fmap].
  destruct (warning_for stall_secs now ls x) as [w|] eqn:E; [|by constructor].
  assert ((w_app w, w_queue w) = x.1) as <-; [|by constructor].
  destruct x as [[a q] c]. unfold warning_for in E. cbn [fst].
  repeat match type of E with context [if ?b then None else _] => destruct b; [done|] end. by injection E as <-.
Qed.

(** The warnings are exact.  Each queue, of each application, is flagged at most once; it is when
    one of its jobs has been ready to take and was pushed [stall_secs] ago or more; and a warning
    says how many jobs wait, how old the oldest is, and who polls: its own workers in the last
    minute ([NotDraining]), those of other applications only, and of exactly which
    ([WrongApplication]), or nobody ([Unattended]). *)
Theorem warnings_exact now r :
  0 <= now -> 0 < stall_secs -> Z.of_nat (length (jobs r)) < W64 ->
  Forall (fun j => id j <> 0 -> 0 < created_at j) (jobs r) ->
  NoDup (lane_id <$> lane_stats (Some r)) ->
  let ws := warnings stall_secs now (Some r) in
  NoDup ((fun w => (w_app w, w_queue w)) <$> ws) /\
  (forall j, j ∈ jobs r -> id j <> 0 -> ready j now = true -> stall_secs * 1000 <= now - created_at j ->
     exists w, w ∈ ws /\ (w_app w, w_queue w) = job_key j) /\
  (forall w, w ∈ ws ->
     let js := waiting now r (w_app w) (w_queue w) in
     w_pending w = Z.of_nat (length js) /\
     (exists j, j ∈ js /\ Forall (fun j' => created_at j <= created_at j') js /\
        stall_secs * 1000 <= now - created_at j /\ w_oldest_pending_secs w = (now - created_at j) / 1000) /\
     fault_fits now (lane_stats (Some r)) (w_app w) (w_queue w) (w_fault w)).
Proof.
  intros Hn Hst Hl Hc Hnd ws. unfold ws, warnings, warnings_from. split; [|split].
  - rewrite sort_by_Permutation. eapply sublist_NoDup; [|apply warning_keys].
    unfold by_queue_with_app. rewrite sort_by_Permutation. apply (report_keys now (occupied r)).
  - intros j Hj Hi Hr Hold. setoid_rewrite sort_by_Permutation. destruct (job_key j) as [a q] eqn:Ek.
    set (c := foldl (fun c j => bucket c j now) no_counts (of_key (a, q) (occupied r))).
    assert (j ∈ of_key (a, q) (occupied r)) as Hin.
    { unfold of_key, occupied. by rewrite !list_elem_of_filter. }
    assert (((a, q), c) ∈ by_queue_with_app (Some r) now) as Hm.
    { apply by_queue_elem. split; [|done]. intros E. rewrite E in Hin. by apply not_elem_of_nil in Hin. }
    destruct (report_counts r now _ _ Hn Hl Hc Hm) as [Hp (Ho & _ & _)]. specialize (Ho j Hin Hr).
    assert (j ∈ waiting now r a q) as Hw by by apply waiting_elem.
    destruct (warning_for_Some now (lane_stats (Some r)) ((a, q), c)) as (w & Ew & Ek'); cbn [fst snd] in *.
    + rewrite Hp. destruct (waiting now r a q); [by apply not_elem_of_nil in Hw|done].
    + lia.
    + unfold sat_sub64. apply Z.div_le_lower_bound; lia.
    + exists w. split; [|done]. apply list_elem_of_omap. by eexists.
  - intros w Hw. rewrite sort_by_Permutation in Hw. apply list_elem_of_omap in Hw as ([[a q] c] & Hm & Ew).
    destruct (warning_for_spec _ _ _ _ _ _ Hnd Ew) as (-> & -> & -> & Hp & Ho & -> & Hs & Hf).
    destruct (report_counts r now _ _ Hn Hl Hc Hm) as [Hp' (H1 & H2 & H3)]. cbn [fst snd] in *.
    split; [done|]. split; [|done]. destruct H3 as (j & Hj & Hr & Ej); [lia|]. exists j.
    split; [by apply list_elem_of_filter|]. split.
    { apply Forall_forall. intros j' [Hr' Hj']%list_elem_of_filter. rewrite Ej. by apply H1. }
    unfold sat_sub64 in Hs |- *. rewrite Ej.
    pose proof (Z.mul_div_le (Z.max (now - oldest_pending_created_ms c) 0) 1000 ltac:(lia)).
    assert (0 <= now - oldest_pending_created_ms c) by lia. rewrite Z.max_l in Hs, H by lia. rewrite Z.max_l by lia. split; [lia|done].
Qed.
End Exact.

(** ** Runs *)

Definition app_a : option App := Some (mkApp (lit "aaaaaaaaaaaaaaaa")).
Definition app_b : option App := Some (mkApp (lit "bbbbbbbbbbbbbbbb")).

(** [a] has pushed mail that only [b]'s worker asks for, and a report its own worker keeps asking
    for. *)
Definition r_watched : ring :=
  let q := (push sum_hash app_a (Some (new_ring 16)) (lit "mail") [1] 0 1000).2 in
  let q := (push sum_hash app_a q (lit "report") [2] 0 1500).2 in
  let q := (push sum_hash app_b q (lit "report") [3] 0 39000).2 in
  let q := (pop sum_hash app_b q (lit "mail") 60 40000).2 in
  let q := (pop sum_hash app_a q (lit "other") 60 40000).2 in
  default (new_ring 16) q.

Lemma warnings_exact_witness :
  (forall w, w ∈ warnings 30 41000 (Some r_watched) ->
     w_pending w = Z.of_nat (length (waiting 41000 r_watched (w_app w) (w_queue w)))) /\
  (fun w => (w_app w, w_queue w, w_fault w)) <$> warnings 30 41000 (Some r_watched)
  = [(app_a, lit "mail", WrongApplication [mkApp (lit "bbbbbbbbbbbbbbbb")]); (app_a, lit "report", Unattended)].
Proof.
  split; [|vm_compute; reflexivity].
  destruct (warnings_exact 30 41000 r_watched) as (_ & _ & H).
  - lia.
  - lia.
  - vm_compute. reflexivity.
  - apply (bool_decide_unpack _). vm_compute. exact I.
  - apply (bool_decide_unpack _). vm_compute. exact I.
  - intros w Hw. exact (proj1 (H w Hw)).
Defined.

(** A job's age is counted from its push, not from when it could first be taken: one that was
    delayed for longer than [stall_secs] counts as stalled the moment it is ready, though a
    worker asked a moment before and will take it at its next turn. *)
Lemma delayed_job_warned_at_once :
  let q := (push sum_hash app_a (Some (new_ring 16)) (lit "mail") [1] 60 1000).2 in
  let q := (pop sum_hash app_a q (lit "mail") 60 60999).2 in
  warnings 30 60999 q = [] /\
  (fun w => (w_fault w, w_oldest_pending_secs w)) <$> warnings 30 61000 q = [(NotDraining, 60)] /\
  r_payload <$> (pop sum_hash app_a q (lit "mail") 60 61000).1 = Some [1].
Proof. vm_compute. auto. Qed.

(** ** The log *)

(** Turns of the watchdog, ten seconds apart, over a ring nobody touches; what each logs. *)
Fixpoint watch_turns (n : nat) (q : option ring) (t : Z) (st : Watchdog) : list (list (option App)) :=
  match n with
  | O => []
  | S n => let '(st, logged) := watch_turn 30 false t t q st in (w_app <$> logged) :: watch_turns n q (t + 10000) st
  end.

(** Two applications have stalled queues of the same name.  The log remembers queues by name alone:
    the one with more jobs is logged every minute, and the other never. *)
Lemma namesake_never_logged :
  let q := (push sum_hash app_a (Some (new_ring 16)) (lit "mail") [1] 0 1000).2 in
  let q := (push sum_hash app_b q (lit "mail") [2] 0 1000).2 in
  let q := (push sum_hash app_a q (lit "mail") [3] 0 1000).2 in
  w_app <$> warnings 30 40000 q = [app_a; app_b] /\
  watch_turns 14 q 40000 (mkWatchdog 0 [])
  = [[app_a]; []; []; []; []; []; [app_a]; []; []; []; []; []; [app_a]; []].
Proof. vm_compute. auto. Qed.
