(* ===== verification/Bleed.v ===== *)
(** State that grows between requests, as the detector reports it ([bleed.rs]): the table in shared
    memory, one row per key of an application.  One lock covers a report, so that a report is one
    step here. *)

From S2P Require Import Prelude Bytes.

Definition SLOTS : nat := 64.
Definition APP_MAX : nat := 16.
Definition KEY_MAX : nat := 160.
Definition FP_MAX : nat := 48.

(** [Text<N>], set and read back. *)
Definition text_set (N : nat) (s : bytes) : bytes := take (char_boundary (Nat.min (length s) N) s) s.
Definition text_get (t : bytes) : bytes := from_utf8_lossy t.

Record Row := mkRow {
  used : Z; r_app : bytes; r_key : bytes; r_from : bytes; r_to : bytes;
  reports : Z; first_ms : Z; last_ms : Z }.
Definition free_row : Row := mkRow 0 [] [] [] [] 0 0 0.

Record Table := mkTable { dropped : Z; rows : list Row }.
Definition map_table : Table := mkTable 0 (replicate SLOTS free_row).

Record Finding := mkFinding { f_key : bytes; f_from : bytes; f_to : bytes }.

(** The row of a key, and what it becomes. *)
Definition row_for (app key : bytes) (r : Row) : bool :=
  (used r =? 1) && beq (text_get (r_key r)) key && beq (text_get (r_app r)) app.
Definition claim (app : bytes) (f : Finding) (now : Z) (r : Row) : Row :=
  mkRow 1 (text_set APP_MAX app) (text_set KEY_MAX (f_key f)) (r_from r) (r_to r) (reports r) now (last_ms r).
Definition grown (f : Finding) (now : Z) (r : Row) : Row :=
  mkRow (used r) (r_app r) (r_key r) (text_set FP_MAX (f_from f)) (text_set FP_MAX (f_to f))
    (wrap64 (reports r + 1)) (first_ms r) now.

(** [rows.iter().find(p)], and the row changed in place. *)
Fixpoint change_first (p : Row -> bool) (g : Row -> Row) (rs : list Row) : option (list Row) :=
  match rs with
  | [] => None
  | r :: rs => if p r then Some (g r :: rs) else cons r <$> change_first p g rs
  end.

Definition record_one (app : bytes) (now : Z) (acc : Table * nat) (f : Finding) : Table * nat :=
  let '(t, taken) := acc in
  match change_first (row_for app (f_key f)) (grown f now) (rows t) with
  | Some rs => (mkTable (dropped t) rs, S taken)
  | None =>
      match change_first (fun r => used r =? 0) (fun r => grown f now (claim app f now r)) (rows t) with
      | Some rs => (mkTable (dropped t) rs, S taken)
      | None => (mkTable (wrap64 (dropped t + 1)) (rows t), taken)
      end
  end.

Definition record_in (t : Table) (app : bytes) (findings : list Finding) (now : Z) : Table * nat :=
  foldl (record_one app now) (t, 0%nat) (List.filter (fun f => negb (beq (f_key f) [])) findings).

Record Leak := mkLeak {
  l_key : bytes; l_app : option bytes; l_from : bytes; l_to : bytes;
  l_reports : Z; first_seen_secs : Z; last_seen_secs : Z }.

Definition leak_of (now : Z) (r : Row) : Leak :=
  let app := text_get (r_app r) in
  mkLeak (text_get (r_key r)) (if bool_decide (app = []) then None else Some app) (text_get (r_from r))
    (text_get (r_to r)) (reports r) (sat_sub64 now (first_ms r) / 1000) (sat_sub64 now (last_ms r) / 1000).

Definition snapshot_of (t : Table) (now : Z) : list Leak * Z :=
  (sort_by (fun a b => then_with (l_reports b ?= l_reports a) (bytes_cmp (l_key a) (l_key b)))
     (map (leak_of now) (List.filter (fun r => used r =? 1) (rows t))),
   dropped t).

(** * What it promises

    The table of leaks is the history of reports: of the first [SLOTS] keys reported, how often,
    since when, and the latest growth; of the others, how many reports there were. *)

(** ** The history *)

(** One finding, of an application, at a time. *)
Record Entry := mkEntry { e_app : bytes; e_finding : Finding; e_now : Z }.
Definition e_key (e : Entry) : bytes * bytes := (e_app e, f_key (e_finding e)).
#[global] Instance finding_eq_dec : EqDecision Finding.
Proof. solve_decision. Defined.

(** The keys reported, in the order they first were. *)
Definition firsts (h : list Entry) : list (bytes * bytes) :=
  foldl (fun ks e => if decide (e_key e ∈ ks) then ks else ks ++ [e_key e]) [] h.
(** The keys the table has a row for. *)
Definition kept (h : list Entry) : list (bytes * bytes) := take SLOTS (firsts h).
Definition entries (h : list Entry) (k : bytes * bytes) : list Entry := filter (fun e => e_key e = k) h.

(** The row of a key. *)
Definition row_of (h : list Entry) (k : bytes * bytes) : Row :=
  match entries h k, last (entries h k) with
  | e :: _, Some l =>
      mkRow 1 (text_set APP_MAX k.1) (text_set KEY_MAX k.2) (text_set FP_MAX (f_from (e_finding l)))
        (text_set FP_MAX (f_to (e_finding l))) (Z.of_nat (length (entries h k))) (e_now e) (e_now l)
  | _, _ => free_row
  end.

Definition missed (h : list Entry) : list Entry := filter (fun e => e_key e ∉ kept h) h.

(** The table that [h] leaves. *)
Definition tells (h : list Entry) (t : Table) : Prop :=
  rows t = (row_of h <$> kept h) ++ replicate (SLOTS - length (kept h)) free_row /\
  dropped t = Z.of_nat (length (missed h)).

(** Names that fit their buffers. *)
Definition fits (N : nat) (s : bytes) : Prop := text_get (text_set N s) = s.
Definition short (k : bytes * bytes) : Prop := fits APP_MAX k.1 /\ fits KEY_MAX k.2.

(** ** Keys *)

Lemma firsts_snoc h e : firsts (h ++ [e]) = if decide (e_key e ∈ firsts h) then firsts h else firsts h ++ [e_key e].
Proof. unfold firsts. by rewrite foldl_app. Qed.

Lemma firsts_elem h k : k ∈ firsts h <-> exists e, e ∈ h /\ e_key e = k.
Proof.
  induction h as [|e h IH] using rev_ind.
  { split; [by intros ?%not_elem_of_nil|by intros (e & ?%not_elem_of_nil & _)]. }
  rewrite firsts_snoc. setoid_rewrite elem_of_app. setoid_rewrite list_elem_of_singleton.
  destruct (decide (e_key e ∈ firsts h)) as [Hin|Hin].
  - rewrite IH. split; [intros (x & ? & ?); eauto|]. intros (x & [Hx| ->] & <-); [eauto|]. by apply IH.
  - rewrite elem_of_app, list_elem_of_singleton, IH. split; [intros [(x & ? & ?)| ->]; eauto|].
    intros (x & [Hx| ->] & <-); [left; eauto|by right].
Qed.

Lemma firsts_NoDup h : NoDup (firsts h).
Proof.
  induction h as [|e h IH] using rev_ind; [constructor|]. rewrite firsts_snoc. destruct (decide _); [done|].
  apply NoDup_app. split; [done|]. split; [|apply NoDup_singleton]. by intros k Hk ->%list_elem_of_singleton.
Qed.

Lemma kept_NoDup h : NoDup (kept h).
Proof. eapply sublist_NoDup; [apply firsts_NoDup|apply sublist_take]. Qed.

Lemma kept_length h : (length (kept h) <= SLOTS)%nat.
Proof. unfold kept. rewrite length_take. lia. Qed.

Lemma entries_snoc h e k : entries (h ++ [e]) k = entries h k ++ (if decide (e_key e = k) then [e] else []).
Proof.
  unfold entries. by rewrite filter_app.
Qed.

Lemma entries_nil h k : entries h k = [] <-> k ∉ firsts h.
Proof.
  rewrite firsts_elem. unfold entries. split.
  - intros E (e & He & Hk). assert (e ∈ filter (fun e => e_key e = k) h) as Hin by by apply list_elem_of_filter.
    rewrite E in Hin. by apply not_elem_of_nil in Hin.
  - intros H. destruct (filter _ h) as [|e l] eqn:E; [done|]. exfalso. apply H. exists e.
    assert (e ∈ filter (fun e => e_key e = k) h) as [??]%list_elem_of_filter by (rewrite E; by left). done.
Qed.

(** ** Rows *)

Lemma row_of_other h e k : e_key e <> k -> row_of (h ++ [e]) k = row_of h k.
Proof. intros Hk. unfold row_of. by rewrite entries_snoc, decide_False, app_nil_r by done. Qed.

Lemma row_of_again h e :
  e_key e ∈ firsts h -> Z.of_nat (length h) < W64 - 1 ->
  row_of (h ++ [e]) (e_key e) = grown (e_finding e) (e_now e) (row_of h (e_key e)).
Proof.
  intros Hin Hlen. unfold row_of. rewrite entries_snoc, decide_True by done. rewrite last_snoc.
  pose proof (length_filter (fun e' => e_key e' = e_key e) h) as Hl. fold (entries h (e_key e)) in Hl.
  destruct (entries h (e_key e)) as [|e0 es] eqn:E; [by apply entries_nil in E|].
  destruct (last (e0 :: es)) as [l|] eqn:El; [|by apply last_None in El].
  unfold grown. cbn [app length used r_app r_key reports first_ms] in *. rewrite length_app. cbn [length].
  rewrite wrap64_id by (words; lia). f_equal. lia.
Qed.

Lemma row_of_new h e :
  e_key e ∉ firsts h ->
  row_of (h ++ [e]) (e_key e) = grown (e_finding e) (e_now e) (claim (e_app e) (e_finding e) (e_now e) free_row).
Proof.
  intros Hk%entries_nil. unfold row_of. rewrite entries_snoc, decide_True, Hk by done. reflexivity.
Qed.

Lemma row_for_iff h k app key :
  short k -> k ∈ firsts h -> row_for app key (row_of h k) = bool_decide (k = (app, key)).
Proof.
  intros [Ha Hk] Hin. unfold row_of. destruct (entries h k) as [|e es] eqn:E; [by apply entries_nil in E|].
  destruct (last (e :: es)) as [l|] eqn:El; [|by apply last_None in El].
  unfold row_for. cbn [used r_app r_key]. unfold fits in Ha, Hk. rewrite Ha, Hk. unfold beq. cbn [Z.eqb Pos.eqb andb].
  destruct k as [a q]. cbn [fst snd]. apply Bool.eq_iff_eq_true. rewrite andb_true_iff, !bool_decide_eq_true.
  split; [by intros [-> ->]|by intros [= -> ->]].
Qed.

Lemma used_row h k : k ∈ firsts h -> used (row_of h k) = 1.
Proof.
  intros Hin. unfold row_of. destruct (entries h k) as [|e es] eqn:E; [by apply entries_nil in E|].
  by destruct (last (e :: es)) as [l|] eqn:El; [|apply last_None in El].
Qed.

(** ** Finding a row *)

Lemma change_first_none p g rs : Forall (fun r => p r = false) rs -> change_first p g rs = None.
Proof. induction 1 as [|r rs Hr _ IH]; [done|]. cbn [change_first]. by rewrite Hr, IH. Qed.

Lemma change_first_app p g rs rs' :
  Forall (fun r => p r = false) rs -> change_first p g (rs ++ rs') = app rs <$> change_first p g rs'.
Proof.
  induction 1 as [|r rs Hr _ IH]; cbn [app change_first].
  - by destruct (change_first p g rs').
  - rewrite Hr, IH. by destruct (change_first p g rs').
Qed.

Lemma change_first_row h h' g app key ks rest :
  NoDup ks -> (app, key) ∈ ks -> Forall short ks -> Forall (fun k => k ∈ firsts h) ks ->
  g (row_of h (app, key)) = row_of h' (app, key) -> (forall k, k <> (app, key) -> row_of h k = row_of h' k) ->
  change_first (row_for app key) g ((row_of h <$> ks) ++ rest) = Some ((row_of h' <$> ks) ++ rest).
Proof.
  intros Hn Hin Hs Hf Hg Ho. induction ks as [|k ks IH]; [by apply not_elem_of_nil in Hin|].
  apply NoDup_cons in Hn as [Hk Hn]. apply Forall_cons in Hs as [Hs Hss], Hf as [Hf Hff].
  cbn [fmap list_fmap Datatypes.app change_first]. rewrite row_for_iff by done.
  case_bool_decide as E.
  - subst k. rewrite Hg. f_equal. f_equal. f_equal. apply list_fmap_ext. intros i k Hi. apply Ho. intros ->.
    apply Hk. by apply list_elem_of_lookup_2 in Hi.
  - apply elem_of_cons in Hin as [?|Hin]; [congruence|]. rewrite IH by done. cbn. by rewrite Ho.
Qed.

Lemma kept_firsts h : Forall (fun k => k ∈ firsts h) (kept h).
Proof. apply Forall_forall. intros k. unfold kept. apply subseteq_take. Qed.

Lemma kept_snoc h e :
  kept (h ++ [e]) = if decide (e_key e ∈ firsts h) then kept h
                    else if decide (length (kept h) < SLOTS)%nat then kept h ++ [e_key e] else kept h.
Proof.
  unfold kept. rewrite firsts_snoc. destruct (decide (e_key e ∈ firsts h)); [done|]. rewrite length_take.
  destruct (decide _) as [Hl|Hl].
  - rewrite !take_ge by (rewrite ?length_app; cbn; lia). done.
  - rewrite take_app_le by lia. done.
Qed.

Lemma filter_iff_in {A} (P Q : A -> Prop) `{!forall x, Decision (P x), !forall x, Decision (Q x)} (l : list A) :
  (forall x, x ∈ l -> P x <-> Q x) -> filter P l = filter Q l.
Proof.
  induction l as [|x l IH]; intros Heq; [done|]. rewrite !filter_cons.
  rewrite IH by (intros y Hy; apply Heq; by right). specialize (Heq x ltac:(by left)).
  destruct (decide (P x)), (decide (Q x)); done || tauto.
Qed.

(** Nobody is thrown out, and a full table takes nobody in. *)
Lemma missed_snoc h e :
  missed (h ++ [e]) = missed h ++ (if decide (e_key e ∈ kept (h ++ [e])) then [] else [e]).
Proof.
  unfold missed. rewrite filter_app. f_equal.
  - apply filter_iff_in. intros x Hx. rewrite kept_snoc.
    destruct (decide (e_key e ∈ firsts h)) as [|Hf]; [done|]. destruct (decide _); [|done].
    rewrite elem_of_app, list_elem_of_singleton. split; [tauto|]. intros H [?|E]; [done|].
    apply Hf. rewrite <- E. apply firsts_elem. eauto.
  - destruct (decide _); [by rewrite filter_cons_False by tauto|by rewrite filter_cons_True].
Qed.

Lemma free_rows_free n app key : Forall (fun r => row_for app key r = false) (replicate n free_row).
Proof. apply Forall_replicate. done. Qed.

(** One finding. *)
Lemma record_one_tells h t taken e :
  tells h t -> Z.of_nat (length h) < W64 - 1 -> Forall short (kept h) -> short (e_key e) ->
  let r := record_one (e_app e) (e_now e) (t, taken) (e_finding e) in
  tells (h ++ [e]) r.1 /\ r.2 = (taken + if decide (e_key e ∈ kept (h ++ [e])) then 1 else 0)%nat.
Proof.
  intros [Hr Hd] Hlen Hs Hse r. unfold r, record_one. clear r. rewrite Hr. change (e_app e, f_key (e_finding e)) with (e_key e).
  assert (forall k, k <> e_key e -> row_of h k = row_of (h ++ [e]) k) as Hother by (intros k Hk; by rewrite row_of_other).
  unfold tells. rewrite missed_snoc, kept_snoc.
  destruct (decide (e_key e ∈ kept h)) as [Hin|Hin].
  { assert (e_key e ∈ firsts h) as Hf by by apply (subseteq_take SLOTS) in Hin.
    rewrite (change_first_row h (h ++ [e])); [|apply kept_NoDup|done|done|apply kept_firsts|by rewrite row_of_again|done].
    cbn [fst snd rows dropped]. rewrite !(decide_True (P := e_key e ∈ firsts h)) by done.
    rewrite !decide_True by done. rewrite app_nil_r. split; [by split|lia]. }
  assert (Forall (fun r => row_for (e_app e) (f_key (e_finding e)) r = false) (row_of h <$> kept h)) as Hno.
  { apply Forall_fmap, Forall_forall. intros k Hk. rewrite Forall_forall in Hs. cbn. rewrite row_for_iff; [|by apply Hs|].
    - rewrite bool_decide_false; [done|]. by intros ->.
    - by apply (subseteq_take SLOTS) in Hk. }
  rewrite change_first_app, change_first_none by (done || apply free_rows_free). cbn [fmap option_fmap option_map].
  rewrite change_first_app.
  2: { apply Forall_fmap, Forall_forall. intros k Hk%(subseteq_take SLOTS). cbn. by rewrite used_row. }
  destruct (decide (length (kept h) < SLOTS)%nat) as [Hl|Hl].
  - assert (e_key e ∉ firsts h) as Hf.
    { unfold kept in Hin, Hl. rewrite length_take in Hl. by rewrite take_ge in Hin by lia. }
    destruct (SLOTS - length (kept h))%nat as [|n] eqn:En; [lia|].
    cbn [replicate change_first used free_row Z.eqb fmap option_fmap option_map fst snd rows dropped].
    rewrite !(decide_False (P := e_key e ∈ firsts h)) by done.
    rewrite !decide_True by (apply elem_of_app; right; by left). rewrite app_nil_r. split; [|lia]. split; [|done].
    rewrite fmap_app, <- app_assoc, length_app. cbn [length fmap list_fmap].
    rewrite (row_of_new h e) by done. replace (SLOTS - (length (kept h) + 1))%nat with n by lia.
    f_equal. apply list_fmap_ext. intros i k Hk%list_elem_of_lookup_2. apply Hother. by intros ->.
  - pose proof (kept_length h). replace (SLOTS - length (kept h))%nat with O by lia.
    cbn [replicate change_first fmap option_fmap option_map fst snd rows dropped].
    assert (forall X : list (bytes * bytes), (if decide (e_key e ∈ firsts h) then X else X) = X) as -> by (intros X; by destruct (decide _)).
    rewrite !decide_False by done. split; [|lia]. split.
    + replace (SLOTS - length (kept h))%nat with O by lia. cbn [replicate]. f_equal. apply list_fmap_ext.
      intros i k Hk%list_elem_of_lookup_2. apply Hother. by intros ->.
    + rewrite Hd, length_app. cbn [length]. pose proof (length_filter (fun e => e_key e ∉ kept h) h).
      fold (missed h) in *. rewrite wrap64_id by (words; lia). lia.
Qed.

(** ** Reports *)

(** The reports that came in: the application, its findings and the time. *)
Definition history (rs : list (bytes * list Finding * Z)) : list Entry :=
  rs ≫= fun '(app, fs, now) => map (fun f => mkEntry app f now) (List.filter (fun f => negb (beq (f_key f) [])) fs).
Definition run (rs : list (bytes * list Finding * Z)) : Table :=
  foldl (fun t '(app, fs, now) => (record_in t app fs now).1) map_table rs.

(** What a leak should say. *)
Definition leak_for (h : list Entry) (now : Z) (k : bytes * bytes) : Leak :=
  match entries h k, last (entries h k) with
  | e :: _, Some l =>
      mkLeak k.2 (if bool_decide (k.1 = []) then None else Some k.1)
        (text_get (text_set FP_MAX (f_from (e_finding l)))) (text_get (text_set FP_MAX (f_to (e_finding l))))
        (Z.of_nat (length (entries h k))) (sat_sub64 now (e_now e) / 1000) (sat_sub64 now (e_now l) / 1000)
  | _, _ => leak_of now free_row
  end.

Lemma kept_short h : Forall (fun e => short (e_key e)) h -> Forall short (kept h).
Proof.
  intros Hs. apply Forall_forall. intros k (e & He & <-)%(subseteq_take SLOTS)%firsts_elem.
  rewrite Forall_forall in Hs. by apply Hs.
Qed.

Lemma record_all_tells h t taken app now fs :
  let es := map (fun f => mkEntry app f now) fs in
  tells h t -> Z.of_nat (length (h ++ es)) < W64 -> Forall (fun e => short (e_key e)) (h ++ es) ->
  tells (h ++ es) (foldl (record_one app now) (t, taken) fs).1.
Proof.
  cbv zeta. revert h t taken. induction fs as [|f fs IH]; intros h t taken Ht Hlen Hs; cbn [map] in *.
  { by rewrite app_nil_r. }
  set (e := mkEntry app f now) in *. change (e :: ?l) with ([e] ++ l) in *. rewrite app_assoc in *.
  assert (Forall (fun e => short (e_key e)) (h ++ [e])) as Hs1 by by apply Forall_app in Hs as [? _].
  pose proof Hs1 as [Hs0 Hse%Forall_inv]%Forall_app. rewrite !length_app in Hlen. cbn [length] in Hlen.
  destruct (record_one_tells h t taken e Ht ltac:(lia) (kept_short h Hs0) Hse) as [Ht' _].
  cbn [foldl]. change (record_one app now (t, taken) f) with (record_one (e_app e) (e_now e) (t, taken) (e_finding e)).
  destruct (record_one _ _ _ _) as [t' taken']. apply IH; [done| |done]. rewrite !length_app. cbn [length]. lia.
Qed.

Lemma run_tells rs :
  Z.of_nat (length (history rs)) < W64 -> Forall (fun e => short (e_key e)) (history rs) ->
  tells (history rs) (run rs).
Proof.
  induction rs as [|[[app fs] now] rs IH] using rev_ind; [done|].
  unfold history, run. rewrite bind_app, foldl_app. cbn [mbind list_bind foldl]. rewrite app_nil_r.
  fold (history rs) (run rs). intros Hlen Hs. unfold record_in. apply record_all_tells; [|done|done].
  apply IH; [rewrite length_app in Hlen; lia|]. by apply Forall_app in Hs as [? _].
Qed.

Lemma leak_of_row h now k : short k -> k ∈ firsts h -> leak_of now (row_of h k) = leak_for h now k.
Proof.
  intros [Ha Hk] Hin. unfold row_of, leak_for, fits in *. destruct (entries h k) as [|e es] eqn:E; [by apply entries_nil in E|].
  destruct (last (e :: es)) as [l|] eqn:El; [|by apply last_None in El].
  unfold leak_of. cbn [r_app r_key r_from r_to reports first_ms last_ms]. by rewrite Ha, Hk.
Qed.

(** The report is the history.  Of reports whose names fit, in any number and order, the snapshot
    lists the first [SLOTS] keys that came, each once: how often it was reported, how long ago first
    and last, and the growth its last report told of; and the count beside it is how many findings
    were of other keys. *)
Theorem leaks_are_the_history rs now :
  let h := history rs in
  Z.of_nat (length h) < W64 -> Forall (fun e => short (e_key e)) h ->
  (snapshot_of (run rs) now).1 ≡ₚ (leak_for h now <$> kept h) /\
  (snapshot_of (run rs) now).2 = Z.of_nat (length (missed h)) /\ NoDup (kept h).
Proof.
  intros h Hlen Hs. destruct (run_tells rs Hlen Hs) as [Hr Hd]. fold h in Hr, Hd.
  unfold snapshot_of. cbn [fst snd]. split; [|split; [done|apply kept_NoDup]].
  rewrite sort_by_Permutation, Hr, List.filter_app.
  assert (forall ks, Forall (fun k => k ∈ firsts h) ks ->
            List.filter (fun r => used r =? 1) (row_of h <$> ks) = row_of h <$> ks) as ->.
  { induction 1 as [|k ks Hk _ IH]; [done|]. cbn [fmap list_fmap List.filter]. rewrite used_row by done. cbn [Z.eqb Pos.eqb].
    by rewrite <- IH at 2. }
  2: apply kept_firsts.
  assert (forall n, List.filter (fun r => used r =? 1) (replicate n free_row) = []) as -> by by induction n.
  rewrite app_nil_r. change (map (leak_of now)) with (fmap (leak_of now) : list Row -> list Leak).
  rewrite <- list_fmap_compose. erewrite list_fmap_ext; [done|].
  intros i k Hk%list_elem_of_lookup_2. cbn. pose proof (kept_short h Hs) as Hks. rewrite Forall_forall in Hks.
  apply leak_of_row; [by apply Hks|]. by apply (subseteq_take SLOTS) in Hk.
Qed.

Definition demo_reports : list (bytes * list Finding * Z) :=
  [(lit "aaaaaaaaaaaaaaaa", [mkFinding (lit "Cart::$items") (lit "array:2") (lit "array:5")], 1000);
   (lit "aaaaaaaaaaaaaaaa", [mkFinding (lit "Cart::$items") (lit "array:5") (lit "array:9"); mkFinding [] [] []], 61000);
   ([], [mkFinding (lit "Cart::$items") (lit "array:1") (lit "array:2")], 61000)].

Lemma leaks_are_the_history_witness :
  (snapshot_of (run demo_reports) 121000).1
  ≡ₚ [mkLeak (lit "Cart::$items") (Some (lit "aaaaaaaaaaaaaaaa")) (lit "array:5") (lit "array:9") 2 120 60;
      mkLeak (lit "Cart::$items") None (lit "array:1") (lit "array:2") 1 60 60].
Proof.
  destruct (leaks_are_the_history demo_reports 121000) as (H & _ & _).
  - vm_compute. reflexivity.
  - repeat constructor; vm_compute; reflexivity.
  - etrans; [exact H|]. vm_compute. reflexivity.
Defined.

(** A key that does not fit is cut where it is kept and not where it is compared: each report of it
    takes a row of its own, and [SLOTS] of them fill the table. *)
Lemma long_key_fills_table :
  let f := mkFinding (repeat 97 161) (lit "a") (lit "b") in
  let t := run (repeat ([], [f], 0) 64) in
  length (snapshot_of t 0).1 = 64%nat /\ Forall (fun l => l_reports l = 1) (snapshot_of t 0).1 /\
  (record_in t [] [mkFinding (lit "other") [] []] 0).2 = 0%nat.
Proof. split; [vm_compute; reflexivity|]. split; [|vm_compute; reflexivity]. apply (bool_decide_unpack _). by vm_compute. Qed.
