(* ===== verification/Bridge.v ===== *)
(** Where requests meet PHP ([php.rs], with the loop of the worker in [csrc/shim.c]): the channel to
    the interpreter's thread, the callbacks the shim makes, and how the loop ends.

    What the application does with a request is data ([Behaviour]): what it writes, when it
    flushes, how it ends.  PHP's list of response headers and its output buffers are the
    engine's: the first is a pair of parameters, of the second the model has what the shim
    relies on -- output held back reaches the SAPI when it is released, and a SAPI write
    commits the headers.  A response status is an [int] of C and a [u16] of Rust. *)

From stdpp Require Import gmap.
From S2P Require Import Prelude Bytes.

(** ** What a client gets ([Reply], and the body that follows one) *)

(** [Left] is a body whose client hung up: nobody sees its end. *)
Inductive Ending := Going | Closed | Aborted | Left.
Inductive Answer :=
| Buffered (status : Z) (headers : list (bytes * bytes)) (body : bytes)
| Stream (status : Z) (headers : list (bytes * bytes)) (chunks : list bytes) (ending : Ending)
| Failed (why : bytes).

(** [parse_headers]. *)
Fixpoint split_crlf (b : bytes) : list bytes :=
  match b with
  | [] => [[]]
  | 13 :: (10 :: b') => [] :: split_crlf b'
  | x :: b' => match split_crlf b' with [] => [[x]] | p :: ps => (x :: p) :: ps end
  end.
Definition parse_headers (raw : bytes) : list (bytes * bytes) :=
  omap (fun l => '(k, v) ← split_once 58 l; Some (trim k, trim v))
    (List.filter (fun l => negb (beq l [])) (split_crlf (from_utf8_lossy raw))).

(** [status.max(0) as u16]. *)
Definition as_u16 (status : Z) : Z := Z.max status 0 mod 2 ^ 16.

(** ** The Rust side: [WorkerBridge] *)

(** Requests are numbered as they were sent ([Handoff] has what [wait] makes of one for PHP, [Ns] the
    namespace it is served in); [answers] is what their clients have. *)
Record Bridge := mkBridge {
  rx : list nat; pending : option nat; stream : option nat; answers : gmap nat Answer; end_closed : bool }.

Definition DROPPED : bytes := lit "php worker dropped reply".
Definition DIED : bytes := lit "php worker died mid-request".

(** A reply's sender that is dropped, and a body's. *)
Definition drop_reply (o : option nat) (m : gmap nat Answer) : gmap nat Answer :=
  match o with Some i => <[i := Failed DROPPED]> m | None => m end.
Definition end_body (e : Ending) (o : option nat) (m : gmap nat Answer) : gmap nat Answer :=
  match o with
  | Some i => alter (fun a => match a with Stream s h c Going => Stream s h c e | _ => a end) i m
  | None => m
  end.

Definition wait (b : Bridge) : bool * Bridge :=
  match rx b with
  | i :: rx => (true, mkBridge rx (Some i) None (end_body Closed (stream b) (drop_reply (pending b) (answers b))) (end_closed b))
  | [] => (false, mkBridge [] (pending b) (stream b) (answers b) true)
  end.

Definition reply (body : bytes) (headers : list (bytes * bytes)) (status : Z) (b : Bridge) : Bridge :=
  match pending b with
  | Some i => mkBridge (rx b) None (stream b) (<[i := Buffered status headers body]> (answers b)) (end_closed b)
  | None => b
  end.

Definition stream_begin (headers : list (bytes * bytes)) (status : Z) (b : Bridge) : Bridge :=
  match pending b with
  | Some i =>
      mkBridge (rx b) None (Some i)
        (<[i := Stream status headers [] Going]> (end_body Closed (stream b) (answers b))) (end_closed b)
  | None => b
  end.

Definition stream_end (b : Bridge) : Bridge :=
  mkBridge (rx b) (pending b) None (end_body Closed (stream b) (answers b)) (end_closed b).

Section Bridge.
(** Whether the client of a request is gone when it is sent a chunk. *)
Context (gone : nat -> nat -> bool).

Definition stream_chunk (chunk : bytes) (b : Bridge) : Bridge :=
  match stream b with
  | Some i =>
      match answers b !! i with
      | Some (Stream s h cs Going) =>
          if gone i (length cs)
          then mkBridge (rx b) (pending b) None (<[i := Stream s h cs Left]> (answers b)) (end_closed b)
          else mkBridge (rx b) (pending b) (stream b) (<[i := Stream s h (cs ++ [chunk]) Going]> (answers b)) (end_closed b)
      | _ => b
      end
  | None => b
  end.

(** ** The C side: the shim's buffers, and the engine's state it reads *)

Record Shim := mkShim {
  out : bytes; hdr : bytes; streaming : bool;        (* [g_req.out], [g_req.hdr], [g_streaming] *)
  code : Z; lines : list bytes; sent : bool;         (* [SG(sapi_headers)], [SG(headers_sent)] *)
  held : bytes; implicit : bool }.                   (* PHP's output buffers, and implicit flush *)

(** PHP's: a header line set, and the lines as they are sent. *)
Context (header_set : list bytes -> bytes -> list bytes) (header_lines : list bytes -> list bytes).

(** [sapi_send_headers], which calls [askr_send_header] for each line, once. *)
Definition send_headers (s : Shim) : Shim :=
  if sent s then s
  else mkShim (out s) (hdr s ++ (header_lines (lines s) ≫= fun l => l ++ [13; 10])) (streaming s) (code s) (lines s) true
         (held s) (implicit s).

Definition status_of (s : Shim) : Z := if code s =? 0 then 200 else code s.

Definition set_out (s : Shim) (o : bytes) : Shim :=
  mkShim o (hdr s) (streaming s) (code s) (lines s) (sent s) (held s) (implicit s).

(** [askr_flush]. *)
Definition askr_flush (w : Shim * Bridge) : Shim * Bridge :=
  let '(s, b) := w in
  let '(s, b) :=
    if streaming s then (s, b)
    else
      let s := send_headers s in
      (mkShim (out s) (hdr s) true (code s) (lines s) (sent s) (held s) (implicit s),
       stream_begin (parse_headers (hdr s)) (as_u16 (status_of s)) b) in
  if bool_decide (out s = []) then (s, b) else (set_out s [], stream_chunk (out s) b).

(** A write that reaches the SAPI: [askr_ub_write], and what PHP's output layer does around it. *)
Definition ub_write (data : bytes) (w : Shim * Bridge) : Shim * Bridge :=
  if bool_decide (data = []) then w
  else
    let s := send_headers w.1 in
    let w := (set_out s (out s ++ data), w.2) in
    if implicit s then askr_flush w else w.

(** ** What the application does *)

Inductive Act :=
| Write (data : bytes)        (* output that is not buffered *)
| Hold (data : bytes)         (* output into an open buffer *)
| Release | Discard           (* [ob_end_flush], [ob_end_clean] *)
| Flush                       (* [flush()] *)
| Implicit (on : bool)        (* [ob_implicit_flush] *)
| Header (line : bytes) | Status (code : Z).

Definition set_held (s : Shim) (h : bytes) : Shim :=
  mkShim (out s) (hdr s) (streaming s) (code s) (lines s) (sent s) h (implicit s).

Definition act (w : Shim * Bridge) (a : Act) : Shim * Bridge :=
  let '(s, b) := w in
  match a with
  | Write d => ub_write d (s, b)
  | Hold d => (set_held s (held s ++ d), b)
  | Release => ub_write (held s) (set_held s [], b)
  | Discard => (set_held s [], b)
  | Flush => askr_flush (s, b)
  | Implicit on => (mkShim (out s) (hdr s) (streaming s) (code s) (lines s) (sent s) (held s) on, b)
  | Header l =>
      if sent s then w
      else (mkShim (out s) (hdr s) (streaming s) (code s) (header_set (lines s) l) (sent s) (held s) (implicit s), b)
  | Status z =>
      if sent s then w
      else (mkShim (out s) (hdr s) (streaming s) z (lines s) (sent s) (held s) (implicit s), b)
  end.
Definition acts (l : list Act) (w : Shim * Bridge) : Shim * Bridge := foldl act w l.

(** How the handler ends; a fatal error leaves the loop, and PHP shuts the request down, with what
    the shutdown functions do.  (A status that the engine sets when it dies is one of the handler's
    acts.) *)
Inductive Finish := Returned | Exited | Threw | Fatal (shutdown : list Act).
(** What the worker script does with one request: the handler, the deferred closures, and whether
    it leaves its loop then. *)
Record Behaviour := mkBehaviour {
  handler : list Act; finish : Finish; deferred : list (list Act); leaves : bool }.

(** [php_output_end_all]: what is held is written; [php_output_deactivate] and [_activate]. *)
Definition end_all (w : Shim * Bridge) : Shim * Bridge := ub_write (held w.1) (set_held w.1 [], w.2).

(** [worker_reset_response]. *)
Definition worker_reset_response (w : Shim * Bridge) : Shim * Bridge :=
  let b := (end_all w).2 in (mkShim [] [] false 200 [] false [] false, b).

(** The end of [askr_handle_request]: the response is handed over. *)
Definition hand_over (w : Shim * Bridge) : Shim * Bridge :=
  let s := send_headers w.1 in
  if streaming s then
    let b := if bool_decide (out s = []) then w.2 else stream_chunk (out s) w.2 in (s, stream_end b)
  else (s, reply (out s) (parse_headers (hdr s)) (as_u16 (status_of s)) w.2).

(** What is left of an exception that escaped the handler. *)
Definition fail_500 (s : Shim) : Shim :=
  mkShim [] (hdr s) (streaming s) 500 (lines s) (sent s) (held s) (implicit s).

(** [askr_handle_request], after [g_wait]; the flag says whether the script goes on. *)
Definition handle_request (x : Behaviour) (w : Shim * Bridge) : bool * (Shim * Bridge) :=
  let w := acts (handler x) (worker_reset_response w) in
  match finish x with
  | Fatal shutdown => (false, end_all (acts shutdown w))
  | f =>
      let w := match f with Threw => (fail_500 w.1, w.2) | _ => w end in
      let w := foldl (fun w l => acts l w) (hand_over w) (deferred x) in
      if leaves x then (false, end_all w) else (true, w)
  end.

(** The worker script's loop. *)
Fixpoint script_loop (fuel : nat) (does : nat -> Behaviour) (w : Shim * Bridge) : Shim * Bridge :=
  match fuel with
  | O => w
  | S fuel =>
      let '(s, b) := w in
      match rx b, wait b with
      | i :: _, (true, b) =>
          let '(on, w) := handle_request (does i) (s, b) in
          if on then script_loop fuel does w else w
      | _, (_, b) => end_all (s, b)
      end
  end.

(** The thread of [spawn_worker], after the loop: a request in flight is failed and a body in flight
    is aborted.  What was still in the channel is dropped with it when the thread returns, which it
    does while the server drains; otherwise the process exits, and nobody is told. *)
Definition exit_code (draining : bool) : option Z := if draining then None else Some 75.

Definition after_loop (draining : bool) (b : Bridge) : Bridge :=
  let m := match pending b with Some i => <[i := Failed DIED]> (answers b) | None => answers b end in
  let m := end_body Aborted (stream b) m in
  match exit_code draining with
  | Some _ => mkBridge (rx b) None None m (end_closed b)
  | None => mkBridge [] None None (foldl (fun m i => drop_reply (Some i) m) m (rx b)) (end_closed b)
  end.

Definition boot : Shim := mkShim [] [] false 200 [] false [] false.

(** A worker: the application boots, and serves what is sent until the channel is closed or the
    script ends. *)
Definition spawn_worker (booting : list Act) (does : nat -> Behaviour) (draining : bool) (jobs : list nat) : Bridge :=
  let b := mkBridge jobs None None ∅ false in
  after_loop draining (script_loop (S (length jobs)) does (acts booting (boot, b))).2.

(** ** Per-request mode: [Interpreter::handle], and [askr_php_handle] of the shim

    The streaming callbacks are not registered, so that [askr_flush] returns at once. *)
Definition unwired (a : Act) : option Act :=
  match a with Flush | Implicit _ => None | a => Some a end.

(** [nul] is that some text of the request has a NUL byte, [started] that PHP's request startup
    went well. *)
Definition interp_handle (nul started : bool) (x : Behaviour) : Answer :=
  if nul then Failed (lit "PHP code contained an interior NUL byte")
  else if negb started then Failed (lit "php_request_startup failed")
  else
    let w := acts (omap unwired (handler x)) (boot, mkBridge [] None None ∅ false) in
    let status := status_of w.1 in
    let w := end_all (acts (match finish x with Fatal l => omap unwired l | _ => [] end) w) in
    let s := send_headers w.1 in
    Buffered (status mod 2 ^ 16) (parse_headers (hdr s)) (out s).
End Bridge.
