(* ===== verification/BridgeSpec.v ===== *)
(** What the worker promises the clients of its requests: each is answered, once, by its own
    request, and an answer that was cut off never looks whole. *)

From stdpp Require Import gmap.
From S2P Require Import Prelude Bytes Bridge.

Section Spec.
Context (gone : nat -> nat -> bool).
Context (header_set : list bytes -> bytes -> list bytes) (header_lines : list bytes -> list bytes).
Implicit Types (b : Bridge) (s : Shim) (x : Behaviour).

Abbreviation askr_flush := (askr_flush gone header_lines).
Abbreviation ub_write := (ub_write gone header_lines).
Abbreviation act := (act gone header_set header_lines).
Abbreviation acts := (acts gone header_set header_lines).
Abbreviation end_all := (end_all gone header_lines).
Abbreviation reset := (worker_reset_response gone header_lines).
Abbreviation hand_over := (hand_over gone header_lines).
Abbreviation handle_request := (handle_request gone header_set header_lines).
Abbreviation script_loop := (script_loop gone header_set header_lines).
Abbreviation spawn_worker := (spawn_worker gone header_set header_lines).

Local Ltac owned :=
  repeat match goal with
         | E : pending _ = None |- _ => rewrite E | E : pending _ = Some _ |- _ => rewrite E
         | E : stream _ = None |- _ => rewrite E | E : stream _ = Some _ |- _ => rewrite E
         end;
  solve [done | by left | by right].

(** ** One request at a time

    Of request [i], two bridges agree when they hold the same of its sender and its body, hold
    nothing of another's, and have answered it alike. *)
Definition own (i : nat) (o : option nat) : Prop := o = None \/ o = Some i.
Record agree (i : nat) b1 b2 : Prop := {
  ag_pending : pending b1 = pending b2;
  ag_stream : stream b1 = stream b2;
  ag_own : own i (pending b1) /\ own i (stream b1);
  ag_answer : answers b1 !! i = answers b2 !! i }.

(** What a callback changes: of the answers, only that of [i]; nothing of the channel. *)
Record only (i : nat) b b' : Prop := {
  on_rx : rx b' = rx b;
  on_own : own i (pending b') /\ own i (stream b');
  on_others : forall j, j <> i -> answers b' !! j = answers b !! j }.

Lemma only_refl i b : own i (pending b) -> own i (stream b) -> only i b b.
Proof. by split. Qed.

Lemma only_trans i b1 b2 b3 : only i b1 b2 -> only i b2 b3 -> only i b1 b3.
Proof.
  intros [H1 _ H3] [G1 G2 G3]. split; [congruence|done|]. intros j Hj. by rewrite G3, H3.
Qed.

(** An answer that will not change. *)
Definition settled (a : Answer) : Prop := match a with Stream _ _ _ Going => False | _ => True end.

(** Each of [js] will be answered: its sender is held, or it has an answer, and the sender of a body
    that goes on is held. *)
Definition covered (js : list nat) b : Prop :=
  forall j, j ∈ js -> pending b = Some j \/ exists a, answers b !! j = Some a /\ (settled a \/ stream b = Some j).
Definition idle b : Prop := pending b = None /\ stream b = None.

(** A callback that touches only [i], does the same to bridges that agree on it, forgets nobody and
    does nothing when there is nothing to serve. *)
Record tame (i : nat) (f : Bridge -> Bridge) : Prop := {
  t_only : forall b, own i (pending b) -> own i (stream b) -> only i b (f b);
  t_agree : forall b1 b2, agree i b1 b2 -> agree i (f b1) (f b2);
  t_covered : forall js b, covered js b -> covered js (f b);
  t_rx : forall b, rx (f b) = rx b;
  t_idle : forall b, idle b -> f b = b }.

Lemma end_body_other e o (m : gmap nat Answer) i j : own i o -> j <> i -> end_body e o m !! j = m !! j.
Proof. intros [->| ->] Hj; [done|]. cbn. by rewrite lookup_alter_ne. Qed.

Lemma end_body_same e o (m1 m2 : gmap nat Answer) i :
  own i o -> m1 !! i = m2 !! i -> end_body e o m1 !! i = end_body e o m2 !! i.
Proof. intros [->| ->] E; [done|]. cbn. by rewrite !lookup_alter_eq, E. Qed.

(** *** Nobody is forgotten *)

Lemma settled_end_body e o (m : gmap nat Answer) j a :
  e <> Going -> m !! j = Some a -> settled a \/ o = Some j -> exists a', end_body e o m !! j = Some a' /\ settled a'.
Proof.
  intros He Ea Ha. destruct o as [k|]; [|exists a; split; [done|by destruct Ha]]. cbn.
  destruct (decide (k = j)) as [->|Hk].
  - rewrite lookup_alter_eq, Ea. eexists. split; [done|]. cbn. destruct a as [ |? ? ? []| ]; try done. by destruct e.
  - rewrite lookup_alter_ne by done. exists a. split; [done|]. destruct Ha as [?|[= ->]]; done.
Qed.

Lemma covered_reply body h z js b : covered js b -> covered js (reply body h z b).
Proof.
  intros H j Hj. specialize (H j Hj). unfold reply. destruct (pending b) as [k|] eqn:E; [|by rewrite E].
  right. cbn. destruct (decide (k = j)) as [->|Hk].
  - rewrite lookup_insert_eq. eexists. split; [done|by left].
  - rewrite lookup_insert_ne by done. by destruct H as [[= ->]|?].
Qed.

Lemma covered_begin h z js b : covered js b -> covered js (stream_begin h z b).
Proof.
  intros H j Hj. specialize (H j Hj). unfold stream_begin. destruct (pending b) as [k|] eqn:E; [|by rewrite E].
  right. cbn. destruct (decide (k = j)) as [->|Hk].
  - rewrite lookup_insert_eq. eexists. split; [done|by right].
  - rewrite lookup_insert_ne by done. destruct H as [[= ->]|(a & Ea & Ha)]; [done|].
    destruct (settled_end_body Closed _ _ _ _ ltac:(done) Ea Ha) as (a' & ? & ?). eauto.
Qed.

Lemma covered_end js b : covered js b -> covered js (stream_end b).
Proof.
  intros H j Hj. destruct (H j Hj) as [Hp|(a & Ea & Ha)]; [by left|right]. cbn.
  destruct (settled_end_body Closed _ _ _ _ ltac:(done) Ea Ha) as (a' & ? & ?). eauto.
Qed.

Lemma covered_chunk c js b : covered js b -> covered js (stream_chunk gone c b).
Proof.
  intros H j Hj. specialize (H j Hj). unfold stream_chunk. destruct (stream b) as [k|] eqn:E; [|by rewrite E].
  destruct (answers b !! k) as [[ | ? ? ? [| | |]| ]|] eqn:Ea; try (by rewrite E).
  destruct (decide (k = j)) as [->|Hk].
  - destruct (gone j _); right; cbn; rewrite lookup_insert_eq; eexists; (split; [done|]); [by left|by right].
  - destruct H as [Hp|(a & Ea' & [Ha|[= ->]])]; [|right|done].
    + left. by destruct (gone k _).
    + exists a. destruct (gone k _); cbn; rewrite lookup_insert_ne by done; auto.
Qed.

Lemma covered_wait js b i rx' :
  rx b = i :: rx' -> covered js b -> covered (i :: js) (wait b).2 /\ (wait b).1 = true /\ rx (wait b).2 = rx'.
Proof.
  intros E H. unfold wait. rewrite E. split; [|done]. intros j [->|Hj]%elem_of_cons; [by left|].
  destruct (decide (i = j)) as [->|Hi]; [by left|right]. cbn.
  destruct (H j Hj) as [->|(a & Ea & Ha)].
  - destruct (settled_end_body Closed (stream b) (drop_reply (Some j) (answers b)) j (Failed DROPPED)) as (a & ? & ?);
      [done|cbn; by rewrite lookup_insert_eq|by left|eauto].
  - assert (exists a, drop_reply (pending b) (answers b) !! j = Some a /\ (settled a \/ stream b = Some j)) as (a' & Ea' & Ha').
    { destruct (pending b) as [k|]; [|eauto]. cbn. destruct (decide (k = j)) as [->|].
      - rewrite lookup_insert_eq. eexists. split; [done|by left].
      - rewrite lookup_insert_ne by done. eauto. }
    destruct (settled_end_body Closed _ _ _ _ ltac:(done) Ea' Ha') as (a'' & ? & ?). eauto.
Qed.

(** *** What each callback does *)

Lemma tame_reply i body h z : tame i (reply body h z).
Proof.
  split.
  - intros b Hp Hs. unfold reply. destruct (pending b) as [k|] eqn:E; [|apply only_refl; owned].
    destruct Hp as [?|[= ->]]; [done|]. split; cbn; [done|split; owned|]. intros j Hj. by rewrite lookup_insert_ne.
  - intros b1 b2 [Hp Hs [Hop Hos] Ha]. unfold reply. rewrite <- Hp. destruct (pending b1) as [k|] eqn:E; [|by split; rewrite ?E].
    destruct Hop as [?|[= ->]]; [done|]. split; cbn; [done|done|split; owned|by rewrite !lookup_insert_eq].
  - intros js b. apply covered_reply.
  - intros b. unfold reply. by destruct (pending b).
  - intros b [Hp _]. unfold reply. by rewrite Hp.
Qed.

Lemma tame_begin i h z : tame i (stream_begin h z).
Proof.
  split.
  - intros b Hp Hs. unfold stream_begin. destruct (pending b) as [k|] eqn:E; [|apply only_refl; owned].
    destruct Hp as [?|[= ->]]; [done|]. split; cbn; [done|split; owned|]. intros j Hj.
    rewrite lookup_insert_ne by done. by eapply end_body_other.
  - intros b1 b2 [Hp Hs [Hop Hos] Ha]. unfold stream_begin. rewrite <- Hp.
    destruct (pending b1) as [k|] eqn:E; [|by split; rewrite ?E].
    destruct Hop as [?|[= ->]]; [done|]. split; cbn; [done|done|split; owned|by rewrite !lookup_insert_eq].
  - intros js b. apply covered_begin.
  - intros b. unfold stream_begin. by destruct (pending b).
  - intros b [Hp _]. unfold stream_begin. by rewrite Hp.
Qed.

Lemma tame_end i : tame i stream_end.
Proof.
  split.
  - intros b Hp Hs. split; cbn; [done|split; owned|]. intros j Hj. by eapply end_body_other.
  - intros b1 b2 [Hp Hs [Hop Hos] Ha]. split; cbn; [done|done|split; owned|].
    rewrite <- Hs. by eapply end_body_same.
  - intros js b. apply covered_end.
  - done.
  - intros [? ? ? ? ?] [Hp Hs]. cbn in *. by subst.
Qed.

Lemma tame_chunk i c : tame i (stream_chunk gone c).
Proof.
  split.
  - intros b Hp Hs. unfold stream_chunk. destruct (stream b) as [k|] eqn:E; [|apply only_refl; owned].
    destruct Hs as [?|[= ->]]; [done|].
    destruct (answers b !! i) as [[ | ? ? ? [| | |]| ]|]; try (apply only_refl; owned).
    destruct (gone i _); (split; cbn; [done|split; owned|]); intros j Hj; by rewrite lookup_insert_ne.
  - intros b1 b2 [Hp Hs [Hop Hos] Ha]. unfold stream_chunk. rewrite <- Hs.
    destruct (stream b1) as [k|] eqn:E; [|by split; rewrite ?E].
    destruct Hos as [?|[= ->]]; [done|]. rewrite <- Ha.
    destruct (answers b1 !! i) as [[ | ? ? ? [| | |]| ]|] eqn:Ea; try (split; rewrite ?E, ?Ea; done || (split; owned)).
    destruct (gone i _); (split; cbn; [done|congruence|split; owned|by rewrite !lookup_insert_eq]).
  - intros js b. apply covered_chunk.
  - intros b. unfold stream_chunk. destruct (stream b) as [k|]; [|done].
    destruct (answers b !! k) as [[ | ? ? ? [| | |]| ]|]; try done. by destruct (gone k _).
  - intros b [_ Hs]. unfold stream_chunk. by rewrite Hs.
Qed.

Lemma tame_id i : tame i (fun b => b).
Proof. split; [by intros; apply only_refl|done..]. Qed.

Lemma tame_comp i f g : tame i f -> tame i g -> tame i (fun b => g (f b)).
Proof.
  intros Hf Hg. split.
  - intros b Hp Hs. pose proof (t_only i f Hf b Hp Hs) as H.
    eapply only_trans; [exact H|]. destruct H as [_ [? ?] _]. by apply t_only.
  - intros b1 b2 H. by apply (t_agree i g Hg), (t_agree i f Hf).
  - intros js b H. by apply (t_covered i g Hg), (t_covered i f Hf).
  - intros b. by rewrite (t_rx i g Hg), (t_rx i f Hf).
  - intros b H. rewrite (t_idle i f Hf b H). by apply (t_idle i g Hg).
Qed.

(** What the shim does to the bridge depends on its own buffers, and is a chain of callbacks. *)
Definition steps (i : nat) (F : Shim * Bridge -> Shim * Bridge) : Prop :=
  forall s, exists s' f, tame i f /\ forall b, F (s, b) = (s', f b).

Lemma steps_id i : steps i (fun w => w).
Proof. intros s. exists s, (fun b => b). split; [apply tame_id|done]. Qed.

Lemma steps_comp i F G : steps i F -> steps i G -> steps i (fun w => G (F w)).
Proof.
  intros HF HG s. destruct (HF s) as (s1 & f & Hf & Ef), (HG s1) as (s2 & g & Hg & Eg).
  exists s2, (fun b => g (f b)). split; [by apply tame_comp|]. intros b. by rewrite Ef, Eg.
Qed.

Lemma steps_flush i : steps i askr_flush.
Proof.
  intros s. unfold Bridge.askr_flush. destruct (streaming s).
  - case_bool_decide; [exists s, (fun b => b); split; [apply tame_id|done]|].
    eexists _, (stream_chunk gone (out s)). split; [apply tame_chunk|done].
  - set (s1 := send_headers header_lines s). cbn [out]. case_bool_decide.
    + eexists _, (stream_begin _ _). split; [apply tame_begin|done].
    + eexists _, (fun b => stream_chunk gone (out s1) (stream_begin _ _ b)).
      split; [|done]. apply (tame_comp i (stream_begin _ _) (stream_chunk _ _)); [apply tame_begin|apply tame_chunk].
Qed.

Lemma steps_pure i (g : Shim -> Shim) : steps i (fun w => (g w.1, w.2)).
Proof. intros s. exists (g s), (fun b => b). split; [apply tame_id|done]. Qed.

Lemma steps_ext i F G : (forall s b, F (s, b) = G (s, b)) -> steps i F -> steps i G.
Proof.
  intros E HF s. destruct (HF s) as (s' & f & Hf & Ef). exists s', f. split; [done|]. intros b. by rewrite <- E.
Qed.

Lemma steps_write i d : steps i (ub_write d).
Proof.
  intros s. unfold Bridge.ub_write. case_bool_decide; [apply steps_id|]. cbn [fst snd].
  destruct (implicit (send_headers header_lines s)).
  - destruct (steps_flush i (set_out (send_headers header_lines s) (out (send_headers header_lines s) ++ d)))
      as (s' & f & Hf & Ef). by exists s', f.
  - eexists _, (fun b => b). split; [apply tame_id|done].
Qed.

Lemma steps_end_all i : steps i end_all.
Proof.
  intros s. unfold Bridge.end_all. cbn [fst snd]. destruct (steps_write i (held s) (set_held s [])) as (s' & f & Hf & Ef).
  by exists s', f.
Qed.

Lemma steps_act i a : steps i (fun w => act w a).
Proof.
  destruct a as [d|d| | | |on|l|z]; intros s; cbn [Bridge.act].
  - apply steps_write.
  - eexists _, (fun b => b). split; [apply tame_id|done].
  - destruct (steps_write i (held s) (set_held s [])) as (s' & f & Hf & Ef). by exists s', f.
  - eexists _, (fun b => b). split; [apply tame_id|done].
  - apply steps_flush.
  - eexists _, (fun b => b). split; [apply tame_id|done].
  - destruct (sent s); eexists _, (fun b => b); (split; [apply tame_id|done]).
  - destruct (sent s); eexists _, (fun b => b); (split; [apply tame_id|done]).
Qed.

Lemma steps_acts i l : steps i (acts l).
Proof.
  induction l as [|a l IH]; [apply steps_id|].
  exact (steps_comp i (fun w => act w a) (acts l) (steps_act i a) IH).
Qed.

Lemma steps_deferred i ls : steps i (fun w => foldl (fun w l => acts l w) w ls).
Proof.
  induction ls as [|l ls IH]; [apply steps_id|].
  exact (steps_comp i (acts l) (fun w => foldl (fun w l => acts l w) w ls) (steps_acts i l) IH).
Qed.

Lemma steps_hand_over i : steps i hand_over.
Proof.
  intros s. unfold Bridge.hand_over. cbn [fst snd]. destruct (streaming (send_headers header_lines s)).
  - case_bool_decide.
    + eexists _, stream_end. split; [apply tame_end|done].
    + eexists _, (fun b => stream_end (stream_chunk gone _ b)). split; [|done].
      apply (tame_comp i (stream_chunk _ _) stream_end); [apply tame_chunk|apply tame_end].
  - eexists _, (reply _ _ _). split; [apply tame_reply|done].
Qed.

Lemma steps_reset i : steps i reset.
Proof.
  intros s. unfold worker_reset_response. destruct (steps_end_all i s) as (s' & f & Hf & Ef).
  eexists _, f. split; [done|]. intros b. by rewrite Ef.
Qed.

(** ** The worker's own state *)

(** A worker is tidy when the reset before the next request will not flush. *)
Definition quiet s : Prop := held s = [] \/ implicit s = false \/ streaming s = true.

Definition goes_on x : bool := match finish x with Fatal _ => false | _ => negb (leaves x) end.

(** What a worker is left as by a request that was not the last. *)
Definition left_behind x : Shim := (handle_request x (boot, mkBridge [] None None ∅ false)).2.1.
Definition tidy x : Prop := quiet (left_behind x).

Lemma reset_quiet s b : quiet s -> stream b = None -> reset (s, b) = (boot, b).
Proof.
  intros Hq Hs. unfold worker_reset_response, Bridge.end_all, Bridge.ub_write. cbn [fst snd].
  case_bool_decide as Hh; [done|]. set (s1 := send_headers _ _).
  assert (implicit s1 = implicit s /\ streaming s1 = streaming s) as [Ei Est].
  { unfold s1, send_headers. by destruct (sent _). }
  destruct Hq as [?|[Hq|Hq]]; [done|by rewrite Ei, Hq|]. destruct (implicit s1); [|done].
  unfold Bridge.askr_flush. cbn [set_out streaming out]. rewrite Est, Hq. case_bool_decide; [done|].
  cbn [snd]. unfold stream_chunk. by rewrite Hs.
Qed.

Lemma handle_goes_on x w : (handle_request x w).1 = goes_on x.
Proof. unfold Bridge.handle_request, goes_on. destruct (finish x); try done; by destruct (leaves x). Qed.

(** The end of a request: the response, and what was deferred. *)
Definition respond x (g : Shim -> Shim) (w : Shim * Bridge) : Shim * Bridge :=
  let w := foldl (fun w l => acts l w) (hand_over (g w.1, w.2)) (deferred x) in
  if leaves x then end_all w else w.
Definition on_finish (f : Finish) (s : Shim) : Shim := match f with Threw => fail_500 s | _ => s end.

Definition handled x (w : Shim * Bridge) : Shim * Bridge :=
  let w := acts (handler x) (reset w) in
  match finish x with Fatal td => end_all (acts td w) | f => respond x (on_finish f) w end.

Lemma handle_request_eq x w : (handle_request x w).2 = handled x w.
Proof.
  unfold handled, Bridge.handle_request, respond. destruct (acts (handler x) (reset w)) as [s b].
  destruct (finish x); try done; by destruct (leaves x).
Qed.

Lemma steps_respond i x g : steps i (respond x g).
Proof.
  pose proof (steps_comp i _ _ (steps_pure i g) (steps_comp i _ _ (steps_hand_over i) (steps_deferred i (deferred x)))) as H.
  unfold respond. destruct (leaves x); [|done]. apply (steps_comp i _ _ H (steps_end_all i)).
Qed.

Lemma steps_handle i x : steps i (fun w => (handle_request x w).2).
Proof.
  pose proof (steps_comp i _ _ (steps_reset i) (steps_acts i (handler x))) as H1.
  apply (steps_ext i (handled x)); [intros s b; by rewrite handle_request_eq|]. unfold handled.
  destruct (finish x) as [| | |td]; try apply (steps_comp i _ _ H1 (steps_respond i x _)).
  apply (steps_comp i _ _ (steps_comp i _ _ H1 (steps_acts i td)) (steps_end_all i)).
Qed.

(** *** A request whose response was handed over leaves nothing behind *)

(** While the handler runs, a body was begun exactly when the sender was used. *)
Definition in_step (i : nat) (w : Shim * Bridge) : Prop :=
  streaming w.1 = false /\ pending w.2 = Some i /\ stream w.2 = None \/ streaming w.1 = true /\ pending w.2 = None.

Lemma send_headers_streaming s : streaming (send_headers header_lines s) = streaming s.
Proof. unfold send_headers. by destruct (sent s). Qed.

Lemma chunk_pending c b : pending (stream_chunk gone c b) = pending b.
Proof.
  unfold stream_chunk. destruct (stream b) as [k|]; [|done].
  destruct (answers b !! k) as [[ | ? ? ? [| | |]| ]|]; try done. by destruct (gone k _).
Qed.

Lemma in_step_flush i w : in_step i w -> in_step i (askr_flush w).
Proof.
  destruct w as [s b]. unfold in_step, Bridge.askr_flush. cbn [fst snd].
  destruct (streaming s) eqn:Es; intros [(? & Hp & Hs)|[? Hp]]; try done; right.
  - case_bool_decide; [done|]. cbn [fst snd set_out streaming]. by rewrite chunk_pending.
  - cbn [out]. unfold stream_begin. rewrite Hp. case_bool_decide; [done|]. cbn [fst snd set_out streaming].
    by rewrite chunk_pending.
Qed.

Lemma in_step_write i d w : in_step i w -> in_step i (ub_write d w).
Proof.
  destruct w as [s b]. intros H. unfold Bridge.ub_write. case_bool_decide; [done|]. cbn [fst snd].
  assert (in_step i (set_out (send_headers header_lines s) (out (send_headers header_lines s) ++ d), b)) as H'.
  { unfold in_step in *. cbn [fst snd set_out streaming] in *. by rewrite send_headers_streaming. }
  destruct (implicit _); [by apply in_step_flush|done].
Qed.

Lemma in_step_act i a w : in_step i w -> in_step i (act w a).
Proof.
  destruct w as [s b]. intros H. destruct a; cbn [Bridge.act]; try done.
  - by apply in_step_write.
  - by apply (in_step_write i (held s) (set_held s [], b)).
  - by apply in_step_flush.
  - by destruct (sent s).
  - by destruct (sent s).
Qed.

Lemma in_step_acts i l w : in_step i w -> in_step i (acts l w).
Proof. revert w. induction l as [|a l IH]; intros w H; [done|]. by apply IH, in_step_act. Qed.

Lemma hand_over_idle i w : in_step i w -> idle (hand_over w).2.
Proof.
  destruct w as [s b]. unfold in_step, Bridge.hand_over, idle. cbn [fst snd]. rewrite send_headers_streaming.
  intros [(-> & Hp & Hs)|[-> Hp]]; cbn [snd].
  - unfold reply. by rewrite Hp.
  - cbn. split; [|done]. case_bool_decide; [done|by rewrite chunk_pending].
Qed.

Lemma idle_steps F s b : (forall i, steps i F) -> idle b -> (F (s, b)).2 = b.
Proof. intros HF H. destruct (HF 0%nat s) as (s' & f & Hf & ->). by apply (t_idle 0 f Hf). Qed.

Lemma respond_idle i x g w : (forall s, streaming (g s) = streaming s) -> in_step i w -> idle (respond x g w).2.
Proof.
  intros Hg H. unfold respond.
  assert (idle (hand_over (g w.1, w.2)).2) as Hi.
  { apply (hand_over_idle i). unfold in_step in *. cbn [fst snd]. by rewrite Hg. }
  destruct (hand_over (g w.1, w.2)) as [s b]. cbn in Hi.
  pose proof (idle_steps (fun w => foldl (fun w l => acts l w) w (deferred x)) s b (fun i => steps_deferred i _) Hi) as E.
  cbn beta in E. destruct (foldl _ (s, b) (deferred x)) as [s' b']. cbn in E. subst b'.
  destruct (leaves x); [|done]. by rewrite (idle_steps end_all s' b (fun i => steps_end_all i) Hi).
Qed.

Lemma handled_idle i x s b :
  quiet s -> pending b = Some i -> stream b = None -> (forall td, finish x <> Fatal td) ->
  idle (handle_request x (s, b)).2.2.
Proof.
  intros Hq Hp Hs Hf. rewrite handle_request_eq. unfold handled. rewrite reset_quiet by done.
  assert (in_step i (acts (handler x) (boot, b))) as H by (apply in_step_acts; by left).
  destruct (finish x) as [| | |td] eqn:E; [| | |by destruct (Hf td)]; by apply (respond_idle i).
Qed.

(** ** The loop *)

Lemma loop_covered does fuel s b js :
  (length (rx b) < fuel)%nat -> covered js b ->
  exists js', (forall j, j ∈ js \/ j ∈ rx b -> j ∈ js' \/ j ∈ rx (script_loop fuel does (s, b)).2) /\
    covered js' (script_loop fuel does (s, b)).2.
Proof.
  revert s b js. induction fuel as [|fuel IH]; intros s b js Hl Hc; [lia|]. cbn [Bridge.script_loop].
  destruct (rx b) as [|i rx'] eqn:Er.
  - unfold wait. rewrite Er. set (b1 := mkBridge _ _ _ _ _).
    destruct (steps_end_all 0 s) as (s' & f & Hf & Ef). rewrite Ef. exists js. split.
    + intros j [?|?%not_elem_of_nil]; [by left|done].
    + by apply (t_covered 0 f Hf).
  - destruct (covered_wait js b i rx' Er Hc) as (Hc' & E1 & E2). destruct (wait b) as [ok b1]. cbn in Hc', E1, E2. subst ok.
    destruct (steps_handle i (does i) s) as (s' & f & Hf & Ef). specialize (Ef b1).
    destruct (handle_request (does i) (s, b1)) as [on w]. cbn in Ef. subst w.
    pose proof (t_covered i f Hf _ _ Hc') as Hc2. pose proof (t_rx i f Hf b1) as Er2. rewrite E2 in Er2.
    assert (forall j, j ∈ js \/ j ∈ i :: rx' -> j ∈ i :: js \/ j ∈ rx (f b1)) as Hj.
    { intros j. rewrite Er2, !elem_of_cons. tauto. }
    destruct on; [|by exists (i :: js)].
    destruct (IH s' (f b1) (i :: js)) as (js' & H1 & H2); [rewrite Er2; cbn in Hl; lia|done|].
    exists js'. split; [|done]. intros j Hin. apply H1. by apply Hj.
Qed.

Lemma dropped_all l (m : gmap nat Answer) j :
  (j ∈ l \/ exists a, m !! j = Some a /\ settled a) ->
  exists a, foldl (fun m i => drop_reply (Some i) m) m l !! j = Some a /\ settled a.
Proof.
  revert m. induction l as [|i l IH]; intros m H; cbn [foldl].
  { destruct H as [?%not_elem_of_nil|?]; done. }
  apply IH. destruct (decide (i = j)) as [->|Hij].
  - right. cbn. rewrite lookup_insert_eq. by eexists.
  - destruct H as [[->|?]%elem_of_cons|(a & Ea & ?)]; [done|by left|right]. exists a. cbn. by rewrite lookup_insert_ne.
Qed.

Lemma failed_all b js j :
  covered js b -> j ∈ js ->
  exists a, end_body Aborted (stream b)
    (match pending b with Some i => <[i := Failed DIED]> (answers b) | None => answers b end) !! j = Some a /\ settled a.
Proof.
  intros Hc Hj. destruct (Hc j Hj) as [Hp|(a & Ea & Ha)].
  - rewrite Hp. apply (settled_end_body Aborted _ _ _ (Failed DIED)); [done|by rewrite lookup_insert_eq|by left].
  - destruct (pending b) as [k|]; [|by apply (settled_end_body Aborted _ _ _ a)].
    destruct (decide (k = j)) as [->|Hk].
    + apply (settled_end_body Aborted _ _ _ (Failed DIED)); [done|by rewrite lookup_insert_eq|by left].
    + apply (settled_end_body Aborted _ _ _ a); [done|by rewrite lookup_insert_ne|done].
Qed.

Lemma after_loop_settles draining b js j :
  covered js b -> j ∈ js \/ j ∈ rx b ->
  (exists a, answers (after_loop draining b) !! j = Some a /\ settled a) \/
  draining = false /\ j ∈ rx b /\ rx (after_loop draining b) = rx b.
Proof.
  intros Hc Hj. unfold after_loop. destruct draining; cbn [exit_code answers rx].
  - left. apply dropped_all. destruct Hj as [Hj|Hj]; [right; by eapply failed_all|by left].
  - destruct Hj as [Hj|Hj]; [left; by eapply failed_all|by right].
Qed.

(** The loop stops before the channel is empty only when a request ends it. *)
Lemma loop_rest does fuel s b :
  (length (rx b) < fuel)%nat ->
  rx (script_loop fuel does (s, b)).2 = [] \/
  exists pre j post, rx b = pre ++ j :: post /\ goes_on (does j) = false /\ rx (script_loop fuel does (s, b)).2 = post.
Proof.
  revert s b. induction fuel as [|fuel IH]; intros s b Hl; [lia|]. cbn [Bridge.script_loop].
  destruct (rx b) as [|j rx'] eqn:Er; unfold wait; rewrite Er.
  - destruct (steps_end_all 0 s) as (s' & f & Hf & ->). left. exact (t_rx 0 f Hf _).
  - set (b1 := mkBridge rx' _ _ _ _). pose proof (handle_goes_on (does j) (s, b1)) as Eg.
    destruct (steps_handle j (does j) s) as (s' & f & Hf & Ef). specialize (Ef b1).
    destruct (handle_request (does j) (s, b1)) as [on w]. cbn in Ef, Eg. subst w.
    pose proof (t_rx j f Hf b1 : rx (f b1) = rx') as Er2.
    destruct on; [|right; exists [], j, rx'; done].
    destruct (IH s' (f b1)) as [E|(pre & k & post & E1 & E2 & E3)]; [rewrite Er2; cbn in Hl; lia|by left|].
    right. exists (j :: pre), k, post. cbn. by rewrite <- E1, Er2.
Qed.

(** C16.  Everybody is answered.  Whatever the application does -- with this request or another, however
    it ends, and whatever it leaves in PHP's buffers -- each request that was sent to a worker has
    an answer when the worker is gone: a response, a body that has ended, or a failure.  The
    exception is a request that waits in the channel behind one that ends the script, when the
    server is not draining: the process exits, and that client is told nothing. *)
Theorem everyone_answered booting does draining jobs i :
  i ∈ jobs ->
  (exists a, answers (spawn_worker booting does draining jobs) !! i = Some a /\ settled a) \/
  (draining = false /\ i ∈ rx (spawn_worker booting does draining jobs) /\
   exists pre j post, jobs = pre ++ j :: post /\ goes_on (does j) = false /\ i ∈ post).
Proof.
  intros Hi. unfold Bridge.spawn_worker. cbn zeta. set (b0 := mkBridge jobs None None ∅ false).
  destruct (steps_acts 0 booting boot) as (s & f & Hf & ->). rewrite (t_idle 0 f Hf) by done.
  destruct (loop_covered does (S (length jobs)) s b0 []) as (js & H1 & H2); [cbn; lia|by intros j ?%not_elem_of_nil|].
  destruct (after_loop_settles draining _ js i H2) as [H|(H & Hr & E)]; [apply H1; by right|by left|right].
  split; [done|]. rewrite E. split; [done|].
  destruct (loop_rest does (S (length jobs)) s b0) as [E0|(pre & j & post & ? & ? & Er)]; [cbn; lia| |].
  - rewrite E0 in Hr. by apply not_elem_of_nil in Hr.
  - rewrite Er in Hr. by exists pre, j, post.
Qed.

(** ** Isolation *)

(** The bridge is busy with another request, if with any, and [i] is not waiting. *)
Definition elsewhere (i : nat) b : Prop :=
  (i ∉ rx b) /\ exists k, k <> i /\ own k (pending b) /\ own k (stream b).

Lemma drop_reply_other o (m : gmap nat Answer) k i : own k o -> k <> i -> drop_reply o m !! i = m !! i.
Proof. intros [->| ->] Hk; [done|]. cbn. by rewrite lookup_insert_ne. Qed.

Lemma idle_elsewhere i b : i ∉ rx b -> idle b -> elsewhere i b.
Proof. intros Hr [Hp Hs]. split; [done|]. exists (S i). split; [lia|]. split; owned. Qed.

Lemma elsewhere_steps i k f b :
  tame k f -> k <> i -> i ∉ rx b -> own k (pending b) -> own k (stream b) ->
  elsewhere i (f b) /\ answers (f b) !! i = answers b !! i.
Proof.
  intros Hf Hk Hr Hp Hs. destruct (t_only k f Hf b Hp Hs) as [E [? ?] Ho]. split; [|by apply Ho].
  split; [by rewrite E|]. by exists k.
Qed.

(** Serving others changes nothing for [i]. *)
Lemma loop_others does i fuel s b :
  elsewhere i b ->
  elsewhere i (script_loop fuel does (s, b)).2 /\ answers (script_loop fuel does (s, b)).2 !! i = answers b !! i.
Proof.
  revert s b. induction fuel as [|fuel IH]; intros s b (Hr & k & Hk & Hp & Hs); [split; [split; eauto|done]|].
  cbn [Bridge.script_loop]. destruct (rx b) as [|j rx'] eqn:Er; unfold wait; rewrite Er.
  - set (b1 := mkBridge _ _ _ _ _). destruct (steps_end_all k s) as (s' & f & Hf & ->).
    exact (elsewhere_steps i k f b1 Hf Hk (not_elem_of_nil _) Hp Hs).
  - apply not_elem_of_cons in Hr as [Hij Hr]. set (b1 := mkBridge _ _ _ _ _).
    assert (answers b1 !! i = answers b !! i) as E1.
    { cbn. rewrite (end_body_other _ _ _ k) by done. by apply (drop_reply_other _ _ k). }
    destruct (steps_handle j (does j) s) as (s' & f & Hf & Ef). specialize (Ef b1).
    destruct (handle_request (does j) (s, b1)) as [on w]. cbn in Ef. subst w.
    destruct (elsewhere_steps i j f b1 Hf) as [He Ea]; [done|done|by right|by left|].
    rewrite <- E1, <- Ea. destruct on; [|done]. by apply IH.
Qed.

Lemma dropped_other l (m : gmap nat Answer) i :
  (i ∉ l) -> foldl (fun m j => drop_reply (Some j) m) m l !! i = m !! i.
Proof.
  revert m. induction l as [|j l IH]; intros m; [done|]. intros [? ?]%not_elem_of_cons. cbn [foldl].
  rewrite IH by done. cbn. by rewrite lookup_insert_ne.
Qed.

(** What the end of the thread makes of the answer of a request that was taken. *)
Lemma after_loop_taken draining i b :
  (i ∉ rx b) ->
  answers (after_loop draining b) !! i =
  end_body Aborted (stream b)
    (match pending b with Some i => <[i := Failed DIED]> (answers b) | None => answers b end) !! i.
Proof. intros Hr. unfold after_loop. destruct draining; cbn [exit_code answers]; [by apply dropped_other|done]. Qed.

Lemma after_loop_elsewhere draining i b : elsewhere i b -> answers (after_loop draining b) !! i = answers b !! i.
Proof.
  intros (Hr & k & Hk & Hp & Hs). rewrite after_loop_taken, (end_body_other _ _ _ k) by done.
  destruct Hp as [->| ->]; [done|]. by rewrite lookup_insert_ne.
Qed.

Lemma after_loop_agree draining i b1 b2 :
  agree i b1 b2 -> (i ∉ rx b1) -> (i ∉ rx b2) -> answers (after_loop draining b1) !! i = answers (after_loop draining b2) !! i.
Proof.
  intros [Hp Hs [Hop Hos] Ha] H1 H2. rewrite !after_loop_taken by done. rewrite <- Hp, <- Hs.
  apply end_body_same; [done|]. destruct Hop as [->| ->]; [done|]. by rewrite !lookup_insert_eq.
Qed.

(** A worker that has served tidily treats the next request as a new one would. *)
Lemma handle_boot x s b : quiet s -> stream b = None -> handle_request x (s, b) = handle_request x (boot, b).
Proof.
  intros Hq Hs. apply injective_projections; [by rewrite !handle_goes_on|]. rewrite !handle_request_eq. unfold handled.
  rewrite reset_quiet by done. by rewrite reset_quiet by (done || by left).
Qed.

Lemma handle_left x b : (handle_request x (boot, b)).2.1 = left_behind x.
Proof.
  unfold left_behind. destruct (steps_handle 0 x boot) as (s' & f & _ & Ef). by rewrite !Ef.
Qed.

Lemma goes_on_not_fatal x : goes_on x = true -> forall td, finish x <> Fatal td.
Proof. unfold goes_on. intros H td E. by rewrite E in H. Qed.

Lemma loop_prefix does pre i post fuel s b :
  NoDup (pre ++ i :: post) -> Forall (fun j => goes_on (does j) = true /\ tidy (does j)) pre ->
  (length (pre ++ i :: post) < fuel)%nat -> quiet s -> idle b -> rx b = pre ++ i :: post -> answers b !! i = None ->
  exists fuel' s' b', script_loop fuel does (s, b) = script_loop fuel' does (s', b') /\
    (length (i :: post) < fuel')%nat /\ quiet s' /\ idle b' /\ rx b' = i :: post /\ answers b' !! i = None.
Proof.
  intros Hn Hpre. revert s b fuel Hn. induction Hpre as [|j pre [Hg Ht] _ IH]; intros s b fuel Hn Hl Hq [Hp Hs] Er Ea.
  { exists fuel, s, b. done. }
  cbn [app length] in *. apply NoDup_cons in Hn as [Hj Hn].
  destruct fuel as [|fuel]; [lia|]. cbn [Bridge.script_loop]. unfold wait. rewrite Er, Hp, Hs. set (b1 := mkBridge _ _ _ _ _).
  rewrite handle_boot by done. pose proof (handle_goes_on (does j) (boot, b1)) as Eg. rewrite Hg in Eg.
  pose proof (handled_idle j (does j) boot b1 (or_introl eq_refl) eq_refl eq_refl (goes_on_not_fatal _ Hg)) as Hidle.
  pose proof (handle_left (does j) b1) as El.
  destruct (steps_handle j (does j) boot) as (s' & f & Hf & Ef). specialize (Ef b1).
  destruct (t_only j f Hf b1) as [Erx _ Hoth]; [by right|by left|].
  destruct (handle_request (does j) (boot, b1)) as [on w]. cbn [fst snd] in *. subst on w. cbn [fst snd] in *. subst s'.
  apply IH; [done|lia|done|done|by rewrite Erx|].
  rewrite Hoth; [done|]. intros ->. apply Hj. apply elem_of_app. right. by left.
Qed.
(** What the client of [i] gets from a worker that does nothing else. *)
Definition served draining i x : option Answer :=
  answers (after_loop draining (handle_request x (boot, mkBridge [] (Some i) None ∅ false)).2.2) !! i.

Lemma loop_serves draining does i post fuel s b :
  (i ∉ post) -> (length (i :: post) < fuel)%nat -> quiet s -> idle b -> rx b = i :: post -> answers b !! i = None ->
  answers (after_loop draining (script_loop fuel does (s, b)).2) !! i = served draining i (does i).
Proof.
  intros Hi Hl Hq [Hp Hs] Er Ea. destruct fuel as [|fuel]; [lia|]. cbn [Bridge.script_loop]. unfold wait, served.
  rewrite Er, Hp, Hs. set (b1 := mkBridge post _ _ _ _). set (b2 := mkBridge [] (Some i) _ _ false).
  rewrite handle_boot by done.
  assert (agree i b1 b2) as Hag by (split; cbn; [done|done|split; owned|by rewrite Ea]).
  pose proof (handle_goes_on (does i) (boot, b1)) as Eg.
  assert (goes_on (does i) = true -> idle (handle_request (does i) (boot, b1)).2.2 /\
    idle (handle_request (does i) (boot, b2)).2.2) as Hidle.
  { intros Hg. split; apply (handled_idle i); try done; try (by left); by apply goes_on_not_fatal. }
  destruct (steps_handle i (does i) boot) as (s' & f & Hf & Ef). rewrite (Ef b2) in *. specialize (Ef b1).
  destruct (handle_request (does i) (boot, b1)) as [on w]. cbn [fst snd] in *. subst w on. cbn [snd] in *.
  apply (t_agree i f Hf) in Hag.
  assert (rx (f b1) = post) as E1 by apply (t_rx i f Hf b1).
  assert (rx (f b2) = []) as E2 by apply (t_rx i f Hf b2).
  assert (i ∉ rx (f b2)) as Hr2 by (rewrite E2; apply not_elem_of_nil).
  assert (i ∉ rx (f b1)) as Hr1 by by rewrite E1.
  destruct (goes_on (does i)); [|by apply after_loop_agree].
  destruct (Hidle eq_refl) as [H1 H2].
  destruct (loop_others does i fuel s' (f b1)) as [He El]; [by apply idle_elsewhere|].
  rewrite after_loop_elsewhere, El, after_loop_elsewhere by (done || by apply idle_elsewhere). apply Hag.
Qed.

Lemma worker_serves booting does draining pre i post :
  NoDup (pre ++ i :: post) -> quiet (acts booting (boot, mkBridge [] None None ∅ false)).1 ->
  Forall (fun j => goes_on (does j) = true /\ tidy (does j)) pre ->
  answers (spawn_worker booting does draining (pre ++ i :: post)) !! i = served draining i (does i).
Proof.
  intros Hn Hq Hpre. unfold Bridge.spawn_worker. cbn zeta.
  destruct (steps_acts 0 booting boot) as (s & f & Hf & Ef). rewrite Ef in *. rewrite (t_idle 0 f Hf) by done. cbn in Hq.
  destruct (loop_prefix does pre i post (S (length (pre ++ i :: post))) s (mkBridge (pre ++ i :: post) None None ∅ false))
    as (fuel & s' & b' & -> & ? & ? & ? & ? & ?); try done; [lia|].
  apply (loop_serves draining does i post); try done.
  apply NoDup_app in Hn as (_ & _ & Hn). by apply NoDup_cons in Hn as [? _].
Qed.

(** C15.  One application, many clients: what a client gets depends on its own request only.  When the
    requests before it returned and left no output buffer that implicit flushing would send, the
    answer is, byte for byte, that of a worker that has just booted and serves nothing else --
    whatever the other requests did, and however those after it end. *)
Theorem own_answer booting does draining pre i post :
  NoDup (pre ++ i :: post) -> quiet (acts booting (boot, mkBridge [] None None ∅ false)).1 ->
  Forall (fun j => goes_on (does j) = true /\ tidy (does j)) pre ->
  answers (spawn_worker booting does draining (pre ++ i :: post)) !! i =
  answers (spawn_worker [] does draining [i]) !! i.
Proof.
  intros Hn Hq Hpre. rewrite (worker_serves booting does draining pre i post) by done. symmetry.
  apply (worker_serves [] does draining [] i []); [apply NoDup_singleton|by left|done].
Qed.
(** ** The whole answer

    What a handler says, whatever way it is sent: the output that left PHP's buffers, and the
    status and header lines as they were when the first of it did. *)
Record Page := mkPage { p_held : bytes; p_out : bytes; p_sent : bool; p_code : Z; p_lines : list bytes }.

Definition p_write (d : bytes) (p : Page) : Page :=
  if bool_decide (d = []) then p else mkPage (p_held p) (p_out p ++ d) true (p_code p) (p_lines p).
Definition p_hold (h : bytes) (p : Page) : Page := mkPage h (p_out p) (p_sent p) (p_code p) (p_lines p).

Definition page_act (p : Page) (a : Act) : Page :=
  match a with
  | Write d => p_write d p
  | Hold d => p_hold (p_held p ++ d) p
  | Release => p_write (p_held p) (p_hold [] p)
  | Discard => p_hold [] p
  | Flush => mkPage (p_held p) (p_out p) true (p_code p) (p_lines p)
  | Implicit _ => p
  | Header l => if p_sent p then p else mkPage (p_held p) (p_out p) false (p_code p) (header_set (p_lines p) l)
  | Status z => if p_sent p then p else mkPage (p_held p) (p_out p) false z (p_lines p)
  end.
Definition page (l : list Act) : Page := foldl page_act (mkPage [] [] false 200 []) l.

Definition block (ls : list bytes) : bytes := header_lines ls ≫= fun l => l ++ [13; 10].
Definition p_status (p : Page) : Z := as_u16 (if p_code p =? 0 then 200 else p_code p).
Definition p_headers (p : Page) : list (bytes * bytes) := parse_headers (block (p_lines p)).

Record reads s (p : Page) : Prop := {
  rd_held : held s = p_held p; rd_sent : sent s = p_sent p; rd_code : code s = p_code p;
  rd_lines : lines s = p_lines p; rd_hdr : hdr s = if p_sent p then block (p_lines p) else [] }.

(** While the handler of [i] runs: what it has said is in the shim's buffer, or part of it is with
    the client. *)
Inductive shows (i : nat) : Shim * Bridge -> Page -> Prop :=
| shows_waiting s b p :
    reads s p -> streaming s = false -> out s = p_out p -> pending b = Some i -> stream b = None ->
    shows i (s, b) p
| shows_begun s b p cs :
    reads s p -> streaming s = true -> p_sent p = true -> pending b = None -> stream b = Some i ->
    answers b !! i = Some (Stream (p_status p) (p_headers p) cs Going) -> concat cs ++ out s = p_out p ->
    shows i (s, b) p.

Definition p_commit (p : Page) : Page := mkPage (p_held p) (p_out p) true (p_code p) (p_lines p).

Lemma reads_headers s p : reads s p -> reads (send_headers header_lines s) (p_commit p) /\ out (send_headers header_lines s) = out s.
Proof.
  intros [H1 H2 H3 H4 H5]. unfold send_headers. destruct (sent s) eqn:E.
  - rewrite <- H2 in H5. split; [|done]. by split.
  - split; [|done]. rewrite <- H2 in H5. split; try done. cbn. by rewrite H5, H4.
Qed.

Lemma as_u16_status s p : reads s p -> as_u16 (status_of s) = p_status p.
Proof. intros H. unfold status_of, p_status. by rewrite (rd_code s p H). Qed.

Section Patient.
Context (i : nat) (Hgone : forall n, gone i n = false).

(** Whatever is held goes to the client in order. *)
Lemma shows_chunk s b p cs :
  reads s p -> streaming s = true -> p_sent p = true -> pending b = None -> stream b = Some i ->
  answers b !! i = Some (Stream (p_status p) (p_headers p) cs Going) -> concat cs ++ out s = p_out p ->
  shows i (if bool_decide (out s = []) then (s, b) else (set_out s [], stream_chunk gone (out s) b)) p.
Proof.
  intros H1 H2 H3 H4 H5 H6 H7. case_bool_decide; [by eapply shows_begun|]. unfold stream_chunk.
  rewrite H5, H6, Hgone. apply (shows_begun _ _ _ _ (cs ++ [out s])); cbn; try done.
  - by destruct H1.
  - by rewrite lookup_insert_eq.
  - rewrite concat_app. cbn. by rewrite !app_nil_r.
Qed.

Lemma shows_flush w p : shows i w p -> shows i (askr_flush w) (p_commit p).
Proof.
  intros H. unfold Bridge.askr_flush. destruct H as [s b p Hr Hs Ho Hp Hst|s b p cs Hr Hs Hc Hp Hst Ha Ho].
  - rewrite Hs. destruct (reads_headers s p Hr) as [Hr' Eo]. set (s1 := send_headers header_lines s) in *.
    set (s2 := mkShim (out s1) (hdr s1) true _ _ _ _ _).
    apply (shows_chunk s2 _ (p_commit p) []); unfold stream_begin; rewrite ?Hp; cbn; try done.
    + by destruct Hr'.
    + rewrite lookup_insert_eq. do 2 f_equal; [exact (as_u16_status s1 (p_commit p) Hr')|].
      by rewrite (rd_hdr _ _ Hr').
    + by rewrite Eo.
  - rewrite Hs. destruct p as [ph po psent pc pl]. cbn in Hc. subst psent. by apply (shows_chunk s b _ cs).
Qed.

Lemma shows_write d w p : shows i w p -> shows i (ub_write d w) (p_write d p).
Proof.
  intros H. unfold Bridge.ub_write, p_write. case_bool_decide; [done|]. set (p' := mkPage _ _ _ _ _).
  assert (shows i (set_out (send_headers header_lines w.1) (out (send_headers header_lines w.1) ++ d), w.2) p') as H'.
  { destruct H as [s b p Hr Hs Ho Hp Hst|s b p cs Hr Hs Hc Hp Hst Ha Ho]; cbn [fst snd];
      destruct (reads_headers s p Hr) as [Hr' Eo]; rewrite Eo.
    - apply shows_waiting; cbn; try done; [by destruct Hr'|by rewrite send_headers_streaming|by rewrite Ho].
    - apply (shows_begun _ _ _ _ cs); cbn; try done; [by destruct Hr'|by rewrite send_headers_streaming|].
      by rewrite <- Ho, app_assoc. }
  destruct (implicit _); [|done]. by apply (shows_flush _ p').
Qed.

Lemma shows_said w p s' p' :
  shows i w p -> reads s' p' -> streaming s' = streaming w.1 -> out s' = out w.1 -> p_out p' = p_out p ->
  (p_sent p = true -> p_sent p' = true /\ p_code p' = p_code p /\ p_lines p' = p_lines p) ->
  shows i (s', w.2) p'.
Proof.
  intros H Hr' Es Eo Ep Hc'. destruct H as [s b p Hr Hs Ho Hp Hst|s b p cs Hr Hs Hc Hp Hst Ha Ho]; cbn [fst snd] in *.
  - apply shows_waiting; [done|congruence..].
  - destruct (Hc' Hc) as (? & Ec & El). apply (shows_begun _ _ _ _ cs); try congruence.
    unfold p_status, p_headers in *. by rewrite Ec, El.
Qed.

Lemma shows_reads w p : shows i w p -> reads w.1 p.
Proof. by intros []. Qed.

Lemma shows_act w p a : shows i w p -> shows i (act w a) (page_act p a).
Proof.
  intros H. pose proof (shows_reads w p H) as Hr. destruct Hr as [Hh Hse Hc Hl Hb]. destruct w as [s b]. cbn [fst] in *.
  destruct a as [d|d| | | |on|l|z]; cbn [Bridge.act page_act].
  - by apply shows_write.
  - apply (shows_said (s, b) p); [done| |done..]. split; cbn; congruence.
  - rewrite <- Hh. apply shows_write. apply (shows_said (s, b) p); [done| |done..]. by split.
  - apply (shows_said (s, b) p); [done| |done..]. by split.
  - by apply shows_flush.
  - apply (shows_said (s, b) p); [done| |done..]. by split.
  - rewrite Hse. destruct (p_sent p) eqn:E; [done|].
    apply (shows_said (s, b) p); [done| |done|done|done|congruence]. split; cbn; congruence.
  - rewrite Hse. destruct (p_sent p) eqn:E; [done|].
    apply (shows_said (s, b) p); [done| |done|done|done|congruence]. split; cbn; congruence.
Qed.

Lemma shows_acts l w p : shows i w p -> shows i (acts l w) (foldl page_act p l).
Proof. revert w p. induction l as [|a l IH]; intros w p H; [done|]. by apply IH, shows_act. Qed.

Lemma shows_boot l m : shows i (acts l (boot, mkBridge [] (Some i) None m false)) (page l).
Proof. apply shows_acts. by apply shows_waiting. Qed.

(** What the client has when the handler has ended. *)
Definition whole (z : Z) (h : list (bytes * bytes)) (body : bytes) (a : Answer) : Prop :=
  a = Buffered z h body \/ exists cs, a = Stream z h cs Closed /\ concat cs = body.
(** A part of it, the body aborted; or a failure. *)
Definition cut (z : Z) (h : list (bytes * bytes)) (body : bytes) (a : Answer) : Prop :=
  a = Failed DIED \/ exists cs, a = Stream z h cs Aborted /\ concat cs `prefix_of` body.

Lemma end_body_whole e z h cs (m : gmap nat Answer) :
  m !! i = Some (Stream z h cs Going) -> end_body e (Some i) m !! i = Some (Stream z h cs e).
Proof. intros E. cbn. by rewrite lookup_alter_eq, E. Qed.

Lemma hand_over_whole w p :
  shows i w p -> exists a, answers (hand_over w).2 !! i = Some a /\ whole (p_status p) (p_headers p) (p_out p) a.
Proof.
  intros H. unfold Bridge.hand_over. destruct H as [s b p Hr Hs Ho Hp Hst|s b p cs Hr Hs Hc Hp Hst Ha Ho];
    cbn [fst snd]; rewrite send_headers_streaming, Hs; destruct (reads_headers s p Hr) as [Hr' Eo]; rewrite Eo; cbn [snd].
  - unfold reply. rewrite Hp. cbn. rewrite lookup_insert_eq. eexists. split; [done|]. left. f_equal; [| |done].
    + exact (as_u16_status _ _ Hr').
    + by rewrite (rd_hdr _ _ Hr').
  - pose proof (shows_chunk s b p cs Hr Hs Hc Hp Hst Ha Ho) as H.
    exists (Stream (p_status p) (p_headers p) (if bool_decide (out s = []) then cs else cs ++ [out s]) Closed).
    unfold stream_end. cbn [answers]. case_bool_decide as E.
    + rewrite Hst. split; [by apply end_body_whole|]. right. eexists. split; [done|].
      by rewrite <- Ho, E, app_nil_r.
    + unfold stream_chunk. rewrite Hst, Ha, Hgone. cbn [answers stream].
      split; [apply end_body_whole; by rewrite lookup_insert_eq|]. right. eexists. split; [done|].
      rewrite <- Ho, concat_app. cbn. by rewrite app_nil_r.
Qed.

(** A response that was handed over is what the client keeps. *)
Lemma respond_keeps draining x g w :
  (forall s, streaming (g s) = streaming s) -> in_step i w -> rx w.2 = [] ->
  answers (after_loop draining (respond x g w).2) !! i = answers (hand_over (g w.1, w.2)).2 !! i.
Proof.
  intros Hg H Hr.
  assert (idle (hand_over (g w.1, w.2)).2) as Hi.
  { apply (hand_over_idle i). unfold in_step in *. cbn [fst snd]. by rewrite Hg. }
  assert (rx (hand_over (g w.1, w.2)).2 = []) as Er.
  { destruct (steps_hand_over i (g w.1)) as (s' & f & Hf & ->). rewrite <- Hr. apply (t_rx i f Hf). }
  assert ((respond x g w).2 = (hand_over (g w.1, w.2)).2) as ->.
  { unfold respond. destruct (hand_over (g w.1, w.2)) as [s b]. cbn [snd] in *.
    pose proof (idle_steps (fun w => foldl (fun w l => acts l w) w (deferred x)) s b (fun i => steps_deferred i _) Hi) as E.
    cbn beta in E. destruct (foldl _ (s, b) (deferred x)) as [s' b']. cbn in E. subst b'.
    destruct (leaves x); [|done]. by rewrite (idle_steps end_all s' b (fun i => steps_end_all i) Hi). }
  apply after_loop_elsewhere, idle_elsewhere; [rewrite Er; apply not_elem_of_nil|done].
Qed.

(** The sender is gone, or the body, when the end of a thread meets a request that died. *)
Lemma after_loop_cut draining w p :
  shows i w p -> rx w.2 = [] ->
  exists a, answers (after_loop draining w.2) !! i = Some a /\ cut (p_status p) (p_headers p) (p_out p) a.
Proof.
  intros H Hr. rewrite after_loop_taken by (rewrite Hr; apply not_elem_of_nil).
  destruct H as [s b p ? ? Ho Hp Hst|s b p cs ? ? ? Hp Hst Ha Ho]; cbn [snd]; rewrite Hp, Hst.
  - eexists. split; [cbn; by rewrite lookup_insert_eq|by left].
  - eexists. split; [by apply end_body_whole|]. right. eexists. split; [done|]. rewrite <- Ho. by eexists.
Qed.

(** An exception that escaped the handler: what had not left the shim is thrown away. *)
Lemma threw_answer w p :
  shows i w p ->
  exists a, answers (hand_over (fail_500 w.1, w.2)).2 !! i = Some a /\
    (a = Buffered 500 (p_headers p) [] \/
     exists cs, a = Stream (p_status p) (p_headers p) cs Closed /\ concat cs `prefix_of` p_out p).
Proof.
  intros H. unfold Bridge.hand_over. destruct H as [s b p Hr Hs Ho Hp Hst|s b p cs Hr Hs Hc Hp Hst Ha Ho];
    cbn [fst snd]; rewrite send_headers_streaming; cbn [fail_500 streaming]; rewrite Hs.
  - assert (reads (fail_500 s) (mkPage (p_held p) (p_out p) (p_sent p) 500 (p_lines p))) as Hr1.
    { destruct Hr. by split. }
    destruct (reads_headers _ _ Hr1) as [Hr2 Eo]. cbn [snd]. unfold reply. rewrite Hp. cbn [answers].
    rewrite lookup_insert_eq. eexists. split; [done|]. left. rewrite Eo. f_equal.
    + exact (as_u16_status _ _ Hr2).
    + by rewrite (rd_hdr _ _ Hr2).
  - assert (out (send_headers header_lines (fail_500 s)) = []) as -> by (unfold send_headers; by destruct (sent _)).
    rewrite bool_decide_true by done. cbn [snd]. unfold stream_end. cbn [answers]. rewrite Hst. eexists. split; [by apply end_body_whole|].
    right. eexists. split; [done|]. rewrite <- Ho. by eexists.
Qed.

Lemma alone draining (does : nat -> Behaviour) :
  answers (spawn_worker [] does draining [i]) !! i = served draining i (does i).
Proof. apply (worker_serves [] does draining [] i []); [apply NoDup_singleton|by left|done]. Qed.

Lemma handled_boot_eq x m :
  handled x (boot, mkBridge [] (Some i) None m false) =
  let w := acts (handler x) (boot, mkBridge [] (Some i) None m false) in
  match finish x with Fatal td => end_all (acts td w) | f => respond x (on_finish f) w end.
Proof. unfold handled. by rewrite reset_quiet by (done || by left). Qed.

Lemma served_eq draining (does : nat -> Behaviour) :
  exists w, shows i w (page (handler (does i))) /\ in_step i w /\ rx w.2 = [] /\
    answers (spawn_worker [] does draining [i]) !! i =
    answers (after_loop draining
      (match finish (does i) with Fatal td => end_all (acts td w) | f => respond (does i) (on_finish f) w end).2) !! i.
Proof.
  exists (acts (handler (does i)) (boot, mkBridge [] (Some i) None ∅ false)). split; [apply shows_boot|].
  split; [apply in_step_acts; by left|]. split.
  - destruct (steps_acts i (handler (does i)) boot) as (s' & f & Hf & ->). apply (t_rx i f Hf).
  - rewrite alone. unfold served. by rewrite handle_request_eq, handled_boot_eq.
Qed.

Lemma ended_whole draining (does : nat -> Behaviour) :
  finish (does i) = Returned \/ finish (does i) = Exited ->
  let p := page (handler (does i)) in
  exists a, answers (spawn_worker [] does draining [i]) !! i = Some a /\ whole (p_status p) (p_headers p) (p_out p) a.
Proof.
  intros Hf. destruct (served_eq draining does) as (w & Hw & Hi & Hr & ->).
  destruct Hf as [-> | ->]; rewrite respond_keeps by done; by apply hand_over_whole; destruct w.
Qed.

(** The answer is whole, or visibly not.  A client that stays gets everything that left PHP's
    output buffers, in order, under the status and the headers as they were when the first of it
    did -- as one response, or as a body that is closed after its last byte.  If a fatal error
    ends the request the client gets a failure, or a body that is aborted; and if an exception
    escapes, a 500 without a body, or the part of the body that was already on its way. *)
Theorem answered_whole draining (does : nat -> Behaviour) :
  let p := page (handler (does i)) in
  exists a, answers (spawn_worker [] does draining [i]) !! i = Some a /\
    match finish (does i) with
    | Returned | Exited => whole (p_status p) (p_headers p) (p_out p) a
    | Threw => a = Buffered 500 (p_headers p) [] \/
               exists cs, a = Stream (p_status p) (p_headers p) cs Closed /\ concat cs `prefix_of` p_out p
    | Fatal td => let q := page (handler (does i) ++ td ++ [Release]) in cut (p_status q) (p_headers q) (p_out q) a
    end.
Proof.
  intros p. destruct (finish (does i)) as [| | |td] eqn:E.
  - apply ended_whole. by left.
  - apply ended_whole. by right.
  - destruct (served_eq draining does) as (w & Hw & Hi & Hr & ->). rewrite E, respond_keeps by done.
    by apply threw_answer.
  - destruct (served_eq draining does) as (w & Hw & Hi & Hr & ->). rewrite E.
    apply (shows_acts (td ++ [Release])) in Hw. unfold page. rewrite foldl_app.
    assert (acts (td ++ [Release]) w = end_all (acts td w)) as Er.
    { unfold Bridge.acts. rewrite foldl_app. cbn. by destruct (foldl act w td). }
    rewrite Er in Hw. apply after_loop_cut; [exact Hw|].
    destruct (steps_comp i _ _ (steps_acts i td) (steps_end_all i) w.1) as (s' & f & Hf & Ef).
    specialize (Ef w.2). destruct w as [s b]. cbn [fst snd] in *. rewrite Ef. cbn [snd]. by rewrite (t_rx i f Hf).
Qed.

(** *** The two modes *)

Record plain (w : Shim * Bridge) (p : Page) : Prop := {
  pl_reads : reads w.1 p; pl_streaming : streaming w.1 = false; pl_implicit : implicit w.1 = false;
  pl_out : out w.1 = p_out p }.

Lemma plain_write d w p : plain w p -> plain (ub_write d w) (p_write d p).
Proof.
  intros [Hr Hs Hi Ho]. unfold Bridge.ub_write, p_write. case_bool_decide; [done|].
  destruct (reads_headers w.1 p Hr) as [[? ? ? ? ?] Eo].
  assert (implicit (send_headers header_lines w.1) = false) as Ei by (unfold send_headers; by destruct (sent w.1)).
  rewrite Ei. split; cbn; [by split|by rewrite send_headers_streaming|done|by rewrite Eo, Ho].
Qed.

Lemma plain_acts l w p :
  (Flush ∉ l) -> plain w p -> plain (acts (omap unwired l) w) (foldl page_act p l).
Proof.
  revert w p. induction l as [|a l IH]; intros w p Hn H; [done|]. apply not_elem_of_cons in Hn as [Ha Hn].
  pose proof H as [[Hh Hse Hc Hl Hb] Hs Hi Ho]. destruct w as [s b]. cbn [fst] in *.
  assert (forall w', plain w' (page_act p a) -> plain (acts (omap unwired l) w') (foldl page_act (page_act p a) l)) as IH' by auto.
  destruct a as [d|d| | | |on|y|z]; cbn [omap list_omap unwired foldl]; try done.
  - by apply IH', plain_write.
  - apply IH'. cbn. split; cbn; [split; cbn; congruence|done..].
  - apply IH'. cbn. rewrite <- Hh. apply plain_write. split; cbn; [by split|done..].
  - apply IH'. cbn. split; cbn; [by split|done..].
  - by apply IH'.
  - apply IH'. cbn. rewrite Hse. destruct (p_sent p) eqn:E; [done|]. split; cbn; [split; cbn; congruence|done..].
  - apply IH'. cbn. rewrite Hse. destruct (p_sent p) eqn:E; [done|]. split; cbn; [split; cbn; congruence|done..].
Qed.

(** C36.  Worker mode answers as per-request mode does.  For a handler that does not flush, that returns
    or exits -- not one an exception escapes from -- with no output buffer open and with a status
    that is not negative, and for a client that stays, the interpreter
    that runs the request on its own and the worker that serves it say the same: the status, the
    headers, every byte of the body. *)
Theorem modes_agree draining (does : nat -> Behaviour) :
  (Flush ∉ handler (does i)) -> finish (does i) = Returned \/ finish (does i) = Exited ->
  p_held (page (handler (does i))) = [] -> 0 <= p_code (page (handler (does i))) ->
  exists z h body a, interp_handle gone header_set header_lines false true (does i) = Buffered z h body /\
    answers (spawn_worker [] does draining [i]) !! i = Some a /\ whole z h body a.
Proof.
  intros Hn Hf Hh Hc. destruct (ended_whole draining does Hf) as (a & Ea & Ha). set (p := page _) in *.
  exists (p_status p), (p_headers p), (p_out p), a. split; [|done]. unfold interp_handle.
  assert (match finish (does i) with Fatal l => omap unwired l | _ => [] end = []) as -> by (by destruct Hf as [-> | ->]).
  set (w := Bridge.acts _ _ _ (omap unwired _) _).
  assert (plain w p) as [Hr Hs Hi Ho] by (apply plain_acts; [done|by split]).
  unfold Bridge.end_all. cbn [Bridge.acts foldl]. rewrite (rd_held _ _ Hr), Hh.
  assert (reads (set_held w.1 []) p) as Hr' by (destruct Hr; split; cbn; congruence).
  unfold Bridge.ub_write. rewrite bool_decide_true by done. cbn [fst].
  destruct (reads_headers _ _ Hr') as [Hr2 Eo]. rewrite Eo. cbn [out set_held]. rewrite Ho. f_equal.
  - unfold p_status, as_u16, status_of. rewrite (rd_code _ _ Hr). f_equal. destruct (p_code p =? 0); lia.
  - by rewrite (rd_hdr _ _ Hr2).
Qed.
End Patient.
End Spec.

(** ** A worker at work *)

(** Header lines are kept in order and sent as they are; clients stay. *)
Definition keep (ls : list bytes) (l : bytes) : list bytes := ls ++ [l].
Definition sent_as_is (ls : list bytes) : list bytes := ls.
Definition stays (i n : nat) : bool := false.

(** An application: a page, an export that streams, a page that calls [exit] and a deferred
    closure, a request that runs out of memory while it streams, and a page again. *)
Definition small_page (body : bytes) : Behaviour := mkBehaviour [Header (lit "A: b"); Write body] Returned [] false.
Definition app (i : nat) : Behaviour :=
  match i with
  | 0%nat => small_page (lit "hello")
  | 1%nat => mkBehaviour [Status 201; Write (lit "a"); Flush; Write (lit "b")] Returned [] false
  | 2%nat => mkBehaviour [Write (lit "bye")] Exited [[Write (lit "mail")]] false
  | 3%nat => mkBehaviour [Write (lit "x"); Flush; Write (lit "y")] (Fatal [Write (lit "z")]) [] false
  | _ => small_page (lit "late")
  end.

Abbreviation worker := (Bridge.spawn_worker stays keep sent_as_is).
Example at_work :
  let b := worker [Write (lit "boot")] app true [0; 1; 2; 3; 4]%nat in
  answers b !! 0%nat = Some (Buffered 200 [(lit "A", lit "b")] (lit "hello")) /\
  answers b !! 1%nat = Some (Stream 201 [] [lit "a"; lit "b"] Closed) /\
  answers b !! 2%nat = Some (Buffered 200 [] (lit "bye")) /\
  answers b !! 3%nat = Some (Stream 200 [] [lit "x"] Aborted) /\
  answers b !! 4%nat = Some (Failed DROPPED).
Proof. vm_compute. done. Qed.

Lemma everyone_answered_witness :
  (4 ∈ [0; 1; 2; 3; 4])%nat /\
  ((exists a, answers (worker [] app false [0; 1; 2; 3; 4]%nat) !! 4%nat = Some a /\ settled a) \/
   (false = false /\ (4%nat ∈ rx (worker [] app false [0; 1; 2; 3; 4]%nat)) /\
    exists pre j post, [0; 1; 2; 3; 4]%nat = pre ++ j :: post /\ goes_on (app j) = false /\ (4%nat ∈ post))).
Proof.
  assert (4 ∈ [0; 1; 2; 3; 4])%nat as H by (apply (bool_decide_unpack _); vm_compute; exact I). split; [exact H|].
  exact (everyone_answered stays keep sent_as_is [] app false [0; 1; 2; 3; 4]%nat 4%nat H).
Defined.

Lemma own_answer_witness :
  answers (worker [Write (lit "boot")] app false [0; 1; 2; 3; 4]%nat) !! 2%nat = answers (worker [] app false [2]%nat) !! 2%nat.
Proof.
  apply (own_answer stays keep sent_as_is [Write (lit "boot")] app false [0; 1]%nat 2%nat [3; 4]%nat).
  - apply (bool_decide_unpack (NoDup [0; 1; 2; 3; 4]%nat)). vm_compute. exact I.
  - left. reflexivity.
  - constructor; [|constructor; [|constructor]]; (split; [reflexivity|left; reflexivity]).
Defined.

Lemma answered_whole_witness :
  (forall n, stays 1 n = false) /\
  exists a, answers (worker [] app false [1]%nat) !! 1%nat = Some a /\
    whole (p_status (page keep (handler (app 1)))) (p_headers sent_as_is (page keep (handler (app 1)))) (lit "ab") a.
Proof.
  assert (forall n, stays 1 n = false) as H by reflexivity. split; [exact H|].
  exact (answered_whole stays keep sent_as_is 1 H false app).
Defined.

Lemma modes_agree_witness :
  exists z h body a, interp_handle stays keep sent_as_is false true (app 0) = Buffered z h body /\
    answers (worker [] app false [0]%nat) !! 0%nat = Some a /\ whole z h body a.
Proof.
  apply (modes_agree stays keep sent_as_is 0 (fun _ => eq_refl) false app).
  - intros H. repeat (apply elem_of_cons in H as [H|H]; [discriminate H|]). by apply not_elem_of_nil in H.
  - left. reflexivity.
  - reflexivity.
  - vm_compute. discriminate.
Defined.

(** *** What the hypotheses are for *)

(** A request that turns implicit flushing on and leaves a buffer open has its output sent to the
    client of the next one: the reset runs when that client's reply is already held.  That client's
    own page is lost, and its body stays open until the worker takes another request. *)
Definition leaky (i : nat) : Behaviour :=
  match i with
  | 0%nat => mkBehaviour [Implicit true; Hold (lit "secret")] Returned [] false
  | _ => small_page (lit "hello")
  end.
Lemma leftovers_reach_the_next_request :
  answers (worker [] leaky true [0; 1; 2]%nat) !! 1%nat = Some (Stream 200 [] [lit "secret"] Closed) /\
  answers (worker [] leaky true [1]%nat) !! 1%nat = Some (Buffered 200 [(lit "A", lit "b")] (lit "hello")).
Proof. vm_compute. done. Qed.

(** What a request wrote into a buffer that it leaves open is not in its response. *)
Lemma open_buffer_lost :
  let x := mkBehaviour [Hold (lit "hi")] Exited [] false in
  answers (worker [] (fun _ => x) true [0]%nat) !! 0%nat = Some (Buffered 200 [] []) /\
  interp_handle stays keep sent_as_is false true x = Buffered 200 [] (lit "hi").
Proof. vm_compute. done. Qed.

(** A body whose handler threw half-way is closed as a whole one is. *)
Lemma exception_mid_stream_looks_whole :
  answers (worker [] (fun _ => mkBehaviour [Write (lit "a"); Flush; Write (lit "b")] Threw [] false) true [0]%nat) !! 0%nat =
  Some (Stream 200 [] [lit "a"] Closed).
Proof. vm_compute. done. Qed.

(** A request that waits behind one that ends the script gets nothing. *)
Lemma queued_behind_a_fatal :
  answers (worker [] app false [3; 4]%nat) !! 4%nat = None /\
  answers (worker [] app true [3; 4]%nat) !! 4%nat = Some (Failed DROPPED).
Proof. vm_compute. done. Qed.
