(* ===== verification/Handoff.v ===== *)
(** The request as PHP sees it ([php.rs], [load_request]; the worker's request in [csrc/shim.c]).

    A worker thread holds one request in C globals ([Slot]): Rust resets them, fills them through
    setters that take C strings -- a text with a NUL byte cannot be one -- and arrays of fixed
    size, and PHP reads them as the array its handler is called with, as warnings raised among the
    fields, as the table of uploads and as [php://input].  How PHP makes variables of the
    fields' names is the engine's, so that fields are listed in the order of registration. *)

From stdpp Require Import gmap sorting.
From S2P Require Import Prelude Bytes Http Cgi Upload Record.

(** ** The globals *)

Definition ASKR_MAX_HEADERS : nat := 256.
Definition ASKR_MAX_POST : nat := 1024.
Definition ASKR_MAX_FILES : nat := 128.
Definition ASKR_MAX_WARNINGS : nat := 64.

Record Slot := mkSlot {
  w_method : option bytes; w_uri : option bytes; w_query : option bytes;
  w_headers : list (bytes * bytes); w_post : list (bytes * bytes);
  w_warnings : list UploadWarning; w_files : list UploadedFile;
  w_body : option bytes; w_body_off_read : nat;
  w_warn_hdr : bool; w_warn_post : bool; w_warn_files : bool }.

Definition askr_req_reset (w : Slot) : Slot :=
  mkSlot None None None [] [] [] [] None 0 false false false.

Definition askr_req_set_meta (m u q : bytes) (w : Slot) : Slot :=
  mkSlot (Some m) (Some u) (Some q) (w_headers w) (w_post w) (w_warnings w) (w_files w) (w_body w)
    (w_body_off_read w) (w_warn_hdr w) (w_warn_post w) (w_warn_files w).

Definition askr_req_add_header (k v : bytes) (w : Slot) : Slot :=
  let room := (length (w_headers w) <? ASKR_MAX_HEADERS)%nat in
  mkSlot (w_method w) (w_uri w) (w_query w) (if room then w_headers w ++ [(k, v)] else w_headers w)
    (w_post w) (w_warnings w) (w_files w) (w_body w) (w_body_off_read w)
    (if room then w_warn_hdr w else true) (w_warn_post w) (w_warn_files w).

Definition askr_req_set_body (b : bytes) (w : Slot) : Slot :=
  mkSlot (w_method w) (w_uri w) (w_query w) (w_headers w) (w_post w) (w_warnings w) (w_files w) (Some b)
    0 (w_warn_hdr w) (w_warn_post w) (w_warn_files w).

Definition askr_req_add_post (k v : bytes) (w : Slot) : Slot :=
  let room := (length (w_post w) <? ASKR_MAX_POST)%nat in
  mkSlot (w_method w) (w_uri w) (w_query w) (w_headers w) (if room then w_post w ++ [(k, v)] else w_post w)
    (w_warnings w) (w_files w) (w_body w) (w_body_off_read w) (w_warn_hdr w)
    (if room then w_warn_post w else true) (w_warn_files w).

Definition askr_req_add_warning (x : UploadWarning) (w : Slot) : Slot :=
  if (length (w_warnings w) <? ASKR_MAX_WARNINGS)%nat then
    mkSlot (w_method w) (w_uri w) (w_query w) (w_headers w) (w_post w) (w_warnings w ++ [x]) (w_files w) (w_body w)
      (w_body_off_read w) (w_warn_hdr w) (w_warn_post w) (w_warn_files w)
  else w.

Definition askr_req_add_file (f : UploadedFile) (w : Slot) : Slot :=
  let room := (length (w_files w) <? ASKR_MAX_FILES)%nat in
  mkSlot (w_method w) (w_uri w) (w_query w) (w_headers w) (w_post w) (w_warnings w)
    (if room then w_files w ++ [f] else w_files w) (w_body w) (w_body_off_read w) (w_warn_hdr w) (w_warn_post w)
    (if room then w_warn_files w else true).

(** ** [load_request] *)

(** [CStrArena::cstr] gives nothing for a text with a NUL byte. *)
Definition cstr (s : bytes) : option bytes := if existsb (Z.eqb 0) s then None else Some s.

Definition cpair (p : bytes * bytes) : option (bytes * bytes) :=
  match cstr p.1, cstr p.2 with Some k, Some v => Some (k, v) | _, _ => None end.
Definition cfile (f : UploadedFile) : option UploadedFile :=
  match cstr (field_name f), cstr (file_name f), cstr (full_path f), cstr (content_type f), cstr (tmp_path f) with
  | Some _, Some _, Some _, Some _, Some _ => Some f
  | _, _, _, _, _ => None
  end.
Definition cwarning (x : UploadWarning) : option UploadWarning :=
  match cstr (message x) with Some _ => Some x | None => None end.

Definition uri_of (vs : vars) : bytes :=
  match List.find (fun kv => beq kv.1 (lit "REQUEST_URI")) vs with Some kv => kv.2 | None => lit "/" end.

Definition opt_step {A B} (c : A -> option B) (f : B -> Slot -> Slot) (w : Slot) (a : A) : Slot :=
  match c a with Some b => f b w | None => w end.

Definition load_request (j : Job) (w : Slot) : Slot :=
  let q := built j in
  let w := askr_req_reset w in
  let w := match cstr (q_method q), cstr (uri_of (q_server_vars q)), cstr (q_query_string q) with
           | Some m, Some u, Some s => askr_req_set_meta m u s w
           | _, _, _ => w
           end in
  let w := foldl (opt_step cpair (fun kv => askr_req_add_header kv.1 kv.2)) w (q_server_vars q) in
  let w := askr_req_set_body (q_body q) w in
  let w := foldl (opt_step cpair (fun kv => askr_req_add_post kv.1 kv.2)) w (post_fields j) in
  let w := foldl (opt_step cwarning askr_req_add_warning) w (warnings j) in
  foldl (opt_step cfile askr_req_add_file) w (files j).

(** ** What [askr_handle_request] makes of them *)

(** An array of PHP with text keys: a key keeps its place, and its last value. *)
Fixpoint add_assoc (k v : bytes) (a : list (bytes * bytes)) : list (bytes * bytes) :=
  match a with
  | [] => [(k, v)]
  | (k', v') :: a => if beq k k' then (k', v) :: a else (k', v') :: add_assoc k v a
  end.
Fixpoint assoc (k : bytes) (a : list (bytes * bytes)) : option bytes :=
  match a with [] => None | (k', v) :: a => if beq k k' then Some v else assoc k a end.

(** The fields are registered one after the other, each after the warnings that come before it. *)
Fixpoint raised_before (i : nat) (ws : list UploadWarning) : list UploadWarning * list UploadWarning :=
  match ws with
  | w :: ws => if (before_field w <=? i)%nat then let '(now, later) := raised_before i ws in (w :: now, later)
               else ([], w :: ws)
  | [] => ([], [])
  end.
Fixpoint startup_events (i : nat) (ps : list (bytes * bytes)) (ws : list UploadWarning)
    : list (UploadWarning + bytes * bytes) :=
  match ps with
  | [] => inl <$> ws
  | p :: ps => let '(now, later) := raised_before i ws in (inl <$> now) ++ inr p :: startup_events (S i) ps later
  end.

(** [askr_uploads_begin]: the paths [is_uploaded_file] accepts. *)
Definition upload_begin (t : list bytes) (f : UploadedFile) : list bytes :=
  if negb (error f =? 0) || bool_decide (tmp_path f = []) then t
  else if bool_decide (tmp_path f ∈ t) then t else t ++ [tmp_path f].
Definition askr_uploads_begin (w : Slot) : list bytes := foldl upload_begin [] (w_files w).

Record PhpArray := mkArray {
  a_method : bytes; a_uri : bytes; a_query : bytes; a_headers : list (bytes * bytes); a_body : bytes;
  a_startup : list (UploadWarning + bytes * bytes); a_files : list UploadedFile }.

Definition request_array (w : Slot) : PhpArray :=
  mkArray (default (lit "GET") (w_method w)) (default (lit "/") (w_uri w)) (default [] (w_query w))
    (foldl (fun a kv => add_assoc kv.1 kv.2 a) [] (w_headers w)) (default [] (w_body w))
    (startup_events 0 (w_post w) (w_warnings w)) (w_files w).

(** [memcpy] from the body, which must not leave it. *)
Definition copy (b : bytes) (off n : nat) : option bytes :=
  if (off + n <=? length b)%nat then Some (take n (drop off b)) else None.

(** [askr_read_post], in a worker; [None] is a read outside of the body. *)
Definition askr_read_post (count : nat) (w : Slot) : option (bytes * Slot) :=
  match w_body w with
  | None => Some ([], w)
  | Some b =>
      if (length b <=? w_body_off_read w)%nat then Some ([], w)
      else
        let n := Nat.min count (length b - w_body_off_read w) in
        d ← copy b (w_body_off_read w) n;
        Some (d, mkSlot (w_method w) (w_uri w) (w_query w) (w_headers w) (w_post w) (w_warnings w) (w_files w) (w_body w)
                   (w_body_off_read w + n) (w_warn_hdr w) (w_warn_post w) (w_warn_files w))
  end.
Fixpoint reads (counts : list nat) (w : Slot) : option (list bytes) :=
  match counts with
  | [] => Some []
  | n :: counts => '(d, w) ← askr_read_post n w; ds ← reads counts w; Some (d :: ds)
  end.

(** ** What is delivered *)

Lemma capped_app {A} (cap : nat) (l r : list A) (a : A) :
  l = take cap r -> (if (length l <? cap)%nat then l ++ [a] else l) = take cap (r ++ [a]).
Proof.
  intros ->. rewrite length_take. case_match eqn:E.
  - apply Nat.ltb_lt in E. rewrite !take_ge by (rewrite ?length_app; cbn; lia). done.
  - apply Nat.ltb_ge in E. rewrite take_app_le by lia. done.
Qed.

Lemma capped_fold {A B} (cap : nat) (c : A -> option B) (f : B -> Slot -> Slot) (get : Slot -> list B) l w r :
  (forall b w, get (f b w) = if (length (get w) <? cap)%nat then get w ++ [b] else get w) ->
  get w = take cap r -> get (foldl (opt_step c f) w l) = take cap (r ++ omap c l).
Proof.
  intros Hf. revert w r. induction l as [|a l IH]; intros w r E; cbn; [by rewrite app_nil_r|].
  unfold opt_step at 2. destruct (c a) as [b|] eqn:Eb; [|by apply IH].
  rewrite (IH _ (r ++ [b])); [by rewrite <- app_assoc|]. rewrite Hf. by apply capped_app.
Qed.

Lemma kept_fold {A B C} (c : A -> option B) (f : B -> Slot -> Slot) (get : Slot -> C) l w :
  (forall b w, get (f b w) = get w) -> get (foldl (opt_step c f) w l) = get w.
Proof.
  intros Hf. revert w. induction l as [|a l IH]; intros w; [done|]. cbn. rewrite IH. unfold opt_step.
  by destruct (c a).
Qed.

Lemma load_meta j w :
  let w' := load_request j w in let q := built j in
  (w_method w', w_uri w', w_query w') =
  match cstr (q_method q), cstr (uri_of (q_server_vars q)), cstr (q_query_string q) with
  | Some m, Some u, Some s => (Some m, Some u, Some s)
  | _, _, _ => (None, None, None)
  end.
Proof.
  intros w' q. unfold w', load_request. rewrite !(kept_fold _ _ w_method), !(kept_fold _ _ w_uri), !(kept_fold _ _ w_query)
    by (intros; unfold askr_req_add_warning; by repeat case_match).
  cbn [askr_req_set_body w_method w_uri w_query].
  rewrite !(kept_fold _ _ w_method), !(kept_fold _ _ w_uri), !(kept_fold _ _ w_query) by done.
  fold q. by repeat case_match.
Qed.

Lemma load_body j w : w_body (load_request j w) = Some (q_body (built j)) /\ w_body_off_read (load_request j w) = 0%nat.
Proof.
  unfold load_request. by rewrite !(kept_fold _ _ w_body), !(kept_fold _ _ w_body_off_read)
    by (intros; unfold askr_req_add_warning; by repeat case_match).
Qed.

Lemma load_headers j w :
  w_headers (load_request j w) = take ASKR_MAX_HEADERS (omap cpair (q_server_vars (built j))).
Proof.
  unfold load_request. rewrite !(kept_fold _ _ w_headers) by (intros; unfold askr_req_add_warning; by repeat case_match).
  cbn [askr_req_set_body w_headers]. rewrite (capped_fold ASKR_MAX_HEADERS _ _ w_headers _ _ []); [done|by intros []|].
  by repeat case_match.
Qed.

Lemma load_post j w : w_post (load_request j w) = take ASKR_MAX_POST (omap cpair (post_fields j)).
Proof.
  unfold load_request.
  do 2 rewrite (kept_fold _ _ w_post) by (intros; unfold askr_req_add_warning; by repeat case_match).
  rewrite (capped_fold ASKR_MAX_POST _ _ w_post _ _ []); [done|by intros []|]. cbn [askr_req_set_body w_post].
  rewrite (kept_fold _ _ w_post) by done. by repeat case_match.
Qed.

Lemma load_warnings j w : w_warnings (load_request j w) = take ASKR_MAX_WARNINGS (omap cwarning (warnings j)).
Proof.
  unfold load_request. rewrite (kept_fold _ _ w_warnings) by done.
  rewrite (capped_fold ASKR_MAX_WARNINGS _ _ w_warnings _ _ []);
    [done|intros; unfold askr_req_add_warning; by repeat case_match|].
  rewrite (kept_fold _ _ w_warnings) by done. cbn [askr_req_set_body w_warnings].
  rewrite (kept_fold _ _ w_warnings) by done. by repeat case_match.
Qed.

Lemma load_files j w : w_files (load_request j w) = take ASKR_MAX_FILES (omap cfile (files j)).
Proof.
  unfold load_request. rewrite (capped_fold ASKR_MAX_FILES _ _ w_files _ _ []); [done|by intros []|].
  do 2 rewrite (kept_fold _ _ w_files) by (intros; unfold askr_req_add_warning; by repeat case_match).
  cbn [askr_req_set_body w_files]. rewrite (kept_fold _ _ w_files) by done. by repeat case_match.
Qed.

(** *** The arrays PHP reads *)

Lemma assoc_add k k' v a : assoc k (add_assoc k' v a) = if beq k k' then Some v else assoc k a.
Proof.
  induction a as [|[k1 v1] a IH]; cbn; [done|]. destruct (beq k' k1) eqn:E1; cbn.
  - apply beq_true in E1. subst k1. by destruct (beq k k').
  - rewrite IH. destruct (beq k k1) eqn:E2; [|done]. apply beq_true in E2. subst k1.
    destruct (beq k k') eqn:E3; [|done]. apply beq_true in E3. subst k'. by rewrite beq_refl in E1.
Qed.

(** The last value of a key is what PHP sees. *)
Lemma assoc_folded k l a :
  assoc k (foldl (fun a kv => add_assoc kv.1 kv.2 a) a l) =
  match assoc k (reverse l) with Some v => Some v | None => assoc k a end.
Proof.
  revert a. induction l as [|[k1 v1] l IH] using rev_ind; intros a; [done|].
  rewrite foldl_app, reverse_snoc. cbn. rewrite assoc_add, IH. by destruct (beq k k1).
Qed.

Definition ev_field (e : UploadWarning + bytes * bytes) : option (bytes * bytes) :=
  match e with inr p => Some p | inl _ => None end.
Definition ev_warning (e : UploadWarning + bytes * bytes) : option UploadWarning :=
  match e with inl w => Some w | inr _ => None end.

Lemma raised_before_app i ws : (raised_before i ws).1 ++ (raised_before i ws).2 = ws.
Proof.
  induction ws as [|w ws IH]; [done|]. cbn. case_match; [|done].
  destruct (raised_before i ws). cbn in *. by rewrite IH.
Qed.

Lemma omap_inl_fields (ws : list UploadWarning) : omap ev_field (inl <$> ws) = [].
Proof. by induction ws. Qed.
Lemma omap_inl_warnings (ws : list UploadWarning) : omap ev_warning (inl <$> ws) = ws.
Proof. induction ws as [|w ws IH]; [done|]. cbn. by f_equal. Qed.

Lemma startup_whole i ps ws :
  omap ev_field (startup_events i ps ws) = ps /\ omap ev_warning (startup_events i ps ws) = ws.
Proof.
  revert i ws. induction ps as [|p ps IH]; intros i ws; cbn; [by rewrite omap_inl_fields, omap_inl_warnings|].
  pose proof (raised_before_app i ws) as E. destruct (raised_before i ws) as [now later]. cbn in E.
  rewrite !omap_app, omap_inl_fields, omap_inl_warnings. destruct (IH (S i) later) as [E1 E2]. cbn. by rewrite E1, E2.
Qed.

Definition in_order (a b : UploadWarning) : Prop := (before_field a <= before_field b)%nat.

(** A warning is raised when as many fields are registered as the parser had read before it. *)
Lemma raised_before_spec i ws :
  StronglySorted in_order ws ->
  Forall (fun w => before_field w <= i)%nat (raised_before i ws).1 /\
  Forall (fun w => S i <= before_field w)%nat (raised_before i ws).2.
Proof.
  induction 1 as [|w ws Hs IH Hw]; [done|]. cbn. case_match eqn:E.
  - apply Nat.leb_le in E. destruct (raised_before i ws). cbn in *. destruct IH. split; [by constructor|done].
  - apply Nat.leb_gt in E. split; [constructor|]. constructor; [lia|]. eapply Forall_impl; [exact Hw|]. unfold in_order. cbn. lia.
Qed.

Lemma sorted_later i ws :
  StronglySorted in_order ws ->
  StronglySorted in_order (raised_before i ws).2.
Proof.
  induction 1 as [|w ws Hs IH Hw]; [constructor|]. cbn. case_match; [|by constructor].
  by destruct (raised_before i ws).
Qed.

Lemma inl_split (ws : list UploadWarning) (r l1 l2 : list (UploadWarning + bytes * bytes)) w :
  (inl <$> ws) ++ r = l1 ++ inl w :: l2 ->
  (w ∈ ws /\ omap ev_field l1 = []) \/ exists l1', l1 = (inl <$> ws) ++ l1' /\ r = l1' ++ inl w :: l2.
Proof.
  revert l1. induction ws as [|w0 ws IH]; intros l1 E; [right; by exists l1|].
  destruct l1 as [|e l1]; cbn in E; simplify_eq; [left; split; [left|done]|].
  destruct (IH l1) as [[H H']|(l1' & -> & ->)]; [done|left; split; [by right|exact H']|right; by exists l1'].
Qed.

Lemma startup_placed i ps ws l1 w l2 :
  StronglySorted in_order ws -> Forall (fun w => i <= before_field w)%nat ws ->
  startup_events i ps ws = l1 ++ inl w :: l2 ->
  (i + length (omap ev_field l1) = Nat.min (before_field w) (i + length ps))%nat.
Proof.
  revert i ws l1. induction ps as [|p ps IH]; intros i ws l1 Hs Hi E; cbn in E.
  - rewrite <- (app_nil_r (inl <$> ws)) in E. apply inl_split in E as [[Hw ->]|(l1' & _ & E)]; [|by destruct l1'].
    rewrite Forall_forall in Hi. specialize (Hi w Hw). cbn. lia.
  - pose proof (raised_before_spec i ws Hs) as [H1 H2]. pose proof (sorted_later i ws Hs) as Hs2.
    pose proof (raised_before_app i ws) as Ea. destruct (raised_before i ws) as [now later]. cbn [fst snd] in *.
    apply inl_split in E as [[Hw ->]|(l1' & -> & E)].
    + rewrite Forall_forall in H1, Hi. specialize (H1 w Hw). specialize (Hi w). rewrite <- Ea in Hi.
      specialize (Hi (proj2 (elem_of_app _ _ _) (or_introl Hw))). cbn. lia.
    + destruct l1' as [|e l1']; cbn in E; [done|]. injection E as <- E.
      specialize (IH (S i) later l1' Hs2 H2 E).
      rewrite omap_app, omap_inl_fields. cbn. lia.
Qed.

(** *** Uploads, and the body *)

Lemma upload_begin_elem t f p :
  p ∈ upload_begin t f <-> p ∈ t \/ error f = 0 /\ tmp_path f = p /\ p <> [].
Proof.
  unfold upload_begin. destruct (error f =? 0) eqn:E; cbn.
  - apply Z.eqb_eq in E. case_bool_decide as H1; [rewrite H1; split; [by left|intros [?|(? & <- & ?)]; done]|].
    case_bool_decide as H2; rewrite ?elem_of_app, ?list_elem_of_singleton.
    + split; [by left|intros [?|(? & <- & ?)]; done].
    + split; [intros [?| ->]; auto|intros [?|(? & <- & ?)]; auto].
  - apply Z.eqb_neq in E. split; [by left|intros [?|(? & ?)]; done].
Qed.

(** What [is_uploaded_file] accepts: the temp files of this request's intact uploads. *)
Lemma uploads_exact w p :
  p ∈ askr_uploads_begin w <-> exists f, f ∈ w_files w /\ error f = 0 /\ tmp_path f = p /\ p <> [].
Proof.
  unfold askr_uploads_begin.
  assert (forall fs t, p ∈ foldl upload_begin t fs <-> p ∈ t \/ exists f, f ∈ fs /\ error f = 0 /\ tmp_path f = p /\ p <> []) as H.
  { induction fs as [|f fs IH]; intros t; cbn.
    - split; [by left|]. by intros [?|(f & ?%not_elem_of_nil & _)].
    - rewrite IH, upload_begin_elem. split.
      + intros [[?|?]|(g & ? & ?)]; [by left|right; exists f; split; [left|done]|right; exists g; split; [by right|done]].
      + intros [?|(g & [->|?]%elem_of_cons & ?)]; [by left; left|by left; right|right; by exists g]. }
  rewrite H. split; [intros [?%not_elem_of_nil|?]; done|by right].
Qed.

(** However PHP asks for it, the body comes in order, once, and nothing after it does. *)
Lemma reads_body counts w b :
  w_body w = Some b ->
  exists ds, reads counts w = Some ds /\ concat ds = take (sum_list counts) (drop (w_body_off_read w) b).
Proof.
  revert w. induction counts as [|n counts IH]; intros w E; [by exists []|]. cbn [reads]. unfold askr_read_post. rewrite E.
  destruct (length b <=? w_body_off_read w)%nat eqn:El.
  - apply Nat.leb_le in El. cbn [mbind option_bind]. destruct (IH w E) as (ds & -> & Ed). exists ([] :: ds). split; [done|].
    cbn [concat]. rewrite Ed, !drop_ge by done. by rewrite !take_nil.
  - apply Nat.leb_gt in El. set (k := Nat.min n _). unfold copy. replace (_ <=? _)%nat with true by (symmetry; apply Nat.leb_le; lia).
    cbn [mbind option_bind]. edestruct IH as (ds & Er & Ed); [|rewrite Er]; [done|]. cbn [w_body_off_read] in Ed.
    eexists. split; [done|]. cbn [concat sum_list sum_list_with]. rewrite Ed. rewrite <- drop_drop. unfold k.
    set (d := drop (w_body_off_read w) b). assert (length d = length b - w_body_off_read w)%nat as Ed' by apply length_drop.
    rewrite <- Ed'. change (id n) with n. destruct (decide (n <= length d)%nat).
    + rewrite Nat.min_l by done. by rewrite <- take_take_drop.
    + rewrite Nat.min_r by lia. rewrite (take_ge d (length d)) by done. rewrite drop_all, take_nil, app_nil_r.
      by rewrite take_ge by lia.
Qed.

(** C17.  A handler is called with its own request.  Whatever the slot held before -- of another request,
    read to any point -- what PHP sees is what the server sent: the method, the path and the query;
    for each header its last value; the body, however it is read, and nothing outside of it; the fields and the parser's
    warnings, each in its order; the files, and those of them [is_uploaded_file] may accept.  What
    is missing is what has a NUL byte in a text, and what is past the size of its array. *)
Theorem php_sees_its_request j w :
  let q := built j in let w' := load_request j w in let a := request_array w' in
  (a_method a, a_uri a, a_query a) =
    (match cstr (q_method q), cstr (uri_of (q_server_vars q)), cstr (q_query_string q) with
     | Some m, Some u, Some s => (m, u, s)
     | _, _, _ => (lit "GET", lit "/", [])
     end) /\
  (forall k, assoc k (a_headers a) = assoc k (reverse (take ASKR_MAX_HEADERS (omap cpair (q_server_vars q))))) /\
  a_body a = q_body q /\
  (forall counts, exists ds, reads counts w' = Some ds /\ concat ds = take (sum_list counts) (q_body q)) /\
  omap ev_field (a_startup a) = take ASKR_MAX_POST (omap cpair (post_fields j)) /\
  omap ev_warning (a_startup a) = take ASKR_MAX_WARNINGS (omap cwarning (warnings j)) /\
  a_files a = take ASKR_MAX_FILES (omap cfile (files j)) /\
  (forall p, p ∈ askr_uploads_begin w' <-> exists f, f ∈ a_files a /\ error f = 0 /\ tmp_path f = p /\ p <> []).
Proof.
  cbn zeta. pose proof (load_meta j w) as Hm. cbn zeta in Hm. destruct (load_body j w) as [Hb Ho].
  destruct (startup_whole 0 (w_post (load_request j w)) (w_warnings (load_request j w))) as [E1 E2].
  unfold request_array. cbn [a_method a_uri a_query a_headers a_body a_startup a_files]. rewrite E1, E2, Hb.
  split; [repeat case_match; injection Hm as -> -> ->; done|].
  split; [intros k; rewrite assoc_folded, load_headers; by destruct (assoc k (reverse _))|]. split; [done|].
  split; [intros counts; destruct (reads_body counts _ _ Hb) as (ds & ? & ?); rewrite Ho in *; by exists ds|].
  split; [apply load_post|]. split; [apply load_warnings|]. split; [apply load_files|]. intros p. apply uploads_exact.
Qed.

(** The warnings stand where PHP's parser would have raised them. *)
Corollary warnings_in_place j w l1 x l2 :
  StronglySorted in_order (w_warnings (load_request j w)) ->
  a_startup (request_array (load_request j w)) = l1 ++ inl x :: l2 ->
  length (omap ev_field l1) = Nat.min (before_field x) (length (w_post (load_request j w))).
Proof. intros Hs E. apply (startup_placed 0 _ _ l1 x l2 Hs); [by apply Forall_true; lia|done]. Qed.

(** ** Examples *)

Definition form (fields : list (bytes * bytes)) : Job :=
  mkJob (mkPhpRequest (lit "/app/index.php") (lit "POST") [] None None [] [(lit "REQUEST_URI", lit "/form"); (lit "HTTP_A", lit "1"); (lit "HTTP_A", lit "2")] [])
    fields [mkUploaded (lit "f") (lit "a") (lit "a") [] (lit "/tmp/1") 3 0; mkUploaded (lit "g") [] [] [] [] 0 4]
    [mkWarning (lit "w") true 1].
Definition empty_slot : Slot := mkSlot None None None [] [] [] [] None 0 false false false.

Example form_seen :
  let w := load_request (form [(lit "a", lit "1"); (lit "b", lit "2")]) empty_slot in let a := request_array w in
  (a_method a, a_uri a, assoc (lit "HTTP_A") (a_headers a)) = (lit "POST", lit "/form", Some (lit "2")) /\
  a_startup a = [inr (lit "a", lit "1"); inl (mkWarning (lit "w") true 1); inr (lit "b", lit "2")] /\
  askr_uploads_begin w = [lit "/tmp/1"].
Proof. by vm_compute. Qed.

(** A form that [max_input_vars] admits is cut at 1024 fields. *)
Lemma fields_past_1024_dropped :
  let fields := replicate 2000 (lit "f", lit "1") in
  length (omap ev_field (a_startup (request_array (load_request (form fields) empty_slot)))) = 1024%nat.
Proof. by vm_compute. Qed.
