(* ===== verification/Upgrade.v ===== *)
(** [askr upgrade] ([upgrade.rs]): a release is fetched, checked, unpacked beside the install and
    renamed into its place.

    The file system is what the directory above the install holds; a program on it ([M]) returns
    the states it goes through, which are where the process can be killed.  [curl], [tar],
    SHA-256, minisign and the outcomes of system calls are parameters: of a signature, the model
    has what [verify_signature] asks the crate.  A file name is an entry of a directory: a version
    with a slash in it, which only the command line could give, is outside of the model. *)

From stdpp Require Import gmap.
From S2P Require Import Prelude Bytes.

(** ** The directory above the install *)

Inductive Node := File (content : bytes) (mode : Z) | Dir (entries : list (bytes * Node)).
Abbreviation Parent := (gmap bytes Node).

Definition entries (n : option Node) : list (bytes * Node) := match n with Some (Dir es) => es | _ => [] end.
Fixpoint child (name : bytes) (es : list (bytes * Node)) : option Node :=
  match es with [] => None | (k, n) :: es => if beq k name then Some n else child name es end.
Definition without (name : bytes) (es : list (bytes * Node)) : list (bytes * Node) :=
  List.filter (fun kn => negb (beq kn.1 name)) es.
Definition set_child (name : bytes) (n : Node) (es : list (bytes * Node)) : list (bytes * Node) :=
  (name, n) :: without name es.

(** [Path::is_file] of an entry of a tree. *)
Definition file_in (name : bytes) (t : Node) : bool :=
  match child name (entries (Some t)) with Some (File _ _) => true | _ => false end.

(** ** Errors, and programs *)

Inductive Error :=
| NoLatest | NotLinux | InContainer | NoTool (tool : bytes) | NoRelease | NoPrefix | NotWritable | NoWorkDir
| DownloadFailed (url : bytes) | Unreadable | MalformedChecksum | ChecksumMismatch
| NoSignature | MalformedSignature | SignatureRejected | VerificationFailed
| TarFailed | UnexpectedLayout | NotExecutable | NotMovedAside | RolledBack.

Definition M (A : Type) : Type := Parent -> list Parent * (Error + A) * Parent.
#[export] Instance M_ret : MRet M := fun A a d => ([], inr a, d).
#[export] Instance M_bind : MBind M := fun A B k m d =>
  let '(tr, r, d) := m d in
  match r with
  | inl e => (tr, inl e, d)
  | inr a => let '(tr', r, d) := k a d in (tr ++ tr', r, d)
  end.
Definition fail {A} (e : Error) : M A := fun d => ([], inl e, d).
Definition get : M Parent := fun d => ([], inr d, d).
Definition put (f : Parent -> Parent) : M unit := fun d => ([f d], inr tt, f d).
Definition ensure (b : bool) (e : Error) : M unit := if b then mret tt else fail e.
Definition some {A} (o : option A) (e : Error) : M A := match o with Some a => mret a | None => fail e end.

(** A directory that is renamed takes the place of nothing, or of an empty directory. *)
Definition free (name : bytes) (d : Parent) : bool :=
  match d !! name with None | Some (Dir []) => true | _ => false end.
Definition rename (ok : bool) (a b : bytes) (e : Error) : M unit :=
  d ← get; n ← some (d !! a) e;
  if beq a b then mret tt
  else ensure (ok && free b d) e;; put (fun d => <[b := n]> (delete a d)).

(** ** What is asked of the world *)

Record Options := mkOptions { check : bool; version : option bytes; restart : bool }.
Record Env := mkEnv {
  current : bytes; pid : Z; redirect : option bytes;             (* where [/releases/latest] leads *)
  linux : bool; dockerenv : bool; has_tool : bytes -> bool; arch : bytes;
  exe_dir : option bytes;                                        (* the directory of the binary *)
  fetch : bytes -> option bytes;                                 (* a URL *)
  untar : bytes -> option (list (bytes * Node)) }.
(** What system calls can refuse, and what is left of [askr.old] when it is removed. *)
Record Io := mkIo {
  probe_ok : bool; mkdir_ok : bool; write_ok : bool; chmod_ok : bool; old_left : option Node;
  aside_ok : bool; place_ok : bool; back_ok : bool }.

Section Upgrade.
Context {K Sig : Type} (from_base64 : bytes -> option K) (decode : bytes -> option Sig)
  (accepts : K -> Sig -> bool) (verifies : K -> Sig -> bytes -> bool) (sha256 : bytes -> bytes).

Definition REPO : bytes := lit "kwhorne/askr".
Definition RELEASE_PUBKEY : bytes :=
  lit "untrusted comment: minisign public key: 5AD94F1DEEDF89FD" ++ [10] ++
  lit "RWT9id/uHU/ZWv0bGLG/HKtEGyUJS8ZxNzelgiJEpscQTfEmrx/3nqli" ++ [10].

Definition parse_key (text : bytes) : option K :=
  l ← List.find (fun l => starts_with l (lit "RW") && (40 <=? length l)%nat) (trim <$> split_on 10 text);
  from_base64 l.
Definition release_key : option K := parse_key RELEASE_PUBKEY.

Definition trim_start_v (b : bytes) : bytes :=
  (fix go b := match b with 118 :: b' => go b' | _ => b end) b.
Definition last_segment (url : bytes) : bytes := default [] (List.hd_error (reverse (split_on 47 url))).
Definition latest_version (e : Env) : option bytes :=
  url ← redirect e;
  let v := trim_start_v (trim (last_segment (trim (from_utf8_lossy url)))) in
  match v with c :: _ => if is_ascii_digit c then Some v else None | [] => None end.

(** [split_whitespace().next()]. *)
Fixpoint word (b : bytes) : bytes :=
  match b with
  | [] => []
  | x :: b' => match strip_any ws_encodings b with Some _ => [] | None => x :: word b' end
  end.
Definition hex (x : Z) : bytes :=
  let d n := if n <? 10 then 48 + n else 87 + n in [d (x / 16); d (x mod 16)].

(** A file of the work directory, as it is read back. *)
Definition read_file (work name : bytes) : M bytes :=
  d ← get; match child name (entries (d !! work)) with Some (File c _) => mret c | _ => fail Unreadable end.
Definition read_to_string (work name : bytes) : M bytes :=
  c ← read_file work name; ensure (from_utf8_ok c) Unreadable;; mret c.

(** A checksum that is not ASCII is refused as any other that does not match. *)
Definition verify_sha256 (work file sumfile : bytes) : M unit :=
  want ← read_to_string work sumfile;
  let want := to_ascii_lowercase (word (trim_start want)) in
  ensure (length want =? 64)%nat MalformedChecksum;;
  c ← read_file work file;
  ensure (beq (sha256 c ≫= hex) want) ChecksumMismatch.

Definition verify_signature (work file sigfile : bytes) (key : K) : M unit :=
  text ← read_to_string work sigfile;
  sig ← some (decode text) MalformedSignature;
  ensure (accepts key sig) SignatureRejected;;
  c ← read_file work file;
  ensure (verifies key sig c) VerificationFailed.

Definition in_work (work : bytes) (f : list (bytes * Node) -> list (bytes * Node)) : M unit :=
  put (fun d => <[work := Dir (f (entries (d !! work)))]> d).

Definition download (e : Env) (io : Io) (url work name : bytes) (err : Error) : M unit :=
  c ← some (fetch e url) err; ensure (write_ok io) err;;
  in_work work (set_child name (File c 0x1A4)).

(** [make_executable]: mode [0o755]. *)
Definition chmod_755 (name : bytes) (t : Node) : Node :=
  match t with
  | Dir es => match child name es with Some (File c _) => Dir (set_child name (File c 0x1ED) es) | _ => t end
  | File _ _ => t
  end.
Definition make_executable (io : Io) (name : bytes) (t : Node) : M Node :=
  ensure (chmod_ok io) NotExecutable;; mret (chmod_755 name t).

Definition probe_of (e : Env) : bytes := lit ".askr-write-test-" ++ to_digits (pid e).
Definition ensure_writable (e : Env) (io : Io) : M unit :=
  ensure (probe_ok io) NotWritable;;
  put (fun d => <[probe_of e := File [] 0x1A4]> d);; put (delete (probe_of e)).

Definition backup : bytes := lit "askr.old".
Definition work_of (e : Env) : bytes := lit ".askr-upgrade-" ++ to_digits (pid e).
Definition name_of (e : Env) (target : bytes) : bytes := lit "askr-" ++ target ++ lit "-linux-" ++ arch e.
Definition base_of (target : bytes) : bytes :=
  lit "https://github.com/" ++ REPO ++ lit "/releases/download/v" ++ target.
Definition tarball_of (e : Env) (target : bytes) : bytes := name_of e target ++ lit ".tar.gz".

(** The download, and what is asked of it before it is unpacked. *)
Definition fetch_release (e : Env) (io : Io) (target : bytes) : M unit :=
  let work := work_of e in let tarball := tarball_of e target in
  let url := base_of target ++ lit "/" ++ tarball in
  download e io url work tarball (DownloadFailed url);;
  let sum := url ++ lit ".sha256" in
  download e io sum work (tarball ++ lit ".sha256") (DownloadFailed sum);;
  verify_sha256 work tarball (tarball ++ lit ".sha256");;
  match release_key with
  | Some key =>
      download e io (url ++ lit ".minisig") work (tarball ++ lit ".minisig") NoSignature;;
      verify_signature work tarball (tarball ++ lit ".minisig") key
  | None => mret tt
  end.

(** The tree that is unpacked, made executable. *)
Definition unpack (e : Env) (io : Io) (target : bytes) : M unit :=
  let work := work_of e in let name := name_of e target in
  c ← read_file work (tarball_of e target);
  es ← some (untar e c) TarFailed;
  in_work work (fun old => es ++ List.filter (fun kn => bool_decide (child kn.1 es = None)) old);;
  d ← get; t ← some (child name (entries (d !! work))) UnexpectedLayout;
  ensure (file_in (lit "askr") t) UnexpectedLayout;;
  t ← make_executable io (lit "askr") t;
  in_work work (set_child name t);;
  if file_in (lit "askr-run.sh") t then t ← make_executable io (lit "askr-run.sh") t; in_work work (set_child name t)
  else mret tt.

(** The tree in its place, in one rename. *)
Definition place (ok : bool) (work name prefix : bytes) : M bool :=
  d ← get;
  match child name (entries (d !! work)) with
  | Some t =>
      if ok && free prefix d then put (fun d => <[prefix := t]> (<[work := Dir (without name (entries (d !! work)))]> d));; mret true
      else mret false
  | None => mret false
  end.

(** The old tree back into its place; whether that works is not looked at. *)
Definition roll_back (io : Io) (prefix : bytes) : M unit :=
  fun d => let '(tr, _, d) := rename (back_ok io) backup prefix RolledBack d in (tr, inl RolledBack, d).

Definition swap (e : Env) (io : Io) (target prefix : bytes) : M unit :=
  put (fun d => match d !! backup with
                | Some _ => match old_left io with Some n => <[backup := n]> d | None => delete backup d end
                | None => d
                end);;
  rename (aside_ok io) prefix backup NotMovedAside;;
  placed ← place (place_ok io) (work_of e) (name_of e target) prefix;
  if (placed : bool) then mret tt else roll_back io prefix.

(** The version that was asked for, or the latest. *)
Definition target_of (o : Options) (e : Env) : option bytes :=
  match version o with Some v => Some (trim_start_v v) | None => latest_version e end.

Inductive Done := AlreadyLatest | UpToDate | Available | Installed (restarts : bool).

(** [Cleanup]: the work directory is removed however the program ends. *)
Definition cleanup {A} (work : bytes) (m : M A) : M A :=
  fun d => let '(tr, r, d) := m d in let d := delete work d in (tr ++ [d], r, d).

Definition in_workdir (e : Env) (io : Io) (m : M Done) : M Done :=
  put (delete (work_of e));;
  ensure (mkdir_ok io) NoWorkDir;;
  put (<[work_of e := Dir []]>);;
  cleanup (work_of e) m.

Definition run (o : Options) (e : Env) (io : Io) : M Done :=
  target ← some (target_of o e) NoLatest;
  if bool_decide (version o = None) && beq target (current e) then mret AlreadyLatest
  else if check o then mret (if beq target (current e) then UpToDate else Available)
  else
    ensure (linux e) NotLinux;; ensure (negb (dockerenv e)) InContainer;;
    ensure (has_tool e (lit "curl")) (NoTool (lit "curl"));; ensure (has_tool e (lit "tar")) (NoTool (lit "tar"));;
    ensure (beq (arch e) (lit "x86_64") || beq (arch e) (lit "aarch64")) NoRelease;;
    prefix ← some (exe_dir e) NoPrefix;
    d ← get; ensure (match child (lit "lib") (entries (d !! prefix)) with Some (Dir _) => true | _ => false end) NoPrefix;;
    ensure_writable e io;;
    in_workdir e io (
      fetch_release e io target;; unpack e io target;; swap e io target prefix;; mret (Installed (restart o))).
End Upgrade.
