(* ===== verification/UpgradeSpec.v ===== *)
(** What an upgrade may do to an install: replace it by a release this build trusts, whole, or
    leave it; and where that fails. *)

From stdpp Require Import gmap.
From S2P Require Import Prelude Bytes Upgrade.

(** ** Programs, state by state *)

(** From [d], [m] passes through states of [I] only, and ends in [Q] or fails in [E]. *)
Definition wp {A} (m : M A) (d : Parent) (I : Parent -> Prop) (Q : A -> Parent -> Prop) (E : Error -> Parent -> Prop) : Prop :=
  let '(tr, r, d') := m d in
  Forall I tr /\ match r with inl e => E e d' | inr a => Q a d' end.

Implicit Types (d s : Parent) (I : Parent -> Prop) (e : Error) (E : Error -> Parent -> Prop).
Lemma wp_ret {A} (a : A) d I Q E : Q a d -> wp (mret a) d I Q E.
Proof. by split. Qed.
Lemma wp_fail {A} e d I (Q : A -> Parent -> Prop) E : E e d -> wp (fail e) d I Q E.
Proof. by split. Qed.
Lemma wp_get d I Q E : Q d d -> wp get d I Q E.
Proof. by split. Qed.
Lemma wp_put f d I Q E : I (f d) -> Q tt (f d) -> wp (put f) d I Q E.
Proof. intros H1 H2. split; [by repeat constructor|done]. Qed.
Lemma wp_ensure b e d I Q E : (b = true -> Q tt d) -> (b = false -> E e d) -> wp (ensure b e) d I Q E.
Proof. destruct b; cbn; [|intros _]; intros; split; auto. Qed.
Lemma wp_some {A} (o : option A) e d I Q E : (forall a, o = Some a -> Q a d) -> (o = None -> E e d) -> wp (some o e) d I Q E.
Proof. destruct o; cbn; [|intros _]; intros; split; auto. Qed.

Lemma wp_bind {A B} (m : M A) (k : A -> M B) d I Q E :
  wp m d I (fun a d => wp (k a) d I Q E) E -> wp (m ≫= k) d I Q E.
Proof.
  unfold wp, mbind, M_bind. destruct (m d) as [[tr [e|a]] d']; [done|]. intros [H1 H2].
  destruct (k a d') as [[tr' r] d'']. destruct H2 as [H2 ?]. split; [by apply Forall_app|done].
Qed.

Lemma wp_mono {A} (m : M A) d I I' Q Q' E E' :
  wp m d I Q E -> (forall s, I s -> I' s) -> (forall a s, Q a s -> Q' a s) -> (forall e s, E e s -> E' e s) -> wp m d I' Q' E'.
Proof.
  unfold wp. destruct (m d) as [[tr [e|a]] d']; intros [H1 H2] HI HQ HE; (split; [by eapply Forall_impl|auto]).
Qed.

Lemma wp_cleanup {A} work (m : M A) d I Q E :
  wp m d I (fun a s => I (delete work s) /\ Q a (delete work s)) (fun e s => I (delete work s) /\ E e (delete work s)) ->
  wp (cleanup work m) d I Q E.
Proof.
  unfold wp, cleanup. destruct (m d) as [[tr [e|a]] d']; intros [H1 [H2 H3]];
    (split; [apply Forall_app; split; [done|by repeat constructor]|done]).
Qed.

Ltac wp_step :=
  lazymatch goal with
  | |- wp (_ ≫= _) _ _ _ _ => apply wp_bind
  | |- wp (mret _) _ _ _ _ => apply wp_ret
  | |- wp (fail _) _ _ _ _ => apply wp_fail
  | |- wp get _ _ _ _ => apply wp_get
  | |- wp (put _) _ _ _ _ => apply wp_put
  | |- wp (ensure _ _) _ _ _ _ => apply wp_ensure; intros ?
  | |- wp (some _ _) _ _ _ _ => apply wp_some; [intros ? ?|intros ?]
  end.

Section Spec.
Context {K Sig : Type} (from_base64 : bytes -> option K) (decode : bytes -> option Sig)
  (accepts : K -> Sig -> bool) (verifies : K -> Sig -> bytes -> bool) (sha256 : bytes -> bytes).
Abbreviation run := (run from_base64 decode accepts verifies sha256).
Abbreviation fetch_release := (fetch_release from_base64 decode accepts verifies sha256).
Abbreviation release_key := (release_key from_base64).

Context (e : Env) (io : Io) (target prefix : bytes) (d0 : Parent).
Let work := work_of e.
Let probe : bytes := probe_of e.
Let url : bytes := base_of target ++ lit "/" ++ tarball_of e target.

(** ** A release this build trusts *)

(** The bytes [c] were published for [target] with a matching checksum and, when the build has a
    key, a signature of it over them. *)
Definition trusted (c : bytes) : Prop :=
  fetch e url = Some c /\
  (exists sum, fetch e (url ++ lit ".sha256") = Some sum /\ sha256 c ≫= hex = to_ascii_lowercase (word (trim_start sum))) /\
  match release_key with
  | Some key => exists text sig, fetch e (url ++ lit ".minisig") = Some text /\ decode text = Some sig /\
                  accepts key sig = true /\ verifies key sig c = true
  | None => True
  end.

Definition executable (t : Node) : Node :=
  let t := chmod_755 (lit "askr") t in if file_in (lit "askr-run.sh") t then chmod_755 (lit "askr-run.sh") t else t.

(** The tree of such a release. *)
Definition authentic (t : Node) : Prop :=
  exists c es t0, trusted c /\ untar e c = Some es /\ child (name_of e target) es = Some t0 /\
    file_in (lit "askr") t0 = true /\ t = executable t0.

(** ** Until the swap *)

(** Only the work directory and the probe have been touched. *)
Definition beside (s : Parent) : Prop := forall n, n <> work -> n <> probe -> s !! n = d0 !! n.

Lemma beside_work f s : beside s -> beside (<[work := f]> s).
Proof. intros H n H1 H2. rewrite lookup_insert_ne by done. by apply H. Qed.

(** What the work directory holds. *)
Definition file s (n : bytes) : option Node := child n (entries (s !! work)).

Lemma child_set (name : bytes) n es k : child k (set_child name n es) = if beq name k then Some n else child k es.
Proof.
  unfold set_child. cbn. destruct (beq name k) eqn:E; [done|]. unfold without.
  induction es as [|[k1 n1] es IH]; [done|]. cbn. destruct (beq k1 name) eqn:E1; cbn.
  - apply beq_true in E1. subst k1. by rewrite E.
  - destruct (beq k1 k); [done|]. exact IH.
Qed.

Lemma beq_ne x y : x <> y -> beq x y = false.
Proof. intros H. destruct (beq x y) eqn:E; [by apply beq_true in E|done]. Qed.

Lemma file_set (name : bytes) n s k :
  file (<[work := Dir (set_child name n (entries (s !! work)))]> s) k = if beq name k then Some n else file s k.
Proof. unfold file. rewrite lookup_insert_eq. apply child_set. Qed.

Lemma wp_read (name c : bytes) (m : Z) s I (Q : bytes -> Parent -> Prop) E :
  file s name = Some (File c m) -> Q c s -> wp (read_file work name) s I Q E.
Proof. intros H HQ. unfold read_file. repeat wp_step. unfold file in H. by rewrite H. Qed.

Lemma wp_read_text (name c : bytes) (m : Z) s I (Q : bytes -> Parent -> Prop) E :
  file s name = Some (File c m) -> Q c s -> (forall err, E err s) -> wp (read_to_string work name) s I Q E.
Proof. intros H HQ HE. unfold read_to_string. wp_step. eapply wp_read; [done|]. repeat wp_step; auto. Qed.

Lemma wp_download (name u : bytes) (err : Error) s :
  beside s ->
  wp (download e io u work name err) s beside
    (fun _ s' => beside s' /\ (exists c m, fetch e u = Some c /\ file s' name = Some (File c m)) /\
                 forall k, k <> name -> file s' k = file s k)
    (fun _ s' => beside s').
Proof.
  intros Hb. unfold download, in_work. repeat wp_step; try done; try by apply beside_work.
  split; [by apply beside_work|]. split.
  - eexists _, _. split; [done|]. rewrite file_set. by rewrite beq_refl.
  - intros k Hk. rewrite file_set. by rewrite beq_ne.
Qed.

Lemma wp_sha256 (name sumname c sum : bytes) (m m' : Z) s :
  beside s -> file s name = Some (File c m) -> file s sumname = Some (File sum m') ->
  wp (verify_sha256 sha256 work name sumname) s beside
    (fun _ s' => s' = s /\ sha256 c ≫= hex = to_ascii_lowercase (word (trim_start sum))) (fun _ s' => s' = s).
Proof.
  intros Hb H1 H2. unfold verify_sha256. wp_step. eapply wp_read_text; [done| |done]. repeat wp_step; try done.
  eapply wp_read; [done|]. wp_step; [|done]. split; [done|]. by apply beq_true.
Qed.

Lemma wp_signature (name signame c text : bytes) (m m' : Z) (key : K) s :
  beside s -> file s name = Some (File c m) -> file s signame = Some (File text m') ->
  wp (verify_signature decode accepts verifies work name signame key) s beside
    (fun _ s' => s' = s /\ exists sig, decode text = Some sig /\ accepts key sig = true /\ verifies key sig c = true)
    (fun _ s' => s' = s).
Proof.
  intros Hb H1 H2. unfold verify_signature. wp_step. eapply wp_read_text; [done| |done]. repeat wp_step; try done.
  eapply wp_read; [done|]. wp_step; [|done]. split; [done|]. by eexists.
Qed.

Lemma tarball_ne (x : bytes) : x <> [] -> tarball_of e target ++ x <> tarball_of e target.
Proof. intros Hx E. apply Hx. apply (app_inv_head (tarball_of e target)). by rewrite app_nil_r. Qed.

Lemma tarball_not_name (x : bytes) : name_of e target <> tarball_of e target ++ x.
Proof.
  intros E. apply (f_equal length) in E. unfold tarball_of in E. rewrite !length_app in E.
  change (length (lit ".tar.gz")) with 7%nat in E. lia.
Qed.

Lemma wp_fetch s :
  beside s -> file s (name_of e target) = None ->
  wp (fetch_release e io target) s beside
    (fun _ s' => beside s' /\ file s' (name_of e target) = None /\
                 exists c m, trusted c /\ file s' (tarball_of e target) = Some (File c m))
    (fun _ s' => beside s').
Proof.
  intros Hb Hn. unfold Upgrade.fetch_release. fold work url. pose proof tarball_not_name as Hne.
  pose proof (Hne []) as Hne0. rewrite app_nil_r in Hne0. wp_step.
  eapply wp_mono; [by apply wp_download|done| |done]. cbn beta. intros _ s1 (Hb1 & (c & m & Ec & F1) & Fr1). wp_step.
  rewrite <- (Fr1 (name_of e target)) in Hn by done.
  eapply wp_mono; [by apply wp_download|done| |done]. cbn beta. intros _ s2 (Hb2 & (sum & m2 & Es & F2) & Fr2).
  rewrite <- (Fr2 (name_of e target)) in Hn by done.
  rewrite <- (Fr2 (tarball_of e target)) in F1 by (intros E; symmetry in E; by apply tarball_ne in E). wp_step.
  eapply wp_mono; [by eapply wp_sha256|done| |by intros ? ? ->]. cbn beta. intros _ ? [-> Hsum].
  destruct release_key as [key|] eqn:Ek.
  - wp_step. eapply wp_mono; [by apply wp_download|done| |done]. cbn beta. intros _ s3 (Hb3 & (text & m3 & Et & F3) & Fr3).
    rewrite <- (Fr3 (name_of e target)) in Hn by done.
    rewrite <- (Fr3 (tarball_of e target)) in F1 by (intros E; symmetry in E; by apply tarball_ne in E).
    eapply wp_mono; [by eapply wp_signature|done| |by intros ? ? ->]. cbn beta.
    intros _ ? [-> (sig & ? & ? & ?)]. split; [done|]. split; [done|]. exists c, m. split; [|done]. unfold trusted.
    rewrite Ek. split; [done|]. split; [by exists sum|]. by exists text, sig.
  - wp_step. split; [done|]. split; [done|]. exists c, m. split; [|done]. unfold trusted. rewrite Ek.
    split; [done|]. split; [by exists sum|done].
Qed.

Lemma child_app k (es es' : list (bytes * Node)) :
  child k (es ++ es') = match child k es with Some n => Some n | None => child k es' end.
Proof. induction es as [|[k1 n1] es IH]; [done|]. cbn. by destruct (beq k1 k). Qed.

Lemma child_filter k f (es : list (bytes * Node)) : child k es = None -> child k (List.filter f es) = None.
Proof.
  induction es as [|[k1 n1] es IH]; [done|]. cbn. destruct (beq k1 k) eqn:E; [done|]. intros H.
  destruct (f (k1, n1)); cbn; [rewrite E|]; by apply IH.
Qed.

Lemma wp_unpack (c : bytes) (m : Z) s :
  beside s -> file s (name_of e target) = None -> trusted c -> file s (tarball_of e target) = Some (File c m) ->
  wp (unpack e io target) s beside
    (fun _ s' => beside s' /\ exists t, file s' (name_of e target) = Some t /\ authentic t) (fun _ s' => beside s').
Proof.
  intros Hb Hn Hc F. unfold unpack, make_executable, in_work. fold work. wp_step. eapply wp_read; [done|].
  wp_step. wp_step; [|done]. rename a into es. wp_step. wp_step; [by apply beside_work|]. set (s1 := <[work := _]> s).
  assert (beside s1) as Hb1 by by apply beside_work.
  assert (file s1 (name_of e target) = child (name_of e target) es) as F1.
  { unfold file, s1. rewrite lookup_insert_eq. cbn [entries]. rewrite child_app.
    destruct (child (name_of e target) es); [done|]. by apply child_filter. }
  fold (file s1 (name_of e target)). repeat wp_step; try done.
  { by apply beside_work. }
  rename a into t0. unfold file in F1. rewrite F1 in H0. set (t1 := chmod_755 (lit "askr") t0).
  set (s2 := <[work := _]> s1). assert (beside s2) as Hb2 by by apply beside_work.
  assert (file s2 (name_of e target) = Some t1) as F2 by (unfold s2; rewrite file_set; by rewrite beq_refl).
  destruct (file_in (lit "askr-run.sh") t1) eqn:Er.
  - repeat wp_step; try done; try by apply beside_work. split; [by apply beside_work|].
    eexists. split; [rewrite file_set; by rewrite beq_refl|]. exists c, es, t0. unfold executable. fold t1. by rewrite Er.
  - wp_step. split; [done|]. exists t1. split; [done|]. exists c, es, t0. unfold executable. fold t1. by rewrite Er.
Qed.

(** ** The swap *)

(** The install is the old one, or it has been moved aside, and in its place is nothing or an
    authentic release. *)
Definition kept s : Prop :=
  s !! prefix = d0 !! prefix \/
  s !! backup = d0 !! prefix /\ (s !! prefix = None \/ exists t, s !! prefix = Some t /\ authentic t).
Definition untouched s : Prop := forall n, n <> work -> n <> probe -> n <> prefix -> n <> backup -> s !! n = d0 !! n.
Definition safe s : Prop := kept s /\ untouched s.
Definition replaced s : Prop := s !! backup = d0 !! prefix /\ exists t, s !! prefix = Some t /\ authentic t.

Context (Hpb : prefix <> backup) (Hpw : prefix <> work) (Hpp : prefix <> probe).

Lemma backup_ne : backup <> work /\ backup <> probe.
Proof. split; intros E; apply (f_equal (fun b => nth 0 b 0)) in E; discriminate E. Qed.

Lemma beside_safe s : beside s -> safe s.
Proof. intros H. split; [left; by apply H|]. intros n H1 H2 _ _. by apply H. Qed.

Lemma safe_other (n : bytes) (v : option Node) s : (n = work \/ n = probe) -> safe s -> safe (partial_alter (fun _ => v) n s).
Proof.
  intros Hn [Hk Hu]. pose proof backup_ne as [? ?].
  assert (n <> prefix /\ n <> backup) as [? ?] by (destruct Hn; subst; split; congruence).
  split; [unfold kept in *; by rewrite !lookup_partial_alter_ne|]. intros k ? ? ? ?.
  destruct (decide (n = k)) as [->|]; [by destruct Hn|]. rewrite lookup_partial_alter_ne by done. by apply Hu.
Qed.

Lemma wp_rename (ok : bool) (a b : bytes) (err : Error) s I (Q : unit -> Parent -> Prop) E :
  a <> b ->
  (forall n : Node, s !! a = Some n -> ok = true -> free b s = true -> I (<[b := n]> (delete a s)) /\ Q tt (<[b := n]> (delete a s))) ->
  (ok && free b s = false \/ s !! a = None -> E err s) ->
  wp (rename ok a b err) s I Q E.
Proof.
  intros Hab HQ HE. unfold rename. do 2 wp_step. wp_step. wp_step; [|auto]. rewrite beq_ne by done. wp_step. wp_step; [|auto].
  apply andb_true_iff in H0 as [? ?]. destruct (HQ a0) as [? ?]; try done. by apply wp_put.
Qed.

Lemma wp_roll_back s I (Q : unit -> Parent -> Prop) E :
  wp (rename (back_ok io) backup prefix RolledBack) s I (fun _ s' => E RolledBack s') (fun _ s' => E RolledBack s') ->
  wp (roll_back io prefix) s I Q E.
Proof. unfold wp, roll_back. by destruct (rename _ _ _ _ s) as [[tr [err|u]] d']. Qed.

Lemma wp_swap t s :
  beside s -> file s (name_of e target) = Some t -> authentic t -> is_Some (d0 !! prefix) ->
  wp (swap e io target prefix) s safe (fun _ s' => untouched s' /\ replaced s')
    (fun err s' => safe s' /\ (s' !! prefix = d0 !! prefix \/ err = RolledBack /\ back_ok io = false)).
Proof.
  intros Hb F Ht [old Hold]. pose proof backup_ne as [Hbw Hbp]. unfold swap. wp_step.
  set (g := fun d => match d !! backup with Some _ => _ | None => d end). set (s1 := g s).
  assert (forall n, n <> backup -> s1 !! n = s !! n) as E1.
  { intros n Hn. unfold s1, g. destruct (s !! backup); [|done]. destruct (old_left io); [by rewrite lookup_insert_ne|].
    by rewrite lookup_delete_ne. }
  assert (s1 !! prefix = d0 !! prefix) as P1 by (rewrite E1 by done; by apply Hb).
  assert (untouched s1) as U1 by (intros n ? ? ? ?; rewrite E1 by done; by apply Hb).
  assert (safe s1) as S1 by (split; [by left|done]). apply wp_put; [done|]. fold s1. wp_step.
  apply wp_rename; [done| |by auto]. intros n Hn _ _. rewrite P1, Hold in Hn. injection Hn as <-.
  set (s2 := <[backup := old]> (delete prefix s1)).
  assert (s2 !! backup = d0 !! prefix) as B2 by (unfold s2; by rewrite lookup_insert_eq).
  assert (s2 !! prefix = None) as P2 by (unfold s2; rewrite lookup_insert_ne by done; by rewrite lookup_delete_eq).
  assert (forall n, n <> prefix -> n <> backup -> s2 !! n = s1 !! n) as E2.
  { intros n ? ?. unfold s2. rewrite lookup_insert_ne, lookup_delete_ne by done. done. }
  assert (untouched s2) as U2 by (intros n ? ? ? ?; rewrite E2 by done; by apply U1).
  split; [split; [right; split; [done|by left]|done]|]. fold work. unfold place. do 2 wp_step. wp_step.
  assert (child (name_of e target) (entries (s2 !! work)) = Some t) as ->.
  { rewrite E2, E1 by done. exact F. }
  unfold free. rewrite P2. destruct (place_ok io); cbn [andb].
  - set (s3 := <[prefix := t]> (<[work := Dir (without (name_of e target) (entries (s2 !! work)))]> s2)).
    assert (s3 !! backup = d0 !! prefix) as B3 by (unfold s3; by rewrite !lookup_insert_ne).
    assert (s3 !! prefix = Some t) as P3 by (unfold s3; by rewrite lookup_insert_eq).
    assert (untouched s3) as U3 by (intros n ? ? ? ?; unfold s3; rewrite !lookup_insert_ne by done; by apply U2).
    wp_step. apply wp_put; [split; [right; split; [done|right; by exists t]|done]|]. do 2 wp_step.
    split; [done|]. split; [done|by exists t].
  - wp_step. apply wp_roll_back, wp_rename; [congruence| |].
    + intros n Hn _ _. rewrite B2, Hold in Hn. injection Hn as <-. set (s3 := <[prefix := old]> (delete backup s2)).
      assert (s3 !! prefix = d0 !! prefix) as P3 by (unfold s3; by rewrite lookup_insert_eq).
      assert (safe s3) as S3; [|by auto].
      split; [by left|]. intros n ? ? ? ?. unfold s3. rewrite lookup_insert_ne, lookup_delete_ne by done. by apply U2.
    + unfold free. rewrite P2, B2, Hold, andb_true_r. intros [Hok|?]; [|done]. split; [|by right].
      split; [right; split; [by rewrite B2|by left]|done].
Qed.

(** ** The whole command *)

(** What the command says is what it did. *)
Definition outcome (r : Error + Done) s : Prop :=
  match r with
  | inr (Installed _) => replaced s
  | inr _ => s = d0
  | inl RolledBack => s !! prefix = d0 !! prefix \/ back_ok io = false
  | inl _ => s !! prefix = d0 !! prefix
  end.

Lemma outcome_other (n : bytes) (v : option Node) r s :
  (n = work \/ n = probe) -> (forall x, r = inr x -> exists b, x = Installed b) ->
  outcome r s -> outcome r (partial_alter (fun _ => v) n s).
Proof.
  intros Hn Hr Ho. pose proof backup_ne as [? ?].
  assert (n <> prefix /\ n <> backup) as [? ?] by (destruct Hn; subst; split; congruence).
  unfold outcome, replaced in *. destruct r as [[]|x]; rewrite ?lookup_partial_alter_ne by done; try done.
  by destruct (Hr x eq_refl) as [b ->].
Qed.

Lemma wp_install b :
  is_Some (d0 !! prefix) ->
  wp (ensure_writable e io;;
      in_workdir e io (fetch_release e io target;; unpack e io target;; swap e io target prefix;; mret (Installed b))) d0
    safe (fun x s => safe s /\ x = Installed b /\ outcome (inr x) s) (fun err s => safe s /\ outcome (inl err) s).
Proof.
  intros Hd. assert (beside d0) as Hb0 by done. assert (forall err, outcome (inl err) d0) as Hout by (intros []; by try left).
  assert (forall s err, beside s -> safe s /\ outcome (inl err) s) as Hbs.
  { intros s err H. split; [by apply beside_safe|]. destruct err; by try left; apply H. }
  assert (forall s, safe s -> safe (delete work s)) as Hdel by (intros; by apply safe_other; [left|]).
  unfold ensure_writable. do 2 wp_step. wp_step; [|by apply Hbs]. fold probe. wp_step. set (s1 := <[probe := File [] 0x1A4]> d0).
  assert (beside s1) as Hb1 by (intros n ? ?; unfold s1; by rewrite lookup_insert_ne).
  wp_step; [by apply beside_safe|]. set (s2 := delete probe s1).
  assert (beside s2) as Hb2 by (intros n ? ?; unfold s2; rewrite lookup_delete_ne by done; by apply Hb1).
  wp_step; [by apply beside_safe|]. unfold in_workdir. fold work. wp_step. set (s3 := delete work s2).
  assert (beside s3) as Hb3 by (intros n ? ?; unfold s3; rewrite lookup_delete_ne by done; by apply Hb2).
  wp_step; [by apply beside_safe|]. wp_step. wp_step; [|by apply Hbs]. wp_step. set (s4 := <[work := Dir []]> s3).
  assert (beside s4) as Hb4 by (intros n ? ?; unfold s4; rewrite lookup_insert_ne by done; by apply Hb3).
  wp_step; [by apply beside_safe|]. apply wp_cleanup.
  assert (forall err s, safe s /\ outcome (inl err) s ->
    safe (delete work s) /\ safe (delete work s) /\ outcome (inl err) (delete work s)) as Hend.
  { intros err s [? ?]. split; [by apply Hdel|]. split; [by apply Hdel|]. apply outcome_other; [by left|done|done]. }
  wp_step. eapply wp_mono; [apply wp_fetch; [done|unfold file, s4; by rewrite lookup_insert_eq]|apply beside_safe| |by auto].
  cbn beta. intros _ s5 (Hb5 & Hn5 & c & m & Hc & F5). wp_step.
  eapply wp_mono; [by eapply wp_unpack|apply beside_safe| |by auto]. cbn beta. intros _ s6 (Hb6 & t & F6 & Ht). wp_step.
  eapply wp_mono; [by eapply wp_swap|done| |].
  - cbn beta. intros _ s7 [Hu Hr]. wp_step. assert (safe s7) as S7 by (split; [right; split; [apply Hr|right; apply Hr]|done]).
    split; [by apply Hdel|]. split; [by apply Hdel|]. split; [done|].
    apply (outcome_other work None (inr (Installed b))); [by left|intros x [= <-]; by eexists|done].
  - cbn beta. intros err s7 [S7 Ho]. apply Hend. split; [done|]. destruct Ho as [Ho|[-> Ho]]; [|by right].
    destruct err; by try left.
Qed.

(** C18.  An upgrade replaces the install by a release that this build trusts, or it leaves it.  At every
    moment at which the process can be killed the install is the old one, or the old one has been
    moved to [askr.old] and in its place is nothing or the new one, whole: unpacked from bytes that
    were published for that version, that match their checksum, and that the release key signed.
    Nothing else in the directory changes.  A command that fails leaves the old install in its
    place, unless the system refuses the rename that takes it back; one that only looks changes
    nothing. *)
Theorem upgrade_safe o :
  exe_dir e = Some prefix -> (forall t, target_of o e = Some t -> t = target) ->
  let '(tr, r, d) := run o e io d0 in Forall safe tr /\ safe d /\ outcome r d.
Proof.
  intros Hp Ht.
  assert (wp (run o e io) d0 safe (fun x s => safe s /\ outcome (inr x) s) (fun err s => safe s /\ outcome (inl err) s)) as H.
  { assert (safe d0) as S0 by (apply beside_safe; done).
    assert (forall err, safe d0 /\ outcome (inl err) d0) as H0 by (intros []; split; by try left).
    unfold Upgrade.run. wp_step. wp_step; [|by apply H0]. rewrite (Ht _ H).
    destruct (_ && _); [by wp_step|]. destruct (check o); [wp_step; split; [done|by destruct (beq _ _)]|].
    do 5 (wp_step; wp_step; [|by apply H0]). wp_step. wp_step; [|by apply H0].
    match goal with E : exe_dir e = Some _ |- _ => rewrite Hp in E; injection E as <- end.
    do 4 wp_step; [|by apply H0].
    eapply wp_mono; [apply (wp_install (restart o))|done| |done]; [|by cbn; intros x s (? & _ & ?)].
    destruct (d0 !! prefix); [done|discriminate]. }
  unfold wp in H. destruct (run o e io d0) as [[tr [err|x]] d]; by destruct H.
Qed.
End Spec.

(** ** An upgrade *)

(** One key; a signature is the bytes it is of; a digest is the length of what was digested. *)
Module Sample.
Definition tar : bytes := lit "the tarball".
Definition digest (c : bytes) : bytes := replicate 32 (Z.of_nat (length c)).
Definition release : Node := Dir [(lit "askr", File (lit "new") 0x1A4); (lit "lib", Dir [])].
Definition old : Node := Dir [(lit "askr", File (lit "old") 0x1ED); (lit "lib", Dir [])].
Definition ends (b s : bytes) : bool := starts_with (reverse b) (reverse s).

Definition served (signature : bytes) (u : bytes) : option bytes :=
  if ends u (lit ".minisig") then Some signature
  else if ends u (lit ".sha256") then Some ((digest tar ≫= hex) ++ lit "  askr.tar.gz")
  else Some tar.
Definition env (prefix signature : bytes) : Env :=
  mkEnv (lit "1.9.4") 7 (Some (lit "https://github.com/kwhorne/askr/releases/tag/v1.9.5")) true false (fun _ => true)
    (lit "x86_64") (Some prefix) (served signature) (fun c => if beq c tar then Some [(lit "askr-1.9.5-linux-x86_64", release)] else None).
Definition io (place back : bool) : Io := mkIo true true true true None true place back.
Definition before (prefix : bytes) : Parent := <[lit "other" := Dir []]> (<[prefix := old]> ∅).
Definition upgrade (o : Options) (prefix signature : bytes) (place back : bool) :=
  Upgrade.run (fun _ => Some tt) (fun b => Some b) (fun _ _ => true) (fun _ sig c => beq sig c) digest
    o (env prefix signature) (io place back) (before prefix).
Definition latest : Options := mkOptions false None false.
End Sample.

Example upgraded :
  let '(tr, r, d) := Sample.upgrade Sample.latest (lit "askr") Sample.tar true true in
  r = inr (Installed false) /\ d !! lit "askr.old" = Some Sample.old /\
  d !! lit "askr" = Some (Dir [(lit "askr", File (lit "new") 0x1ED); (lit "lib", Dir [])]) /\ size d = 3%nat.
Proof. by vm_compute. Qed.

Example forged :
  let '(tr, r, d) := Sample.upgrade Sample.latest (lit "askr") (lit "another") true true in
  r = inl VerificationFailed /\ d = Sample.before (lit "askr").
Proof. by vm_compute. Qed.

Lemma upgrade_safe_witness :
  let e := Sample.env (lit "askr") Sample.tar in
  let safe := safe (fun _ => Some tt) (fun b : bytes => Some b) (fun _ _ => true) (fun _ sig c => beq sig c) Sample.digest
    e (lit "1.9.5") (lit "askr") (Sample.before (lit "askr")) in
  let '(tr, r, d) := Sample.upgrade Sample.latest (lit "askr") Sample.tar true true in
  (exists b, r = inr (Installed b)) /\ Forall safe tr /\ safe d.
Proof.
  cbn zeta.
  pose proof (upgrade_safe (fun _ => Some tt) (fun b : bytes => Some b) (fun _ _ => true) (fun _ sig c => beq sig c)
    Sample.digest (Sample.env (lit "askr") Sample.tar) (Sample.io true true) (lit "1.9.5") (lit "askr")
    (Sample.before (lit "askr")) ltac:(discriminate) ltac:(discriminate) ltac:(discriminate) Sample.latest
    eq_refl ltac:(vm_compute; by intros t [= <-])) as H.
  unfold Sample.upgrade. assert (exists b, (Upgrade.run (fun _ => Some tt) (fun b : bytes => Some b) (fun _ _ => true)
    (fun _ sig c => beq sig c) Sample.digest Sample.latest (Sample.env (lit "askr") Sample.tar) (Sample.io true true)
    (Sample.before (lit "askr"))).1.2 = inr (Installed b)) as Hi by (exists false; vm_compute; reflexivity).
  revert H Hi. destruct (Upgrade.run _ _ _ _ _ _ _ _ _) as [[tr r] d]. intros (H1 & H2 & _) Hi. split; [exact Hi|]. split; assumption.
Defined.

(** *** Where it is not atomic *)

(** A process that is killed between the two renames leaves no install at all. *)
Lemma killed_between_the_renames :
  let '(tr, r, d) := Sample.upgrade Sample.latest (lit "askr") Sample.tar true true in
  existsb (fun s => match s !! lit "askr", s !! lit "askr.old" with None, Some _ => true | _, _ => false end) tr = true.
Proof. by vm_compute. Qed.

(** So does one whose way back is refused, and it says that it was rolled back. *)
Lemma rolled_back_or_not :
  let '(tr, r, d) := Sample.upgrade Sample.latest (lit "askr") Sample.tar false false in
  r = inl RolledBack /\ d !! lit "askr" = None.
Proof. by vm_compute. Qed.

(** The old install upgrades itself by removing itself: [askr.old] is what is cleared first. *)
Lemma upgrade_from_the_backup :
  let '(tr, r, d) := Sample.upgrade Sample.latest (lit "askr.old") Sample.tar true true in
  r = inl NotMovedAside /\ d !! lit "askr.old" = None.
Proof. by vm_compute. Qed.
