(* ===== verification/Worker.v ===== *)
(** How a worker starts ([worker.rs], [cow_child_setup] of [supervisor.rs]) and what confines it
    ([sandbox.rs]).

    The kernel's answers are parameters: whether seccomp takes a filter, how much of a Landlock
    ruleset it enforces, which access rights it knows, which directories can be opened.  The rights
    themselves are Landlock's: the model has the sets the source asks for, [from_all] and
    [from_read].  A path is the directory it opens, as its components. *)

From stdpp Require Import gmap.
From S2P Require Import Prelude Bytes Http Config.

(** ** The sandbox *)

Record SandboxConfig := mkSandbox { write_paths : list bytes; required : bool }.
Record Report := mkReport { seccomp : bool; landlock_abi : option Z; landlock_partial : bool }.

Definition no_seccomp : bytes := lit "seccomp (process creation is not blocked)".
Definition no_paths : bytes :=
  lit "sandbox_write (no filesystem restriction was requested, so PHP can still write a file into the docroot)".
Definition no_landlock : bytes := lit "landlock (the filesystem is not restricted)".

Definition shortfall (cfg : SandboxConfig) (r : Report) : option bytes :=
  let missing := (if seccomp r then [] else [no_seccomp]) ++
    (if bool_decide (write_paths cfg = []) then [no_paths]
     else if bool_decide (landlock_abi r = None) then [no_landlock] else []) in
  if bool_decide (missing = []) then None else Some (join (lit "; ") missing).

Definition LANDLOCK_ABI : Z := 6.
Inductive Enforced := Fully | Partially | Not.

Definition denied_syscalls : list bytes :=
  [lit "execve"; lit "execveat"; lit "ptrace"; lit "process_vm_readv"; lit "process_vm_writev"].

Section Worker.
Context {Right : Type} (from_all from_read : Right -> bool).
(** The kernel: what it says to a ruleset ([None] is an error), whether it takes the filter, and
    what a path opens. *)
Context (restrict_self : option Enforced) (filter_ok : bool) (open_path : bytes -> option (list bytes)).

Definition Rule : Type := list bytes * (Right -> bool).

(** A process, with what it may no longer do. *)
Record Proc := mkProc { blocked : list bytes; ruleset : option (list Rule) }.
Definition unconfined : Proc := mkProc [] None.

Definition landlock_restrict (cfg : SandboxConfig) (p : Proc) : option Enforced * Proc :=
  match open_path (lit "/"), restrict_self with
  | Some root, Some e =>
      let rules := (root, from_read) :: omap (fun w => d ← open_path w; Some (d, from_all)) (write_paths cfg) in
      (Some e, match e with Not => p | _ => mkProc (blocked p) (Some rules) end)
  | _, _ => (None, p)
  end.

Definition seccomp_no_exec (p : Proc) : bool * Proc :=
  if filter_ok then (true, mkProc denied_syscalls (ruleset p)) else (false, p).

Definition apply (cfg : SandboxConfig) (p : Proc) : Report * Proc :=
  let '(e, p) := if bool_decide (write_paths cfg = []) then (None, p) else landlock_restrict cfg p in
  let abi := match e with Some (Fully | Partially) => Some LANDLOCK_ABI | _ => None end in
  let partial := match e with Some Partially => true | _ => false end in
  let '(sec, p) := seccomp_no_exec p in
  (mkReport sec abi partial, p).

(** The shared counters, which each worker that starts adds to. *)
Record Attested := mkAttested { n_workers : Z; n_seccomp : Z; n_landlock : Z; n_abi : Z }.
Definition attest (r : Report) (m : Attested) : Attested :=
  mkAttested (wrap64 (n_workers m + 1)) (if seccomp r then wrap64 (n_seccomp m + 1) else n_seccomp m)
    (match landlock_abi r with Some _ => wrap64 (n_landlock m + 1) | None => n_landlock m end)
    (match landlock_abi r with Some a => a | None => n_abi m end).

(** What a worker does, in order, and how its start ends. *)
Inductive Event :=
| SetNamespace (docroot : bytes)
| Confine (r : Report) (p : Proc)
| SpawnWorker (script : bytes) | Spawn                   (* the interpreter's thread *)
| Serve (tls : bool) (recycle_after : Z).
Inductive End := Exit (status : Z) | Failed | Serving.
Definition Start (A : Type) : Type := list Event * (End + A).
#[local] Instance Start_ret : MRet Start := fun A a => ([], inr a).
#[local] Instance Start_bind : MBind Start := fun A B k m =>
  match m with
  | (l, inl e) => (l, inl e)
  | (l, inr a) => let '(l', r) := k a in (l ++ l', r)
  end.
Definition did (e : Event) : Start () := ([e], inr tt).
Definition ends {A} (e : End) : Start A := ([], inl e).

Definition apply_or_refuse (cfg : SandboxConfig) : Start () :=
  let '(r, p) := apply cfg unconfined in
  did (Confine r p);;
  if required cfg && negb (bool_decide (shortfall cfg r = None)) then ends (Exit 78) else mret tt.

Definition harden (c : Config) : Start () :=
  if sandbox c then apply_or_refuse (mkSandbox (sandbox_write c) (sandbox_required c)) else mret tt.

(** [build_tls]: [tls] says whether rustls makes an acceptor of what it is given. *)
Definition build_tls (tls_ok : bool) (c : Config) : option bool :=
  if c_tls_self_signed c then if tls_ok then Some true else None
  else match c_tls_cert c, c_tls_key c with
       | Some _, Some _ => if tls_ok then Some true else None
       | _, _ => Some false
       end.

Definition stagger (pid max : Z) : Z :=
  if max =? 0 then 0 else max + pid mod Z.max (max / 2) 1.

Definition run_worker (php_ok tls_ok : bool) (pid : Z) (c : Config) : Start () :=
  did (SetNamespace (docroot c));;
  harden c;;
  (if php_ok then did (match worker_script c with Some s => SpawnWorker s | None => Spawn end) else ends Failed);;
  let recycle_after := stagger pid (max_requests c) in
  match build_tls tls_ok c with
  | Some tls => did (Serve tls recycle_after);; ends Serving
  | None => ends Failed
  end.

(** A worker forked from the template: its application is booted, and its interpreter runs. *)
Definition cow_child_setup (tls_ok : bool) (recycle : Z) (c : Config) : Start () :=
  harden c;;
  did (Serve (default false (build_tls tls_ok c)) recycle);; ends Serving.

(** ** What the confinement means

    Landlock's rule: a right that a ruleset handles, and that the kernel knows, is given beneath
    the directories that a rule gives it for. *)
Definition permits (known : Right -> bool) (p : Proc) (r : Right) (q : list bytes) : bool :=
  match ruleset p with
  | None => true
  | Some rules =>
      negb (from_all r && known r) || existsb (fun d => bool_decide (d.1 `prefix_of` q) && d.2 r) rules
  end.
Definition may_call (p : Proc) (call : bytes) : bool := negb (existsb (beq call) (blocked p)).
End Worker.
