(* ===== verification/WorkerSpec.v ===== *)
(** What a worker that starts has been confined to; and where its start does not keep its word. *)

From stdpp Require Import gmap.
From S2P Require Import Prelude Bytes Http Config ConfigDemo Worker.

Section Spec.
Context {Right : Type} (from_all from_read : Right -> bool).
Context (restrict_self : option Enforced) (filter_ok : bool) (open_path : bytes -> option (list bytes)).
Abbreviation apply := (apply from_all from_read restrict_self filter_ok open_path).
Abbreviation harden := (harden from_all from_read restrict_self filter_ok open_path).
Abbreviation run_worker := (run_worker from_all from_read restrict_self filter_ok open_path).
Abbreviation cow_child_setup := (cow_child_setup from_all from_read restrict_self filter_ok open_path).
Abbreviation Event := (@Worker.Event Right).
Abbreviation permits := (permits from_all).

Lemma shortfall_none cfg r :
  shortfall cfg r = None <-> seccomp r = true /\ write_paths cfg <> [] /\ is_Some (landlock_abi r).
Proof.
  unfold shortfall. rewrite is_Some_alt. destruct (seccomp r); case_bool_decide as H1;
    try (case_bool_decide as H2); cbn; destruct (landlock_abi r); naive_solver.
Qed.

(** The report is what the process has become. *)
Lemma apply_report cfg :
  let '(r, p) := apply cfg unconfined in
  (seccomp r = true <-> blocked p = denied_syscalls) /\
  (is_Some (landlock_abi r) <-> is_Some (ruleset p)) /\
  forall rules, ruleset p = Some rules -> exists root, open_path (lit "/") = Some root /\
    rules = (root, from_read) :: omap (fun w => d ← open_path w; Some (d, from_all)) (write_paths cfg).
Proof.
  unfold apply, landlock_restrict, seccomp_no_exec.
  case_bool_decide; [|destruct (open_path (lit "/")) as [root|]; [destruct restrict_self as [[]|]|]];
    destruct filter_ok; cbn; (split; [naive_solver|]); (split; [rewrite !is_Some_alt; naive_solver|]);
    intros rules [= <-]; eauto.
Qed.

(** What a required sandbox means: no new process, and no right but reading outside of the
    directories that were named. *)
Definition confined (c : Config) (p : Proc) : Prop :=
  (forall call, call ∈ denied_syscalls -> may_call p call = false) /\
  forall known r q, from_all r = true -> from_read r = false -> known r = true ->
    permits known p r q = true <-> exists w d, (w ∈ sandbox_write c) /\ open_path w = Some d /\ d `prefix_of` q.

Lemma whole_confined c r p :
  apply (mkSandbox (sandbox_write c) (sandbox_required c)) unconfined = (r, p) ->
  shortfall (mkSandbox (sandbox_write c) (sandbox_required c)) r = None -> confined c p.
Proof.
  intros E (Hs & Hw & Hl)%shortfall_none. pose proof (apply_report (mkSandbox (sandbox_write c) (sandbox_required c))) as H.
  rewrite E in H. destruct H as (H1 & H2 & H3). apply H1 in Hs. apply H2 in Hl as [rules Er].
  destruct (H3 _ Er) as (root & _ & ->). split.
  - intros call Hc. unfold may_call. rewrite Hs. apply negb_false_iff, existsb_exists.
    exists call. split; [by apply list_elem_of_In|apply beq_refl].
  - intros known x q Ha Hr Hk. unfold permits. rewrite Er, Ha, Hk. cbn [negb andb orb existsb fst snd].
    rewrite Hr, andb_false_r. cbn [orb]. rewrite existsb_exists. split.
    + intros (d & Hd & Hp). apply list_elem_of_In, list_elem_of_omap in Hd as (w & Hin & Hd).
      destruct (open_path w) as [d0|] eqn:Eo; [|done]. cbn in Hd. injection Hd as <-.
      apply andb_true_iff in Hp as [Hp _]. apply bool_decide_eq_true in Hp. by exists w, d0.
    + intros (w & d & Hin & Eo & Hp). exists (d, from_all). split.
      * apply list_elem_of_In, list_elem_of_omap. exists w. split; [done|]. by rewrite Eo.
      * cbn. by rewrite Ha, bool_decide_true.
Qed.

(** Events after which PHP runs, or requests come in. *)
Definition runs (e : Event) : bool := match e with SpawnWorker _ | Spawn | Serve _ _ => true | _ => false end.

(** What [harden] lets through when the sandbox is required. *)
Lemma hardened f k l r :
  let c := assemble_config f k in
  sandbox_required c = true -> harden c = (l, r) ->
  exists rep p, l = [Confine rep p] /\ (r = inl (Exit 78) \/ r = inr tt /\ confined c p).
Proof.
  intros c Hreq. assert (sandbox c = true) as Hs.
  { cbn in *. rewrite Hreq. by destruct (srv_sandbox _). }
  unfold harden. rewrite Hs. unfold apply_or_refuse.
  destruct (apply (mkSandbox (sandbox_write c) (sandbox_required c)) unconfined) as [rep p] eqn:E. cbn [required].
  rewrite Hreq. cbn [andb]. case_bool_decide as Hf; cbn; intros [= <- <-]; exists rep, p; (split; [done|]); [right|by left].
  split; [done|]. by eapply whole_confined.
Qed.

(** Start-up after the sandbox: PHP runs last. *)
Lemma runs_after (pre l : list Event) e post :
  Forall (fun e => runs e = false) l -> forall rest, l ++ rest = pre ++ e :: post -> runs e = true -> forall x, x ∈ l -> x ∈ pre.
Proof.
  revert pre. induction l as [|a l IH]; intros pre Hl rest E He x Hx; [by apply not_elem_of_nil in Hx|].
  apply Forall_cons in Hl as [Ha Hl]. destruct pre as [|b pre]; cbn in E; injection E as E1 E2; [congruence|]. subst b.
  apply elem_of_cons in Hx as [->|Hx]; [left|right]. by eapply IH.
Qed.

(** C19.  A sandbox that is required is there first, for every configuration a file resolves to: a worker
    that starts PHP and a child of the template that takes requests can neither start a program nor
    trace one, and of the rights its kernel can take away it has no more than reading outside of
    the directories the configuration names. *)
Theorem hardened_before_php f k php_ok tls_ok pid recycle evs :
  let c := assemble_config f k in
  sandbox_required c = true ->
  evs = (run_worker php_ok tls_ok pid c).1 \/ evs = (cow_child_setup tls_ok recycle c).1 ->
  forall pre e post, evs = pre ++ e :: post -> runs e = true ->
  exists r p, Confine r p ∈ pre /\ confined c p.
Proof.
  intros c Hreq Hevs pre e post E He. destruct (harden c) as [l r] eqn:Eh.
  destruct (hardened f k l r Hreq Eh) as (rep & p & -> & Hr).
  assert (exists l0, Forall (fun e => runs e = false) (l0 ++ [Confine rep p]) /\ (l0 ++ [Confine rep p]) `prefix_of` evs /\
    (r = inl (Exit 78) -> evs = l0 ++ [Confine rep p])) as (l0 & Hl & [rest Erest] & Hrest).
  { destruct Hevs as [-> | ->]; [exists [SetNamespace (docroot c)]|exists []]; (split; [by repeat constructor|]).
    - unfold run_worker. cbn [mbind Start_bind did]. rewrite Eh. destruct r as [x|[]]; [by split|]. split; [|done].
      destruct php_ok, (build_tls tls_ok c); cbn; by eexists.
    - unfold cow_child_setup. rewrite Eh. cbn [mbind Start_bind]. destruct r as [x|[]]; [by split|]. split; [|done].
      cbn. by eexists. }
  exists rep, p. split.
  - rewrite Erest in E. eapply runs_after; [exact Hl|exact E|done|]. apply elem_of_app. right. by left.
  - destruct Hr as [Hr|[_ Hr]]; [|done]. exfalso. rewrite (Hrest Hr) in E.
    rewrite E in Hl. apply Forall_app in Hl as [_ Hl]. apply Forall_cons in Hl as [Hl _]. congruence.
Qed.

(** Workers of one fleet are recycled apart, and none before its limit. *)
Lemma stagger_bounds pid max : 0 <= pid -> 0 < max -> max <= stagger pid max < max + Z.max (max / 2) 1.
Proof.
  intros Hp Hm. unfold stagger. destruct (Z.eqb_spec max 0); [lia|].
  pose proof (Z.mod_pos_bound pid (Z.max (max / 2) 1)). lia.
Qed.
End Spec.

(** ** A worker *)

(** Two rights, to read and to write; every path opens. *)
Module Sample.
Inductive Right := Read | WriteFile.
Definition all (r : Right) : bool := true.
Definition reads (r : Right) : bool := match r with Read => true | WriteFile => false end.
Definition components (p : bytes) : option (list bytes) :=
  Some (List.filter (fun c => negb (bool_decide (c = []))) (split_on 47 p)).

Definition strict (cert : option bytes) (f : FileConfig) : FileConfig :=
  match server f, f with
  | mkServer a b c d e g h i j k l m n o p q r s t u v _ _ _,
    mkFile _ wk _ ac ad qu sc ca br re rc ps si rd st rl =>
      mkFile (mkServer a b c d e g h i j k l m n o p q r s t u v false true [lit "/srv/storage"]) wk
        (mkTls cert cert false) ac ad qu sc ca br re rc ps si rd st rl
  end.
Definition ck : Checked := checked (lit "/srv/shop/public") (lit "/srv/shop/public") [].
Definition conf (cert : option bytes) : Config := assemble_config (strict cert shop) ck.
Definition worker (e : Enforced) (cert : option bytes) (tls_ok : bool) :=
  Worker.run_worker all reads (Some e) true components true tls_ok 1007 (conf cert).
Definition child (e : Enforced) (cert : option bytes) (tls_ok : bool) :=
  Worker.cow_child_setup all reads (Some e) true components tls_ok 0 (conf cert).
End Sample.

Example started :
  match Sample.worker Fully None true with
  | ([SetNamespace root; Confine r p; Spawn; Serve tls n], inl Serving) =>
      (root, tls, n) = (lit "/srv/shop/public", false, 507) /\ r = mkReport true (Some 6) false /\
      Worker.permits Sample.all (fun _ => true) p Sample.WriteFile [lit "srv"; lit "storage"; lit "x"] = true /\
      Worker.permits Sample.all (fun _ => true) p Sample.WriteFile [lit "srv"; lit "shop"; lit "public"; lit "x.php"] = false /\
      Worker.permits Sample.all (fun _ => true) p Sample.Read [lit "srv"; lit "shop"; lit "public"; lit "x.php"] = true
  | _ => False
  end.
Proof. by vm_compute. Qed.

Example refused :
  match Sample.worker Not None true with ([_; Confine _ _], inl (Exit 78)) => True | _ => False end.
Proof. by vm_compute. Qed.

Lemma hardened_before_php_witness :
  exists pre e post r p, (Sample.worker Fully None true).1 = pre ++ e :: post /\ runs e = true /\
    Confine r p ∈ pre /\ confined Sample.all Sample.reads Sample.components (Sample.conf None) p.
Proof.
  destruct (Sample.worker Fully None true).1 as [|e0 [|e1 [|e2 post]]] eqn:E; try discriminate E.
  assert (runs e2 = true) as He by (vm_compute in E; injection E as <- <- <- _; reflexivity).
  destruct (hardened_before_php Sample.all Sample.reads (Some Fully) true Sample.components (Sample.strict None shop)
    Sample.ck true true 1007 0 (Sample.worker Fully None true).1 eq_refl (or_introl eq_refl) [e0; e1] e2 post E He)
    as (r & p & H1 & H2).
  exists [e0; e1], e2, post, r, p. repeat (split; [first [reflexivity|assumption]|]). assumption.
Defined.

(** *** Where the start does not keep its word *)

(** A child of the template that cannot load its certificate serves without one, where a worker
    ends. *)
Lemma cow_child_serves_plain :
  (exists l, Sample.worker Fully (Some (lit "/etc/cert.pem")) false = (l, inl Failed)) /\
  exists l, Sample.child Fully (Some (lit "/etc/cert.pem")) false = (l ++ [Serve false 0], inl Serving).
Proof. split; eexists; [by vm_compute|]. by instantiate (1 := [_]). Qed.

(** The attested counts are of starts, not of workers: they do not go down when one ends. *)
Lemma attested_starts (r : Report) n :
  n_workers (Nat.iter n (attest r) (mkAttested 0 0 0 0)) = wrap64 (Z.of_nat n).
Proof.
  induction n as [|n IH]; [done|]. rewrite Nat.iter_succ. cbn [attest n_workers]. rewrite IH. unfold wrap64, W64.
  rewrite Zplus_mod_idemp_l. f_equal. lia.
Qed.
