(* ===== verification/Serving.v ===== *)
(** The life of a worker that serves ([run], [serve_conn], [serve_io] and [finish] of
    [server/mod.rs], with the requests of [http3.rs]): it accepts connections, sheds those past its
    cap, and drains when it is told to or has served enough.

    A worker is a state machine; its events are what the kernel, its clients and its own tasks do,
    one at a time, in any order.  [step] is [None] where an event cannot happen.  A connection may
    carry several requests at once (HTTP/2).  Time is in milliseconds. *)

From stdpp Require Import gmap.
From S2P Require Import Prelude Bytes Bridge.

Definition MAX_CONNECTIONS : Z := 8192.
Definition DRAIN_MS : Z := 10000.

(** A connection: in its handshake, or with requests that are handled and answers that are sent;
    [asked] to close after them. *)
Inductive Conn := Shaking | Open (handling sending : nat) (asked : bool).
Inductive Phase := Accepting | Draining (deadline : Z) | Returned.

(** [Runtime], with [draining] and the clock; [gone] counts tasks that panicked, [quic] the
    requests under way over HTTP/3. *)
Record Worker := mkWorker {
  phase : Phase; conns : gmap nat Conn; active : Z; served : Z; permit : bool; draining : bool; now : Z;
  gone : Z; quic : nat }.

(** [counted] is whether [handle] calls [finish]: it does not for a file, an upgrade, a stream of
    events or a replay. *)
Inductive Event :=
| Accept (i : nat) | AcceptError
| Handshake (i : nat) | HandshakeEnds (i : nat)       (* done; failed or timed out *)
| Request (i : nat) | Handled (i : nat) (counted : bool) | Sent (i : nat)
| Close (i : nat) | Panic (i : nat)                   (* by the client, an upgrade or an error *)
| QuicRequest | QuicHandled (counted : bool) | QuicEnds
| Recycle | Term                                      (* [shutdown.notified()], [sigterm.recv()] *)
| Notice (i : nat)                                    (* the connection sees the drain *)
| Poll | Tick (ms : Z).

Section Serving.
Context (tls http3 : bool) (recycle_after : Z).

Definition with_conns (w : Worker) (m : gmap nat Conn) (a : Z) : Worker :=
  mkWorker (phase w) m a (served w) (permit w) (draining w) (now w) (gone w) (quic w).
Definition with_phase (w : Worker) (p : Phase) (d : bool) : Worker :=
  mkWorker p (conns w) (active w) (served w) (permit w) d (now w) (gone w) (quic w).
Definition with_quic (w : Worker) (n : nat) : Worker :=
  mkWorker (phase w) (conns w) (active w) (served w) (permit w) (draining w) (now w) (gone w) n.
Definition tick (ms : Z) (w : Worker) : Worker :=
  mkWorker (phase w) (conns w) (active w) (served w) (permit w) (draining w) (now w + ms) (gone w) (quic w).
Definition set_conn (i : nat) (c : Conn) (w : Worker) : Worker := with_conns w (<[i := c]> (conns w)) (active w).
(** The task of a connection ends, and with it [rt.active.fetch_sub(1)]; a task that panics does
    not come to that. *)
Definition end_conn (i : nat) (w : Worker) : Worker := with_conns w (delete i (conns w)) (active w - 1).
Definition lose_conn (i : nat) (w : Worker) : Worker :=
  mkWorker (phase w) (delete i (conns w)) (active w) (served w) (permit w) (draining w) (now w) (gone w + 1) (quic w).

(** [accept] came back with a connection. *)
Definition accepted (i : nat) (w : Worker) : Worker :=
  if MAX_CONNECTIONS <=? active w then w
  else with_conns w (<[i := if tls then Shaking else Open 0 0 false]> (conns w)) (active w + 1).

(** The end of the loop: every connection is asked to finish, and is waited for. *)
Definition drain (w : Worker) : Worker := with_phase w (Draining (now w + DRAIN_MS)) true.
Definition poll_drain (w : Worker) : option Worker :=
  match phase w with
  | Draining d => Some (if (0 <? active w) && (now w <? d) then w else with_phase w Returned (draining w))
  | _ => None
  end.

(** [finish], but for the metrics. *)
Definition finish (w : Worker) : Worker :=
  if 0 <? recycle_after then
    let n := served w + 1 in
    mkWorker (phase w) (conns w) (active w) n (permit w || (n =? recycle_after)) (draining w) (now w) (gone w) (quic w)
  else w.
Definition handled (counted : bool) (w : Worker) : Worker := if counted then finish w else w.

(** A connection that is asked to close: at once if it is idle, after its answers if it is not. *)
Definition settle (i h s : nat) (asked : bool) (w : Worker) : Worker :=
  if asked && bool_decide (h + s = 0)%nat then end_conn i w else set_conn i (Open h s asked) w.
Definition asked_to_close (i : nat) (c : Conn) (w : Worker) : Worker :=
  match c with Shaking => end_conn i w | Open h s _ => settle i h s true w end.

Definition step (w : Worker) (e : Event) : option Worker :=
  match phase w with Returned => None | _ =>
  match e with
  | Accept i => match phase w, conns w !! i with Accepting, None => Some (accepted i w) | _, _ => None end
  | AcceptError => match phase w with Accepting => Some w | _ => None end
  | Recycle => match phase w with Accepting => if permit w then Some (drain w) else None | _ => None end
  | Term => match phase w with Accepting => Some (drain w) | _ => None end
  | Handshake i => match conns w !! i with Some Shaking => Some (set_conn i (Open 0 0 false) w) | _ => None end
  | HandshakeEnds i => match conns w !! i with Some Shaking => Some (end_conn i w) | _ => None end
  | Request i => match conns w !! i with Some (Open h s false) => Some (set_conn i (Open (S h) s false) w) | _ => None end
  | Handled i counted =>
      match conns w !! i with
      | Some (Open (S h) s asked) => Some (set_conn i (Open h (S s) asked) (handled counted w))
      | _ => None
      end
  | Sent i => match conns w !! i with Some (Open h (S s) asked) => Some (settle i h s asked w) | _ => None end
  | Close i => match conns w !! i with Some (Open _ _ _) => Some (end_conn i w) | _ => None end
  | Panic i => match conns w !! i with Some _ => Some (lose_conn i w) | None => None end
  | QuicRequest => if http3 then Some (with_quic w (S (quic w))) else None
  | QuicHandled counted => match quic w with S _ => Some (handled counted w) | O => None end
  | QuicEnds => match quic w with S n => Some (with_quic w n) | O => None end
  | Notice i =>
      match phase w, conns w !! i with Draining _, Some c => Some (asked_to_close i c w) | _, _ => None end
  | Poll => poll_drain w
  | Tick ms => if 0 <=? ms then Some (tick ms w) else None
  end end.

Fixpoint run (w : Worker) (es : list Event) : option Worker :=
  match es with [] => Some w | e :: es => w' ← step w e; run w' es end.

Definition start (t : Z) : Worker := mkWorker Accepting ∅ 0 0 false false t 0 0.
End Serving.
