(* ===== verification/ServingSpec.v ===== *)
(** How a worker ends: it cuts no request before its deadline, and it ends soon after it. *)

From stdpp Require Import gmap.
From S2P Require Import Prelude Bytes Bridge Serving.

Section Spec.
Context (tls http3 : bool) (recycle_after : Z).
Abbreviation step := (step tls http3 recycle_after).
Abbreviation run := (run tls http3 recycle_after).
Implicit Types (w : Worker) (e : Event).

(** ** The invariant *)

(** [active] counts the open connections, and those whose task panicked; the permit to recycle is
    given when the limit is reached, and not before; the flag says whether the worker drains. *)
Record fine w : Prop := {
  f_active : active w = Z.of_nat (size (conns w)) + gone w;
  f_gone : 0 <= gone w;
  f_cap : active w <= MAX_CONNECTIONS;
  f_served : 0 <= served w;
  f_permit : permit w = true <-> 0 < recycle_after <= served w;
  f_flag : draining w = true <-> phase w <> Accepting;
  f_quic : http3 = false -> quic w = O }.

Lemma fine_set i c c' w : fine w -> conns w !! i = Some c -> fine (set_conn i c' w).
Proof.
  intros [] Hi. split; cbn; try done. rewrite map_size_insert_Some by done. done.
Qed.

Lemma fine_end i c w : fine w -> conns w !! i = Some c -> fine (end_conn i w).
Proof.
  intros [] Hi. pose proof (map_size_ne_0_lookup_2 (conns w) i (ltac:(by eexists))) as Hn.
  split; cbn; try done; [|lia]. rewrite map_size_delete, Hi. lia.
Qed.

Lemma fine_lose i c w : fine w -> conns w !! i = Some c -> fine (lose_conn i w).
Proof.
  intros [] Hi. pose proof (map_size_ne_0_lookup_2 (conns w) i (ltac:(by eexists))) as Hn.
  split; cbn; try done; [|lia]. rewrite map_size_delete, Hi. lia.
Qed.

Lemma fine_accepted i w : fine w -> conns w !! i = None -> fine (accepted tls i w).
Proof.
  intros [] Hi. unfold accepted. case_bool; [done|]. split; cbn; try done; [|lia].
  rewrite map_size_insert_None by done. lia.
Qed.

Lemma fine_finish w : fine w -> fine (finish recycle_after w).
Proof.
  intros []. unfold finish. case_bool; [|done]. split; cbn; try done; [lia|].
  rewrite orb_true_iff, Z.eqb_eq, f_permit0. lia.
Qed.

Lemma fine_handled b w : fine w -> fine (handled recycle_after b w).
Proof. destruct b; [apply fine_finish|done]. Qed.

Lemma fine_settle i c h n asked w : fine w -> conns w !! i = Some c -> fine (settle i h n asked w).
Proof. intros Hf Hi. unfold settle. case_bool; [by eapply fine_end|by eapply fine_set]. Qed.

Lemma fine_drain w : fine w -> fine (drain w).
Proof. intros []. by split. Qed.

Lemma phase_handled b w : phase (handled recycle_after b w) = phase w.
Proof. destruct b; [|done]. cbn. unfold finish. by case_bool. Qed.
Lemma conns_handled b w : conns (handled recycle_after b w) = conns w.
Proof. destruct b; [|done]. cbn. unfold finish. by case_bool. Qed.
Lemma phase_settle i h n asked w : phase (settle i h n asked w) = phase w.
Proof. unfold settle. by case_bool. Qed.

(** What an event does, and when it can happen. *)
Lemma step_cases w e w' :
  step w e = Some w' ->
  phase w <> Returned /\
  match e with
  | Accept i => phase w = Accepting /\ conns w !! i = None /\ w' = accepted tls i w
  | AcceptError => phase w = Accepting /\ w' = w
  | Recycle => phase w = Accepting /\ permit w = true /\ w' = drain w
  | Term => phase w = Accepting /\ w' = drain w
  | Poll => poll_drain w = Some w'
  | Tick ms => 0 <= ms /\ w' = tick ms w
  | QuicRequest => http3 = true /\ w' = with_quic w (S (quic w))
  | QuicHandled b => w' = handled recycle_after b w
  | QuicEnds => w' = with_quic w (pred (quic w))
  | Notice i => exists d c, phase w = Draining d /\ conns w !! i = Some c /\ w' = asked_to_close i c w
  | Handshake i | HandshakeEnds i | Request i | Handled i _ | Sent i | Close i | Panic i =>
      exists c, conns w !! i = Some c /\
      ((exists c', w' = set_conn i c' w) \/ (exists b c', w' = set_conn i c' (handled recycle_after b w)) \/
       (exists h n asked, w' = settle i h n asked w) \/ w' = end_conn i w \/ w' = lose_conn i w)
  end.
Proof.
  unfold Serving.step. destruct (phase w) eqn:Ep; [| |done].
  all: destruct e as [i| |i|i|i|i b|i|i|i| |b| | | |i| |ms]; try done;
    try (destruct (conns w !! i) as [[|[|h] [|n] []]|] eqn:Ei; try done).
  all: try destruct http3; try destruct (quic w) eqn:?; try destruct (permit w); try (case_bool; [|done]); intros H; try done; try (injection H as <-).
  all: split; try done; eauto 10; try (repeat split; try done; lia).
Qed.

Lemma fine_step w e w' : fine w -> step w e = Some w' -> fine w'.
Proof.
  intros H [Hp Hs]%step_cases. destruct e as [i| |i|i|i|i b|i|i|i| |b| | | |i| |ms].
  3-9: destruct Hs as (c & Hi & [[c' ->]|[(b' & c' & ->)|[(h & n & asked & ->)|[->| ->]]]]);
    first [by eapply fine_set|eapply fine_set; [by apply fine_handled|by rewrite conns_handled]
          |by eapply fine_settle|by eapply fine_end|by eapply fine_lose].
  - destruct Hs as (_ & Hi & ->). by apply fine_accepted.
  - by destruct Hs as [_ ->].
  - destruct Hs as [H3 ->]. destruct H. split; cbn; try done. congruence.
  - subst. by apply fine_handled.
  - subst. destruct H. split; cbn; try done. intros H3. by rewrite f_quic0.
  - destruct Hs as (_ & _ & ->). by apply fine_drain.
  - destruct Hs as (_ & ->). by apply fine_drain.
  - destruct Hs as (d & c & _ & Hi & ->). unfold asked_to_close.
    destruct c as [|h n asked]; [by eapply fine_end|by eapply fine_settle].
  - unfold poll_drain in Hs. destruct (phase w) as [|d|] eqn:Ep; try done. injection Hs as <-. destruct (_ && _); [done|].
    destruct H. split; cbn; try done. by rewrite f_flag0, Ep.
  - destruct Hs as [_ ->]. by destruct H.
Qed.

Lemma start_fine t : fine (start t).
Proof. split; cbn; done || (try lia). Qed.

Lemma run_app w es es' : run w (es ++ es') = w' ← run w es; run w' es'.
Proof. revert w. induction es as [|e es IH]; intros w; [done|]. cbn. destruct (step w e); [apply IH|done]. Qed.

Lemma run_fine t es w : run (start t) es = Some w -> fine w.
Proof.
  assert (forall es w0, fine w0 -> run w0 es = Some w -> fine w) as H; [|by apply H, start_fine].
  clear es. induction es as [|e es IH]; intros w0 H0; cbn; [by intros [= <-]|].
  destruct (step w0 e) as [w1|] eqn:E; [|done]. apply IH. by eapply fine_step.
Qed.

(** A worker's count is right.  However accepts, requests, responses, errors and the drain
    interleave, [active] is the number of open connections and of those whose task panicked, it
    is never over the cap, and a worker is allowed to recycle when it has answered as many
    requests as it was given, and not before. *)
Theorem worker_counts t es w :
  run (start t) es = Some w ->
  active w = Z.of_nat (size (conns w)) + gone w /\ 0 <= gone w /\ active w <= MAX_CONNECTIONS /\
  (permit w = true <-> 0 < recycle_after <= served w) /\ (draining w = true <-> phase w <> Accepting).
Proof. intros E. destruct (run_fine t es w E). repeat split; try tauto; done. Qed.

(** ** The drain *)

#[local] Ltac parts := repeat match goal with H : exists _, _ |- _ => destruct H | H : _ /\ _ |- _ => destruct H end.

Definition tells w e : Prop := e = Term \/ e = Recycle /\ permit w = true.

Lemma phase_step w e w' :
  step w e = Some w' ->
  match phase w with
  | Accepting => phase w' = Accepting \/ phase w' = Draining (now w + DRAIN_MS) /\ tells w e
  | Draining d =>
      (forall i, e <> Accept i) /\
      (phase w' = Draining d \/ phase w' = Returned /\ active w' = active w /\ now w' = now w /\ (active w <= 0 \/ d <= now w))
  | Returned => False
  end.
Proof.
  intros [Hp Hs]%step_cases. destruct (phase w) as [|d|] eqn:Ep; [| |done].
  - destruct e as [i| |i|i|i|i b|i|i|i| |b| | | |i| |ms]; parts; subst; try done;
      try (match goal with H : _ \/ _ |- _ => destruct H as [[? ->]|[(? & ? & ->)|[(? & ? & ? & ->)|[->| ->]]]] end);
      cbn; rewrite ?phase_settle, ?phase_handled; try (by left); try (right; split; [done|]; first [by left|by right]).
    + left. unfold accepted. by case_bool.
    + unfold poll_drain in Hs. by rewrite Ep in Hs.
  - destruct e as [i| |i|i|i|i b|i|i|i| |b| | | |i| |ms]; parts; subst; try done; (split; [done|]);
      try (match goal with H : _ \/ _ |- _ => destruct H as [[? ->]|[(? & ? & ->)|[(? & ? & ? & ->)|[->| ->]]]] end);
      cbn; rewrite ?phase_settle, ?phase_handled; try (by left).
    + left. unfold asked_to_close. case_match; [done|by rewrite phase_settle].
    + unfold poll_drain in Hs. rewrite Ep in Hs. injection Hs as <-. destruct (_ && _) eqn:Eb; [by left|right]. cbn.
      apply andb_false_iff in Eb. split; [done|]. split; [done|]. split; [done|]. lia.
Qed.

(** Where a drain came from: the event that began it, and its deadline. *)
Definition drained t es (d : Z) : Prop :=
  exists es1 x es2 w1, es = es1 ++ x :: es2 /\ run (start t) es1 = Some w1 /\ phase w1 = Accepting /\ tells w1 x /\
    d = now w1 + DRAIN_MS /\ Forall (fun e => forall i, e <> Accept i) es2.

Lemma drained_snoc t es d e : (forall i, e <> Accept i) -> drained t es d -> drained t (es ++ [e]) d.
Proof.
  intros He (es1 & x & es2 & w1 & -> & ? & ? & ? & ? & H). exists es1, x, (es2 ++ [e]), w1.
  rewrite <- app_assoc. repeat (split; [done|]). apply Forall_app. split; [done|by constructor].
Qed.

Lemma run_history t es w :
  run (start t) es = Some w ->
  match phase w with
  | Accepting => True
  | Draining d => drained t es d
  | Returned => exists d, drained t es d /\ (active w <= 0 \/ d <= now w)
  end.
Proof.
  revert w. induction es as [|e es IH] using rev_ind; intros w; [by intros [= <-]|]. rewrite run_app.
  destruct (run (start t) es) as [w1|] eqn:E1; [|done]. cbn. destruct (step w1 e) as [w2|] eqn:E2; [|done]. intros [= <-].
  specialize (IH w1 eq_refl). pose proof (phase_step _ _ _ E2) as H. destruct (phase w1) as [|d|] eqn:Ep; [| |done].
  - destruct H as [->|[-> Ht]]; [done|]. by exists es, e, [], w1.
  - destruct H as [He [->|(-> & Ea & En & Ha)]]; [by apply drained_snoc|].
    exists d. split; [by apply drained_snoc|]. by rewrite En, Ea.
Qed.

(** C20.  A drain lets its connections finish.  A worker stops accepting connections when it is told to,
    or when it has answered as many requests as it was given, and not otherwise; it accepts none
    after that.  It returns when none is open, or when ten seconds have passed: a request that is
    cut on one has had all of them.  The interpreter's thread is told that this is a drain, and does
    not take it for the death of its script.  The requests of HTTP/3 are under no connection of
    these, and are neither refused nor waited for (see [http3_is_not_drained]): there are none when
    HTTP/3 is off. *)
Theorem drain_cuts_nobody_early t es w :
  run (start t) es = Some w -> phase w = Returned ->
  exit_code (draining w) = None /\
  exists es1 x es2 w1, es = es1 ++ x :: es2 /\ run (start t) es1 = Some w1 /\ phase w1 = Accepting /\
    (x = Term \/ x = Recycle /\ 0 < recycle_after <= served w1) /\
    Forall (fun e => forall i, e <> Accept i) es2 /\
    (conns w = ∅ \/ now w1 + DRAIN_MS <= now w) /\ (http3 = false -> quic w = O).
Proof.
  intros E Ep. pose proof (run_fine _ _ _ E) as Hf. pose proof (run_history _ _ _ E) as H. rewrite Ep in H.
  destruct H as (d & (es1 & x & es2 & w1 & -> & E1 & Ep1 & Ht & -> & Ha) & Hend). split.
  { rewrite (proj2 (f_flag w Hf)); [done|by rewrite Ep]. }
  exists es1, x, es2, w1. repeat (split; [done|]). split; [|split; [done|split; [|by apply f_quic]]].
  - destruct Ht as [->|[-> Hp]]; [by left|right]. split; [done|]. by apply (f_permit w1 (run_fine _ _ _ E1)).
  - destruct Hend as [Hz|?]; [left|by right]. destruct Hf. apply map_size_empty_inv. lia.
Qed.

(** ** It ends *)

(** A connection that is asked, and whose requests are answered, is gone. *)
Fixpoint sends (i n : nat) : list Event := match n with O => [] | S n => Sent i :: sends i n end.
Fixpoint answers (i h n : nat) : list Event :=
  match h with O => sends i n | S h => Handled i false :: answers i h (S n) end.

Lemma set_set i c c' w : set_conn i c (set_conn i c' w) = set_conn i c w.
Proof. unfold set_conn, with_conns. cbn. by rewrite insert_insert_eq. Qed.
Lemma end_set i c w : end_conn i (set_conn i c w) = end_conn i w.
Proof. unfold end_conn, set_conn, with_conns. cbn. by rewrite delete_insert_eq. Qed.
Lemma lookup_set i c w : conns (set_conn i c w) !! i = Some c.
Proof. apply lookup_insert_eq. Qed.

Lemma step_sent i h n d w :
  phase w = Draining d -> step (set_conn i (Open h (S n) true) w) (Sent i) = Some (settle i h n true (set_conn i (Open h (S n) true) w)).
Proof. intros Ep. unfold Serving.step. rewrite lookup_set. cbn [phase set_conn with_conns]. by rewrite Ep. Qed.

Lemma step_handled i h n d w :
  phase w = Draining d -> step (set_conn i (Open (S h) n true) w) (Handled i false) = Some (set_conn i (Open h (S n) true) w).
Proof.
  intros Ep. unfold Serving.step. rewrite lookup_set. cbn [phase set_conn with_conns]. rewrite Ep. f_equal. apply set_set.
Qed.

Lemma run_sends i n d w :
  phase w = Draining d -> run (set_conn i (Open 0 (S n) true) w) (sends i (S n)) = Some (end_conn i w).
Proof.
  intros Ep. induction n as [|n IH]; change (sends i (S ?n)) with (Sent i :: sends i n); cbn [Serving.run];
    rewrite (step_sent i _ _ d) by done; cbn [mbind option_bind]; unfold settle; cbn [andb].
  - cbn. f_equal. apply end_set.
  - rewrite bool_decide_eq_false_2 by lia. by rewrite set_set.
Qed.

Lemma run_answers i h n d w :
  phase w = Draining d -> (0 < h + n)%nat ->
  run (set_conn i (Open h n true) w) (answers i h n) = Some (end_conn i w).
Proof.
  intros Ep. revert n. induction h as [|h IH]; intros n Hn; cbn [answers].
  { destruct n as [|n]; [lia|]. by eapply run_sends. }
  cbn [Serving.run]. rewrite (step_handled i _ _ d) by done. cbn [mbind option_bind]. apply IH. lia.
Qed.

Definition last_answers (i : nat) (c : Conn) : list Event := match c with Open h n _ => answers i h n | Shaking => [] end.

Lemma run_notice i c d w :
  phase w = Draining d -> conns w !! i = Some c -> run w (Notice i :: last_answers i c) = Some (end_conn i w).
Proof.
  intros Ep Ei. cbn [Serving.run]. assert (step w (Notice i) = Some (asked_to_close i c w)) as ->.
  { unfold Serving.step. by rewrite Ep, Ei. }
  cbn [mbind option_bind]. destruct c as [|h n asked]; [done|]. cbn [asked_to_close last_answers]. unfold settle. cbn [andb].
  case_bool_decide as E; [by assert (h = 0 /\ n = 0)%nat as [-> ->] by lia|]. eapply run_answers; [done|lia].
Qed.

(** What the connections do that answer what they have. *)
Definition own_work e : Prop := match e with Notice _ | Handled _ _ | Sent _ => True | _ => False end.

Lemma answers_work i h n : Forall own_work (answers i h n).
Proof.
  revert n. induction h as [|h IH]; intros n; cbn [answers]; [|constructor; [done|apply IH]].
  induction n; by constructor.
Qed.

Lemma run_all_notice d w :
  phase w = Draining d ->
  exists es w', run w es = Some w' /\ Forall own_work es /\ conns w' = ∅ /\ phase w' = Draining d /\ now w' = now w /\
    gone w' = gone w.
Proof.
  remember (size (conns w)) as n eqn:En. revert w En. induction n as [|n IH]; intros w En Ep.
  { exists [], w. by rewrite (map_size_empty_inv (conns w)). }
  destruct (map_choose (conns w)) as (i & c & Ei); [intros E; by rewrite E in En|].
  destruct (IH (end_conn i w)) as (es & w' & Er & Hw & ?); [cbn; rewrite map_size_delete, Ei; lia|done|].
  pose proof (run_notice i c d w Ep Ei) as E1.
  exists ((Notice i :: last_answers i c) ++ es), w'. rewrite run_app, E1. cbn.
  split; [done|]. split; [|done]. constructor; [done|]. apply Forall_app. split; [|done]. destruct c; [constructor|apply answers_work].
Qed.

(** A drain ends: at its deadline at the latest, whatever the connections do -- and at once when
    each of them answers what it has. *)
Theorem drain_ends t es w d :
  run (start t) es = Some w -> phase w = Draining d ->
  (exists w', run w [Tick (Z.max 0 (d - now w)); Poll] = Some w' /\ phase w' = Returned /\ now w' = Z.max d (now w)) /\
  (gone w = 0 -> exists es' w', run w (es' ++ [Poll]) = Some w' /\ Forall own_work es' /\
     phase w' = Returned /\ conns w' = ∅ /\ now w' = now w).
Proof.
  intros E Ep. split.
  - cbn [Serving.run]. set (ms := Z.max 0 (d - now w)).
    assert (step w (Tick ms) = Some (tick ms w)) as ->.
    { unfold Serving.step. rewrite Ep. by replace (0 <=? ms) with true by lia. }
    cbn [mbind option_bind]. unfold Serving.step. cbn [phase tick]. rewrite Ep. unfold poll_drain. cbn [phase tick now active]. rewrite Ep.
    replace (now w + ms <? d) with false by lia. rewrite andb_false_r. eexists. split; [done|]. cbn. split; [done|lia].
  - intros Hg. destruct (run_all_notice d w Ep) as (es' & w1 & E1 & Hw & Hc & Hp & Hn & Hg').
    assert (fine w1) as Hf by (apply (run_fine t (es ++ es')); by rewrite run_app, E; cbn).
    exists es', (with_phase w1 Returned (draining w1)).
    split; [|done]. rewrite run_app, E1. cbn [mbind option_bind Serving.run]. unfold Serving.step. rewrite Hp.
    unfold poll_drain. rewrite Hp. destruct Hf. rewrite f_active0, Hc, map_size_empty, Hg', Hg. done.
Qed.
End Spec.

(** ** A worker *)

Definition drain_run : list Event :=
  [Accept 1; Accept 2; Accept 3; Request 1; AcceptError; Request 2; Handled 2 true; Sent 2; Request 2; Handled 2 true;
   Recycle; Tick 5; Notice 2; Notice 3; Poll; Sent 2; Notice 1; Handled 1 true; Sent 1; Poll]%nat.

Example drained_early :
  match Serving.run false false 2 (start 100) drain_run with
  | Some w => phase w = Returned /\ conns w = ∅ /\ served w = 3 /\ now w = 105
  | None => False
  end.
Proof. by vm_compute. Qed.

Lemma drain_cuts_nobody_early_witness :
  exists w, Serving.run false false 2 (start 100) drain_run = Some w /\ exit_code (draining w) = None.
Proof.
  eexists. split; [vm_compute; reflexivity|].
  refine (proj1 (drain_cuts_nobody_early false false 2 100 drain_run _ _ _)); vm_compute; reflexivity.
Defined.

Lemma drain_ends_witness :
  exists w, Serving.run false false 0 (start 0) [Accept 1; Request 1; Term]%nat = Some w /\
    exists w', Serving.run false false 0 w [Tick (Z.max 0 (10000 - now w)); Poll] = Some w' /\ phase w' = Returned.
Proof.
  eexists. split; [vm_compute; reflexivity|].
  refine (match proj1 (drain_ends false false 0 0 [Accept 1; Request 1; Term]%nat _ 10000 _ _) with
          | ex_intro _ w' (conj H1 (conj H2 _)) => ex_intro _ w' (conj H1 H2) end); vm_compute; reflexivity.
Defined.

Lemma worker_counts_witness :
  exists w, Serving.run false false 2 (start 100) drain_run = Some w /\ active w <= MAX_CONNECTIONS.
Proof.
  eexists. split; [vm_compute; reflexivity|].
  refine (proj1 (proj2 (proj2 (worker_counts false false 2 100 drain_run _ _)))). vm_compute. reflexivity.
Defined.

(** *** A task that panics *)

(** Its connection is never taken off the count: a worker that has lost as many tasks as it may have
    connections sheds every client, and its drain waits for nobody until the deadline. *)
Fixpoint lost (n : nat) : list Event := match n with O => [] | S n => Accept n :: Panic n :: lost n end.
Definition left_with (a : Z) : Worker := mkWorker Accepting ∅ a 0 false false 0 a 0.

Lemma run_lost n a :
  a + Z.of_nat n <= MAX_CONNECTIONS -> Serving.run false false 0 (left_with a) (lost n) = Some (left_with (a + Z.of_nat n)).
Proof.
  revert a. induction n as [|n IH]; intros a Ha; [by rewrite Z.add_0_r|].
  assert (Serving.run false false 0 (left_with a) [Accept n; Panic n] = Some (left_with (a + 1))) as E.
  { assert (Serving.step false false 0 (left_with a) (Accept n) = Some (set_conn n (Open 0 0 false) (with_conns (left_with a) ∅ (a + 1)))) as E1.
    { unfold Serving.step, left_with, accepted, with_conns. cbn [phase conns active served permit draining now gone quic].
      rewrite lookup_empty. by replace (MAX_CONNECTIONS <=? a) with false by lia. }
    cbn [Serving.run]. rewrite E1. cbn [mbind option_bind]. unfold Serving.step. rewrite lookup_set.
    unfold lose_conn, set_conn, with_conns. cbn [phase conns active served permit draining now gone quic left_with].
    by rewrite delete_insert_eq, delete_empty. }
  change (lost (S n)) with ([Accept n; Panic n] ++ lost n). rewrite run_app, E. cbn [mbind option_bind].
  rewrite IH by lia. do 2 f_equal; lia.
Qed.

Lemma panics_fill_the_worker i :
  Serving.run false false 0 (start 0) (lost (Z.to_nat MAX_CONNECTIONS)) = Some (left_with MAX_CONNECTIONS) /\
  Serving.run false false 0 (left_with MAX_CONNECTIONS) [Accept i] = Some (left_with MAX_CONNECTIONS) /\
  exists w, Serving.run false false 0 (left_with MAX_CONNECTIONS) [Term; Tick 9999; Poll] = Some w /\
    phase w = Draining DRAIN_MS /\ conns w = ∅.
Proof.
  split; [|split; [done|by eexists]]. apply (run_lost (Z.to_nat MAX_CONNECTIONS) 0). unfold MAX_CONNECTIONS. lia.
Qed.

(** *** HTTP/3 *)

(** Its requests are not counted, and its endpoint is not told of the drain: the worker returns, and
    its process ends, with a request under way -- even one that came during the drain. *)
Lemma http3_is_not_drained :
  exists w, Serving.run true true 0 (start 0) [QuicRequest; Accept 1; Handshake 1; Term; QuicRequest; Notice 1; Poll]%nat = Some w /\
    phase w = Returned /\ now w = 0 /\ quic w = 2%nat.
Proof. eexists. by split; [vm_compute|]. Qed.
